(* ===== verification/_CoqProject ===== *)
-Q . S2P
Prelude.v
Types.v
Db.v
Tables.v
Schema.v
Ingest.v
Results.v
Store.v
ResultsFacts.v
ResultsDispatch.v
ResultsProps.v
StoreFacts.v
StoreProps.v
JobMachine.v
LostRetry.v
Attempts.v
Steps.v
Concurrent.v
ConcurrentTokens.v
ConcurrentFacts.v
ConcurrentProps.v
ConcurrentAttempts.v
Scheduler.v
Interfaces.v
Tasks.v
Engine.v
EngineProps.v
Protocol.v
EngineSteps.v
Registry.v
RegistryProps.v
System.v
Float.v
Options.v
Adaptive.v
AdaptiveProps.v
IngestWriter.v
IngestWriterProps.v
Linear.v
IngestLinear.v
ResultsWriter.v
ResultsWriterProps.v
ResultsLinear.v
WorkerSdk.v
WorkerSdkProps.v
Link.v
LinkProps.v
Config.v
ConfigProps.v
Paths.v
Opening.v
Startup.v
Supervisor.v
SupervisorProps.v
Server.v
ServerProps.v
Tls.v
TlsProps.v
Bulk.v
Api.v
ApiProps.v
