(* ===== verification/Prelude.v ===== *)
(** * Maqistor: verification of the durable job executor

    Maqistor accepts jobs over HTTP, stores them in SQLite, hands them to workers that are connected
    over TLS, and records their results; a failed job is retried up to the limit of its queue. This
    library models the Rust crates under [src/crates/] and proves what they promise. This file is the
    prelude: notations, the types of Rust's standard library the code uses, and the lemmas and tactics
    the other files share.

    ** How the program works

    - A client posts a job; the engine stores it in the {e ingest} database ([accepted_jobs]) and gives
      its queue a turn with the scheduler.
    - The scheduler task works in passes. A pass reserves slots of workers, claims jobs of its queues in
      the ingest database under fresh dispatch ids, starts an execution for each in the {e results}
      database ([executions]), and queues a delivery for each. A delivery sends the job to its worker.
    - A worker reports the result of a job under its dispatch id. The results database records it, and
      when a retry is left the claim in the ingest database is released, so that the job is claimed
      again. An execution whose lease expires is failed by a periodic recovery.
    - Each database has one writer thread that serves requests from a channel in turns, with batches
      whose size and wait are adapted to the load.
    - A supervisor keeps the containers of the managed queues; a cleanup task deletes old records.

    ** The files and the code they model

    - [Types]: [engine/src/types.rs]. [Interfaces]: the traits of [engine/src/lib.rs], as classes with
      laws.
    - [Db]: the monad of the code that runs against SQLite; [Tables]: [sqlite/common.rs], the two
      databases and the meaning of the SQL statements; [Schema]: the migration of their files. [Bulk]:
      [sqlite/bulk.rs], the text of the bulk statements and their parameters. [Opening]: [RwConnection] and
      [ReadPool] of [sqlite/common.rs], how the connections are opened and shared; [Startup]: how the
      writers are started and the store is opened, on files that paths lead to by any function, so that two
      paths may lead to one file.
    - [Ingest], [Results]: [impl IngestConn] of [sqlite/ingest.rs] and [impl ResultsConn] of
      [sqlite/results.rs], an operation each. [ResultsFacts], [ResultsDispatch], [ResultsProps]: the
      state machine of an execution and the contracts of the operations.
    - [Store]: [sqlite/store.rs], [SqliteStore] over the two connections. [StoreFacts]: the invariant
      that links the databases; [StoreProps]: what claims, results, releases and recoveries promise;
      [JobMachine]: the abstract machine of a job, which the store refines; [Attempts]: how often a job
      is executed; [LostRetry]: the retry that is lost when the process stops between the two databases.
    - [Concurrent]: the operations of [sqlite/store.rs] again, each as the sequence of its requests, and
      the pool of the tasks that run them side by side. [Steps], [ConcurrentTokens],
      [ConcurrentFacts], [ConcurrentProps]: a logic of tasks and its rules, with which each operation is
      verified alone for any company; [ConcurrentAttempts]: how often a job is executed then.
    - [Tasks]: an [async] block as a resumption that stops at each of its critical sections and awaited
      calls. [Scheduler], [Engine]: [engine/src/lib.rs], the latter as such tasks. [EngineProps]: what a
      pass does, against the interfaces; [EngineSteps]: the tasks of the engine side by side, with passes
      that are interrupted at each await and deliveries in flight, a logic of what a task holds, and the
      invariant.
    - [Protocol]: [worker-protocol/src/lib.rs] and the frame readers. [Registry], [RegistryProps]: the
      registry of [dispatcher/src/lib.rs], the dispatcher over it, and the sessions of the workers.
    - [System]: the instances [SqliteStore] and [RegistryDispatcher] put into the engine, as [main] does.
    - [Float], [Options], [Adaptive], [AdaptiveProps]: [sqlite/options.rs], [engine/src/adaptive.rs],
      [sqlite/adaptive.rs], on IEEE 754 binary64.
    - [IngestWriter], [ResultsWriter] with their [Props]: the loops of the two writer threads. [Linear],
      [IngestLinear], [ResultsLinear]: the loops as sequences of requests served one at a time.
    - [WorkerSdk], [WorkerSdkProps]: [worker-sdk/src/lib.rs], the session of a worker. [Link],
      [LinkProps]: that session and the one of the registry, joined by a connection.
    - [Config], [ConfigProps]: [maqistor/src/config.rs]. [Paths]: the paths of the two databases.
      [Supervisor], [SupervisorProps]: the supervisor
      of [dispatcher/src/lib.rs]. [Server], [ServerProps]: [maqistor/src/main.rs], from the configuration
      to a running server, and the turns of the cleanup task. [Tls], [TlsProps]: the TLS set-up of both
      sides, [start_worker_listener], [run_until], and the worker of [benchmark/noop-worker].
    - [Api], [ApiProps]: [api/src/lib.rs], [types/src/http.rs] and [client-sdk].

    ** How state and effects are modelled

    State is a record and an operation a function on it. What is asked of the world (the clock, UUIDs,
    whether a statement fails, the order of the rows of a query) is answered by the class [Env] of [Db]:
    a computation of the monad [M] counts its questions and every theorem holds for all answers, hence
    for every pattern of failures and every admissible order of rows. [EnvLaws] says what is relied on:
    UUIDs do not repeat, a query returns its rows in some order, a new rowid is one more than the
    largest. A transaction that fails leaves the database as it was. [wp] is the logic of the monad.
    Tasks and threads are steps: [sched_step] and [system_step] interleave the critical sections of the
    scheduler and of the registry, [engine_step] the tasks of the engine, each stopped at its awaits, [store_run] the operations of
    the store with stops of the process between them, [tasks_step] the requests of operations of the store
    that overlap, [serve_event] what tokio may decide in a session of
    the SDK, and [link_step] a worker, its connection and the rest of the server. Unbounded channels are
    lists. A Rust integer is the [Z] it denotes, with its width where the
    code converts, saturates or clamps.

    Code outside the repository is a class whose laws are what its documentation says, each with an
    instance at which the theorems are applied: [Env] (rusqlite, SQLite, the clock, uuid), [Channel]
    (tokio's channels), [Cbor] (serde_cbor), [Host] (the file system, humantime, chrono), [Docker]
    (bollard and the daemon), [Tls] (rustls, its PEM reader, sockets), [Json] (serde_json) and [Axum] (axum).
    The parser of TOML is a parameter of [load]. The connection of the HTTP client is
    a function, of which [delivers] says that requests arrive.

    ** What the theorems show

    - {e The store}: the invariant that links the databases holds after every sequence of operations,
      however they fail, as long as they keep to [op_safe]: no claim is released once its job is completed
      under it, a cleanup spares the newest job, rowids do not run out (the defects below are what happens
      otherwise). Every operation refines the machine of a job, except for the release just named, which
      may reopen its job; claims are exclusive, and hand out the oldest available jobs as running ones; a
      completed job is never started again, and no job is executed more often than its retries and the
      claims given back allow, under the same condition; what a result does in each case; enqueueing is all
      or nothing; opening the store releases exactly the orphaned claims; opening a file gives it the whole
      schema or fails; a store opened at two different files has both schemas and is ready, one opened at a
      single new file lacks a table.
    - {e The store under concurrency}: when operations overlap, request by request, and keep to
      [request_safe], the conditions above taken to single requests (a claim is abandoned only after its
      execution has started and while its job is not completed under it), the invariant still holds between
      any two requests, each request moves each job by one step of its machine at most, a completed job
      stays completed, and no retry is granted twice; an operation that nothing disturbs is the one of
      [Store].
    - {e The results connection}: every request moves each execution along its state machine and is
      answered once; completing a batch is completing its results one by one, when no two are for the same
      dispatch.
    - {e The writers}: with validated options, and dispatches that have rows, the loops end, with an
      iteration for each request, and answer every request once and in order within its class; the only
      other end is the panic at a wait that is no [Duration]. Their replies and their databases are those
      of serving the requests one at a time; neither lane starves once a preference is confirmed; batches
      keep to the validated limits; the parameters of the bulk statements are those that are bound.
    - {e The engine}: budget, deliveries queued and in flight, reserved slots and turns balance in every
      interleaving; the scheduler task never panics, and from every state the tasks can finish, with
      nothing queued and the whole budget free; a pass delivers exactly the jobs it has claimed; each
      queue keeps exactly one turn and none is forgotten; an accepted submission is stored and scheduled,
      any other HTTP request changes nothing, and the client sees what the engine answers.
    - {e The workers}: no worker gets more jobs than its capacity, a draining one gets none; the chosen
      worker is the least loaded; sessions end and remove their worker; frames are read as they were
      written; the SDK reports each job once. On a connection that carries whole frames, the registry and
      the session of a worker agree on the jobs in flight at any time, each side accepts every frame of
      the other, a job never waits for a slot of its worker, and a drained worker leaves nothing behind. Only a session
      whose certificate chains to the CA of the configuration registers a worker.
    - {e The server}: validation accepts exactly the configurations its messages ask for, and two kinds
      it should not ([zero_backoff], [hostless_endpoint]); an accepted configuration starts, with two
      files for the two databases unless it names one for both. The supervisor neither removes nor changes
      a container that is not its own, except that it starts one that stands for a replica and is as its
      queue asks for; it keeps those that are as configured and reaches the others. The cleanup respects
      the retention, and the vacuum its time of day and its spacing.
    - {e Defects}: the lost retry, the migration that cannot be resumed, the release that reopens a
      completed job, the frame that is lost when a job
      finishes (so that the theorems about connections assume that frames arrive whole), the worker that
      can be sent nothing any more after a job that is too large, the container that is replaced for ever,
      and more in the files they concern ([one_file_is_accepted],
      [blocking_read_frame_never_succeeds], [unacknowledged_registration_leaves_a_ghost],
      [container_names_collide], [idle_list_grows], [reused_id_shows_old_result],
      [dispatch_failure_is_not_atomic], [empty_dispatch_spins], [hostless_endpoint_is_accepted],
      [unreadable_env_file_panics]).

    ** Fuel

    The loops of the writers have the fuel of one iteration for each request, the reader of a session
    that of the bytes of its stream, [chunks] that of the elements of its list; the theorems above and
    the lemmas of those functions state that it is enough.

    ** Not modelled

    What rustls does with a certificate and how it encrypts; deserialising the configuration
    (serde, toml) and JSON; logging and the command line; the [Display] of errors that only reach the
    log. What SQLite makes of the text of a statement is not derived from the text: [Tables] gives its
    meaning, [Bulk] its parameters. That a request to a writer is one step of [tasks_step] is not derived
    from the loops of the writers but matched by [IngestLinear] and [ResultsLinear], which state that their
    batches are sequences of such requests. *)
From stdpp Require Export base gmap strings list fin_maps pretty sorting.
From Stdlib Require Export ZArith Lia.
From Stdlib.Strings Require Byte.

#[export] Set Default Goal Selector "!".

#[global] Arguments decide _ _ : simpl never.

(** ** Notations, shared types *)

Declare Scope maq_scope.
Delimit Scope maq_scope with maq.
Open Scope Z_scope.
Open Scope maq_scope.

(** [Vec<u8>] *)
Abbreviation bytes := (list Byte.byte).

#[export] Instance byte_eq_dec : EqDecision Byte.byte.
Proof. intros x y. destruct (Byte.byte_eq_dec x y); [left | right]; done. Defined.

(** Rust's [Result<A, E>]. *)
Inductive result (E A : Type) : Type :=
| Ok (a : A)
| Err (e : E).
Arguments Ok {E A} a.
Arguments Err {E A} e.

Definition is_ok {E A} (r : result E A) : bool :=
  match r with Ok _ => true | Err _ => false end.

Definition result_map {E A B} (f : A -> B) (r : result E A) : result E B :=
  match r with Ok a => Ok (f a) | Err e => Err e end.

Definition result_bind {E A B} (r : result E A) (f : A -> result E B) : result E B :=
  match r with Ok a => f a | Err e => Err e end.

(** The [?] operator on values of type [Result]. *)
Notation "'let?' x := r 'in' k" := (result_bind r (fun x => k))
  (at level 10, x pattern, r at level 100, k at level 200) : maq_scope.

Definition map_err {E F A} (f : E -> F) (r : result E A) : result F A :=
  match r with Ok a => Ok a | Err e => Err (f e) end.

(** ** Machine integers

    A value of a Rust integer type is the integer it denotes; the widths occur where the code
    converts, saturates or clamps. *)
Definition i64_max : Z := 2 ^ 63 - 1.
Definition i64_min : Z := - 2 ^ 63.
Definition u8_max : Z := 2 ^ 8 - 1.
Definition u16_max : Z := 2 ^ 16 - 1.
Definition u32_max : Z := 2 ^ 32 - 1.
Definition u64_max : Z := 2 ^ 64 - 1.
(** A 64-bit target: [usize] is 64 bits wide. *)
Definition usize_max : Z := u64_max.

(** [Ord::clamp] *)
Definition clamp (x lo hi : Z) : Z := if x <? lo then lo else if hi <? x then hi else x.

Definition i64_saturate (x : Z) : Z := Z.max i64_min (Z.min i64_max x).
Definition i64_saturating_add (a b : Z) : Z := i64_saturate (a + b).
Definition i64_saturating_mul (a b : Z) : Z := i64_saturate (a * b).
Definition u8_saturating_add (a b : Z) : Z := Z.min u8_max (a + b).
Definition u32_saturating_add (a b : Z) : Z := Z.min u32_max (a + b).
Definition u32_saturating_sub (a b : Z) : Z := Z.max 0 (a - b).
Definition usize_saturating_add (a b : Z) : Z := Z.min usize_max (a + b).

(** [x as i64] for an unsigned 64-bit [x]. *)
Definition u64_as_i64 (x : Z) : Z := if x <=? i64_max then x else x - 2 ^ 64.

Lemma clamp_bounds x lo hi : lo <= hi -> lo <= clamp x lo hi <= hi.
Proof. unfold clamp. intros ?. destruct (Z.ltb_spec x lo), (Z.ltb_spec hi x); lia. Qed.

Lemma clamp_id x lo hi : lo <= x <= hi -> clamp x lo hi = x.
Proof. unfold clamp. intros ?. destruct (Z.ltb_spec x lo), (Z.ltb_spec hi x); lia. Qed.

(** ** Lists *)

(** [slice::chunks(n)]; the fuel is the length of the list, each step drops at least one element. *)
Fixpoint chunks_fuel {A} (fuel n : nat) (l : list A) : list (list A) :=
  match fuel, l with
  | O, _ | _, [] => []
  | S fuel, _ => take n l :: chunks_fuel fuel n (drop n l)
  end.
Definition chunks {A} (n : nat) (l : list A) : list (list A) := chunks_fuel (length l) n l.

Section chunks.
Context {A : Type} (n : nat) (Hn : n <> O).

Lemma chunks_fuel_concat fuel (l : list A) :
  (length l <= fuel)%nat -> concat (chunks_fuel fuel n l) = l.
Proof.
  revert l; induction fuel as [|fuel IH]; intros [|x l] Hl; simpl in *; try done; [lia|].
  rewrite IH; [apply take_drop|]. rewrite length_drop. simpl. lia.
Qed.

Lemma concat_chunks (l : list A) : concat (chunks n l) = l.
Proof. by apply chunks_fuel_concat. Qed.

Lemma chunks_fuel_bound fuel (l : list A) :
  Forall (fun c => 0 < length c <= n)%nat (chunks_fuel fuel n l).
Proof.
  revert l; induction fuel as [|fuel IH]; intros [|x l]; simpl; constructor; [|apply IH].
  rewrite length_take. simpl. lia.
Qed.

Lemma chunks_bound (l : list A) : Forall (fun c => 0 < length c <= n)%nat (chunks n l).
Proof. apply chunks_fuel_bound. Qed.
End chunks.

Section filter.
Context {A : Type} (P : A -> Prop) `{!forall x, Decision (P x)}.

Lemma list_filter_all l : Forall P l -> filter P l = l.
Proof. induction 1 as [|x l Hx _ IH]; [done|]. by rewrite filter_cons_True, IH. Qed.

Lemma list_filter_none l : Forall (fun x => ~ P x) l -> filter P l = [].
Proof. induction 1 as [|x l Hx _ IH]; [done|]. by rewrite filter_cons_False. Qed.
End filter.

(** A list used as a [HashMap] built by [collect]: the last binding of a key wins. *)
Definition collect_map {K V} `{Countable K} (l : list (K * V)) : gmap K V :=
  list_to_map (reverse l).

(** ** Maps built from lists *)

Lemma collect_map_lookup {K V} `{Countable K} (l : list (K * V)) k v :
  NoDup l.*1 -> (k, v) ∈ l -> collect_map l !! k = Some v.
Proof.
  intros Hnd Hin. unfold collect_map. apply elem_of_list_to_map_1.
  - rewrite fmap_reverse. by rewrite reverse_Permutation.
  - by rewrite reverse_Permutation.
Qed.

Lemma NoDup_fmap_eq {A B} (f : A -> B) (l : list A) x y :
  NoDup (f <$> l) -> x ∈ l -> y ∈ l -> f x = f y -> x = y.
Proof.
  intros Hnd [i Hi]%list_elem_of_lookup [j Hj]%list_elem_of_lookup E.
  assert (i = j) as ->; [|congruence].
  eapply NoDup_lookup; [done|by rewrite list_lookup_fmap, Hi|by rewrite list_lookup_fmap, Hj, E].
Qed.

Lemma fmap_zip_with_fst {A B C D} (f : A -> B -> C) (g : C -> D) (h : A -> D) l k :
  (forall x y, g (f x y) = h x) -> length k = length l -> g <$> zip_with f l k = h <$> l.
Proof.
  intros Hg. revert k. induction l as [|x l IH]; intros [|y k]; simpl; try done.
  intros [= Hl]. by rewrite Hg, IH.
Qed.

Lemma fmap_zip_with_snd {A B C D} (f : A -> B -> C) (g : C -> D) (h : B -> D) l k :
  (forall x y, g (f x y) = h y) -> length k = length l -> g <$> zip_with f l k = h <$> k.
Proof.
  intros Hg. revert k. induction l as [|x l IH]; intros [|y k]; simpl; try done.
  intros [= Hl]. by rewrite Hg, IH.
Qed.

Lemma lookup_zip_map (ks : list Z) (ds : list string) k d :
  NoDup ks -> length ks = length ds ->
  (k, d) ∈ zip ks ds <-> (list_to_map (zip ks ds) : gmap Z string) !! k = Some d.
Proof.
  intros Hnd Hl. apply elem_of_list_to_map. by rewrite fst_zip by lia.
Qed.

Lemma list_to_map_zip_None (ks : list Z) (ds : list string) k :
  k ∉ ks -> (list_to_map (zip ks ds) : gmap Z string) !! k = None.
Proof.
  intros Hk. apply not_elem_of_list_to_map_1. intros Hin. apply Hk.
  apply list_elem_of_fmap in Hin as ([k' d] & -> & Hin). by eapply elem_of_zip_l.
Qed.

(** ** Hint database and tactics *)
Create HintDb maq.
#[export] Hint Resolve clamp_bounds : maq.

(** Case analysis on every [match] of the goal or a hypothesis, remembering the equation. *)
Ltac case_all :=
  repeat (case_match; simplify_eq/=; try done).

(** ** Decimal text *)

(** One goal for each digit *)
Ltac digit_cases d :=
  assert (d = 0 \/ d = 1 \/ d = 2 \/ d = 3 \/ d = 4 \/ d = 5 \/ d = 6 \/ d = 7 \/ d = 8 \/ d = 9)%N
    as [-> |[-> |[-> |[-> |[-> |[-> |[-> |[-> |[-> | ->]]]]]]]]] by lia.

Lemma digit_value (d : N) : (d < 10)%N -> Z.of_nat (Ascii.nat_of_ascii (pretty_N_char d)) - 48 = Z.of_N d.
Proof. intros Hd. by digit_cases d. Qed.

Lemma pretty_N_head (x : N) s : (0 < x)%N -> exists d t, (d < 10)%N /\ pretty_N_go x s = String (pretty_N_char d) t.
Proof.
  revert s. induction (N.lt_wf_0 x) as [x _ IH]. intros s Hx. rewrite pretty_N_go_step by done.
  destruct (decide (x / 10 = 0)%N) as [E0|E0].
  - rewrite E0, pretty_N_go_0. exists (x mod 10)%N, s. split; [|done]. by apply N.mod_lt.
  - apply IH; [apply N.div_lt; lia|by apply N.neq_0_lt_0].
Qed.
