(* ===== verification/Types.v ===== *)
(** * The engine's data types

    [crates/engine/src/types.rs]: jobs, executions, queues, statuses and the store's errors. The
    time stamps the constructors read from the clock ([unix_now()]) are arguments here. *)
From S2P Require Import Prelude.

(** ** Status *)

Inductive ExecutionStatus : Type := Pending | Running | Completed | Failed.

#[export] Instance ExecutionStatus_eq_dec : EqDecision ExecutionStatus.
Proof. solve_decision. Defined.

Definition as_str (s : ExecutionStatus) : string :=
  match s with
  | Pending => "pending"
  | Running => "running"
  | Completed => "completed"
  | Failed => "failed"
  end.

Definition parse (value : string) : option ExecutionStatus :=
  if decide (value = "pending"%string) then Some Pending
  else if decide (value = "running"%string) then Some Running
  else if decide (value = "completed"%string) then Some Completed
  else if decide (value = "failed"%string) then Some Failed
  else None.

(** [impl Display for ExecutionStatus] *)
Definition status_to_string (s : ExecutionStatus) : string := as_str s.

(** ** Records *)

Record AcceptedJob := mkAcceptedJob {
  aj_id : Z;
  aj_queue_name : string;
  aj_payload : bytes;
  aj_dispatch_id : option string;
  aj_created_at : Z;
  aj_updated_at : Z
}.

(** [AcceptedJob::new], at time [now] *)
Definition AcceptedJob_new (now : Z) (queue_name : string) (payload : bytes) : AcceptedJob :=
  {| aj_id := 0; aj_queue_name := queue_name; aj_payload := payload;
     aj_dispatch_id := None; aj_created_at := now; aj_updated_at := now |}.

Record Execution := mkExecution {
  ex_id : Z;
  ex_job_id : Z;
  ex_queue_name : string;
  ex_status : ExecutionStatus;
  ex_execution_count : Z;          (* u32 *)
  ex_lease_expires_at : option Z;
  ex_dispatch_id : string;
  ex_result_payload : option bytes;
  ex_result_error : option string;
  ex_created_at : Z;
  ex_updated_at : Z
}.

Record Job := mkJob {
  job_id : Z;
  job_name : string;
  job_status : ExecutionStatus;
  job_payload : bytes;
  job_execution_count : Z;
  job_lease_expires_at : option Z;
  job_dispatch_id : option string;
  job_result_payload : option bytes;
  job_result_error : option string;
  job_created_at : Z;
  job_updated_at : Z
}.

Record JobQueue := mkJobQueue {
  q_name : string;
  q_max_retries : Z;               (* u32 *)
  q_timeout_secs : Z;              (* u64 *)
  q_created_at : Z;
  q_updated_at : Z
}.

Record ExecutionWithQueueConfig := mkExecutionWithQueueConfig {
  ewq_execution : Execution;
  ewq_queue : JobQueue
}.

(** [JobQueue::new], at time [now] *)
Definition JobQueue_new (now : Z) (name : string) : JobQueue :=
  {| q_name := name; q_max_retries := 3; q_timeout_secs := 60;
     q_created_at := now; q_updated_at := now |}.

(** [Job::from_accepted]: the view of a job is its accepted row, refined by its execution row when
    there is one; a failed attempt whose job is available again is shown as pending. *)
Definition from_accepted (accepted : AcceptedJob) (execution : option Execution) : Job :=
  match execution with
  | None =>
      {| job_id := aj_id accepted; job_name := aj_queue_name accepted; job_status := Pending;
         job_payload := aj_payload accepted; job_execution_count := 0;
         job_lease_expires_at := None; job_dispatch_id := aj_dispatch_id accepted;
         job_result_payload := None; job_result_error := None;
         job_created_at := aj_created_at accepted; job_updated_at := aj_updated_at accepted |}
  | Some e =>
      {| job_id := aj_id accepted; job_name := aj_queue_name accepted;
         job_status :=
           match ex_status e, aj_dispatch_id accepted with
           | Failed, None => Pending
           | status, _ => status
           end;
         job_payload := aj_payload accepted; job_execution_count := ex_execution_count e;
         job_lease_expires_at := ex_lease_expires_at e;
         job_dispatch_id := Some (ex_dispatch_id e);
         job_result_payload := ex_result_payload e; job_result_error := ex_result_error e;
         job_created_at := aj_created_at accepted; job_updated_at := ex_updated_at e |}
  end.

Inductive JobOutcome : Type :=
| Succeeded (payload : bytes)
| OFailed (message : string).

(** ** Errors *)

Inductive StoreError : Type :=
| NotFound (id : Z)
| QueueNotFound (name : string)
| Internal (message : string).

(** [Display] of [StoreError], from its [#[error]] attributes *)
Definition StoreError_to_string (e : StoreError) : string :=
  match e with
  | NotFound id => "job not found: " +:+ pretty id
  | QueueNotFound name => "queue not found: " +:+ name
  | Internal m => "internal store error: " +:+ m
  end.

Abbreviation Result A := (result StoreError A).

(** ** Lemmas *)

(** Parsing inverts printing. *)
Lemma parse_as_str s : parse (as_str s) = Some s.
Proof. by destruct s. Qed.

(** A text that parses is the text of the status it parses to. *)
Lemma parse_Some v s : parse v = Some s -> v = as_str s.
Proof. unfold parse. intros. by repeat case_decide; simplify_eq/=. Qed.

Lemma as_str_inj s t : as_str s = as_str t -> s = t.
Proof. intros H. apply (f_equal parse) in H. rewrite !parse_as_str in H. by simplify_eq. Qed.
