(* ===== verification/Db.v ===== *)
(** * The store monad

    The code that runs against a SQLite connection ([rusqlite]), the operating system's clock and
    the UUID generator. These three are not under [src/]: they are the fields of the class [Env],
    and what the code relies on is the class [EnvLaws] of documented laws. A computation [M S A]
    threads the database [S] of the connection and a counter of the questions asked of the
    environment; the answer to a question may depend on when it is asked, so every failure of a
    statement, every clock and every admissible row order is covered by one theorem.

    The program logic [wp] states what a computation does from a given connection; its rules are
    the only way the components' proofs look inside the monad. *)
From S2P Require Import Prelude Types.

Class Env := {
  (** [SystemTime::now()] in milliseconds *)
  clock : nat -> Z;
  (** [Instant::now()]: a monotonic clock, in nanoseconds *)
  instant : nat -> Z;
  (** [Uuid::new_v4().to_string()] *)
  uuid_v4 : nat -> string;
  (** the error a statement (or [BEGIN], or [COMMIT]) fails with, if it fails *)
  fault : nat -> option string;
  (** the text of a constraint or conversion error *)
  sqlite_error : nat -> string;
  (** the order of the rows of a [SELECT] without [ORDER BY], or of a [RETURNING] clause *)
  row_order : forall {A}, nat -> list A -> list A;
  (** the row of a [FROM] clause that an [UPDATE] uses when several match *)
  pick_match : forall {A}, nat -> list A -> option A;
  (** the rowid of a row inserted into a table with these rowids *)
  next_rowid : nat -> gset Z -> Z
}.

(** A bound on the rowids of a table: the largest one, [0] when the table is empty. *)
Definition max_id (ids : gset Z) : Z := set_fold Z.max 0 ids.

Class EnvLaws (E : Env) : Prop := {
  (** version 4 UUIDs do not repeat *)
  uuid_v4_inj : Inj eq eq uuid_v4;
  row_order_perm : forall A n (l : list A), row_order n l ≡ₚ l;
  pick_match_none : forall A n (l : list A), pick_match n l = None <-> l = [];
  pick_match_some : forall A n (l : list A) x, pick_match n l = Some x -> x ∈ l;
  (** "one more than the largest ROWID currently in use", 1 for an empty table *)
  next_rowid_max : forall n ids, (forall i, i ∈ ids -> 0 < i < i64_max) ->
    next_rowid n ids = max_id ids + 1
}.

(** ** The monad *)

Record conn (S : Type) := Conn { c_step : nat; c_db : S }.
Arguments Conn {S}.
Arguments c_step {S}.
Arguments c_db {S}.

Definition M (S A : Type) : Type := conn S -> Result A * conn S.

#[export] Instance M_ret {S} : MRet (M S) := fun A a c => (Ok a, c).
#[export] Instance M_bind {S} : MBind (M S) := fun A B f m c =>
  match m c with
  | (Ok a, c') => f a c'
  | (Err e, c') => (Err e, c')
  end.

#[export] Instance M_fmap {S} : FMap (M S) := fun A B f m => m ≫= fun a => mret (f a).

Definition fail {S A} (e : StoreError) : M S A := fun c => (Err e, c).

(** [match m { Ok(..) => .., Err(..) => .. }]: the result as a value *)
Definition attempt {S A} (m : M S A) : M S (Result A) := fun c =>
  let '(r, c') := m c in (Ok r, c').

(** A [Result] computed without effects. *)
Definition lift_result {S A} (r : Result A) : M S A := fun c => (r, c).

(** Convert the rows of a result set, failing with the first row that fails. *)
Fixpoint rows_result {R A} (f : R -> Result A) (l : list R) : Result (list A) :=
  match l with
  | [] => Ok []
  | r :: l => let? a := f r in let? rest := rows_result f l in Ok (a :: rest)
  end.

(** A [for] loop. *)
Fixpoint for_each {S A B} (f : A -> M S B) (l : list A) : M S (list B) :=
  match l with
  | [] => mret []
  | x :: l => y ← f x; ys ← for_each f l; mret (y :: ys)
  end.

(** A [for] loop that updates a value. *)
Fixpoint thread {S A B} (f : B -> A -> M S A) (l : list B) (a : A) : M S A :=
  match l with
  | [] => mret a
  | x :: l => a' ← f x a; thread f l a'
  end.

Section ops.
Context `{E : Env} {S : Type}.

Definition ask {A} (f : nat -> A) : M S A := fun c =>
  (Ok (f (c_step c)), Conn (Datatypes.S (c_step c)) (c_db c)).

Definition unix_now : M S Z := ask clock.
Definition instant_now : M S Z := ask instant.
Definition new_dispatch_id : M S string := ask uuid_v4.

(** One SQL statement: it fails and changes nothing, or it acts on the database. The body gets
    the step for the order of its rows and the texts of its errors. *)
Definition stmt {A} (f : nat -> S -> Result (A * S)) : M S A := fun c =>
  let c1 := Conn (Datatypes.S (c_step c)) (c_db c) in
  match fault (c_step c) with
  | Some e => (Err (Internal e), c1)
  | None =>
      match f (c_step c) (c_db c) with
      | Ok (a, db) => (Ok a, Conn (Datatypes.S (c_step c)) db)
      | Err e => (Err e, c1)
      end
  end.

Definition query {A} (f : nat -> S -> Result A) : M S A :=
  stmt (fun n db => result_map (fun a => (a, db)) (f n db)).

(** [transaction_with_behavior(Immediate)] .. [commit()]: begin and commit may fail, and an
    error anywhere drops the transaction, which rolls it back. *)
Definition transaction {A} (body : M S A) : M S A := fun c =>
  match (stmt (fun _ db => Ok (tt, db)) ≫= fun _ =>
         a ← body; _ ← stmt (fun _ db => Ok (tt, db)); mret a) c with
  | (Ok a, c') => (Ok a, c')
  | (Err e, c') => (Err e, Conn (c_step c') (c_db c))
  end.
End ops.

(** Run a computation on one part of a larger database. *)
Definition zoom {S T A} (get : T -> S) (put : S -> T -> T) (m : M S A) : M T A := fun c =>
  let '(r, c') := m (Conn (c_step c) (get (c_db c))) in
  (r, Conn (c_step c') (put (c_db c') (c_db c))).

(** ** The program logic *)

Definition wp {S A} (m : M S A) (Q : Result A -> conn S -> Prop) (c : conn S) : Prop :=
  Q (fst (m c)) (snd (m c)).

Section wp.
Context {S : Type}.
Implicit Types (c : conn S).

Lemma wp_mono {A} (m : M S A) (Q Q' : Result A -> conn S -> Prop) c :
  wp m Q c -> (forall r c', Q r c' -> Q' r c') -> wp m Q' c.
Proof. unfold wp. auto. Qed.

Lemma wp_and {A} (m : M S A) (Q Q' : Result A -> conn S -> Prop) c :
  wp m Q c -> wp m Q' c -> wp m (fun r c' => Q r c' /\ Q' r c') c.
Proof. unfold wp. auto. Qed.

Lemma wp_ret {A} (a : A) (Q : Result A -> conn S -> Prop) c : Q (Ok a) c -> wp (mret a) Q c.
Proof. done. Qed.

Lemma wp_fail {A} e (Q : Result A -> conn S -> Prop) c : Q (Err e) c -> wp (fail e) Q c.
Proof. done. Qed.

Lemma wp_lift {A} r (Q : Result A -> conn S -> Prop) c : Q r c -> wp (lift_result r) Q c.
Proof. done. Qed.

Lemma wp_bind {A B} (m : M S A) (f : A -> M S B) (Q : Result B -> conn S -> Prop) c :
  wp m (fun r c' => match r with Ok a => wp (f a) Q c' | Err e => Q (Err e) c' end) c ->
  wp (m ≫= f) Q c.
Proof. unfold wp, mbind, M_bind. by destruct (m c) as [[a|e] c']. Qed.

Lemma wp_attempt {A} (m : M S A) (Q : Result (Result A) -> conn S -> Prop) c :
  wp m (fun r c' => Q (Ok r) c') c -> wp (attempt m) Q c.
Proof. unfold wp, attempt. by destruct (m c). Qed.

Lemma wp_ask `{Env} {A} (f : nat -> A) (Q : Result A -> conn S -> Prop) c :
  Q (Ok (f (c_step c))) (Conn (Datatypes.S (c_step c)) (c_db c)) -> wp (ask f) Q c.
Proof. done. Qed.

Lemma wp_stmt `{Env} {A} (f : nat -> S -> Result (A * S)) (Q : Result A -> conn S -> Prop) c :
  (forall e, Q (Err e) (Conn (Datatypes.S (c_step c)) (c_db c))) ->
  (forall a db, f (c_step c) (c_db c) = Ok (a, db) ->
    Q (Ok a) (Conn (Datatypes.S (c_step c)) db)) ->
  wp (stmt f) Q c.
Proof.
  unfold wp, stmt. intros Herr Hok. destruct (fault (c_step c)) as [e|]; [apply Herr|].
  destruct (f (c_step c) (c_db c)) as [[a db]|e] eqn:Ef; simpl; auto.
Qed.

Lemma wp_query `{Env} {A} (f : nat -> S -> Result A) (Q : Result A -> conn S -> Prop) c :
  (forall e, Q (Err e) (Conn (Datatypes.S (c_step c)) (c_db c))) ->
  (forall a, f (c_step c) (c_db c) = Ok a ->
    Q (Ok a) (Conn (Datatypes.S (c_step c)) (c_db c))) ->
  wp (query f) Q c.
Proof.
  intros Herr Hok. apply wp_stmt; [done|]. intros a db.
  destruct (f (c_step c) (c_db c)) as [a'|e] eqn:Ef; simpl; [|done].
  intros; simplify_eq. auto.
Qed.

(** A transaction that fails leaves the database as it found it. *)
Lemma wp_transaction `{Env} {A} (body : M S A) (Q : Result A -> conn S -> Prop) c :
  (forall e n, (c_step c < n)%nat -> Q (Err e) (Conn n (c_db c))) ->
  wp body (fun r c' => (c_step c < c_step c')%nat /\
    match r with Ok a => Q (Ok a) (Conn (Datatypes.S (c_step c')) (c_db c')) | Err _ => True end)
    (Conn (Datatypes.S (c_step c)) (c_db c)) ->
  wp (transaction body) Q c.
Proof.
  unfold wp, transaction, mbind, M_bind, stmt. intros Herr Hbody.
  destruct (fault (c_step c)) as [e|]; simpl; [apply Herr; lia|].
  destruct (body _) as [[a|e] c']; simpl in *; destruct Hbody as [Hs Hq]; [|apply Herr; lia].
  destruct (fault (c_step c')) as [e|]; simpl; [apply Herr; lia|]. done.
Qed.

Lemma wp_thread {A B} (f : B -> A -> M S A) (l : list B)
    (I : list B -> A -> conn S -> Prop) (Q : Result A -> conn S -> Prop) a c :
  I [] a c ->
  (forall done x rest a c', l = done ++ x :: rest -> I done a c' ->
    wp (f x a) (fun r c'' => match r with
                             | Ok a' => I (done ++ [x]) a' c''
                             | Err e => Q (Err e) c'' end) c') ->
  (forall a c', I l a c' -> Q (Ok a) c') ->
  wp (thread f l a) Q c.
Proof.
  intros HI Hstep HQ.
  enough (forall rest done a c', l = done ++ rest -> I done a c' -> wp (thread f rest a) Q c')
    as Hgen by by apply (Hgen l [] a c).
  intros rest. induction rest as [|x rest IH]; intros done a' c' El HI'; simpl.
  - apply wp_ret. rewrite app_nil_r in El. subst. auto.
  - apply wp_bind. eapply wp_mono; [by apply (Hstep done x rest a')|].
    intros [a2|e] c'' Hy; [|done]. apply (IH (done ++ [x])); [by rewrite El, <-app_assoc|done].
Qed.

Lemma wp_for_each {A B} (f : A -> M S B) (l : list A)
    (I : list A -> list B -> conn S -> Prop) (Q : Result (list B) -> conn S -> Prop) c :
  I [] [] c ->
  (forall done x rest ys c', l = done ++ x :: rest -> I done ys c' ->
    wp (f x) (fun r c'' => match r with
                           | Ok y => I (done ++ [x]) (ys ++ [y]) c''
                           | Err e => Q (Err e) c'' end) c') ->
  (forall ys c', I l ys c' -> Q (Ok ys) c') ->
  wp (for_each f l) Q c.
Proof.
  intros HI Hstep HQ.
  enough (forall rest done ys c', l = done ++ rest -> I done ys c' ->
    wp (for_each f rest) (fun r c'' => match r with
      | Ok zs => Q (Ok (ys ++ zs)) c'' | Err e => Q (Err e) c'' end) c') as Hgen.
  { eapply wp_mono; [by apply (Hgen l [] [] c)|]. by intros [zs|e] c'. }
  intros rest. induction rest as [|x rest IH]; intros done ys c' El HI'; simpl.
  - apply wp_ret. rewrite app_nil_r in El. subst. rewrite app_nil_r. auto.
  - apply wp_bind. eapply wp_mono; [by apply (Hstep done x rest ys)|].
    intros [y|e] c'' Hy; [|done]. apply wp_bind.
    eapply wp_mono; [apply (IH (done ++ [x]) (ys ++ [y])); [by rewrite El, <-app_assoc|done]|].
    intros [zs|e] c3; [|done]. rewrite <-app_assoc. by intros ?; apply wp_ret.
Qed.
End wp.

Lemma wp_zoom {S T A} (get : T -> S) (put : S -> T -> T) (m : M S A)
    (Q : Result A -> conn T -> Prop) c :
  wp m (fun r c' => Q r (Conn (c_step c') (put (c_db c') (c_db c))))
    (Conn (c_step c) (get (c_db c))) ->
  wp (zoom get put m) Q c.
Proof. unfold wp, zoom. by destruct (m {| c_step := c_step c; c_db := get (c_db c) |}). Qed.

(** A run is its [wp]: from a [wp] fact to the equation of a run. *)
Lemma wp_run {S A} (m : M S A) Q c r c' : wp m Q c -> m c = (r, c') -> Q r c'.
Proof. unfold wp. intros H Em. by rewrite Em in H. Qed.

(** One rule of the logic. *)
Ltac wp_rule :=
  lazymatch goal with
  | |- wp (mret _) _ _ => apply wp_ret
  | |- wp (fail _) _ _ => apply wp_fail
  | |- wp (lift_result _) _ _ => apply wp_lift
  | |- wp (_ ≫= _) _ _ => apply wp_bind
  | |- wp (attempt _) _ _ => apply wp_attempt
  | |- wp unix_now _ _ => apply wp_ask
  | |- wp instant_now _ _ => apply wp_ask
  | |- wp new_dispatch_id _ _ => apply wp_ask
  | |- wp (ask _) _ _ => apply wp_ask
  | |- wp (zoom _ _ _) _ _ => apply wp_zoom
  | |- wp (match ?x with _ => _ end) _ _ => destruct x eqn:?
  | |- wp (if ?x then _ else _) _ _ => destruct x eqn:?
  end.
Ltac wp_rules := repeat (wp_rule; simpl).

(** ** Sets of rowids *)

Lemma max_id_ge ids i : i ∈ ids -> i <= max_id ids.
Proof.
  unfold max_id. apply (set_fold_ind_L (fun r (X : gset Z) => i ∈ X -> i <= r)); [set_solver|].
  intros x X r Hx IH [->%elem_of_singleton|Hi]%elem_of_union; [lia|]. specialize (IH Hi). lia.
Qed.

Lemma max_id_nonneg ids : 0 <= max_id ids.
Proof.
  unfold max_id. apply (set_fold_ind_L (fun r (X : gset Z) => 0 <= r)); intros; lia.
Qed.

Lemma max_id_lub ids n : 0 <= n -> (forall i, i ∈ ids -> i <= n) -> max_id ids <= n.
Proof.
  intros Hn. unfold max_id.
  apply (set_fold_ind_L (fun r (X : gset Z) => (forall i, i ∈ X -> i <= n) -> r <= n)); [done|].
  intros x X r Hx IH H. apply Z.max_lub; [set_solver|apply IH; set_solver].
Qed.

Lemma max_id_elem ids i : i ∈ ids -> 0 < i -> max_id ids ∈ ids.
Proof.
  intros Hi Hpos. enough (max_id ids = 0 \/ max_id ids ∈ ids) as [H|H]; [|done|].
  { apply max_id_ge in Hi. lia. }
  clear Hi. unfold max_id.
  apply (set_fold_ind_L (fun r (X : gset Z) => r = 0 \/ r ∈ X)); [by left|].
  intros x X r Hx [->|Hr]; [destruct (decide (0 <= x))|destruct (decide (r <= x))].
  - right. rewrite Z.max_l by lia. set_solver.
  - left. lia.
  - right. rewrite Z.max_l by lia. set_solver.
  - right. rewrite Z.max_r by lia. set_solver.
Qed.

(** A fresh rowid is fresh, positive and above the others. *)
Lemma next_rowid_fresh `{EnvLaws} n ids :
  (forall i, i ∈ ids -> 0 < i < i64_max) ->
  0 < next_rowid n ids /\ (forall i, i ∈ ids -> i < next_rowid n ids).
Proof.
  intros Hids. rewrite next_rowid_max by done. pose proof (max_id_nonneg ids).
  split; [lia|]. intros i Hi%max_id_ge. lia.
Qed.

(** ** Result sets *)

Lemma rows_result_ok {R A} (f : R -> Result A) (g : R -> A) l :
  (forall r, r ∈ l -> f r = Ok (g r)) -> rows_result f l = Ok (g <$> l).
Proof.
  induction l as [|r l IH]; intros Hf; simpl; [done|].
  rewrite (Hf r) by (by left). simpl. rewrite IH; [done|]. intros r' Hr. apply Hf. by right.
Qed.

Lemma rows_result_err {R A} (f : R -> Result A) l a :
  rows_result f l = Ok a -> forall r, r ∈ l -> exists b, f r = Ok b.
Proof.
  revert a. induction l as [|r l IH]; intros a; simpl; [set_solver|].
  destruct (f r) as [b|] eqn:Ef; simpl; [|done].
  destruct (rows_result f l) as [rest|]; simpl; [|done].
  intros _ r' [->|Hr]%elem_of_cons; [by exists b|by eapply IH].
Qed.

Lemma rows_result_Forall2 {R A} (f : R -> Result A) l out :
  rows_result f l = Ok out -> Forall2 (fun r a => f r = Ok a) l out.
Proof.
  revert out. induction l as [|r l IH]; intros out; simpl; [by intros [= <-]; constructor|].
  destruct (f r) as [b|] eqn:Ef; simpl; [|done].
  destruct (rows_result f l) as [rest|]; simpl; [|done]. intros [= <-]. constructor; auto.
Qed.

(** ** Dispatch ids *)

Section ids.
Context `{EL : EnvLaws}.

(** [ds] are dispatch ids generated between steps [n1] and [n2] of a run. *)
Definition new_ids (n1 n2 : nat) (ds : list string) : Prop :=
  exists ks, ds = uuid_v4 <$> ks /\ NoDup ks /\ Forall (fun k => n1 <= k < n2)%nat ks.

Lemma for_each_new_ids {S A} (l : list A) (c : conn S) :
  for_each (fun _ => new_dispatch_id) l c =
    (Ok (uuid_v4 <$> seq (c_step c) (length l)), Conn (c_step c + length l) (c_db c)).
Proof.
  revert c. induction l as [|x l IH]; intros [s db]; simpl.
  { unfold mret, M_ret. by rewrite Nat.add_0_r. }
  unfold mbind, M_bind; simpl. rewrite IH. simpl. unfold mret, M_ret. do 2 f_equal. lia.
Qed.

Lemma new_ids_nil n1 n2 : new_ids n1 n2 [].
Proof. exists []. repeat constructor. Qed.

Lemma new_ids_seq n l : new_ids n (n + l) (uuid_v4 <$> seq n l).
Proof.
  exists (seq n l). split; [done|]. split; [apply NoDup_seq|].
  apply Forall_forall. intros k Hk%elem_of_seq. lia.
Qed.

Lemma new_ids_widen n1 n2 m1 m2 ds :
  (m1 <= n1)%nat -> (n2 <= m2)%nat -> new_ids n1 n2 ds -> new_ids m1 m2 ds.
Proof.
  intros ? ? (ks & -> & Hnd & Hb). exists ks. split_and!; [done..|].
  eapply Forall_impl; [done|]. simpl. lia.
Qed.

Lemma new_ids_app n1 n2 n3 ds1 ds2 :
  (n1 <= n2 <= n3)%nat -> new_ids n1 n2 ds1 -> new_ids n2 n3 ds2 -> new_ids n1 n3 (ds1 ++ ds2).
Proof.
  intros Hs (ks1 & -> & Hnd1 & Hb1) (ks2 & -> & Hnd2 & Hb2).
  rewrite Forall_forall in Hb1, Hb2.
  exists (ks1 ++ ks2). split; [by rewrite fmap_app|]. split.
  - apply NoDup_app. split; [done|]. split; [|done].
    intros k H1%Hb1 H2%Hb2. lia.
  - apply Forall_forall. intros k [Hk%Hb1|Hk%Hb2]%elem_of_app; lia.
Qed.

Lemma new_ids_NoDup n1 n2 ds : new_ids n1 n2 ds -> NoDup ds.
Proof. intros (ks & -> & Hnd & _). apply NoDup_fmap_2; [|done]. apply uuid_v4_inj. Qed.

End ids.

(** ** Room for rowids *)

Section rowids.
Context `{EL : EnvLaws}.

Lemma max_id_insert ids i : max_id ids <= i -> max_id ({[i]} ∪ ids) = Z.max 0 i.
Proof.
  intros Hi. apply Z.le_antisymm.
  - apply max_id_lub; [lia|]. intros j [->%elem_of_singleton|Hj%max_id_ge]%elem_of_union; lia.
  - assert (i <= max_id ({[i]} ∪ ids)) by (apply max_id_ge; set_solver).
    pose proof (max_id_nonneg ({[i]} ∪ ids)). lia.
Qed.

(** The ids of a table are positive and leave room for [k] more. *)
Definition id_room {R} (t : gmap Z R) (k : nat) : Prop :=
  (forall i, i ∈ dom t -> 0 < i) /\ max_id (dom t) + Z.of_nat k < i64_max.

Lemma id_room_next {R} (t : gmap Z R) k n (r : R) :
  id_room t (S k) -> let id := next_rowid n (dom t) in
  id = max_id (dom t) + 1 /\ id_room (<[id := r]> t) k /\
  max_id (dom (<[id := r]> t)) = id /\ t !! id = None.
Proof.
  intros [Hpos Hroom] id. pose proof (max_id_nonneg (dom t)).
  assert (Hid : id = max_id (dom t) + 1).
  { apply next_rowid_max. intros i Hi. pose proof (max_id_ge _ _ Hi). specialize (Hpos i Hi). lia. }
  assert (Hmax : max_id (dom (<[id:=r]> t)) = id).
  { rewrite dom_insert_L, max_id_insert; lia. }
  split_and!; [done| |done|].
  - split; [|lia]. intros i. rewrite dom_insert_L. intros [->%elem_of_singleton|Hi]%elem_of_union; [lia|auto].
  - apply not_elem_of_dom. intros Hi%max_id_ge. lia.
Qed.
End rowids.

(** ** An environment

    Statements do not fail, the clock ticks once per question, ids are numbered, rows come in the
    order they are stored: the environment the examples run in. *)
Definition model_env : Env := {|
  clock := fun n => 1000 + Z.of_nat n;
  instant := fun n => Z.of_nat n;
  uuid_v4 := fun n => ("d" +:+ pretty n)%string;
  fault := fun _ => None;
  sqlite_error := fun _ => "constraint failed"%string;
  row_order := fun _ _ l => l;
  pick_match := fun _ _ l => head l;
  next_rowid := fun _ ids => max_id ids + 1
|}.

Lemma model_env_laws : EnvLaws model_env.
Proof.
  split; simpl.
  - intros n m H. apply (inj (String.append "d")) in H. by apply (inj pretty) in H.
  - done.
  - intros A _ [|x l]; simpl; split; done.
  - intros A _ [|x l] y; simpl; [done|]. intros [= ->]. by left.
  - done.
Qed.

#[export] Existing Instance model_env_laws.
