(* ===== verification/Tables.v ===== *)
(** * Tables

    The two databases of [crates/persistence/src/sqlite/common.rs] (schemas, row conversions) and
    the meaning of the SQL statements the writers send: [UPDATE .. FROM (VALUES ..)] with
    [RETURNING], the queue upsert, and [SELECT .. ORDER BY created_at, id LIMIT n]. *)
From S2P Require Import Prelude Types Db.

(** ** Schemas *)

(** A row of [job_queues] or [execution_queues], without its key [name]. *)
Record queue_row := mkQueueRow {
  qr_max_retries : Z;
  qr_timeout_secs : Z;
  qr_created_at : Z;
  qr_updated_at : Z
}.

(** A row of [accepted_jobs], without its rowid [id]. *)
Record accepted_row := mkAcceptedRow {
  ar_queue_name : string;
  ar_payload : bytes;
  ar_dispatch_id : option string;
  ar_created_at : Z;
  ar_updated_at : Z
}.

(** The ingest database ([apply_acceptance_schema]). *)
Record ingest_db := mkIngestDb {
  i_queues : gmap string queue_row;
  i_accepted : gmap Z accepted_row;
  i_meta : gmap string string
}.

(** A row of [executions], without [job_id], which is unique: the table is keyed by it. *)
Record execution_row := mkExecutionRow {
  er_id : Z;
  er_queue_name : string;
  er_status : string;
  er_execution_count : Z;
  er_lease_expires_at : option Z;
  er_dispatch_id : string;
  er_result_payload : option bytes;
  er_result_error : option string;
  er_created_at : Z;
  er_updated_at : Z
}.

(** The results database ([apply_executions_schema]). *)
Record results_db := mkResultsDb {
  r_queues : gmap string queue_row;
  r_executions : gmap Z execution_row
}.

Definition empty_ingest : ingest_db := mkIngestDb ∅ ∅ ∅.
Definition empty_results : results_db := mkResultsDb ∅ ∅.

Definition set_accepted (t : gmap Z accepted_row) (db : ingest_db) : ingest_db :=
  mkIngestDb (i_queues db) t (i_meta db).
Definition set_executions (t : gmap Z execution_row) (db : results_db) : results_db :=
  mkResultsDb (r_queues db) t.

(** ** Row conversions *)

(** [u32::try_from(i64)] *)
Definition u32_try_from (x : Z) : option Z := if decide (0 <= x <= u32_max) then Some x else None.
(** [u64::try_from(i64)] *)
Definition u64_try_from (x : Z) : option Z := if decide (0 <= x) then Some x else None.

Section rows.
Context `{Env}.

(** A conversion that fails is an error of the statement that reads the row. *)
Definition convert {A} (n : nat) (o : option A) : Result A :=
  match o with Some a => Ok a | None => Err (Internal (sqlite_error n)) end.

Definition row_to_execution_status (n : nat) (raw : string) : Result ExecutionStatus :=
  convert n (parse raw).

Definition row_to_accepted_job (id : Z) (r : accepted_row) : AcceptedJob :=
  mkAcceptedJob id (ar_queue_name r) (ar_payload r) (ar_dispatch_id r)
    (ar_created_at r) (ar_updated_at r).

Definition row_to_execution (n : nat) (job_id : Z) (r : execution_row) : Result Execution :=
  let? status := row_to_execution_status n (er_status r) in
  let? count := convert n (u32_try_from (er_execution_count r)) in
  Ok (mkExecution (er_id r) job_id (er_queue_name r) status count (er_lease_expires_at r)
        (er_dispatch_id r) (er_result_payload r) (er_result_error r)
        (er_created_at r) (er_updated_at r)).

Definition row_to_queue (n : nat) (name : string) (r : queue_row) : Result JobQueue :=
  let? max_retries := convert n (u32_try_from (qr_max_retries r)) in
  let? timeout_secs := convert n (u64_try_from (qr_timeout_secs r)) in
  Ok (mkJobQueue name max_retries timeout_secs (qr_created_at r) (qr_updated_at r)).

Definition row_to_execution_with_queue_config (n : nat) (job_id : Z) (e : execution_row)
    (q : queue_row) : Result ExecutionWithQueueConfig :=
  let? execution := row_to_execution n job_id e in
  let? queue := row_to_queue n (er_queue_name e) q in
  Ok (mkExecutionWithQueueConfig execution queue).
End rows.

(** ** Statements *)

(** [INSERT INTO job_queues .. ON CONFLICT(name) DO UPDATE SET max_retries, timeout_secs,
    updated_at]: an existing row keeps its [created_at]. *)
Definition upsert_queue_row (q : JobQueue) (t : gmap string queue_row) : gmap string queue_row :=
  <[q_name q :=
      mkQueueRow (q_max_retries q) (q_timeout_secs q)
        (match t !! q_name q with Some old => qr_created_at old | None => q_created_at q end)
        (q_updated_at q)]> t.

Section update_from.
Context `{E : Env} {EL : EnvLaws E} {R V : Type}.
Context (matches : V -> Z -> R -> Prop) `{!forall v k r, Decision (matches v k r)}.
Context (upd : V -> R -> R).

(** The row of [VALUES] that updates row [k], if any matches. *)
Definition chosen (n : nat) (vs : list V) (k : Z) (r : R) : option V :=
  pick_match n (filter (fun v => matches v k r) vs).

(** [UPDATE t SET upd FROM (VALUES vs) WHERE matches]: the table afterwards *)
Definition update_from (n : nat) (vs : list V) (t : gmap Z R) : gmap Z R :=
  map_imap (fun k r => Some (match chosen n vs k r with Some v => upd v r | None => r end)) t.

(** .. and the updated rows, as [RETURNING] reports them *)
Definition updated_rows (n : nat) (vs : list V) (t : gmap Z R) : list (Z * R) :=
  row_order n (map_to_list (map_imap (fun k r => (fun v => upd v r) <$> chosen n vs k r) t)).

Lemma lookup_update_from n vs t k :
  update_from n vs t !! k =
    (fun r => match chosen n vs k r with Some v => upd v r | None => r end) <$> t !! k.
Proof. unfold update_from. rewrite map_lookup_imap. by destruct (t !! k). Qed.

Lemma chosen_Some n vs k r v : chosen n vs k r = Some v -> v ∈ vs /\ matches v k r.
Proof. unfold chosen. by intros [? ?]%pick_match_some%list_elem_of_filter. Qed.

Lemma chosen_None n vs k r : chosen n vs k r = None <-> forall v, v ∈ vs -> ~ matches v k r.
Proof.
  unfold chosen. rewrite pick_match_none. split.
  - intros Hn v Hv Hm.
    assert (v ∈ filter (fun v => matches v k r) vs) as Hin by (by apply list_elem_of_filter).
    rewrite Hn in Hin. set_solver.
  - intros Hn. destruct (filter (fun v => matches v k r) vs) as [|v l] eqn:Ef; [done|].
    assert (v ∈ filter (fun v => matches v k r) vs) as [Hm Hv]%list_elem_of_filter
      by (rewrite Ef; left). by destruct (Hn v).
Qed.

Lemma elem_of_updated_rows n vs t k r' :
  (k, r') ∈ updated_rows n vs t <->
  exists r v, t !! k = Some r /\ chosen n vs k r = Some v /\ r' = upd v r.
Proof.
  unfold updated_rows. rewrite row_order_perm, elem_of_map_to_list, map_lookup_imap.
  destruct (t !! k) as [r|] eqn:Ek; simpl; [|naive_solver].
  destruct (chosen n vs k r) as [v|] eqn:Ec; simpl; split.
  - intros [= <-]. naive_solver.
  - intros (? & ? & [= <-] & ? & ->). congruence.
  - done.
  - intros (? & ? & [= <-] & ? & ->). congruence.
Qed.

Lemma updated_rows_NoDup n vs t : NoDup (updated_rows n vs t).*1.
Proof.
  unfold updated_rows. rewrite row_order_perm. apply NoDup_fst_map_to_list.
Qed.
End update_from.

(** [ORDER BY created_at ASC, id ASC] *)
Definition row_before (x y : Z * accepted_row) : Prop :=
  ar_created_at x.2 < ar_created_at y.2 \/
  (ar_created_at x.2 = ar_created_at y.2 /\ x.1 <= y.1).

#[export] Instance row_before_dec x y : Decision (row_before x y).
Proof. unfold row_before. apply _. Defined.

#[export] Instance row_before_total : Total row_before.
Proof. intros x y. unfold row_before. lia. Qed.

#[export] Instance row_before_trans : Transitive row_before.
Proof. intros x y z. unfold row_before. lia. Qed.

(** The unclaimed rows of a queue, oldest first. *)
Definition available_rows (queue_name : string) (t : gmap Z accepted_row) : list (Z * accepted_row) :=
  merge_sort row_before
    (map_to_list (filter (fun kr => ar_queue_name kr.2 = queue_name /\ ar_dispatch_id kr.2 = None) t)).

Lemma elem_of_available_rows q t k r :
  (k, r) ∈ available_rows q t <->
  t !! k = Some r /\ ar_queue_name r = q /\ ar_dispatch_id r = None.
Proof.
  unfold available_rows. rewrite merge_sort_Permutation, elem_of_map_to_list, map_lookup_filter_Some.
  done.
Qed.

Lemma available_rows_NoDup q t : NoDup (available_rows q t).*1.
Proof.
  unfold available_rows. rewrite merge_sort_Permutation. apply NoDup_fst_map_to_list.
Qed.

Lemma available_rows_sorted q t : StronglySorted row_before (available_rows q t).
Proof. apply StronglySorted_merge_sort; apply _. Qed.

(** ** Updates keyed by row *)

(** The table [t] with [f d] applied to each row whose key is bound to [d] in [m]: what an
    [UPDATE .. FROM (VALUES ..)] with one value per key amounts to. *)
Definition update_keys {D R} (f : D -> R -> R) (m : gmap Z D) (t : gmap Z R) : gmap Z R :=
  map_imap (fun k r => Some (match m !! k with Some d => f d r | None => r end)) t.

Section update_keys.
Context {D R : Type} (f : D -> R -> R).
Implicit Types (m : gmap Z D) (t : gmap Z R).

Lemma lookup_update_keys m t k :
  update_keys f m t !! k = (fun r => match m !! k with Some d => f d r | None => r end) <$> t !! k.
Proof. unfold update_keys. rewrite map_lookup_imap. by destruct (t !! k). Qed.

Lemma update_keys_empty t : update_keys f ∅ t = t.
Proof.
  apply map_eq. intros k. rewrite lookup_update_keys, lookup_empty. by destruct (t !! k).
Qed.

Lemma update_keys_union m1 m2 t :
  m1 ##ₘ m2 -> update_keys f m2 (update_keys f m1 t) = update_keys f (m1 ∪ m2) t.
Proof.
  intros Hd. apply map_eq. intros k. rewrite !lookup_update_keys, lookup_union.
  specialize (Hd k). destruct (t !! k), (m1 !! k), (m2 !! k); simpl in *; done.
Qed.

Lemma dom_update_keys m t : dom (update_keys f m t) = dom t.
Proof.
  apply set_eq. intros k. rewrite !elem_of_dom, lookup_update_keys. by destruct (t !! k).
Qed.
End update_keys.
