(* ===== verification/Schema.v ===== *)
(** * Opening a database file

    [crates/persistence/src/sqlite/common.rs], [migrate_schema] and the two schemas: what opening a file
    creates in it. The statements commit one by one, as there is no transaction around them; one that
    fails, or the end of the process, leaves those before it done. *)
From stdpp Require Import relations.
From S2P Require Import Prelude Types Db.

(** ** The definitions in a file *)

(** A file as far as the migration is concerned: the tables and indexes it has, and the rows of
    [schema_version] *)
Record db_file := mkFile { f_objects : gset string; f_versions : list Z }.

Definition add_object (name : string) (f : db_file) : db_file := mkFile ({[ name ]} ∪ f_objects f) (f_versions f).
Definition set_versions (versions : list Z) (f : db_file) : db_file := mkFile (f_objects f) versions.

Inductive ddl : Type :=
| CreateTable (if_not_exists : bool) (name : string)
| CreateIndex (name table : string).

Definition ddl_name (d : ddl) : string := match d with CreateTable _ name => name | CreateIndex name _ => name end.

Definition SCHEMA_VERSION : Z := 1.

(** [apply_acceptance_schema] *)
Definition acceptance_schema : list ddl :=
  [ CreateTable true "meta"; CreateIndex "idx_meta_key" "meta"; CreateTable false "job_queues";
    CreateTable false "accepted_jobs"; CreateIndex "idx_accepted_jobs_queue_available" "accepted_jobs" ].

(** [apply_executions_schema] *)
Definition executions_schema : list ddl :=
  [ CreateTable false "execution_queues"; CreateTable false "executions";
    CreateIndex "idx_executions_job_id" "executions"; CreateIndex "idx_executions_stale_leases" "executions" ].

Section migrate.
Context `{E : Env}.

(** A name is taken once, and an index needs its table. *)
Definition create (d : ddl) : M db_file unit := stmt (fun n f =>
  match d with
  | CreateTable if_not_exists name =>
      if decide (name ∈ f_objects f) then if if_not_exists then Ok (tt, f) else Err (Internal (sqlite_error n))
      else Ok (tt, add_object name f)
  | CreateIndex name table =>
      if decide (name ∈ f_objects f) then Err (Internal (sqlite_error n))
      else if decide (table ∈ f_objects f) then Ok (tt, add_object name f)
      else Err (Internal (sqlite_error n))
  end).

(** [Connection::execute_batch] *)
Fixpoint execute_batch (statements : list ddl) : M db_file unit :=
  match statements with
  | [] => mret tt
  | d :: statements => _ ← create d; execute_batch statements
  end.

(** A statement about the rows of [schema_version] *)
Definition on_versions {A} (g : nat -> list Z -> A * list Z) : M db_file A := stmt (fun n f =>
  if decide ("schema_version"%string ∈ f_objects f) then
    let '(a, versions) := g n (f_versions f) in Ok (a, set_versions versions f)
  else Err (Internal (sqlite_error n))).

(** [RwConnection::migrate_schema] *)
Definition migrate_schema (apply : M db_file unit) : M db_file unit :=
  _ ← create (CreateTable true "schema_version");
  found ← on_versions (fun n versions => (head (row_order n versions), versions));
  let version := default (-1) found in
  if decide (version = -1) then
    _ ← apply;
    _ ← on_versions (fun _ _ => (tt, []));
    on_versions (fun _ versions => (tt, versions ++ [SCHEMA_VERSION]))
  else if decide (version <> SCHEMA_VERSION) then
    fail (Internal ("unsupported database schema version " +:+ pretty version +:+ "; expected " +:+
                    pretty SCHEMA_VERSION +:+ " — delete the database file and restart"))
  else mret tt.

(** [IngestConn::open] and [ResultsConn::open] *)
Definition open_ingest : M db_file unit := migrate_schema (execute_batch acceptance_schema).
Definition open_results : M db_file unit := migrate_schema (execute_batch executions_schema).
End migrate.

(** ** What an opening does *)

Definition names_of (l : list ddl) : gset string := list_to_set (ddl_name <$> l).

(** The names whose second creation fails *)
Definition strict (d : ddl) : Prop := match d with CreateTable true _ => False | _ => True end.

Definition fresh_file : db_file := mkFile ∅ [].
Definition migrated_file (l : list ddl) : db_file :=
  mkFile ({[ "schema_version"%string ]} ∪ names_of l) [SCHEMA_VERSION].

(** A file whose migration has made a definition it cannot make again, but not come to its end *)
Definition half_made (l : list ddl) (f : db_file) : Prop :=
  f_versions f = [] /\ exists d, d ∈ l /\ strict d /\ ddl_name d ∈ f_objects f.

(** The statements succeed one after the other, if none of them fails by itself. *)
Fixpoint ready (objects : gset string) (l : list ddl) : bool :=
  match l with
  | [] => true
  | d :: l =>
      match d with
      | CreateTable true _ => true
      | CreateTable false name => bool_decide (name ∉ objects)
      | CreateIndex name table => bool_decide (name ∉ objects) && bool_decide (table ∈ objects)
      end && ready ({[ ddl_name d ]} ∪ objects) l
  end.

Section openings.
Context `{EL : EnvLaws}.

Lemma wp_create d (Q : Result unit -> conn db_file -> Prop) c :
  (forall e n, Q (Err e) (Conn n (c_db c))) ->
  (forall n, (strict d -> ddl_name d ∉ f_objects (c_db c)) ->
     Q (Ok tt) (Conn n (mkFile ({[ ddl_name d ]} ∪ f_objects (c_db c)) (f_versions (c_db c))))) ->
  wp (create d) Q c.
Proof using EL.
  intros Herr Hok. apply wp_stmt; [intros; apply Herr|]. destruct (c_db c) as [objects versions].
  destruct d as [[] name|name table]; simpl in *; intros [] f' Hf; repeat case_decide; simplify_eq; try (by apply Hok).
  specialize (Hok (S (c_step c)) ltac:(done)). by rewrite subseteq_union_1_L in Hok by set_solver.
Qed.

Lemma wp_on_versions {A} (g : nat -> list Z -> A * list Z) (Q : Result A -> conn db_file -> Prop) c :
  (forall e n, Q (Err e) (Conn n (c_db c))) ->
  ("schema_version"%string ∈ f_objects (c_db c) ->
     Q (Ok (g (c_step c) (f_versions (c_db c))).1) (Conn (S (c_step c)) (set_versions (g (c_step c) (f_versions (c_db c))).2 (c_db c)))) ->
  wp (on_versions g) Q c.
Proof using EL.
  intros Herr Hok. apply wp_stmt; [intros; apply Herr|]. intros a f'. case_decide; [|done].
  destruct (g _ _) as [a' versions]. intros [= <- <-]. by apply Hok.
Qed.

(** What a batch has done when it ends, wherever it ends *)
Lemma wp_execute_batch l c :
  wp (execute_batch l) (fun r c' =>
    f_versions (c_db c') = f_versions (c_db c) /\ f_objects (c_db c) ⊆ f_objects (c_db c') /\
    (r = Ok tt -> f_objects (c_db c') = names_of l ∪ f_objects (c_db c) /\
       forall d, d ∈ l -> strict d -> ddl_name d ∉ f_objects (c_db c))) c.
Proof using EL.
  revert c. induction l as [|d l IH]; intros c; simpl.
  - wp_rule. split_and!; [done..|]. intros _. unfold names_of. split; [set_solver|]. by intros d ?%elem_of_nil.
  - wp_rule. apply wp_create; [by intros|]. intros n Hd. cbn beta iota. eapply wp_mono; [apply IH|]. cbn [c_db f_objects f_versions].
    intros r c' (Hv & Hsub & Hok). split_and!; [done|set_solver|]. intros Hr. destruct (Hok Hr) as [Ho Hstrict]. split.
    + rewrite Ho. unfold names_of. rewrite fmap_cons, list_to_set_cons. set_solver.
    + intros d' [->|Hd']%elem_of_cons Hs; [by apply Hd|]. specialize (Hstrict d' Hd' Hs). set_solver.
Qed.

(** The migration of a file without a version *)
Lemma wp_apply l c :
  wp (_ ← execute_batch l; _ ← on_versions (fun _ _ => (tt, []));
      on_versions (fun _ versions => (tt, versions ++ [SCHEMA_VERSION]))) (fun r c' =>
    f_objects (c_db c) ⊆ f_objects (c_db c') /\
    if is_ok r then
      f_versions (c_db c') = [SCHEMA_VERSION] /\ f_objects (c_db c') = names_of l ∪ f_objects (c_db c) /\
      forall d, d ∈ l -> strict d -> ddl_name d ∉ f_objects (c_db c)
    else f_versions (c_db c') = f_versions (c_db c) \/ f_versions (c_db c') = []) c.
Proof using EL.
  wp_rule. eapply wp_mono; [apply wp_execute_batch|]. intros r c2 (Hv & Hsub & Hok).
  destruct r as [[]|e]; [|split; [done|by left]]. destruct (Hok eq_refl) as [Ho Hstrict]. wp_rule.
  apply wp_on_versions; [intros; split; [done|by left]|]. intros _. cbn beta iota.
  apply wp_on_versions; [intros; split; [done|by right]|]. intros _. cbn [fst snd c_db].
  done.
Qed.

Lemma wp_migrate l c :
  wp (migrate_schema (execute_batch l)) (fun r c' =>
    f_objects (c_db c) ⊆ f_objects (c_db c') /\
    (f_versions (c_db c) = [] ->
       if is_ok r then
         f_versions (c_db c') = [SCHEMA_VERSION] /\
         f_objects (c_db c') = {["schema_version"%string]} ∪ names_of l ∪ f_objects (c_db c) /\
         forall d, d ∈ l -> strict d -> ddl_name d ∉ f_objects (c_db c)
       else f_versions (c_db c') = []) /\
    (forall v, f_versions (c_db c) = [v] -> v <> -1 -> "schema_version"%string ∈ f_objects (c_db c) ->
       c_db c' = c_db c /\ (v <> SCHEMA_VERSION -> r <> Ok tt))) c.
Proof using EL.
  unfold migrate_schema. destruct (c_db c) as [objects versions] eqn:Ec. cbn [f_objects f_versions].
  wp_rule. apply wp_create; rewrite ?Ec.
  { intros e n. split_and!; [done|by intros ->|done]. }
  intros n _. cbn beta iota. cbn [ddl_name f_objects f_versions]. set (objects1 := {["schema_version"%string]} ∪ objects).
  assert (Hone : "schema_version"%string ∈ objects -> objects1 = objects) by (unfold objects1; set_solver).
  assert (Hsub : objects ⊆ objects1) by (unfold objects1; set_solver).
  wp_rule. apply wp_on_versions; cbn [c_db c_step f_objects f_versions].
  { intros e m. split_and!; [done|by intros ->|]. intros v -> _ Hs. by rewrite Hone. }
  intros _. cbn beta iota. unfold set_versions. cbn [fst snd f_objects f_versions].
  assert (Hfound : forall v, versions = [v] -> head (row_order n versions) = Some v).
  { intros v ->. by rewrite (Permutation_length_1_inv (symmetry (row_order_perm _ n [v]))). }
  case_decide as Hversion.
  - eapply wp_mono; [apply wp_apply|]. cbn [c_db f_objects f_versions]. intros r c' [Hsub' Hr]. split_and!; [set_solver| |].
    + intros ->. destruct (is_ok r); [|by destruct Hr]. destruct Hr as (Hv & Ho & Hstrict). split_and!; [done| |].
      * rewrite Ho. unfold objects1. set_solver.
      * intros d Hd Hs. specialize (Hstrict d Hd Hs). set_solver.
    + intros v Hv Hne _. rewrite (Hfound v Hv) in Hversion. done.
  - assert (Hvs : versions <> []).
    { intros ->. apply Hversion. by rewrite (Permutation_nil (symmetry (row_order_perm _ n []))). }
    case_decide as Hother; wp_rule; (split_and!; [done|done|]); intros v Hv _ Hs; rewrite (Hfound v Hv) in Hother;
      cbn [c_db]; rewrite (Hone Hs); by split.
Qed.
(** *** Without failures *)

Context (Hcalm : forall k, fault k = None).

Lemma stmt_calm {A} (g : nat -> db_file -> Result (A * db_file)) a f' c :
  g (c_step c) (c_db c) = Ok (a, f') -> stmt g c = (Ok a, Conn (S (c_step c)) f').
Proof using EL Hcalm. unfold stmt. intros ->. by rewrite Hcalm. Qed.

Lemma create_calm d c :
  ready (f_objects (c_db c)) [d] = true ->
  create d c = (Ok tt, Conn (S (c_step c)) (mkFile ({[ ddl_name d ]} ∪ f_objects (c_db c)) (f_versions (c_db c)))).
Proof using EL Hcalm.
  intros Hr. apply stmt_calm. destruct (c_db c) as [objects versions]. cbn [f_objects f_versions] in *.
  destruct d as [[] name|name table]; simpl in *; rewrite ?andb_true_r in Hr.
  - case_decide; [|done]. by rewrite subseteq_union_1_L by set_solver.
  - apply bool_decide_eq_true in Hr. by rewrite decide_False.
  - apply andb_prop in Hr as [Hn%bool_decide_eq_true Ht%bool_decide_eq_true]. by rewrite decide_False, decide_True.
Qed.

Lemma execute_batch_calm l c :
  ready (f_objects (c_db c)) l = true -> exists n f, execute_batch l c = (Ok tt, Conn n f) /\ f_objects (c_db c) ⊆ f_objects f.
Proof using EL Hcalm.
  revert c. induction l as [|d l IH]; intros c Hr; [destruct c; by eexists _, _|].
  simpl in Hr. apply andb_prop in Hr as [Hd Hl]. simpl. unfold mbind, M_bind. rewrite create_calm by (simpl; by rewrite Hd).
  destruct (IH (Conn (S (c_step c)) (mkFile ({[ ddl_name d ]} ∪ f_objects (c_db c)) (f_versions (c_db c)))) Hl) as (n & f & -> & Hsub).
  eexists _, _. split; [done|]. simpl in Hsub. set_solver.
Qed.

Lemma on_versions_calm {A} (g : nat -> list Z -> A * list Z) c :
  "schema_version"%string ∈ f_objects (c_db c) ->
  on_versions g c = (Ok (g (c_step c) (f_versions (c_db c))).1,
    Conn (S (c_step c)) (set_versions (g (c_step c) (f_versions (c_db c))).2 (c_db c))).
Proof using EL Hcalm. intros Hs. apply stmt_calm. rewrite decide_True by done. by destruct (g _ _). Qed.

Lemma migrate_succeeds l n f :
  l = acceptance_schema \/ l = executions_schema -> f = fresh_file \/ f = migrated_file l ->
  (migrate_schema (execute_batch l) (Conn n f)).1 = Ok tt.
Proof using EL Hcalm.
  intros Hl Hf. unfold migrate_schema, mbind, M_bind. rewrite create_calm by done. cbn [c_db c_step ddl_name].
  rewrite on_versions_calm by (simpl; set_solver). cbn [fst snd f_versions c_db c_step].
  destruct Hf as [-> | ->]; cbn [f_versions fresh_file migrated_file f_objects].
  - rewrite (Permutation_nil (symmetry (row_order_perm _ (S n) []))). cbn [head default]. rewrite decide_True by done.
    destruct (execute_batch_calm l (Conn (S (S n)) (mkFile ({["schema_version"%string]} ∪ ∅) []))) as (m & f & Hrun & Hsub).
    { destruct Hl as [-> | ->]; vm_compute; reflexivity. }
    assert (Hin : "schema_version"%string ∈ f_objects f) by (apply Hsub; cbn [c_db f_objects]; set_solver).
    unfold set_versions. cbn [f_objects c_db]. rewrite Hrun. rewrite on_versions_calm by exact Hin.
    by rewrite on_versions_calm by exact Hin.
  - rewrite (Permutation_length_1_inv (symmetry (row_order_perm _ (S n) [SCHEMA_VERSION]))). cbn [head default].
    rewrite decide_False by done. by rewrite decide_False by (intros Hne; by apply Hne).
Qed.
End openings.

(** ** Properties *)

(** Opening a file, at different times *)
Definition reopens `{Env} (l : list ddl) (c c' : conn db_file) : Prop :=
  snd (migrate_schema (execute_batch l) c) = c'.

(** C37. Opening a file never removes a definition. A file without a version either gets all tables and
    indexes of the schema and its version, or stays without a version and the opening fails; a file with
    the version is left as it is; one with another version is left as it is and refused. When no
    statement fails, opening a new file succeeds. *)
Theorem migration_is_complete_or_fails `{EnvLaws} l n f r c' :
  l = acceptance_schema \/ l = executions_schema ->
  migrate_schema (execute_batch l) (Conn n f) = (r, c') ->
  f_objects f ⊆ f_objects (c_db c') /\
  (f_versions f = [] ->
     r = Ok tt /\ f_versions (c_db c') = [SCHEMA_VERSION] /\
       f_objects (c_db c') = {["schema_version"%string]} ∪ names_of l ∪ f_objects f \/
     is_ok r = false /\ f_versions (c_db c') = []) /\
  (forall v, f_versions f = [v] -> v <> -1 -> "schema_version"%string ∈ f_objects f ->
     c_db c' = f /\ (v <> SCHEMA_VERSION -> is_ok r = false)) /\
  ((forall k, fault k = None) -> f = fresh_file \/ f = migrated_file l -> r = Ok tt).
Proof.
  intros Hl Hrun. destruct (wp_run _ _ _ _ _ (wp_migrate l (Conn n f)) Hrun) as (Hsub & Hnew & Hold). cbn [c_db] in *.
  split_and!; [done| | |].
  - intros Hv. specialize (Hnew Hv). destruct r as [[]|e]; [left|by right]. by destruct Hnew as (? & ? & _).
  - intros v Hv Hne Hs. destruct (Hold v Hv Hne Hs) as [Hsame Hother]. split; [done|]. intros Hv1. specialize (Hother Hv1).
    by destruct r as [[]|].
  - intros Hfault Hf. apply (f_equal fst) in Hrun. cbn [fst] in Hrun. rewrite <-Hrun.
    by apply migrate_succeeds.
Qed.

(** The migration is not atomic. A new file whose migration has stopped between its statements, with
    a definition made that is not made [IF NOT EXISTS], can never be opened again: every later opening
    fails, and leaves it so. *)
Theorem interrupted_migration_is_fatal `{EnvLaws} l c c1 c' :
  half_made l (c_db c) -> rtc (reopens l) c c1 -> reopens l c1 c' ->
  is_ok (migrate_schema (execute_batch l) c1).1 = false /\ half_made l (c_db c').
Proof.
  intros Hhalf Hruns Hlast.
  assert (Hone : forall c0, half_made l (c_db c0) ->
    wp (migrate_schema (execute_batch l)) (fun r c' => is_ok r = false /\ half_made l (c_db c')) c0).
  { intros c0 (Hv & d & Hd & Hs & Hin). eapply wp_mono; [apply wp_migrate|]. intros r c2 (Hsub & Hnew & _).
    specialize (Hnew Hv). destruct (is_ok r); [by destruct Hnew as (_ & _ & Hstrict); destruct (Hstrict d Hd Hs)|].
    split; [done|]. split; [done|]. exists d. split_and!; [done|done|set_solver]. }
  assert (Hhalf1 : half_made l (c_db c1)).
  { revert Hhalf. induction Hruns as [|c c0 c1 Hstep _ IH]; [done|]. intros Hhalf. apply IH; [done|].
    unfold reopens in Hstep. destruct (migrate_schema _ c) as [r c2] eqn:Erun. simpl in Hstep. subst.
    by destruct (wp_run _ _ _ _ _ (Hone c Hhalf) Erun). }
  unfold reopens in Hlast. destruct (migrate_schema _ c1) as [r c2] eqn:Erun. simpl in Hlast. subst.
  exact (wp_run _ _ _ _ _ (Hone c1 Hhalf1) Erun).
Qed.

(** Two databases in one file: the second opening finds the version of the first, and makes no table. *)
Lemma shared_file_lacks_executions `{EnvLaws} n c1 r c2 :
  open_ingest (Conn n fresh_file) = (Ok tt, c1) -> open_results c1 = (r, c2) ->
  "executions"%string ∉ f_objects (c_db c2) /\ "execution_queues"%string ∉ f_objects (c_db c2).
Proof.
  intros H1 H2. destruct (wp_run _ _ _ _ _ (wp_migrate _ _) H1) as (_ & Hnew & _).
  destruct (Hnew eq_refl) as (Hv & Ho & _). destruct (wp_run _ _ _ _ _ (wp_migrate _ _) H2) as (_ & _ & Hold).
  destruct (Hold SCHEMA_VERSION Hv) as [-> _]; [done|rewrite Ho; set_solver|]. rewrite Ho.
  split; apply (bool_decide_unpack _); vm_compute; exact I.
Qed.

Lemma migration_is_complete_or_fails_witness :
  let c1 := snd (open_ingest (E := model_env) (Conn 7 fresh_file)) in
  c_db c1 = migrated_file acceptance_schema /\
  open_ingest (E := model_env) c1 = (Ok tt, Conn 18 (migrated_file acceptance_schema)).
Proof.
  intros c1. assert (E : c1 = Conn 16 (migrated_file acceptance_schema)) by (vm_compute; reflexivity). rewrite E. split; [reflexivity|].
  destruct (open_ingest (E := model_env) (Conn 16 (migrated_file acceptance_schema))) as [r c'] eqn:Erun.
  destruct (migration_is_complete_or_fails (E := model_env) acceptance_schema 16 (migrated_file acceptance_schema) r c'
    (or_introl eq_refl) Erun) as (_ & _ & Hsame & Hok).
  rewrite (Hok (fun _ => eq_refl) (or_intror eq_refl)). destruct (Hsame SCHEMA_VERSION eq_refl) as [Hdb _].
  - discriminate.
  - apply (bool_decide_unpack _). vm_compute. exact I.
  - apply (f_equal (fun x => c_step x.2)) in Erun. vm_compute in Erun. destruct c' as [k f]. cbn in Erun, Hdb. by subst.
Defined.

(** The disk is full when the table of the queues is to be made, at step 4, and has room again later. *)
Definition full_disk : Env := {|
  clock := clock (Env := model_env); instant := instant (Env := model_env); uuid_v4 := uuid_v4 (Env := model_env);
  fault n := if decide (n = 4%nat) then Some "database or disk is full"%string else None;
  sqlite_error := sqlite_error (Env := model_env); row_order := @row_order model_env;
  pick_match := @pick_match model_env; next_rowid := next_rowid (Env := model_env)
|}.

Lemma full_disk_laws : EnvLaws full_disk.
Proof. destruct model_env_laws. by split. Qed.

Definition interrupted : conn db_file := snd (open_ingest (E := full_disk) (Conn 0 fresh_file)).

Lemma interrupted_migration_is_fatal_witness :
  c_db interrupted = mkFile {[ "schema_version"; "meta"; "idx_meta_key" ]}%string [] /\
  is_ok (open_ingest (E := full_disk) interrupted).1 = false /\
  half_made acceptance_schema (c_db (snd (open_ingest (E := full_disk) interrupted))).
Proof.
  split; [vm_compute; reflexivity|].
  apply (interrupted_migration_is_fatal (E := full_disk) (H := full_disk_laws) acceptance_schema interrupted interrupted).
  - split; [vm_compute; reflexivity|]. exists (CreateIndex "idx_meta_key" "meta"). split_and!; [by do 1 right; left|exact I|].
    apply (bool_decide_unpack _). vm_compute. exact I.
  - apply rtc_refl.
  - reflexivity.
Defined.
