(* ===== verification/Ingest.v ===== *)
(** * The ingest connection

    [crates/persistence/src/sqlite/ingest.rs], [impl IngestConn]: the operations of the writer of
    the ingest database, which owns the queues and the accepted jobs. A reply channel
    ([oneshot::Sender]) is the number of the call that waits on it; sending on it is an element of
    the list of replies an operation returns. *)
From S2P Require Import Prelude Types Db Tables.

Definition ROWS_PER_STATEMENT : nat := 256.
Definition MAX_CLAIM_BATCH_SIZE : Z := 1048576.

(** [TryFromIntError]'s text *)
Definition try_from_int_error : string := "out of range integral type conversion attempted".

Record IngestClaimed := mkIngestClaimed {
  ic_id : Z;
  ic_name : string;
  ic_payload : bytes;
  ic_timeout_secs : Z;
  ic_dispatch_id : string;
  ic_created_at : Z
}.

Record PendingEnqueue := mkPendingEnqueue { pe_job : AcceptedJob; pe_reply : nat }.

Record BatchCommit := mkBatchCommit { bc_count : nat; bc_duration : Z }.

Record PendingClaim := mkPendingClaim {
  pc_id : Z;
  pc_name : string;
  pc_payload : bytes;
  pc_created_at : Z;
  pc_timeout_secs : Z
}.

Inductive IngestRequest : Type :=
| IUpsertQueue (queue : JobQueue) (reply : nat)
| IEnqueue (job : AcceptedJob) (reply : nat)
| IClaimBatch (queue_name : string) (limit : Z) (reply : nat)
| IRepend (job_id : Z) (dispatch_id : string) (reply : nat)
| ICleanupExpiredRecords (cutoff : Z) (reply : nat)
| IVacuum (reply : nat).

(** What is sent on a reply channel. *)
Inductive IngestReply : Type :=
| RepQueue (r : Result JobQueue)
| RepAccepted (r : Result AcceptedJob)
| RepClaimed (r : Result (list IngestClaimed))
| RepUnit (r : Result unit)
| RepCount (r : Result nat).

(** The row an accepted job is stored as: [JOBS_INSERT_COLUMNS], [dispatch_id] left [NULL]. *)
Definition new_accepted_row (job : AcceptedJob) : accepted_row :=
  mkAcceptedRow (aj_queue_name job) (aj_payload job) None (aj_created_at job) (aj_updated_at job).

Definition with_id (id : Z) (job : AcceptedJob) : AcceptedJob :=
  mkAcceptedJob id (aj_queue_name job) (aj_payload job) (aj_dispatch_id job)
    (aj_created_at job) (aj_updated_at job).

Definition set_dispatch_id (dispatch_id : option string) (now : Z) (r : accepted_row) : accepted_row :=
  mkAcceptedRow (ar_queue_name r) (ar_payload r) dispatch_id (ar_created_at r) now.

Section ingest.
Context `{E : Env}.

Definition queue_names : M ingest_db (gset string) := query (fun _ db => Ok (dom (i_queues db))).

(** A [u64] parameter beyond [i64::MAX] is refused by [rusqlite]. *)
Definition param_u64 (n : nat) (x : Z) : Result Z :=
  if decide (x <= i64_max) then Ok x else Err (Internal (sqlite_error n)).

Definition upsert_queue (queue : JobQueue) : M ingest_db JobQueue :=
  now ← unix_now;
  let queue := mkJobQueue (q_name queue) (q_max_retries queue) (q_timeout_secs queue)
                 (q_created_at queue) now in
  _ ← stmt (fun n db =>
    let? _ := param_u64 n (q_timeout_secs queue) in
    Ok (tt, mkIngestDb (upsert_queue_row queue (i_queues db)) (i_accepted db) (i_meta db)));
  query (fun n db =>
    match i_queues db !! q_name queue with
    | Some r => row_to_queue n (q_name queue) r
    | None => Err (Internal (sqlite_error n))
    end).

(** *** Enqueue *)

(** The rows of one [INSERT], in order, each with the rowid SQLite gives it; the last rowid. *)
Fixpoint insert_rows (n : nat) (jobs : list AcceptedJob) (last : Z) (t : gmap Z accepted_row) :
    Z * gmap Z accepted_row :=
  match jobs with
  | [] => (last, t)
  | job :: jobs =>
      let id := next_rowid n (dom t) in
      insert_rows n jobs id (<[id := new_accepted_row job]> t)
  end.

(** One statement of [enqueue_batch], then the ids the code computes from
    [last_insert_rowid()]. *)
Definition enqueue_chunk (chunk : list PendingEnqueue) : M ingest_db (list PendingEnqueue) :=
  last ← stmt (fun n db =>
    if decide (Forall (fun p => aj_queue_name (pe_job p) ∈ dom (i_queues db)) chunk)
    then let '(last, t) := insert_rows n (pe_job <$> chunk) 0 (i_accepted db) in
         Ok (last, set_accepted t db)
    else Err (Internal (sqlite_error n)) (* FOREIGN KEY constraint failed *));
  let first_id := last - Z.of_nat (length chunk) + 1 in
  mret (imap (fun offset p =>
          mkPendingEnqueue (with_id (first_id + Z.of_nat offset) (pe_job p)) (pe_reply p)) chunk).

Definition enqueue_batch (batch : list PendingEnqueue) (queue_names : gset string) :
    M ingest_db (option BatchCommit * list (nat * Result AcceptedJob)) :=
  match batch with
  | [] => mret (None, [])
  | _ =>
      let to_insert := filter (fun p => aj_queue_name (pe_job p) ∈ queue_names) batch in
      let refused := (fun p => (pe_reply p, Err (QueueNotFound (aj_queue_name (pe_job p))))) <$>
            filter (fun p => aj_queue_name (pe_job p) ∉ queue_names) batch in
      match to_insert with
      | [] => mret (None, refused)
      | _ =>
          let inserted := length to_insert in
          started ← instant_now;
          res ← attempt (transaction (for_each enqueue_chunk (chunks ROWS_PER_STATEMENT to_insert)));
          match res with
          | Ok done =>
              finished ← instant_now;
              mret (Some (mkBatchCommit inserted (Z.max 0 (finished - started))),
                    refused ++ ((fun p => (pe_reply p, Ok (pe_job p))) <$> concat done))
          | Err err =>
              mret (None, refused ++ ((fun p => (pe_reply p, Err err)) <$> to_insert))
          end
      end
  end.

(** *** Claim *)

(** [accepted_jobs.id = v.id AND accepted_jobs.dispatch_id IS NULL] *)
Definition claim_matches (v : Z * string) (k : Z) (r : accepted_row) : Prop :=
  k = v.1 /\ ar_dispatch_id r = None.
#[export] Instance claim_matches_dec v k r : Decision (claim_matches v k r).
Proof. unfold claim_matches. apply _. Defined.

(** The body of the loop over the chunks of [claim_batch]. *)
Definition claim_chunk (now : Z) (chunk : list PendingClaim) : M ingest_db (list IngestClaimed) :=
  dispatch_ids ← for_each (fun _ => new_dispatch_id) chunk;
  updated ← stmt (fun n db =>
    let vs := zip (pc_id <$> chunk) dispatch_ids in
    let upd (v : Z * string) := set_dispatch_id (Some v.2) now in
    let? rows := rows_result (fun kr : Z * accepted_row =>
                   let? d := convert n (ar_dispatch_id kr.2) in Ok (kr.1, d))
                 (updated_rows claim_matches upd n vs (i_accepted db)) in
    Ok (rows, set_accepted (update_from claim_matches upd n vs (i_accepted db)) db));
  let by_id := collect_map updated in
  lift_result (result_map (@concat _) (rows_result (fun row =>
    match by_id !! pc_id row with
    | None => Ok []
    | Some dispatch_id =>
        match u64_try_from (pc_timeout_secs row) with
        | None => Err (Internal try_from_int_error)
        | Some timeout_secs =>
            Ok [mkIngestClaimed (pc_id row) (pc_name row) (pc_payload row) timeout_secs
                  dispatch_id (pc_created_at row)]
        end
    end) chunk)).

(** [SELECT .. FROM accepted_jobs JOIN job_queues .. WHERE queue_name = ?1 AND dispatch_id IS
    NULL ORDER BY created_at, id LIMIT ?2] *)
Definition select_pending (queue_name : string) (limit : Z) (db : ingest_db) : list PendingClaim :=
  match i_queues db !! queue_name with
  | None => []
  | Some q =>
      (fun kr : Z * accepted_row =>
         mkPendingClaim kr.1 (ar_queue_name kr.2) (ar_payload kr.2) (ar_created_at kr.2)
           (qr_timeout_secs q)) <$>
        take (Z.to_nat limit) (available_rows queue_name (i_accepted db))
  end.

Definition claim_batch (queue_name : string) (limit : Z) (queue_names : gset string) :
    M ingest_db (list IngestClaimed) :=
  if decide (queue_name ∈ queue_names) then
    let limit := clamp limit 1 MAX_CLAIM_BATCH_SIZE in
    transaction (
      pending ← query (fun _ db => Ok (select_pending queue_name limit db));
      now ← unix_now;
      claimed ← for_each (claim_chunk now) (chunks ROWS_PER_STATEMENT pending);
      mret (concat claimed))
  else fail (QueueNotFound queue_name).

(** *** Repend *)

(** [accepted_jobs.id = v.id AND accepted_jobs.dispatch_id = v.dispatch_id] *)
Definition repend_matches (v : Z * string) (k : Z) (r : accepted_row) : Prop :=
  k = v.1 /\ ar_dispatch_id r = Some v.2.
#[export] Instance repend_matches_dec v k r : Decision (repend_matches v k r).
Proof. unfold repend_matches. apply _. Defined.

Definition repend_batch (pairs : list (Z * string)) : M ingest_db unit :=
  match pairs with
  | [] => mret tt
  | _ =>
      now ← unix_now;
      _ ← for_each (fun chunk => stmt (fun n db =>
            Ok (tt, set_accepted
                      (update_from repend_matches (fun _ => set_dispatch_id None now) n chunk
                         (i_accepted db)) db)))
          (chunks ROWS_PER_STATEMENT pairs);
      mret tt
  end.

Definition repend (job_id : Z) (dispatch_id : string) : M ingest_db unit :=
  repend_batch [(job_id, dispatch_id)].

(** *** Maintenance *)

(** [DELETE FROM accepted_jobs WHERE created_at < ?1] *)
Definition cleanup_expired_records (cutoff : Z) : M ingest_db nat :=
  stmt (fun _ db =>
    let kept := filter (fun kr => ~ ar_created_at kr.2 < cutoff) (i_accepted db) in
    Ok ((size (i_accepted db) - size kept)%nat, set_accepted kept db)).

Definition vacuum : M ingest_db unit :=
  _ ← stmt (fun _ db => Ok (tt, db));
  now ← unix_now;
  stmt (fun _ db =>
    Ok (tt, mkIngestDb (i_queues db) (i_accepted db)
              (<["last_vacuum_run"%string := pretty now]> (i_meta db)))).

(** *** Requests *)

(** [IngestConn::handle]: the replies it sends and the writer's set of queue names. *)
Definition handle (request : IngestRequest) (queue_names : gset string) :
    M ingest_db (list (nat * IngestReply) * gset string) :=
  match request with
  | IUpsertQueue queue reply =>
      let name := q_name queue in
      res ← attempt (upsert_queue queue);
      mret ([(reply, RepQueue res)],
            if is_ok res then {[name]} ∪ queue_names else queue_names)
  | IEnqueue job reply =>
      out ← enqueue_batch [mkPendingEnqueue job reply] queue_names;
      mret ((fun kr => (kr.1, RepAccepted kr.2)) <$> out.2, queue_names)
  | IClaimBatch queue_name limit reply =>
      res ← attempt (claim_batch queue_name limit queue_names);
      mret ([(reply, RepClaimed res)], queue_names)
  | IRepend job_id dispatch_id reply =>
      res ← attempt (repend job_id dispatch_id);
      mret ([(reply, RepUnit res)], queue_names)
  | ICleanupExpiredRecords cutoff reply =>
      res ← attempt (cleanup_expired_records cutoff);
      mret ([(reply, RepCount res)], queue_names)
  | IVacuum reply =>
      res ← attempt vacuum;
      mret ([(reply, RepUnit res)], queue_names)
  end.
End ingest.

(** ** What the operations do *)

Section ingest_facts.
Context `{EL : EnvLaws}.

(** *** Claims *)

Lemma chosen_claim n (ks : list Z) (ds : list string) k r :
  NoDup ks -> length ks = length ds ->
  chosen claim_matches n (zip ks ds) k r =
    if decide (ar_dispatch_id r = None)
    then pair k <$> (list_to_map (zip ks ds) : gmap Z string) !! k else None.
Proof.
  intros Hnd Hl. destruct (chosen _ n _ k r) as [[k' d]|] eqn:Ec.
  - apply chosen_Some in Ec as [Hin [Hk Hr]]. simpl in Hk. subst k'.
    rewrite decide_True by done. apply lookup_zip_map in Hin; [by rewrite Hin|done..].
  - case_decide as Hr; [|done].
    destruct ((list_to_map (zip ks ds) : gmap Z string) !! k) as [d|] eqn:Ed; [|done].
    apply lookup_zip_map in Ed; [|done..].
    rewrite chosen_None in Ec. by destruct (Ec (k, d) Ed).
Qed.

(** What a claim does to the rows whose ids [m] binds. *)
Definition claim_update (now : Z) (m : gmap Z string) (t : gmap Z accepted_row) :=
  update_keys (fun d => set_dispatch_id (Some d) now) m t.

(** The claimed job the code builds from a selected row and its new dispatch id. *)
Definition claimed_of (row : PendingClaim) (d : string) : IngestClaimed :=
  mkIngestClaimed (pc_id row) (pc_name row) (pc_payload row) (pc_timeout_secs row) d
    (pc_created_at row).

(** The chunk's [UPDATE] and the ids it returns, when every row of the chunk is unclaimed. *)
Lemma update_from_claim n now (ks : list Z) (ds : list string) t :
  NoDup ks -> length ks = length ds ->
  (forall k, k ∈ ks -> exists r, t !! k = Some r /\ ar_dispatch_id r = None) ->
  let upd (v : Z * string) := set_dispatch_id (Some v.2) now in
  update_from claim_matches upd n (zip ks ds) t = claim_update now (list_to_map (zip ks ds)) t.
Proof.
  intros Hnd Hl Hfree. apply map_eq. intros k.
  unfold claim_update. rewrite lookup_update_from, lookup_update_keys.
  destruct (t !! k) as [r|] eqn:Er; simpl; [|done].
  rewrite chosen_claim by done.
  destruct ((list_to_map (zip ks ds) : gmap Z string) !! k) as [d|] eqn:Ed.
  - apply lookup_zip_map in Ed; [|done..].
    apply elem_of_zip_l in Ed. destruct (Hfree k Ed) as (r' & Hr' & Hd).
    simplify_eq. by rewrite decide_True.
  - by case_decide.
Qed.
Lemma updated_rows_claim n now (ks : list Z) (ds : list string) t :
  NoDup ks -> length ks = length ds ->
  (forall k, k ∈ ks -> exists r, t !! k = Some r /\ ar_dispatch_id r = None) ->
  let upd (v : Z * string) := set_dispatch_id (Some v.2) now in
  exists rows,
    rows_result (fun kr : Z * accepted_row => let? d := convert n (ar_dispatch_id kr.2) in Ok (kr.1, d))
      (updated_rows claim_matches upd n (zip ks ds) t) = Ok rows /\
    forall k d, (k, d) ∈ zip ks ds -> collect_map rows !! k = Some d.
Proof.
  intros Hnd Hl Hfree upd.
  set (rows := updated_rows claim_matches upd n (zip ks ds) t).
  assert (Hrows : forall k r', (k, r') ∈ rows ->
    exists d, (k, d) ∈ zip ks ds /\ ar_dispatch_id r' = Some d).
  { intros k r' Hin. apply elem_of_updated_rows in Hin as (r & v & Hr & Hc & ->).
    apply chosen_Some in Hc as [Hv [-> _]]. exists v.2. by destruct v. }
  exists ((fun kr : Z * accepted_row => (kr.1, default ""%string (ar_dispatch_id kr.2))) <$> rows).
  split.
  - apply rows_result_ok. intros [k r'] Hin. apply Hrows in Hin as (d & _ & Hd).
    simpl. by rewrite Hd.
  - intros k d Hin. apply collect_map_lookup.
    + rewrite <-list_fmap_compose. apply (updated_rows_NoDup claim_matches upd n (zip ks ds) t).
    + destruct (Hfree k) as (r & Hr & Hn); [by eapply elem_of_zip_l|].
      assert ((k, set_dispatch_id (Some d) now r) ∈ rows) as Hrow.
      { apply elem_of_updated_rows. exists r, (k, d). split; [done|]. split; [|done].
        rewrite chosen_claim by done. rewrite decide_True by done.
        apply lookup_zip_map in Hin; [by rewrite Hin|done..]. }
      apply list_elem_of_fmap. by exists (k, set_dispatch_id (Some d) now r).
Qed.

(** The ids of a chunk's rows are distinct, and the rows exist and are unclaimed. *)
Definition chunk_ready (chunk : list PendingClaim) (t : gmap Z accepted_row) : Prop :=
  NoDup (pc_id <$> chunk) /\
  forall k, k ∈ pc_id <$> chunk -> exists r, t !! k = Some r /\ ar_dispatch_id r = None.

Definition timeout_fits (p : PendingClaim) : Prop := 0 <= pc_timeout_secs p.

(** The jobs built from a chunk when the [UPDATE] returned each of its rows. *)
Lemma claimed_rows chunk (ds : list string) (m : gmap Z string) :
  length ds = length chunk ->
  (forall k d, (k, d) ∈ zip (pc_id <$> chunk) ds -> m !! k = Some d) ->
  forall out, rows_result (fun row =>
    match m !! pc_id row with
    | None => Ok []
    | Some dispatch_id =>
        match u64_try_from (pc_timeout_secs row) with
        | None => Err (Internal try_from_int_error)
        | Some timeout_secs =>
            Ok [mkIngestClaimed (pc_id row) (pc_name row) (pc_payload row) timeout_secs
                  dispatch_id (pc_created_at row)]
        end
    end) chunk = Ok out ->
  concat out = zip_with claimed_of chunk ds /\ Forall timeout_fits chunk.
Proof.
  revert ds. induction chunk as [|p chunk IH]; intros [|d ds] Hl Hm out; simplify_eq/=.
  { intros [= <-]. by split. }
  rewrite (Hm (pc_id p) d) by (by left). unfold u64_try_from at 1.
  case_decide; simpl; [|done].
  destruct (rows_result _ chunk) as [rest|] eqn:Er; simpl; [|done]. intros [= <-].
  destruct (IH ds) with (out := rest) as [Hc Hf]; [lia|intros; apply Hm; by right|done|].
  simpl. rewrite Hc. by repeat constructor.
Qed.

Lemma wp_claim_chunk now chunk c (Q : Result (list IngestClaimed) -> conn ingest_db -> Prop) :
  chunk_ready chunk (i_accepted (c_db c)) ->
  (forall e n db, (c_step c <= n)%nat -> Q (Err e) (Conn n db)) ->
  (forall ds n, length ds = length chunk -> (c_step c <= n)%nat -> new_ids (c_step c) n ds ->
    Forall timeout_fits chunk ->
    Q (Ok (zip_with claimed_of chunk ds))
      (Conn n (set_accepted
        (claim_update now (list_to_map (zip (pc_id <$> chunk) ds)) (i_accepted (c_db c)))
        (c_db c)))) ->
  wp (claim_chunk now chunk) Q c.
Proof.
  intros [Hnd Hfree] Herr Hok. unfold claim_chunk. wp_rule.
  unfold wp at 1. rewrite for_each_new_ids. simpl.
  set (ds := uuid_v4 <$> seq (c_step c) (length chunk)).
  assert (Hl : length ds = length chunk) by (unfold ds; by rewrite length_fmap, length_seq).
  wp_rule. apply wp_stmt; simpl; [intros; apply Herr; lia|]. intros rows db Hrows.
  destruct (updated_rows_claim (c_step c + length chunk) now (pc_id <$> chunk) ds
              (i_accepted (c_db c))) as (rows' & Hr & Hlook); [done|by rewrite length_fmap|done|].
  simpl in Hr. rewrite Hr in Hrows. simplify_eq/=.
  rewrite (update_from_claim _ _ (pc_id <$> chunk) ds) by (by rewrite ?length_fmap).
  wp_rule. destruct (rows_result _ chunk) as [out|e] eqn:Eout; simpl; [|apply Herr; lia].
  destruct (claimed_rows chunk ds _ Hl Hlook out Eout) as [-> Hf].
  apply Hok; [done|lia| |done].
  eapply new_ids_widen; [done| |apply new_ids_seq]. lia.
Qed.

Lemma claim_update_app now (ks1 ks2 : list Z) (ds1 ds2 : list string) t :
  length ks1 = length ds1 -> NoDup (ks1 ++ ks2) ->
  claim_update now (list_to_map (zip ks2 ds2)) (claim_update now (list_to_map (zip ks1 ds1)) t) =
  claim_update now (list_to_map (zip (ks1 ++ ks2) (ds1 ++ ds2))) t.
Proof.
  intros Hl (Hnd1 & Hdisj & Hnd2)%NoDup_app. unfold claim_update.
  rewrite zip_with_app by done. rewrite list_to_map_app. apply update_keys_union.
  apply map_disjoint_spec. intros k d1 d2 H1%elem_of_list_to_map_2 H2%elem_of_list_to_map_2.
  apply elem_of_zip_l in H1, H2. by apply (Hdisj k).
Qed.

Lemma wp_claim_chunks now chunks c (Q : Result (list (list IngestClaimed)) -> conn ingest_db -> Prop) :
  chunk_ready (concat chunks) (i_accepted (c_db c)) ->
  (forall e n db, (c_step c <= n)%nat -> Q (Err e) (Conn n db)) ->
  (forall outs ds n, length ds = length (concat chunks) -> (c_step c <= n)%nat ->
    new_ids (c_step c) n ds -> concat outs = zip_with claimed_of (concat chunks) ds ->
    Q (Ok outs) (Conn n (set_accepted (claim_update now
          (list_to_map (zip (pc_id <$> concat chunks) ds)) (i_accepted (c_db c))) (c_db c)))) ->
  wp (for_each (claim_chunk now) chunks) Q c.
Proof.
  destruct c as [s0 db0]. simpl. intros [Hnd Hfree] Herr Hok.
  apply (wp_for_each _ _ (fun done outs c' => exists ds,
    length ds = length (concat done) /\ (s0 <= c_step c')%nat /\
    new_ids s0 (c_step c') ds /\ concat outs = zip_with claimed_of (concat done) ds /\
    c_db c' = set_accepted (claim_update now
      (list_to_map (zip (pc_id <$> concat done) ds)) (i_accepted db0)) db0)).
  - exists []. simpl. split_and!; [done|lia|apply new_ids_nil|done|].
    unfold claim_update. rewrite update_keys_empty. by destruct db0.
  - intros done chunk rest outs [s db] -> (ds & Hl & Hs & Hids & Hout & Hdb). simpl in *. subst db.
    rewrite concat_app in Hnd, Hfree. simpl in Hnd, Hfree. rewrite !fmap_app in Hnd, Hfree.
    apply NoDup_app in Hnd as (Hnd1 & Hdisj & (Hnd2 & _ & _)%NoDup_app).
    apply wp_claim_chunk; simpl.
    + split; [done|]. intros k Hk.
      destruct (Hfree k) as (r & Hr & Hn); [set_solver|].
      exists r. split; [|done]. unfold claim_update. rewrite lookup_update_keys, Hr. simpl.
      rewrite list_to_map_zip_None; [done|]. intros Hk'. apply (Hdisj k); [done|]. set_solver.
    + intros e n db ?. apply Herr. lia.
    + intros ds2 n Hl2 Hn Hids2 _. exists (ds ++ ds2).
      rewrite !concat_app, !length_app. simpl. rewrite !app_nil_r.
      split_and!; [lia|lia| | |].
      * by eapply new_ids_app.
      * rewrite Hout. by rewrite zip_with_app.
      * unfold set_accepted. simpl. rewrite fmap_app. f_equal. apply claim_update_app.
        -- by rewrite length_fmap.
        -- apply NoDup_app. split; [done|]. split; [|done]. set_solver.
  - intros outs [s db] (ds & Hl & Hs & Hids & Hout & Hdb). simpl in *. subst db. by apply Hok.
Qed.

Lemma select_pending_ready q limit db :
  chunk_ready (select_pending q limit db) (i_accepted db).
Proof.
  unfold chunk_ready, select_pending. destruct (i_queues db !! q) as [qr|]; [|split; [constructor|set_solver]].
  rewrite <-list_fmap_compose. simpl.
  split.
  - rewrite fmap_take. eapply sublist_NoDup; [apply available_rows_NoDup|apply sublist_take].
  - intros k ([k' r] & -> & Hin%elem_of_take)%list_elem_of_fmap.
    destruct Hin as (i & Hin & _). apply list_elem_of_lookup_2 in Hin.
    apply elem_of_available_rows in Hin as (? & ? & ?). by exists r.
Qed.

Lemma wp_claim_batch q limit names c :
  wp (claim_batch q limit names) (fun r c' =>
    (c_step c <= c_step c')%nat /\
    match r with
    | Err _ => c_db c' = c_db c
    | Ok claimed =>
        q ∈ names /\
        exists now ds,
          let rows := select_pending q (clamp limit 1 MAX_CLAIM_BATCH_SIZE) (c_db c) in
          length ds = length rows /\ new_ids (c_step c) (c_step c') ds /\
          claimed = zip_with claimed_of rows ds /\
          c_db c' = set_accepted (claim_update now (list_to_map (zip (pc_id <$> rows) ds))
                      (i_accepted (c_db c))) (c_db c)
    end) c.
Proof.
  unfold claim_batch. case_decide as Hq; [|by apply wp_fail].
  apply wp_transaction; simpl; [intros; split; [lia|done]|].
  wp_rule. apply wp_query; simpl; [intros; split; [lia|done]|]. intros pending [= <-].
  wp_rule. wp_rule. simpl.
  set (rows := select_pending q _ (c_db c)). wp_rule.
  apply wp_claim_chunks; simpl; rewrite ?concat_chunks by done.
  - apply select_pending_ready.
  - intros. split; [lia|done].
  - intros outs ds n Hl Hn Hids Hout. apply wp_ret. simpl. split; [lia|]. split; [lia|].
    split; [done|]. eexists _, ds. split; [done|]. split; [|split; [done|reflexivity]].
    eapply new_ids_widen; [..|exact Hids]; lia.
Qed.
(** *** Repends *)

(** The table with the claims [(id, dispatch_id)] of [pairs] released, where they still hold. *)
Definition repend_rows (now : Z) (pairs : list (Z * string)) (t : gmap Z accepted_row) :
    gmap Z accepted_row :=
  map_imap (fun k r => Some (match ar_dispatch_id r with
    | Some d => if decide ((k, d) ∈ pairs) then set_dispatch_id None now r else r
    | None => r end)) t.

Lemma lookup_repend_rows now pairs t k :
  repend_rows now pairs t !! k = (fun r => match ar_dispatch_id r with
    | Some d => if decide ((k, d) ∈ pairs) then set_dispatch_id None now r else r
    | None => r end) <$> t !! k.
Proof. unfold repend_rows. rewrite map_lookup_imap. by destruct (t !! k). Qed.

Lemma repend_rows_nil now t : repend_rows now [] t = t.
Proof.
  apply map_eq. intros k. rewrite lookup_repend_rows. destruct (t !! k) as [r|]; simpl; [|done].
  by destruct (ar_dispatch_id r).
Qed.

Lemma repend_rows_app now l1 l2 t :
  repend_rows now l2 (repend_rows now l1 t) = repend_rows now (l1 ++ l2) t.
Proof.
  apply map_eq. intros k. rewrite !lookup_repend_rows.
  destruct (t !! k) as [r|]; simpl; [|done]. f_equal.
  destruct (ar_dispatch_id r) as [d|] eqn:Er; [|by rewrite Er].
  destruct (decide ((k, d) ∈ l1)) as [H1|H1]; simpl.
  - rewrite decide_True; [done|]. apply elem_of_app. by left.
  - rewrite Er. destruct (decide ((k, d) ∈ l2)); [rewrite decide_True|rewrite decide_False];
      rewrite ?elem_of_app; naive_solver.
Qed.

Lemma update_from_repend n now pairs t :
  update_from repend_matches (fun _ => set_dispatch_id None now) n pairs t =
  repend_rows now pairs t.
Proof.
  apply map_eq. intros k. rewrite lookup_update_from, lookup_repend_rows.
  destruct (t !! k) as [r|]; simpl; [|done]. f_equal.
  destruct (chosen _ n pairs k r) as [[k' d]|] eqn:Ec.
  - apply chosen_Some in Ec as [Hin [-> Hd]]. simpl in *. rewrite Hd. by rewrite decide_True.
  - rewrite chosen_None in Ec. destruct (ar_dispatch_id r) as [d|] eqn:Ed; [|done].
    case_decide as Hin; [|done]. by destruct (Ec (k, d) Hin).
Qed.

Lemma wp_repend_batch pairs c :
  wp (repend_batch pairs) (fun r c' => (c_step c <= c_step c')%nat /\ exists now done,
    c_db c' = set_accepted (repend_rows now done (i_accepted (c_db c))) (c_db c) /\
    match r with Ok _ => done = pairs | Err _ => done `prefix_of` pairs end) c.
Proof.
  unfold repend_batch. destruct pairs as [|pr pairs'] eqn:Ep.
  { apply wp_ret. split; [lia|]. exists 0, []. rewrite repend_rows_nil. by destruct c as [? []]. }
  rewrite <-Ep. clear Ep pr pairs'. destruct c as [s db]. wp_rule. wp_rule. simpl. wp_rule.
  apply (wp_for_each _ _ (fun done _ c' => (s <= c_step c')%nat /\
    c_db c' = set_accepted (repend_rows (clock s) (concat done) (i_accepted db)) db)).
  - simpl. rewrite repend_rows_nil. split; [lia|by destruct db].
  - intros done x rest ys [s' db'] Hp [Hs Hdb]. simpl in *. subst db'. apply wp_stmt; simpl.
    + intros e. split; [lia|]. exists (clock s), (concat done). split; [done|].
      exists (concat (x :: rest)). rewrite <-concat_app, <-Hp. by rewrite concat_chunks.
    + intros [] db' [= <-]. simpl. split; [lia|]. unfold set_accepted. simpl.
      rewrite update_from_repend, repend_rows_app, concat_app. simpl. by rewrite app_nil_r.
  - intros ys [s' db'] [Hs Hdb]. simpl in *. apply wp_ret. simpl. split; [lia|].
    exists (clock s), pairs. split; [|done]. by rewrite Hdb, concat_chunks.
Qed.

(** [repend]: the fence. Only the claim that carries the dispatch id is released. *)
Definition repend_update (now : Z) (id : Z) (d : string) (t : gmap Z accepted_row) :=
  alter (fun r => if decide (ar_dispatch_id r = Some d) then set_dispatch_id None now r else r) id t.

Lemma repend_rows_singleton now id d t : repend_rows now [(id, d)] t = repend_update now id d t.
Proof.
  apply map_eq. intros k. unfold repend_update. rewrite lookup_repend_rows, lookup_alter.
  destruct (decide (id = k)) as [->|Hne]; destruct (t !! k) as [r|]; simpl; try done; f_equal;
    destruct (ar_dispatch_id r) as [d'|] eqn:Er; try done.
  - destruct (decide (d' = d)) as [->|Hd].
    + rewrite !decide_True; [done|done|set_solver].
    + rewrite !decide_False; [done|congruence|set_solver].
  - rewrite decide_False; [done|set_solver].
Qed.

Lemma wp_repend id d c :
  wp (repend id d) (fun r c' => (c_step c <= c_step c')%nat /\
    match r with
    | Ok _ => exists now,
        c_db c' = set_accepted (repend_update now id d (i_accepted (c_db c))) (c_db c)
    | Err _ => c_db c' = c_db c
    end) c.
Proof.
  unfold repend, repend_batch. wp_rule. wp_rule. simpl. wp_rule. wp_rule. apply wp_stmt; simpl.
  - intros e. split; [lia|done].
  - intros [] db [= <-]. wp_rules. split; [lia|]. exists (clock (c_step c)).
    by rewrite update_from_repend, repend_rows_singleton.
Qed.

(** *** Enqueues *)

(** Rows with consecutive ids from [first]. *)
Fixpoint append_rows (first : Z) (jobs : list AcceptedJob) (t : gmap Z accepted_row) :
    gmap Z accepted_row :=
  match jobs with
  | [] => t
  | job :: jobs => append_rows (first + 1) jobs (<[first := new_accepted_row job]> t)
  end.

Lemma insert_rows_append n jobs last t :
  id_room t (length jobs) ->
  insert_rows n jobs last t =
    (match jobs with [] => last | _ => max_id (dom t) + Z.of_nat (length jobs) end,
     append_rows (max_id (dom t) + 1) jobs t).
Proof.
  revert last t. induction jobs as [|job jobs IH]; intros last t Hroom; simpl; [done|].
  destruct (id_room_next t (length jobs) n (new_accepted_row job) Hroom) as (Hid & Hroom' & Hmax & _).
  rewrite IH by done. rewrite Hmax, Hid. f_equal. destruct jobs; simpl; lia.
Qed.

Lemma append_rows_app first l1 l2 t :
  append_rows first (l1 ++ l2) t = append_rows (first + Z.of_nat (length l1)) l2 (append_rows first l1 t).
Proof.
  revert first t. induction l1 as [|x l1 IH]; intros first t; simpl.
  - f_equal; lia.
  - rewrite IH. f_equal. lia.
Qed.

Lemma id_room_append first jobs t k :
  id_room t (length jobs + k) -> first = max_id (dom t) + 1 ->
  id_room (append_rows first jobs t) k /\
  max_id (dom (append_rows first jobs t)) = max_id (dom t) + Z.of_nat (length jobs).
Proof.
  revert first t. induction jobs as [|job jobs IH]; intros first t Hroom Hf; simpl in *.
  { split; [done|lia]. }
  destruct (id_room_next t (length jobs + k) 0 (new_accepted_row job) Hroom) as (Hid & Hroom' & Hmax & _).
  rewrite <-Hf in Hid. rewrite Hid in Hroom', Hmax.
  destruct (IH (first + 1) (<[first:=new_accepted_row job]> t)) as [Hr Hm]; [done|lia|].
  split; [done|]. rewrite Hm. lia.
Qed.

Lemma lookup_append_rows first jobs t k :
  append_rows first jobs t !! k =
    match (if decide (first <= k) then jobs !! Z.to_nat (k - first) else None) with
    | Some job => Some (new_accepted_row job)
    | None => t !! k
    end.
Proof.
  revert first t. induction jobs as [|job jobs IH]; intros first t; simpl; [by case_decide|].
  rewrite IH. destruct (decide (first = k)) as [->|Hne].
  - rewrite decide_False by lia. rewrite decide_True by lia.
    replace (k - k) with 0 by lia. simpl. by rewrite lookup_insert_eq.
  - rewrite lookup_insert_ne by done. repeat case_decide; try lia; try done.
    replace (Z.to_nat (k - first)) with (S (Z.to_nat (k - (first + 1)))) by lia. done.
Qed.

(** The pending enqueues with the ids of their rows. *)
Definition numbered (first : Z) (l : list PendingEnqueue) : list PendingEnqueue :=
  imap (fun i p => mkPendingEnqueue (with_id (first + Z.of_nat i) (pe_job p)) (pe_reply p)) l.

Lemma numbered_app first l1 l2 :
  numbered first (l1 ++ l2) = numbered first l1 ++ numbered (first + Z.of_nat (length l1)) l2.
Proof.
  unfold numbered. rewrite imap_app. f_equal. apply imap_ext. intros i p _. simpl.
  do 2 f_equal. lia.
Qed.

Definition known (names : gset string) (p : PendingEnqueue) : Prop := aj_queue_name (pe_job p) ∈ names.

Lemma wp_enqueue_chunk chunk c (Q : Result (list PendingEnqueue) -> conn ingest_db -> Prop) :
  chunk <> [] -> id_room (i_accepted (c_db c)) (length chunk) ->
  (forall e, Q (Err e) (Conn (S (c_step c)) (c_db c))) ->
  (let first := max_id (dom (i_accepted (c_db c))) + 1 in
   Q (Ok (numbered first chunk)) (Conn (S (c_step c))
     (set_accepted (append_rows first (pe_job <$> chunk) (i_accepted (c_db c))) (c_db c)))) ->
  wp (enqueue_chunk chunk) Q c.
Proof.
  intros Hne Hroom Herr Hok. unfold enqueue_chunk. wp_rule. apply wp_stmt; simpl; [done|].
  intros last db. case_decide; [|done]. rewrite insert_rows_append by (by rewrite length_fmap).
  intros [= <- <-]. apply wp_ret. rewrite length_fmap. destruct chunk as [|p chunk]; [done|].
  cbn [fmap list_fmap]. replace (_ - _ + 1) with (max_id (dom (i_accepted (c_db c))) + 1) by lia.
  apply Hok.
Qed.

Lemma wp_enqueue_chunks chunks c (Q : Result (list (list PendingEnqueue)) -> conn ingest_db -> Prop) :
  Forall (fun ch => ch <> []) chunks ->
  id_room (i_accepted (c_db c)) (length (concat chunks)) ->
  (forall e n db, (c_step c <= n)%nat -> Q (Err e) (Conn n db)) ->
  (forall outs n, (c_step c <= n)%nat -> let first := max_id (dom (i_accepted (c_db c))) + 1 in
    concat outs = numbered first (concat chunks) ->
    Q (Ok outs) (Conn n (set_accepted
      (append_rows first (pe_job <$> concat chunks) (i_accepted (c_db c))) (c_db c)))) ->
  wp (for_each enqueue_chunk chunks) Q c.
Proof.
  destruct c as [s0 db0]. simpl. intros Hne Hroom Herr Hok.
  set (first := max_id (dom (i_accepted db0)) + 1) in *.
  apply (wp_for_each _ _ (fun done outs c' => (s0 <= c_step c')%nat /\
    concat outs = numbered first (concat done) /\
    c_db c' = set_accepted (append_rows first (pe_job <$> concat done) (i_accepted db0)) db0)).
  - simpl. split_and!; [lia|done|by destruct db0].
  - intros done chunk rest outs [s db] -> (Hs & Hout & Hdb). simpl in *. subst db.
    rewrite concat_app, length_app in Hroom. simpl in Hroom. rewrite length_app in Hroom.
    apply Forall_app in Hne as [_ [Hne _]%Forall_cons_1].
    destruct (id_room_append first (pe_job <$> concat done) (i_accepted db0) (length chunk))
      as [Hroom' Hmax].
    { destruct Hroom as [? ?]. split; [done|]. rewrite length_fmap. lia. }
    { done. }
    rewrite length_fmap in Hmax.
    apply wp_enqueue_chunk; simpl; [done|done|intros e; apply Herr; lia|].
    rewrite Hmax. split_and!; [lia| |].
    + rewrite !concat_app, Hout. simpl. rewrite !app_nil_r, numbered_app. do 2 f_equal. lia.
    + unfold set_accepted. simpl. rewrite concat_app, fmap_app, append_rows_app. simpl.
      rewrite app_nil_r, length_fmap. do 2 f_equal. lia.
  - intros outs [s db] (Hs & Hout & Hdb). simpl in *. subst db. by apply Hok.
Qed.

Definition refusals (names : gset string) (batch : list PendingEnqueue) : list (nat * Result AcceptedJob) :=
  (fun p => (pe_reply p, Err (QueueNotFound (aj_queue_name (pe_job p))))) <$>
    filter (fun p => aj_queue_name (pe_job p) ∉ names) batch.

Definition accepted_of (names : gset string) (batch : list PendingEnqueue) : list PendingEnqueue :=
  filter (fun p => aj_queue_name (pe_job p) ∈ names) batch.

(** The outcomes of a batch: the transaction failed and every accepted request is told so, or
    the rows are there and every accepted request is told the id of its row. *)
Definition enqueue_post (batch : list PendingEnqueue) (names : gset string) (db db' : ingest_db)
    (out : option BatchCommit * list (nat * Result AcceptedJob)) : Prop :=
  let jobs := accepted_of names batch in
  (db' = db /\ out.1 = None /\ exists e : StoreError,
    out.2 = refusals names batch ++ ((fun p => (pe_reply p, Err e)) <$> jobs)) \/
  (let first := max_id (dom (i_accepted db)) + 1 in
   bc_count <$> out.1 = Some (length jobs) /\
   out.2 = refusals names batch ++ ((fun p => (pe_reply p, Ok (pe_job p))) <$> numbered first jobs) /\
   db' = set_accepted (append_rows first (pe_job <$> jobs) (i_accepted db)) db).

Lemma wp_enqueue_batch batch names c :
  id_room (i_accepted (c_db c)) (length batch) ->
  wp (enqueue_batch batch names) (fun r c' => (c_step c <= c_step c')%nat /\
    exists out, r = Ok out /\ enqueue_post batch names (c_db c) (c_db c') out) c.
Proof.
  intros Hroom. unfold enqueue_batch, enqueue_post.
  destruct batch as [|p0 batch0] eqn:Eb.
  { apply wp_ret. split; [lia|]. eexists. split; [done|]. left. split_and!; [done..|].
    by exists (NotFound 0). }
  rewrite <-Eb in *. clear Eb p0 batch0.
  change (filter (λ p, aj_queue_name (pe_job p) ∈ names) batch) with (accepted_of names batch).
  change ((λ p, (pe_reply p, Err (QueueNotFound (aj_queue_name (pe_job p))))) <$> _)
    with (refusals names batch).
  assert (Hlen : (length (accepted_of names batch) <= length batch)%nat) by apply length_filter.
  destruct (accepted_of names batch) as [|j0 jobs0] eqn:Ej.
  { apply wp_ret. split; [lia|]. eexists. split; [done|]. left. split_and!; [done..|].
    exists (NotFound 0). by rewrite app_nil_r. }
  rewrite <-Ej in *. clear Ej j0 jobs0. set (jobs := accepted_of names batch) in *.
  wp_rule. wp_rule. simpl. wp_rule. wp_rule. apply wp_transaction; simpl.
  - intros e n Hn. wp_rules. split; [lia|]. eexists. split; [done|]. left. split_and!; [done..|].
    by exists e.
  - apply wp_enqueue_chunks; rewrite ?concat_chunks by done; simpl.
    + eapply Forall_impl; [by apply (chunks_bound ROWS_PER_STATEMENT)|].
      intros [|? ?]; simpl; [lia|done].
    + destruct Hroom as [? ?]. split; [done|lia].
    + intros. split; [lia|done].
    + intros outs n Hn Hout. split; [lia|]. wp_rules. split; [lia|].
      eexists. split; [done|]. right. simpl. by rewrite Hout.
Qed.

(** *** Requests *)

Definition reply_of (request : IngestRequest) : nat :=
  match request with
  | IUpsertQueue _ r | IEnqueue _ r | IClaimBatch _ _ r | IRepend _ _ r
  | ICleanupExpiredRecords _ r | IVacuum r => r
  end.

(** The same name and limits *)
Definition same_limits (q q' : JobQueue) : Prop :=
  q_name q' = q_name q /\ q_max_retries q' = q_max_retries q /\ q_timeout_secs q' = q_timeout_secs q.

(** The table of queues once [queue] is stored in it at time [now] *)
Definition stored_queue (queue : JobQueue) (now : Z) : gmap string queue_row -> gmap string queue_row :=
  upsert_queue_row (mkJobQueue (q_name queue) (q_max_retries queue) (q_timeout_secs queue) (q_created_at queue) now).

Lemma lookup_stored_queue queue now t :
  exists row, stored_queue queue now t !! q_name queue = Some row /\
    qr_max_retries row = q_max_retries queue /\ qr_timeout_secs row = q_timeout_secs queue.
Proof. unfold stored_queue, upsert_queue_row. simpl. rewrite lookup_insert_eq. by eexists. Qed.

Lemma lookup_stored_queue_ne queue now t name :
  name <> q_name queue -> stored_queue queue now t !! name = t !! name.
Proof. intros Hne. unfold stored_queue, upsert_queue_row. simpl. by rewrite lookup_insert_ne. Qed.

Lemma dom_stored_queue queue now t : dom (stored_queue queue now t) = {[q_name queue]} ∪ dom t.
Proof. unfold stored_queue, upsert_queue_row. apply dom_insert_L. Qed.

(** What is read back from a table that stores [queue] *)
Lemma row_to_stored_queue queue now t n q' :
  match stored_queue queue now t !! q_name queue with
  | Some r => row_to_queue n (q_name queue) r
  | None => Err (Internal (sqlite_error n))
  end = Ok q' -> same_limits queue q'.
Proof.
  destruct (lookup_stored_queue queue now t) as (row & -> & Hm & Ht). unfold row_to_queue, convert, result_bind.
  unfold u32_try_from, u64_try_from. rewrite Hm, Ht. repeat case_decide; try done. by intros [= <-].
Qed.

(** [upsert_queue] stores the queue, or leaves the table of queues alone. *)
Lemma wp_upsert_queue_rows queue c :
  wp (upsert_queue queue) (fun r c' => (c_step c <= c_step c')%nat /\
    i_accepted (c_db c') = i_accepted (c_db c) /\
    (i_queues (c_db c') = i_queues (c_db c) \/ exists now, i_queues (c_db c') = stored_queue queue now (i_queues (c_db c))) /\
    match r with
    | Ok q => same_limits queue q /\ exists now, i_queues (c_db c') = stored_queue queue now (i_queues (c_db c))
    | Err _ => True
    end) c.
Proof.
  unfold upsert_queue. wp_rule. wp_rule. simpl. wp_rule. apply wp_stmt; simpl.
  { intros. split_and!; [lia|done|by left|done]. }
  intros [] db. unfold param_u64. case_decide; simpl; [|done]. intros [= <-].
  apply wp_query; simpl.
  - intros. split_and!; [lia|done|right; by eexists|done].
  - intros q Hq. split_and!; [lia|done|right; by eexists| |by eexists]. by eapply row_to_stored_queue.
Qed.

(** It leaves the jobs alone and never forgets a queue. *)
Lemma wp_upsert_queue queue c :
  wp (upsert_queue queue) (fun r c' => (c_step c <= c_step c')%nat /\
    i_accepted (c_db c') = i_accepted (c_db c) /\
    dom (i_queues (c_db c)) ⊆ dom (i_queues (c_db c')) /\
    match r with Ok _ => q_name queue ∈ dom (i_queues (c_db c')) | Err _ => True end) c.
Proof.
  eapply wp_mono; [apply wp_upsert_queue_rows|]. intros r c' (Hs & Ha & Hq & Hr). split_and!; [done|done| |].
  - destruct Hq as [-> |[now ->]]; [done|]. rewrite dom_stored_queue. set_solver.
  - destruct r; [|done]. destruct Hr as (_ & now & ->). rewrite dom_stored_queue. set_solver.
Qed.

(** The writer's queue names are queues of the database, and so is the queue of every job. *)
Definition ingest_wf (names : gset string) (db : ingest_db) : Prop :=
  names ⊆ dom (i_queues db) /\
  (forall i r, i_accepted db !! i = Some r -> 0 < i /\ ar_queue_name r ∈ dom (i_queues db)).

Lemma wp_cleanup cutoff c :
  wp (cleanup_expired_records cutoff) (fun r c' => (c_step c <= c_step c')%nat /\
    match r with
    | Ok n =>
        let kept := filter (fun kr => ~ ar_created_at kr.2 < cutoff) (i_accepted (c_db c)) in
        n = (size (i_accepted (c_db c)) - size kept)%nat /\ c_db c' = set_accepted kept (c_db c)
    | Err _ => c_db c' = c_db c
    end) c.
Proof.
  unfold cleanup_expired_records. apply wp_stmt; simpl; [intros; split; [lia|done]|].
  intros n db [= <- <-]. split; [lia|done].
Qed.

Lemma wp_vacuum c :
  wp vacuum (fun r c' => (c_step c <= c_step c')%nat /\
    i_queues (c_db c') = i_queues (c_db c) /\ i_accepted (c_db c') = i_accepted (c_db c)) c.
Proof.
  unfold vacuum. wp_rule. apply wp_stmt; simpl; [intros; split_and!; [lia|done..]|].
  intros [] db [= <-]. wp_rule. wp_rule. simpl. apply wp_stmt; simpl; [intros; split_and!; [lia|done..]|].
  intros [] db [= <-]. split_and!; [lia|done..].
Qed.

(** The rows of a table only keep their queue and their id: what a claim or a repend does. *)
Definition same_jobs (t t' : gmap Z accepted_row) : Prop :=
  forall i r', t' !! i = Some r' -> exists r, t !! i = Some r /\ ar_queue_name r' = ar_queue_name r.

Lemma ingest_wf_same names db t :
  ingest_wf names db -> same_jobs (i_accepted db) t -> ingest_wf names (set_accepted t db).
Proof.
  intros [Hn Ht] Hs. split; [done|]. intros i r' (r & Hr & Hq)%Hs. simpl. rewrite Hq.
  by apply (Ht i r).
Qed.

Lemma same_jobs_update_keys {D} (f : D -> accepted_row -> accepted_row) m t :
  (forall d r, ar_queue_name (f d r) = ar_queue_name r) -> same_jobs t (update_keys f m t).
Proof.
  intros Hf i r'. rewrite lookup_update_keys. intros (r & Hr & ->)%fmap_Some_1.
  exists r. split; [done|]. destruct (m !! i); [apply Hf|done].
Qed.

Lemma same_jobs_repend now id d t : same_jobs t (repend_update now id d t).
Proof.
  intros i r'. unfold repend_update. rewrite lookup_alter. case_decide; [subst|eauto].
  intros (r & Hr & ->)%fmap_Some_1. exists r. split; [done|]. by case_decide.
Qed.

Lemma same_jobs_filter P `{!forall kr, Decision (P kr)} t : same_jobs t (filter P t).
Proof. intros i r' [Hr _]%map_lookup_filter_Some. eauto. Qed.

Lemma ingest_wf_append names db jobs :
  ingest_wf names db -> Forall (fun p => aj_queue_name (pe_job p) ∈ names) jobs ->
  ingest_wf names (set_accepted
    (append_rows (max_id (dom (i_accepted db)) + 1) (pe_job <$> jobs) (i_accepted db)) db).
Proof.
  intros [Hn Ht] Hj. split; [done|]. intros i r. simpl. rewrite lookup_append_rows.
  pose proof (max_id_nonneg (dom (i_accepted db))).
  case_decide as Hi; [|by intros ?%Ht]. rewrite list_lookup_fmap.
  destruct (jobs !! _) as [p|] eqn:Ep; simpl; [|by intros ?%Ht].
  intros [= <-]. split; [lia|]. apply Hn. by eapply (Forall_lookup_1 _ _ _ _ Hj).
Qed.

Lemma wp_claim_batch_wf q limit names c :
  ingest_wf names (c_db c) ->
  wp (claim_batch q limit names) (fun r c' => ingest_wf names (c_db c')) c.
Proof.
  intros Hwf. eapply wp_mono; [apply wp_claim_batch|]. simpl.
  intros [claimed|e] c' [_ H]; [|by rewrite H].
  destruct H as (_ & now & ds & _ & _ & _ & ->). apply ingest_wf_same; [done|].
  unfold claim_update. apply same_jobs_update_keys. by intros.
Qed.

Lemma wp_handle request names c :
  ingest_wf names (c_db c) -> id_room (i_accepted (c_db c)) 1 ->
  wp (handle request names) (fun r c' => exists reply names',
    r = Ok ([(reply_of request, reply)], names') /\ names ⊆ names' /\ ingest_wf names' (c_db c')) c.
Proof.
  intros Hwf Hroom. destruct request as [q rp|job rp|q limit rp|id d rp|cutoff rp|rp]; cbn [handle reply_of]; wp_rule.
  - wp_rule. eapply wp_mono; [apply wp_upsert_queue|]. simpl.
    intros r c' (_ & Ha & Hq & Hr). wp_rules. eexists _, _. split; [done|].
    assert (ingest_wf names (c_db c')) as [Hn Ht].
    { destruct Hwf as [Hn Ht]. split; [set_solver|]. rewrite Ha. intros i r' [? ?]%Ht. set_solver. }
    destruct r; simpl; [|by split]. split; [set_solver|]. split; [set_solver|done].
  - eapply wp_mono; [by apply wp_enqueue_batch|]. simpl.
    intros r c' (_ & out & -> & Hpost). wp_rules.
    unfold enqueue_post, refusals, accepted_of in Hpost. simpl in Hpost.
    rewrite !filter_cons, !filter_nil in Hpost. simpl in Hpost.
    destruct (decide (aj_queue_name job ∈ names)) as [Hk|Hk].
    all: rewrite ?(decide_False (P := aj_queue_name job ∉ names)), ?(decide_True (P := aj_queue_name job ∉ names)) in Hpost by tauto.
    all: destruct Hpost as [(-> & _ & e & ->)|(_ & -> & ->)]; simpl; eexists _, _;
      (split; [done|]; split; [done|]).
    all: try (by apply (ingest_wf_append names (c_db c) [mkPendingEnqueue job rp]); [|repeat constructor]).
    all: try (by apply (ingest_wf_append names (c_db c) [])).
    all: done.
  - wp_rule. eapply wp_mono; [by apply wp_claim_batch_wf|]. simpl. intros r c' Hwf'. wp_rules. eauto 10.
  - wp_rule. eapply wp_mono; [apply wp_repend|]. simpl. intros r c' [_ Hr]. wp_rules.
    eexists _, _. split; [done|]. split; [done|].
    destruct r; [|by rewrite Hr]. destruct Hr as [now ->].
    apply ingest_wf_same; [done|]. apply same_jobs_repend.
  - wp_rule. eapply wp_mono; [apply wp_cleanup|]. simpl. intros r c' [_ Hr]. wp_rules.
    eexists _, _. split; [done|]. split; [done|].
    destruct r; [|by rewrite Hr]. destruct Hr as [_ ->].
    apply ingest_wf_same; [done|]. apply same_jobs_filter.
  - wp_rule. eapply wp_mono; [apply wp_vacuum|]. simpl. intros r c' (_ & Hq & Ha). wp_rules.
    eexists _, _. split; [done|]. split; [done|].
    destruct Hwf as [Hn Ht]. split; rewrite ?Hq, ?Ha; done.
Qed.
End ingest_facts.

(** ** Properties *)

Section ingest_properties.
Context `{EL : EnvLaws}.

Lemma claimed_of_lookup rows ds x :
  length ds = length rows -> x ∈ zip_with claimed_of rows ds ->
  exists p d, (pc_id p, d) ∈ zip (pc_id <$> rows) ds /\ p ∈ rows /\ x = claimed_of p d.
Proof.
  intros Hl Hx. apply elem_of_lookup_zip_with in Hx as (i & p & d & -> & Hp & Hd).
  exists p, d. split; [|split; [by eapply list_elem_of_lookup_2|done]].
  apply elem_of_lookup_zip_with. exists i, (pc_id p), d. by rewrite list_lookup_fmap, Hp.
Qed.

Lemma claimed_of_ids rows ds :
  length ds = length rows -> ic_id <$> zip_with claimed_of rows ds = pc_id <$> rows.
Proof.
  intros Hl. by apply fmap_zip_with_fst.
Qed.

Lemma claimed_of_dispatch_ids rows ds :
  length ds = length rows -> ic_dispatch_id <$> zip_with claimed_of rows ds = ds.
Proof.
  intros Hl. rewrite <-(list_fmap_id ds) at 2. by apply fmap_zip_with_snd.
Qed.

Lemma elem_of_select_pending q limit db p :
  p ∈ select_pending q limit db ->
  exists r, i_accepted db !! pc_id p = Some r /\ ar_queue_name r = q /\ ar_dispatch_id r = None /\
    pc_name p = q /\ pc_payload p = ar_payload r /\ pc_created_at p = ar_created_at r.
Proof.
  unfold select_pending. destruct (i_queues db !! q) as [qr|]; [|set_solver].
  intros ([k r] & -> & Hin%elem_of_take)%list_elem_of_fmap. destruct Hin as (i & Hin & _).
  apply list_elem_of_lookup_2, elem_of_available_rows in Hin as (? & <- & ?). simpl.
  by exists r.
Qed.

Lemma select_pending_length q limit db :
  0 <= limit -> Z.of_nat (length (select_pending q limit db)) <= limit.
Proof.
  intros Hl. unfold select_pending. destruct (i_queues db !! q) as [qr|]; simpl; [|lia].
  rewrite length_fmap, length_take. lia.
Qed.

(** The rows a claim leaves behind are younger than the ones it takes. *)
Lemma select_pending_oldest q limit db p k r :
  p ∈ select_pending q limit db -> i_accepted db !! k = Some r ->
  ar_queue_name r = q -> ar_dispatch_id r = None ->
  k ∉ pc_id <$> select_pending q limit db ->
  pc_created_at p < ar_created_at r \/ (pc_created_at p = ar_created_at r /\ pc_id p <= k).
Proof.
  unfold select_pending. destruct (i_queues db !! q) as [qr|]; [|set_solver].
  intros ([k' r'] & -> & Hin)%list_elem_of_fmap Hr Hq Hn Hk. simpl.
  rewrite <-list_fmap_compose in Hk. simpl in Hk.
  assert (Hav : (k, r) ∈ available_rows q (i_accepted db)) by (by apply elem_of_available_rows).
  pose proof (available_rows_sorted q (i_accepted db)) as Hs.
  rewrite <-(take_drop (Z.to_nat limit) (available_rows q (i_accepted db))) in Hav, Hs.
  apply elem_of_app in Hav as [Hav|Hav].
  { destruct Hk. apply list_elem_of_fmap. by exists (k, r). }
  exact (StronglySorted_app_1_elem_of row_before _ _ (k', r') (k, r) Hs Hin Hav).
Qed.
End ingest_properties.

(** A successful claim hands out the oldest available jobs of the queue, at most the limit
    (clamped to 1..=1048576), oldest first and each at most once; each handed-out job was available, carries its
    payload and a new dispatch id that is now on its row, and no other row changes. *)
Theorem claim_batch_oldest_first `{EnvLaws} q limit names n db claimed c' :
  claim_batch q limit names (Conn n db) = (Ok claimed, c') ->
  let limit := clamp limit 1 MAX_CLAIM_BATCH_SIZE in
  Z.of_nat (length claimed) <= limit /\
  ic_id <$> claimed = pc_id <$> select_pending q limit db /\
  NoDup (ic_id <$> claimed) /\ NoDup (ic_dispatch_id <$> claimed) /\
  (forall x, x ∈ claimed -> exists r now,
     i_accepted db !! ic_id x = Some r /\ ar_queue_name r = q /\ ar_dispatch_id r = None /\
     ic_payload x = ar_payload r /\
     i_accepted (c_db c') !! ic_id x = Some (set_dispatch_id (Some (ic_dispatch_id x)) now r)) /\
  (forall k, k ∉ ic_id <$> claimed -> i_accepted (c_db c') !! k = i_accepted db !! k) /\
  (forall x k r, x ∈ claimed -> k ∉ ic_id <$> claimed -> i_accepted db !! k = Some r ->
     ar_queue_name r = q -> ar_dispatch_id r = None ->
     ic_created_at x < ar_created_at r \/ (ic_created_at x = ar_created_at r /\ ic_id x <= k)).
Proof.
  intros Hrun lim. assert (Hlim : 1 <= lim <= MAX_CLAIM_BATCH_SIZE) by (by apply clamp_bounds).
  destruct (wp_run _ _ _ _ _ (wp_claim_batch q limit names (Conn n db)) Hrun)
    as (_ & _ & now & ds & Hl & Hids & -> & ->). cbn [c_db] in *. fold lim in Hl |- *.
  set (rows := select_pending q lim db) in *.
  destruct (select_pending_ready q lim db) as [Hnd Hfree].
  rewrite claimed_of_ids, claimed_of_dispatch_ids by done.
  split_and!; [|done|done|by eapply new_ids_NoDup| | |].
  - rewrite length_zip_with_l by lia. apply select_pending_length. lia.
  - intros x (p & d & Hpd & Hp & ->)%claimed_of_lookup; [|done].
    destruct (elem_of_select_pending _ _ _ _ Hp) as (r & Hr & Hq & Hn & _ & Hpay & _).
    exists r, now. simpl. split_and!; [done..|]. unfold claim_update.
    rewrite lookup_update_keys, Hr. simpl. apply lookup_zip_map in Hpd; [|done|by rewrite length_fmap].
    by rewrite Hpd.
  - intros k Hk. simpl. unfold claim_update.
    rewrite lookup_update_keys, list_to_map_zip_None by done. by destruct (i_accepted db !! k).
  - intros x k r (p & d & _ & Hp & ->)%claimed_of_lookup Hk Hr Hq Hn; [|done]. simpl.
    exact (select_pending_oldest _ _ _ _ _ _ Hp Hr Hq Hn Hk).
Qed.

(** A database with three jobs of one queue, one of them claimed, and a job of another. *)
Definition example_row (q : string) (d : option string) (created : Z) : accepted_row :=
  mkAcceptedRow q [] d created created.
Definition example_db : ingest_db :=
  mkIngestDb
    {["email" := mkQueueRow 3 60 0 0; "sms" := mkQueueRow 0 5 0 0]}
    {[1 := example_row "email" None 50; 2 := example_row "email" None 40;
      3 := example_row "email" (Some "old"%string) 10; 4 := example_row "sms" None 5;
      5 := example_row "email" None 50]} ∅.
Definition example_names : gset string := {["email"; "sms"]}.

Lemma claim_batch_oldest_first_witness :
  exists claimed c', claim_batch (E := model_env) "email" 2 example_names (Conn 0 example_db) = (Ok claimed, c') /\
    ic_id <$> claimed = [2; 1] /\ NoDup (ic_dispatch_id <$> claimed).
Proof.
  eexists _, _. split; [vm_compute; reflexivity|]. split; [reflexivity|].
  refine (proj1 (proj2 (proj2 (proj2 (claim_batch_oldest_first (E := model_env)
    "email" 2 example_names 0 example_db _ _ _))))).
  vm_compute. reflexivity.
Defined.

(** C5. Two claims that succeed one after the other hand out different jobs under different
    dispatch ids. *)
Theorem claims_are_exclusive `{EnvLaws} q1 q2 limit1 limit2 names n db claimed1 c1 claimed2 c2 :
  claim_batch q1 limit1 names (Conn n db) = (Ok claimed1, c1) ->
  claim_batch q2 limit2 names c1 = (Ok claimed2, c2) ->
  NoDup (ic_id <$> claimed1 ++ claimed2) /\ NoDup (ic_dispatch_id <$> claimed1 ++ claimed2).
Proof.
  intros H1 H2.
  destruct (wp_run _ _ _ _ _ (wp_claim_batch q1 limit1 names (Conn n db)) H1)
    as (Hs1 & _ & now1 & ds1 & Hl1 & Hids1 & -> & Hdb1).
  destruct (wp_run _ _ _ _ _ (wp_claim_batch q2 limit2 names c1) H2)
    as (Hs2 & _ & now2 & ds2 & Hl2 & Hids2 & -> & _). cbn [c_db c_step] in *.
  destruct (select_pending_ready q1 (clamp limit1 1 MAX_CLAIM_BATCH_SIZE) db) as [Hnd1 Hf1].
  destruct (select_pending_ready q2 (clamp limit2 1 MAX_CLAIM_BATCH_SIZE) (c_db c1)) as [Hnd2 Hf2].
  rewrite !fmap_app, !claimed_of_ids, !claimed_of_dispatch_ids by done. split.
  - apply NoDup_app. split; [done|]. split; [|done].
    intros k Hk1 Hk2. destruct (Hf2 k Hk2) as (r & Hr & Hn). rewrite Hdb1 in Hr. simpl in Hr.
    unfold claim_update in Hr. rewrite lookup_update_keys in Hr.
    destruct (Hf1 k Hk1) as (r0 & Hr0 & _). rewrite Hr0 in Hr. simpl in Hr.
    destruct (list_to_map _ !! k) as [d|] eqn:Ed; [by simplify_eq|].
    apply not_elem_of_list_to_map_2 in Ed. destruct Ed. rewrite fst_zip; [done|].
    rewrite length_fmap. lia.
  - eapply new_ids_NoDup, new_ids_app; [|done|done]. simpl. lia.
Qed.

Lemma claims_are_exclusive_witness :
  let r1 := claim_batch (E := model_env) "email" 1 example_names (Conn 0 example_db) in
  let r2 := claim_batch (E := model_env) "email" 7 example_names (snd r1) in
  exists claimed1 claimed2, fst r1 = Ok claimed1 /\ fst r2 = Ok claimed2 /\
    length claimed2 = 2%nat /\ NoDup (ic_id <$> claimed1 ++ claimed2).
Proof.
  intros r1 r2. eexists _, _. split; [vm_compute; reflexivity|]. split; [vm_compute; reflexivity|].
  split; [reflexivity|].
  refine (proj1 (claims_are_exclusive (E := model_env) "email" "email" 1 7 example_names 0
    example_db _ (snd r1) _ (snd r2) _ _)); vm_compute; reflexivity.
Defined.

(** A batch of enqueues is all or nothing for the requests whose queue is known, and every
    other request is refused with [QueueNotFound]: either no row was added and each known request
    gets the same error, or the known requests get back their jobs with consecutive fresh ids, each of which
    now holds a row with exactly the job's queue, payload and times, unclaimed, and every older row
    is as it was. *)
Theorem enqueue_batch_all_or_nothing `{EnvLaws} batch names n db r c' :
  id_room (i_accepted db) (length batch) ->
  enqueue_batch batch names (Conn n db) = (r, c') ->
  exists commit known_replies,
    r = Ok (commit, refusals names batch ++ known_replies) /\
    known_replies.*1 = pe_reply <$> accepted_of names batch /\
    ((c_db c' = db /\ exists e, Forall (fun kr => kr.2 = Err e) known_replies) \/
     ((forall i p, accepted_of names batch !! i = Some p ->
         let id := max_id (dom (i_accepted db)) + 1 + Z.of_nat i in
         known_replies !! i = Some (pe_reply p, Ok (with_id id (pe_job p))) /\
         i_accepted db !! id = None /\
         i_accepted (c_db c') !! id = Some (new_accepted_row (pe_job p))) /\
      i_accepted db ⊆ i_accepted (c_db c'))).
Proof.
  intros Hroom Hrun.
  destruct (wp_run _ _ _ _ _ (wp_enqueue_batch batch names (Conn n db) Hroom) Hrun)
    as (_ & [commit replies] & -> & Hpost). unfold enqueue_post in Hpost. cbn [c_db fst snd] in Hpost.
  set (jobs := accepted_of names batch) in *. set (first := max_id (dom (i_accepted db)) + 1) in *.
  assert (Hnew : forall id, first <= id -> i_accepted db !! id = None).
  { intros id Hid. apply not_elem_of_dom. intros ?%max_id_ge. lia. }
  destruct Hpost as [(-> & -> & e & ->)|(_ & -> & ->)]; eexists _, _; (split; [done|]).
  - split; [by rewrite <-list_fmap_compose|]. left. split; [done|]. exists e.
    apply Forall_fmap, Forall_true. done.
  - split.
    { unfold numbered. rewrite <-list_fmap_compose, fmap_imap.
      rewrite <-(imap_const pe_reply). by apply imap_ext. }
    right. split.
    + intros i p Hp id. split_and!; [|apply Hnew; lia|].
      * unfold numbered. by rewrite list_lookup_fmap, list_lookup_imap, Hp.
      * simpl. rewrite lookup_append_rows. rewrite decide_True by lia. rewrite list_lookup_fmap.
        replace (Z.to_nat _) with i by lia. by rewrite Hp.
    + apply map_subseteq_spec. intros k row Hk. simpl. rewrite lookup_append_rows.
      case_decide as Hd; [|done]. apply Hnew in Hd. congruence.
Qed.

Lemma ingest_wf_decide names db :
  bool_decide (names ⊆ dom (i_queues db)) &&
  bool_decide (map_Forall (fun i r => 0 < i /\ ar_queue_name r ∈ dom (i_queues db)) (i_accepted db)) = true ->
  ingest_wf names db.
Proof. intros [?%bool_decide_eq_true ?%bool_decide_eq_true]%andb_prop. done. Qed.

Lemma id_room_decide {R} (t : gmap Z R) k :
  bool_decide (set_Forall (fun i => 0 < i) (dom t)) && (max_id (dom t) + Z.of_nat k <? i64_max) = true ->
  id_room t k.
Proof. intros [?%bool_decide_eq_true ?%Z.ltb_lt]%andb_prop. done. Qed.

Definition example_enqueue (q : string) (reply : nat) : PendingEnqueue :=
  mkPendingEnqueue (AcceptedJob_new 77 q []) reply.

Lemma enqueue_batch_all_or_nothing_witness :
  let batch := [example_enqueue "email" 8; example_enqueue "fax" 9] in
  id_room (i_accepted example_db) (length batch) /\
  exists r c', enqueue_batch (E := model_env) batch example_names (Conn 0 example_db) = (r, c') /\
    exists commit known_replies, r = Ok (commit, refusals example_names batch ++ known_replies) /\
      known_replies.*1 = [8%nat].
Proof.
  intros batch. assert (Hroom : id_room (i_accepted example_db) (length batch))
    by (apply id_room_decide; vm_compute; reflexivity).
  split; [exact Hroom|]. eexists _, _. split; [vm_compute; reflexivity|].
  edestruct (enqueue_batch_all_or_nothing (E := model_env) batch example_names 0 example_db)
    as (commit & known & Hr & Hk & _); [exact Hroom|vm_compute; reflexivity|].
  exists commit, known. split; [exact Hr|]. rewrite Hk. vm_compute. reflexivity.
Defined.

(** Releasing a claim is fenced by its dispatch id: whatever happens, no row other than the
    job's changes, and the job's row becomes available only if it was claimed under that very id. *)
Theorem repend_is_fenced `{EnvLaws} id d n db r c' :
  repend id d (Conn n db) = (r, c') ->
  (forall k, k <> id -> i_accepted (c_db c') !! k = i_accepted db !! k) /\
  (forall row, i_accepted db !! id = Some row -> ar_dispatch_id row <> Some d ->
     i_accepted (c_db c') !! id = Some row) /\
  (forall row, i_accepted db !! id = Some row -> ar_dispatch_id row = Some d -> is_ok r = true ->
     exists now, i_accepted (c_db c') !! id = Some (set_dispatch_id None now row)).
Proof.
  intros Hrun. destruct (wp_run _ _ _ _ _ (wp_repend id d (Conn n db)) Hrun) as (_ & Hr).
  cbn [c_db] in Hr. destruct r as [u|e]; [destruct Hr as [now ->]|rewrite Hr]; simpl.
  - unfold repend_update. split_and!.
    + intros k Hk. by rewrite lookup_alter_ne by done.
    + intros row Hrow Hd. rewrite lookup_alter_eq, Hrow. simpl. by rewrite decide_False.
    + intros row Hrow Hd _. exists now. rewrite lookup_alter_eq, Hrow. simpl. by rewrite decide_True.
  - by split_and!.
Qed.

Lemma repend_is_fenced_witness :
  exists r c', repend (E := model_env) 3 "old" (Conn 0 example_db) = (r, c') /\
    exists now, i_accepted (c_db c') !! 3 = Some (set_dispatch_id None now (example_row "email" (Some "old"%string) 10)).
Proof.
  eexists _, _. split; [vm_compute; reflexivity|].
  refine (proj2 (proj2 (repend_is_fenced (E := model_env) 3 "old" 0 example_db _ _ _)) _ _ _ _);
    vm_compute; reflexivity.
Defined.

(** The ingest writer answers every request exactly once, on the request's own channel, and
    keeps its invariant: the queue names it holds in memory are queues of the database, and every
    job has a positive id and a known queue. *)
Theorem ingest_handle_answers_once `{EnvLaws} request names n db r c' :
  ingest_wf names db -> id_room (i_accepted db) 1 ->
  handle request names (Conn n db) = (r, c') ->
  exists reply names', r = Ok ([(reply_of request, reply)], names') /\
    names ⊆ names' /\ ingest_wf names' (c_db c').
Proof. intros Hwf Hroom Hrun. exact (wp_run _ _ _ _ _ (wp_handle request names (Conn n db) Hwf Hroom) Hrun). Qed.

Lemma ingest_handle_answers_once_witness :
  ingest_wf example_names example_db /\ id_room (i_accepted example_db) 1 /\
  let r := handle (E := model_env) (IClaimBatch "email" 2 6) example_names (Conn 0 example_db) in
  exists reply names', fst r = Ok ([(6%nat, reply)], names') /\
    example_names ⊆ names' /\ ingest_wf names' (c_db (snd r)).
Proof.
  assert (Hwf : ingest_wf example_names example_db) by (apply ingest_wf_decide; vm_compute; reflexivity).
  assert (Hroom : id_room (i_accepted example_db) 1) by (apply id_room_decide; vm_compute; reflexivity).
  split; [exact Hwf|]. split; [exact Hroom|]. intros r.
  refine (ingest_handle_answers_once (E := model_env) (IClaimBatch "email" 2 6) example_names 0
    example_db (fst r) (snd r) Hwf Hroom _).
  vm_compute. reflexivity.
Defined.
