(* ===== verification/Results.v ===== *)
(** * The results connection

    [crates/persistence/src/sqlite/results.rs], [impl ResultsConn]: the operations of the writer of
    the results database, which owns the execution attempts. An attempt is [running] under a
    dispatch id; a completion, an abandonment or a lease recovery applies to it only while it is
    running under that id, and a dispatch restarts it only when it is [failed] (or [pending]). *)
From S2P Require Import Prelude Types Db Tables Ingest.

Record DispatchInsert := mkDispatchInsert {
  di_job_id : Z;
  di_queue_name : string;
  di_dispatch_id : string;
  di_lease_expires_at : Z
}.

Record DispatchedExecution := mkDispatchedExecution {
  de_job_id : Z;
  de_execution_count : Z;
  de_dispatch_id : string;
  de_lease_expires_at : Z;
  de_updated_at : Z
}.

Inductive CompletionDisposition : Type := Ignored | DCompleted | Repend.

#[export] Instance CompletionDisposition_eq_dec : EqDecision CompletionDisposition.
Proof. solve_decision. Defined.

Record RecoveredStale := mkRecoveredStale {
  rs_job_id : Z;
  rs_dispatch_id : string;
  rs_should_repend : bool
}.

Record PendingCompletion := mkPendingCompletion {
  pcm_job_id : Z;
  pcm_dispatch_id : string;
  pcm_outcome : JobOutcome;
  pcm_reply : nat;
  pcm_queued_at : Z
}.

Record PendingDispatch := mkPendingDispatch {
  pd_rows : list DispatchInsert;
  pd_reply : nat;
  pd_queued_at : Z
}.

Inductive ResultsRequest : Type :=
| RUpsertQueue (queue : JobQueue) (reply : nat)
| RDispatch (rows : list DispatchInsert) (reply : nat)
| RComplete (job_id : Z) (dispatch_id : string) (outcome : JobOutcome) (reply : nat)
| RAbandon (job_id : Z) (dispatch_id : string) (reply : nat)
| RRecoverStale (now : Z) (reply : nat)
| RCleanupExpiredRecords (cutoff : Z) (reply : nat)
| RVacuum (reply : nat).

Inductive ResultsReply : Type :=
| RRepQueue (r : Result JobQueue)
| RRepDispatched (r : Result (list DispatchedExecution))
| RRepDisposition (r : Result CompletionDisposition)
| RRepUnit (r : Result unit)
| RRepRecovered (r : Result (list RecoveredStale))
| RRepCount (r : Result nat).

(** ** The rows the statements write *)

Definition start_row (id : Z) (now : Z) (v : DispatchInsert) : execution_row :=
  mkExecutionRow id (di_queue_name v) "running" 1 (Some (di_lease_expires_at v)) (di_dispatch_id v)
    None None now now.

Definition restart_row (now : Z) (v : DispatchInsert) (r : execution_row) : execution_row :=
  mkExecutionRow (er_id r) (er_queue_name r) "running" (er_execution_count r + 1)
    (Some (di_lease_expires_at v)) (di_dispatch_id v) None None (er_created_at r) now.

Definition complete_row (now : Z) (payload : bytes) (r : execution_row) : execution_row :=
  mkExecutionRow (er_id r) (er_queue_name r) "completed" (er_execution_count r) None
    (er_dispatch_id r) (Some payload) None (er_created_at r) now.

Definition fail_row (now : Z) (message : string) (r : execution_row) : execution_row :=
  mkExecutionRow (er_id r) (er_queue_name r) "failed" (er_execution_count r) None
    (er_dispatch_id r) (er_result_payload r) (Some message) (er_created_at r) now.

(** [.. AND executions.status = 'running'] *)
Definition running (r : execution_row) : Prop := er_status r = "running"%string.
#[export] Instance running_dec r : Decision (running r).
Proof. unfold running. apply _. Defined.

(** [executions.status IN ('failed', 'pending')] *)
Definition restartable (r : execution_row) : Prop :=
  er_status r = "failed"%string \/ er_status r = "pending"%string.
#[export] Instance restartable_dec r : Decision (restartable r).
Proof. unfold restartable. apply _. Defined.

(** Some row other than job [k]'s has this dispatch id: [UNIQUE(dispatch_id)]. *)
Definition dispatch_id_taken (d : string) (k : Z) (t : gmap Z execution_row) : Prop :=
  Exists (fun kr => kr.1 <> k /\ er_dispatch_id kr.2 = d) (map_to_list t).
#[export] Instance dispatch_id_taken_dec d k t : Decision (dispatch_id_taken d k t).
Proof. unfold dispatch_id_taken. apply _. Defined.

(** [executions.job_id = v.job_id AND executions.dispatch_id = v.dispatch_id AND
    executions.status = 'running'] *)
Definition completion_matches {A} (v : Z * string * A) (k : Z) (r : execution_row) : Prop :=
  k = v.1.1 /\ er_dispatch_id r = v.1.2 /\ running r.
#[export] Instance completion_matches_dec {A} (v : Z * string * A) k r : Decision (completion_matches v k r).
Proof. unfold completion_matches. apply _. Defined.

(** [executions.id = v.id AND executions.status = 'running'] *)
Definition stale_matches (v : Z) (k : Z) (r : execution_row) : Prop := er_id r = v /\ running r.
#[export] Instance stale_matches_dec v k r : Decision (stale_matches v k r).
Proof. unfold stale_matches. apply _. Defined.

(** [e.status = 'running' AND e.lease_expires_at IS NOT NULL AND e.lease_expires_at < now] *)
Definition lease_expired (now : Z) (r : execution_row) : Prop :=
  running r /\ match er_lease_expires_at r with Some l => l < now | None => False end.
#[export] Instance lease_expired_dec now r : Decision (lease_expired now r).
Proof. unfold lease_expired. destruct (er_lease_expires_at r); apply _. Defined.

Section results.
Context `{E : Env}.

Definition r_upsert_queue (queue : JobQueue) : M results_db JobQueue :=
  now ← unix_now;
  let queue := mkJobQueue (q_name queue) (q_max_retries queue) (q_timeout_secs queue)
                 (q_created_at queue) now in
  _ ← stmt (fun n db =>
    let? _ := param_u64 n (q_timeout_secs queue) in
    Ok (tt, mkResultsDb (upsert_queue_row queue (r_queues db)) (r_executions db)));
  query (fun n db =>
    match r_queues db !! q_name queue with
    | Some r => row_to_queue n (q_name queue) r
    | None => Err (Internal (sqlite_error n))
    end).

(** *** Dispatch *)

(** [INSERT INTO executions .. ON CONFLICT(job_id) DO UPDATE .. WHERE executions.status IN
    ('failed', 'pending') RETURNING ..]: the rows inserted or restarted, and the table. *)
Fixpoint upsert_rows (n : nat) (now : Z) (queues : gset string) (vs : list DispatchInsert)
    (t : gmap Z execution_row) : Result (list (Z * execution_row) * gmap Z execution_row) :=
  match vs with
  | [] => Ok ([], t)
  | v :: vs =>
      let k := di_job_id v in
      let write (r : execution_row) :=
        if decide (dispatch_id_taken (di_dispatch_id v) k t) then Err (Internal (sqlite_error n))
        else let? out := upsert_rows n now queues vs (<[k := r]> t) in
             Ok ((k, r) :: out.1, out.2) in
      match t !! k with
      | Some old =>
          if decide (restartable old) then write (restart_row now v old)
          else upsert_rows n now queues vs t
      | None =>
          if decide (di_queue_name v ∈ queues)
          then write (start_row
                        (next_rowid n (list_to_set (er_id <$> (map_to_list t).*2))) now v)
          else Err (Internal (sqlite_error n)) (* FOREIGN KEY constraint failed *)
      end
  end.

(** The body of the loop over the chunks of [dispatch_batch]: what it adds to [by_job]. *)
Definition dispatch_chunk (now : Z) (chunk : list DispatchInsert) :
    M results_db (list DispatchedExecution) :=
  upserted ← stmt (fun n db =>
    let? out := upsert_rows n now (dom (r_queues db)) chunk (r_executions db) in
    Ok (row_order n out.1, set_executions out.2 db));
  let lease_by_id := collect_map ((fun v => (di_job_id v, di_lease_expires_at v)) <$> chunk) in
  lift_result (rows_result (fun kr : Z * execution_row =>
    match u32_try_from (er_execution_count kr.2) with
    | None => Err (Internal try_from_int_error)
    | Some execution_count =>
        Ok (mkDispatchedExecution kr.1 execution_count (er_dispatch_id kr.2)
              (default 0 (lease_by_id !! kr.1)) (er_updated_at kr.2))
    end) upserted).

(** The loop after the commit: [by_job.remove(&row.job_id)] for each row, in order. *)
Fixpoint take_dispatched (rows : list DispatchInsert) (by_job : gmap Z DispatchedExecution) :
    Result (list DispatchedExecution) :=
  match rows with
  | [] => Ok []
  | row :: rows =>
      match by_job !! di_job_id row with
      | None => Err (Internal ("dispatch did not produce an execution for job " +:+
                                 pretty (di_job_id row)))
      | Some dispatched =>
          let? out := take_dispatched rows (delete (di_job_id row) by_job) in
          Ok (dispatched :: out)
      end
  end.

Definition dispatch_batch (rows : list DispatchInsert) : M results_db (list DispatchedExecution) :=
  match rows with
  | [] => mret []
  | _ =>
      upserted ← transaction (
        now ← unix_now;
        out ← for_each (dispatch_chunk now) (chunks ROWS_PER_STATEMENT rows);
        mret (concat out));
      let by_job := collect_map ((fun d => (de_job_id d, d)) <$> upserted) in
      lift_result (take_dispatched rows by_job)
  end.

(** *** Completion *)

Definition set_dispositions (f : nat -> CompletionDisposition -> CompletionDisposition)
    (idx : list nat) (ds : list CompletionDisposition) : list CompletionDisposition :=
  foldl (fun ds i => alter (f i) i ds) ds idx.

Definition success_values (batch : list PendingCompletion) (chunk : list nat) : list (Z * string * bytes) :=
  omap (fun i => p ← batch !! i;
    match pcm_outcome p with
    | Succeeded payload => Some (pcm_job_id p, pcm_dispatch_id p, payload)
    | OFailed _ => None
    end) chunk.

Definition fail_values (batch : list PendingCompletion) (chunk : list nat) : list (Z * string * string) :=
  omap (fun i => p ← batch !! i;
    match pcm_outcome p with
    | OFailed message => Some (pcm_job_id p, pcm_dispatch_id p, message)
    | Succeeded _ => None
    end) chunk.

Definition complete_success_chunk (now : Z) (batch : list PendingCompletion) (chunk : list nat)
    (dispositions : list CompletionDisposition) : M results_db (list CompletionDisposition) :=
  updated ← stmt (fun n db =>
    let vs := success_values batch chunk in
    let upd (v : Z * string * bytes) := complete_row now v.2 in
    Ok ((fun kr : Z * execution_row => (kr.1, er_dispatch_id kr.2)) <$>
          updated_rows completion_matches upd n vs (r_executions db),
        set_executions (update_from completion_matches upd n vs (r_executions db)) db));
  mret (set_dispositions (fun i d =>
    match batch !! i with
    | Some p => if decide ((pcm_job_id p, pcm_dispatch_id p) ∈ updated) then DCompleted else d
    | None => d
    end) chunk dispositions).

(** The [SELECT max_retries] of each queue among the updated rows, once per queue. *)
Fixpoint load_limits (queue_names : list string) (queue_limits : gmap string Z) :
    M results_db (gmap string Z) :=
  match queue_names with
  | [] => mret queue_limits
  | queue_name :: rest =>
      match queue_limits !! queue_name with
      | Some _ => load_limits rest queue_limits
      | None =>
          max_retries ← query (fun n db =>
            match r_queues db !! queue_name with
            | Some q => Ok (qr_max_retries q)
            | None => Err (Internal (sqlite_error n))
            end);
          load_limits rest (<[queue_name := max_retries]> queue_limits)
      end
  end.

Definition complete_fail_chunk (now : Z) (batch : list PendingCompletion) (chunk : list nat)
    (dispositions : list CompletionDisposition) : M results_db (list CompletionDisposition) :=
  updated ← stmt (fun n db =>
    let vs := fail_values batch chunk in
    let upd (v : Z * string * string) := fail_row now v.2 in
    Ok (updated_rows completion_matches upd n vs (r_executions db),
        set_executions (update_from completion_matches upd n vs (r_executions db)) db));
  queue_limits ← load_limits ((fun kr : Z * execution_row => er_queue_name kr.2) <$> updated) ∅;
  let by_key : gmap (Z * string) (Z * Z) := collect_map
    ((fun kr : Z * execution_row => ((kr.1, er_dispatch_id kr.2),
        (er_execution_count kr.2, default 0 (queue_limits !! er_queue_name kr.2)))) <$> updated) in
  mret (set_dispositions (fun i d =>
    match batch !! i with
    | Some p =>
        match by_key !! (pcm_job_id p, pcm_dispatch_id p) with
        | Some (execution_count, max_retries) =>
            if decide (execution_count <= max_retries) then Repend else DCompleted
        | None => Ignored
        end
    | None => d
    end) chunk dispositions).

Definition is_succeeded (p : PendingCompletion) : bool :=
  match pcm_outcome p with Succeeded _ => true | OFailed _ => false end.

Definition outcome_idx (succeeded : bool) (batch : list PendingCompletion) : list nat :=
  (filter (fun ip => is_succeeded ip.2 = succeeded) (imap pair batch)).*1.

(** The closure [complete_batch] runs: its transaction. *)
Definition complete_tx (batch : list PendingCompletion) : M results_db (list CompletionDisposition) :=
  transaction (
    now ← unix_now;
    let dispositions := replicate (length batch) Ignored in
    dispositions ← thread (complete_success_chunk now batch)
      (chunks ROWS_PER_STATEMENT (outcome_idx true batch)) dispositions;
    thread (complete_fail_chunk now batch)
      (chunks ROWS_PER_STATEMENT (outcome_idx false batch)) dispositions).

Definition complete_batch (batch : list PendingCompletion) :
    M results_db (option BatchCommit * list (nat * Result CompletionDisposition)) :=
  match batch with
  | [] => mret (None, [])
  | _ =>
      started ← instant_now;
      let count := length batch in
      result ← attempt (complete_tx batch);
      match result with
      | Ok results =>
          finished ← instant_now;
          mret (Some (mkBatchCommit count (Z.max 0 (finished - started))),
                zip_with (fun pending result => (pcm_reply pending, Ok result)) batch results)
      | Err error => mret (None, (fun pending => (pcm_reply pending, Err error)) <$> batch)
      end
  end.

(** *** Abandonment and lease recovery *)

Definition abandon (job_id : Z) (dispatch_id : string) : M results_db unit :=
  now ← unix_now;
  stmt (fun _ db =>
    Ok (tt, set_executions
              (alter (fun r => if decide (er_dispatch_id r = dispatch_id /\ running r)
                               then fail_row now "abandoned" r else r) job_id (r_executions db)) db)).

(** The [SELECT] of [recover_stale]: expired running executions joined with their queue. *)
Definition select_stale (n : nat) (now : Z) (db : results_db) : Result (list ExecutionWithQueueConfig) :=
  rows_result (fun kr : Z * execution_row =>
      match r_queues db !! er_queue_name kr.2 with
      | Some q => row_to_execution_with_queue_config n kr.1 kr.2 q
      | None => Err (Internal (sqlite_error n))
      end)
    (row_order n (filter (fun kr => lease_expired now kr.2 /\ er_queue_name kr.2 ∈ dom (r_queues db))
                    (map_to_list (r_executions db)))).

(** The body of the loop over the chunks of [recover_stale]. *)
Definition recover_chunk (now : Z) (limits : gmap Z Z) (chunk : list ExecutionWithQueueConfig) :
    M results_db (list RecoveredStale) :=
  let ids := (fun item => ex_id (ewq_execution item)) <$> chunk in
  updated ← stmt (fun n db =>
    let upd (_ : Z) := fail_row now "lease expired" in
    Ok (updated_rows stale_matches upd n ids (r_executions db),
        set_executions (update_from stale_matches upd n ids (r_executions db)) db));
  lift_result (rows_result (fun kr : Z * execution_row =>
    match u32_try_from (er_execution_count kr.2) with
    | None => Err (Internal try_from_int_error)
    | Some execution_count =>
        let max_retries := default 0 (limits !! er_id kr.2) in
        Ok (mkRecoveredStale kr.1 (er_dispatch_id kr.2) (bool_decide (execution_count <= max_retries)))
    end) updated).

Definition recover_stale (now : Z) : M results_db (list RecoveredStale) :=
  stale ← query (fun n db => select_stale n now db);
  match stale with
  | [] => mret []
  | _ =>
      let limits := collect_map
        ((fun item => (ex_id (ewq_execution item), q_max_retries (ewq_queue item))) <$> stale) in
      transaction (
        recovered ← for_each (recover_chunk now limits) (chunks ROWS_PER_STATEMENT stale);
        mret (concat recovered))
  end.

(** *** Maintenance *)

(** [DELETE FROM executions WHERE updated_at < ?1] *)
Definition r_cleanup_expired_records (cutoff : Z) : M results_db nat :=
  stmt (fun _ db =>
    let kept := filter (fun kr => ~ er_updated_at kr.2 < cutoff) (r_executions db) in
    Ok ((size (r_executions db) - size kept)%nat, set_executions kept db)).

Definition r_vacuum : M results_db unit := stmt (fun _ db => Ok (tt, db)).

(** *** Requests *)

(** [ResultsConn::handle]: the replies it sends. *)
Definition r_handle (request : ResultsRequest) : M results_db (list (nat * ResultsReply)) :=
  match request with
  | RUpsertQueue queue reply =>
      res ← attempt (r_upsert_queue queue); mret [(reply, RRepQueue res)]
  | RDispatch rows reply =>
      res ← attempt (dispatch_batch rows); mret [(reply, RRepDispatched res)]
  | RComplete job_id dispatch_id outcome reply =>
      queued_at ← instant_now;
      out ← complete_batch [mkPendingCompletion job_id dispatch_id outcome reply queued_at];
      mret ((fun kr => (kr.1, RRepDisposition kr.2)) <$> out.2)
  | RAbandon job_id dispatch_id reply =>
      res ← attempt (abandon job_id dispatch_id); mret [(reply, RRepUnit res)]
  | RRecoverStale now reply =>
      res ← attempt (recover_stale now); mret [(reply, RRepRecovered res)]
  | RCleanupExpiredRecords cutoff reply =>
      res ← attempt (r_cleanup_expired_records cutoff); mret [(reply, RRepCount res)]
  | RVacuum reply =>
      res ← attempt r_vacuum; mret [(reply, RRepUnit res)]
  end.
End results.
