(* ===== verification/Store.v ===== *)
(** * The SQLite store

    [crates/persistence/src/sqlite/store.rs], [SqliteStore]: every operation is a sequence of
    requests to the two writers ([IngestHandle::call], [ResultsHandle::call]) and of reads
    ([ReadPool]), over the two databases and the ingest writer's set of queue names. *)
From S2P Require Import Prelude Types Db Tables Ingest Results.

Record store := mkStore {
  s_names : gset string;
  s_ingest : ingest_db;
  s_results : results_db
}.

Definition set_ingest (db : ingest_db) (s : store) : store := mkStore (s_names s) db (s_results s).
Definition set_results (db : results_db) (s : store) : store := mkStore (s_names s) (s_ingest s) db.

(** [options.validate()] aside, a store on two empty databases *)
Definition empty_store : store := mkStore ∅ empty_ingest empty_results.

(** ** Calls to the writers *)

(** The reply sent on channel [0], if one was. *)
Definition received {R A} (read : R -> option (Result A)) (dropped : string) (replies : list (nat * R)) : Result A :=
  match replies with
  | [(0%nat, reply)] => match read reply with Some r => r | None => Err (Internal dropped) end
  | _ => Err (Internal dropped)
  end.

Definition reads_queue (r : IngestReply) := match r with RepQueue x => Some x | _ => None end.
Definition reads_accepted (r : IngestReply) := match r with RepAccepted x => Some x | _ => None end.
Definition reads_claimed (r : IngestReply) := match r with RepClaimed x => Some x | _ => None end.
Definition reads_unit (r : IngestReply) := match r with RepUnit x => Some x | _ => None end.
Definition reads_count (r : IngestReply) := match r with RepCount x => Some x | _ => None end.
Definition r_reads_queue (r : ResultsReply) := match r with RRepQueue x => Some x | _ => None end.
Definition r_reads_dispatched (r : ResultsReply) := match r with RRepDispatched x => Some x | _ => None end.
Definition r_reads_disposition (r : ResultsReply) := match r with RRepDisposition x => Some x | _ => None end.
Definition r_reads_unit (r : ResultsReply) := match r with RRepUnit x => Some x | _ => None end.
Definition r_reads_recovered (r : ResultsReply) := match r with RRepRecovered x => Some x | _ => None end.
Definition r_reads_count (r : ResultsReply) := match r with RRepCount x => Some x | _ => None end.

Section calls.
Context `{E : Env}.

(** [IngestHandle::call]: send the request, wait for the reply. *)
Definition ingest_call {A} (build : nat -> IngestRequest) (read : IngestReply -> option (Result A)) :
    M store A := fun c =>
  match handle (build 0%nat) (s_names (c_db c)) (Conn (c_step c) (s_ingest (c_db c))) with
  | (Ok (replies, names), c') =>
      (received read "ingest writer dropped reply" replies,
       Conn (c_step c') (mkStore names (c_db c') (s_results (c_db c))))
  | (Err e, c') => (Err e, Conn (c_step c') (set_ingest (c_db c') (c_db c)))
  end.

(** [ResultsHandle::call] *)
Definition results_call {A} (build : nat -> ResultsRequest) (read : ResultsReply -> option (Result A)) :
    M store A := fun c =>
  match r_handle (build 0%nat) (Conn (c_step c) (s_results (c_db c))) with
  | (Ok replies, c') =>
      (received read "results writer dropped reply" replies,
       Conn (c_step c') (set_results (c_db c') (c_db c)))
  | (Err e, c') => (Err e, Conn (c_step c') (set_results (c_db c') (c_db c)))
  end.

Definition call_upsert_queue (queue : JobQueue) : M store JobQueue :=
  ingest_call (IUpsertQueue queue) reads_queue.
Definition call_enqueue (job : AcceptedJob) : M store AcceptedJob := ingest_call (IEnqueue job) reads_accepted.
Definition call_claim_batch (queue_name : string) (limit : Z) : M store (list IngestClaimed) :=
  ingest_call (IClaimBatch queue_name limit) reads_claimed.
Definition call_repend (job_id : Z) (dispatch_id : string) : M store unit :=
  ingest_call (IRepend job_id dispatch_id) reads_unit.
Definition call_ingest_cleanup (cutoff : Z) : M store nat :=
  ingest_call (ICleanupExpiredRecords cutoff) reads_count.
Definition call_ingest_vacuum : M store unit := ingest_call IVacuum reads_unit.

Definition call_r_upsert_queue (queue : JobQueue) : M store JobQueue :=
  results_call (RUpsertQueue queue) r_reads_queue.
Definition call_dispatch (rows : list DispatchInsert) : M store (list DispatchedExecution) :=
  results_call (RDispatch rows) r_reads_dispatched.
Definition call_complete (job_id : Z) (dispatch_id : string) (outcome : JobOutcome) :
    M store CompletionDisposition :=
  results_call (RComplete job_id dispatch_id outcome) r_reads_disposition.
Definition call_abandon (job_id : Z) (dispatch_id : string) : M store unit :=
  results_call (RAbandon job_id dispatch_id) r_reads_unit.
Definition call_recover_stale (now : Z) : M store (list RecoveredStale) :=
  results_call (RRecoverStale now) r_reads_recovered.
Definition call_results_cleanup (cutoff : Z) : M store nat :=
  results_call (RCleanupExpiredRecords cutoff) r_reads_count.
Definition call_results_vacuum : M store unit := results_call RVacuum r_reads_unit.

(** ** Reads *)

(** [ReadPool::accepted_job] *)
Definition accepted_row_of (job_id : Z) : M store AcceptedJob :=
  query (fun _ s =>
    match i_accepted (s_ingest s) !! job_id with
    | Some r => Ok (row_to_accepted_job job_id r)
    | None => Err (NotFound job_id)
    end).

(** [ReadPool::execution] *)
Definition execution_of (job_id : Z) : M store (option Execution) :=
  query (fun n s =>
    match r_executions (s_results s) !! job_id with
    | Some r => result_map Some (row_to_execution n job_id r)
    | None => Ok None
    end).

(** [ReadPool::queue] *)
Definition get_queue (name : string) : M store (option JobQueue) :=
  query (fun n s =>
    match i_queues (s_ingest s) !! name with
    | Some r => result_map Some (row_to_queue n name r)
    | None => Ok None
    end).

(** The order of [ORDER BY name]: byte by byte. *)
Definition name_before (x y : string * queue_row) : Prop := String.le x.1 y.1.
#[export] Instance name_before_dec x y : Decision (name_before x y).
Proof. unfold name_before. apply _. Defined.

(** [ReadPool::queues]: [ORDER BY name ASC] *)
Definition list_queues : M store (list JobQueue) :=
  query (fun n s =>
    rows_result (fun kr : string * queue_row => row_to_queue n kr.1 kr.2)
      (merge_sort name_before (map_to_list (i_queues (s_ingest s))))).

(** ** Operations *)

Definition merge_job (accepted : AcceptedJob) (execution : option Execution) : Job :=
  from_accepted accepted execution.

Definition composed_job (job_id : Z) : M store Job :=
  accepted ← accepted_row_of job_id;
  execution ← execution_of job_id;
  mret (merge_job accepted execution).

Definition job_from_claimed (claimed : IngestClaimed) (dispatched : DispatchedExecution) : Job :=
  {| job_id := ic_id claimed; job_name := ic_name claimed; job_status := Running;
     job_payload := ic_payload claimed; job_execution_count := de_execution_count dispatched;
     job_lease_expires_at := Some (de_lease_expires_at dispatched);
     job_dispatch_id := Some (de_dispatch_id dispatched);
     job_result_payload := None; job_result_error := None;
     job_created_at := ic_created_at claimed; job_updated_at := de_updated_at dispatched |}.

(** [claimed_at.saturating_add((timeout_secs as i64).saturating_mul(1000))] *)
Definition lease_expires_at (claimed_at timeout_secs : Z) : Z :=
  i64_saturating_add claimed_at (i64_saturating_mul (u64_as_i64 timeout_secs) 1000).

Definition dispatch_row (claimed_at : Z) (row : IngestClaimed) : DispatchInsert :=
  mkDispatchInsert (ic_id row) (ic_name row) (ic_dispatch_id row)
    (lease_expires_at claimed_at (ic_timeout_secs row)).

Definition claim_batch_inner (queue_name : string) (limit : Z) : M store (list Job) :=
  claimed ← call_claim_batch queue_name limit;
  match claimed with
  | [] => mret []
  | _ =>
      claimed_at ← unix_now;
      res ← attempt (call_dispatch (dispatch_row claimed_at <$> claimed));
      match res with
      | Ok dispatched => mret (zip_with job_from_claimed claimed dispatched)
      | Err err =>
          _ ← for_each (fun row => attempt (call_repend (ic_id row) (ic_dispatch_id row))) claimed;
          fail err
      end
  end.

Definition store_upsert_queue (queue : JobQueue) : M store JobQueue :=
  queue ← call_upsert_queue queue;
  _ ← call_r_upsert_queue queue;
  mret queue.

Definition enqueue (job : AcceptedJob) : M store AcceptedJob := call_enqueue job.

Definition get_job (job_id : Z) : M store Job := composed_job job_id.

Definition status (job_id : Z) : M store ExecutionStatus :=
  job ← composed_job job_id; mret (job_status job).

Definition claim_next (queue_name : string) : M store (option Job) :=
  jobs ← claim_batch_inner queue_name 1; mret (last jobs).

Definition complete (job_id : Z) (dispatch_id : string) (outcome : JobOutcome) : M store (option Job) :=
  disposition ← call_complete job_id dispatch_id outcome;
  match disposition with
  | Ignored => mret None
  | Repend => _ ← call_repend job_id dispatch_id; Some <$> composed_job job_id
  | DCompleted => Some <$> composed_job job_id
  end.

Definition complete_worker_result (job_id : Z) (dispatch_id : string) (outcome : JobOutcome) : M store bool :=
  disposition ← call_complete job_id dispatch_id outcome;
  match disposition with
  | Repend => _ ← call_repend job_id dispatch_id; mret true
  | _ => mret false
  end.

Definition release_claim (job_id : Z) (dispatch_id : string) : M store bool :=
  accepted ← accepted_row_of job_id;
  if decide (aj_dispatch_id accepted = Some dispatch_id) then
    _ ← call_abandon job_id dispatch_id;
    _ ← call_repend job_id dispatch_id;
    mret true
  else mret false.

Definition recover_one (item : RecoveredStale) : M store Job :=
  _ ← (if rs_should_repend item then call_repend (rs_job_id item) (rs_dispatch_id item) else mret tt);
  accepted ← accepted_row_of (rs_job_id item);
  execution ← execution_of (rs_job_id item);
  mret (merge_job accepted execution).

Definition recover_stale_leases (now : Z) : M store (list Job) :=
  recovered ← call_recover_stale now;
  for_each recover_one recovered.

Definition store_cleanup_expired_records (cutoff : Z) : M store nat :=
  jobs ← call_ingest_cleanup cutoff;
  executions ← call_results_cleanup cutoff;
  mret (jobs + executions)%nat.

Definition store_vacuum : M store unit :=
  _ ← call_results_vacuum;
  call_ingest_vacuum.

(** [heal_orphan_claims], run on opening: a claim whose dispatch id no execution has is released. *)
Definition heal_orphan_claims : M store unit :=
  orphans ← query (fun n s => Ok (row_order n (omap (fun kr : Z * accepted_row =>
               pair kr.1 <$> ar_dispatch_id kr.2) (map_to_list (i_accepted (s_ingest s))))));
  now ← unix_now;
  _ ← for_each (fun od : Z * string =>
        exists_ ← query (fun _ s => Ok (length (filter (fun kr : Z * execution_row =>
                     er_dispatch_id kr.2 = od.2) (map_to_list (r_executions (s_results s))))));
        if decide (exists_ = 0%nat) then
          stmt (fun _ s => Ok (tt, set_ingest (set_accepted
            (alter (fun r => if decide (ar_dispatch_id r = Some od.2) then set_dispatch_id None now r else r)
               od.1 (i_accepted (s_ingest s))) (s_ingest s)) s))
        else mret tt) orphans;
  mret tt.
End calls.
