(* ===== verification/ResultsFacts.v ===== *)
(** * The results connection: its state machine

    What the operations of [Results] do to the table of executions, row by row: completions and
    recoveries move a running row to [completed] or [failed] once; a dispatch starts a missing row
    or restarts a failed one. The lemmas here are shared by the properties in [ResultsProps]. *)
From S2P Require Import Prelude Types Db Tables Ingest Results.

(** ** Finishing a running row *)

Definition outcome_row (now : Z) (o : JobOutcome) : execution_row -> execution_row :=
  match o with Succeeded payload => complete_row now payload | OFailed message => fail_row now message end.

Lemma outcome_row_not_running now o r : ~ running (outcome_row now o r).
Proof. by destruct o. Qed.

Definition completes (p : PendingCompletion) (k : Z) (r : execution_row) : Prop :=
  k = pcm_job_id p /\ er_dispatch_id r = pcm_dispatch_id p /\ running r.

(** Table [t'] is [t] with the completions [ps] applied: each row takes the outcome of one of the
    completions that match it, if there is one. *)
Definition completed_by (now : Z) (ps : list PendingCompletion) (t t' : gmap Z execution_row) : Prop :=
  forall k,
    match t !! k with
    | None => t' !! k = None
    | Some r =>
        (exists p, p ∈ ps /\ completes p k r /\ t' !! k = Some (outcome_row now (pcm_outcome p) r)) \/
        ((forall p, p ∈ ps -> ~ completes p k r) /\ t' !! k = Some r)
    end.

Lemma completed_by_nil now t : completed_by now [] t t.
Proof. intros k. destruct (t !! k) as [r|]; [|done]. right. split; [set_solver|done]. Qed.

Lemma completed_by_app now ps1 ps2 t1 t2 t3 :
  completed_by now ps1 t1 t2 -> completed_by now ps2 t2 t3 -> completed_by now (ps1 ++ ps2) t1 t3.
Proof.
  intros H1 H2 k. specialize (H1 k). specialize (H2 k). destruct (t1 !! k) as [r|].
  - destruct H1 as [(p & Hp & Hc & E)|[Hn E]]; rewrite E in H2.
    + left. exists p. split; [set_solver|]. split; [done|].
      destruct H2 as [(p2 & _ & (_ & _ & Hr) & _)|[_ ?]]; [|done].
      by destruct (outcome_row_not_running _ _ _ Hr).
    + destruct H2 as [(p2 & Hp2 & ? & ?)|[Hn2 ?]].
      * left. exists p2. set_solver.
      * right. split; [|done]. intros p [?|?]%elem_of_app; auto.
  - by rewrite H1 in H2.
Qed.

Lemma completed_by_perm now ps1 ps2 t t' :
  ps1 ≡ₚ ps2 -> completed_by now ps1 t t' -> completed_by now ps2 t t'.
Proof.
  intros Hp H k. specialize (H k). destruct (t !! k) as [r|]; [|done].
  destruct H as [(p & ? & ?)|[? ?]]; [left; exists p|right]; by setoid_rewrite <-Hp.
Qed.

(** The running row a completion is for. *)
Definition running_under (t : gmap Z execution_row) (key : Z * string) : option execution_row :=
  match t !! key.1 with
  | Some r => if decide (er_dispatch_id r = key.2 /\ running r) then Some r else None
  | None => None
  end.

Definition pcm_key (p : PendingCompletion) : Z * string := (pcm_job_id p, pcm_dispatch_id p).

Lemma running_under_Some t key r :
  running_under t key = Some r <-> t !! key.1 = Some r /\ er_dispatch_id r = key.2 /\ running r.
Proof.
  unfold running_under. destruct (t !! key.1) as [r'|]; [|naive_solver].
  case_decide; naive_solver.
Qed.

Lemma completed_by_other now ps t t' key :
  completed_by now ps t t' -> key ∉ pcm_key <$> ps -> running_under t' key = running_under t key.
Proof.
  intros H Hk. specialize (H key.1). unfold running_under. destruct (t !! key.1) as [r|]; [|by rewrite H].
  destruct H as [(p & Hp & (E1 & E2 & E3) & ->)|[_ ->]]; [|done].
  rewrite decide_False by (intros [_ []%outcome_row_not_running]).
  rewrite decide_False; [done|]. intros [E _]. destruct Hk. apply list_elem_of_fmap.
  exists p. split; [|done]. destruct key. unfold pcm_key. simpl in *. congruence.
Qed.

(** ** The statements of a completion *)

Section facts.
Context `{EL : EnvLaws}.

(** One [UPDATE] whose values are those of the completions [ps]. *)
Section chunk.
Context {A : Type} (g : A -> JobOutcome) (now : Z) (n : nat).
Context (vs : list (Z * string * A)) (ps : list PendingCompletion).
Context (Hvs : forall v, v ∈ vs <-> exists p, p ∈ ps /\ pcm_key p = v.1 /\ pcm_outcome p = g v.2).
Context (Hps : forall p, p ∈ ps -> exists a, pcm_outcome p = g a).
Let upd (v : Z * string * A) := outcome_row now (g v.2).

Lemma update_from_completed t :
  completed_by now ps t (update_from completion_matches upd n vs t).
Proof.
  intros k. rewrite lookup_update_from. destruct (t !! k) as [r|]; simpl; [|done].
  destruct (chosen completion_matches n vs k r) as [v|] eqn:Ec.
  - left. apply chosen_Some in Ec as [Hv (E1 & E2 & E3)].
    apply Hvs in Hv as (p & Hp & Hk & Ho). exists p. unfold completes.
    rewrite <-Hk in E1, E2. unfold upd. by rewrite <-Ho.
  - right. rewrite chosen_None in Ec. split; [|done]. intros p Hp (E1 & E2 & E3).
    destruct (Hps p Hp) as [a Ha]. apply (Ec (pcm_key p, a)); [|by split_and!].
    apply Hvs. by exists p.
Qed.

Lemma updated_rows_completed t k r' :
  (k, r') ∈ updated_rows completion_matches upd n vs t <->
  exists r p v, p ∈ ps /\ v ∈ vs /\ pcm_key p = v.1 /\ pcm_outcome p = g v.2 /\
    chosen completion_matches n vs k r = Some v /\
    pcm_job_id p = k /\ running_under t (pcm_key p) = Some r /\ r' = outcome_row now (pcm_outcome p) r.
Proof.
  rewrite elem_of_updated_rows. split.
  - intros (r & v & Hr & Hc & ->). pose proof Hc as [Hv (E1 & E2 & E3)]%chosen_Some.
    destruct (proj1 (Hvs v) Hv) as (p & Hp & Hk & Ho). exists r, p, v.
    rewrite Hk, Ho. split_and!; try done; [|by apply running_under_Some; rewrite <-E1].
    by rewrite E1, <-Hk.
  - intros (r & p & v & Hp & Hv & Hk & Ho & Hc & <- & Hr & ->). exists r, v.
    apply running_under_Some in Hr as (Hr & _ & _). rewrite Ho. by split_and!.
Qed.

(** Which of the completions found their row. *)
Lemma updated_keys t p :
  p ∈ ps ->
  (exists r', (pcm_job_id p, r') ∈ updated_rows completion_matches upd n vs t /\
              er_dispatch_id r' = pcm_dispatch_id p) <->
  is_Some (running_under t (pcm_key p)).
Proof.
  intros Hp. split.
  - intros (r' & (r & p' & v & _ & _ & _ & _ & _ & Hj & Hr & ->)%updated_rows_completed & Hd).
    exists r. apply running_under_Some in Hr as (Hr & Hd' & Hrun). simpl in *.
    apply running_under_Some. simpl. rewrite <-Hj. split_and!; [done| |done].
    rewrite <-Hd. by destruct (pcm_outcome p').
  - intros [r (Hr & Hd & Hrun)%running_under_Some]. simpl in *.
    destruct (chosen completion_matches n vs (pcm_job_id p) r) as [v|] eqn:Ec.
    + exists (upd v r). split; [apply elem_of_updated_rows; by exists r, v|].
      rewrite <-Hd. unfold upd. by destruct (g v.2).
    + rewrite chosen_None in Ec. destruct (Hps p Hp) as [a Ha].
      destruct (Ec (pcm_key p, a)); [|by split_and!]. apply Hvs. by exists p.
Qed.
End chunk.

(** *** Indices into a batch *)

Definition ps_of (batch : list PendingCompletion) (idx : list nat) : list PendingCompletion :=
  omap (fun i => batch !! i) idx.

Lemma elem_of_ps_of batch idx p : p ∈ ps_of batch idx <-> exists i, i ∈ idx /\ batch !! i = Some p.
Proof. apply list_elem_of_omap. Qed.

Lemma ps_of_app batch idx1 idx2 : ps_of batch (idx1 ++ idx2) = ps_of batch idx1 ++ ps_of batch idx2.
Proof. apply omap_app. Qed.

Lemma elem_of_outcome_idx b batch i :
  i ∈ outcome_idx b batch <-> exists p, batch !! i = Some p /\ is_succeeded p = b.
Proof.
  unfold outcome_idx. rewrite list_elem_of_fmap. split.
  - intros ([j p] & -> & [Hb Hin]%list_elem_of_filter). simpl in *.
    apply list_elem_of_lookup in Hin as [k Hk]. rewrite list_lookup_imap in Hk.
    destruct (batch !! k) as [q|] eqn:Eq; simplify_eq/=. by exists p.
  - intros (p & Hp & Hb). exists (i, p). split; [done|]. apply list_elem_of_filter. split; [done|].
    apply list_elem_of_lookup. exists i. rewrite list_lookup_imap, Hp. done.
Qed.

Lemma imap_pair_fst {A} (l : list A) : (imap pair l).*1 = seq 0 (length l).
Proof.
  apply list_eq. intros i. rewrite list_lookup_fmap, list_lookup_imap.
  destruct (l !! i) as [x|] eqn:Ex; simpl.
  - apply lookup_lt_Some in Ex. rewrite lookup_seq_lt; done.
  - apply lookup_ge_None in Ex. symmetry. by apply lookup_seq_ge.
Qed.

Lemma outcome_idx_perm batch :
  outcome_idx true batch ++ outcome_idx false batch ≡ₚ seq 0 (length batch).
Proof.
  rewrite <-imap_pair_fst. unfold outcome_idx. rewrite <-fmap_app. apply fmap_Permutation.
  generalize (imap pair batch). intros l. induction l as [|[i p] l IH]; simpl; [done|].
  rewrite !filter_cons. simpl. destruct (is_succeeded p) eqn:Es; simpl.
  - by constructor.
  - rewrite <-Permutation_middle. by constructor.
Qed.

Lemma ps_of_seq batch : ps_of batch (seq 0 (length batch)) = batch.
Proof.
  unfold ps_of. induction batch as [|p batch IH] using rev_ind; [done|].
  rewrite length_app. simpl. rewrite seq_app, omap_app. simpl.
  rewrite lookup_app_r, Nat.sub_diag by done. simpl. f_equal.
  rewrite <-IH at 2. apply list_omap_ext, Forall2_same_length_lookup.
  split; [done|]. intros i x y Hx Hy. simplify_eq.
  apply list_elem_of_lookup_2, elem_of_seq in Hx. by rewrite lookup_app_l by lia.
Qed.

Lemma ps_of_outcome_idx batch :
  ps_of batch (outcome_idx true batch ++ outcome_idx false batch) ≡ₚ batch.
Proof.
  rewrite <-(ps_of_seq batch) at 4. unfold ps_of. by rewrite (outcome_idx_perm batch).
Qed.

Lemma lookup_set_dispositions f idx ds i :
  NoDup idx -> set_dispositions f idx ds !! i = if decide (i ∈ idx) then f i <$> ds !! i else ds !! i.
Proof.
  unfold set_dispositions. revert ds. induction idx as [|j idx IH]; intros ds Hnd.
  { rewrite decide_False by (apply not_elem_of_nil). done. }
  simpl foldl. apply NoDup_cons in Hnd as [Hj Hnd]. rewrite IH by done.
  destruct (decide (i = j)) as [->|Hij].
  - rewrite (decide_False (P := j ∈ idx)), decide_True by (done || left).
    apply list_lookup_alter_eq.
  - rewrite list_lookup_alter_ne by done.
    by rewrite (decide_ext (i ∈ j :: idx) (i ∈ idx)) by (rewrite elem_of_cons; naive_solver).
Qed.

(** *** A batch of completions *)

(** What becomes of a completion: it is ignored when no execution runs under its id; a failure
    within the retry limit of the queue is to be retried. *)
Definition disposition (db : results_db) (p : PendingCompletion) : CompletionDisposition :=
  match running_under (r_executions db) (pcm_key p) with
  | None => Ignored
  | Some r =>
      match pcm_outcome p with
      | Succeeded _ => DCompleted
      | OFailed _ =>
          if decide (er_execution_count r <= default 0 (qr_max_retries <$> r_queues db !! er_queue_name r))
          then Repend else DCompleted
      end
  end.

(** The state of [complete_batch] when the indices [idx] have been processed. *)
Definition complete_inv (now : Z) (batch : list PendingCompletion) (s0 : nat) (db : results_db)
    (idx : list nat) (ds : list CompletionDisposition) (c : conn results_db) : Prop :=
  (s0 <= c_step c)%nat /\ NoDup idx /\
  r_queues (c_db c) = r_queues db /\
  completed_by now (ps_of batch idx) (r_executions db) (r_executions (c_db c)) /\
  length ds = length batch /\
  (NoDup (pcm_key <$> batch) -> forall i p, batch !! i = Some p ->
     ds !! i = Some (if decide (i ∈ idx) then disposition db p else Ignored)).

Lemma pcm_key_not_done batch idx i p :
  NoDup (pcm_key <$> batch) -> batch !! i = Some p -> i ∉ idx ->
  pcm_key p ∉ pcm_key <$> ps_of batch idx.
Proof.
  intros Hnd Hp Hi (p' & Hk & (j & Hj & Hp')%elem_of_ps_of)%list_elem_of_fmap.
  assert (i = j) as ->; [|done]. eapply NoDup_lookup; [done|by rewrite list_lookup_fmap, Hp|].
  by rewrite list_lookup_fmap, Hp', Hk.
Qed.

(** One more chunk, given what its statement did and the dispositions it set. *)
Lemma complete_inv_step now batch s0 db idx ds c chunk f n t' :
  complete_inv now batch s0 db idx ds c -> NoDup (idx ++ chunk) -> (c_step c <= n)%nat ->
  completed_by now (ps_of batch chunk) (r_executions (c_db c)) t' ->
  (forall i p, i ∈ chunk -> batch !! i = Some p ->
     f i Ignored = disposition (c_db c) p) ->
  complete_inv now batch s0 db (idx ++ chunk) (set_dispositions f chunk ds)
    (Conn n (set_executions t' (c_db c))).
Proof.
  intros (Hs & _ & Hq & Hby & Hl & Hds) Hnd Hn Hchunk Hf. unfold complete_inv. simpl.
  apply NoDup_app in Hnd as Hnd'. destruct Hnd' as (_ & Hdis & Hndc).
  split_and!; [lia|done|done| | |].
  - rewrite ps_of_app. by eapply completed_by_app.
  - rewrite <-Hl. unfold set_dispositions. clear. revert ds.
    induction chunk as [|i chunk IH]; intros ds; simpl; [done|]. by rewrite IH, length_alter.
  - intros Hk i p Hp. specialize (Hds Hk i p Hp). rewrite lookup_set_dispositions, Hds by done.
    destruct (decide (i ∈ chunk)) as [Hi|Hi].
    + assert (i ∉ idx) by (intros ?; by apply (Hdis i)).
      rewrite (decide_False (P := i ∈ idx)) by done.
      rewrite decide_True by (apply elem_of_app; by right). simpl. f_equal. rewrite Hf with (p := p) by done.
      unfold disposition. rewrite Hq. erewrite completed_by_other; [done|done|].
      by apply pcm_key_not_done with i.
    + f_equal. apply decide_ext. rewrite elem_of_app. naive_solver.
Qed.

Lemma elem_of_success_values batch chunk v :
  v ∈ success_values batch chunk <->
  exists p, p ∈ ps_of batch chunk /\ pcm_key p = v.1 /\ pcm_outcome p = Succeeded v.2.
Proof.
  unfold success_values. rewrite list_elem_of_omap. setoid_rewrite elem_of_ps_of. split.
  - intros (i & Hi & Hv). destruct (batch !! i) as [p|] eqn:Ep; simpl in *; [|done].
    exists p. destruct (pcm_outcome p) eqn:Eo; simplify_eq/=. eauto.
  - intros (p & (i & Hi & Hp) & Hk & Ho). exists i. split; [done|].
    rewrite Hp. simpl. rewrite Ho. destruct v. simpl in *. rewrite <-Hk. done.
Qed.

Lemma elem_of_fail_values batch chunk v :
  v ∈ fail_values batch chunk <->
  exists p, p ∈ ps_of batch chunk /\ pcm_key p = v.1 /\ pcm_outcome p = OFailed v.2.
Proof.
  unfold fail_values. rewrite list_elem_of_omap. setoid_rewrite elem_of_ps_of. split.
  - intros (i & Hi & Hv). destruct (batch !! i) as [p|] eqn:Ep; simpl in *; [|done].
    exists p. destruct (pcm_outcome p) eqn:Eo; simplify_eq/=. eauto.
  - intros (p & (i & Hi & Hp) & Hk & Ho). exists i. split; [done|].
    rewrite Hp. simpl. rewrite Ho. destruct v. simpl in *. rewrite <-Hk. done.
Qed.

Lemma wp_complete_success_chunk now batch s0 db idx chunk ds c
    (Q : Result (list CompletionDisposition) -> conn results_db -> Prop) :
  complete_inv now batch s0 db idx ds c -> NoDup (idx ++ chunk) ->
  (forall i, i ∈ chunk -> exists p, batch !! i = Some p /\ is_succeeded p = true) ->
  (forall e c', (s0 <= c_step c')%nat -> Q (Err e) c') ->
  (forall ds' c', complete_inv now batch s0 db (idx ++ chunk) ds' c' -> Q (Ok ds') c') ->
  wp (complete_success_chunk now batch chunk ds) Q c.
Proof.
  intros Hinv Hnd Hkind Herr Hok. pose proof (proj1 Hinv) as Hs.
  assert (Hps : forall p, p ∈ ps_of batch chunk -> exists b, pcm_outcome p = Succeeded b).
  { intros p (i & Hi & Hp)%elem_of_ps_of. destruct (Hkind i Hi) as (p' & Hp' & Hk).
    simplify_eq. unfold is_succeeded in Hk. destruct (pcm_outcome p); [by eexists|done]. }
  unfold complete_success_chunk. wp_rule. apply wp_stmt; [intros; apply Herr; simpl; lia|].
  intros updated db' [= <- <-]. wp_rule. apply Hok.
  apply (complete_inv_step _ _ _ _ _ _ c); [done|done|lia| |].
  - apply (update_from_completed Succeeded); [apply elem_of_success_values|done].
  - intros i p Hi Hp. rewrite Hp. unfold disposition.
    assert (Hin : p ∈ ps_of batch chunk) by (apply elem_of_ps_of; by exists i).
    pose proof (updated_keys Succeeded now (c_step c) (success_values batch chunk) (ps_of batch chunk)
      (elem_of_success_values batch chunk) Hps (r_executions (c_db c)) p Hin) as Hup.
    destruct (Hps p Hin) as [b Hb].
    destruct (running_under _ _) as [r|]; [rewrite decide_True, Hb|rewrite decide_False]; [done| |done|].
    + destruct (proj2 Hup (mk_is_Some _ _ eq_refl)) as (r' & Hr' & Hd). apply list_elem_of_fmap.
      exists (pcm_job_id p, r'). simpl. by rewrite Hd.
    + intros ([k r'] & Hk & Hr')%list_elem_of_fmap. simplify_eq/=.
      destruct (proj1 Hup) as [? ?]; [by exists r'|done].
Qed.

(** *** Retry limits *)

Definition limits_agree (queues : gmap string queue_row) (limits : gmap string Z) : Prop :=
  forall q l, limits !! q = Some l -> qr_max_retries <$> queues !! q = Some l.

Lemma wp_load_limits names limits c (Q : Result (gmap string Z) -> conn results_db -> Prop) :
  limits_agree (r_queues (c_db c)) limits ->
  (forall e n, (c_step c <= n)%nat -> Q (Err e) (Conn n (c_db c))) ->
  (forall limits' n, (c_step c <= n)%nat -> limits_agree (r_queues (c_db c)) limits' ->
     dom limits ⊆ dom limits' -> (forall q, q ∈ names -> q ∈ dom limits') ->
     Q (Ok limits') (Conn n (c_db c))) ->
  wp (load_limits names limits) Q c.
Proof.
  destruct c as [s db]. simpl.
  revert limits s. induction names as [|q names IH]; intros limits s Hag Herr Hok; simpl.
  { wp_rule. apply Hok; [done|done|done|]. intros q Hq. by apply elem_of_nil in Hq. }
  destruct (limits !! q) as [l|] eqn:El.
  { apply IH; [done|done|]. intros limits' n Hn Ha Hd Hin. apply Hok; [done..|].
    intros q' [->|?]%elem_of_cons; [|auto]. apply Hd, elem_of_dom. by exists l. }
  wp_rule. apply wp_query; simpl; [intros; apply Herr; lia|]. intros l Hl.
  destruct (r_queues db !! q) as [qr|] eqn:Eq; simplify_eq/=.
  apply IH.
  - intros q' l' [[<- <-]|[_ ?]]%lookup_insert_Some; [by rewrite Eq|auto].
  - intros e n Hn. apply Herr. lia.
  - intros limits' n Hn Ha Hd Hin. rewrite dom_insert_L in Hd. apply Hok; [lia|done|set_solver|set_solver].
Qed.

Lemma wp_complete_fail_chunk now batch s0 db idx chunk ds c
    (Q : Result (list CompletionDisposition) -> conn results_db -> Prop) :
  complete_inv now batch s0 db idx ds c -> NoDup (idx ++ chunk) ->
  (forall i, i ∈ chunk -> exists p, batch !! i = Some p /\ is_succeeded p = false) ->
  (forall e c', (s0 <= c_step c')%nat -> Q (Err e) c') ->
  (forall ds' c', complete_inv now batch s0 db (idx ++ chunk) ds' c' -> Q (Ok ds') c') ->
  wp (complete_fail_chunk now batch chunk ds) Q c.
Proof.
  intros Hinv Hnd Hkind Herr Hok. pose proof (proj1 Hinv) as Hs.
  assert (Hps : forall p, p ∈ ps_of batch chunk -> exists m, pcm_outcome p = OFailed m).
  { intros p (i & Hi & Hp)%elem_of_ps_of. destruct (Hkind i Hi) as (p' & Hp' & Hk).
    simplify_eq. unfold is_succeeded in Hk. destruct (pcm_outcome p); [done|by eexists]. }
  pose proof (elem_of_fail_values batch chunk) as Hvs.
  unfold complete_fail_chunk. wp_rule. apply wp_stmt; [intros; apply Herr; simpl; lia|].
  intros updated db' [= Hup <-].
  pose proof (fun t p => updated_keys OFailed now (c_step c) _ _ Hvs Hps t p) as Hkeys.
  pose proof (updated_rows_completed OFailed now (c_step c) _ _ Hvs (r_executions (c_db c))) as Hrows.
  pose proof (updated_rows_NoDup completion_matches
    (fun v : Z * string * string => outcome_row now (OFailed v.2)) (c_step c)
    (fail_values batch chunk) (r_executions (c_db c))) as Hudup.
  simpl in Hup, Hkeys, Hrows, Hudup. rewrite Hup in Hrows, Hudup.
  specialize (Hkeys (r_executions (c_db c))). rewrite Hup in Hkeys. clear Hup.
  wp_rule. apply wp_load_limits; simpl; [done|intros; apply Herr; simpl; lia|].
  intros limits n Hn Hag _ Hin. wp_rule. apply Hok.
  apply (complete_inv_step _ _ _ _ _ _ c); [done|done|lia| |].
  { apply (update_from_completed OFailed); done. }
  intros i p Hi Hp. rewrite Hp. unfold disposition.
  assert (Hpin : p ∈ ps_of batch chunk) by (apply elem_of_ps_of; by exists i).
  destruct (Hps p Hpin) as [m Hm]. specialize (Hkeys p Hpin).
  destruct (running_under _ _) as [r|] eqn:Erun.
  - destruct (proj2 Hkeys) as (r' & Hr' & Hd); [by eexists|].
    pose proof Hr' as (r2 & p2 & v & _ & _ & _ & Ho & _ & Hj & Hrun & ->)%Hrows.
    assert (r2 = r) as ->.
    { apply running_under_Some in Erun as (E1 & _), Hrun as (E2 & _). simpl in *. congruence. }
    rewrite Hm. rewrite Ho in Hr', Hd. simpl in Hr', Hd.
    erewrite collect_map_lookup; [| |].
    3:{ apply list_elem_of_fmap. eexists (_, _). split; [|exact Hr']. simpl. by rewrite Hd. }
    2:{ rewrite <-list_fmap_compose. apply (NoDup_fmap_1 fst).
        rewrite <-list_fmap_compose. done. }
    simpl. assert (Hq : er_queue_name r ∈ dom limits).
    { apply Hin, list_elem_of_fmap. by exists (pcm_job_id p, fail_row now v.2 r). }
    apply elem_of_dom in Hq as [l Hl]. rewrite Hl. simpl.
    by rewrite (Hag _ _ Hl).
  - case_match eqn:Ec; [|done].
    exfalso. unfold collect_map in Ec. apply elem_of_list_to_map_2 in Ec.
    rewrite reverse_Permutation in Ec. apply list_elem_of_fmap in Ec as ([k r'] & Hk & Hr').
    simplify_eq/=. destruct (proj1 Hkeys) as [? ?]; [|done]. exists r'. destruct p; simplify_eq/=; naive_solver.
Qed.

(** *** The whole batch *)

Lemma wp_complete_chunks b now batch s0 db (idx : list nat) ds c
    (f : list nat -> list CompletionDisposition -> M results_db (list CompletionDisposition))
    (Q : Result (list CompletionDisposition) -> conn results_db -> Prop) :
  (forall idx chunk ds c (Q : Result (list CompletionDisposition) -> conn results_db -> Prop),
    complete_inv now batch s0 db idx ds c -> NoDup (idx ++ chunk) ->
    (forall i, i ∈ chunk -> exists p, batch !! i = Some p /\ is_succeeded p = b) ->
    (forall e c', (s0 <= c_step c')%nat -> Q (Err e) c') ->
    (forall ds' c', complete_inv now batch s0 db (idx ++ chunk) ds' c' -> Q (Ok ds') c') ->
    wp (f chunk ds) Q c) ->
  complete_inv now batch s0 db idx ds c -> NoDup (idx ++ outcome_idx b batch) ->
  (forall e c', (s0 <= c_step c')%nat -> Q (Err e) c') ->
  (forall ds' c', complete_inv now batch s0 db (idx ++ outcome_idx b batch) ds' c' -> Q (Ok ds') c') ->
  wp (thread f (chunks ROWS_PER_STATEMENT (outcome_idx b batch)) ds) Q c.
Proof.
  intros Hf Hinv Hnd Herr Hok.
  assert (Hc : concat (chunks ROWS_PER_STATEMENT (outcome_idx b batch)) = outcome_idx b batch)
    by (by apply concat_chunks).
  apply (wp_thread _ _ (fun done ds c => complete_inv now batch s0 db (idx ++ concat done) ds c)).
  - by rewrite app_nil_r.
  - intros done chunk rest ds1 c1 Hch Hinv1. rewrite Hch, concat_app in Hc. simpl in Hc.
    rewrite <-Hc in Hnd.
    apply (Hf (idx ++ concat done)); [done| | |done|].
    + rewrite app_assoc in Hnd. rewrite !app_assoc in Hnd. apply NoDup_app in Hnd as [? _]. done.
    + intros i Hi. apply elem_of_outcome_idx. rewrite <-Hc. set_solver.
    + intros ds' c'. rewrite concat_app. simpl. by rewrite app_nil_r, app_assoc.
  - intros ds1 c1. rewrite Hc. apply Hok.
Qed.

Lemma wp_complete_tx batch c
    (Q : Result (list CompletionDisposition) -> conn results_db -> Prop) :
  (forall e n, (c_step c < n)%nat -> Q (Err e) (Conn n (c_db c))) ->
  (forall now ds n t', (c_step c < n)%nat -> length ds = length batch ->
    completed_by now batch (r_executions (c_db c)) t' ->
    (NoDup (pcm_key <$> batch) -> ds = disposition (c_db c) <$> batch) ->
    Q (Ok ds) (Conn n (set_executions t' (c_db c)))) ->
  wp (complete_tx batch) Q c.
Proof.
  intros Herr Hok. unfold complete_tx. apply wp_transaction; [done|]. wp_rules.
  set (now := clock _).
  assert (Hperm := outcome_idx_perm batch).
  assert (Hnd : NoDup (outcome_idx true batch ++ outcome_idx false batch)).
  { rewrite Hperm. apply NoDup_seq. }
  set (s0 := S (S (c_step c))). set (db := c_db c).
  apply (wp_complete_chunks true now batch s0 db []).
  - intros. by eapply wp_complete_success_chunk.
  - split_and!; simpl; [done|constructor|done|apply completed_by_nil|apply length_replicate|].
    intros _ i p Hp%lookup_lt_Some. by apply lookup_replicate_2.
  - apply NoDup_app in Hnd as [? _]. done.
  - intros. split; [|done]. simpl. lia.
  - intros ds c1 Hinv. rewrite app_nil_l in Hinv.
    apply (wp_complete_chunks false now batch s0 db (outcome_idx true batch)); [|done..| |].
    + intros. by eapply wp_complete_fail_chunk.
    + intros. split; [|done]. simpl. lia.
    + intros ds' c2 (Hs & _ & Hq & Hby & Hl & Hds). split; [lia|].
      assert (Hdb : c_db c2 = set_executions (r_executions (c_db c2)) db).
      { destruct (c_db c2), db. simpl in *. by rewrite Hq. }
      rewrite Hdb. apply Hok with now; [lia|done| |].
      * eapply completed_by_perm; [apply ps_of_outcome_idx|done].
      * intros Hk. apply list_eq_same_length with (length batch); [by rewrite length_fmap|done|].
        intros i x y Hi Hx Hy. rewrite list_lookup_fmap in Hy.
        destruct (batch !! i) as [p|] eqn:Ep; simplify_eq/=.
        specialize (Hds Hk i p Ep). rewrite Hds in Hx. rewrite decide_True in Hx; [by injection Hx|].
        rewrite Hperm. apply elem_of_seq. lia.
Qed.

(** What [complete_batch] promises: one reply per completion, in order; on an error nothing has
    changed; otherwise the completions have been applied. *)
Definition complete_batch_post (batch : list PendingCompletion) (c : conn results_db)
    (out : option BatchCommit * list (nat * Result CompletionDisposition)) (c' : conn results_db) : Prop :=
  (exists e, out = (None, (fun p => (pcm_reply p, Err e)) <$> batch) /\ c_db c' = c_db c) \/
  (exists now ds d t',
    out = (d, zip_with (fun p r => (pcm_reply p, Ok r)) batch ds) /\ length ds = length batch /\
    c_db c' = set_executions t' (c_db c) /\
    completed_by now batch (r_executions (c_db c)) t' /\
    (batch <> [] -> exists duration, d = Some (mkBatchCommit (length batch) duration)) /\
    (NoDup (pcm_key <$> batch) -> ds = disposition (c_db c) <$> batch)).

Lemma wp_complete_batch batch c :
  wp (complete_batch batch) (fun r c' => exists out, r = Ok out /\ complete_batch_post batch c out c') c.
Proof.
  unfold complete_batch. destruct batch as [|p batch].
  { wp_rule. eexists; split; [done|]. right. exists 0, [], None, (r_executions (c_db c)).
    split_and!; [done|done|by destruct (c_db c)|apply completed_by_nil|done|done]. }
  wp_rule. apply wp_ask. wp_rules. apply wp_complete_tx.
  - intros e n _. simpl. wp_rule. eexists; split; [done|]. left. by exists e.
  - intros now ds n t' _ Hl Hby Hds. simpl. wp_rules. eexists; split; [done|].
    right. exists now, ds. eexists _, t'. split_and!; [done|done|done|done| |done].
    intros _. by eexists.
Qed.

(** *** One completion at a time *)

(** The reference: the completions of a batch, applied one after the other. *)
Definition complete_one (now : Z) (db : results_db) (p : PendingCompletion) : results_db :=
  match running_under (r_executions db) (pcm_key p) with
  | Some r => set_executions (<[pcm_job_id p := outcome_row now (pcm_outcome p) r]> (r_executions db)) db
  | None => db
  end.

Fixpoint complete_all (now : Z) (db : results_db) (ps : list PendingCompletion) :
    list CompletionDisposition * results_db :=
  match ps with
  | [] => ([], db)
  | p :: ps => let '(ds, db') := complete_all now (complete_one now db p) ps in
               (disposition db p :: ds, db')
  end.

Lemma complete_one_queues now db p : r_queues (complete_one now db p) = r_queues db.
Proof. unfold complete_one. by destruct (running_under _ _). Qed.

Lemma complete_one_by now db p :
  completed_by now [p] (r_executions db) (r_executions (complete_one now db p)).
Proof.
  intros k. unfold complete_one.
  destruct (running_under _ _) as [r|] eqn:Er.
  - apply running_under_Some in Er as (E1 & E2 & E3). simpl in *.
    destruct (decide (k = pcm_job_id p)) as [->|Hk].
    + rewrite E1, lookup_insert_eq. left. exists p. split; [by left|]. done.
    + rewrite lookup_insert_ne by done. destruct (r_executions db !! k) as [r'|]; [|done].
      right. split; [|done]. by intros p' ->%list_elem_of_singleton [? _].
  - destruct (r_executions db !! k) as [r'|] eqn:Ek; [|done]. right. split; [|done].
    intros p' ->%list_elem_of_singleton (-> & E2 & E3).
    assert (running_under (r_executions db) (pcm_key p) = Some r') as Hs by (by apply running_under_Some).
    congruence.
Qed.

Lemma complete_all_spec now db ps :
  NoDup (pcm_key <$> ps) ->
  let '(ds, db') := complete_all now db ps in
  ds = disposition db <$> ps /\ r_queues db' = r_queues db /\
  completed_by now ps (r_executions db) (r_executions db').
Proof.
  revert db. induction ps as [|p ps IH]; intros db Hnd; simpl.
  { split_and!; [done..|apply completed_by_nil]. }
  apply NoDup_cons in Hnd as [Hp Hnd]. specialize (IH (complete_one now db p) Hnd).
  destruct (complete_all _ _ ps) as [ds db']. destruct IH as (-> & Hq & Hby).
  rewrite complete_one_queues in Hq. split_and!; [|done|].
  - f_equal. apply list_fmap_ext. intros i p' Hp'. unfold disposition. rewrite complete_one_queues.
    erewrite completed_by_other; [done|apply complete_one_by|]. simpl.
    intros Ein%list_elem_of_singleton. destruct Hp. apply list_elem_of_fmap.
    exists p'. split; [done|]. by eapply list_elem_of_lookup_2.
  - apply (completed_by_app _ [p] ps _ _ _ (complete_one_by now db p) Hby).
Qed.

Lemma completed_by_inj now ps t t1 t2 :
  NoDup (pcm_key <$> ps) -> completed_by now ps t t1 -> completed_by now ps t t2 -> t1 = t2.
Proof.
  intros Hnd H1 H2. apply map_eq. intros k. specialize (H1 k). specialize (H2 k).
  destruct (t !! k) as [r|]; [|congruence].
  destruct H1 as [(p1 & Hp1 & Hc1 & ->)|[Hn1 ->]], H2 as [(p2 & Hp2 & Hc2 & ->)|[Hn2 ->]];
    [|by destruct (Hn2 p1)|by destruct (Hn1 p2)|done].
  assert (p1 = p2) as ->; [|done]. eapply NoDup_fmap_eq; [done..|]. unfold pcm_key.
  destruct Hc1 as (-> & <- & _), Hc2 as (<- & <- & _). done.
Qed.

Lemma complete_all_eq now db ps t' :
  NoDup (pcm_key <$> ps) -> completed_by now ps (r_executions db) t' ->
  complete_all now db ps = (disposition db <$> ps, set_executions t' db).
Proof.
  intros Hnd Hby. pose proof (complete_all_spec now db ps Hnd) as H.
  destruct (complete_all now db ps) as [ds db']. destruct H as (-> & Hq & Hby').
  f_equal. rewrite (completed_by_inj _ _ _ _ _ Hnd Hby Hby'). unfold set_executions. rewrite <-Hq. by destruct db'.
Qed.
End facts.

(** ** Starting rows *)

(** What a dispatch makes of the execution of its job: it starts one or restarts a failed one. *)
Definition starts (now : Z) (v : DispatchInsert) (old : option execution_row) (r : execution_row) : Prop :=
  match old with
  | None => exists id, r = start_row id now v
  | Some r0 => restartable r0 /\ r = restart_row now v r0
  end.

Lemma starts_running now v old r :
  starts now v old r ->
  running r /\ er_dispatch_id r = di_dispatch_id v /\ er_lease_expires_at r = Some (di_lease_expires_at v) /\
  er_updated_at r = now.
Proof. unfold starts. destruct old; [intros [_ ->]|intros [id ->]]; done. Qed.

Lemma running_not_restartable r : running r -> ~ restartable r.
Proof. unfold running, restartable. intros ->. by intros [?|?]. Qed.

(** Table [t'] is [t] with the executions of [vs] started; [rows] are the rows written. *)
Record dispatched_by (now : Z) (vs : list DispatchInsert) (t t' : gmap Z execution_row)
    (rows : list (Z * execution_row)) : Prop := {
  db_rows_NoDup : NoDup rows.*1;
  db_rows : forall k r, (k, r) ∈ rows ->
    t' !! k = Some r /\ exists v, v ∈ vs /\ di_job_id v = k /\ starts now v (t !! k) r;
  db_rest : forall k, k ∉ rows.*1 ->
    t' !! k = t !! k /\
    forall v, v ∈ vs -> di_job_id v = k -> exists r, t !! k = Some r /\ ~ restartable r
}.

Lemma dispatched_by_nil now t : dispatched_by now [] t t [].
Proof. split; [constructor|..]; intros ? ?; set_solver. Qed.

Lemma elem_of_fst {A B} (l : list (A * B)) k : k ∈ l.*1 <-> exists r, (k, r) ∈ l.
Proof.
  rewrite list_elem_of_fmap. split.
  - intros ([k' r] & -> & ?). by exists r.
  - intros [r ?]. by exists (k, r).
Qed.

Lemma dispatched_by_app now vs1 vs2 t1 t2 t3 rows1 rows2 :
  dispatched_by now vs1 t1 t2 rows1 -> dispatched_by now vs2 t2 t3 rows2 ->
  dispatched_by now (vs1 ++ vs2) t1 t3 (rows1 ++ rows2).
Proof.
  intros [Hnd1 Hr1 Ho1] [Hnd2 Hr2 Ho2].
  assert (Hdis : forall k, k ∈ rows1.*1 -> k ∉ rows2.*1).
  { intros k [r1 Hk1]%elem_of_fst [r2 Hk2]%elem_of_fst.
    apply Hr1 in Hk1 as (E1 & v & _ & _ & Hs%starts_running).
    apply Hr2 in Hk2 as (_ & v2 & _ & _ & Hs2). rewrite E1 in Hs2.
    destruct Hs2 as [[]%running_not_restartable _]; apply Hs. }
  assert (Hback : forall k, k ∈ rows2.*1 -> t2 !! k = t1 !! k).
  { intros k Hk. apply Ho1. intros Hk1. by apply (Hdis k). }
  split.
  - rewrite fmap_app. apply NoDup_app. auto.
  - intros k r [Hk|Hk]%elem_of_app.
    + destruct (Hr1 _ _ Hk) as (E & v & Hv & Hj & Hs). split.
      * rewrite <-E. apply Ho2. apply Hdis, elem_of_fst. by exists r.
      * exists v. split; [set_solver|done].
    + destruct (Hr2 _ _ Hk) as (E & v & Hv & Hj & Hs). split; [done|]. exists v.
      split; [set_solver|]. split; [done|]. rewrite <-Hback; [done|]. apply elem_of_fst. by exists r.
  - intros k. rewrite fmap_app. intros Hk. apply not_elem_of_app in Hk as [Hk1 Hk2].
    destruct (Ho1 k Hk1) as [E1 H1], (Ho2 k Hk2) as [E2 H2]. split; [congruence|].
    intros v [Hv|Hv]%elem_of_app Hj; [by apply (H1 v)|]. rewrite <-E1. by apply (H2 v).
Qed.

Lemma dispatched_by_perm now vs t t' rows1 rows2 :
  rows1 ≡ₚ rows2 -> dispatched_by now vs t t' rows1 -> dispatched_by now vs t t' rows2.
Proof.
  intros Hp [Hnd Hr Ho]. split; [by rewrite <-Hp| |]; intros k.
  - intros r. rewrite <-Hp. apply Hr.
  - rewrite <-Hp. apply Ho.
Qed.

Lemma dispatched_by_one now v t r :
  starts now v (t !! di_job_id v) r ->
  dispatched_by now [v] t (<[di_job_id v := r]> t) [(di_job_id v, r)].
Proof.
  intros Hs. split.
  - apply NoDup_singleton.
  - intros k r' [= -> ->]%list_elem_of_singleton. split; [apply lookup_insert_eq|].
    exists v. split; [left|done].
  - intros k Hk. simpl in Hk. assert (di_job_id v <> k) by set_solver.
    rewrite lookup_insert_ne by done. split; [done|]. by intros v' ->%list_elem_of_singleton.
Qed.

Lemma dispatched_by_skip now v t r :
  t !! di_job_id v = Some r -> ~ restartable r -> dispatched_by now [v] t t [].
Proof.
  intros Ht Hr. split; [constructor|intros ? ?; set_solver|]. intros k _. split; [done|].
  intros v' ->%list_elem_of_singleton <-. by exists r.
Qed.

(** ** Well-formed tables of executions *)

(** A row has a positive rowid, a known queue, a status the code can parse, at least one attempt,
    and a lease exactly while it runs. *)
Record row_ok (queues : gset string) (r : execution_row) : Prop := {
  ro_id : 0 < er_id r;
  ro_queue : er_queue_name r ∈ queues;
  ro_status : is_Some (parse (er_status r));
  ro_count : 1 <= er_execution_count r;
  ro_lease : running r <-> is_Some (er_lease_expires_at r)
}.

Definition er_ids (t : gmap Z execution_row) : gset Z := list_to_set (er_id <$> (map_to_list t).*2).

Record exec_wf (queues : gset string) (t : gmap Z execution_row) : Prop := {
  ew_ids : forall k1 k2 r1 r2, t !! k1 = Some r1 -> t !! k2 = Some r2 -> er_id r1 = er_id r2 -> k1 = k2;
  ew_dispatch : forall k1 k2 r1 r2, t !! k1 = Some r1 -> t !! k2 = Some r2 ->
    er_dispatch_id r1 = er_dispatch_id r2 -> k1 = k2;
  ew_rows : map_Forall (fun _ r => row_ok queues r) t
}.

(** There is room for [k] more rowids. *)
Definition exec_room (t : gmap Z execution_row) (k : nat) : Prop := max_id (er_ids t) + Z.of_nat k < i64_max.

Lemma elem_of_er_ids t i : i ∈ er_ids t <-> exists k r, t !! k = Some r /\ er_id r = i.
Proof.
  unfold er_ids. rewrite elem_of_list_to_set, <-list_fmap_compose, list_elem_of_fmap. split.
  - intros ([k r] & -> & Hin%elem_of_map_to_list). by exists k, r.
  - intros (k & r & Hr & <-). exists (k, r). by rewrite elem_of_map_to_list.
Qed.

(** A table whose rows are rows of a well-formed one, changed without losing their identity. *)
Lemma exec_wf_sub queues t t' :
  exec_wf queues t ->
  (forall k r', t' !! k = Some r' -> exists r, t !! k = Some r /\
     er_id r' = er_id r /\ er_dispatch_id r' = er_dispatch_id r /\ (row_ok queues r -> row_ok queues r')) ->
  exec_wf queues t'.
Proof.
  intros [Hi Hd Hr] Hsub. split.
  - intros k1 k2 r1 r2 (x1 & ? & -> & _ & _)%Hsub (x2 & ? & -> & _ & _)%Hsub. by apply Hi.
  - intros k1 k2 r1 r2 (x1 & ? & _ & -> & _)%Hsub (x2 & ? & _ & -> & _)%Hsub. by apply Hd.
  - intros k r (x & Hx & _ & _ & Hok)%Hsub. apply Hok. by apply (Hr k).
Qed.

Lemma exec_wf_queues queues queues' t : queues ⊆ queues' -> exec_wf queues t -> exec_wf queues' t.
Proof.
  intros Hq [Hi Hd Hr]. split; [done..|]. intros k r Hk. destruct (Hr k r Hk). split; auto.
Qed.

Lemma row_ok_outcome queues now o r : row_ok queues r -> row_ok queues (outcome_row now o r).
Proof.
  intros [? ? ? ? ?]. destruct o; split; simpl; try done; try (by eexists); unfold running; simpl;
    (split; [done|by intros [? ?]]).
Qed.

Lemma completed_by_wf queues now ps t t' : completed_by now ps t t' -> exec_wf queues t -> exec_wf queues t'.
Proof.
  intros Hby Hwf. apply (exec_wf_sub _ t); [done|]. intros k r' Hr'. specialize (Hby k).
  destruct (t !! k) as [r|]; [|congruence]. exists r. split; [done|].
  destruct Hby as [(p & _ & _ & E)|[_ E]]; rewrite E in Hr'; simplify_eq; [|done].
  split_and!; [by destruct (pcm_outcome p)..|apply row_ok_outcome].
Qed.

Lemma er_ids_room_le t k j : exec_room t k -> (j <= k)%nat -> exec_room t j.
Proof. unfold exec_room. lia. Qed.

(** The rowids grow by at most the one that is inserted. *)
Lemma max_id_er_ids_insert t k r :
  max_id (er_ids (<[k := r]> t)) <= Z.max (max_id (er_ids t)) (er_id r).
Proof.
  apply max_id_lub; [pose proof (max_id_nonneg (er_ids t)); lia|].
  intros i (k' & r' & [[<- <-]|[_ Hk]]%lookup_insert_Some & <-)%elem_of_er_ids; [lia|].
  assert (er_id r' <= max_id (er_ids t)); [|lia]. apply max_id_ge, elem_of_er_ids. by exists k', r'.
Qed.

Lemma not_dispatch_id_taken d k t :
  ~ dispatch_id_taken d k t -> forall k' r, t !! k' = Some r -> k' <> k -> er_dispatch_id r <> d.
Proof.
  intros Hn k' r Hr Hk Hd. apply Hn, Exists_exists. exists (k', r).
  by rewrite elem_of_map_to_list.
Qed.

(** One row written with a fresh dispatch id, and a rowid that is fresh or the row's own. *)
Lemma exec_wf_insert queues t k r :
  exec_wf queues t -> row_ok queues r -> ~ dispatch_id_taken (er_dispatch_id r) k t ->
  (forall k' r', t !! k' = Some r' -> k' <> k -> er_id r' <> er_id r) ->
  exec_wf queues (<[k := r]> t).
Proof.
  intros [Hi Hd Hr] Hok Hn0 Hid. pose proof (not_dispatch_id_taken _ _ _ Hn0) as Hn. split.
  - intros k1 k2 r1 r2 [[<- <-]|[? ?]]%lookup_insert_Some [[<- <-]|[? ?]]%lookup_insert_Some E;
      [done|by destruct (Hid k2 r2)|by destruct (Hid k1 r1)|by eapply Hi].
  - intros k1 k2 r1 r2 [[<- <-]|[? ?]]%lookup_insert_Some [[<- <-]|[? ?]]%lookup_insert_Some E;
      [done|by destruct (Hn k2 r2)|by destruct (Hn k1 r1)|by eapply Hd].
  - apply map_Forall_insert_2; done.
Qed.

Section dispatch.
Context `{EL : EnvLaws}.

Lemma next_rowid_er_ids n t queues :
  exec_wf queues t -> exec_room t 1 ->
  let id := next_rowid n (er_ids t) in id = max_id (er_ids t) + 1 /\ 0 < id /\
  forall k r, t !! k = Some r -> er_id r < id.
Proof.
  intros Hwf Hroom id. unfold exec_room in Hroom. pose proof (max_id_nonneg (er_ids t)).
  assert (Hid : id = max_id (er_ids t) + 1).
  { apply next_rowid_max. intros i Hi. pose proof (max_id_ge _ _ Hi).
    apply elem_of_er_ids in Hi as (k & r & Hr & <-). pose proof (ro_id _ _ (ew_rows _ _ Hwf k r Hr)). lia. }
  split_and!; [done|lia|]. intros k r Hr.
  assert (er_id r <= max_id (er_ids t)); [|lia]. apply max_id_ge, elem_of_er_ids. by exists k, r.
Qed.

(** What one [INSERT .. ON CONFLICT] does, and that it keeps the table well-formed. *)
Lemma upsert_rows_spec n now queues vs t rows t' :
  upsert_rows n now queues vs t = Ok (rows, t') ->
  dispatched_by now vs t t' rows /\
  (forall j, exec_wf queues t -> exec_room t (length vs + j) -> exec_wf queues t' /\ exec_room t' j).
Proof.
  revert t rows t'. induction vs as [|v vs IH]; intros t rows t'; simpl.
  { intros [= <- <-]. split; [apply dispatched_by_nil|done]. }
  destruct (t !! di_job_id v) as [old|] eqn:Eold.
  - destruct (decide (restartable old)) as [Hre|Hre].
    + destruct (decide _) as [|Hfree]; [done|].
      destruct (upsert_rows _ _ _ vs _) as [[rows' t2]|] eqn:Eu; simpl; [|done]. intros [= <- <-].
      destruct (IH _ _ _ Eu) as [Hby Hkeep]. split.
      * apply (dispatched_by_app _ [v] vs _ (<[di_job_id v := restart_row now v old]> t) _
                [(di_job_id v, restart_row now v old)]); [|done].
        apply dispatched_by_one. by rewrite Eold.
      * intros j Hwf Hroom. apply Hkeep.
        -- pose proof (ew_rows _ _ Hwf _ _ Eold) as [? ? ? ? ?].
           apply exec_wf_insert; [done| |done|].
           { split; simpl; try (done || lia || by eexists). }
           intros k' r' Hk' Hne Eid. by apply Hne, (ew_ids _ _ Hwf k' (di_job_id v) r' old).
        -- unfold exec_room in *. pose proof (max_id_er_ids_insert t (di_job_id v) (restart_row now v old)) as Hm.
           simpl in Hm. assert (er_id old <= max_id (er_ids t)); [|lia].
           apply max_id_ge, elem_of_er_ids. by exists (di_job_id v), old.
    + intros Eu. destruct (IH _ _ _ Eu) as [Hby Hkeep]. split.
      * apply (dispatched_by_app _ [v] vs _ t _ [] _); [by eapply dispatched_by_skip|done].
      * intros j Hwf Hroom. apply Hkeep; [done|]. eapply er_ids_room_le; [done|]. simpl. lia.
  - destruct (decide (di_queue_name v ∈ queues)) as [Hq|]; [|done].
    destruct (decide _) as [|Hfree]; [done|].
    destruct (upsert_rows _ _ _ vs _) as [[rows' t2]|] eqn:Eu; simpl; [|done]. intros [= <- <-].
    destruct (IH _ _ _ Eu) as [Hby Hkeep]. change (list_to_set _) with (er_ids t) in *.
    set (id := next_rowid n (er_ids t)) in *. split.
    + apply (dispatched_by_app _ [v] vs _ (<[di_job_id v := start_row id now v]> t) _
              [(di_job_id v, start_row id now v)]); [|done].
      apply dispatched_by_one. rewrite Eold. by exists id.
    + intros j Hwf Hroom. destruct (next_rowid_er_ids n t queues Hwf) as (Hid & Hpos & Hlt);
        [eapply er_ids_room_le; [done|simpl; lia]|]. fold id in Hid, Hpos, Hlt.
      apply Hkeep.
      * apply exec_wf_insert; [done| |done|].
        { split; simpl; try (done || lia || by eexists). }
        intros k' r' Hk' _. simpl. specialize (Hlt k' r' Hk'). lia.
      * unfold exec_room in *. pose proof (max_id_er_ids_insert t (di_job_id v) (start_row id now v)) as Hm.
        simpl in *. pose proof (max_id_nonneg (er_ids t)). lia.
Qed.
End dispatch.
