(* ===== verification/ResultsDispatch.v ===== *)
(** * The results connection: dispatches and recoveries

    What [dispatch_batch], [abandon] and [recover_stale] do, as rules of the program logic. *)
From S2P Require Import Prelude Types Db Tables Ingest Results ResultsFacts.

(** ** Dispatch *)

(** The execution reported for a written row. *)
Definition reports (kr : Z * execution_row) (d : DispatchedExecution) : Prop :=
  de_job_id d = kr.1 /\ de_execution_count d = er_execution_count kr.2 /\
  de_dispatch_id d = er_dispatch_id kr.2 /\ de_updated_at d = er_updated_at kr.2 /\
  0 <= de_execution_count d <= u32_max.

Definition lease_reported (kr : Z * execution_row) (d : DispatchedExecution) : Prop :=
  Some (de_lease_expires_at d) = er_lease_expires_at kr.2.

Section dispatch.
Context `{EL : EnvLaws}.

Lemma wp_dispatch_chunk now chunk c
    (Q : Result (list DispatchedExecution) -> conn results_db -> Prop) :
  (forall e n db, (c_step c < n)%nat -> Q (Err e) (Conn n db)) ->
  (forall out rows t' n, (c_step c < n)%nat ->
    dispatched_by now chunk (r_executions (c_db c)) t' rows ->
    (forall j, exec_wf (dom (r_queues (c_db c))) (r_executions (c_db c)) ->
       exec_room (r_executions (c_db c)) (length chunk + j) ->
       exec_wf (dom (r_queues (c_db c))) t' /\ exec_room t' j) ->
    Forall2 reports rows out ->
    (NoDup (di_job_id <$> chunk) -> Forall2 lease_reported rows out) ->
    Q (Ok out) (Conn n (set_executions t' (c_db c)))) ->
  wp (dispatch_chunk now chunk) Q c.
Proof.
  destruct c as [s db]. simpl. intros Herr Hok. unfold dispatch_chunk. wp_rule.
  apply wp_stmt; simpl; [intros; apply Herr; lia|]. intros rows db' Hup.
  destruct (upsert_rows _ _ _ _ _) as [[rows0 t']|] eqn:Eu; simplify_eq/=.
  destruct (upsert_rows_spec _ _ _ _ _ _ _ Eu) as [Hby Hkeep].
  apply dispatched_by_perm with (rows2 := row_order s rows0) in Hby;
    [|by rewrite row_order_perm].
  wp_rule. destruct (rows_result _ _) as [out|e] eqn:Er; [|apply Herr; lia].
  apply rows_result_Forall2 in Er. apply Hok with (row_order s rows0); [lia|done| | |].
  - done.
  - eapply Forall2_impl; [exact Er|]. intros [k r] d. simpl. unfold u32_try_from.
    case_decide; [|done]. by intros [= <-].
  - intros Hnd. apply Forall2_same_length_lookup. apply Forall2_same_length_lookup in Er as [Hl Hrow].
    split; [done|]. intros i [k r] d Hkr Hd. specialize (Hrow i _ _ Hkr Hd). simpl in Hrow.
    unfold u32_try_from in Hrow. case_decide; [|done]. injection Hrow as <-.
    unfold lease_reported. simpl.
    apply list_elem_of_lookup_2 in Hkr. apply (db_rows _ _ _ _ _ Hby) in Hkr as (_ & v & Hv & Hj & Hs).
    apply starts_running in Hs as (_ & _ & -> & _). f_equal.
    erewrite collect_map_lookup; [done|by rewrite <-list_fmap_compose|].
    apply list_elem_of_fmap. exists v. by rewrite <-Hj.
Qed.

Lemma wp_dispatch_chunks now rows c
    (Q : Result (list (list DispatchedExecution)) -> conn results_db -> Prop) :
  (forall e n db, (c_step c <= n)%nat -> Q (Err e) (Conn n db)) ->
  (forall outs rws t' n, (c_step c <= n)%nat ->
    dispatched_by now rows (r_executions (c_db c)) t' rws ->
    (forall j, exec_wf (dom (r_queues (c_db c))) (r_executions (c_db c)) ->
       exec_room (r_executions (c_db c)) (length rows + j) ->
       exec_wf (dom (r_queues (c_db c))) t' /\ exec_room t' j) ->
    Forall2 reports rws (concat outs) ->
    (NoDup (di_job_id <$> rows) -> Forall2 lease_reported rws (concat outs)) ->
    Q (Ok outs) (Conn n (set_executions t' (c_db c)))) ->
  wp (for_each (dispatch_chunk now) (chunks ROWS_PER_STATEMENT rows)) Q c.
Proof.
  destruct c as [s0 db0]. simpl. intros Herr Hok.
  apply (wp_for_each _ _ (fun done outs c => exists rws t', (s0 <= c_step c)%nat /\
    c_db c = set_executions t' db0 /\
    dispatched_by now (concat done) (r_executions db0) t' rws /\
    (forall j, exec_wf (dom (r_queues db0)) (r_executions db0) ->
       exec_room (r_executions db0) (length (concat done) + j) ->
       exec_wf (dom (r_queues db0)) t' /\ exec_room t' j) /\
    Forall2 reports rws (concat outs) /\
    (NoDup (di_job_id <$> rows) -> Forall2 lease_reported rws (concat outs)))).
  - exists [], (r_executions db0). split_and!; try done; [by destruct db0|apply dispatched_by_nil|..]; by constructor.
  - intros done chunk rest outs [s db] Hch (rws & t' & Hs & Hdb & Hby & Hkeep & Hrep & Hlease).
    simpl in Hs, Hdb. subst db. apply wp_dispatch_chunk; simpl; [intros; apply Herr; lia|].
    intros out rws2 t2 n Hn Hby2 Hkeep2 Hrep2 Hlease2.
    exists (rws ++ rws2), t2. rewrite !concat_app. simpl. rewrite !app_nil_r.
    split_and!; [lia|done|by eapply dispatched_by_app| |by apply Forall2_app|].
    + intros j Hwf Hroom. rewrite length_app in Hroom. rewrite <-Nat.add_assoc in Hroom.
      destruct (Hkeep _ Hwf Hroom). by apply Hkeep2.
    + intros Hnd. apply Forall2_app; [auto|]. apply Hlease2.
      apply (f_equal (@concat _)) in Hch. rewrite concat_chunks in Hch by done.
      rewrite Hch, concat_app in Hnd. simpl in Hnd. rewrite !fmap_app in Hnd.
      apply NoDup_app in Hnd as (_ & _ & Hnd). by apply NoDup_app in Hnd as [? _].
  - intros outs [s db] (rws & t' & Hs & Hdb & Hby & Hkeep & Hrep & Hlease). simpl in *. subst db.
    rewrite concat_chunks in Hby by done. apply Hok with rws; [done|done| |done|done].
    intros j. rewrite concat_chunks in Hkeep by done. apply Hkeep.
Qed.

(** The loop that answers the rows of the request. *)
Lemma take_dispatched_ok rows m out :
  take_dispatched rows m = Ok out ->
  NoDup (di_job_id <$> rows) /\ Forall2 (fun row d => m !! di_job_id row = Some d) rows out.
Proof.
  revert m out. induction rows as [|row rows IH]; intros m out; simpl.
  { intros [= <-]. by split; constructor. }
  destruct (m !! di_job_id row) as [d|] eqn:Ed; [|done].
  destruct (take_dispatched rows _) as [rest|] eqn:Er; simpl; [|done]. intros [= <-].
  apply IH in Er as [Hnd Hall]. split; constructor; [|done|done|].
  - intros (row' & Ejob & [i Hi]%list_elem_of_lookup)%list_elem_of_fmap.
    apply Forall2_same_length_lookup in Hall as [Hl Hall].
    destruct (rest !! i) as [d'|] eqn:Ed'; [|apply lookup_ge_None in Ed'; apply lookup_lt_Some in Hi; lia].
    specialize (Hall i _ _ Hi Ed'). by rewrite <-Ejob, lookup_delete_eq in Hall.
  - eapply Forall2_impl; [exact Hall|]. by intros ? ? [_ ?]%lookup_delete_Some.
Qed.

Lemma take_dispatched_total rows m :
  NoDup (di_job_id <$> rows) -> (forall row, row ∈ rows -> is_Some (m !! di_job_id row)) ->
  exists out, take_dispatched rows m = Ok out.
Proof.
  revert m. induction rows as [|row rows IH]; intros m Hnd Hm; simpl; [by eexists|].
  apply NoDup_cons in Hnd as [Hr Hnd]. destruct (Hm row) as [d ->]; [by left|].
  destruct (IH (delete (di_job_id row) m)) as [out ->]; [done| |by eexists].
  intros row' Hrow'. rewrite lookup_delete_ne; [apply Hm; by right|].
  intros Ejob. apply Hr. rewrite Ejob. by apply list_elem_of_fmap_2.
Qed.

(** What a dispatch that succeeds reports of each of its rows. *)
Definition started_as (now : Z) (t t' : gmap Z execution_row) (row : DispatchInsert)
    (d : DispatchedExecution) : Prop :=
  exists r, t' !! di_job_id row = Some r /\ starts now row (t !! di_job_id row) r /\
    d = mkDispatchedExecution (di_job_id row) (er_execution_count r) (di_dispatch_id row)
          (di_lease_expires_at row) now.

Definition dispatch_post (rows : list DispatchInsert) (c : conn results_db)
    (r : Result (list DispatchedExecution)) (c' : conn results_db) : Prop :=
  (c_step c <= c_step c')%nat /\
  ((exists e, r = Err e /\ c_db c' = c_db c) \/
   (exists now t' rws, c_db c' = set_executions t' (c_db c) /\
     dispatched_by now rows (r_executions (c_db c)) t' rws /\
     (forall j, exec_wf (dom (r_queues (c_db c))) (r_executions (c_db c)) ->
        exec_room (r_executions (c_db c)) (length rows + j) ->
        exec_wf (dom (r_queues (c_db c))) t' /\ exec_room t' j) /\
     match r with
     | Ok out => NoDup (di_job_id <$> rows) /\ Forall2 (started_as now (r_executions (c_db c)) t') rows out
     | Err e => ~ NoDup (di_job_id <$> rows) \/ exists row, row ∈ rows /\ di_job_id row ∉ rws.*1
     end)).

Lemma wp_dispatch_batch rows c : wp (dispatch_batch rows) (dispatch_post rows c) c.
Proof.
  unfold dispatch_batch. destruct rows as [|row0 rows0] eqn:Erows.
  { wp_rule. split; [done|]. right. exists 0, (r_executions (c_db c)), [].
    split_and!; [by destruct (c_db c)|apply dispatched_by_nil|done|constructor|constructor]. }
  rewrite <-Erows. clear Erows. wp_rule. apply wp_transaction.
  { intros e n Hn. split; [simpl; lia|]. left. by exists e. }
  wp_rules. apply wp_dispatch_chunks; simpl; [intros; split; [lia|done]|].
  intros outs rws t' n Hn Hby Hkeep Hrep Hlease. wp_rules. split; [lia|]. wp_rule.
  split; [simpl; lia|]. right. simpl.
  set (now := clock _) in *. exists now, t', rws. split_and!; [done|done|done|].
  set (by_job := collect_map _).
  assert (Hids : de_job_id <$> concat outs = rws.*1).
  { clear -Hrep. induction Hrep as [|kr d ? ? (Ejob & _) _ IH]; [done|]. by rewrite !fmap_cons, Ejob, IH. }
  assert (Hmap : forall d, d ∈ concat outs -> by_job !! de_job_id d = Some d).
  { intros d Hd. apply collect_map_lookup.
    - rewrite <-list_fmap_compose. change (fst ∘ _) with de_job_id. rewrite Hids. apply Hby.
    - apply list_elem_of_fmap. by exists d. }
  destruct (take_dispatched _ by_job) as [out|e] eqn:Etake.
  - apply take_dispatched_ok in Etake as [Hnd Hall]. split; [done|]. specialize (Hlease Hnd).
    apply Forall2_same_length_lookup in Hall as [Hlen Hall]. apply Forall2_same_length_lookup.
    split; [done|]. intros i0 row d Hrow Hd. specialize (Hall i0 _ _ Hrow Hd). simpl in Hall.
    unfold by_job, collect_map in Hall. apply elem_of_list_to_map_2 in Hall.
    rewrite reverse_Permutation in Hall.
    apply list_elem_of_fmap in Hall as (d' & [= Ejob ->] & Hin).
    apply list_elem_of_lookup in Hin as [i Hi].
    apply Forall2_same_length_lookup in Hrep as [Hl Hrep], Hlease as [_ Hlease].
    destruct (rws !! i) as [[k r]|] eqn:Ei; [|apply lookup_ge_None in Ei; apply lookup_lt_Some in Hi; lia].
    specialize (Hrep i _ _ Ei Hi) as (Ej & Ec & Ed & Eu & _). specialize (Hlease i _ _ Ei Hi).
    unfold lease_reported in Hlease. simpl in *.
    apply list_elem_of_lookup_2 in Ei. apply (db_rows _ _ _ _ _ Hby) in Ei as (Ht' & v & Hv & Hjv & Hs).
    assert (v = row) as ->.
    { eapply NoDup_fmap_eq; [done|done|by eapply list_elem_of_lookup_2|]. congruence. }
    exists r. rewrite Hjv. split; [done|]. split; [done|].
    apply starts_running in Hs as (_ & Hd1 & Hl1 & Hu1). destruct d'; simpl in *. congruence.
  - destruct (decide (NoDup (di_job_id <$> rows))) as [Hnd|]; [right|by left].
    destruct (decide (Exists (fun row => di_job_id row ∉ rws.*1) rows)) as [He|He].
    { by apply Exists_exists in He. }
    exfalso. destruct (take_dispatched_total rows by_job Hnd) as [out Hout]; [|congruence].
    intros row Hrow. destruct (decide (di_job_id row ∈ rws.*1)) as [Hin|Hin];
      [|destruct He; apply Exists_exists; by exists row].
    rewrite <-Hids in Hin. apply list_elem_of_fmap in Hin as (d & -> & Hd). rewrite Hmap by done. by eexists.
Qed.
End dispatch.

(** ** Abandonment *)

Section abandon.
Context `{EL : EnvLaws}.

(** The failure an abandonment amounts to. *)
Definition abandonment (job_id : Z) (dispatch_id : string) : PendingCompletion :=
  mkPendingCompletion job_id dispatch_id (OFailed "abandoned") 0 0.

Lemma wp_abandon job_id dispatch_id c (Q : Result unit -> conn results_db -> Prop) :
  (forall e n, (c_step c <= n)%nat -> Q (Err e) (Conn n (c_db c))) ->
  (forall now t' n, (c_step c <= n)%nat ->
     completed_by now [abandonment job_id dispatch_id] (r_executions (c_db c)) t' ->
     Q (Ok tt) (Conn n (set_executions t' (c_db c)))) ->
  wp (abandon job_id dispatch_id) Q c.
Proof.
  intros Herr Hok. unfold abandon. wp_rules. set (now := clock _).
  apply wp_stmt; simpl; [intros; apply Herr; lia|]. intros [] db [= <-].
  apply (Hok now); [lia|]. intros k. destruct (decide (job_id = k)) as [<-|Hj].
  - rewrite lookup_alter_eq. destruct (r_executions (c_db c) !! job_id) as [r|]; simpl; [|done].
    unfold completes. destruct (decide _) as [Hd|Hd]; [left|right].
    + exists (abandonment job_id dispatch_id). split; [by left|]. by destruct Hd.
    + split; [|done]. intros p ->%list_elem_of_singleton. simpl. intros (_ & ? & ?). by apply Hd.
  - rewrite lookup_alter_ne by done. destruct (r_executions (c_db c) !! k) as [r|]; [|done].
    right. split; [|done]. intros p ->%list_elem_of_singleton [? _]. simpl in *. congruence.
Qed.
End abandon.

(** ** Lease recovery *)

Definition fail_where (P : execution_row -> Prop) `{!forall r, Decision (P r)} (now : Z)
    (t : gmap Z execution_row) : gmap Z execution_row :=
  (fun r => if decide (P r) then fail_row now "lease expired" r else r) <$> t.

Definition expire_rows (now : Z) (ids : list Z) (t : gmap Z execution_row) : gmap Z execution_row :=
  fail_where (fun r => er_id r ∈ ids /\ running r) now t.

Lemma lookup_fail_where P `{!forall r, Decision (P r)} now t k :
  fail_where P now t !! k = (fun r => if decide (P r) then fail_row now "lease expired" r else r) <$> t !! k.
Proof. unfold fail_where. by rewrite lookup_fmap. Qed.

Lemma expire_rows_app now ids1 ids2 t :
  expire_rows now ids2 (expire_rows now ids1 t) = expire_rows now (ids1 ++ ids2) t.
Proof.
  apply map_eq. intros k. unfold expire_rows. rewrite !lookup_fail_where.
  destruct (t !! k) as [r|]; simpl; [|done]. f_equal.
  destruct (decide (er_id r ∈ ids1 /\ running r)) as [H1|H1].
  - rewrite decide_False by (by intros [_ ?]). rewrite decide_True; [done|].
    rewrite elem_of_app. naive_solver.
  - apply decide_ext. rewrite elem_of_app. naive_solver.
Qed.

Lemma expire_rows_nil now t : expire_rows now [] t = t.
Proof.
  unfold expire_rows, fail_where. rewrite <-(map_fmap_id t) at 2. apply map_fmap_ext.
  intros k r _. rewrite decide_False; [done|]. by intros [[]%elem_of_nil _].
Qed.

Lemma fail_where_wf P `{!forall r, Decision (P r)} queues now t :
  exec_wf queues t -> exec_wf queues (fail_where P now t).
Proof.
  intros Hwf. apply (exec_wf_sub _ t); [done|]. intros k r'. rewrite lookup_fail_where.
  destruct (t !! k) as [r|]; simpl; [|done]. intros [= <-]. exists r. split; [done|].
  case_decide; [|done]. split_and!; [done|done|]. apply (row_ok_outcome _ now (OFailed "lease expired")).
Qed.

(** The report on each recovered row. *)
Definition recovered_of (limits : gmap Z Z) (k : Z) (r : execution_row) : RecoveredStale :=
  mkRecoveredStale k (er_dispatch_id r)
    (bool_decide (er_execution_count r <= default 0 (limits !! er_id r))).

Definition recovered_list (limits : gmap Z Z) (P : execution_row -> Prop) (t : gmap Z execution_row)
    (out : list RecoveredStale) : Prop :=
  NoDup (rs_job_id <$> out) /\
  forall x, x ∈ out <-> exists k r, t !! k = Some r /\ P r /\ x = recovered_of limits k r.

Section recover.
Context `{EL : EnvLaws}.

Lemma chosen_stale n ids k r :
  chosen stale_matches n ids k r = (if decide (er_id r ∈ ids /\ running r) then Some (er_id r) else None).
Proof.
  destruct (chosen _ _ _ _ _) as [v|] eqn:Ec.
  - apply chosen_Some in Ec as [Hv [<- Hr]]. by rewrite decide_True.
  - rewrite chosen_None in Ec. rewrite decide_False; [done|]. intros [Hin Hr]. by destruct (Ec _ Hin).
Qed.

Lemma wp_recover_chunk now limits chunk c
    (Q : Result (list RecoveredStale) -> conn results_db -> Prop) :
  let ids := (fun item => ex_id (ewq_execution item)) <$> chunk in
  (forall e n db, (c_step c < n)%nat -> Q (Err e) (Conn n db)) ->
  (forall out n, (c_step c < n)%nat ->
    recovered_list limits (fun r => er_id r ∈ ids /\ running r) (r_executions (c_db c)) out ->
    Q (Ok out) (Conn n (set_executions (expire_rows now ids (r_executions (c_db c))) (c_db c)))) ->
  wp (recover_chunk now limits chunk) Q c.
Proof.
  intros ids Herr Hok. unfold recover_chunk. fold ids. wp_rule.
  apply wp_stmt; simpl; [intros; apply Herr; lia|]. intros updated db' [= <- <-].
  set (t := r_executions (c_db c)) in *. set (n := c_step c) in *. set (upd := fun _ : Z => _).
  assert (Ht' : update_from stale_matches upd n ids t = expire_rows now ids t).
  { apply map_eq. intros k. unfold expire_rows. rewrite lookup_update_from, lookup_fail_where.
    destruct (t !! k) as [r|]; simpl; [|done]. rewrite chosen_stale. by case_decide. }
  rewrite Ht'. wp_rule. destruct (rows_result _ _) as [out|e] eqn:Er; [|apply Herr; lia].
  apply rows_result_Forall2, Forall2_same_length_lookup in Er as [Hl Hrow].
  apply Hok; [lia|].
  assert (Hout : forall i k r', updated_rows stale_matches upd n ids t !! i = Some (k, r') ->
    exists r, t !! k = Some r /\ (er_id r ∈ ids /\ running r) /\ out !! i = Some (recovered_of limits k r)).
  { intros i k r' Hi. destruct (out !! i) as [x|] eqn:Ex;
      [|apply lookup_ge_None in Ex; apply lookup_lt_Some in Hi; lia].
    specialize (Hrow i _ _ Hi Ex). apply list_elem_of_lookup_2, elem_of_updated_rows in Hi
      as (r & v & Hr & Hc & ->). rewrite chosen_stale in Hc. case_decide as Hd; [|done].
    exists r. split; [done|]. split; [done|]. simpl in Hrow. unfold u32_try_from in Hrow.
    case_decide; [|done]. by injection Hrow as <-. }
  assert (Hids : rs_job_id <$> out = (updated_rows stale_matches upd n ids t).*1).
  { apply list_eq. intros i. rewrite !list_lookup_fmap.
    destruct (updated_rows _ _ _ _ _ !! i) as [[k r']|] eqn:Ei.
    - destruct (Hout _ _ _ Ei) as (r & _ & _ & ->). done.
    - apply lookup_ge_None in Ei. by rewrite (lookup_ge_None_2 out) by lia. }
  split; [rewrite Hids; apply updated_rows_NoDup|]. intros x. split.
  - intros [i Hi]%list_elem_of_lookup.
    destruct (updated_rows stale_matches upd n ids t !! i) as [[k r']|] eqn:Ei;
      [|apply lookup_ge_None in Ei; apply lookup_lt_Some in Hi; lia].
    destruct (Hout _ _ _ Ei) as (r & Hr & Hp & Ho). exists k, r. by simplify_eq.
  - intros (k & r & Hr & Hp & ->).
    assert ((k, upd (er_id r) r) ∈ updated_rows stale_matches upd n ids t) as [i Hi]%list_elem_of_lookup.
    { apply elem_of_updated_rows. exists r, (er_id r). rewrite chosen_stale, decide_True by done. done. }
    destruct (Hout _ _ _ Hi) as (r2 & Hr2 & _ & Ho). simplify_eq. by eapply list_elem_of_lookup_2.
Qed.

Lemma recovered_list_app now limits ids1 ids2 t out1 out2 :
  recovered_list limits (fun r => er_id r ∈ ids1 /\ running r) t out1 ->
  recovered_list limits (fun r => er_id r ∈ ids2 /\ running r) (expire_rows now ids1 t) out2 ->
  recovered_list limits (fun r => er_id r ∈ ids1 ++ ids2 /\ running r) t (out1 ++ out2).
Proof.
  intros [Hnd1 H1] [Hnd2 H2].
  assert (Hback : forall k r, expire_rows now ids1 t !! k = Some r -> running r ->
    t !! k = Some r /\ er_id r ∉ ids1).
  { intros k r. unfold expire_rows. rewrite lookup_fail_where. destruct (t !! k) as [r0|]; simpl; [|done].
    case_decide as Hd; intros [= <-]; [done|]. naive_solver. }
  split.
  - rewrite fmap_app. apply NoDup_app. split; [done|]. split; [|done].
    intros k (x1 & -> & Hx1)%list_elem_of_fmap (x2 & Ek & Hx2)%list_elem_of_fmap.
    apply H1 in Hx1 as (k1 & r1 & Hr1 & [Hi1 _] & ->).
    apply H2 in Hx2 as (k2 & r2 & Hr2 & [_ Hrun] & ->). simpl in Ek. subst k2.
    destruct (Hback _ _ Hr2 Hrun) as [? ?]. by simplify_eq.
  - intros x. rewrite elem_of_app, H1, H2. split.
    + intros [(k & r & Hr & [Hi Hrun] & ->)|(k & r & Hr & [Hi Hrun] & ->)]; exists k, r.
      * rewrite elem_of_app. auto.
      * destruct (Hback _ _ Hr Hrun). rewrite elem_of_app. auto.
    + intros (k & r & Hr & [[Hi|Hi]%elem_of_app Hrun] & ->); [left; by exists k, r|].
      destruct (decide (er_id r ∈ ids1)) as [Hi1|Hi1]; [left; by exists k, r|right].
      exists k, r. split; [|done]. unfold expire_rows. rewrite lookup_fail_where, Hr. simpl.
      rewrite decide_False; [done|]. by intros [? _].
Qed.

(** *** The stale rows *)

Definition stale_ids (stale : list ExecutionWithQueueConfig) : list Z :=
  (fun item => ex_id (ewq_execution item)) <$> stale.

Definition stale_limits (stale : list ExecutionWithQueueConfig) : gmap Z Z :=
  collect_map ((fun item => (ex_id (ewq_execution item), q_max_retries (ewq_queue item))) <$> stale).

Lemma row_to_ewq_ok n k r q item :
  row_to_execution_with_queue_config n k r q = Ok item ->
  ex_id (ewq_execution item) = er_id r /\ q_max_retries (ewq_queue item) = qr_max_retries q.
Proof.
  unfold row_to_execution_with_queue_config, row_to_execution, row_to_queue, convert,
    row_to_execution_status, u32_try_from, result_bind.
  intros H. repeat (case_match; simplify_eq/=); done.
Qed.

Lemma select_stale_rows n now db stale :
  select_stale n now db = Ok stale -> exec_wf (dom (r_queues db)) (r_executions db) ->
  exists rows : list (Z * execution_row), NoDup rows.*1 /\
    (forall k r, (k, r) ∈ rows <-> r_executions db !! k = Some r /\ lease_expired now r) /\
    Forall2 (fun kr item => ex_id (ewq_execution item) = er_id kr.2 /\
      Some (q_max_retries (ewq_queue item)) = qr_max_retries <$> r_queues db !! er_queue_name kr.2) rows stale.
Proof.
  unfold select_stale. intros Hsel%rows_result_Forall2 Hwf. eexists. split_and!; [| |].
  3:{ eapply Forall2_impl; [exact Hsel|]. intros [k r] item. simpl.
      destruct (r_queues db !! er_queue_name r) as [q|]; [|done].
      intros [? ?]%row_to_ewq_ok. simpl. split; congruence. }
  - rewrite row_order_perm. apply (sublist_NoDup _ (map_to_list (r_executions db)).*1);
      [apply NoDup_fst_map_to_list|]. apply fmap_sublist, sublist_filter.
  - intros k r. rewrite row_order_perm, list_elem_of_filter, elem_of_map_to_list. simpl.
    split; [naive_solver|]. intros [Hr ?]. split; [|done]. split; [done|].
    apply (ew_rows _ _ Hwf k r Hr).
Qed.

Lemma select_stale_spec n now db stale :
  select_stale n now db = Ok stale -> exec_wf (dom (r_queues db)) (r_executions db) ->
  (forall k r, r_executions db !! k = Some r -> (er_id r ∈ stale_ids stale <-> lease_expired now r)) /\
  (forall k r, r_executions db !! k = Some r -> lease_expired now r ->
     default 0 (stale_limits stale !! er_id r) =
     default 0 (qr_max_retries <$> r_queues db !! er_queue_name r)).
Proof.
  intros Hsel Hwf. destruct (select_stale_rows _ _ _ _ Hsel Hwf) as (rows & Hnd & Hrows & Hall).
  assert (Hids : stale_ids stale = (fun kr => er_id kr.2) <$> rows).
  { clear -Hall. unfold stale_ids. induction Hall as [|kr item ? ? [Eid _] _ IH]; [done|].
    by rewrite !fmap_cons, Eid, IH. }
  split.
  - intros k r Hr. rewrite Hids, list_elem_of_fmap. split.
    + intros ([k' r'] & Eid & [Hr' Hexp]%Hrows). simpl in Eid.
      assert (k = k') as -> by (by eapply (ew_ids _ _ Hwf)). by simplify_eq.
    + intros Hexp. exists (k, r). split; [done|]. by apply Hrows.
  - intros k r Hr Hexp. assert (Hin : (k, r) ∈ rows) by (by apply Hrows).
    apply list_elem_of_lookup in Hin as [i Hi].
    apply Forall2_same_length_lookup in Hall as [Hl Hall].
    destruct (stale !! i) as [item|] eqn:Ei; [|apply lookup_ge_None in Ei; apply lookup_lt_Some in Hi; lia].
    destruct (Hall i _ _ Hi Ei) as [Eid Eq]. simpl in *.
    unfold stale_limits. erewrite collect_map_lookup; [|..].
    3:{ apply list_elem_of_fmap. exists item. rewrite Eid. split; [done|by eapply list_elem_of_lookup_2]. }
    2:{ rewrite <-list_fmap_compose. change (NoDup (stale_ids stale)). rewrite Hids.
        apply NoDup_fmap_2_strong.
        - intros [k1 r1] [k2 r2] [H1 _]%Hrows [H2 _]%Hrows Eid'. simpl in Eid'.
          assert (k1 = k2) as -> by (by eapply (ew_ids _ _ Hwf)). by simplify_eq.
        - by eapply NoDup_fmap_1. }
    simpl. by rewrite <-Eq.
Qed.

(** The report on a recovered row, in terms of its queue's retry limit. *)
Definition recovery_of (db : results_db) (k : Z) (r : execution_row) : RecoveredStale :=
  mkRecoveredStale k (er_dispatch_id r)
    (bool_decide (er_execution_count r <= default 0 (qr_max_retries <$> r_queues db !! er_queue_name r))).

(** [recover_stale] fails the running rows whose lease has expired, and only them. *)
Lemma wp_recover_stale now c (Q : Result (list RecoveredStale) -> conn results_db -> Prop) :
  exec_wf (dom (r_queues (c_db c))) (r_executions (c_db c)) ->
  (forall e n, (c_step c <= n)%nat -> Q (Err e) (Conn n (c_db c))) ->
  (forall out n, (c_step c <= n)%nat -> NoDup (rs_job_id <$> out) ->
    (forall x, x ∈ out <-> exists k r, r_executions (c_db c) !! k = Some r /\ lease_expired now r /\
       x = recovery_of (c_db c) k r) ->
    Q (Ok out) (Conn n (set_executions (fail_where (lease_expired now) now (r_executions (c_db c))) (c_db c)))) ->
  wp (recover_stale now) Q c.
Proof.
  intros Hwf Herr Hok. unfold recover_stale. wp_rule.
  apply wp_query; [intros; apply Herr; lia|]. intros stale Hsel.
  destruct (select_stale_spec _ _ _ _ Hsel Hwf) as [Hids Hlim].
  assert (Hfin : forall out n, (c_step c <= n)%nat ->
    recovered_list (stale_limits stale) (fun r => er_id r ∈ stale_ids stale /\ running r) (r_executions (c_db c)) out ->
    Q (Ok out) (Conn n (set_executions (expire_rows now (stale_ids stale) (r_executions (c_db c))) (c_db c)))).
  { intros out n Hn [Hnd Hout].
    assert (Ht : expire_rows now (stale_ids stale) (r_executions (c_db c)) =
                 fail_where (lease_expired now) now (r_executions (c_db c))).
    { apply map_eq. intros k. unfold expire_rows. rewrite !lookup_fail_where.
      destruct (r_executions (c_db c) !! k) as [r|] eqn:Er; simpl; [|done]. f_equal.
      apply decide_ext. rewrite (Hids k r Er). unfold lease_expired. naive_solver. }
    rewrite Ht. apply Hok; [done|done|]. intros x. rewrite Hout.
    split; intros (k & r & Hr & Hp & ->); exists k, r; (split; [done|]).
    - destruct Hp as [Hp _]. rewrite (Hids k r Hr) in Hp. split; [done|].
      unfold recovered_of, recovery_of. by rewrite (Hlim k r Hr Hp).
    - rewrite (Hids k r Hr). split; [by split; [|apply Hp]|].
      unfold recovered_of, recovery_of. by rewrite (Hlim k r Hr Hp). }
  destruct stale as [|item0 stale0] eqn:Estale.
  { wp_rule. simpl in Hfin. specialize (Hfin [] (S (c_step c)) ltac:(lia)).
    assert (Hnil : expire_rows now [] (r_executions (c_db c)) = r_executions (c_db c)).
    { apply expire_rows_nil. }
    rewrite Hnil in Hfin. destruct c as [s [q t]]. apply Hfin. split; [constructor|].
    intros x. rewrite elem_of_nil. split; [done|]. intros (k & r & _ & [[]%elem_of_nil _] & _). }
  rewrite <-Estale in *. clear Estale item0 stale0. apply wp_transaction.
  { intros e n Hn. apply Herr. simpl in Hn. lia. }
  destruct c as [s0 db0]. simpl in *. fold (stale_limits stale). wp_rule.
  apply (wp_for_each _ _ (fun done outs c => (s0 + 2 <= c_step c)%nat /\
    c_db c = set_executions (expire_rows now (stale_ids (concat done)) (r_executions db0)) db0 /\
    recovered_list (stale_limits stale) (fun r => er_id r ∈ stale_ids (concat done) /\ running r)
      (r_executions db0) (concat outs))).
  - simpl. split; [lia|]. split.
    + destruct db0 as [q t]. unfold set_executions. simpl. f_equal. symmetry. apply expire_rows_nil.
    + split; [constructor|]. intros x. rewrite elem_of_nil. split; [done|].
      intros (k & r & _ & [[]%elem_of_nil _] & _).
  - intros done chunk rest outs [s db] _ (Hs & Hdb & Hrec). simpl in Hs, Hdb. subst db.
    apply wp_recover_chunk; simpl; [intros; split; [lia|done]|]. intros out n Hn Hout.
    rewrite !concat_app. simpl. rewrite !app_nil_r. unfold stale_ids. rewrite fmap_app.
    fold (stale_ids (concat done)). split; [lia|]. split.
    + by rewrite expire_rows_app.
    + by eapply recovered_list_app.
  - intros outs [s db] (Hs & Hdb & Hrec). rewrite concat_chunks in Hdb, Hrec by done.
    simpl in *. subst db. wp_rules. split; [lia|]. apply Hfin; [lia|done].
Qed.
End recover.
