(* ===== verification/ResultsProps.v ===== *)
(** * The results connection: properties

    The state machine of an execution, and what each operation of the results writer promises. *)
From S2P Require Import Prelude Types Db Tables Ingest Results ResultsFacts ResultsDispatch.

(** ** The state machine of an execution *)

(** How a request may change the row of job [k]. *)
Inductive row_step (request : ResultsRequest) (k : Z) : option execution_row -> option execution_row -> Prop :=
| step_stay o : row_step request k o o
| step_start rows reply v now id :
    request = RDispatch rows reply -> v ∈ rows -> di_job_id v = k ->
    row_step request k None (Some (start_row id now v))
| step_restart rows reply v now r :
    request = RDispatch rows reply -> v ∈ rows -> di_job_id v = k -> restartable r ->
    row_step request k (Some r) (Some (restart_row now v r))
| step_complete outcome reply now r :
    request = RComplete k (er_dispatch_id r) outcome reply -> running r ->
    row_step request k (Some r) (Some (outcome_row now outcome r))
| step_abandon reply now r :
    request = RAbandon k (er_dispatch_id r) reply -> running r ->
    row_step request k (Some r) (Some (fail_row now "abandoned" r))
| step_expire now reply r :
    request = RRecoverStale now reply -> lease_expired now r ->
    row_step request k (Some r) (Some (fail_row now "lease expired" r))
| step_delete cutoff reply r :
    request = RCleanupExpiredRecords cutoff reply -> er_updated_at r < cutoff ->
    row_step request k (Some r) None.

Definition results_wf (db : results_db) : Prop := exec_wf (dom (r_queues db)) (r_executions db).

Definition r_reply_of (request : ResultsRequest) : nat :=
  match request with
  | RUpsertQueue _ reply | RDispatch _ reply | RComplete _ _ _ reply | RAbandon _ _ reply
  | RRecoverStale _ reply | RCleanupExpiredRecords _ reply | RVacuum reply => reply
  end.

(** The rowids a request may need. *)
Definition rows_needed (request : ResultsRequest) : nat :=
  match request with RDispatch rows _ => length rows | _ => 0 end.

Section steps.
Context `{EL : EnvLaws}.

Lemma dispatched_by_steps now rows reply t t' rws k :
  dispatched_by now rows t t' rws -> row_step (RDispatch rows reply) k (t !! k) (t' !! k).
Proof.
  intros Hby. destruct (decide (k ∈ rws.*1)) as [Hk|Hk].
  - apply elem_of_fst in Hk as [r Hr]. apply (db_rows _ _ _ _ _ Hby) in Hr as (-> & v & Hv & Hj & Hs).
    destruct (t !! k) as [r0|]; simpl in Hs; [destruct Hs as [? ->]|destruct Hs as [id ->]].
    + by eapply step_restart.
    + by eapply step_start.
  - apply (db_rest _ _ _ _ _ Hby) in Hk as [-> _]. constructor.
Qed.

Lemma completed_by_steps now p request t t' k :
  (forall r, completes p k r -> running r ->
     row_step request k (Some r) (Some (outcome_row now (pcm_outcome p) r))) ->
  completed_by now [p] t t' -> row_step request k (t !! k) (t' !! k).
Proof.
  intros Hstep Hby. specialize (Hby k). destruct (t !! k) as [r|]; [|rewrite Hby; constructor].
  destruct Hby as [(p' & ->%list_elem_of_singleton & Hc & ->)|[_ ->]]; [|constructor].
  apply Hstep; [done|]. apply Hc.
Qed.

(** What handling a request promises of the connection. *)
Definition handled (request : ResultsRequest) (db db' : results_db) : Prop :=
  results_wf db' /\ forall k, row_step request k (r_executions db !! k) (r_executions db' !! k).

Lemma handled_refl request db : results_wf db -> handled request db db.
Proof. split; [done|]. constructor. Qed.

Lemma handled_queues request db queues :
  results_wf db -> dom (r_queues db) ⊆ dom queues ->
  handled request db (mkResultsDb queues (r_executions db)).
Proof.
  intros Hwf Hq. split; [|constructor]. apply (exec_wf_queues _ _ _ Hq Hwf).
Qed.

Lemma wp_r_upsert_queue_rows queue c :
  wp (r_upsert_queue queue) (fun r c' => r_executions (c_db c') = r_executions (c_db c) /\
    (r_queues (c_db c') = r_queues (c_db c) \/ exists now, r_queues (c_db c') = stored_queue queue now (r_queues (c_db c))) /\
    (is_ok r = true -> exists now, r_queues (c_db c') = stored_queue queue now (r_queues (c_db c)))) c.
Proof.
  unfold r_upsert_queue. wp_rules. apply wp_stmt; simpl; [intros; split_and!; [done|by left|done]|].
  intros [] db Hdb. destruct (param_u64 _ _); simplify_eq/=.
  apply wp_query; simpl; intros; (split_and!; [done|right; by eexists|by try by eexists]).
Qed.

Lemma wp_r_upsert_queue queue c :
  results_wf (c_db c) ->
  wp (r_upsert_queue queue) (fun _ c' => results_wf (c_db c') /\ r_executions (c_db c') = r_executions (c_db c)) c.
Proof.
  intros Hwf. eapply wp_mono; [apply wp_r_upsert_queue_rows|]. intros r c' (Hex & Hq & _). split; [|done].
  unfold results_wf. rewrite Hex. apply (exec_wf_queues (dom (r_queues (c_db c)))); [|done].
  destruct Hq as [-> |[now ->]]; [done|]. rewrite dom_stored_queue. set_solver.
Qed.

Lemma wp_r_handle request c :
  results_wf (c_db c) -> exec_room (r_executions (c_db c)) (rows_needed request) ->
  wp (r_handle request) (fun r c' => exists reply,
    r = Ok [(r_reply_of request, reply)] /\ handled request (c_db c) (c_db c')) c.
Proof.
  intros Hwf Hroom. destruct request as [queue reply|rows reply|job_id d outcome reply|job_id d reply
    |now reply|cutoff reply|reply]; cbn [r_handle rows_needed r_reply_of] in *; wp_rule.
  - wp_rule. eapply wp_mono; [by apply wp_r_upsert_queue|]. simpl. intros r c' [Hwf' Hex]. wp_rules.
    eexists; split; [done|]. split; [done|]. intros k. rewrite Hex. constructor.
  - wp_rule. eapply wp_mono; [apply wp_dispatch_batch|]. simpl. intros r c' [_ Hpost]. wp_rules.
    eexists; split; [done|]. destruct Hpost as [(e & -> & ->)|(now & t' & rws & -> & Hby & Hkeep & _)];
      [by apply handled_refl|]. split.
    + rewrite <-(Nat.add_0_r (length rows)) in Hroom. by apply (Hkeep 0%nat).
    + intros k. simpl. by eapply dispatched_by_steps.
  - wp_rule. cbn beta iota. wp_rule. eapply wp_mono; [apply wp_complete_batch|]. simpl.
    intros r c' (out & -> & [(e & -> & Hdb)|(now & ds & dd & t' & -> & Hl & Hdb & Hby & _)]); simpl in Hdb;
      wp_rules; rewrite Hdb.
    + eexists. split; [done|]. by apply handled_refl.
    + destruct ds as [|dsp [|? ?]]; [done| |done]. eexists. split; [done|]. simpl in Hby. split.
      * apply (completed_by_wf _ _ _ _ _ Hby Hwf).
      * intros k. simpl. eapply completed_by_steps; [|done]. simpl.
        intros r (-> & Hd & _) Hr. simpl in Hd. subst d. by eapply step_complete.
  - wp_rule. apply wp_abandon.
    + intros e n _. wp_rules. eexists; split; [done|]. by apply handled_refl.
    + intros now t' n _ Hby. wp_rules. eexists; split; [done|]. split.
      * apply (completed_by_wf _ _ _ _ _ Hby Hwf).
      * intros k. simpl. eapply completed_by_steps; [|done]. simpl.
        intros r (-> & Hd & _) Hr. simpl in Hd. subst d. by eapply step_abandon.
  - wp_rule. apply wp_recover_stale; [done| |].
    + intros e n _. wp_rules. eexists; split; [done|]. by apply handled_refl.
    + intros out n _ _ _. wp_rules. eexists; split; [done|]. split; [by apply fail_where_wf|].
      intros k. simpl. rewrite lookup_fail_where.
      destruct (r_executions (c_db c) !! k) as [r|] eqn:Er; cbn [fmap option_fmap option_map]; [|constructor].
      destruct (decide (lease_expired now r)); [by eapply step_expire|constructor].
  - wp_rule. apply wp_stmt.
    + intros e. wp_rules. eexists; split; [done|]. by apply handled_refl.
    + intros a db [= <- <-]. wp_rules. eexists; split; [done|]. split.
      * apply (exec_wf_sub _ (r_executions (c_db c))); [done|]. simpl.
        intros k r [Hr _]%map_lookup_filter_Some. by exists r.
      * intros k. simpl. destruct (filter _ _ !! k) as [r'|] eqn:Ef.
        -- apply map_lookup_filter_Some in Ef as [-> _]. constructor.
        -- destruct (r_executions (c_db c) !! k) as [r|] eqn:Er; [|constructor].
           eapply step_delete; [done|].
           apply map_lookup_filter_None in Ef as [Ef|Ef]; [congruence|].
           specialize (Ef r Er). simpl in Ef. lia.
  - wp_rule. unfold r_vacuum. apply wp_stmt; [intros e|intros [] db [= <-]]; wp_rules;
      (eexists; split; [done|]); by apply handled_refl.
Qed.
End steps.

(** ** Runs of the writer *)

Section runs.
Context `{EL : EnvLaws}.

(** The writer handles a sequence of requests. *)
Inductive results_run : list ResultsRequest -> conn results_db -> conn results_db -> Prop :=
| run_nil c : results_run [] c c
| run_cons request requests r c c1 c2 :
    exec_room (r_executions (c_db c)) (rows_needed request) ->
    r_handle request c = (r, c1) -> results_run requests c1 c2 ->
    results_run (request :: requests) c c2.

Definition completed (r : execution_row) : Prop := er_status r = "completed"%string.

Lemma row_step_completed request k o o' r :
  row_step request k o o' -> o = Some r -> completed r ->
  o' = Some r \/ (o' = None /\ exists cutoff reply,
                  request = RCleanupExpiredRecords cutoff reply /\ er_updated_at r < cutoff).
Proof.
  intros Hstep -> Hc. unfold completed in Hc.
  inversion Hstep; subst; [by left|exfalso..|right; eauto];
    unfold restartable, lease_expired, running in *; naive_solver congruence.
Qed.

Lemma results_run_wf requests c c' :
  results_run requests c c' -> results_wf (c_db c) -> results_wf (c_db c').
Proof.
  induction 1 as [c|request requests res c c1 c2 Hroom Hrun Hrest IH]; [done|]. intros Hwf.
  destruct (wp_run _ _ _ _ _ (wp_r_handle request c Hwf Hroom) Hrun) as (reply & _ & Hwf1 & _). auto.
Qed.

Lemma results_run_completed requests c c' k r :
  results_run requests c c' -> results_wf (c_db c) ->
  r_executions (c_db c) !! k = Some r -> completed r ->
  results_wf (c_db c') /\
  (r_executions (c_db c') !! k = Some r \/
   exists cutoff reply, RCleanupExpiredRecords cutoff reply ∈ requests /\ er_updated_at r < cutoff).
Proof.
  induction 1 as [c|request requests res c c1 c2 Hroom Hrun Hrest IH]; intros Hwf Hk Hc; [by split; [|left]|].
  destruct (wp_run _ _ _ _ _ (wp_r_handle request c Hwf Hroom) Hrun) as (reply & _ & Hwf1 & Hstep).
  assert (Hwf2 : results_wf (c_db c2)) by (by eapply results_run_wf).
  split; [done|].
  destruct (row_step_completed _ _ _ _ r (Hstep k) Hk Hc) as [Hk1|(_ & cutoff & rep & -> & Hlt)].
  - destruct (IH Hwf1 Hk1 Hc) as [_ [?|(cutoff & rep & Hin & Hlt)]]; [by left|right].
    exists cutoff, rep. split; [by right|done].
  - right. exists cutoff, rep. split; [by left|done].
Qed.
End runs.

(** A table with a running, an expired and a completed execution, and a failed one. *)
Definition example_execution (id : Z) (status : string) (count : Z) (lease : option Z) (d : string) : execution_row :=
  mkExecutionRow id "email" status count lease d None None 10 20.
Definition example_results : results_db :=
  mkResultsDb {["email" := mkQueueRow 1 60 0 0]}
    {[1 := example_execution 1 "running" 1 (Some 5000) "a";
      2 := example_execution 2 "running" 2 (Some 90) "b";
      3 := example_execution 3 "completed" 1 None "c";
      4 := example_execution 4 "failed" 1 None "d"]}.

Definition lease_ok (r : execution_row) : bool :=
  Bool.eqb (bool_decide (running r)) (bool_decide (is_Some (er_lease_expires_at r))).

Lemma results_wf_decide db :
  let rows := map_to_list (r_executions db) in
  bool_decide (NoDup ((fun kr => er_id kr.2) <$> rows)) &&
  bool_decide (NoDup ((fun kr => er_dispatch_id kr.2) <$> rows)) &&
  bool_decide (Forall (fun kr => 0 < er_id kr.2 /\ er_queue_name kr.2 ∈ dom (r_queues db) /\
     is_Some (parse (er_status kr.2)) /\ 1 <= er_execution_count kr.2 /\ lease_ok kr.2) rows) = true ->
  results_wf db.
Proof.
  intros rows [[Hid%bool_decide_eq_true Hd%bool_decide_eq_true]%andb_prop Hr%bool_decide_eq_true]%andb_prop.
  assert (Hin : forall k r, r_executions db !! k = Some r -> (k, r) ∈ rows) by
    (intros k r; by rewrite <-elem_of_map_to_list).
  split.
  - intros k1 k2 r1 r2 H1%Hin H2%Hin Eid.
    assert ((k1, r1) = (k2, r2)) by (by apply (NoDup_fmap_eq (fun kr => er_id kr.2) rows)). by simplify_eq.
  - intros k1 k2 r1 r2 H1%Hin H2%Hin Eid.
    assert ((k1, r1) = (k2, r2)) by (by apply (NoDup_fmap_eq (fun kr => er_dispatch_id kr.2) rows)). by simplify_eq.
  - intros k r H1%Hin. rewrite Forall_forall in Hr. destruct (Hr _ H1) as (? & ? & ? & ? & Hl).
    split; try done. unfold lease_ok in Hl. simpl in *.
    do 2 case_bool_decide; simpl in Hl; naive_solver.
Qed.

(** C22. Every request to the results writer is answered exactly once, on its own channel, and moves
    each execution along its state machine: a dispatch starts a missing or restarts a failed
    execution named in it, a completion or abandonment ends a running one under its dispatch id, a
    recovery ends a running one whose lease has expired, a cleanup deletes an old one, and nothing
    else changes; rowids and dispatch ids stay unique, and exactly the running rows hold a lease. *)
Theorem results_rows_follow_state_machine `{EnvLaws} request n db r c' :
  results_wf db -> exec_room (r_executions db) (rows_needed request) ->
  r_handle request (Conn n db) = (r, c') ->
  exists reply, r = Ok [(r_reply_of request, reply)] /\ results_wf (c_db c') /\
    forall k, row_step request k (r_executions db !! k) (r_executions (c_db c') !! k).
Proof. intros Hwf Hroom Hrun. exact (wp_run _ _ _ _ _ (wp_r_handle request (Conn n db) Hwf Hroom) Hrun). Qed.

Definition example_dispatch : ResultsRequest :=
  RDispatch [mkDispatchInsert 4 "email" "e" 7000; mkDispatchInsert 9 "email" "f" 7000] 3.

Lemma results_rows_follow_state_machine_witness :
  exists r c', r_handle (E := model_env) example_dispatch (Conn 0 example_results) = (r, c') /\
    (er_status <$> r_executions (c_db c') !! 9 = Some "running"%string) /\ results_wf (c_db c').
Proof.
  eexists _, _. split; [vm_compute; reflexivity|]. split; [reflexivity|].
  edestruct (results_rows_follow_state_machine (E := model_env) example_dispatch 0 example_results)
    as (reply & _ & Hwf & _); [| | |exact Hwf].
  - apply results_wf_decide. vm_compute. reflexivity.
  - unfold exec_room. vm_compute. reflexivity.
  - vm_compute. reflexivity.
Defined.

(** C19. Completing a batch in bulk is completing its results one at a time, when no two completions of
    the batch are for the same job and dispatch id (for two that are, [completed_twice] shows both are
    confirmed): a committed batch leaves the table, and answers each completion, exactly as applying them
    in order would; a failed one changes nothing and answers every completion with the error. *)
Theorem complete_batch_is_sequential `{EnvLaws} batch n db r c' :
  NoDup (pcm_key <$> batch) ->
  complete_batch batch (Conn n db) = (r, c') ->
  exists commit replies, r = Ok (commit, replies) /\ replies.*1 = pcm_reply <$> batch /\
    ((commit = None /\ c_db c' = db /\ exists e, Forall (fun kr => kr.2 = Err e) replies) \/
     (exists now, let '(ds, db') := complete_all now db batch in
        c_db c' = db' /\ replies.*2 = Ok <$> ds)).
Proof.
  intros Hnd Hrun. destruct (wp_run _ _ _ _ _ (wp_complete_batch batch (Conn n db)) Hrun)
    as ([commit replies] & -> & [(e & [= -> ->] & Hdb)|(now & ds & d & t' & [= -> ->] & Hl & Hdb & Hby & _ & Hds)]).
  - eexists _, _. split; [done|]. split; [by rewrite <-list_fmap_compose|]. left.
    split_and!; [done|done|]. exists e. apply Forall_fmap, Forall_true. done.
  - eexists _, _. split; [done|]. split.
    { by apply fmap_zip_with_fst. }
    right. exists now. simpl in *. rewrite (complete_all_eq _ _ _ _ Hnd Hby). split; [done|].
    rewrite Hds by done. apply fmap_zip_with_snd; [done|]. by rewrite length_fmap.
Qed.

Definition example_batch : list PendingCompletion :=
  [mkPendingCompletion 1 "a" (OFailed "boom") 5 0; mkPendingCompletion 2 "x" (Succeeded []) 6 0;
   mkPendingCompletion 2 "b" (OFailed "boom") 7 0].

Lemma complete_batch_is_sequential_witness :
  NoDup (pcm_key <$> example_batch) /\
  exists r c', complete_batch (E := model_env) example_batch (Conn 0 example_results) = (r, c') /\
    exists commit replies, r = Ok (commit, replies) /\ replies.*1 = pcm_reply <$> example_batch /\
      replies.*2 = [Ok Repend; Ok Ignored; Ok DCompleted].
Proof.
  assert (Hnd : NoDup (pcm_key <$> example_batch)) by (apply (bool_decide_eq_true_1 _); vm_compute; reflexivity).
  split; [exact Hnd|]. eexists _, _. split; [vm_compute; reflexivity|].
  edestruct (complete_batch_is_sequential (E := model_env) example_batch 0 example_results)
    as (commit & replies & Hr & Hk & _); [exact Hnd|vm_compute; reflexivity|].
  exists commit, replies. split; [exact Hr|]. split; [exact Hk|].
  injection Hr as _ <-. vm_compute. reflexivity.
Defined.

(** A completed execution is final: however the writer goes on, the row stays exactly as it is,
    result included, unless a cleanup with a later cutoff deletes it. *)
Theorem completed_is_final `{EnvLaws} requests c c' k r :
  results_run requests c c' -> results_wf (c_db c) ->
  r_executions (c_db c) !! k = Some r -> er_status r = "completed"%string ->
  r_executions (c_db c') !! k = Some r \/
  exists cutoff reply, RCleanupExpiredRecords cutoff reply ∈ requests /\ er_updated_at r < cutoff.
Proof. intros Hrun Hwf Hk Hc. by destruct (results_run_completed _ _ _ _ _ Hrun Hwf Hk Hc). Qed.

Definition example_requests : list ResultsRequest :=
  [example_dispatch; RComplete 3 "c" (OFailed "late") 4; RAbandon 3 "c" 5].

Lemma completed_is_final_witness :
  exists c', results_run (E := model_env) example_requests (Conn 0 example_results) c' /\
    (r_executions (c_db c') !! 3 = r_executions example_results !! 3 \/
     exists cutoff reply, RCleanupExpiredRecords cutoff reply ∈ example_requests /\ 20 < cutoff).
Proof.
  assert (Hrun : exists c', results_run (E := model_env) example_requests (Conn 0 example_results) c').
  { eexists. unfold example_requests.
    eapply (run_cons (E := model_env)); [unfold exec_room; vm_compute; reflexivity|vm_compute; reflexivity|].
    eapply (run_cons (E := model_env)); [unfold exec_room; vm_compute; reflexivity|vm_compute; reflexivity|].
    eapply (run_cons (E := model_env)); [unfold exec_room; vm_compute; reflexivity|vm_compute; reflexivity|].
    apply run_nil. }
  destruct Hrun as [c' Hrun]. exists c'. split; [exact Hrun|].
  refine (completed_is_final (E := model_env) example_requests (Conn 0 example_results) c' 3
            (example_execution 3 "completed" 1 None "c") Hrun _ _ _).
  - apply results_wf_decide. vm_compute. reflexivity.
  - vm_compute. reflexivity.
  - reflexivity.
Defined.

(** A dispatch that succeeds has started exactly the executions it was asked for, in order:
    each row's execution is new with attempt 1, or was failed (or pending) and counts one more
    attempt; it runs under the row's dispatch id and lease and is reported as such; all other
    executions are unchanged. *)
Theorem dispatch_batch_starts_each `{EnvLaws} rows n db out c' :
  dispatch_batch rows (Conn n db) = (Ok out, c') ->
  NoDup (di_job_id <$> rows) /\ length out = length rows /\
  (exists now, forall i row d, rows !! i = Some row -> out !! i = Some d ->
     let count := match r_executions db !! di_job_id row with
                  | None => 1 | Some r0 => er_execution_count r0 + 1 end in
     d = mkDispatchedExecution (di_job_id row) count (di_dispatch_id row) (di_lease_expires_at row) now /\
     (forall r0, r_executions db !! di_job_id row = Some r0 -> restartable r0) /\
     exists r, r_executions (c_db c') !! di_job_id row = Some r /\ running r /\
       er_execution_count r = count /\ er_dispatch_id r = di_dispatch_id row /\
       er_lease_expires_at r = Some (di_lease_expires_at row)) /\
  (forall k, k ∉ di_job_id <$> rows -> r_executions (c_db c') !! k = r_executions db !! k).
Proof.
  intros Hrun. destruct (wp_run _ _ _ _ _ (wp_dispatch_batch rows (Conn n db)) Hrun)
    as (_ & [(e & [=] & _)|(now & t' & rws & Hdb & Hby & _ & Hnd & Hall)]).
  simpl in *. apply Forall2_same_length_lookup in Hall as [Hl Hall]. split_and!; [done|done| |].
  - exists now. intros i row d Hrow Hd. destruct (Hall i _ _ Hrow Hd) as (r & Hr & Hs & ->).
    pose proof (starts_running _ _ _ _ Hs) as (Hrunning & Hid & Hlease & _).
    rewrite Hdb. simpl. destruct (r_executions db !! di_job_id row) as [r0|]; simpl in Hs.
    + destruct Hs as [Hre ->]. split_and!; [done|by intros ? [= <-]|]. eexists. split_and!; done.
    + destruct Hs as [id ->]. split_and!; [done|done|]. eexists. split_and!; done.
  - intros k Hk. rewrite Hdb. simpl. apply (db_rest _ _ _ _ _ Hby). intros [r Hr]%elem_of_fst.
    apply (db_rows _ _ _ _ _ Hby) in Hr as (_ & v & Hv & <- & _). destruct Hk. by apply list_elem_of_fmap_2.
Qed.

Lemma dispatch_batch_starts_each_witness :
  let rows := [mkDispatchInsert 4 "email" "e" 7000; mkDispatchInsert 9 "email" "f" 7000] in
  exists out c', dispatch_batch (E := model_env) rows (Conn 0 example_results) = (Ok out, c') /\
    length out = 2%nat /\ r_executions (c_db c') !! 3 = r_executions example_results !! 3.
Proof.
  intros rows. eexists _, _. split; [vm_compute; reflexivity|].
  edestruct (dispatch_batch_starts_each (E := model_env) rows 0 example_results)
    as (_ & Hl & _ & Hrest); [vm_compute; reflexivity|].
  split; [exact Hl|]. apply Hrest. apply (bool_decide_eq_true_1 _). vm_compute. reflexivity.
Defined.

(** Lease recovery fails exactly the running executions whose lease has expired, each once,
    and reports for each whether its queue's retry limit allows another attempt; an execution whose
    lease is still valid, or that is not running, is untouched. *)
Theorem recover_stale_fails_expired `{EnvLaws} now n db out c' :
  results_wf db -> recover_stale now (Conn n db) = (Ok out, c') ->
  NoDup (rs_job_id <$> out) /\
  (forall k r, r_executions db !! k = Some r -> lease_expired now r ->
     r_executions (c_db c') !! k = Some (fail_row now "lease expired" r) /\
     mkRecoveredStale k (er_dispatch_id r)
       (bool_decide (er_execution_count r <= default 0 (qr_max_retries <$> r_queues db !! er_queue_name r))) ∈ out) /\
  (forall x, x ∈ out -> exists r, r_executions db !! rs_job_id x = Some r /\ lease_expired now r) /\
  (forall k, (forall r, r_executions db !! k = Some r -> ~ lease_expired now r) ->
     r_executions (c_db c') !! k = r_executions db !! k).
Proof.
  intros Hwf Hrun.
  enough (Hwp : wp (recover_stale now) (fun r c' => forall out, r = Ok out -> NoDup (rs_job_id <$> out) /\
      (forall x, x ∈ out <-> exists k r, r_executions db !! k = Some r /\ lease_expired now r /\
         x = recovery_of db k r) /\
      r_executions (c_db c') = fail_where (lease_expired now) now (r_executions db)) (Conn n db)).
  { destruct (wp_run _ _ _ _ _ Hwp Hrun out eq_refl) as (Hnd & Hout & ->). split_and!; [done| | |].
    - intros k r Hr Hexp. rewrite lookup_fail_where, Hr. cbn [fmap option_fmap option_map].
      rewrite decide_True by done. split; [done|]. apply Hout. by exists k, r.
    - intros x (k & r & Hr & Hexp & ->)%Hout. by exists r.
    - intros k Hk. rewrite lookup_fail_where. destruct (r_executions db !! k) as [r|]; [|done].
      cbn [fmap option_fmap option_map]. rewrite decide_False; [done|]. by apply Hk. }
  apply wp_recover_stale; [done|done|]. intros out0 n0 _ Hnd Hout out1 [= <-]. done.
Qed.

Lemma recover_stale_fails_expired_witness :
  results_wf example_results /\
  exists out c', recover_stale (E := model_env) 100 (Conn 0 example_results) = (Ok out, c') /\
    out = [mkRecoveredStale 2 "b" false] /\ NoDup (rs_job_id <$> out).
Proof.
  assert (Hwf : results_wf example_results) by (apply results_wf_decide; vm_compute; reflexivity).
  split; [exact Hwf|]. eexists _, _. split; [vm_compute; reflexivity|]. split; [reflexivity|].
  refine (proj1 (recover_stale_fails_expired (E := model_env) 100 0 example_results _ _ Hwf _)).
  vm_compute. reflexivity.
Defined.

(** A dispatch that names an execution which is running or completed always fails; but the check
    comes after the commit, so a failed dispatch either changed nothing or has left every other row
    it could start running. *)
Theorem dispatch_failure_is_not_atomic `{EnvLaws} rows row0 r0 n db r c' :
  row0 ∈ rows -> r_executions db !! di_job_id row0 = Some r0 -> ~ restartable r0 ->
  dispatch_batch rows (Conn n db) = (r, c') ->
  is_ok r = false /\
  (c_db c' = db \/
   forall row, row ∈ rows ->
     (forall r1, r_executions db !! di_job_id row = Some r1 -> restartable r1) ->
     exists r1, r_executions (c_db c') !! di_job_id row = Some r1 /\ running r1).
Proof.
  intros Hrow0 Hr0 Hnr Hrun. destruct (wp_run _ _ _ _ _ (wp_dispatch_batch rows (Conn n db)) Hrun)
    as (_ & [(e & -> & Hdb)|(now & t' & rws & Hdb & Hby & _ & Hr)]); simpl in *.
  { split; [done|by left]. }
  split.
  - destruct r as [out|e]; [exfalso|done]. destruct Hr as [_ Hall].
    apply list_elem_of_lookup in Hrow0 as [i Hi]. apply Forall2_same_length_lookup in Hall as [Hl Hall].
    destruct (out !! i) as [d|] eqn:Ed; [|apply lookup_ge_None in Ed; apply lookup_lt_Some in Hi; lia].
    destruct (Hall i _ _ Hi Ed) as (r & _ & Hs & _). rewrite Hr0 in Hs. by destruct Hs.
  - right. intros row Hrow Hre. rewrite Hdb. simpl.
    destruct (decide (di_job_id row ∈ rws.*1)) as [Hin|Hin].
    + apply elem_of_fst in Hin as [r1 Hr1]. apply (db_rows _ _ _ _ _ Hby) in Hr1 as (Hr1 & v & _ & _ & Hs).
      exists r1. split; [done|]. by apply starts_running in Hs as [? _].
    + apply (db_rest _ _ _ _ _ Hby) in Hin as [_ Hin]. destruct (Hin row Hrow eq_refl) as (r1 & Hr1 & Hn).
      by destruct Hn; apply Hre.
Qed.

Lemma dispatch_failure_is_not_atomic_witness :
  let rows := [mkDispatchInsert 9 "email" "f" 7000; mkDispatchInsert 3 "email" "e" 7000] in
  exists r c', dispatch_batch (E := model_env) rows (Conn 0 example_results) = (r, c') /\
    is_ok r = false /\ er_status <$> r_executions (c_db c') !! 9 = Some "running"%string.
Proof.
  intros rows. eexists _, _. split; [vm_compute; reflexivity|].
  split; [|vm_compute; reflexivity].
  refine (proj1 (dispatch_failure_is_not_atomic (E := model_env) rows (mkDispatchInsert 3 "email" "e" 7000)
    (example_execution 3 "completed" 1 None "c") 0 example_results _ _ _ _ _ _)).
  - right. left.
  - vm_compute. reflexivity.
  - intros [Hs|Hs]; discriminate Hs.
  - vm_compute. reflexivity.
Defined.
