(* ===== verification/StoreFacts.v ===== *)
(** * The SQLite store: its invariant

    The invariant that links the two databases, and rules of the program logic for the calls to
    the writers and for the operations built from them. *)
From S2P Require Import Prelude Types Db Tables Ingest Results ResultsFacts ResultsDispatch ResultsProps Store.

(** ** The invariant

    A job whose execution runs or is completed is claimed under that execution's dispatch id, so that
    an available job has no execution, or a failed one; no execution belongs to an id not handed out
    yet. *)
Record store_inv (s : store) : Prop := {
  si_ingest : ingest_wf (s_names s) (s_ingest s);
  si_results : results_wf (s_results s);
  si_linked : forall k a r, i_accepted (s_ingest s) !! k = Some a ->
    r_executions (s_results s) !! k = Some r -> restartable r \/ ar_dispatch_id a = Some (er_dispatch_id r);
  si_ids : forall k r, r_executions (s_results s) !! k = Some r -> k <= max_id (dom (i_accepted (s_ingest s)))
}.

(** There is room for the rowids an operation may need. *)
Definition store_room (s : store) : Prop :=
  max_id (er_ids (r_executions (s_results s))) + MAX_CLAIM_BATCH_SIZE < i64_max /\
  id_room (i_accepted (s_ingest s)) 1.

Lemma restartable_not_running r : restartable r -> ~ running r.
Proof. intros ? ?. by eapply running_not_restartable. Qed.

Lemma si_available s (Hinv : store_inv s) k a r :
  i_accepted (s_ingest s) !! k = Some a -> ar_dispatch_id a = None ->
  r_executions (s_results s) !! k = Some r -> restartable r.
Proof. intros Ha Hn Hr. destruct (si_linked s Hinv k a r Ha Hr); [done|congruence]. Qed.

Lemma si_running s (Hinv : store_inv s) k a r :
  i_accepted (s_ingest s) !! k = Some a -> r_executions (s_results s) !! k = Some r -> running r ->
  ar_dispatch_id a = Some (er_dispatch_id r).
Proof. intros Ha Hr Hrun. destruct (si_linked s Hinv k a r Ha Hr); [|done]. by destruct (restartable_not_running r). Qed.

(** A failed row is restartable. *)
Lemma fail_row_restartable now m r : restartable (fail_row now m r).
Proof. by left. Qed.

(** ** Steps that keep the invariant *)

Section inv.
Context `{EL : EnvLaws}.
Implicit Types (s : store).

(** The accepted rows change their claims only. *)
Lemma inv_accepted s t :
  store_inv s -> same_jobs (i_accepted (s_ingest s)) t -> dom t = dom (i_accepted (s_ingest s)) ->
  (forall k a r, t !! k = Some a -> r_executions (s_results s) !! k = Some r ->
     restartable r \/ ar_dispatch_id a = Some (er_dispatch_id r)) ->
  store_inv (set_ingest (set_accepted t (s_ingest s)) s).
Proof.
  intros [Hi Hr Hl Hids] Hs Hd Ht. split; simpl; [by apply ingest_wf_same|done|done|].
  - intros k r Hk. rewrite Hd. by apply (Hids k r).
Qed.

(** The executions change, and stay linked to the accepted rows. *)
Lemma inv_executions s t :
  store_inv s -> exec_wf (dom (r_queues (s_results s))) t ->
  (forall k r, t !! k = Some r ->
     k <= max_id (dom (i_accepted (s_ingest s))) /\
     (forall a, i_accepted (s_ingest s) !! k = Some a ->
        restartable r \/ ar_dispatch_id a = Some (er_dispatch_id r))) ->
  store_inv (set_results (set_executions t (s_results s)) s).
Proof.
  intros [Hi Hr Hl Hids] Hwf Ht. split; simpl; [done|done| |].
  - intros k a r Hk Hx. destruct (Ht k r Hx) as [_ Ht']. by apply (Ht' a).
  - intros k r Hk. by destruct (Ht k r Hk).
Qed.

Lemma same_jobs_claim now m t : same_jobs t (claim_update now m t).
Proof. unfold claim_update. apply same_jobs_update_keys. by intros. Qed.

Lemma inv_claim s now m :
  store_inv s ->
  (forall k, is_Some (m !! k) -> exists a, i_accepted (s_ingest s) !! k = Some a /\ ar_dispatch_id a = None) ->
  store_inv (set_ingest (set_accepted (claim_update now m (i_accepted (s_ingest s))) (s_ingest s)) s).
Proof.
  intros Hinv Hm. apply inv_accepted; [done|apply same_jobs_claim|unfold claim_update; apply dom_update_keys|].
  intros k a r Hk Hx. unfold claim_update in Hk. rewrite lookup_update_keys in Hk.
  destruct (i_accepted (s_ingest s) !! k) as [a0|] eqn:Ea; simplify_eq/=.
  destruct (m !! k) as [d|] eqn:Ed.
  - destruct (Hm k) as (a1 & Ea1 & Hn); [by eexists|]. simplify_eq. left. by apply (si_available s Hinv k a0).
  - by apply (si_linked s Hinv k a0).
Qed.

Lemma inv_repend s now k d :
  store_inv s ->
  (forall a r, i_accepted (s_ingest s) !! k = Some a -> ar_dispatch_id a = Some d ->
     r_executions (s_results s) !! k = Some r -> restartable r) ->
  store_inv (set_ingest (set_accepted (repend_update now k d (i_accepted (s_ingest s))) (s_ingest s)) s).
Proof.
  intros Hinv Hk. apply inv_accepted; [done|..].
  - intros i r'. unfold repend_update. rewrite lookup_alter_Some.
    intros [(<- & r & Hr & ->)|[_ Hr]]; [|by eexists]. exists r. split; [done|]. by case_decide.
  - apply dom_alter_L.
  - intros i a r. unfold repend_update. rewrite lookup_alter_Some.
    intros [(<- & a0 & Ha & ->)|[Hne Ha]] Hx.
    + case_decide as Hd; [left; by apply (Hk a0)|by apply (si_linked s Hinv k a0)].
    + by apply (si_linked s Hinv i a).
Qed.

Lemma inv_completed s now ps t' :
  store_inv s -> completed_by now ps (r_executions (s_results s)) t' ->
  store_inv (set_results (set_executions t' (s_results s)) s).
Proof.
  intros Hinv Hby. apply inv_executions; [done|by eapply completed_by_wf, Hinv|].
  intros k r Hr. specialize (Hby k). destruct (r_executions (s_results s) !! k) as [r0|] eqn:E0; [|congruence].
  split; [by apply (si_ids s Hinv k r0)|]. intros a Ha.
  destruct Hby as [(p & _ & (_ & _ & Hrun) & E')|[_ E']]; rewrite E' in Hr; simplify_eq.
  - right. rewrite (si_running s Hinv k a r0) by done. by destruct (pcm_outcome p).
  - by apply (si_linked s Hinv k a).
Qed.

Lemma inv_fail_where s P `{!forall r, Decision (P r)} now :
  store_inv s -> (forall r, P r -> running r) ->
  store_inv (set_results (set_executions (fail_where P now (r_executions (s_results s))) (s_results s)) s).
Proof.
  intros Hinv HP. apply inv_executions; [done|by apply fail_where_wf, Hinv|].
  intros k r. rewrite lookup_fail_where. destruct (r_executions (s_results s) !! k) as [r0|] eqn:E0; [|done].
  cbn [fmap option_fmap option_map]. intros [= <-]. split; [by apply (si_ids s Hinv k r0)|].
  intros a Ha. destruct (decide (P r0)) as [Hp|Hp]; [left; apply fail_row_restartable|].
  by apply (si_linked s Hinv k a).
Qed.

(** Starting executions for jobs claimed under the same dispatch ids. *)
Lemma inv_dispatched s now vs t' rws :
  store_inv s -> dispatched_by now vs (r_executions (s_results s)) t' rws ->
  exec_wf (dom (r_queues (s_results s))) t' ->
  (forall v, v ∈ vs -> exists a, i_accepted (s_ingest s) !! di_job_id v = Some a /\
     ar_dispatch_id a = Some (di_dispatch_id v)) ->
  store_inv (set_results (set_executions t' (s_results s)) s).
Proof.
  intros Hinv Hby Hwf Hvs. apply inv_executions; [done|done|]. intros k r Hr.
  destruct (decide (k ∈ rws.*1)) as [Hk|Hk].
  - apply elem_of_fst in Hk as [r1 Hk]. apply (db_rows _ _ _ _ _ Hby) in Hk as (Hr1 & v & Hv & <- & Hs).
    simplify_eq. apply starts_running in Hs as (Hrun & Hd & _ & _).
    destruct (Hvs v Hv) as (a & Ha & Hda). split; [by apply max_id_ge, elem_of_dom_2 with a|].
    intros a' Ha'. simplify_eq. right. by rewrite Hda, Hd.
  - apply (db_rest _ _ _ _ _ Hby) in Hk as [Hk _]. rewrite Hk in Hr.
    split; [by apply (si_ids s Hinv k r)|]. intros a Ha. by apply (si_linked s Hinv k a).
Qed.
End inv.

(** ** Calls *)

Section calls.
Context `{EL : EnvLaws}.

Lemma wp_ingest_call {A} build read (Q : Result A -> conn store -> Prop) c :
  wp (handle (build 0%nat) (s_names (c_db c))) (fun r c' =>
    match r with
    | Ok (replies, names) => Q (received read "ingest writer dropped reply" replies)
        (Conn (c_step c') (mkStore names (c_db c') (s_results (c_db c))))
    | Err e => Q (Err e) (Conn (c_step c') (set_ingest (c_db c') (c_db c)))
    end) (Conn (c_step c) (s_ingest (c_db c))) ->
  wp (ingest_call build read) Q c.
Proof. unfold wp, ingest_call. by destruct (handle _ _ _) as [[[replies names]|e] c']. Qed.

Lemma wp_results_call {A} build read (Q : Result A -> conn store -> Prop) c :
  wp (r_handle (build 0%nat)) (fun r c' =>
    match r with
    | Ok replies => Q (received read "results writer dropped reply" replies)
        (Conn (c_step c') (set_results (c_db c') (c_db c)))
    | Err e => Q (Err e) (Conn (c_step c') (set_results (c_db c') (c_db c)))
    end) (Conn (c_step c) (s_results (c_db c))) ->
  wp (results_call build read) Q c.
Proof. unfold wp, results_call. by destruct (r_handle _ _) as [[replies|e] c']. Qed.

Lemma wp_call_claim_batch q limit c (Q : Result (list IngestClaimed) -> conn store -> Prop) :
  (forall e n, (c_step c <= n)%nat -> Q (Err e) (Conn n (c_db c))) ->
  (let rows := select_pending q (clamp limit 1 MAX_CLAIM_BATCH_SIZE) (s_ingest (c_db c)) in
   forall now ds n, (c_step c <= n)%nat -> length ds = length rows -> new_ids (c_step c) n ds ->
     Q (Ok (zip_with claimed_of rows ds))
       (Conn n (set_ingest (set_accepted (claim_update now (list_to_map (zip (pc_id <$> rows) ds))
                  (i_accepted (s_ingest (c_db c)))) (s_ingest (c_db c))) (c_db c)))) ->
  wp (call_claim_batch q limit) Q c.
Proof.
  destruct c as [s0 [names ing res]]. simpl. intros Herr Hok. apply wp_ingest_call. cbn [handle]. wp_rule. wp_rule.
  eapply wp_mono; [apply wp_claim_batch|]. simpl. intros r [n db] [Hs Hr]. wp_rules.
  destruct r as [claimed|e]; simpl in *; [|subst; by apply Herr].
  destruct Hr as (_ & now & ds & Hl & Hids & -> & ->). by apply Hok.
Qed.

Lemma wp_call_repend k d c (Q : Result unit -> conn store -> Prop) :
  (forall e n, (c_step c <= n)%nat -> Q (Err e) (Conn n (c_db c))) ->
  (forall now n, (c_step c <= n)%nat -> Q (Ok tt)
     (Conn n (set_ingest (set_accepted (repend_update now k d (i_accepted (s_ingest (c_db c))))
                (s_ingest (c_db c))) (c_db c)))) ->
  wp (call_repend k d) Q c.
Proof.
  destruct c as [s0 [names ing res]]. simpl. intros Herr Hok. apply wp_ingest_call. cbn [handle]. wp_rule. wp_rule.
  eapply wp_mono; [apply wp_repend|]. simpl. intros r [n db] [Hs Hr]. wp_rules.
  destruct r as [[]|e]; simpl in *; [|subst; by apply Herr]. destruct Hr as [now ->]. by apply Hok.
Qed.

Lemma wp_call_complete k d outcome c (Q : Result CompletionDisposition -> conn store -> Prop) :
  let p := mkPendingCompletion k d outcome 0 0 in
  (forall e n, Q (Err e) (Conn n (c_db c))) ->
  (forall now t' n, completed_by now [p] (r_executions (s_results (c_db c))) t' ->
     Q (Ok (disposition (s_results (c_db c)) p))
       (Conn n (set_results (set_executions t' (s_results (c_db c))) (c_db c)))) ->
  wp (call_complete k d outcome) Q c.
Proof.
  destruct c as [s0 [names ing res]]. simpl. intros Herr Hok. apply wp_results_call. cbn [r_handle].
  wp_rule. wp_rule. cbn beta iota. wp_rule. eapply wp_mono; [apply wp_complete_batch|].
  intros r [n db] (out & -> & [(e & -> & Hdb)|(now & ds & dd & t' & -> & Hl & Hdb & Hby & _ & Hds)]);
    simpl in Hdb; wp_rules; subst db; [apply Herr|].
  rewrite Hds by (apply NoDup_singleton). simpl in *. apply (Hok now). intros i. specialize (Hby i).
  destruct (r_executions res !! i) as [r|]; [|done].
  destruct Hby as [(p & ->%list_elem_of_singleton & Hc & ?)|[Hn ?]].
  - left. eexists. split; [left|]. split; [exact Hc|done].
  - right. split; [|done]. intros p ->%list_elem_of_singleton Hc. eapply Hn; [left|exact Hc].
Qed.

Lemma wp_call_abandon k d c (Q : Result unit -> conn store -> Prop) :
  (forall e n, Q (Err e) (Conn n (c_db c))) ->
  (forall now t' n, completed_by now [abandonment k d] (r_executions (s_results (c_db c))) t' ->
     Q (Ok tt) (Conn n (set_results (set_executions t' (s_results (c_db c))) (c_db c)))) ->
  wp (call_abandon k d) Q c.
Proof.
  destruct c as [s0 [names ing res]]. simpl. intros Herr Hok. apply wp_results_call. cbn [r_handle].
  wp_rule. wp_rule. apply wp_abandon; simpl; [intros; wp_rules; apply Herr|].
  intros now t' n _ Hby. wp_rules. by apply (Hok now).
Qed.

Lemma wp_call_recover_stale now c (Q : Result (list RecoveredStale) -> conn store -> Prop) :
  results_wf (s_results (c_db c)) ->
  (forall e n, Q (Err e) (Conn n (c_db c))) ->
  (forall out n, NoDup (rs_job_id <$> out) ->
     (forall x, x ∈ out <-> exists k r, r_executions (s_results (c_db c)) !! k = Some r /\
        lease_expired now r /\ x = recovery_of (s_results (c_db c)) k r) ->
     Q (Ok out) (Conn n (set_results (set_executions
       (fail_where (lease_expired now) now (r_executions (s_results (c_db c)))) (s_results (c_db c))) (c_db c)))) ->
  wp (call_recover_stale now) Q c.
Proof.
  destruct c as [s0 [names ing res]]. simpl. intros Hwf Herr Hok. apply wp_results_call. cbn [r_handle].
  wp_rule. wp_rule. apply wp_recover_stale; simpl; [done|intros; wp_rules; apply Herr|].
  intros out n _ Hnd Hout. wp_rules. by apply Hok.
Qed.

Lemma wp_call_dispatch rows c (Q : Result (list DispatchedExecution) -> conn store -> Prop) :
  (forall r c', dispatch_post rows (Conn (c_step c) (s_results (c_db c))) r c' ->
     Q r (Conn (c_step c') (set_results (c_db c') (c_db c)))) ->
  wp (call_dispatch rows) Q c.
Proof.
  destruct c as [s0 [names ing res]]. simpl. intros HQ. apply wp_results_call. cbn [r_handle].
  wp_rule. wp_rule. eapply wp_mono; [apply wp_dispatch_batch|]. intros r c' Hr. wp_rules. by apply HQ.
Qed.
End calls.

(** ** Claiming *)

Section claim.
Context `{EL : EnvLaws}.

Definition pending_rows (q : string) (limit : Z) (s : store) : list PendingClaim :=
  select_pending q (clamp limit 1 MAX_CLAIM_BATCH_SIZE) (s_ingest s).

(** A job as handed out by a claim: it was available, and runs now, as the job says. *)
Definition handed_out (s s' : store) (job : Job) : Prop :=
  exists a r d,
    i_accepted (s_ingest s) !! job_id job = Some a /\ ar_dispatch_id a = None /\
    ar_queue_name a = job_name job /\ ar_payload a = job_payload job /\
    r_executions (s_results s') !! job_id job = Some r /\ running r /\ er_dispatch_id r = d /\
    (exists now, i_accepted (s_ingest s') !! job_id job = Some (set_dispatch_id (Some d) now a)) /\
    job_dispatch_id job = Some d /\ job_status job = Running /\
    job_execution_count job = er_execution_count r /\
    er_lease_expires_at r = job_lease_expires_at job /\
    er_execution_count r = match r_executions (s_results s) !! job_id job with
                           | None => 1 | Some r0 => er_execution_count r0 + 1 end.

Definition claim_post (q : string) (limit : Z) (s : store) (res : Result (list Job)) (s' : store) : Prop :=
  store_inv s' /\ dom (i_accepted (s_ingest s')) = dom (i_accepted (s_ingest s)) /\
  match res with
  | Ok jobs =>
      job_id <$> jobs = pc_id <$> pending_rows q limit s /\
      (forall job, job ∈ jobs -> job_name job = q /\ handed_out s s' job) /\
      (forall k, k ∉ job_id <$> jobs ->
         i_accepted (s_ingest s') !! k = i_accepted (s_ingest s) !! k /\
         r_executions (s_results s') !! k = r_executions (s_results s) !! k)
  | Err _ => s_results s' = s_results s
  end.

Lemma pending_ready q limit s :
  chunk_ready (pending_rows q limit s) (i_accepted (s_ingest s)).
Proof. apply select_pending_ready. Qed.

(** The release of a claim that could not be dispatched. *)
Lemma wp_release_all (claimed : list IngestClaimed) s0 c (Q : Result (list (Result unit)) -> conn store -> Prop) :
  store_inv (c_db c) -> s_results (c_db c) = s_results s0 ->
  dom (i_accepted (s_ingest (c_db c))) = dom (i_accepted (s_ingest s0)) ->
  (forall x r, x ∈ claimed -> r_executions (s_results s0) !! ic_id x = Some r -> restartable r) ->
  (forall rs c', store_inv (c_db c') -> s_results (c_db c') = s_results s0 ->
     dom (i_accepted (s_ingest (c_db c'))) = dom (i_accepted (s_ingest s0)) -> Q (Ok rs) c') ->
  wp (for_each (fun row => attempt (call_repend (ic_id row) (ic_dispatch_id row))) claimed) Q c.
Proof.
  intros Hinv Hres Hdom Hre HQ.
  apply (wp_for_each _ _ (fun _ _ c => store_inv (c_db c) /\ s_results (c_db c) = s_results s0 /\
    dom (i_accepted (s_ingest (c_db c))) = dom (i_accepted (s_ingest s0)))); [done| |].
  - intros done x rest ys c' -> (Hi & Hr & Hd). wp_rule. apply wp_call_repend; [done|].
    intros now n _. simpl. split; [|split; [done|]].
    + apply inv_repend; [done|]. intros a r _ _ Hx. rewrite Hr in Hx.
      apply (Hre x r); [|done]. apply elem_of_app. right. by left.
    + rewrite <-Hd. apply dom_alter_L.
  - intros ys c' (? & ? & ?). by apply HQ.
Qed.

Lemma claimed_dispatch_ids_lookup rows ds x :
  NoDup (pc_id <$> rows) -> length ds = length rows -> x ∈ zip_with claimed_of rows ds ->
  (list_to_map (zip (pc_id <$> rows) ds) : gmap Z string) !! ic_id x = Some (ic_dispatch_id x).
Proof.
  intros Hnd Hl (p & d & Hpd & _ & ->)%claimed_of_lookup; [|done]. simpl.
  apply lookup_zip_map in Hpd; [done|done|by rewrite length_fmap].
Qed.

Lemma elem_of_pending_rows q limit s p :
  p ∈ pending_rows q limit s ->
  exists a, i_accepted (s_ingest s) !! pc_id p = Some a /\ ar_queue_name a = q /\ ar_dispatch_id a = None /\
    pc_name p = q /\ pc_payload p = ar_payload a /\ pc_created_at p = ar_created_at a.
Proof. apply elem_of_select_pending. Qed.

(** What the first half of a claim, the ingest writer's, has done. *)
Record claimed_ok (q : string) (limit : Z) (s s1 : store) (claimed : list IngestClaimed) : Prop := {
  cl_inv : store_inv s1;
  cl_results : s_results s1 = s_results s;
  cl_dom : dom (i_accepted (s_ingest s1)) = dom (i_accepted (s_ingest s));
  cl_ids : ic_id <$> claimed = pc_id <$> pending_rows q limit s;
  cl_rows : forall x, x ∈ claimed -> exists a now, i_accepted (s_ingest s) !! ic_id x = Some a /\
    ar_dispatch_id a = None /\ ar_queue_name a = q /\ ic_name x = q /\ ar_payload a = ic_payload x /\
    i_accepted (s_ingest s1) !! ic_id x = Some (set_dispatch_id (Some (ic_dispatch_id x)) now a);
  cl_rest : forall k, k ∉ ic_id <$> claimed -> i_accepted (s_ingest s1) !! k = i_accepted (s_ingest s) !! k;
  cl_len : Z.of_nat (length claimed) <= MAX_CLAIM_BATCH_SIZE
}.

Lemma claimed_ok_restartable q limit s s1 claimed x r :
  store_inv s -> claimed_ok q limit s s1 claimed -> x ∈ claimed ->
  r_executions (s_results s) !! ic_id x = Some r -> restartable r.
Proof.
  intros Hinv Hcl Hx Hr. destruct (cl_rows _ _ _ _ _ Hcl x Hx) as (a & _ & Ha & Hn & _).
  by apply (si_available s Hinv (ic_id x) a).
Qed.

Lemma wp_claim_step q limit c :
  store_inv (c_db c) ->
  wp (call_claim_batch q limit) (fun r c' =>
    match r with Ok claimed => claimed_ok q limit (c_db c) (c_db c') claimed | Err _ => c_db c' = c_db c end) c.
Proof.
  intros Hinv. apply wp_call_claim_batch; [done|]. simpl. fold (pending_rows q limit (c_db c)).
  set (s := c_db c) in *. set (rows := pending_rows q limit s).
  intros now ds n _ Hl Hids. destruct (pending_ready q limit s) as [Hnd Hfree]. fold rows in Hnd, Hfree.
  set (m := list_to_map (zip (pc_id <$> rows) ds) : gmap Z string).
  assert (Hcid : ic_id <$> zip_with claimed_of rows ds = pc_id <$> rows) by (by apply claimed_of_ids).
  split.
  - apply inv_claim; [done|]. intros k [d Hd]. apply Hfree. apply elem_of_list_to_map_2 in Hd.
    by eapply elem_of_zip_l.
  - done.
  - simpl. unfold claim_update. apply dom_update_keys.
  - done.
  - intros x Hx. pose proof (claimed_dispatch_ids_lookup rows ds x Hnd Hl Hx) as Hm.
    apply claimed_of_lookup in Hx as (p & d & _ & Hp & ->); [|done]. simpl in Hm.
    destruct (elem_of_pending_rows _ _ _ _ Hp) as (a & Ha & Hq & Hn & Hname & Hpay & _).
    exists a, now. simpl. split_and!; [done..|].
    unfold claim_update. rewrite lookup_update_keys, Ha. simpl. fold m. fold m in Hm. by rewrite Hm.
  - intros k Hk. simpl. unfold claim_update. rewrite Hcid in Hk.
    rewrite lookup_update_keys. unfold m. rewrite list_to_map_zip_None by done. by destruct (_ !! k).
  - rewrite <-(length_fmap ic_id), Hcid, length_fmap. unfold rows, pending_rows.
    pose proof (clamp_bounds limit 1 MAX_CLAIM_BATCH_SIZE ltac:(done)).
    etrans; [apply select_pending_length; lia|lia].
Qed.

(** The second half: the results writer starts an execution for each claimed job, or for none. *)
Lemma dispatch_claimed q limit s s1 claimed at_ n res c' :
  store_inv s -> store_room s -> claimed_ok q limit s s1 claimed ->
  dispatch_post (dispatch_row at_ <$> claimed) (Conn n (s_results s1)) res c' ->
  match res with
  | Err _ => c_db c' = s_results s1
  | Ok dispatched => claim_post q limit s (Ok (zip_with job_from_claimed claimed dispatched)) (set_results (c_db c') s1)
  end.
Proof.
  intros Hinv [Hroom _] Hcl [_ Hpost].
  assert (Hdi : di_job_id <$> (dispatch_row at_ <$> claimed) = pc_id <$> pending_rows q limit s).
  { rewrite <-(cl_ids _ _ _ _ _ Hcl), <-list_fmap_compose. done. }
  assert (Hvs : forall v, v ∈ dispatch_row at_ <$> claimed -> exists x, x ∈ claimed /\ v = dispatch_row at_ x).
  { intros v (x & -> & Hx)%list_elem_of_fmap. eauto. }
  simpl in Hpost. rewrite (cl_results _ _ _ _ _ Hcl) in *.
  destruct Hpost as [(e & -> & Hdb)|(now2 & t' & rws & Hdb & Hby & Hkeep & Hout)]; [done|].
  destruct res as [out|e].
  2:{ exfalso. destruct Hout as [Hn|(row & (x & Hx & ->)%Hvs & Hn)].
      { rewrite Hdi in Hn. by destruct (pending_ready q limit s). }
      apply (db_rest _ _ _ _ _ Hby) in Hn as [_ Hn].
      destruct (Hn (dispatch_row at_ x)) as (r & Hr & Hnr); [by apply list_elem_of_fmap_2|done|].
      apply Hnr. by eapply claimed_ok_restartable. }
  destruct Hout as [_ Hall]. rewrite Hdb.
  assert (Hlen : length out = length claimed).
  { apply Forall2_length in Hall. by rewrite length_fmap in Hall. }
  assert (Hids : job_id <$> zip_with job_from_claimed claimed out = ic_id <$> claimed).
  { by apply fmap_zip_with_fst. }
  split_and!.
  - replace (s_results s) with (s_results s1) by apply Hcl.
    apply (inv_dispatched s1 now2 (dispatch_row at_ <$> claimed) t' rws); [apply Hcl| | |].
    + by rewrite (cl_results _ _ _ _ _ Hcl).
    + rewrite (cl_results _ _ _ _ _ Hcl). apply (Hkeep 0%nat); [apply Hinv|]. unfold exec_room.
      rewrite length_fmap. pose proof (cl_len _ _ _ _ _ Hcl). lia.
    + intros v (x & Hx & ->)%Hvs. destruct (cl_rows _ _ _ _ _ Hcl x Hx) as (a & now & _ & _ & _ & _ & _ & Ha1).
      eexists. split; [exact Ha1|done].
  - apply Hcl.
  - rewrite Hids. apply Hcl.
  - intros job Hjob. apply elem_of_lookup_zip_with in Hjob as (i & x & d & -> & Hx & Hd).
    apply Forall2_same_length_lookup in Hall as [_ Hall].
    destruct (Hall i (dispatch_row at_ x) d) as (r & Hr & Hs & ->); [by rewrite list_lookup_fmap, Hx|done|].
    apply list_elem_of_lookup_2 in Hx.
    destruct (cl_rows _ _ _ _ _ Hcl x Hx) as (a & now & Ha & Hn & Hq & Hname & Hpay & Ha1).
    simpl in *. split; [done|]. exists a, r, (ic_dispatch_id x). simpl.
    pose proof (starts_running _ _ _ _ Hs) as (Hrun & Hdi' & Hlease & _). simpl in Hdi', Hlease.
    split_and!; try done; [congruence|by exists now|].
    destruct (r_executions (s_results s) !! ic_id x) as [r0|]; simpl in Hs; [by destruct Hs as [_ ->]|by destruct Hs as [? ->]].
  - intros k. rewrite Hids. intros Hk. split; [by apply (cl_rest _ _ _ _ _ Hcl)|]. simpl.
    apply (db_rest _ _ _ _ _ Hby). intros [r Hr]%elem_of_fst.
    apply (db_rows _ _ _ _ _ Hby) in Hr as (_ & v & (x & Hx & ->)%Hvs & <- & _).
    apply Hk. apply list_elem_of_fmap. by exists x.
Qed.

Lemma wp_claim_batch_inner q limit c :
  store_inv (c_db c) -> store_room (c_db c) ->
  wp (claim_batch_inner q limit) (fun r c' => claim_post q limit (c_db c) r (c_db c')) c.
Proof.
  intros Hinv Hroom. unfold claim_batch_inner. wp_rule.
  eapply wp_mono; [by apply wp_claim_step|]. intros [claimed|e] c1 Hcl; [|by rewrite Hcl; split_and!].
  destruct claimed as [|x0 claimed0] eqn:Ecl.
  { wp_rule. pose proof (cl_ids _ _ _ _ _ Hcl) as Hids. split; [apply Hcl|]. split; [apply Hcl|].
    split; [done|]. split; [by intros ? ?%elem_of_nil|]. intros k Hk.
    split; [by apply (cl_rest _ _ _ _ _ Hcl)|]. by rewrite (cl_results _ _ _ _ _ Hcl). }
  rewrite <-Ecl in *. clear x0 claimed0 Ecl.
  wp_rule. wp_rule. cbn beta iota. wp_rule. wp_rule. apply wp_call_dispatch. cbn [c_step c_db].
  intros res c' Hpost. eapply dispatch_claimed in Hpost; [|done..].
  destruct res as [out|e]; [by wp_rule|]. wp_rule.
  apply (wp_release_all claimed (c_db c1)); cbn [c_db]; rewrite ?Hpost.
  - replace (set_results _ _) with (c_db c1) by (by destruct (c_db c1)). apply Hcl.
  - done.
  - done.
  - intros x r Hx Hr. rewrite (cl_results _ _ _ _ _ Hcl) in Hr. by eapply claimed_ok_restartable.
  - intros rs c2 Hi Hr Hd. wp_rule. split; [done|]. rewrite Hd, Hr.
    split; [apply Hcl|apply Hcl].
Qed.
End claim.

(** ** The other operations *)

Section operations.
Context `{EL : EnvLaws}.

(** Whatever happens, the operation keeps the invariant. *)
Definition keeps_inv {A} (m : M store A) (c : conn store) : Prop :=
  wp m (fun _ c' => store_inv (c_db c')) c.

Lemma completed_by_running now p t t' r :
  completed_by now [p] t t' -> running_under t (pcm_key p) = Some r ->
  t' !! pcm_job_id p = Some (outcome_row now (pcm_outcome p) r).
Proof.
  intros Hby (Hr & Hd & Hrun)%running_under_Some. specialize (Hby (pcm_job_id p)). simpl in *.
  rewrite Hr in Hby. destruct Hby as [(p' & ->%list_elem_of_singleton & _ & ?)|[Hn _]]; [done|].
  destruct (Hn p); [by left|done].
Qed.

Lemma completed_by_not_running now p t t' :
  completed_by now [p] t t' -> running_under t (pcm_key p) = None -> t' = t.
Proof.
  intros Hby Hn. apply map_eq. intros k. specialize (Hby k).
  destruct (t !! k) as [r|] eqn:Er; [|done].
  destruct Hby as [(p' & ->%list_elem_of_singleton & (-> & Hd & Hrun) & _)|[_ ?]]; [|done].
  assert (running_under t (pcm_key p) = Some r) by (by apply running_under_Some). congruence.
Qed.

(** A completion whose disposition is [Repend] has failed its execution. *)
Lemma repend_is_restartable now k d outcome db t' r :
  let p := mkPendingCompletion k d outcome 0 0 in
  completed_by now [p] (r_executions db) t' -> disposition db p = Repend ->
  t' !! k = Some r -> restartable r.
Proof.
  intros p Hby Hd Hr. unfold disposition in Hd.
  destruct (running_under (r_executions db) (pcm_key p)) as [r0|] eqn:E0; [|done].
  rewrite (completed_by_running _ _ _ _ _ Hby E0 : t' !! k = _) in Hr. simplify_eq.
  simpl in *. destruct outcome; [done|]. apply fail_row_restartable.
Qed.

(** Reading a job changes nothing. *)
Lemma wp_composed_same k c : wp (composed_job k) (fun _ c' => c_db c' = c_db c) c.
Proof.
  unfold composed_job. wp_rule. apply wp_query; [done|]. intros a _. wp_rule. apply wp_query; [done|]. intros o _. by wp_rule.
Qed.

Lemma composed_job_inv k c : store_inv (c_db c) -> keeps_inv (composed_job k) c.
Proof.
  intros Hinv. unfold keeps_inv. eapply wp_mono; [apply wp_composed_same|]. by intros r c' ->.
Qed.

Lemma complete_inv_ok k d outcome c : store_inv (c_db c) -> keeps_inv (complete k d outcome) c.
Proof.
  intros Hinv. unfold keeps_inv, complete. wp_rule. apply wp_call_complete; [done|].
  intros now t' n Hby. pose proof (inv_completed (c_db c) now _ t' Hinv Hby) as Hinv1.
  assert (Hjob : forall c0, store_inv (c_db c0) -> wp (Some <$> composed_job k) (fun _ c' => store_inv (c_db c')) c0).
  { intros c0 H0. unfold fmap, M_fmap. wp_rule. eapply wp_mono; [by apply composed_job_inv|].
    intros [j|e] c' H'; by try wp_rule. }
  destruct (disposition _ _) eqn:Ed; [by wp_rule|by apply Hjob|].
  wp_rule. apply wp_call_repend; [done|]. intros now2 n2 _. apply Hjob. apply inv_repend; [done|].
  intros a r _ _. simpl. intros Hr. by eapply repend_is_restartable.
Qed.

Lemma complete_worker_result_inv k d outcome c :
  store_inv (c_db c) -> keeps_inv (complete_worker_result k d outcome) c.
Proof.
  intros Hinv. unfold keeps_inv, complete_worker_result. wp_rule. apply wp_call_complete; [done|].
  intros now t' n Hby. pose proof (inv_completed (c_db c) now _ t' Hinv Hby) as Hinv1.
  destruct (disposition _ _) eqn:Ed; [by wp_rule..|].
  wp_rule. apply wp_call_repend; [done|]. intros now2 n2 _. wp_rule. apply inv_repend; [done|].
  intros a r _ _. simpl. intros Hr. by eapply repend_is_restartable.
Qed.

(** The claim [d] of a job may be released unless its execution is completed under [d]. *)
Definition not_completed (s : store) (k : Z) (d : string) : Prop :=
  forall r, r_executions (s_results s) !! k = Some r -> er_dispatch_id r = d -> running r \/ restartable r.

Lemma release_restartable s now k d t' a r :
  store_inv s -> not_completed s k d -> completed_by now [abandonment k d] (r_executions (s_results s)) t' ->
  i_accepted (s_ingest s) !! k = Some a -> ar_dispatch_id a = Some d -> t' !! k = Some r -> restartable r.
Proof.
  intros Hinv Hnc Hby Ea Hd Hr. destruct (running_under (r_executions (s_results s)) (k, d)) as [r0|] eqn:E0.
  - rewrite (completed_by_running _ _ _ _ r0 Hby E0 : t' !! k = _) in Hr. simplify_eq.
    apply fail_row_restartable.
  - rewrite (completed_by_not_running _ _ _ _ Hby E0) in Hr.
    destruct (si_linked _ Hinv k a r Ea Hr) as [?|Hdr]; [done|].
    destruct (Hnc r Hr) as [Hrun|?]; [congruence| |done].
    assert (running_under (r_executions (s_results s)) (k, d) = Some r); [|congruence].
    apply running_under_Some. split; [done|]. split; [|done]. simpl. congruence.
Qed.

Lemma release_claim_inv k d c :
  store_inv (c_db c) -> not_completed (c_db c) k d -> keeps_inv (release_claim k d) c.
Proof.
  intros Hinv Hnc. unfold keeps_inv, release_claim. wp_rule. apply wp_query; [done|].
  intros accepted Hacc. destruct (i_accepted (s_ingest (c_db c)) !! k) as [a|] eqn:Ea; simplify_eq/=.
  case_decide as Hd; [|by wp_rule]. wp_rule. apply wp_call_abandon; [done|]. intros now t' n Hby.
  pose proof (inv_completed (c_db c) now _ t' Hinv Hby) as Hinv1.
  wp_rule. apply wp_call_repend; [done|]. intros now2 n2 _. wp_rule. apply inv_repend; [done|].
  simpl. intros a' r Ha' _ Hr. simplify_eq. by apply (release_restartable (c_db c) now k d t' a r).
Qed.

Lemma recover_stale_leases_inv now c : store_inv (c_db c) -> keeps_inv (recover_stale_leases now) c.
Proof.
  intros Hinv. unfold keeps_inv, recover_stale_leases. wp_rule.
  apply wp_call_recover_stale; [apply Hinv|done|]. intros out n Hnd Hout.
  set (t' := fail_where _ _ _) in *.
  apply (wp_for_each _ _ (fun _ _ c' => store_inv (c_db c') /\
    r_executions (s_results (c_db c')) = t')).
  - split; [|done]. apply inv_fail_where; [done|]. by intros r [? _].
  - intros done x rest ys c1 -> [Hi Ht].
    assert (Hx : forall r, t' !! rs_job_id x = Some r -> restartable r).
    { destruct (proj1 (Hout x)) as (k & r0 & Hr0 & Hexp & ->); [apply elem_of_app; right; by left|].
      intros r. unfold t'. simpl. rewrite lookup_fail_where, Hr0. cbn [fmap option_fmap option_map].
      rewrite decide_True by done. intros [= <-]. apply fail_row_restartable. }
    unfold recover_one. wp_rule.
    assert (Hread : forall c2, store_inv (c_db c2) -> r_executions (s_results (c_db c2)) = t' ->
      wp (accepted ← accepted_row_of (rs_job_id x); execution ← execution_of (rs_job_id x);
          mret (merge_job accepted execution))
        (fun r c'' => match r with Ok _ => store_inv (c_db c'') /\ r_executions (s_results (c_db c'')) = t'
                                 | Err _ => store_inv (c_db c'') end) c2).
    { intros c2 Hi2 Ht2. wp_rule. apply wp_query; [done|]. intros a _. wp_rule. apply wp_query; [done|].
      intros o _. by wp_rule. }
    destruct (rs_should_repend x).
    + apply wp_call_repend; [done|]. intros now2 n2 _. apply Hread; [|done].
      apply inv_repend; [done|]. intros a r _ _ Hr. rewrite Ht in Hr. by apply Hx.
    + wp_rule. by apply Hread.
  - by intros ys c1 [? _].
Qed.
End operations.

Section intake.
Context `{EL : EnvLaws}.

(** The id the next accepted job gets. *)
Definition next_job_id (s : store) : Z := max_id (dom (i_accepted (s_ingest s))) + 1.

Lemma wp_call_enqueue job c (Q : Result AcceptedJob -> conn store -> Prop) :
  id_room (i_accepted (s_ingest (c_db c))) 1 ->
  (forall e n, Q (Err e) (Conn n (c_db c))) ->
  (forall n, aj_queue_name job ∈ s_names (c_db c) ->
     let id := next_job_id (c_db c) in
     Q (Ok (with_id id job)) (Conn n (set_ingest (set_accepted
       (<[id := new_accepted_row job]> (i_accepted (s_ingest (c_db c)))) (s_ingest (c_db c))) (c_db c)))) ->
  wp (call_enqueue job) Q c.
Proof.
  destruct c as [s0 [names ing res]]. unfold next_job_id. simpl. intros Hroom Herr Hok.
  apply wp_ingest_call. cbn [handle]. wp_rule. eapply wp_mono; [by apply wp_enqueue_batch|].
  simpl. intros r [n db] (_ & out & -> & Hpost). wp_rules.
  unfold enqueue_post, refusals, accepted_of in Hpost. simpl in Hpost.
  rewrite !filter_cons, !filter_nil in Hpost. simpl in Hpost.
  destruct (decide (aj_queue_name job ∈ names)) as [Hk|Hk].
  - rewrite ?(decide_False (P := aj_queue_name job ∉ names)) in Hpost by tauto.
    destruct Hpost as [(-> & _ & e & ->)|(_ & -> & ->)]; simpl; [apply Herr|].
    rewrite Z.add_0_r. by apply Hok.
  - rewrite ?(decide_True (P := aj_queue_name job ∉ names)) in Hpost by tauto.
    destruct Hpost as [(-> & _ & e & ->)|(_ & -> & ->)]; simpl; [apply Herr|].
    replace (set_accepted (i_accepted ing) ing) with ing by (by destruct ing). apply Herr.
Qed.

Lemma max_id_dom_insert {R} (t : gmap Z R) (r : R) :
  max_id (dom (<[max_id (dom t) + 1 := r]> t)) = max_id (dom t) + 1.
Proof.
  pose proof (max_id_nonneg (dom t)). rewrite dom_insert_L, max_id_insert; lia.
Qed.

Lemma next_id_fresh {R} (t : gmap Z R) : t !! (max_id (dom t) + 1) = None.
Proof. apply not_elem_of_dom. intros ?%max_id_ge. lia. Qed.

Lemma inv_enqueued s job :
  store_inv s -> aj_queue_name job ∈ s_names s ->
  store_inv (set_ingest (set_accepted
    (<[next_job_id s := new_accepted_row job]> (i_accepted (s_ingest s))) (s_ingest s)) s).
Proof.
  intros Hinv Hq. unfold next_job_id.
  assert (Hnew : r_executions (s_results s) !! (max_id (dom (i_accepted (s_ingest s))) + 1) = None).
  { destruct (_ !! _) as [r|] eqn:Er; [|done]. apply (si_ids s Hinv) in Er. lia. }
  pose proof (max_id_nonneg (dom (i_accepted (s_ingest s)))).
  split; simpl; [|apply Hinv|..].
  - apply (ingest_wf_append _ (s_ingest s) [mkPendingEnqueue job 0]); [apply Hinv|by repeat constructor].
  - intros k a r [[<- <-]|[_ Hk]]%lookup_insert_Some Hr; [congruence|]. by apply (si_linked s Hinv k a).
  - intros k r Hr. rewrite max_id_dom_insert. apply (si_ids s Hinv) in Hr. lia.
Qed.

Lemma enqueue_inv job c : store_inv (c_db c) -> store_room (c_db c) -> keeps_inv (enqueue job) c.
Proof.
  intros Hinv [_ Hroom]. unfold keeps_inv, enqueue. apply wp_call_enqueue; [done|done|].
  intros n Hq. by apply inv_enqueued.
Qed.

(** The queue is known to both databases with these limits. *)
Definition registered (queue : JobQueue) (s : store) : Prop :=
  q_name queue ∈ s_names s /\ exists row row',
    i_queues (s_ingest s) !! q_name queue = Some row /\ r_queues (s_results s) !! q_name queue = Some row' /\
    qr_max_retries row = q_max_retries queue /\ qr_timeout_secs row = q_timeout_secs queue /\
    qr_max_retries row' = q_max_retries queue /\ qr_timeout_secs row' = q_timeout_secs queue.

(** Only the rows of queue [name] may have changed. *)
Record only_queue (name : string) (s s' : store) : Prop := {
  oq_accepted : i_accepted (s_ingest s') = i_accepted (s_ingest s);
  oq_executions : r_executions (s_results s') = r_executions (s_results s);
  oq_names : s_names s ⊆ s_names s';
  oq_ingest : forall n, n <> name -> i_queues (s_ingest s') !! n = i_queues (s_ingest s) !! n;
  oq_results : forall n, n <> name -> r_queues (s_results s') !! n = r_queues (s_results s) !! n
}.

Lemma only_queue_refl name s : only_queue name s s.
Proof. done. Qed.

Lemma only_queue_inv name s s' :
  store_inv s -> only_queue name s s' ->
  dom (i_queues (s_ingest s)) ⊆ dom (i_queues (s_ingest s')) -> s_names s' ⊆ dom (i_queues (s_ingest s')) ->
  dom (r_queues (s_results s)) ⊆ dom (r_queues (s_results s')) -> store_inv s'.
Proof.
  intros [[Hn Ht] Hres Hlink Hids] [Ha Hx _ _ _] Hdi Hnames Hdr. split.
  - split; [done|]. rewrite Ha. intros i x [? ?]%Ht. set_solver.
  - unfold results_wf. rewrite Hx. by apply (exec_wf_queues (dom (r_queues (s_results s)))).
  - intros k a r. rewrite Ha, Hx. apply Hlink.
  - intros k r. rewrite Ha, Hx. apply Hids.
Qed.

Lemma wp_call_upsert_queue queue c (Q : Result JobQueue -> conn store -> Prop) :
  store_inv (c_db c) ->
  (forall r c', store_inv (c_db c') -> only_queue (q_name queue) (c_db c) (c_db c') ->
     s_results (c_db c') = s_results (c_db c) ->
     (forall q, r = Ok q -> same_limits queue q /\ q_name queue ∈ s_names (c_db c') /\
        exists row, i_queues (s_ingest (c_db c')) !! q_name queue = Some row /\
          qr_max_retries row = q_max_retries queue /\ qr_timeout_secs row = q_timeout_secs queue) ->
     Q r c') ->
  wp (call_upsert_queue queue) Q c.
Proof.
  destruct c as [s0 [names ing res]]. intros Hinv HQ. apply wp_ingest_call. cbn [handle]. wp_rule. wp_rule.
  eapply wp_mono; [apply wp_upsert_queue_rows|]. simpl. intros r [n db] (_ & Ha & Hq & Hr). simpl in *. wp_rules.
  assert (Hother : forall m, m <> q_name queue -> i_queues db !! m = i_queues ing !! m).
  { intros m Hm. destruct Hq as [-> |[now ->]]; [done|by apply lookup_stored_queue_ne]. }
  assert (Honly : forall names', names ⊆ names' ->
    only_queue (q_name queue) (mkStore names ing res) (mkStore names' db res)) by by split.
  assert (Hdom : dom (i_queues ing) ⊆ dom (i_queues db)).
  { destruct Hq as [-> |[now ->]]; [done|]. rewrite dom_stored_queue. set_solver. }
  pose proof (si_ingest _ Hinv) as [Hnames _]. simpl in Hnames.
  destruct r as [q|e]; simpl; apply HQ; simpl; try done.
  - destruct Hr as (_ & now & Hdb). apply (only_queue_inv (q_name queue) (mkStore names ing res)); simpl; [done|apply Honly; set_solver|done| |done].
    rewrite Hdb, dom_stored_queue in *. set_solver.
  - apply Honly. set_solver.
  - intros q' [= <-]. destruct Hr as (Hl & now & ->). split; [done|]. split; [set_solver|apply lookup_stored_queue].
  - apply (only_queue_inv (q_name queue) (mkStore names ing res)); simpl; [done|by apply Honly|done|set_solver|done].
Qed.

(** [upsert_queue] of the store: when it succeeds both databases know the queue and its limits. *)
Lemma wp_store_upsert_queue queue c :
  store_inv (c_db c) ->
  wp (store_upsert_queue queue) (fun r c' => store_inv (c_db c') /\ only_queue (q_name queue) (c_db c) (c_db c') /\
    (is_ok r = true -> registered queue (c_db c'))) c.
Proof.
  intros Hinv. unfold store_upsert_queue. wp_rule. apply wp_call_upsert_queue; [done|].
  intros r1 c1 Hi1 Ho1 Hres1 Hr1. destruct r1 as [q|e]; [|done].
  destruct (Hr1 q eq_refl) as ((En & Em & Et) & Hname & row & Hrow & Hmr & Htr).
  wp_rule. apply wp_results_call. cbn [r_handle]. wp_rule. wp_rule.
  eapply wp_mono; [apply wp_r_upsert_queue_rows|]. simpl. intros r2 c2 (Hex & Hq & Hok). wp_rules.
  assert (Honly : only_queue (q_name queue) (c_db c) (set_results (c_db c2) (c_db c1))).
  { split; simpl; [apply Ho1|rewrite Hex, Hres1; done|apply Ho1|apply Ho1|].
    intros m Hm. rewrite <-Hres1. destruct Hq as [-> |[now ->]]; [done|]. apply lookup_stored_queue_ne. by rewrite En. }
  assert (store_inv (set_results (c_db c2) (c_db c1))) as Hi2.
  { apply (only_queue_inv (q_name queue) (c_db c1)); simpl; [done| |done|apply (si_ingest _ Hi1)|].
    - split; simpl; [done|done|done|done|]. intros m Hm. destruct Hq as [-> |[now ->]]; [done|].
      apply lookup_stored_queue_ne. by rewrite En.
    - destruct Hq as [-> |[now ->]]; [done|]. rewrite dom_stored_queue. set_solver. }
  destruct r2 as [q2|e]; simpl; [wp_rule|done]. split; [done|]. split; [done|]. intros _.
  destruct (Hok eq_refl) as [now Hdb]. split; [done|].
  destruct (lookup_stored_queue q now (r_queues (s_results (c_db c1)))) as (row' & Hrow' & Hm' & Ht').
  exists row, row'. simpl. rewrite Hdb, <-En. rewrite <-En in Hrow. split_and!; try done; congruence.
Qed.

Lemma store_upsert_queue_inv queue c : store_inv (c_db c) -> keeps_inv (store_upsert_queue queue) c.
Proof. intros Hinv. eapply wp_mono; [by apply wp_store_upsert_queue|]. by intros r c' [? _]. Qed.

(** A cleanup keeps the invariant as long as the newest job is not deleted. *)
Definition newest_kept (s : store) (cutoff : Z) : Prop :=
  forall k a, k = max_id (dom (i_accepted (s_ingest s))) -> i_accepted (s_ingest s) !! k = Some a ->
    cutoff <= ar_created_at a.

Lemma newest_kept_max s cutoff :
  store_inv s -> newest_kept s cutoff ->
  max_id (dom (i_accepted (s_ingest s))) <=
  max_id (dom (filter (fun kr => ~ ar_created_at kr.2 < cutoff) (i_accepted (s_ingest s)))).
Proof.
  intros Hinv Hnew. set (mx := max_id (dom (i_accepted (s_ingest s)))) in *.
  destruct (i_accepted (s_ingest s) !! mx) as [a|] eqn:Ea.
  - apply max_id_ge, elem_of_dom. exists a. apply map_lookup_filter_Some. split; [done|]. simpl.
    specialize (Hnew mx a eq_refl Ea). lia.
  - assert (Hmx : mx ∉ dom (i_accepted (s_ingest s))) by by apply not_elem_of_dom.
    assert (mx <= 0); [|pose proof (max_id_nonneg (dom (filter (fun kr : Z * accepted_row =>
      ~ ar_created_at kr.2 < cutoff) (i_accepted (s_ingest s))))); lia].
    apply max_id_lub; [done|]. intros i [a Hi]%elem_of_dom. exfalso. apply Hmx.
    apply (max_id_elem _ i); [apply elem_of_dom; by exists a|]. by apply (si_ingest s Hinv) in Hi as [? _].
Qed.

Lemma inv_cleaned_ingest s cutoff :
  store_inv s -> newest_kept s cutoff ->
  store_inv (set_ingest (set_accepted
    (filter (fun kr => ~ ar_created_at kr.2 < cutoff) (i_accepted (s_ingest s))) (s_ingest s)) s).
Proof.
  intros Hinv Hnew. split; simpl; [|apply Hinv|..].
  - apply ingest_wf_same; [apply Hinv|apply same_jobs_filter].
  - intros k a r [Hk _]%map_lookup_filter_Some. by apply (si_linked s Hinv).
  - intros k r Hr. apply (si_ids s Hinv) in Hr. etrans; [exact Hr|by apply newest_kept_max].
Qed.
End intake.

(** ** Opening *)

Section heal.
Context `{EL : EnvLaws}.

(** No execution has dispatch id [d]. *)
Definition no_execution (s : store) (d : string) : Prop :=
  forall k r, r_executions (s_results s) !! k = Some r -> er_dispatch_id r <> d.

Lemma no_execution_count s d :
  length (filter (fun kr : Z * execution_row => er_dispatch_id kr.2 = d)
            (map_to_list (r_executions (s_results s)))) = 0%nat <-> no_execution s d.
Proof.
  split.
  - intros H%nil_length_inv k r Hr Hd.
    assert (Hin : (k, r) ∈ filter (fun kr : Z * execution_row => er_dispatch_id kr.2 = d)
                    (map_to_list (r_executions (s_results s)))).
    { apply list_elem_of_filter. split; [done|]. by apply elem_of_map_to_list. }
    rewrite H in Hin. by apply elem_of_nil in Hin.
  - intros Hn. destruct (filter _ _) as [|[k r] l] eqn:Ef; [done|].
    assert (Hin : (k, r) ∈ (k, r) :: l) by left. rewrite <-Ef in Hin.
    apply list_elem_of_filter in Hin as [Hd Hr%elem_of_map_to_list]. by destruct (Hn k r).
Qed.

Definition healed_by (now : Z) (s : store) (done : list (Z * string)) (t : gmap Z accepted_row) : Prop :=
  forall k, match i_accepted (s_ingest s) !! k with
    | None => t !! k = None
    | Some a =>
        (exists d, (k, d) ∈ done /\ ar_dispatch_id a = Some d /\ no_execution s d /\
                   t !! k = Some (set_dispatch_id None now a)) \/
        ((forall d, (k, d) ∈ done -> ar_dispatch_id a = Some d -> ~ no_execution s d) /\ t !! k = Some a)
    end.

Lemma healed_by_snoc now s done k d t :
  healed_by now s done t -> no_execution s d ->
  healed_by now s (done ++ [(k, d)]) (repend_update now k d t).
Proof.
  intros Hh Hno i. specialize (Hh i). unfold repend_update.
  destruct (decide (k = i)) as [->|Hne]; [rewrite lookup_alter_eq|rewrite lookup_alter_ne by done].
  - destruct (i_accepted (s_ingest s) !! i) as [a|]; [|by rewrite Hh].
    destruct Hh as [(d0 & Hin & Hd & Hn & ->)|[Hn ->]]; simpl.
    + left. exists d0. split; [set_solver|]. by split_and!.
    + case_decide as Hd.
      * left. exists d. split; [set_solver|]. by split_and!.
      * right. split; [|done]. intros d0 [Hin|[= ->]%list_elem_of_singleton]%elem_of_app; [by apply Hn|done].
  - destruct (i_accepted (s_ingest s) !! i) as [a|]; [|done].
    destruct Hh as [(d0 & Hin & Hrest)|[Hn ->]].
    + left. exists d0. split; [set_solver|done].
    + right. split; [|done]. intros d0 [Hin|[= -> ->]%list_elem_of_singleton]%elem_of_app; [by apply Hn|done].
Qed.

Lemma healed_by_skip now s done k d t :
  healed_by now s done t -> ~ no_execution s d -> healed_by now s (done ++ [(k, d)]) t.
Proof.
  intros Hh Hno i. specialize (Hh i). destruct (i_accepted (s_ingest s) !! i) as [a|]; [|done].
  destruct Hh as [(d0 & Hin & Hrest)|[Hn ->]].
  - left. exists d0. split; [set_solver|done].
  - right. split; [|done]. intros d0 [Hin|[= -> ->]%list_elem_of_singleton]%elem_of_app; [by apply Hn|done].
Qed.

Lemma wp_heal_orphan_claims c :
  wp heal_orphan_claims (fun res c' => match res with
    | Ok _ => s_results (c_db c') = s_results (c_db c) /\ exists now, forall k,
        match i_accepted (s_ingest (c_db c)) !! k with
        | None => i_accepted (s_ingest (c_db c')) !! k = None
        | Some a => (exists d, ar_dispatch_id a = Some d /\ no_execution (c_db c) d /\
                       i_accepted (s_ingest (c_db c')) !! k = Some (set_dispatch_id None now a)) \/
                    ((forall d, ar_dispatch_id a = Some d -> ~ no_execution (c_db c) d) /\
                       i_accepted (s_ingest (c_db c')) !! k = Some a)
        end
    | Err _ => True end) c.
Proof.
  unfold heal_orphan_claims. wp_rule. apply wp_query; [done|]. intros orphans [= <-].
  set (s := c_db c). set (orphans := row_order _ _). wp_rule. wp_rule. cbn beta iota. cbn [c_step c_db].
  set (now := clock _). wp_rule.
  apply (wp_for_each _ _ (fun done _ c' => s_results (c_db c') = s_results s /\
    healed_by now s done (i_accepted (s_ingest (c_db c'))))).
  - split; [done|]. intros k. simpl. fold s. destruct (i_accepted (s_ingest s) !! k) as [a|]; [|done].
    right. split; [|done]. by intros d Hd%elem_of_nil.
  - intros done [k d] rest ys c1 _ [Hres Hh]. wp_rule. apply wp_query; [done|]. intros count [= <-].
    cbn [fst snd]. rewrite Hres. destruct (decide _) as [Hz|Hz].
    + apply wp_stmt; [done|]. intros [] s' [= <-]. split; [done|]. simpl.
      apply healed_by_snoc; [done|]. by apply no_execution_count.
    + wp_rule. split; [done|]. apply healed_by_skip; [done|]. by rewrite <-no_execution_count.
  - intros ys c1 [Hres Hh]. wp_rule. split; [done|]. exists now. intros k. specialize (Hh k). fold s.
    destruct (i_accepted (s_ingest s) !! k) as [a|] eqn:Ea; [|done].
    assert (Hin : forall d, ar_dispatch_id a = Some d -> (k, d) ∈ orphans).
    { intros d Hd. unfold orphans. rewrite row_order_perm. apply list_elem_of_omap.
      exists (k, a). split; [by apply elem_of_map_to_list|]. simpl. by rewrite Hd. }
    destruct Hh as [(d & _ & Hd & Hn & ->)|[Hn ->]]; [left|right]; eauto.
Qed.
End heal.
