(* ===== verification/StoreProps.v ===== *)
(** * The SQLite store: properties

    The life of a job across the two databases: what claims, completions, releases, recoveries and
    cleanups promise, and where two of them break the invariant. *)
From S2P Require Import Prelude Types Db Tables Ingest Results ResultsFacts ResultsDispatch ResultsProps Store StoreFacts.

(** ** Runs of the store *)

Inductive store_op : Type :=
| OpUpsertQueue (queue : JobQueue)
| OpEnqueue (job : AcceptedJob)
| OpClaimBatch (queue_name : string) (limit : Z)
| OpComplete (job_id : Z) (dispatch_id : string) (outcome : JobOutcome)
| OpCompleteWorkerResult (job_id : Z) (dispatch_id : string) (outcome : JobOutcome)
| OpReleaseClaim (job_id : Z) (dispatch_id : string)
| OpRecoverStaleLeases (now : Z)
| OpIngestCleanup (cutoff : Z)
| OpResultsCleanup (cutoff : Z)
| OpHeal.

Section runs.
Context `{EL : EnvLaws}.

Definition run_op (op : store_op) : M store unit :=
  match op with
  | OpUpsertQueue queue => _ ← store_upsert_queue queue; mret tt
  | OpEnqueue job => _ ← enqueue job; mret tt
  | OpClaimBatch queue_name limit => _ ← claim_batch_inner queue_name limit; mret tt
  | OpComplete k d outcome => _ ← complete k d outcome; mret tt
  | OpCompleteWorkerResult k d outcome => _ ← complete_worker_result k d outcome; mret tt
  | OpReleaseClaim k d => _ ← release_claim k d; mret tt
  | OpRecoverStaleLeases now => _ ← recover_stale_leases now; mret tt
  | OpIngestCleanup cutoff => _ ← call_ingest_cleanup cutoff; mret tt
  | OpResultsCleanup cutoff => _ ← call_results_cleanup cutoff; mret tt
  | OpHeal => heal_orphan_claims
  end.

(** The two operations the invariant has a condition on: a claim is not released once its job is
    completed under it, and a cleanup spares the newest job. Both are needed: [release_reopens_completed]
    and [reused_id_shows_old_result] are what happens otherwise. *)
Definition op_safe (op : store_op) (s : store) : Prop :=
  match op with
  | OpReleaseClaim k d => not_completed s k d
  | OpIngestCleanup cutoff => newest_kept s cutoff
  | _ => True
  end.

(** One allowed operation after the other, whether they succeed or fail. *)
Inductive store_run (allowed : store_op -> Prop) : conn store -> conn store -> Prop :=
| sr_nil c : store_run allowed c c
| sr_step op r c c1 c2 :
    allowed op -> store_room (c_db c) -> op_safe op (c_db c) -> run_op op c = (r, c1) ->
    store_run allowed c1 c2 -> store_run allowed c c2.

Lemma call_ingest_cleanup_inv cutoff c :
  store_inv (c_db c) -> newest_kept (c_db c) cutoff -> keeps_inv (call_ingest_cleanup cutoff) c.
Proof.
  intros Hinv Hnew. unfold keeps_inv. apply wp_ingest_call. cbn [handle]. wp_rule. wp_rule.
  eapply wp_mono; [apply wp_cleanup|]. intros r c1 [_ Hr]. wp_rules. simpl in Hr.
  destruct r as [n|e]; [destruct Hr as [_ Hr]|]; rewrite Hr; [by apply inv_cleaned_ingest|].
  by destruct (c_db c).
Qed.

Lemma call_results_cleanup_inv cutoff c :
  store_inv (c_db c) -> keeps_inv (call_results_cleanup cutoff) c.
Proof.
  intros Hinv. unfold keeps_inv. apply wp_results_call. cbn [r_handle]. wp_rule. wp_rule.
  unfold r_cleanup_expired_records. apply wp_stmt; [intros e; wp_rules; by destruct (c_db c)|].
  intros n db [= <- <-]. wp_rules. apply inv_executions; [done| |].
  - eapply exec_wf_sub; [apply Hinv|]. intros k r [Hr _]%map_lookup_filter_Some. by exists r.
  - intros k r [Hr _]%map_lookup_filter_Some. split; [by apply (si_ids _ Hinv k r)|].
    intros a Ha. by apply (si_linked _ Hinv k a r).
Qed.

(** A claim no execution has belongs to a job whose execution, if any, may be started again. *)
Lemma heal_inv c : store_inv (c_db c) -> keeps_inv heal_orphan_claims c.
Proof.
  intros Hinv. unfold keeps_inv, heal_orphan_claims. wp_rule. apply wp_query; [done|]. intros orphans _.
  wp_rule. wp_rule. cbn beta iota. cbn [c_step c_db]. set (now := clock _). wp_rule.
  apply (wp_for_each _ _ (fun _ _ c' => store_inv (c_db c'))); [done| |by intros; wp_rule].
  intros done [k d] rest ys c1 _ Hi. wp_rule. apply wp_query; [done|]. intros count [= <-]. cbn [fst snd].
  destruct (decide _) as [Hz|Hz]; [|by wp_rule]. apply wp_stmt; [done|]. intros [] s' [= <-].
  apply (inv_repend (c_db c1) now k d); [done|]. intros a r Ha Hd Hr.
  destruct (si_linked _ Hi k a r Ha Hr) as [?|Hd']; [done|].
  destruct (proj1 (no_execution_count _ d) Hz k r Hr). congruence.
Qed.

Lemma keeps_inv_unit {A} (m : M store A) c : keeps_inv m c -> keeps_inv (_ ← m; mret tt) c.
Proof.
  unfold keeps_inv. intros Hm. wp_rule. eapply wp_mono; [exact Hm|]. intros [a|e] c' H; [by wp_rule|done].
Qed.

Lemma run_op_inv op c :
  store_inv (c_db c) -> store_room (c_db c) -> op_safe op (c_db c) -> keeps_inv (run_op op) c.
Proof.
  intros Hinv Hroom Hsafe. destruct op; [apply keeps_inv_unit; simpl in Hsafe..|by apply heal_inv].
  - by apply store_upsert_queue_inv.
  - by apply enqueue_inv.
  - unfold keeps_inv. eapply wp_mono; [by apply wp_claim_batch_inner|]. by intros r c' [? _].
  - by apply complete_inv_ok.
  - by apply complete_worker_result_inv.
  - by apply release_claim_inv.
  - by apply recover_stale_leases_inv.
  - by apply call_ingest_cleanup_inv.
  - by apply call_results_cleanup_inv.
Qed.

(** What each allowed operation keeps, a run keeps, besides the invariant. *)
Lemma store_run_keeps (allowed : store_op -> Prop) (P : store -> Prop) c c' :
  (forall op c, allowed op -> store_inv (c_db c) -> store_room (c_db c) -> op_safe op (c_db c) -> P (c_db c) ->
     wp (run_op op) (fun _ c' => P (c_db c')) c) ->
  store_run allowed c c' -> store_inv (c_db c) -> P (c_db c) -> store_inv (c_db c') /\ P (c_db c').
Proof.
  intros Hkeep. induction 1 as [c|op r c c1 c2 Hop Hroom Hsafe Hrun _ IH]; [done|]. intros Hinv HP. apply IH.
  - exact (wp_run _ (fun _ c' => store_inv (c_db c')) _ _ _ (run_op_inv op c Hinv Hroom Hsafe) Hrun).
  - exact (wp_run _ (fun _ c' => P (c_db c')) _ _ _ (Hkeep op c Hop Hinv Hroom Hsafe HP) Hrun).
Qed.
End runs.

Lemma empty_store_inv : store_inv empty_store.
Proof.
  assert (He : forall k, r_executions (s_results empty_store) !! k = None) by (intros; apply lookup_empty).
  assert (Ha : forall k, i_accepted (s_ingest empty_store) !! k = None) by (intros; apply lookup_empty).
  split.
  - split; [set_solver|]. intros i r. by rewrite Ha.
  - split; [intros k1 k2 r1 r2|intros k1 k2 r1 r2|intros k r]; by rewrite He.
  - intros k a r. by rewrite Ha.
  - intros k r. by rewrite He.
Qed.

(** C1. From an empty store the two databases stay linked, whatever operations run and however they fail,
    restarts and cleanups included, as long as the users of the store keep to [op_safe]: no claim is
    released once its job is completed under it ([release_reopens_completed] is what the code does
    otherwise), and no cleanup deletes the newest job ([reused_id_shows_old_result]); and as long as the
    rowids do not run out. Linked means: a job whose execution runs or is completed is claimed under its
    dispatch id, so that an available job has no execution or a failed one, and no execution belongs to
    an id not handed out yet. *)
Theorem store_invariant `{EnvLaws} n c :
  store_run (fun _ => True) (Conn n empty_store) c -> store_inv (c_db c).
Proof.
  intros Hrun. apply (store_run_keeps (fun _ => True) (fun _ => True) (Conn n empty_store) c); [done|done| |done].
  apply empty_store_inv.
Qed.

(** A store with a queue and two jobs, one of them running. *)
Definition example_ops : list store_op :=
  [OpUpsertQueue (mkJobQueue "email" 1 60 0 0); OpEnqueue (AcceptedJob_new 10 "email" []);
   OpEnqueue (AcceptedJob_new 11 "email" []); OpClaimBatch "email" 1].

Definition run_ops (ops : list store_op) (c : conn store) : conn store :=
  foldl (fun c op => snd (run_op (E := model_env) op c)) c ops.

Definition example_store : conn store := run_ops example_ops (Conn 0 empty_store).

Lemma store_room_decide s :
  bool_decide (set_Forall (fun i => 0 < i) (dom (i_accepted (s_ingest s)))) &&
  (max_id (dom (i_accepted (s_ingest s))) + 1 <? i64_max) &&
  (max_id (er_ids (r_executions (s_results s))) + MAX_CLAIM_BATCH_SIZE <? i64_max) = true ->
  store_room s.
Proof.
  intros [[?%bool_decide_eq_true ?%Z.ltb_lt]%andb_prop ?%Z.ltb_lt]%andb_prop. by repeat split.
Qed.

Lemma store_run_ops (allowed : store_op -> Prop) ops : forall c,
  Forall (fun op => allowed op /\ match op with OpReleaseClaim _ _ | OpIngestCleanup _ => False | _ => True end) ops ->
  (forall i, (i < length ops)%nat -> store_room (c_db (run_ops (take i ops) c))) ->
  store_run (E := model_env) allowed c (run_ops ops c).
Proof.
  induction ops as [|op ops IH]; intros c Hops Hroom; [constructor|].
  apply Forall_cons in Hops as [[Hallowed Hop] Hops].
  apply sr_step with op (fst (run_op (E := model_env) op c)) (snd (run_op (E := model_env) op c)); [done|..].
  - apply (Hroom 0%nat). simpl. lia.
  - by destruct op.
  - by destruct (run_op _ _).
  - apply IH; [done|]. intros i Hi. apply (Hroom (S i)). simpl. lia.
Qed.

Lemma example_store_run : store_run (E := model_env) (fun _ => True) (Conn 0 empty_store) example_store.
Proof.
  apply store_run_ops; [by repeat constructor|]. intros i Hi. apply store_room_decide.
  do 4 (destruct i as [|i]; [vm_compute; reflexivity|]). simpl in Hi. lia.
Qed.

Lemma store_invariant_witness :
  store_run (E := model_env) (fun _ => True) (Conn 0 empty_store) example_store /\
  store_inv (c_db example_store) /\
  er_status <$> r_executions (s_results (c_db example_store)) !! 1 = Some "running"%string.
Proof.
  split; [exact example_store_run|]. split; [|vm_compute; reflexivity].
  exact (store_invariant (E := model_env) 0 example_store example_store_run).
Defined.

(** C6. A claim of the store hands out the oldest available jobs of the queue, up to the clamped
    limit, each with an execution that runs under the job's fresh dispatch id and counts one more
    attempt; every other job and execution is untouched. A claim that fails leaves every execution
    as it was, and either way the invariant holds and no job is lost. *)
Theorem claim_batch_hands_out_running_jobs `{EnvLaws} q limit n s res c' :
  store_inv s -> store_room s -> claim_batch_inner q limit (Conn n s) = (res, c') ->
  store_inv (c_db c') /\ dom (i_accepted (s_ingest (c_db c'))) = dom (i_accepted (s_ingest s)) /\
  match res with
  | Ok jobs =>
      job_id <$> jobs = pc_id <$> pending_rows q limit s /\
      (forall job, job ∈ jobs -> job_name job = q /\ handed_out s (c_db c') job) /\
      (forall k, k ∉ job_id <$> jobs ->
         i_accepted (s_ingest (c_db c')) !! k = i_accepted (s_ingest s) !! k /\
         r_executions (s_results (c_db c')) !! k = r_executions (s_results s) !! k)
  | Err _ => s_results (c_db c') = s_results s
  end.
Proof.
  intros Hinv Hroom Hrun.
  exact (wp_run _ _ _ _ _ (wp_claim_batch_inner q limit (Conn n s) Hinv Hroom) Hrun).
Qed.


Definition example_s : store := c_db example_store.

(** The link between an accepted row and its execution, as the invariant states it. *)
Definition linked (s : store) (k : Z) (a : accepted_row) : Prop :=
  match r_executions (s_results s) !! k with
  | Some r => restartable r \/ ar_dispatch_id a = Some (er_dispatch_id r)
  | None => True
  end.
#[export] Instance linked_dec s k a : Decision (linked s k a).
Proof. unfold linked. destruct (_ !! k); apply _. Defined.

Lemma store_inv_decide s :
  bool_decide (s_names s ⊆ dom (i_queues (s_ingest s))) &&
  bool_decide (map_Forall (fun i r => 0 < i /\ ar_queue_name r ∈ dom (i_queues (s_ingest s))) (i_accepted (s_ingest s))) &&
  bool_decide (Forall (fun kr => kr.1 <= max_id (dom (i_accepted (s_ingest s))))
                 (map_to_list (r_executions (s_results s)))) &&
  bool_decide (Forall (fun ka => linked s ka.1 ka.2) (map_to_list (i_accepted (s_ingest s)))) = true ->
  results_wf (s_results s) -> store_inv s.
Proof.
  intros [[[Hq%bool_decide_eq_true Ha%bool_decide_eq_true]%andb_prop Hid%bool_decide_eq_true]%andb_prop
    Hl%bool_decide_eq_true]%andb_prop Hwf.
  pose proof (proj1 (Forall_forall _ _) Hid) as Hid'. pose proof (proj1 (Forall_forall _ _) Hl) as Hl'.
  clear Hid Hl. rename Hid' into Hid. rename Hl' into Hl.
  assert (Hlink : forall k a r, i_accepted (s_ingest s) !! k = Some a ->
    r_executions (s_results s) !! k = Some r ->
    restartable r \/ ar_dispatch_id a = Some (er_dispatch_id r)).
  { intros k a r Hk Hr. specialize (Hl (k, a)). unfold linked in Hl. simpl in Hl. rewrite Hr in Hl.
    apply Hl. by apply elem_of_map_to_list. }
  split; [by split|done|..].
  - intros k a r Hk Hr. by apply (Hlink k a r).
  - intros k r Hr. apply (Hid (k, r)). by apply elem_of_map_to_list.
Qed.

Ltac solve_store_inv :=
  apply store_inv_decide; [vm_compute; reflexivity|apply results_wf_decide; vm_compute; reflexivity].

Lemma claim_batch_hands_out_running_jobs_witness :
  store_inv example_s /\ store_room example_s /\
  exists jobs c', claim_batch_inner (E := model_env) "email" 5 (Conn 100 example_s) = (Ok jobs, c') /\
    job_id <$> jobs = [2] /\ store_inv (c_db c').
Proof.
  assert (Hinv : store_inv example_s) by solve_store_inv.
  assert (Hroom : store_room example_s) by (apply store_room_decide; vm_compute; reflexivity).
  split; [exact Hinv|]. split; [exact Hroom|]. eexists _, _. split; [vm_compute; reflexivity|].
  split; [reflexivity|].
  refine (proj1 (claim_batch_hands_out_running_jobs (E := model_env) "email" 5 100 example_s _ _ Hinv Hroom _)).
  vm_compute. reflexivity.
Defined.

(** *** Completions *)

Section completion.
Context `{EL : EnvLaws}.

(** The job of [k] is available again. *)
Definition available (s : store) (k : Z) : Prop :=
  forall a, i_accepted (s_ingest s) !! k = Some a -> ar_dispatch_id a = None.

(** What a worker's result does, when the store answers. *)
Definition result_post (k : Z) (d : string) (outcome : JobOutcome) (s : store) (requeued : bool) (s' : store) : Prop :=
  (forall i, i <> k ->
     i_accepted (s_ingest s') !! i = i_accepted (s_ingest s) !! i /\
     r_executions (s_results s') !! i = r_executions (s_results s) !! i) /\
  match running_under (r_executions (s_results s)) (k, d) with
  | None => requeued = false /\ s' = s
  | Some r =>
      let limit := default 0 (qr_max_retries <$> r_queues (s_results s) !! er_queue_name r) in
      (exists now, r_executions (s_results s') !! k = Some (outcome_row now outcome r)) /\
      match outcome with
      | Succeeded _ => requeued = false /\ s_ingest s' = s_ingest s
      | OFailed _ =>
          requeued = bool_decide (er_execution_count r <= limit) /\
          if requeued then available s' k else s_ingest s' = s_ingest s
      end
  end.

Lemma completed_by_one_other now p t t' i :
  completed_by now [p] t t' -> i <> pcm_job_id p -> t' !! i = t !! i.
Proof.
  intros Hby Hi. specialize (Hby i). destruct (t !! i) as [r|]; [|done].
  by destruct Hby as [(p' & ->%list_elem_of_singleton & [? _] & _)|[_ ?]].
Qed.

Lemma repend_update_available now k d t a :
  (forall a0, t !! k = Some a0 -> ar_dispatch_id a0 = Some d) ->
  repend_update now k d t !! k = Some a -> ar_dispatch_id a = None.
Proof.
  intros Hd. unfold repend_update. rewrite lookup_alter_eq. intros (a0 & Ha0 & ->)%fmap_Some_1.
  by rewrite decide_True by auto.
Qed.

Lemma wp_complete_worker_result k d outcome c :
  store_inv (c_db c) ->
  wp (complete_worker_result k d outcome) (fun r c' =>
    match r with Ok requeued => result_post k d outcome (c_db c) requeued (c_db c') | Err _ => True end) c.
Proof.
  intros Hinv. unfold complete_worker_result. wp_rule. apply wp_call_complete; [done|].
  intros now t' n Hby. set (p := mkPendingCompletion k d outcome 0 0) in *.
  assert (Hother : forall i, i <> k -> t' !! i = r_executions (s_results (c_db c)) !! i).
  { intros i Hi. by apply (completed_by_one_other _ _ _ _ _ Hby). }
  unfold disposition. change (pcm_key p) with (k, d). unfold result_post.
  destruct (running_under (r_executions (s_results (c_db c))) (k, d)) as [r|] eqn:Erun.
  2:{ wp_rule. split; [by split; [|apply Hother]|]. split; [done|].
      rewrite (completed_by_not_running _ _ _ _ Hby Erun). by destruct c as [? [? ? []]]. }
  pose proof (completed_by_running _ _ _ _ _ Hby Erun : t' !! k = _) as Hk.
  apply running_under_Some in Erun as (Hr & Hd & Hrun). simpl in Hr, Hd.
  destruct outcome as [payload|message]; cbn [pcm_outcome p].
  { wp_rule. split; [by split; [|apply Hother]|]. split; [by exists now|done]. }
  case_decide as Hc.
  - wp_rule. apply wp_call_repend; [done|]. intros now2 n2 _. wp_rule. simpl.
    split; [|split; [by exists now|]].
    + intros i Hi. split; [|by apply Hother]. unfold repend_update. by rewrite lookup_alter_ne.
    + rewrite bool_decide_eq_true_2 by done. split; [done|]. intros a. simpl. apply repend_update_available.
      intros a0 Ha0. rewrite (si_running _ Hinv k a0 r) by done. by rewrite Hd.
  - wp_rule. split; [by split; [|apply Hother]|]. split; [by exists now|].
    by rewrite bool_decide_eq_false_2.
Qed.

(** A claim that would hand out a job whose execution cannot be started fails. *)
Lemma wp_claim_blocked q limit k r c :
  r_executions (s_results (c_db c)) !! k = Some r -> ~ restartable r ->
  k ∈ pc_id <$> pending_rows q limit (c_db c) ->
  wp (claim_batch_inner q limit) (fun res _ => is_ok res = false) c.
Proof.
  intros Hr Hn Hk. unfold claim_batch_inner. wp_rule. apply wp_call_claim_batch; [done|].
  simpl. fold (pending_rows q limit (c_db c)). intros now ds n _ Hl _.
  set (rows := pending_rows q limit (c_db c)) in *.
  assert (Hids : ic_id <$> zip_with claimed_of rows ds = pc_id <$> rows) by (by apply claimed_of_ids).
  set (claimed := zip_with claimed_of rows ds) in *. clearbody claimed. rewrite <-Hids in Hk.
  destruct claimed as [|x0 claimed0] eqn:Ecl; [by apply elem_of_nil in Hk|].
  rewrite <-Ecl in *. clear x0 claimed0 Ecl.
  wp_rule. wp_rule. cbn beta iota. wp_rule. wp_rule. apply wp_call_dispatch. cbn [c_step c_db].
  intros res c' [_ Hpost]. simpl in Hpost.
  destruct res as [out|e].
  - exfalso. destruct Hpost as [(e & [=] & _)|(now2 & t' & rws & _ & _ & _ & _ & Hall)].
    apply list_elem_of_fmap in Hk as (x & -> & Hx). apply list_elem_of_lookup in Hx as [i Hi].
    apply Forall2_same_length_lookup in Hall as [Hlen Hall]. rewrite length_fmap in Hlen.
    destruct (out !! i) as [d|] eqn:Ed; [|apply lookup_ge_None in Ed; apply lookup_lt_Some in Hi; lia].
    destruct (Hall i (dispatch_row (clock n) x) d) as (r' & _ & Hs & _);
      [by rewrite list_lookup_fmap, Hi|done|].
    simpl in Hs. rewrite Hr in Hs. by destruct Hs.
  - wp_rule. apply (wp_for_each _ _ (fun _ _ _ => True)); [done| |].
    + intros done_ x rest ys c2 _ _. wp_rule. by apply wp_call_repend.
    + intros ys c2 _. by wp_rule.
Qed.
End completion.

(** C29. A worker's result counts only while its execution runs under its dispatch id; otherwise it
    is ignored and the store is untouched. A success completes the execution with its payload. A
    failure fails it, and asks for another attempt, making the job available, exactly when its
    attempts are within the queue's retry limit. No other job is affected. *)
Theorem worker_result_outcomes `{EnvLaws} k d outcome n s requeued c' :
  store_inv s -> complete_worker_result k d outcome (Conn n s) = (Ok requeued, c') ->
  (forall i, i <> k ->
     i_accepted (s_ingest (c_db c')) !! i = i_accepted (s_ingest s) !! i /\
     r_executions (s_results (c_db c')) !! i = r_executions (s_results s) !! i) /\
  match running_under (r_executions (s_results s)) (k, d) with
  | None => requeued = false /\ c_db c' = s
  | Some r =>
      let limit := default 0 (qr_max_retries <$> r_queues (s_results s) !! er_queue_name r) in
      (exists now, r_executions (s_results (c_db c')) !! k = Some (outcome_row now outcome r)) /\
      match outcome with
      | Succeeded _ => requeued = false /\ s_ingest (c_db c') = s_ingest s
      | OFailed _ =>
          requeued = bool_decide (er_execution_count r <= limit) /\
          if requeued then available (c_db c') k else s_ingest (c_db c') = s_ingest s
      end
  end.
Proof.
  intros Hinv Hrun. exact (wp_run _ _ _ _ _ (wp_complete_worker_result k d outcome (Conn n s) Hinv) Hrun).
Qed.

Definition example_dispatch_id : string :=
  default ""%string (er_dispatch_id <$> r_executions (s_results example_s) !! 1).

Lemma worker_result_outcomes_witness :
  store_inv example_s /\
  let c' := snd (complete_worker_result (E := model_env) 1 example_dispatch_id (OFailed "boom") (Conn 100 example_s)) in
  i_accepted (s_ingest (c_db c')) !! 2 = i_accepted (s_ingest example_s) !! 2.
Proof.
  assert (Hinv : store_inv example_s) by solve_store_inv. split; [exact Hinv|]. intros c'.
  assert (Hrun : complete_worker_result (E := model_env) 1 example_dispatch_id (OFailed "boom") (Conn 100 example_s)
    = (Ok true, c')) by (unfold c'; vm_compute; reflexivity).
  destruct (worker_result_outcomes (E := model_env) 1 example_dispatch_id (OFailed "boom") 100
    example_s true c' Hinv Hrun) as [Hother _].
  apply (Hother 2). discriminate.
Defined.

(** Releasing the claim of a job whose execution is completed makes the job available again
    although it is done; from then on every claim that would hand it out fails, and hands out nothing:
    the completed job blocks its queue. *)
Theorem release_reopens_completed `{EnvLaws} k d n s a r c' :
  store_inv s -> i_accepted (s_ingest s) !! k = Some a -> ar_dispatch_id a = Some d ->
  r_executions (s_results s) !! k = Some r -> er_status r = "completed"%string ->
  release_claim k d (Conn n s) = (Ok true, c') ->
  r_executions (s_results (c_db c')) !! k = Some r /\
  (exists now, i_accepted (s_ingest (c_db c')) !! k = Some (set_dispatch_id None now a)) /\
  ~ store_inv (c_db c') /\
  (forall q limit, k ∈ pc_id <$> pending_rows q limit (c_db c') ->
     is_ok (fst (claim_batch_inner q limit c')) = false).
Proof.
  intros Hinv Ha Hd Hr Hc Hrun.
  enough (Hwp : wp (release_claim k d) (fun res c' => res = Ok true ->
    r_executions (s_results (c_db c')) !! k = Some r /\
    exists now, i_accepted (s_ingest (c_db c')) !! k = Some (set_dispatch_id None now a)) (Conn n s)).
  { destruct (wp_run _ _ _ _ _ Hwp Hrun eq_refl) as [Hr' [now Ha']].
    assert (Hn : ~ restartable r) by (unfold restartable; intros [E0|E0]; congruence).
    split_and!; [done|by exists now| |].
    - intros Hinv'. by apply Hn, (si_available _ Hinv' _ _ _ Ha' eq_refl Hr').
    - intros q limit Hk. exact (wp_claim_blocked q limit k r c' Hr' Hn Hk). }
  unfold release_claim. wp_rule. apply wp_query; [done|]. simpl. rewrite Ha. intros acc [= <-].
  simpl. rewrite decide_True by done. wp_rule. apply wp_call_abandon; [done|].
  intros now t' m Hby. wp_rule. apply wp_call_repend; [done|]. intros now2 n2 _. wp_rule. intros _.
  simpl in *. split.
  - specialize (Hby k). rewrite Hr in Hby.
    destruct Hby as [(p & _ & (_ & _ & Hrun') & _)|[_ ?]]; [|done]. unfold running in Hrun'. congruence.
  - exists now2. unfold repend_update. rewrite lookup_alter_eq, Ha. simpl. by rewrite decide_True.
Qed.

(** [example_store] after the worker has answered *)
Definition example_done : store :=
  c_db (snd (complete_worker_result (E := model_env) 1 example_dispatch_id (Succeeded []) (Conn 100 example_s))).

Lemma release_reopens_completed_witness :
  store_inv example_done /\
  let c' := snd (release_claim (E := model_env) 1 example_dispatch_id (Conn 200 example_done)) in
  is_ok (fst (claim_batch_inner (E := model_env) "email" 5 c')) = false.
Proof.
  assert (Hinv : store_inv example_done) by solve_store_inv. split; [exact Hinv|]. intros c'.
  refine (proj2 (proj2 (proj2 (release_reopens_completed (E := model_env) 1 example_dispatch_id 200 example_done
    (mkAcceptedRow "email" [] (Some example_dispatch_id) 10 _) _ c' Hinv _ _ _ _ _))) "email"%string 5 _).
  - vm_compute. reflexivity.
  - reflexivity.
  - vm_compute. reflexivity.
  - vm_compute. reflexivity.
  - unfold c'. vm_compute. reflexivity.
  - apply (bool_decide_eq_true_1 _). vm_compute. reflexivity.
Defined.

(** *** Cleanup *)

(** Job ids are the rowids of a table without [AUTOINCREMENT]: when a cleanup has deleted the
    newest jobs but not their executions, the next job accepted gets the id of an old one and is
    shown as done, with the old job's result, before it has ever run. *)
Theorem reused_id_shows_old_result `{EnvLaws} job n s r accepted c' job' c'' :
  store_room s -> r_executions (s_results s) !! next_job_id s = Some r -> er_status r = "completed"%string ->
  enqueue job (Conn n s) = (Ok accepted, c') ->
  get_job (aj_id accepted) c' = (Ok job', c'') ->
  job_status job' = Completed /\ job_result_payload job' = er_result_payload r /\
  job_payload job' = aj_payload job.
Proof.
  intros [_ Hroom] Hr Hc Hrun Hget.
  enough (Hwp : wp (enqueue job) (fun res c' => forall accepted, res = Ok accepted ->
    aj_id accepted = next_job_id s /\
    c_db c' = set_ingest (set_accepted (<[next_job_id s := new_accepted_row job]> (i_accepted (s_ingest s)))
                (s_ingest s)) s) (Conn n s)).
  { destruct (wp_run _ _ _ _ _ Hwp Hrun _ eq_refl) as [Hid Hdb]. rewrite Hid in Hget.
    enough (Hwp2 : wp (get_job (next_job_id s)) (fun res _ => forall j, res = Ok j ->
      job_status j = Completed /\ job_result_payload j = er_result_payload r /\ job_payload j = aj_payload job) c')
      by exact (wp_run _ _ _ _ _ Hwp2 Hget _ eq_refl).
    unfold get_job, composed_job. wp_rule. apply wp_query; [done|]. rewrite Hdb. simpl. rewrite lookup_insert_eq.
    intros a [= <-]. wp_rule. apply wp_query; [done|]. simpl. rewrite ?Hdb. simpl. rewrite Hr.
    unfold row_to_execution, row_to_execution_status, convert, result_bind. rewrite Hc. simpl.
    intros o Ho. case_match; simplify_eq/=. wp_rule. intros j [= <-]. done. }
  unfold enqueue. apply wp_call_enqueue; [done|done|]. intros m Hq id a [= <-]. done.
Qed.

(** [example_done] after its oldest job, created at 10, and then its newest, created at 11, have
    expired, while the execution, updated later, has not *)
Definition example_cleaned : store :=
  c_db (snd (store_cleanup_expired_records (E := model_env) 100 (Conn 300 example_done))).

Lemma reused_id_shows_old_result_witness :
  let c' := snd (enqueue (E := model_env) (AcceptedJob_new 99 "email" []) (Conn 400 example_cleaned)) in
  exists job', fst (get_job (E := model_env) 1 c') = Ok job' /\ job_status job' = Completed.
Proof.
  intros c'. eexists. split; [vm_compute; reflexivity|].
  assert (Hroom : store_room example_cleaned) by (apply store_room_decide; vm_compute; reflexivity).
  destruct (r_executions (s_results example_cleaned) !! 1) as [r|] eqn:Er; [|vm_compute in Er; discriminate Er].
  refine (proj1 (reused_id_shows_old_result (E := model_env) (AcceptedJob_new 99 "email" []) 400 example_cleaned
    r (with_id 1 (AcceptedJob_new 99 "email" [])) c' _ (snd (get_job (E := model_env) 1 c')) Hroom _ _ _ _)).
  - rewrite <-Er. vm_compute. reflexivity.
  - vm_compute in Er. injection Er as <-. reflexivity.
  - unfold c'. vm_compute. reflexivity.
  - unfold c'. vm_compute. reflexivity.
Defined.

(** *** Opening *)

(** Opening a store releases exactly the orphaned claims, those whose dispatch id no execution
    has, as a crash between the two writers leaves them; every other job, and every execution, is
    untouched. *)
Theorem heal_releases_orphans `{EnvLaws} n s c' :
  heal_orphan_claims (Conn n s) = (Ok tt, c') ->
  s_results (c_db c') = s_results s /\
  exists now, forall k,
    match i_accepted (s_ingest s) !! k with
    | None => i_accepted (s_ingest (c_db c')) !! k = None
    | Some a => (exists d, ar_dispatch_id a = Some d /\ no_execution s d /\
                   i_accepted (s_ingest (c_db c')) !! k = Some (set_dispatch_id None now a)) \/
                ((forall d, ar_dispatch_id a = Some d -> ~ no_execution s d) /\
                   i_accepted (s_ingest (c_db c')) !! k = Some a)
    end.
Proof. intros Hrun. exact (wp_run _ _ _ _ _ (wp_heal_orphan_claims (Conn n s)) Hrun). Qed.

(** A crash after the ingest writer has claimed job 2 *)
Definition example_crashed : store :=
  c_db (snd (call_claim_batch (E := model_env) "email" 5 (Conn 100 example_s))).

Lemma heal_releases_orphans_witness :
  let c' := snd (heal_orphan_claims (E := model_env) (Conn 200 example_crashed)) in
  s_results (c_db c') = s_results example_crashed /\
  ar_dispatch_id <$> i_accepted (s_ingest (c_db c')) !! 2 = Some None.
Proof.
  intros c'. split; [|vm_compute; reflexivity].
  refine (proj1 (heal_releases_orphans (E := model_env) 200 example_crashed c' _)).
  unfold c'. vm_compute. reflexivity.
Defined.
