(* ===== verification/JobMachine.v ===== *)
(** * The life of a job, and the store as its implementation

    What the store promises about one job, without its two databases: a small state machine, whose
    states are those of the job's claim and of its execution. [store_refines_jobs] states that every
    operation of the store, whether it succeeds or fails half way, moves every job along this machine
    by the events the operation is for, and no other; but for one defect, the release of the claim of a
    completed job, which it states as well. *)
From stdpp Require Import relations.
From S2P Require Import Prelude Types Db Tables Ingest Results ResultsFacts ResultsDispatch ResultsProps Store StoreFacts StoreProps.

(** ** The machine *)

Inductive phase : Type :=
| Absent
| Available
| Held (dispatch_id : string) (** claimed; its execution has not started, or has failed *)
| Executing (dispatch_id : string)
| Done (dispatch_id : string).

(** A job: where it is, and how many executions it has been given *)
Definition abstract_job : Type := phase * Z.

Inductive job_event : Type :=
| EvSubmitted
| EvClaimed (dispatch_id : string)
| EvStarted (dispatch_id : string)
| EvReleased (dispatch_id : string)
| EvCompleted (dispatch_id : string)
| EvFailed (dispatch_id : string)
| EvRetried (dispatch_id : string)
| EvExpired
| EvForgotten.

Definition forget (p : phase) : phase :=
  match p with Executing d | Done d => Held d | _ => p end.

(** The steps of a job of a queue with retry limit [limit] *)
Inductive job_step (limit : Z) : job_event -> abstract_job -> abstract_job -> Prop :=
| step_submitted : job_step limit EvSubmitted (Absent, 0) (Available, 0)
| step_claimed d n : job_step limit (EvClaimed d) (Available, n) (Held d, n)
| step_started d n : job_step limit (EvStarted d) (Held d, n) (Executing d, n + 1)
| step_released d n : job_step limit (EvReleased d) (Held d, n) (Available, n)
| step_completed d n : job_step limit (EvCompleted d) (Executing d, n) (Done d, n)
| step_failed d n : job_step limit (EvFailed d) (Executing d, n) (Held d, n)
| step_retried d n : n <= limit -> job_step limit (EvRetried d) (Held d, n) (Available, n)
| step_expired p n : job_step limit EvExpired (p, n) (Absent, n)
| step_forgotten p n : job_step limit EvForgotten (p, n) (forget p, 0).

(** ** The abstraction *)

Definition phase_of (a : option accepted_row) (r : option execution_row) : phase :=
  match a with
  | None => Absent
  | Some a =>
      match ar_dispatch_id a with
      | None => Available
      | Some d =>
          match r with
          | None => Held d
          | Some r => if decide (running r) then Executing d else if decide (restartable r) then Held d else Done d
          end
      end
  end.

Definition attempts_of (r : option execution_row) : Z := match r with Some r => er_execution_count r | None => 0 end.

Definition job_of (s : store) (k : Z) : abstract_job :=
  let r := r_executions (s_results s) !! k in (phase_of (i_accepted (s_ingest s) !! k) r, attempts_of r).

(** The retry limit of the queue the job's execution belongs to *)
Definition limit_of (s : store) (k : Z) : Z :=
  match r_executions (s_results s) !! k with
  | Some r => default 0 (qr_max_retries <$> r_queues (s_results s) !! er_queue_name r)
  | None => 0
  end.

(** The events of job [k] an operation is for *)
Definition permits (op : store_op) (s : store) (k : Z) (e : job_event) : Prop :=
  match op with
  | OpUpsertQueue _ => False
  | OpEnqueue _ => k = next_job_id s /\ e = EvSubmitted
  | OpClaimBatch q _ =>
      (exists a, i_accepted (s_ingest s) !! k = Some a /\ ar_queue_name a = q /\ ar_dispatch_id a = None) /\
      exists d, e = EvClaimed d \/ e = EvStarted d
  | OpComplete k' d outcome | OpCompleteWorkerResult k' d outcome =>
      k = k' /\ match outcome with Succeeded _ => e = EvCompleted d | OFailed _ => e = EvFailed d \/ e = EvRetried d end
  | OpReleaseClaim k' d => k = k' /\ (e = EvFailed d \/ e = EvReleased d)
  | OpRecoverStaleLeases now =>
      exists r, r_executions (s_results s) !! k = Some r /\ lease_expired now r /\
        (e = EvFailed (er_dispatch_id r) \/ e = EvRetried (er_dispatch_id r))
  | OpIngestCleanup cutoff => e = EvExpired /\ exists a, i_accepted (s_ingest s) !! k = Some a /\ ar_created_at a < cutoff
  | OpResultsCleanup cutoff => e = EvForgotten /\ exists r, r_executions (s_results s) !! k = Some r /\ er_updated_at r < cutoff
  | OpHeal => exists d, e = EvReleased d /\ no_execution s d
  end.

Definition op_step (op : store_op) (s : store) (k : Z) (x y : abstract_job) : Prop :=
  exists e, permits op s k e /\ job_step (limit_of s k) e x y.

(** The operation moves every job by its own events. *)
Definition refines (op : store_op) (s s' : store) : Prop :=
  forall k, rtc (op_step op s k) (job_of s k) (job_of s' k).

(** ** What the writers' updates do to a job *)

Lemma refines_refl op s : refines op s s.
Proof. intros k. apply rtc_refl. Qed.

Lemma job_of_same s s' k :
  i_accepted (s_ingest s') !! k = i_accepted (s_ingest s) !! k ->
  r_executions (s_results s') !! k = r_executions (s_results s) !! k -> job_of s' k = job_of s k.
Proof. unfold job_of. by intros -> ->. Qed.

Lemma unmoved op s s' k :
  i_accepted (s_ingest s') !! k = i_accepted (s_ingest s) !! k ->
  r_executions (s_results s') !! k = r_executions (s_results s) !! k ->
  rtc (op_step op s k) (job_of s k) (job_of s' k).
Proof. intros Ha Hr. rewrite (job_of_same s s' k Ha Hr). apply rtc_refl. Qed.

Lemma phase_held d a r : ar_dispatch_id a = Some d -> restartable r -> phase_of (Some a) (Some r) = Held d.
Proof.
  intros Hd Hr. simpl. rewrite Hd. rewrite decide_False by by apply restartable_not_running. by rewrite decide_True.
Qed.

Lemma phase_executing d a r : ar_dispatch_id a = Some d -> running r -> phase_of (Some a) (Some r) = Executing d.
Proof. intros Hd Hr. simpl. rewrite Hd. by rewrite decide_True. Qed.

(** One execution is completed or failed. *)
Lemma job_completed s now k d outcome reply at_ t' i :
  store_inv s -> completed_by now [mkPendingCompletion k d outcome reply at_] (r_executions (s_results s)) t' ->
  let s' := set_results (set_executions t' (s_results s)) s in
  job_of s' i = job_of s i \/
  (i = k /\ exists n, job_of s i = (Executing d, n) /\
     job_of s' i = (match outcome with Succeeded _ => Done d | OFailed _ => Held d end, n)).
Proof.
  intros Hinv Hby s'. set (p := mkPendingCompletion k d outcome reply at_) in *.
  destruct (decide (i = k)) as [->|Hne].
  2:{ left. apply job_of_same; [done|]. by apply (completed_by_one_other _ _ _ _ _ Hby). }
  destruct (running_under (r_executions (s_results s)) (pcm_key p)) as [r|] eqn:Erun.
  2:{ left. apply job_of_same; [done|]. simpl. by rewrite (completed_by_not_running _ _ _ _ Hby Erun). }
  pose proof (completed_by_running _ _ _ _ _ Hby Erun : t' !! k = _) as Hk.
  apply running_under_Some in Erun as (Hr & Hd & Hrun). simpl in Hr, Hd.
  unfold job_of. simpl. rewrite Hk, Hr.
  destruct (i_accepted (s_ingest s) !! k) as [a|] eqn:Ea; [|left; by destruct outcome].
  right. split; [done|]. exists (er_execution_count r).
  pose proof (si_running s Hinv k a r Ea Hr Hrun) as Hda. rewrite Hd in Hda.
  rewrite (phase_executing d) by done. split; [done|]. by destruct outcome; simpl; rewrite Hda.
Qed.

(** One claim is released. *)
Lemma job_repended s now k d i :
  (forall a r, i_accepted (s_ingest s) !! k = Some a -> ar_dispatch_id a = Some d ->
     r_executions (s_results s) !! k = Some r -> restartable r) ->
  let s' := set_ingest (set_accepted (repend_update now k d (i_accepted (s_ingest s))) (s_ingest s)) s in
  job_of s' i = job_of s i \/
  (i = k /\ exists n, job_of s i = (Held d, n) /\ job_of s' i = (Available, n)).
Proof.
  intros Hk s'. unfold repend_update in s'. destruct (decide (i = k)) as [->|Hne].
  2:{ left. apply job_of_same; [|done]. simpl. by rewrite lookup_alter_ne. }
  unfold job_of. simpl. rewrite lookup_alter_eq.
  destruct (i_accepted (s_ingest s) !! k) as [a|] eqn:Ea; [|by left]. simpl.
  destruct (decide (ar_dispatch_id a = Some d)) as [Hd|Hd]; [|by left]. right. split; [done|].
  exists (attempts_of (r_executions (s_results s) !! k)). rewrite Hd. split; [|done].
  destruct (r_executions (s_results s) !! k) as [r|] eqn:Er; [|done].
  specialize (Hk a r eq_refl Hd eq_refl). rewrite decide_False by by apply restartable_not_running. by rewrite decide_True.
Qed.

(** ** The operations *)

Section refinement.
Context `{EL : EnvLaws}.

(** *** Completions *)

Definition is_completion (op : store_op) (k : Z) (d : string) (outcome : JobOutcome) : Prop :=
  op = OpComplete k d outcome \/ op = OpCompleteWorkerResult k d outcome.

Lemma complete_refines op s now k d outcome reply at_ t' :
  is_completion op k d outcome -> store_inv s ->
  completed_by now [mkPendingCompletion k d outcome reply at_] (r_executions (s_results s)) t' ->
  refines op s (set_results (set_executions t' (s_results s)) s).
Proof.
  intros Hop Hinv Hby i.
  destruct (job_completed _ _ _ _ _ _ _ _ i Hinv Hby) as [-> |(-> & n & -> & ->)]; [apply rtc_refl|].
  apply rtc_once. destruct outcome as [payload|message].
  - exists (EvCompleted d). split; [by destruct Hop as [-> | ->]|constructor].
  - exists (EvFailed d). split; [destruct Hop as [-> | ->]; (split; [done|by left])|constructor].
Qed.

Lemma retry_refines op s now now2 k d outcome t' :
  let p := mkPendingCompletion k d outcome 0 0 in
  is_completion op k d outcome -> store_inv s -> completed_by now [p] (r_executions (s_results s)) t' ->
  disposition (s_results s) p = Repend ->
  let s1 := set_results (set_executions t' (s_results s)) s in
  refines op s (set_ingest (set_accepted (repend_update now2 k d (i_accepted (s_ingest s1))) (s_ingest s1)) s1).
Proof.
  intros p Hop Hinv Hby Hd s1 i. pose proof (complete_refines _ _ _ _ _ _ _ _ _ Hop Hinv Hby i) as Hfirst.
  destruct (job_repended s1 now2 k d i) as [-> |(-> & n & E1 & ->)]; [|done|].
  { intros a r _ _ Hr. by eapply repend_is_restartable. }
  eapply rtc_r; [exact Hfirst|]. fold s1. rewrite E1. exists (EvRetried d).
  unfold disposition in Hd. destruct (running_under _ _) as [r|] eqn:Erun; [|done].
  pose proof (completed_by_running _ _ _ _ _ Hby Erun : t' !! k = _) as Hk.
  apply running_under_Some in Erun as (Hr & _ & _). simpl in Hr.
  destruct outcome as [payload|message]; [done|]. simpl in Hd.
  assert (n = er_execution_count r) as ->.
  { unfold job_of in E1. simpl in E1. rewrite Hk in E1. by simplify_eq/=. }
  split; [destruct Hop as [-> | ->]; (split; [done|by right])|]. constructor. unfold limit_of. rewrite Hr. by case_decide.
Qed.

(** What holds after the results writer has recorded the result, and after the claim is released when
    it asks for a retry, holds after either operation. *)
Lemma wp_completion op k d outcome (P : store -> Prop) c :
  let p := mkPendingCompletion k d outcome 0 0 in
  is_completion op k d outcome -> P (c_db c) ->
  (forall now t', completed_by now [p] (r_executions (s_results (c_db c))) t' ->
     let s1 := set_results (set_executions t' (s_results (c_db c))) (c_db c) in
     P s1 /\
     (disposition (s_results (c_db c)) p = Repend -> forall now2,
        P (set_ingest (set_accepted (repend_update now2 k d (i_accepted (s_ingest s1))) (s_ingest s1)) s1))) ->
  wp (run_op op) (fun _ c' => P (c_db c')) c.
Proof.
  intros p Hop H0 Hafter.
  assert (Hread : forall c', P (c_db c') -> wp (Some <$> composed_job k) (fun _ c'' => P (c_db c'')) c').
  { intros c' Hc. unfold fmap, M_fmap. wp_rule. eapply wp_mono; [apply wp_composed_same|].
    intros [j|e] c'' E0; [wp_rule|]; by rewrite E0. }
  assert (Hunit : forall {A} (m : M store A) c', wp m (fun _ c'' => P (c_db c'')) c' ->
    wp (_ ← m; mret tt) (fun _ c'' => P (c_db c'')) c').
  { intros A m c' Hm. wp_rule. eapply wp_mono; [exact Hm|]. intros [a|e] c'' Hc; [by wp_rule|done]. }
  destruct Hop as [-> | ->]; apply Hunit; [unfold complete|unfold complete_worker_result]; wp_rule;
    (apply wp_call_complete; [done|]); intros now t' n Hby; destruct (Hafter now t' Hby) as [H1 H2];
    destruct (disposition _ _) eqn:Ed; try (by apply Hread); try (by wp_rule);
    wp_rule; (apply wp_call_repend; [done|]); intros now2 n2 _; specialize (H2 eq_refl now2).
  - by apply Hread.
  - by wp_rule.
Qed.

Lemma completion_refines op k d outcome c :
  is_completion op k d outcome -> store_inv (c_db c) -> wp (run_op op) (fun _ c' => refines op (c_db c) (c_db c')) c.
Proof.
  intros Hop Hinv. apply (wp_completion op k d outcome); [done|apply refines_refl|]. intros now t' Hby. split.
  - by eapply complete_refines.
  - intros Hd now2. by eapply retry_refines.
Qed.

(** *** Releases *)

Lemma release_claim_refines k d c :
  store_inv (c_db c) -> not_completed (c_db c) k d ->
  wp (release_claim k d) (fun _ c' => refines (OpReleaseClaim k d) (c_db c) (c_db c')) c.
Proof.
  intros Hinv Hnc. unfold release_claim. wp_rule. apply wp_query; [intros; apply refines_refl|].
  intros accepted Hacc. destruct (i_accepted (s_ingest (c_db c)) !! k) as [a|] eqn:Ea; simplify_eq/=.
  case_decide as Hd; [|wp_rule; apply refines_refl]. simpl in Hd.
  wp_rule. apply wp_call_abandon; [intros; apply refines_refl|]. intros now t' n Hby. cbn [c_step c_db] in *.
  set (s1 := set_results _ _).
  assert (Hfirst : refines (OpReleaseClaim k d) (c_db c) s1).
  { intros i. unfold s1. destruct (job_completed _ _ _ _ _ _ _ _ i Hinv Hby) as [-> |(-> & m & -> & ->)]; [apply rtc_refl|].
    apply rtc_once. exists (EvFailed d). split; [split; [done|by left]|constructor]. }
  wp_rule. apply wp_call_repend; [done|]. intros now2 n2 _. wp_rule. intros i. cbn [c_db].
  destruct (job_repended s1 now2 k d i) as [-> |(-> & m & E1 & ->)]; [|done|].
  - intros a' r Ha' _ Hr. simpl in Ha'. simplify_eq. by apply (release_restartable (c_db c) now k d t' a r).
  - eapply rtc_r; [apply Hfirst|]. rewrite E1. exists (EvReleased d). split; [split; [done|by right]|constructor].
Qed.

(** What releasing a claim does when its job is completed under it: the job is available again. *)
Definition reopened (k : Z) (d : string) (s s' : store) : Prop :=
  (exists n, job_of s k = (Done d, n) /\ job_of s' k = (Available, n)) /\ forall i, i <> k -> job_of s' i = job_of s i.

Lemma release_claim_reopens k d c r :
  store_inv (c_db c) -> r_executions (s_results (c_db c)) !! k = Some r -> er_dispatch_id r = d ->
  ~ running r -> ~ restartable r ->
  wp (release_claim k d) (fun _ c' =>
    refines (OpReleaseClaim k d) (c_db c) (c_db c') \/ reopened k d (c_db c) (c_db c')) c.
Proof.
  intros Hinv Hr Hrd Hnrun Hnres. unfold release_claim. wp_rule. apply wp_query; [intros; left; apply refines_refl|].
  intros accepted Hacc. destruct (i_accepted (s_ingest (c_db c)) !! k) as [a|] eqn:Ea; simplify_eq/=.
  case_decide as Hd; [|wp_rule; left; apply refines_refl]. simpl in Hd.
  wp_rule. apply wp_call_abandon; [intros; left; apply refines_refl|]. intros now t' n Hby. cbn [c_step c_db] in *.
  set (s1 := set_results _ _).
  assert (Hdone : job_of (c_db c) k = (Done (er_dispatch_id r), er_execution_count r)).
  { unfold job_of. rewrite Ea, Hr. simpl. rewrite Hd, decide_False, decide_False by done. done. }
  assert (Hsame : forall i, job_of s1 i = job_of (c_db c) i).
  { intros i. destruct (job_completed _ _ _ _ _ _ _ _ i Hinv Hby) as [? |(-> & m & Ej & _)]; [done|]. congruence. }
  assert (Ht' : t' !! k = Some r).
  { rewrite (completed_by_not_running _ _ _ _ Hby); [done|]. apply eq_None_not_Some. intros [r0 Hr0].
    apply running_under_Some in Hr0 as (? & ? & ?). simpl in *. congruence. }
  wp_rule. apply wp_call_repend; [intros; left; intros i; cbn [c_db]; rewrite Hsame; apply rtc_refl|].
  intros now2 n2 _. wp_rule. right. cbn [c_db]. split.
  - exists (er_execution_count r). split; [done|]. unfold job_of, repend_update. simpl.
    rewrite lookup_alter_eq, Ea, Ht'. simpl. by rewrite decide_True.
  - intros i Hne. rewrite <-(Hsame i). apply job_of_same; [|done]. simpl. unfold repend_update. by rewrite lookup_alter_ne.
Qed.

Lemma release_claim_moves k d c :
  store_inv (c_db c) ->
  wp (release_claim k d) (fun _ c' =>
    refines (OpReleaseClaim k d) (c_db c) (c_db c') \/ reopened k d (c_db c) (c_db c')) c.
Proof.
  intros Hinv.
  assert (Hsafe : not_completed (c_db c) k d -> wp (release_claim k d) (fun _ c' =>
    refines (OpReleaseClaim k d) (c_db c) (c_db c') \/ reopened k d (c_db c) (c_db c')) c).
  { intros Hnc. eapply wp_mono; [by apply release_claim_refines|]. by left. }
  destruct (r_executions (s_results (c_db c)) !! k) as [r|] eqn:Er; [|apply Hsafe; congruence].
  destruct (decide (er_dispatch_id r = d)) as [Hd|Hd]; [|apply Hsafe; congruence].
  destruct (decide (running r)) as [Hrun|Hrun]; [apply Hsafe; intros r' ? _; simplify_eq; by left|].
  destruct (decide (restartable r)) as [Hres|Hres]; [apply Hsafe; intros r' ? _; simplify_eq; by right|].
  by eapply release_claim_reopens.
Qed.

Lemma heal_refines c : store_inv (c_db c) -> wp heal_orphan_claims (fun _ c' => refines OpHeal (c_db c) (c_db c')) c.
Proof.
  intros Hinv. unfold heal_orphan_claims. wp_rule. apply wp_query; [intros; apply refines_refl|]. intros orphans _.
  wp_rule. wp_rule. cbn beta iota. cbn [c_step c_db]. set (now := clock _). wp_rule.
  apply (wp_for_each _ _ (fun _ _ c' => store_inv (c_db c') /\ s_results (c_db c') = s_results (c_db c) /\
    refines OpHeal (c_db c) (c_db c'))); [by split_and!; [..|apply refines_refl]| |by intros ys c' (_ & _ & ?); wp_rule].
  intros done [k d] rest ys c1 _ (Hi & Hres & Href). wp_rule. apply wp_query; [done|]. intros count [= <-]. cbn [fst snd].
  destruct (decide _) as [Hz|Hz]; [|by wp_rule]. apply wp_stmt; [done|]. intros [] s' [= <-]. cbn [c_db].
  assert (Hno : no_execution (c_db c1) d) by by apply no_execution_count.
  assert (Hre : forall a r, i_accepted (s_ingest (c_db c1)) !! k = Some a -> ar_dispatch_id a = Some d ->
    r_executions (s_results (c_db c1)) !! k = Some r -> restartable r).
  { intros a r Ha Hd Hr. destruct (si_linked _ Hi k a r Ha Hr) as [?|Hd']; [done|].
    destruct (Hno k r Hr). congruence. }
  split; [by apply (inv_repend (c_db c1) now k d)|]. split; [done|]. intros i.
  destruct (job_repended (c_db c1) now k d i Hre) as [E0|(-> & m & E1 & E2)].
  - etrans; [apply Href|]. rewrite <-E0. apply rtc_refl.
  - eapply rtc_r; [apply Href|]. rewrite E1. unfold repend_update in E2. rewrite E2. exists (EvReleased d).
    split; [exists d; split; [done|]; unfold no_execution in *; by rewrite <-Hres|constructor].
Qed.

(** *** Recovery *)

Lemma job_expired s now i :
  store_inv s ->
  let s' := set_results (set_executions (fail_where (lease_expired now) now (r_executions (s_results s))) (s_results s)) s in
  job_of s' i = job_of s i \/
  exists r n, r_executions (s_results s) !! i = Some r /\ lease_expired now r /\
    job_of s i = (Executing (er_dispatch_id r), n) /\ job_of s' i = (Held (er_dispatch_id r), n).
Proof.
  intros Hinv s'. unfold job_of. simpl. rewrite lookup_fail_where.
  destruct (r_executions (s_results s) !! i) as [r|] eqn:Er; [|by left].
  cbn [fmap option_fmap option_map]. destruct (decide (lease_expired now r)) as [Hexp|Hexp]; [|by left].
  destruct (i_accepted (s_ingest s) !! i) as [a|] eqn:Ea; [|by left].
  right. exists r, (er_execution_count r). pose proof Hexp as [Hrun _].
  pose proof (si_running s Hinv i a r Ea Er Hrun) as Hd. split_and!; [done|done|by rewrite (phase_executing (er_dispatch_id r))|].
  by rewrite (phase_held (er_dispatch_id r)) by (done || apply fail_row_restartable).
Qed.

Lemma recover_stale_leases_refines now c :
  store_inv (c_db c) ->
  wp (recover_stale_leases now) (fun _ c' => refines (OpRecoverStaleLeases now) (c_db c) (c_db c')) c.
Proof.
  intros Hinv. unfold recover_stale_leases. wp_rule.
  apply wp_call_recover_stale; [apply Hinv|intros; apply refines_refl|]. intros out n Hnd Hout.
  set (t' := fail_where _ _ _) in *. set (op := OpRecoverStaleLeases now).
  apply (wp_for_each _ _ (fun _ _ c' => r_executions (s_results (c_db c')) = t' /\ refines op (c_db c) (c_db c'))).
  - split; [done|]. intros i.
    destruct (job_expired (c_db c) now i Hinv) as [E0|(r & m & Hr & Hexp & E1 & E2)]; cbn [c_db]; subst t'.
    + rewrite E0. apply rtc_refl.
    + rewrite E1, E2. apply rtc_once. exists (EvFailed (er_dispatch_id r)).
      split; [exists r; split_and!; [done|done|by left]|constructor].
  - intros done x rest ys c1 -> [Ht Href]. unfold recover_one. wp_rule.
    destruct (proj1 (Hout x)) as (k & r0 & Hr0 & Hexp & ->); [apply elem_of_app; right; by left|].
    assert (Hk : t' !! k = Some (fail_row now "lease expired" r0)).
    { unfold t'. rewrite lookup_fail_where, Hr0. cbn [fmap option_fmap option_map]. by rewrite decide_True. }
    assert (Hread : forall c2, r_executions (s_results (c_db c2)) = t' -> refines op (c_db c) (c_db c2) ->
      wp (accepted ← accepted_row_of k; execution ← execution_of k; mret (merge_job accepted execution))
        (fun r c'' => match r with Ok _ => r_executions (s_results (c_db c'')) = t' /\ refines op (c_db c) (c_db c'')
                                 | Err _ => refines op (c_db c) (c_db c'') end) c2).
    { intros c2 Ht2 Hr2. wp_rule. apply wp_query; [done|]. intros a _. wp_rule. apply wp_query; [done|].
      intros o _. by wp_rule. }
    cbn [recovery_of rs_job_id rs_dispatch_id rs_should_repend]. case_bool_decide as Hlim; [|wp_rule; by apply Hread].
    apply wp_call_repend; [done|]. intros now2 n2 _. apply Hread; [done|]. intros i. cbn [c_db].
    destruct (job_repended (c_db c1) now2 k (er_dispatch_id r0) i) as [-> |(-> & m & E1 & ->)]; [|done|].
    { intros a r _ _ Hr. rewrite Ht, Hk in Hr. simplify_eq. apply fail_row_restartable. }
    eapply rtc_r; [apply Href|]. rewrite E1. exists (EvRetried (er_dispatch_id r0)).
    split; [exists r0; split_and!; [done|done|by right]|]. constructor.
    unfold job_of in E1. rewrite Ht, Hk in E1. unfold limit_of. rewrite Hr0. by simplify_eq/=.
  - by intros ys c' [_ ?].
Qed.

(** *** Intake and cleanup *)

Lemma enqueue_refines job c :
  store_inv (c_db c) -> store_room (c_db c) ->
  wp (enqueue job) (fun _ c' => refines (OpEnqueue job) (c_db c) (c_db c')) c.
Proof.
  intros Hinv [_ Hroom]. unfold enqueue. apply wp_call_enqueue; [done|intros; apply refines_refl|].
  intros n Hq id i. cbn [c_db].
  destruct (decide (i = id)) as [Ei|Hne]; [subst i|].
  2:{ apply unmoved; [ |done]. simpl. by rewrite lookup_insert_ne. }
  assert (Hnone : r_executions (s_results (c_db c)) !! id = None).
  { destruct (_ !! _) as [r|] eqn:Er; [|done]. apply (si_ids _ Hinv) in Er. unfold id, next_job_id in Er. lia. }
  apply rtc_once. exists EvSubmitted. split; [done|]. unfold job_of. simpl. rewrite Hnone, lookup_insert_eq.
  unfold id, next_job_id. rewrite next_id_fresh. constructor.
Qed.

Lemma store_upsert_queue_refines queue c :
  store_inv (c_db c) ->
  wp (store_upsert_queue queue) (fun _ c' => refines (OpUpsertQueue queue) (c_db c) (c_db c')) c.
Proof.
  intros Hinv. eapply wp_mono; [by apply wp_store_upsert_queue|]. intros r c' (_ & Ho & _) i.
  apply unmoved; [by rewrite (oq_accepted _ _ _ Ho)|by rewrite (oq_executions _ _ _ Ho)].
Qed.

Lemma ingest_cleanup_refines cutoff c :
  wp (call_ingest_cleanup cutoff) (fun _ c' => refines (OpIngestCleanup cutoff) (c_db c) (c_db c')) c.
Proof.
  apply wp_ingest_call. cbn [handle]. wp_rule. wp_rule.
  eapply wp_mono; [apply wp_cleanup|]. intros r c1 [_ Hr]. wp_rules. simpl in Hr. intros i.
  destruct r as [n|e]; [destruct Hr as [_ Hr]|]; rewrite Hr; [|apply rtc_refl].
  set (kept := filter _ (i_accepted _)).
  destruct (i_accepted (s_ingest (c_db c)) !! i) as [a|] eqn:Ea.
  2:{ apply unmoved; [ |done]. simpl. rewrite Ea. by apply map_lookup_filter_None; left. }
  destruct (decide (ar_created_at a < cutoff)) as [Hlt|Hlt].
  - apply rtc_once. exists EvExpired. split; [split; [done|by exists a]|]. unfold job_of. simpl.
    replace (kept !! i) with (@None accepted_row); [constructor|]. symmetry. apply map_lookup_filter_None. right.
    intros a' Ha'. simplify_eq/=. lia.
  - apply unmoved; [ |done]. simpl. rewrite Ea. by apply map_lookup_filter_Some.
Qed.

Lemma phase_forgotten a r : phase_of a None = forget (phase_of a r).
Proof. destruct a as [a|]; [|done]. simpl. destruct (ar_dispatch_id a); [|done]. destruct r; [|done]. by repeat case_decide. Qed.

Lemma results_cleanup_refines cutoff c :
  wp (call_results_cleanup cutoff) (fun _ c' => refines (OpResultsCleanup cutoff) (c_db c) (c_db c')) c.
Proof.
  apply wp_results_call. cbn [r_handle]. wp_rule. wp_rule. unfold r_cleanup_expired_records.
  apply wp_stmt; [intros e; wp_rules; destruct (c_db c); apply refines_refl|]. intros n db [= <- <-]. wp_rules. intros i.
  set (kept := filter _ (r_executions _)).
  destruct (r_executions (s_results (c_db c)) !! i) as [r|] eqn:Er.
  2:{ apply unmoved; [done|]. simpl. rewrite Er. by apply map_lookup_filter_None; left. }
  destruct (decide (er_updated_at r < cutoff)) as [Hlt|Hlt].
  - apply rtc_once. exists EvForgotten. split; [split; [done|by exists r]|]. unfold job_of. simpl.
    replace (kept !! i) with (@None execution_row).
    + rewrite (phase_forgotten _ (r_executions (s_results (c_db c)) !! i)). constructor.
    + symmetry. apply map_lookup_filter_None. right. intros r' Hr'. simplify_eq/=. lia.
  - apply unmoved; [done|]. simpl. rewrite Er. by apply map_lookup_filter_Some.
Qed.

(** *** Claims *)

(** What a claim that fails may have done: only jobs it could claim may be held. *)
Definition claim_undone (q : string) (s s' : store) : Prop := forall k,
  match i_accepted (s_ingest s) !! k with
  | None => i_accepted (s_ingest s') !! k = None
  | Some a => exists a', i_accepted (s_ingest s') !! k = Some a' /\
      (ar_dispatch_id a' = ar_dispatch_id a \/ (ar_dispatch_id a = None /\ ar_queue_name a = q))
  end.

Lemma claim_undone_refl q s : claim_undone q s s.
Proof. intros k. destruct (_ !! k) as [a|]; [exists a; by split; [|left]|done]. Qed.

Lemma claim_undone_claimed q limit s s1 claimed : claimed_ok q limit s s1 claimed -> claim_undone q s s1.
Proof.
  intros Hcl k. destruct (decide (k ∈ ic_id <$> claimed)) as [(x & -> & Hx)%list_elem_of_fmap|Hk].
  - destruct (cl_rows _ _ _ _ _ Hcl x Hx) as (a & now & -> & Hn & Hq & _ & _ & ->).
    eexists. split; [done|]. by right.
  - rewrite (cl_rest _ _ _ _ _ Hcl k Hk). destruct (_ !! k) as [a|]; [exists a; by split; [|left]|done].
Qed.

Lemma claim_undone_repend q s s1 now k d :
  claim_undone q s s1 -> (forall a, i_accepted (s_ingest s) !! k = Some a -> ar_dispatch_id a = None /\ ar_queue_name a = q) ->
  claim_undone q s (set_ingest (set_accepted (repend_update now k d (i_accepted (s_ingest s1))) (s_ingest s1)) s1).
Proof.
  intros Hun Hk i. specialize (Hun i). simpl. unfold repend_update.
  destruct (decide (i = k)) as [->|Hne]; [|by rewrite lookup_alter_ne].
  rewrite lookup_alter_eq. destruct (i_accepted (s_ingest s) !! k) as [a|] eqn:Ea; [|by rewrite Hun].
  destruct Hun as (a' & -> & _). simpl. eexists. split; [done|]. right. by apply Hk.
Qed.

Lemma wp_claim_batch_undone q limit c :
  store_inv (c_db c) -> store_room (c_db c) ->
  wp (claim_batch_inner q limit) (fun r c' => is_ok r = false ->
    s_results (c_db c') = s_results (c_db c) /\ claim_undone q (c_db c) (c_db c')) c.
Proof.
  intros Hinv Hroom. unfold claim_batch_inner. wp_rule.
  eapply wp_mono; [by apply wp_claim_step|].
  intros [claimed|e] c1 Hcl; [|intros _; rewrite Hcl; split; [done|apply claim_undone_refl]].
  destruct claimed as [|x0 claimed0] eqn:Ecl; [by wp_rule|].
  rewrite <-Ecl in *. clear x0 claimed0 Ecl.
  wp_rule. wp_rule. cbn beta iota. wp_rule. wp_rule. apply wp_call_dispatch. cbn [c_step c_db].
  intros res c' Hpost. eapply dispatch_claimed in Hpost; [|done..].
  destruct res as [out|e]; [by wp_rule|]. wp_rule.
  apply (wp_for_each _ _ (fun _ _ c2 => s_results (c_db c2) = s_results (c_db c) /\ claim_undone q (c_db c) (c_db c2))).
  - cbn [c_db]. rewrite Hpost. split; [apply Hcl|].
    replace (set_results _ _) with (c_db c1) by (by destruct (c_db c1)). by eapply claim_undone_claimed.
  - intros done x rest ys c2 -> [Hr Hun]. wp_rule. apply wp_call_repend; [done|]. intros now n _. cbn [c_db].
    split; [done|]. apply claim_undone_repend; [done|]. intros a Ha.
    destruct (cl_rows _ _ _ _ _ Hcl x) as (a0 & _ & Ha0 & ? & ? & _); [apply elem_of_app; right; by left|].
    by simplify_eq.
  - intros ys c2 H. by wp_rule.
Qed.

Lemma claim_undone_refines q limit s s' :
  store_inv s -> s_results s' = s_results s -> claim_undone q s s' -> refines (OpClaimBatch q limit) s s'.
Proof.
  intros Hinv Hres Hun k. specialize (Hun k).
  destruct (i_accepted (s_ingest s) !! k) as [a|] eqn:Ea; [|apply unmoved; [congruence|by rewrite Hres]].
  destruct Hun as (a' & Ha' & Hcase). unfold job_of. rewrite Ea, Ha', Hres. simpl.
  destruct Hcase as [Hd|[Hd Hq]].
  { rewrite Hd. apply rtc_refl. }
  destruct (ar_dispatch_id a') as [d|] eqn:Ed; rewrite Hd; [|apply rtc_refl].
  assert (Hheld : match r_executions (s_results s) !! k with
                  | Some r => if decide (running r) then Executing d else if decide (restartable r) then Held d else Done d
                  | None => Held d end = Held d).
  { destruct (r_executions (s_results s) !! k) as [r|] eqn:Er; [|done].
    pose proof (si_available s Hinv k a r Ea Hd Er) as Hre.
    rewrite decide_False by by apply restartable_not_running. by rewrite decide_True. }
  rewrite Hheld. apply rtc_once. exists (EvClaimed d). split; [|constructor]. split; [by exists a|]. exists d. by left.
Qed.

Lemma claim_batch_refines q limit c :
  store_inv (c_db c) -> store_room (c_db c) ->
  wp (claim_batch_inner q limit) (fun _ c' => refines (OpClaimBatch q limit) (c_db c) (c_db c')) c.
Proof.
  intros Hinv Hroom.
  eapply wp_mono; [apply wp_and; [by apply wp_claim_batch_inner|by apply wp_claim_batch_undone]|].
  intros [jobs|e] c' [(_ & _ & Hpost) Hun].
  2:{ destruct (Hun eq_refl) as [Hres Hu]. by apply claim_undone_refines. }
  destruct Hpost as (_ & Hjobs & Hrest). intros k.
  destruct (decide (k ∈ job_id <$> jobs)) as [(job & -> & Hjob)%list_elem_of_fmap|Hk]; [|by apply unmoved; apply Hrest].
  destruct (Hjobs job Hjob) as (Hq & a & r & d & Ha & Hn & Hqa & _ & Hr & Hrun & _ & (now & Ha') & _ & _ & _ & _ & Hcount).
  unfold job_of. rewrite Ha, Ha', Hr, (phase_executing d) by done. simpl. rewrite Hn, Hcount.
  set (n := attempts_of _).
  replace (match _ with Some r0 => _ | None => 1 end) with (n + 1) by (unfold n; by destruct (r_executions (s_results (c_db c)) !! job_id job)).
  assert (Hper : forall e, (e = EvClaimed d \/ e = EvStarted d) -> permits (OpClaimBatch q limit) (c_db c) (job_id job) e).
  { intros e He. split; [exists a; split_and!; congruence|by exists d]. }
  apply (rtc_l _ _ (Held d, n)).
  - exists (EvClaimed d). split; [apply Hper; by left|constructor].
  - apply rtc_once. exists (EvStarted d). split; [apply Hper; by right|constructor].
Qed.

(** *** Every operation *)

Lemma refines_unit {A} op (m : M store A) c :
  wp m (fun _ c' => refines op (c_db c) (c_db c')) c ->
  wp (_ ← m; mret tt) (fun _ c' => refines op (c_db c) (c_db c')) c.
Proof. intros Hm. wp_rule. eapply wp_mono; [exact Hm|]. intros [a|e] c' H; [by wp_rule|done]. Qed.

Lemma run_op_refines op c :
  store_inv (c_db c) -> store_room (c_db c) -> op_safe op (c_db c) ->
  wp (run_op op) (fun _ c' => refines op (c_db c) (c_db c')) c.
Proof.
  intros Hinv Hroom Hsafe.
  destruct op as [|job|q limit|k d o|k d o|k d|now|cutoff|cutoff|]; simpl in Hsafe;
    [| | |by apply (completion_refines _ k d o); [left|]|by apply (completion_refines _ k d o); [right|]| | | | |by apply heal_refines];
    apply refines_unit.
  - by apply store_upsert_queue_refines.
  - by apply enqueue_refines.
  - by apply claim_batch_refines.
  - by apply release_claim_refines.
  - by apply recover_stale_leases_refines.
  - apply ingest_cleanup_refines.
  - apply results_cleanup_refines.
Qed.
End refinement.

(** C2. The store refines the machine of a job, with one exception that is a defect. From linked
    databases with room for rowids, whatever operation runs and however it fails, every job has moved
    along the machine, by events the operation is for and on jobs it is about: a claim takes available
    jobs of its queue, a result concerns the job that executes under its dispatch id, a retry happens
    only within the queue's limit, and no other operation moves any job. The exception is the release of
    a claim under which its job is completed: it may make the job available again, and moves no other.
    The databases stay linked when that does not happen and a cleanup spares the newest job ([op_safe]). *)
Theorem store_refines_jobs `{EnvLaws} op n s r c' :
  store_inv s -> store_room s -> run_op op (Conn n s) = (r, c') ->
  (refines op s (c_db c') \/ exists k d, op = OpReleaseClaim k d /\ reopened k d s (c_db c')) /\
  (op_safe op s -> store_inv (c_db c') /\ refines op s (c_db c')).
Proof.
  intros Hinv Hroom Hrun. split.
  - assert ((exists k d, op = OpReleaseClaim k d) \/ (exists cutoff, op = OpIngestCleanup cutoff) \/ op_safe op s)
      as [(k & d & ->)|Hne] by (destruct op; simpl; eauto).
    + assert (Hwp : wp (run_op (OpReleaseClaim k d)) (fun _ c' =>
        refines (OpReleaseClaim k d) s (c_db c') \/ reopened k d s (c_db c')) (Conn n s)).
      { cbn [run_op]. wp_rule. eapply wp_mono; [by apply release_claim_moves|]. intros [a|e] c1 Hm; [by wp_rule|done]. }
      destruct (wp_run _ _ _ _ _ Hwp Hrun) as [?|?]; [by left|right; by exists k, d].
    + left. refine (wp_run _ (fun _ c' => refines op s (c_db c')) _ _ _ _ Hrun).
      destruct Hne as [(cutoff & ->)|Hsafe]; [|exact (run_op_refines op (Conn n s) Hinv Hroom Hsafe)].
      exact (refines_unit _ _ _ (ingest_cleanup_refines cutoff (Conn n s))).
  - intros Hsafe. split.
    + exact (wp_run _ (fun _ c' => store_inv (c_db c')) _ _ _ (run_op_inv op (Conn n s) Hinv Hroom Hsafe) Hrun).
    + exact (wp_run _ (fun _ c' => refines op s (c_db c')) _ _ _ (run_op_refines op (Conn n s) Hinv Hroom Hsafe) Hrun).
Qed.

(** A claim of the two jobs of [example_s]: the first is executing already, the second starts. *)
Lemma store_refines_jobs_witness :
  let c' := snd (run_op (E := model_env) (OpClaimBatch "email" 5) (Conn 100 example_s)) in
  job_of example_s 2 = (Available, 0) /\ (exists d, job_of (c_db c') 2 = (Executing d, 1)) /\
  refines (OpClaimBatch "email" 5) example_s (c_db c').
Proof.
  intros c'. split; [vm_compute; reflexivity|]. split; [eexists; vm_compute; reflexivity|].
  assert (Hinv : store_inv example_s) by solve_store_inv.
  assert (Hroom : store_room example_s) by (apply store_room_decide; vm_compute; reflexivity).
  refine (proj2 (proj2 (store_refines_jobs (E := model_env) (OpClaimBatch "email" 5) 100 example_s
    (fst (run_op (E := model_env) (OpClaimBatch "email" 5) (Conn 100 example_s))) c' Hinv Hroom _) I)).
  unfold c'. by destruct (run_op _ _).
Defined.

(** The exception happens: the release of the completed job 1 of [example_done] reopens it. *)
Example release_reopens : let s' := c_db (snd (run_op (E := model_env) (OpReleaseClaim 1 example_dispatch_id) (Conn 200 example_done))) in
  (exists n, job_of example_done 1 = (Done example_dispatch_id, n) /\ job_of s' 1 = (Available, n)).
Proof. eexists. split; vm_compute; reflexivity. Qed.

(** ** Consequences for the life of a job *)

(** The operations other than cleanups *)
Definition keeps_records (op : store_op) : Prop :=
  match op with OpIngestCleanup _ | OpResultsCleanup _ => False | _ => True end.

Lemma permits_records op s k e : keeps_records op -> permits op s k e -> e <> EvExpired /\ e <> EvForgotten.
Proof.
  destruct op as [|job|q limit|k' d o|k' d o|k' d|now| | |]; simpl; try done; intros _.
  - by intros [_ ->].
  - by intros (_ & d & [-> | ->]).
  - intros [_ H]. destruct o; [by subst|by destruct H as [-> | ->]].
  - intros [_ H]. destruct o; [by subst|by destruct H as [-> | ->]].
  - by intros [_ [-> | ->]].
  - by intros (r & _ & _ & [-> | ->]).
  - by intros (d & -> & _).
Qed.

Lemma done_stays_done op s k x y d n : keeps_records op -> rtc (op_step op s k) x y -> x = (Done d, n) -> y = (Done d, n).
Proof.
  intros Hop. induction 1 as [x|x y z (e & Hper & Hstep) _ IH]; [done|]. intros ->. apply IH.
  apply (permits_records _ _ _ _ Hop) in Hper as [Hexp Hforg]. by inversion Hstep; subst.
Qed.

(** C3. A job whose execution completed under a dispatch id stays done until a cleanup deletes its
    records, whatever other operations run, fail or are repeated: it is never available, never handed
    out and never started again, and counts no further execution. *)
Theorem completed_job_is_never_restarted `{EnvLaws} c c' k d n :
  store_inv (c_db c) -> store_run keeps_records c c' ->
  job_of (c_db c) k = (Done d, n) -> job_of (c_db c') k = (Done d, n).
Proof.
  intros Hinv Hrun Hd. apply (store_run_keeps keeps_records (fun s => job_of s k = (Done d, n)) c c'); [|done|done|done].
  intros op c0 Hop Hinv0 Hroom Hsafe Hd0. eapply wp_mono; [by apply run_op_refines|]. intros r c1 Href.
  by eapply done_stays_done; [exact Hop|exact (Href k)|].
Qed.

(** A late failure of the completed job 1, reported twice, and another claim *)
Definition late_results : list store_op :=
  [OpCompleteWorkerResult 1 example_dispatch_id (OFailed "late"); OpClaimBatch "email" 5].

Lemma completed_job_is_never_restarted_witness :
  exists d, job_of example_done 1 = (Done d, 1) /\
    job_of (c_db (run_ops late_results (Conn 200 example_done))) 1 = (Done d, 1).
Proof.
  exists example_dispatch_id. split; [vm_compute; reflexivity|].
  apply (completed_job_is_never_restarted (E := model_env) (Conn 200 example_done)); [solve_store_inv| |vm_compute; reflexivity].
  apply store_run_ops; [by repeat constructor|]. intros i Hi. apply store_room_decide.
  do 2 (destruct i as [|i]; [vm_compute; reflexivity|]). simpl in Hi. lia.
Defined.
