(* ===== verification/LostRetry.v ===== *)
(** * The retry that is lost between the two databases

    A failed execution is recorded by the results writer, and the job is made available for its retry
    by a second request, to the ingest writer. What is left when the second request never runs, because
    the process stops or the statement fails: a job no operation of the engine can move again. *)
From S2P Require Import Prelude Types Db Tables Ingest Results ResultsFacts ResultsDispatch ResultsProps Store StoreFacts StoreProps JobMachine.

(** The job is claimed under [d], and its execution under [d] is over without success. *)
Definition stuck (s : store) (k : Z) (d : string) : Prop :=
  exists a r, i_accepted (s_ingest s) !! k = Some a /\ ar_dispatch_id a = Some d /\
    r_executions (s_results s) !! k = Some r /\ er_dispatch_id r = d /\ restartable r.

(** The operations of the engine and of its start, other than the explicit release of this claim *)
Definition no_release (k : Z) (op : store_op) : Prop :=
  match op with OpReleaseClaim k' _ => k' <> k | OpIngestCleanup _ | OpResultsCleanup _ => False | _ => True end.

Section stuck.
Context `{EL : EnvLaws}.

Lemma stuck_same s s' k d a :
  stuck s k d -> i_accepted (s_ingest s') !! k = Some a -> ar_dispatch_id a = Some d ->
  r_executions (s_results s') !! k = r_executions (s_results s) !! k -> stuck s' k d.
Proof using Type. intros (a0 & r & _ & _ & Hr & Hd & Hre) Ha Hda E0. exists a, r. by rewrite E0. Qed.

Lemma stuck_unchanged s s' k d :
  stuck s k d -> i_accepted (s_ingest s') !! k = i_accepted (s_ingest s) !! k ->
  r_executions (s_results s') !! k = r_executions (s_results s) !! k -> stuck s' k d.
Proof using Type. intros Hs Ha Hr. pose proof Hs as (a & r & Ha0 & Hd & _). eapply stuck_same; [done|by rewrite Ha|done|done]. Qed.

Lemma stuck_completed s now ps t' k d :
  stuck s k d -> completed_by now ps (r_executions (s_results s)) t' ->
  stuck (set_results (set_executions t' (s_results s)) s) k d.
Proof using Type.
  intros Hs Hby. apply (stuck_unchanged s); [done|done|]. simpl. destruct Hs as (a & r & _ & _ & Hr & _ & Hre).
  specialize (Hby k). rewrite Hr in Hby. rewrite Hr.
  destruct Hby as [(p & _ & (_ & _ & Hrun) & _)|[_ ?]]; [|done]. by destruct (restartable_not_running r).
Qed.

(** The release of another claim, or of another dispatch of the job, leaves it stuck. *)
Lemma stuck_repended s now k' d' k d :
  stuck s k d -> (k', d') <> (k, d) ->
  stuck (set_ingest (set_accepted (repend_update now k' d' (i_accepted (s_ingest s))) (s_ingest s)) s) k d.
Proof using Type.
  intros Hs Hne. apply (stuck_unchanged s); [done| |done]. simpl. destruct Hs as (a & r & Ha & Hd & _).
  unfold repend_update. destruct (decide (k' = k)) as [->|Hk]; [|by rewrite lookup_alter_ne].
  rewrite lookup_alter_eq, Ha. simpl. rewrite decide_False; [done|]. congruence.
Qed.

Lemma not_running_under s k d : stuck s k d -> running_under (r_executions (s_results s)) (k, d) = None.
Proof using Type.
  intros (a & r & _ & _ & Hr & _ & Hre). destruct (running_under _ _) as [r'|] eqn:E0; [|done].
  apply running_under_Some in E0 as (Hr' & _ & Hrun). simpl in Hr'. simplify_eq. by destruct (restartable_not_running r).
Qed.

Lemma stuck_completion op k' d' outcome k d c :
  is_completion op k' d' outcome -> stuck (c_db c) k d -> wp (run_op op) (fun _ c' => stuck (c_db c') k d) c.
Proof.
  intros Hop Hs. apply (wp_completion op k' d' outcome (fun s => stuck s k d)); [done|done|].
  intros now t' Hby. split; [by eapply stuck_completed|]. intros Hd now2.
  apply stuck_repended; [by eapply stuck_completed|]. intros [= -> ->]. unfold disposition in Hd.
  change (pcm_key _) with (k, d) in Hd. by rewrite (not_running_under _ _ _ Hs) in Hd.
Qed.

Lemma stuck_claim q limit k d c :
  store_inv (c_db c) -> store_room (c_db c) -> stuck (c_db c) k d ->
  wp (claim_batch_inner q limit) (fun _ c' => stuck (c_db c') k d) c.
Proof.
  intros Hinv Hroom Hs.
  eapply wp_mono; [apply wp_and; [by apply wp_claim_batch_inner|by apply wp_claim_batch_undone]|].
  pose proof Hs as (a & r & Ha & Hd & _).
  intros [jobs|e] c' [(_ & _ & Hpost) Hun].
  - destruct Hpost as (_ & Hjobs & Hrest). destruct (decide (k ∈ job_id <$> jobs)) as [Hk|Hk].
    + apply list_elem_of_fmap in Hk as (job & -> & Hjob).
      destruct (Hjobs job Hjob) as (_ & a0 & r0 & d0 & Ha0 & Hn & _). congruence.
    + by apply (stuck_unchanged (c_db c)); [|apply Hrest|apply Hrest].
  - destruct (Hun eq_refl) as [Hres Hu]. specialize (Hu k). rewrite Ha in Hu.
    destruct Hu as (a' & Ha' & [Hd'|[Hn _]]); [|congruence].
    by apply (stuck_same (c_db c) _ _ _ a'); [|done|congruence|rewrite Hres].
Qed.

Lemma stuck_release k' d' k d c :
  k' <> k -> stuck (c_db c) k d -> wp (release_claim k' d') (fun _ c' => stuck (c_db c') k d) c.
Proof.
  intros Hne Hs. unfold release_claim. wp_rule. apply wp_query; [done|]. intros accepted _. cbn [c_db].
  case_decide; [|by wp_rule]. wp_rule. apply wp_call_abandon; [done|]. intros now t' n Hby. cbn [c_db] in *.
  pose proof (stuck_completed _ _ _ _ _ _ Hs Hby) as Hs1.
  wp_rule. apply wp_call_repend; [done|]. intros now2 n2 _. wp_rule. cbn [c_db].
  apply stuck_repended; [done|]. congruence.
Qed.

Lemma stuck_recover now k d c :
  store_inv (c_db c) -> stuck (c_db c) k d -> wp (recover_stale_leases now) (fun _ c' => stuck (c_db c') k d) c.
Proof.
  intros Hinv Hs. unfold recover_stale_leases. wp_rule.
  apply wp_call_recover_stale; [apply Hinv|done|]. intros out n _ Hout. cbn [c_db].
  assert (Hk : forall x, x ∈ out -> rs_job_id x <> k).
  { intros x (k0 & r0 & Hr0 & [Hrun _] & ->)%Hout. simpl. intros ->. destruct Hs as (a & r & _ & _ & Hr & _ & Hre).
    simplify_eq. by destruct (restartable_not_running r). }
  apply (wp_for_each _ _ (fun _ _ c' => stuck (c_db c') k d)); [|intros done_ x rest ys c1 -> Hs1|done].
  - cbn [c_db]. apply (stuck_unchanged (c_db c)); [done|done|]. simpl. rewrite lookup_fail_where.
    destruct Hs as (a & r & _ & _ & Hr & _ & Hre). rewrite Hr. cbn [fmap option_fmap option_map].
    rewrite decide_False; [done|]. intros [Hrun _]. by destruct (restartable_not_running r).
  - unfold recover_one. wp_rule.
    assert (Hread : forall c2, stuck (c_db c2) k d ->
      wp (accepted ← accepted_row_of (rs_job_id x); execution ← execution_of (rs_job_id x); mret (merge_job accepted execution))
        (fun r c'' => match r with Ok _ => stuck (c_db c'') k d | Err _ => stuck (c_db c'') k d end) c2).
    { intros c2 H2. wp_rule. apply wp_query; [done|]. intros a _. wp_rule. apply wp_query; [done|]. intros o _. by wp_rule. }
    destruct (rs_should_repend x); [|by wp_rule; apply Hread].
    apply wp_call_repend; [done|]. intros now2 n2 _. apply Hread. cbn [c_db]. apply stuck_repended; [done|].
    intros [= E0 _]. apply (Hk x); [|done]. apply elem_of_app. right. by left.
Qed.

Lemma stuck_heal k d c : stuck (c_db c) k d -> wp heal_orphan_claims (fun _ c' => stuck (c_db c') k d) c.
Proof.
  intros Hs. unfold heal_orphan_claims. wp_rule. apply wp_query; [done|]. intros orphans _.
  wp_rule. wp_rule. cbn beta iota. cbn [c_step c_db]. set (now := clock _). wp_rule.
  apply (wp_for_each _ _ (fun _ _ c' => stuck (c_db c') k d)); [done| |by intros; wp_rule].
  intros done [k' d'] rest ys c1 _ Hs1. wp_rule. apply wp_query; [done|]. intros count [= <-]. cbn [fst snd].
  destruct (decide _) as [Hz|Hz]; [|by wp_rule]. apply wp_stmt; [done|]. intros [] s' [= <-]. cbn [c_db].
  apply (stuck_repended (c_db c1) now); [done|]. intros [= -> ->].
  destruct Hs1 as (a & r & _ & _ & Hr & Hd & _). by apply (proj1 (no_execution_count _ d) Hz k r Hr).
Qed.

Lemma stuck_enqueue job k d c :
  store_room (c_db c) -> stuck (c_db c) k d -> wp (enqueue job) (fun _ c' => stuck (c_db c') k d) c.
Proof.
  intros [_ Hroom] Hs. unfold enqueue. apply wp_call_enqueue; [done|done|]. intros n _ id. cbn [c_db].
  apply (stuck_unchanged (c_db c)); [done| |done]. simpl. rewrite lookup_insert_ne; [done|].
  intros E0. destruct Hs as (a & r & Ha & _). unfold id, next_job_id in E0. rewrite <-E0, next_id_fresh in Ha. done.
Qed.

Lemma run_op_stuck op k d c :
  no_release k op -> store_inv (c_db c) -> store_room (c_db c) -> stuck (c_db c) k d ->
  wp (run_op op) (fun _ c' => stuck (c_db c') k d) c.
Proof.
  intros Hno Hinv Hroom Hs.
  assert (Hunit : forall {A} (m : M store A), wp m (fun _ c' => stuck (c_db c') k d) c ->
    wp (_ ← m; mret tt) (fun _ c' => stuck (c_db c') k d) c).
  { intros A m Hm. wp_rule. eapply wp_mono; [exact Hm|]. intros [a|e] c'' Hc; [by wp_rule|done]. }
  destruct op as [q|job|q limit|k' d' o|k' d' o|k' d'|now| | |]; simpl in Hno; try done.
  - apply Hunit. eapply wp_mono; [by apply wp_store_upsert_queue|]. intros r c' (_ & Ho & _).
    apply (stuck_unchanged (c_db c)); [done|by rewrite (oq_accepted _ _ _ Ho)|by rewrite (oq_executions _ _ _ Ho)].
  - by apply Hunit, stuck_enqueue.
  - by apply Hunit, stuck_claim.
  - by apply (stuck_completion _ k' d' o); [left|].
  - by apply (stuck_completion _ k' d' o); [right|].
  - by apply Hunit, stuck_release.
  - by apply Hunit, stuck_recover.
  - by apply stuck_heal.
Qed.
End stuck.

(** C40. A failed execution whose retry was granted, but whose claim was not released because the process
    stopped between the two databases: whatever the engine does afterwards, restarts included, the job
    stays claimed by the dispatch that is over. No claim hands it out, no recovery finds it, and opening
    the store does not heal it. *)
Theorem interrupted_retry_is_lost `{EnvLaws} k d message n s c1 c' :
  store_inv s -> is_Some (i_accepted (s_ingest s) !! k) -> is_Some (running_under (r_executions (s_results s)) (k, d)) ->
  call_complete k d (OFailed message) (Conn n s) = (Ok Repend, c1) -> store_run (no_release k) c1 c' ->
  exists m : Z, job_of (c_db c') k = (Held d, m) /\
    forall q limit jobs c'', store_room (c_db c') -> claim_batch_inner q limit c' = (Ok jobs, c'') -> k ∉ job_id <$> jobs.
Proof.
  intros Hinv [a Ha] [r Hr] Hcomplete Hrun.
  assert (store_inv (c_db c1) /\ stuck (c_db c1) k d) as [Hinv1 Hs].
  { refine (wp_run _ (fun res c1 => res = Ok Repend -> store_inv (c_db c1) /\ stuck (c_db c1) k d) _ _ _ _ Hcomplete eq_refl).
    apply wp_call_complete; [done|]. intros now t' m Hby _. cbn [c_db] in *.
    split; [by eapply inv_completed|].
    pose proof (completed_by_running _ _ _ _ _ Hby Hr : t' !! k = _) as Hk.
    apply running_under_Some in Hr as (Hr & Hd & Hrun'). simpl in Hr, Hd.
    eexists a, _. split_and!; [done|by rewrite (si_running _ Hinv k a r), Hd|exact Hk|done|by left]. }
  clear Hcomplete Ha Hr Hinv.
  assert (store_inv (c_db c') /\ stuck (c_db c') k d) as [Hinv' Hs'].
  { apply (store_run_keeps (no_release k) (fun s => stuck s k d) c1 c'); [|done|done|done].
    intros op c Hop Hinv Hroom _ Hs0. by apply run_op_stuck. }
  destruct Hs' as (a' & r' & Ha' & Hd' & Hr' & _ & Hre'). exists (er_execution_count r').
  split; [unfold job_of; by rewrite Ha', Hr', (phase_held d)|].
  intros q limit jobs c'' Hroom Hclaim Hk.
  destruct (wp_run _ _ _ _ _ (wp_claim_batch_inner q limit c' Hinv' Hroom) Hclaim) as (_ & _ & _ & Hjobs & _).
  apply list_elem_of_fmap in Hk as (job & -> & Hjob). destruct (Hjobs job Hjob) as (_ & a0 & ? & ? & Ha0 & Hn & _). congruence.
Qed.

(** Job 1 of [example_s] fails with a retry left; the process stops before the claim is released, the
    store is opened again, leases are recovered long after, and the queue is claimed. *)
Definition example_interrupted : conn store :=
  snd (call_complete (E := model_env) 1 example_dispatch_id (OFailed "boom") (Conn 100 example_s)).

Definition restart_ops : list store_op := [OpHeal; OpRecoverStaleLeases 1000000; OpClaimBatch "email" 5].

Lemma interrupted_retry_is_lost_witness :
  exists m, job_of (c_db (run_ops restart_ops example_interrupted)) 1 = (Held example_dispatch_id, m).
Proof.
  edestruct (interrupted_retry_is_lost (E := model_env) 1 example_dispatch_id "boom" 100 example_s
    example_interrupted (run_ops restart_ops example_interrupted)) as (m & Hm & _); [..|by exists m].
  - solve_store_inv.
  - vm_compute. by eexists.
  - vm_compute. by eexists.
  - unfold example_interrupted. vm_compute. reflexivity.
  - apply store_run_ops; [by repeat constructor|]. intros i Hi. apply store_room_decide.
    do 3 (destruct i as [|i]; [vm_compute; reflexivity|]). simpl in Hi. lia.
Defined.
