(* ===== verification/Attempts.v ===== *)
(** * How often a job is executed

    The machine of a job (JobMachine.v) counts the executions it has been given. Here: which operation
    changes that count, and the bound the retry limit of the job's queue puts on it, over any run of
    the store. *)
From stdpp Require Import relations.
From S2P Require Import Prelude Types Db Tables Ingest Results ResultsFacts ResultsDispatch ResultsProps Store StoreFacts StoreProps JobMachine.

(** The dispatch an execution is for, and how many the job has been given *)
Definition attempt_of (r : execution_row) : string * Z := (er_dispatch_id r, er_execution_count r).

Definition attempts (s : store) : gmap Z (string * Z) := attempt_of <$> r_executions (s_results s).

Definition is_claim (op : store_op) : Prop := match op with OpClaimBatch _ _ => True | _ => False end.

(** ** Only a claim starts an execution *)

Section kept.
Context `{EL : EnvLaws}.

Lemma attempts_same s s' : r_executions (s_results s') = r_executions (s_results s) -> attempts s' = attempts s.
Proof using Type. unfold attempts. by intros ->. Qed.

Lemma attempts_completed s now ps t' :
  completed_by now ps (r_executions (s_results s)) t' ->
  attempts (set_results (set_executions t' (s_results s)) s) = attempts s.
Proof using Type.
  intros Hby. apply map_eq. intros k. unfold attempts. simpl. rewrite !lookup_fmap. specialize (Hby k).
  destruct (r_executions _ !! k) as [r|]; [|by rewrite Hby].
  destruct Hby as [(p & _ & _ & ->)|[_ ->]]; [|done]. by destruct (pcm_outcome p).
Qed.

Lemma attempts_completion op k d outcome s0 c :
  is_completion op k d outcome -> attempts (c_db c) = s0 -> wp (run_op op) (fun _ c' => attempts (c_db c') = s0) c.
Proof.
  intros Hop H0. apply (wp_completion op k d outcome (fun s => attempts s = s0)); [done|done|].
  intros now t' Hby. assert (Ht := attempts_completed _ _ _ _ Hby). split; [congruence|].
  intros _ now2. rewrite <-H0, <-Ht. by apply attempts_same.
Qed.

Lemma attempts_release k d s0 c :
  attempts (c_db c) = s0 -> wp (release_claim k d) (fun _ c' => attempts (c_db c') = s0) c.
Proof.
  intros H0. unfold release_claim. wp_rule. apply wp_query; [done|]. intros accepted _. cbn [c_db].
  case_decide; [|by wp_rule]. wp_rule. apply wp_call_abandon; [done|]. intros now t' n Hby. cbn [c_db] in *.
  apply attempts_completed in Hby. wp_rule. apply wp_call_repend; [intros; cbn [c_db]; congruence|].
  intros now2 n2 _. wp_rule. cbn [c_db]. rewrite <-H0, <-Hby. by apply attempts_same.
Qed.

Lemma attempts_recover now s0 c :
  store_inv (c_db c) -> attempts (c_db c) = s0 ->
  wp (recover_stale_leases now) (fun _ c' => attempts (c_db c') = s0) c.
Proof.
  intros Hinv H0. unfold recover_stale_leases. wp_rule.
  apply wp_call_recover_stale; [apply Hinv|done|]. intros out n _ _. cbn [c_db].
  apply (wp_for_each _ _ (fun _ _ c' => attempts (c_db c') = s0)); [|intros done_ x rest ys c1 -> H1|done].
  - cbn [c_db]. rewrite <-H0. apply map_eq. intros k. unfold attempts. simpl.
    rewrite !lookup_fmap, lookup_fail_where. destruct (r_executions _ !! k) as [r|]; [|done].
    cbn [fmap option_fmap option_map]. by case_decide.
  - unfold recover_one. wp_rule.
    assert (Hread : forall c2, attempts (c_db c2) = s0 ->
      wp (accepted ← accepted_row_of (rs_job_id x); execution ← execution_of (rs_job_id x); mret (merge_job accepted execution))
        (fun r c'' => match r with Ok _ => attempts (c_db c'') = s0 | Err _ => attempts (c_db c'') = s0 end) c2).
    { intros c2 H2. wp_rule. apply wp_query; [done|]. intros a _. wp_rule. apply wp_query; [done|]. intros o _. by wp_rule. }
    destruct (rs_should_repend x); [|by wp_rule; apply Hread].
    apply wp_call_repend; [done|]. intros now2 n2 _. apply Hread. cbn [c_db]. rewrite <-H1. by apply attempts_same.
Qed.

Lemma attempts_heal s0 c : attempts (c_db c) = s0 -> wp heal_orphan_claims (fun _ c' => attempts (c_db c') = s0) c.
Proof.
  intros H0. unfold heal_orphan_claims. wp_rule. apply wp_query; [done|]. intros orphans _.
  wp_rule. wp_rule. cbn beta iota. cbn [c_step c_db]. set (now := clock _). wp_rule.
  apply (wp_for_each _ _ (fun _ _ c' => attempts (c_db c') = s0)); [done| |by intros; wp_rule].
  intros done [k' d'] rest ys c1 _ H1. wp_rule. apply wp_query; [done|]. intros count [= <-]. cbn [fst snd].
  destruct (decide _) as [Hz|Hz]; [|by wp_rule]. apply wp_stmt; [done|]. intros [] s' [= <-]. cbn [c_db].
  rewrite <-H1. by apply attempts_same.
Qed.

(** No other operation than a claim starts an execution, or turns it to another dispatch. *)
Lemma attempts_kept op c :
  keeps_records op -> ~ is_claim op -> store_inv (c_db c) -> store_room (c_db c) ->
  wp (run_op op) (fun _ c' => attempts (c_db c') = attempts (c_db c)) c.
Proof.
  intros Hop Hclaim Hinv [_ Hroom].
  assert (Hunit : forall {A} (m : M store A), wp m (fun _ c' => attempts (c_db c') = attempts (c_db c)) c ->
    wp (_ ← m; mret tt) (fun _ c' => attempts (c_db c') = attempts (c_db c)) c).
  { intros A m Hm. wp_rule. eapply wp_mono; [exact Hm|]. intros [a|e] c'' Hc; [by wp_rule|done]. }
  destruct op as [q|job|q limit|k' d' o|k' d' o|k' d'|now| | |]; simpl in Hop, Hclaim; try done.
  - apply Hunit. eapply wp_mono; [by apply wp_store_upsert_queue|]. intros r c' (_ & Ho & _).
    apply attempts_same. apply map_eq. intros k. by rewrite (oq_executions _ _ _ Ho).
  - apply Hunit. unfold enqueue. apply wp_call_enqueue; [done|done|]. intros n _ id. by apply attempts_same.
  - by apply (attempts_completion _ k' d' o); [left|].
  - by apply (attempts_completion _ k' d' o); [right|].
  - by apply Hunit, attempts_release.
  - by apply Hunit, attempts_recover.
  - by apply attempts_heal.
Qed.

(** A claim starts executions of available jobs only. *)
Lemma attempts_claimed q limit k a c :
  store_inv (c_db c) -> store_room (c_db c) -> i_accepted (s_ingest (c_db c)) !! k = Some a -> ar_dispatch_id a <> None ->
  wp (claim_batch_inner q limit) (fun _ c' => attempts (c_db c') !! k = attempts (c_db c) !! k) c.
Proof.
  intros Hinv Hroom Ha Hd.
  eapply wp_mono; [apply wp_and; [by apply wp_claim_batch_inner|by apply wp_claim_batch_undone]|].
  unfold attempts. intros [jobs|e] c' [(_ & _ & Hpost) Hun]; rewrite !lookup_fmap.
  - destruct Hpost as (_ & Hjobs & Hrest). f_equal. apply Hrest. intros (job & -> & Hjob)%list_elem_of_fmap.
    destruct (Hjobs job Hjob) as (_ & a0 & r0 & d0 & Ha0 & Hn & _). congruence.
  - by rewrite (proj1 (Hun eq_refl)).
Qed.
End kept.

(** ** The bound *)

(** How many claims of job [k] the operation explicitly gives back *)
Definition releases (k : Z) (op : store_op) : Z :=
  match op with OpReleaseClaim k' _ => if decide (k' = k) then 1 else 0 | _ => 0 end.

(** A run without cleanups in which the retry limit of job [k] is never above [limit], and which gives
    [n] claims of the job back. *)
Inductive attempts_run `{Env} (limit k : Z) : conn store -> Z -> conn store -> Prop :=
| attempts_nil c : attempts_run limit k c 0 c
| attempts_step op r c c1 n c2 :
    keeps_records op -> limit_of (c_db c) k <= limit -> store_room (c_db c) -> op_safe op (c_db c) ->
    run_op op c = (r, c1) -> attempts_run limit k c1 n c2 -> attempts_run limit k c (releases k op + n) c2.

(** A job that may still be claimed has been executed [b] times at most, any other once more at most. A
    claim whose execution has not started counts as available: the last execution was another dispatch,
    [d], if there was one. *)
Definition within (b : Z) (d : option string) (x : abstract_job) : Prop :=
  let '(p, n) := x in
  match p with
  | Absent | Available => n <= b
  | Held d' => n <= b + 1 /\ (d <> Some d' -> n <= b)
  | Executing d' => n <= b + 1 /\ d = Some d'
  | Done _ => n <= b + 1
  end.

Definition bounded (b : Z) (s : store) (k : Z) : Prop := within b (fst <$> attempts s !! k) (job_of s k).

Lemma permits_claim op s k e d : permits op s k e -> e = EvClaimed d \/ e = EvStarted d -> is_claim op.
Proof.
  intros Hper He. destruct op as [|job|q l|k' d' o|k' d' o|k' d'|now| | |]; simpl in *; try done;
    try destruct o; naive_solver.
Qed.

Lemma permits_release op s k d :
  permits op s k (EvReleased d) -> releases k op = 1 \/ (releases k op = 0 /\ no_execution s d).
Proof.
  intros Hper. destruct op as [|job|q l|k' d' o|k' d' o|k' d'|now| | |]; simpl in *; try done; try destruct o;
    try naive_solver.
  destruct Hper as [<- _]. left. by rewrite decide_True.
Qed.

(** The step of an operation other than a claim *)
Lemma step_within op s k limit b d x y :
  keeps_records op -> ~ is_claim op -> limit_of s k <= limit -> limit <= b -> d = fst <$> attempts s !! k ->
  op_step op s k x y -> within b d x -> within b d y \/ (releases k op = 1 /\ exists n, y = (Available, n) /\ n <= b + 1).
Proof.
  intros Hop Hclaim Hlim Hb Hd (e & Hper & Hstep) Hx. pose proof (permits_records _ _ _ _ Hop Hper) as [Hexp Hforg].
  pose proof (permits_claim op s k e) as Hcl.
  destruct Hstep as [|d0 n|d0 n|d0 n|d0 n|d0 n|d0 n Hn|p n|p n]; cbn [within] in Hx |- *; try done; [by left|..].
  - by destruct (Hclaim (Hcl d0 Hper (or_introl eq_refl))).
  - by destruct (Hclaim (Hcl d0 Hper (or_intror eq_refl))).
  - destruct (permits_release _ _ _ _ Hper) as [Hr|[_ Hno]]; [right; split; [done|]; exists n; split; [done|lia]|].
    left. apply Hx. rewrite Hd. unfold attempts. rewrite lookup_fmap. intros Heq.
    destruct (r_executions _ !! k) as [r|] eqn:Er; [|done]. simplify_eq/=. by apply (Hno k r).
  - left. lia.
  - left. split; [lia|]. by destruct Hx.
  - left. lia.
Qed.

Lemma steps_within op s k limit b d x y :
  keeps_records op -> ~ is_claim op -> limit_of s k <= limit -> limit <= b -> d = fst <$> attempts s !! k ->
  rtc (op_step op s k) x y -> within b d x -> within (b + releases k op) d y.
Proof.
  intros Hop Hclaim Hlim Hb Hd Hsteps Hx.
  assert (within b d y \/ (releases k op = 1 /\ exists n, y = (Available, n) /\ n <= b + 1)) as Hy.
  { assert (Hx0 : within b d x \/ (releases k op = 1 /\ exists n, x = (Available, n) /\ n <= b + 1)) by by left. clear Hx.
    induction Hsteps as [x|x y z Hxy _ IH]; [done|]. apply IH. destruct Hx0 as [Hx|(Hr & n & -> & Hn)]; [by eapply step_within|].
    destruct Hxy as (e & Hper & Hstep). pose proof (permits_records _ _ _ _ Hop Hper) as [Hexp Hforg].
    inversion Hstep; subst; try done. by destruct Hclaim; eapply permits_claim; [|left]. }
  destruct Hy as [Hy|(-> & n & -> & Hn)]; [|exact Hn]. assert (0 <= releases k op) by (destruct op; simpl; try case_decide; lia).
  destruct y as [[] n]; simpl in *; intuition lia.
Qed.

(** A step of a claim *)
Lemma claim_steps_within q l s k b x y :
  rtc (op_step (OpClaimBatch q l) s k) x y -> forall n, x = (Available, n) -> n <= b ->
  y = (Available, n) \/ (exists d, y = (Held d, n)) \/ exists d, y = (Executing d, n + 1).
Proof.
  assert (Hstep : forall x y, op_step (OpClaimBatch q l) s k x y ->
    (exists d n, x = (Available, n) /\ y = (Held d, n)) \/ exists d n, x = (Held d, n) /\ y = (Executing d, n + 1)).
  { intros x0 y0 (e & (_ & d & [-> | ->]) & Hs); inversion Hs; subst; [left|right]; by eexists _, _. }
  intros Hsteps n -> Hn. apply rtc_inv in Hsteps as [->|(x1 & H1 & Hsteps)]; [by left|].
  destruct (Hstep _ _ H1) as [(d & m & [= <-] & ->)|(? & ? & ? & _)]; [|done].
  apply rtc_inv in Hsteps as [<-|(x2 & H2 & Hsteps)]; [right; left; by exists d|].
  destruct (Hstep _ _ H2) as [(? & ? & ? & _)|(d' & m & [= <- <-] & ->)]; [done|].
  apply rtc_inv in Hsteps as [<-|(x3 & H3 & _)]; [right; right; by exists d|].
  destruct (Hstep _ _ H3) as [(? & ? & ? & _)|(? & ? & ? & _)]; done.
Qed.

Lemma executing_attempt s k d n : store_inv s -> job_of s k = (Executing d, n) -> fst <$> attempts s !! k = Some d.
Proof.
  intros Hinv. unfold job_of, attempts. rewrite lookup_fmap. intros [= Hp Hn].
  destruct (i_accepted (s_ingest s) !! k) as [a|] eqn:Ea; [|done]. simpl in Hp.
  destruct (ar_dispatch_id a) as [d0|] eqn:Ed; [|done].
  destruct (r_executions (s_results s) !! k) as [r|] eqn:Er; [|done]. simpl.
  repeat case_decide; simplify_eq. by rewrite <-Ed, (si_running s Hinv k a r).
Qed.

Section bound.
Context `{EL : EnvLaws}.

Lemma claim_bounded q l b s k c' :
  store_inv (c_db c') -> refines (OpClaimBatch q l) s (c_db c') ->
  (forall a, i_accepted (s_ingest s) !! k = Some a -> ar_dispatch_id a <> None -> attempts (c_db c') !! k = attempts s !! k) ->
  bounded b s k -> bounded b (c_db c') k.
Proof using Type.
  intros Hinv Href Hkeep Hb. specialize (Href k). unfold bounded in *.
  destruct (i_accepted (s_ingest s) !! k) as [a|] eqn:Ea.
  2:{ assert (job_of (c_db c') k = job_of s k) as ->.
      { apply rtc_inv in Href as [->|(y & (e & ((a & Ha & _) & _) & _) & _)]; [done|congruence]. }
      revert Hb. unfold job_of. by rewrite Ea. }
  destruct (ar_dispatch_id a) as [d|] eqn:Ed.
  - rewrite (Hkeep a eq_refl) by congruence.
    assert (job_of (c_db c') k = job_of s k) as ->; [|done].
    apply rtc_inv in Href as [->|(y & (e & ((a' & Ha & _ & Hn) & _) & _) & _)]; [done|congruence].
  - assert (exists n, job_of s k = (Available, n)) as [n Hs] by (unfold job_of; rewrite Ea; simpl; rewrite Ed; by eexists).
    rewrite Hs in Hb. cbn [within] in Hb.
    destruct (claim_steps_within _ _ _ _ b _ _ Href _ Hs Hb) as [->|[[d ->]|[d Hd]]]; [done|cbn [within]; lia|].
    rewrite Hd. split; [lia|]. by eapply executing_attempt.
Qed.

Lemma claim_op_bounded q l b k c :
  store_inv (c_db c) -> store_room (c_db c) -> bounded b (c_db c) k ->
  wp (run_op (OpClaimBatch q l)) (fun _ c' => bounded b (c_db c') k) c.
Proof.
  intros Hinv Hroom Hb.
  assert (Hkeep : wp (run_op (OpClaimBatch q l)) (fun _ c' => forall a, i_accepted (s_ingest (c_db c)) !! k = Some a ->
    ar_dispatch_id a <> None -> attempts (c_db c') !! k = attempts (c_db c) !! k) c).
  { simpl. wp_rule.
    destruct (i_accepted (s_ingest (c_db c)) !! k) as [a|] eqn:Ea;
      [destruct (decide (ar_dispatch_id a = None)) as [Hn|Hn]|].
    2:{ eapply wp_mono; [by apply (attempts_claimed q l k a)|]. intros [x|e] c1 Hk; [wp_rule|]; by intros. }
    all: eapply wp_mono; [by apply wp_claim_batch_inner|]; intros [x|e] c1 _; [wp_rule|]; intros; congruence. }
  eapply wp_mono; [apply wp_and; [exact Hkeep|apply wp_and; [by apply run_op_inv|by apply run_op_refines]]|].
  intros r c' (Hk & Hinv' & Href). by apply (claim_bounded q l b (c_db c)).
Qed.

Lemma run_op_bounded op limit b k c :
  keeps_records op -> limit_of (c_db c) k <= limit -> limit <= b ->
  store_inv (c_db c) -> store_room (c_db c) -> op_safe op (c_db c) -> bounded b (c_db c) k ->
  wp (run_op op) (fun _ c' => bounded (b + releases k op) (c_db c') k) c.
Proof.
  intros Hop Hlim Hle Hinv Hroom Hsafe Hb.
  assert (is_claim op \/ ~ is_claim op) as [Hcl|Hcl] by (destruct op; simpl; auto).
  { destruct op as [| |q l| | | | | | |]; try done. simpl releases. rewrite Z.add_0_r. by apply claim_op_bounded. }
  eapply wp_mono; [apply wp_and; [by apply run_op_refines|by apply attempts_kept]|].
  intros r c' [Href Hatt]. unfold bounded in *. rewrite Hatt. by apply (steps_within op (c_db c) k limit b _ (job_of (c_db c) k)).
Qed.
End bound.

(** C4. A job is executed at most once more than the retry limit of its queue allows retries, not
    counting the claims of it that are explicitly given back: from before its submission on, in any run
    without cleanups in which no claim, of this or another job, is released once its job is completed
    under it ([op_safe]), whatever operations run, fail or are repeated, with leases that expire and
    restarts that heal orphan claims included, its execution count stays within [limit + 1], plus one for
    each release. *)
Theorem executions_stay_within_retry_limit `{EnvLaws} limit k c n c' :
  store_inv (c_db c) -> job_of (c_db c) k = (Absent, 0) -> 0 <= limit -> attempts_run limit k c n c' ->
  (job_of (c_db c') k).2 <= limit + 1 + n.
Proof.
  intros Hinv Hjob Hlimit Hrun.
  assert (Hstart : bounded limit (c_db c) k) by (unfold bounded; by rewrite Hjob).
  assert (Hend : forall b, limit <= b -> bounded b (c_db c) k -> bounded (b + n) (c_db c') k).
  { clear Hjob Hstart. induction Hrun as [c|op r c c1 n c2 Hop Hlim Hroom Hsafe Hrun _ IH]; intros b Hle Hb; [by rewrite Z.add_0_r|].
    rewrite Z.add_assoc. assert (0 <= releases k op) by (destruct op; simpl; try case_decide; lia).
    apply IH; [|lia|].
    - exact (wp_run _ (fun _ c' => store_inv (c_db c')) _ _ _ (run_op_inv op c Hinv Hroom Hsafe) Hrun).
    - exact (wp_run _ (fun _ c' => bounded _ (c_db c') k) _ _ _ (run_op_bounded op limit b k c Hop Hlim Hle Hinv Hroom Hsafe Hb) Hrun). }
  specialize (Hend limit (Z.le_refl _) Hstart). unfold bounded in Hend.
  destruct (job_of (c_db c') k) as [[] m]; simpl in *; lia.
Qed.

Lemma attempts_run_ops limit k ops : forall c,
  Forall (fun op => keeps_records op /\ match op with OpReleaseClaim _ _ | OpIngestCleanup _ => False | _ => True end) ops ->
  (forall i, (i < length ops)%nat ->
     limit_of (c_db (run_ops (take i ops) c)) k <= limit /\ store_room (c_db (run_ops (take i ops) c))) ->
  attempts_run (H := model_env) limit k c 0 (run_ops ops c).
Proof.
  induction ops as [|op ops IH]; intros c Hops Hroom; [constructor|].
  apply Forall_cons in Hops as [[Hallowed Hop] Hops].
  replace 0 with (releases k op + 0) by (by destruct op).
  apply attempts_step with (fst (run_op (E := model_env) op c)) (snd (run_op (E := model_env) op c)); [done|..].
  - apply (Hroom 0%nat). simpl. lia.
  - apply (Hroom 0%nat). simpl. lia.
  - by destruct op.
  - by destruct (run_op _ _).
  - apply IH; [done|]. intros i Hi. apply (Hroom (S i)). simpl. lia.
Qed.

(** A queue that allows one retry; its job is claimed, its lease expires, twice; a third claim finds
    nothing. *)
Definition example_retries : list store_op :=
  [OpUpsertQueue (mkJobQueue "email" 1 60 0 0); OpEnqueue (AcceptedJob_new 10 "email" []);
   OpClaimBatch "email" 1; OpRecoverStaleLeases 1000000; OpClaimBatch "email" 1;
   OpRecoverStaleLeases 1000000; OpClaimBatch "email" 1; OpHeal].

Lemma executions_stay_within_retry_limit_witness :
  (job_of (c_db (run_ops example_retries (Conn 0 empty_store))) 1).2 = 2 /\
  (job_of (c_db (run_ops example_retries (Conn 0 empty_store))) 1).2 <= 1 + 1 + 0.
Proof.
  split; [vm_compute; reflexivity|].
  apply (executions_stay_within_retry_limit (E := model_env) 1 1 (Conn 0 empty_store)); [apply empty_store_inv|vm_compute; reflexivity|lia|].
  apply attempts_run_ops; [by repeat constructor|]. intros i Hi.
  do 8 (destruct i as [|i]; [split; [vm_compute; discriminate|apply store_room_decide; vm_compute; reflexivity]|]). simpl in Hi. lia.
Defined.
