(* ===== verification/Steps.v ===== *)
(** * Questions are never asked twice

    The counter of a connection only grows, so that the ids of one request differ from those of every
    earlier one. Proved once for each construct of the monad, and by these for the calls of the store. *)
From S2P Require Import Prelude Types Db Tables Ingest Results Store.

Definition steps_up {S A} (m : M S A) : Prop := forall c, (c_step c <= c_step (m c).2)%nat.

Section constructs.
Context {S : Type}.

Lemma up_ret {A} (a : A) : steps_up (S := S) (mret a).
Proof. by intros c. Qed.

Lemma up_fail {A} e : steps_up (S := S) (A := A) (fail e).
Proof. by intros c. Qed.

Lemma up_lift {A} (r : Result A) : steps_up (S := S) (lift_result r).
Proof. by intros c. Qed.

Lemma up_bind {A B} (m : M S A) (f : A -> M S B) : steps_up m -> (forall a, steps_up (f a)) -> steps_up (m ≫= f).
Proof.
  intros Hm Hf c. specialize (Hm c). unfold mbind, M_bind. destruct (m c) as [[a|e] c']; simpl in *; [|done].
  specialize (Hf a c'). lia.
Qed.

Lemma up_attempt {A} (m : M S A) : steps_up m -> steps_up (attempt m).
Proof. intros Hm c. specialize (Hm c). unfold attempt. by destruct (m c). Qed.

Lemma up_for_each {A B} (f : A -> M S B) l : (forall x, steps_up (f x)) -> steps_up (for_each f l).
Proof. intros Hf. induction l; simpl; auto using up_ret, up_bind. Qed.

Lemma up_thread {A B} (f : B -> A -> M S A) l a : (forall x a, steps_up (f x a)) -> steps_up (thread f l a).
Proof. intros Hf. revert a. induction l; intros a'; simpl; auto using up_ret, up_bind. Qed.

Context `{E : Env}.

Lemma up_ask {A} (f : nat -> A) : steps_up (S := S) (ask f).
Proof. intros c. simpl. lia. Qed.

Lemma up_stmt {A} (f : nat -> S -> Result (A * S)) : steps_up (stmt f).
Proof.
  intros c. unfold stmt. destruct (fault (c_step c)); [simpl; lia|]. destruct (f _ _) as [[a db]|e]; simpl; lia.
Qed.

Lemma up_query {A} (f : nat -> S -> Result A) : steps_up (query f).
Proof. apply up_stmt. Qed.

Lemma up_transaction {A} (m : M S A) : steps_up m -> steps_up (transaction m).
Proof.
  intros Hm c. unfold transaction. set (m' := mbind _ _).
  assert (steps_up m') as Hup.
  { apply up_bind; [apply up_stmt|]. intros _. apply up_bind; [done|]. intros a. apply up_bind; [apply up_stmt|].
    intros _. apply up_ret. }
  specialize (Hup c). by destruct (m' c) as [[a|e] c'].
Qed.
End constructs.

Create HintDb steps.
#[export] Hint Resolve up_ret up_fail up_lift up_bind up_attempt up_for_each up_thread up_ask up_stmt up_query
  up_transaction : steps.

(** Open a computation into its constructs. *)
Ltac steps_up :=
  repeat first
    [ progress intros
    | match goal with
      | |- steps_up (match ?x with _ => _ end) => destruct x
      end
    | progress auto 1 with steps nocore
    | first [apply up_bind | apply up_attempt | apply up_transaction | apply up_for_each | apply up_thread] ].

Section calls.
Context `{E : Env}.

Lemma up_handle request names : steps_up (handle request names).
Proof.
  destruct request; simpl; unfold upsert_queue, enqueue_batch, enqueue_chunk, claim_batch, claim_chunk, repend,
    repend_batch, Ingest.cleanup_expired_records, Ingest.vacuum, unix_now, instant_now, new_dispatch_id; steps_up.
Qed.

Lemma up_load_limits names limits : steps_up (load_limits names limits).
Proof.
  revert limits. induction names as [|name names IH]; intros limits; simpl; [apply up_ret|].
  destruct (limits !! name); [apply IH|]. apply up_bind; [apply up_query|]. intros max_retries. apply IH.
Qed.
#[local] Hint Resolve up_load_limits : steps.

Lemma up_r_handle request : steps_up (r_handle request).
Proof.
  destruct request; simpl; unfold r_upsert_queue, dispatch_batch, dispatch_chunk, complete_batch, complete_tx,
    complete_success_chunk, complete_fail_chunk, abandon, recover_stale, recover_chunk,
    r_cleanup_expired_records, r_vacuum, unix_now, instant_now; steps_up.
Qed.

Lemma up_ingest_call {A} build (read : IngestReply -> option (Result A)) : steps_up (ingest_call build read).
Proof.
  intros c. pose proof (up_handle (build 0%nat) (s_names (c_db c)) (Conn (c_step c) (s_ingest (c_db c)))) as Hup.
  unfold ingest_call. by destruct (handle _ _ _) as [[[replies names]|e] c'].
Qed.

Lemma up_results_call {A} build (read : ResultsReply -> option (Result A)) : steps_up (results_call build read).
Proof.
  intros c. pose proof (up_r_handle (build 0%nat) (Conn (c_step c) (s_results (c_db c)))) as Hup.
  unfold results_call. by destruct (r_handle _ _) as [[replies|e] c'].
Qed.
End calls.
#[export] Hint Resolve up_ingest_call up_results_call : steps.
