(* ===== verification/Concurrent.v ===== *)
(** * The store under concurrency

    [SqliteStore] of [crates/persistence/src/sqlite/store.rs] is shared by the tasks of the server: an
    operation is a sequence of requests to the two writers and of reads, and between two of them other
    operations go on. Here each operation is the sequence of its requests, with what it does with their
    answers; tasks run such sequences side by side, one request of any of them at a time (that a writer
    serves its requests as if one at a time is what [IngestLinear] and [ResultsLinear] show). *)
From stdpp Require Import relations.
From S2P Require Import Prelude Types Db Tables Ingest Results ResultsFacts ResultsDispatch ResultsProps Store StoreFacts StoreProps.
From S2P Require Import JobMachine.

(** ** Requests *)

(** What an operation waits for: a request to a writer, a read, or the clock *)
Inductive request : Type -> Type :=
| QUpsertQueue (queue : JobQueue) : request JobQueue
| QResultsUpsertQueue (queue : JobQueue) : request JobQueue
| QEnqueue (job : AcceptedJob) : request AcceptedJob
| QClaimBatch (queue_name : string) (limit : Z) : request (list IngestClaimed)
| QDispatch (rows : list DispatchInsert) : request (list DispatchedExecution)
| QComplete (job_id : Z) (dispatch_id : string) (outcome : JobOutcome) : request CompletionDisposition
| QAbandon (job_id : Z) (dispatch_id : string) : request unit
| QRepend (job_id : Z) (dispatch_id : string) : request unit
| QRecoverStale (now : Z) : request (list RecoveredStale)
| QIngestCleanup (cutoff : Z) : request nat
| QResultsCleanup (cutoff : Z) : request nat
| QAcceptedJob (job_id : Z) : request AcceptedJob
| QExecution (job_id : Z) : request (option Execution)
| QNow : request Z.

(** A task: the request it waits for and how it goes on, or its result *)
Inductive prog (A : Type) : Type :=
| Finished (r : Result A)
| Asking {B : Type} (q : request B) (k : Result B -> prog A).
Arguments Finished {A} r.
Arguments Asking {A B} q k.

#[export] Instance prog_ret : MRet prog := fun A a => Finished (Ok a).
#[export] Instance prog_bind : MBind prog := fun A B f =>
  fix bind (p : prog A) : prog B :=
    match p with
    | Finished (Ok a) => f a
    | Finished (Err e) => Finished (Err e)
    | Asking q k => Asking q (fun r => bind (k r))
    end.

Definition pask {B} (q : request B) : prog B := Asking q Finished.
Definition pfail {A} (e : StoreError) : prog A := Finished (Err e).

Fixpoint pattempt {A} (p : prog A) : prog (Result A) :=
  match p with
  | Finished r => Finished (Ok r)
  | Asking q k => Asking q (fun r => pattempt (k r))
  end.

Fixpoint pfor_each {A B} (f : A -> prog B) (l : list A) : prog (list B) :=
  match l with
  | [] => mret []
  | x :: l => y ← f x; ys ← pfor_each f l; mret (y :: ys)
  end.

(** ** The operations *)

Definition composed_job_task (job_id : Z) : prog Job :=
  accepted ← pask (QAcceptedJob job_id);
  execution ← pask (QExecution job_id);
  mret (merge_job accepted execution).

Definition claim_batch_task (queue_name : string) (limit : Z) : prog (list Job) :=
  claimed ← pask (QClaimBatch queue_name limit);
  match claimed with
  | [] => mret []
  | _ =>
      claimed_at ← pask QNow;
      res ← pattempt (pask (QDispatch (dispatch_row claimed_at <$> claimed)));
      match res with
      | Ok dispatched => mret (zip_with job_from_claimed claimed dispatched)
      | Err err =>
          _ ← pfor_each (fun row => pattempt (pask (QRepend (ic_id row) (ic_dispatch_id row)))) claimed;
          pfail err
      end
  end.

Definition upsert_queue_task (queue : JobQueue) : prog JobQueue :=
  queue ← pask (QUpsertQueue queue);
  _ ← pask (QResultsUpsertQueue queue);
  mret queue.

Definition complete_task (job_id : Z) (dispatch_id : string) (outcome : JobOutcome) : prog (option Job) :=
  disposition ← pask (QComplete job_id dispatch_id outcome);
  match disposition with
  | Ignored => mret None
  | Repend => _ ← pask (QRepend job_id dispatch_id); job ← composed_job_task job_id; mret (Some job)
  | DCompleted => job ← composed_job_task job_id; mret (Some job)
  end.

Definition complete_worker_result_task (job_id : Z) (dispatch_id : string) (outcome : JobOutcome) : prog bool :=
  disposition ← pask (QComplete job_id dispatch_id outcome);
  match disposition with
  | Repend => _ ← pask (QRepend job_id dispatch_id); mret true
  | _ => mret false
  end.

Definition release_claim_task (job_id : Z) (dispatch_id : string) : prog bool :=
  accepted ← pask (QAcceptedJob job_id);
  if decide (aj_dispatch_id accepted = Some dispatch_id) then
    _ ← pask (QAbandon job_id dispatch_id);
    _ ← pask (QRepend job_id dispatch_id);
    mret true
  else mret false.

Definition recover_one_task (item : RecoveredStale) : prog Job :=
  _ ← (if rs_should_repend item then pask (QRepend (rs_job_id item) (rs_dispatch_id item)) else mret tt);
  accepted ← pask (QAcceptedJob (rs_job_id item));
  execution ← pask (QExecution (rs_job_id item));
  mret (merge_job accepted execution).

Definition recover_stale_leases_task (now : Z) : prog (list Job) :=
  recovered ← pask (QRecoverStale now);
  pfor_each recover_one_task recovered.

Definition cleanup_expired_records_task (cutoff : Z) : prog nat :=
  jobs ← pask (QIngestCleanup cutoff);
  executions ← pask (QResultsCleanup cutoff);
  mret (jobs + executions)%nat.

(** ** Tasks side by side *)

Section tasks.
Context `{E : Env}.

Definition serve_request {B} (q : request B) : M store B :=
  match q with
  | QUpsertQueue queue => call_upsert_queue queue
  | QResultsUpsertQueue queue => call_r_upsert_queue queue
  | QEnqueue job => call_enqueue job
  | QClaimBatch queue_name limit => call_claim_batch queue_name limit
  | QDispatch rows => call_dispatch rows
  | QComplete job_id dispatch_id outcome => call_complete job_id dispatch_id outcome
  | QAbandon job_id dispatch_id => call_abandon job_id dispatch_id
  | QRepend job_id dispatch_id => call_repend job_id dispatch_id
  | QRecoverStale now => call_recover_stale now
  | QIngestCleanup cutoff => call_ingest_cleanup cutoff
  | QResultsCleanup cutoff => call_results_cleanup cutoff
  | QAcceptedJob job_id => accepted_row_of job_id
  | QExecution job_id => execution_of job_id
  | QNow => unix_now
  end.

(** A task that runs without any other *)
Fixpoint run_alone {A} (p : prog A) : M store A :=
  match p with
  | Finished r => lift_result r
  | Asking q k => fun c => let '(r, c') := serve_request q c in run_alone (k r) c'
  end.

(** The tasks the server runs; their results are dropped here. *)
Inductive store_task : prog unit -> Prop :=
| st_upsert_queue queue : store_task (_ ← upsert_queue_task queue; mret tt)
| st_enqueue job : store_task (_ ← pask (QEnqueue job); mret tt)
| st_get_job job_id : store_task (_ ← composed_job_task job_id; mret tt)
| st_claim_batch queue_name limit : store_task (_ ← claim_batch_task queue_name limit; mret tt)
| st_complete job_id dispatch_id outcome : store_task (_ ← complete_task job_id dispatch_id outcome; mret tt)
| st_complete_worker_result job_id dispatch_id outcome :
    store_task (_ ← complete_worker_result_task job_id dispatch_id outcome; mret tt)
| st_release_claim job_id dispatch_id : store_task (_ ← release_claim_task job_id dispatch_id; mret tt)
| st_recover_stale_leases now : store_task (_ ← recover_stale_leases_task now; mret tt)
| st_cleanup cutoff : store_task (_ ← cleanup_expired_records_task cutoff; mret tt).

(** What the invariant asks of the users of the store: there is room for rowids; a cleanup spares the
    newest job; and a claim that is abandoned is one that was handed out, so that its execution has been
    started, and is not completed. *)
Definition request_safe {B} (q : request B) (s : store) : Prop :=
  match q with
  | QEnqueue _ => id_room (i_accepted (s_ingest s)) 1
  | QDispatch rows => exec_room (r_executions (s_results s)) (length rows)
  | QIngestCleanup cutoff => newest_kept s cutoff
  | QAbandon k d => forall a, i_accepted (s_ingest s) !! k = Some a -> ar_dispatch_id a = Some d ->
      exists r, r_executions (s_results s) !! k = Some r /\ er_dispatch_id r = d /\ (running r \/ restartable r)
  | _ => True
  end.

(** The task [p] waits for a request that may be served from [s]. *)
Definition next_safe (p : prog unit) (s : store) : Prop :=
  match p with Finished _ => True | Asking q _ => request_safe q s end.

(** Its request is served, and the task goes on to its next one. *)
Definition serve_next (p : prog unit) (c : conn store) : option (prog unit * conn store) :=
  match p with
  | Finished _ => None
  | Asking q k => let '(r, c') := serve_request q c in Some (k r, c')
  end.

(** The tasks at work and the store: a task starts, a task goes on with a request of the allowed ones, or
    the process stops, which loses every task wherever it is, and the store is opened again. *)
Inductive tasks_step (allowed : prog unit -> Prop) :
    list (prog unit) * conn store -> list (prog unit) * conn store -> Prop :=
| ts_spawn p ts c : store_task p -> tasks_step allowed (ts, c) (p :: ts, c)
| ts_serve ts1 p ts2 c p' c' :
    allowed p -> next_safe p (c_db c) -> serve_next p c = Some (p', c') ->
    tasks_step allowed (ts1 ++ p :: ts2, c) (ts1 ++ p' :: ts2, c')
| ts_restart ts c r c' : heal_orphan_claims c = (r, c') -> tasks_step allowed (ts, c) ([], c').

Definition is_cleanup {B} (q : request B) : bool :=
  match q with QIngestCleanup _ | QResultsCleanup _ => true | _ => false end.

(** Every request but those of a cleanup *)
Definition no_cleanup (p : prog unit) : Prop :=
  match p with Finished _ => True | Asking q _ => is_cleanup q = false end.
End tasks.

(** The events of job [k] a request is for *)
Definition request_event {B} (q : request B) (s : store) (k : Z) (e : job_event) : Prop :=
  match q with
  | QEnqueue _ => k = next_job_id s /\ e = EvSubmitted
  | QClaimBatch queue_name _ =>
      (exists a, i_accepted (s_ingest s) !! k = Some a /\ ar_queue_name a = queue_name /\ ar_dispatch_id a = None) /\
      exists d, e = EvClaimed d
  | QDispatch rows => exists v, v ∈ rows /\ di_job_id v = k /\ e = EvStarted (di_dispatch_id v)
  | QComplete k' d outcome =>
      k = k' /\ e = match outcome with Succeeded _ => EvCompleted d | OFailed _ => EvFailed d end
  | QAbandon k' d => k = k' /\ e = EvFailed d
  | QRepend k' d => k = k' /\ e = EvReleased d
  | QRecoverStale now => exists r, r_executions (s_results s) !! k = Some r /\ lease_expired now r /\
      e = EvFailed (er_dispatch_id r)
  | QIngestCleanup cutoff => e = EvExpired /\ exists a, i_accepted (s_ingest s) !! k = Some a /\ ar_created_at a < cutoff
  | QResultsCleanup cutoff =>
      e = EvForgotten /\ exists r, r_executions (s_results s) !! k = Some r /\ er_updated_at r < cutoff
  | _ => False
  end.

(** The request moves each job by at most one step of its machine, by an event it is for; a job that is
    gone stays gone. *)
Definition request_moves {B} (q : request B) (s s' : store) : Prop := forall k,
  job_of s' k = job_of s k \/
  (exists e, request_event q s k e /\ job_step (limit_of s k) e (job_of s k) (job_of s' k)) \/
  ((job_of s k).1 = Absent /\ (job_of s' k).1 = Absent).
