(* ===== verification/ConcurrentTokens.v ===== *)
(** * The store under concurrency: tokens

    What a task relies on between two of its requests, as tokens it owns; and the bound on the executions
    of one job, for which the tokens say which claims may still be started or released. *)
From S2P Require Import Prelude Types Db Tables Ingest Results ResultsFacts ResultsDispatch ResultsProps Store StoreFacts StoreProps.
From S2P Require Import JobMachine.

(** ** Tokens *)

Inductive token : Type :=
| Claimed (job_id : Z) (dispatch_id : string) (** the task has claimed the job and not yet started it *)
| Known (job_id : Z) (dispatch_id : string)   (** the job has been seen, claimed under the id *)
| Retry (job_id : Z) (dispatch_id : string).   (** the claim may be released *)

Definition claim_of (t : token) : option (Z * string) := match t with Claimed k d => Some (k, d) | _ => None end.
Definition claims_of (toks : list token) : list (Z * string) := omap claim_of toks.

Section tokens.
Context `{EL : EnvLaws}.

(** The id was drawn at an earlier step. *)
Definition issued (n : nat) (d : string) : Prop := exists i, (i < n)%nat /\ d = uuid_v4 i.

(** The job is one that has been accepted, now or earlier. *)
Definition accepted_id (s : store) (k : Z) : Prop := k <= max_id (dom (i_accepted (s_ingest s))).

(** The execution of the job, if there is one, may be started again. *)
Definition startable (s : store) (k : Z) : Prop :=
  forall r, r_executions (s_results s) !! k = Some r -> restartable r.

Definition token_ok (claims : list (Z * string)) (n : nat) (s : store) (t : token) : Prop :=
  match t with
  | Known k d => issued n d /\ accepted_id s k
  | Claimed k d =>
      issued n d /\ accepted_id s k /\ startable s k /\ no_execution s d /\
      (forall a, i_accepted (s_ingest s) !! k = Some a -> ar_dispatch_id a = Some d)
  | Retry k d =>
      issued n d /\ accepted_id s k /\
      (i_accepted (s_ingest s) !! k = None \/
       ((k, d) ∉ claims /\
        (forall a, i_accepted (s_ingest s) !! k = Some a -> ar_dispatch_id a = Some d -> startable s k)))
  end.
End tokens.

(** ** How often one job is executed *)

(** The executions the job has been given *)
Definition count_of (s : store) (k : Z) : Z := attempts_of (r_executions (s_results s) !! k).

(** The execution of the job, if there is one, is another dispatch than its claim. *)
Definition unstarted (s : store) (k : Z) (a : accepted_row) : Prop :=
  forall d r, ar_dispatch_id a = Some d -> r_executions (s_results s) !! k = Some r -> er_dispatch_id r <> d.

(** Job [k] has been executed [b] times at most while it may still be started under its claim, or its claim
    released, and at most once more otherwise. *)
Record within_bound (k limit b : Z) (toks : list token) (s : store) : Prop := {
  wb_limit : 0 <= limit <= b;
  wb_all : count_of s k <= b + 1;
  wb_unstarted : forall a, i_accepted (s_ingest s) !! k = Some a -> unstarted s k a -> count_of s k <= b;
  wb_claimed : forall d, Claimed k d ∈ toks -> count_of s k <= b;
  wb_retry : forall d a, Retry k d ∈ toks -> i_accepted (s_ingest s) !! k = Some a -> ar_dispatch_id a = Some d ->
    count_of s k <= b
}.

Section bound.
Context (k limit b : Z).

Lemma bound_tokens toks toks' s :
  (forall t, t ∈ toks' -> t ∈ toks) -> within_bound k limit b toks s -> within_bound k limit b toks' s.
Proof. intros Hsub [? ? ? ? ?]. split; eauto. Qed.

Lemma bound_same toks s s' :
  i_accepted (s_ingest s') = i_accepted (s_ingest s) -> r_executions (s_results s') = r_executions (s_results s) ->
  within_bound k limit b toks s -> within_bound k limit b toks s'.
Proof. intros Ha Hr []. split; unfold unstarted, count_of in *; rewrite ?Ha, ?Hr; done. Qed.

(** Executions are finished, failed or deleted. *)
Lemma bound_executions toks s t' :
  (forall r', t' !! k = Some r' -> exists r, r_executions (s_results s) !! k = Some r /\
     er_dispatch_id r' = er_dispatch_id r /\ er_execution_count r' = er_execution_count r) ->
  within_bound k limit b toks s -> within_bound k limit b toks (set_results (set_executions t' (s_results s)) s).
Proof.
  intros Hsub [Hl Hall Hun Hcl Hre]. unfold count_of, unstarted in *. simpl in *.
  destruct (t' !! k) as [r'|] eqn:Ek; [|split; unfold count_of; simpl; rewrite ?Ek; simpl; intros; lia].
  destruct (Hsub r' eq_refl) as (r & Hr & Hd & Hc). rewrite Hr in *. simpl in *.
  split; unfold count_of, unstarted; simpl; rewrite ?Ek; simpl; rewrite ?Hc; try done.
  intros a Ha Hno. apply (Hun a Ha). intros d r0 Had [= <-]. rewrite <-Hd. by apply (Hno d).
Qed.

(** Claims are released and jobs deleted: the tracked job is only released when it may be started. *)
Lemma bound_accepted toks s t' :
  (forall a', t' !! k = Some a' -> exists a, i_accepted (s_ingest s) !! k = Some a /\
     (ar_dispatch_id a' = ar_dispatch_id a \/ count_of s k <= b /\ ar_dispatch_id a' = None)) ->
  within_bound k limit b toks s -> within_bound k limit b toks (set_ingest (set_accepted t' (s_ingest s)) s).
Proof.
  intros Hsub [Hl Hall Hun Hcl Hre]. split; unfold count_of, unstarted in *; simpl; try done.
  - intros a' Ha' Hno. destruct (Hsub a' Ha') as (a & Ha & [Hd|[? _]]); [|done]. apply (Hun a Ha). intros d r. rewrite <-Hd. apply Hno.
  - intros d a' Hin Ha' Hd'. destruct (Hsub a' Ha') as (a & Ha & [Hd|[? _]]); [|done]. apply (Hre d a Hin Ha). congruence.
Qed.

(** A new job has no execution. *)
Lemma bound_added toks s k' a :
  r_executions (s_results s) !! k' = None -> ar_dispatch_id a = None -> within_bound k limit b toks s ->
  within_bound k limit b toks (set_ingest (set_accepted (<[k' := a]> (i_accepted (s_ingest s))) (s_ingest s)) s).
Proof.
  intros Hnone Hd Hw. destruct (decide (k' = k)) as [->|Hne].
  - pose proof (wb_limit _ _ _ _ _ Hw). split; unfold count_of; simpl; rewrite ?Hnone; simpl; intros; lia.
  - apply bound_accepted; [|done]. intros a'. rewrite lookup_insert_ne by done. intros Ha'. exists a'. split; [done|by left].
Qed.

(** A claim that may be released *)
Lemma bound_retry toks s k' d :
  (k' = k -> forall a, i_accepted (s_ingest s) !! k = Some a -> ar_dispatch_id a = Some d -> count_of s k <= b) ->
  within_bound k limit b toks s -> within_bound k limit b (Retry k' d :: toks) s.
Proof.
  intros Hr [Hl Hall Hun Hcl Hre]. split; try done.
  - intros d' [?|?]%elem_of_cons; [done|by apply (Hcl d')].
  - intros d' a [[= -> ->]|?]%elem_of_cons; [by apply Hr|by apply Hre].
Qed.
End bound.

Lemma bound_mono k limit b b' toks s : b <= b' -> within_bound k limit b toks s -> within_bound k limit b' toks s.
Proof.
  intros Hb [Hl Hall Hun Hcl Hre]. split; [lia|lia|..].
  - intros a Ha Hno. specialize (Hun a Ha Hno). lia.
  - intros d Hd. specialize (Hcl d Hd). lia.
  - intros d a Hd Ha Had. specialize (Hre d a Hd Ha Had). lia.
Qed.

(** The job that is counted, and its retry limit; [None] counts no job. *)
Definition bound_ok (tracked : option (Z * Z)) (b : Z) (toks : list token) (s : store) : Prop :=
  match tracked with Some (k, limit) => within_bound k limit b toks s | None => True end.

(** The retry limit of the counted job is not above the one it is counted with. *)
Definition limit_ok (tracked : option (Z * Z)) (s : store) : Prop :=
  match tracked with Some (k, limit) => limit_of s k <= limit | None => True end.
