(* ===== verification/ConcurrentFacts.v ===== *)
(** * The store under concurrency: requests

    The invariant of the store with the tokens of all tasks, and what each request does to the store and
    to the tokens: served in any state that the tokens of all tasks allow, it moves every job along its
    machine and leaves a state that the tokens of the others still allow. *)
From stdpp Require Import relations.
From S2P Require Import Prelude Types Db Tables Ingest Results ResultsFacts ResultsDispatch ResultsProps Store StoreFacts StoreProps.
From S2P Require Import JobMachine Steps Concurrent ConcurrentTokens.

(** ** The invariant *)

Section tokens.
Context `{EL : EnvLaws} {tracked : option (Z * Z)} {bound : Z}.

(** The invariant with the tokens of all tasks: every id of the two databases has been issued, no job
    and no id is claimed twice, and the tokens hold; the bound on the executions of the tracked job. *)
Record conc_ok (toks : list token) (c : conn store) : Prop := {
  co_inv : store_inv (c_db c);
  co_accepted : forall k a d, i_accepted (s_ingest (c_db c)) !! k = Some a -> ar_dispatch_id a = Some d -> issued (c_step c) d;
  co_executions : forall k r, r_executions (s_results (c_db c)) !! k = Some r -> issued (c_step c) (er_dispatch_id r);
  co_jobs : NoDup (claims_of toks).*1;
  co_ids : NoDup (claims_of toks).*2;
  co_tokens : Forall (token_ok (claims_of toks) (c_step c) (c_db c)) toks;
  co_bound : bound_ok tracked bound toks (c_db c)
}.

(** The tracked job may be released. *)
Definition releasable (s : store) (k : Z) : Prop :=
  match tracked with Some (k0, _) => k0 = k -> count_of s k <= bound | None => True end.

Lemma bound_ok_tokens toks toks' s :
  (forall t, t ∈ toks' -> t ∈ toks) -> bound_ok tracked bound toks s -> bound_ok tracked bound toks' s.
Proof. destruct tracked as [[k limit]|]; [apply bound_tokens|done]. Qed.

Lemma bound_ok_same toks s s' :
  i_accepted (s_ingest s') = i_accepted (s_ingest s) -> r_executions (s_results s') = r_executions (s_results s) ->
  bound_ok tracked bound toks s -> bound_ok tracked bound toks s'.
Proof. destruct tracked as [[k limit]|]; [apply bound_same|done]. Qed.

(** A job whose execution has not been started under its claim, or is not claimed *)
Lemma unstarted_releasable toks s k a :
  bound_ok tracked bound toks s -> i_accepted (s_ingest s) !! k = Some a -> unstarted s k a -> releasable s k.
Proof.
  unfold releasable. destruct tracked as [[k0 limit]|]; [|done]. intros Hb Ha Hu ->. by eapply (wb_unstarted _ _ _ _ _ Hb).
Qed.

Lemma claims_of_app t1 t2 : claims_of (t1 ++ t2) = claims_of t1 ++ claims_of t2.
Proof. apply omap_app. Qed.

Lemma elem_of_claims toks k d : (k, d) ∈ claims_of toks <-> Claimed k d ∈ toks.
Proof.
  unfold claims_of. rewrite list_elem_of_omap. split.
  - intros (t & Ht & Heq). by destruct t; simplify_eq/=.
  - intros Ht. by exists (Claimed k d).
Qed.

Lemma issued_mono n n' d : (n <= n')%nat -> issued n d -> issued n' d.
Proof. intros ? (i & ? & ->). exists i. split; [lia|done]. Qed.

Lemma token_ok_claims claims claims' n s t :
  (forall x, x ∈ claims' -> x ∈ claims) -> token_ok claims n s t -> token_ok claims' n s t.
Proof. intros Hc. destruct t; simpl; [done..|]. intros (? & ? & [?|[? ?]]); (split_and!; [done|done|]); [by left|right; auto]. Qed.

Lemma conc_ok_perm toks toks' c : toks ≡ₚ toks' -> conc_ok toks c -> conc_ok toks' c.
Proof.
  intros Hp [Hi Ha He Hk Hd Ht Hb].
  assert (claims_of toks ≡ₚ claims_of toks') as Hc by (unfold claims_of; by rewrite Hp).
  split; [done|done|done|by rewrite <-Hc..| |by eapply bound_ok_tokens; [|exact Hb]; intros t; rewrite Hp]. apply Forall_forall. intros t Hin. rewrite <-Hp in Hin.
  eapply token_ok_claims; [|by eapply Forall_forall]. intros x. by rewrite Hc.
Qed.

Lemma conc_ok_drop toks frame c : conc_ok (toks ++ frame) c -> conc_ok frame c.
Proof.
  intros [Hi Ha He Hk Hd Ht Hb]. rewrite claims_of_app, ?fmap_app in *.
  apply NoDup_app in Hk as (_ & _ & ?), Hd as (_ & _ & ?). apply Forall_app in Ht as [_ Ht].
  split; try done; [|by eapply bound_ok_tokens; [|exact Hb]; intros t ?; apply elem_of_app; right].
  eapply Forall_impl; [exact Ht|]. intros t. apply token_ok_claims. set_solver.
Qed.

(** ** What keeps the invariant *)

Lemma conc_ok_later toks n n' s : conc_ok toks (Conn n s) -> (n <= n')%nat -> conc_ok toks (Conn n' s).
Proof.
  intros [Hi Ha He Hk Hd Ht Hb] Hn. simpl in *. split; simpl; eauto using issued_mono.
  eapply Forall_impl; [exact Ht|]. intros [k d|k d|k d]; simpl; intros [? ?]; split; eauto using issued_mono.
Qed.

(** Executions are finished, failed or deleted. *)
Lemma conc_executions toks n s t' :
  conc_ok toks (Conn n s) -> store_inv (set_results (set_executions t' (s_results s)) s) ->
  (forall k r', t' !! k = Some r' -> exists r, r_executions (s_results s) !! k = Some r /\
     (er_dispatch_id r' = er_dispatch_id r /\ er_execution_count r' = er_execution_count r) /\
     (restartable r -> restartable r')) ->
  conc_ok toks (Conn n (set_results (set_executions t' (s_results s)) s)).
Proof.
  intros [Hi Ha He Hk Hd Ht Hb] Hinv Hsub. simpl in *.
  assert (Hstart : forall k, startable s k -> startable (set_results (set_executions t' (s_results s)) s) k).
  { intros k Hs r' (r & Hr & _ & Hre)%Hsub. by apply Hre, Hs. }
  split; simpl; try done.
  - intros k r' (r & Hr & [-> _] & _)%Hsub. by apply (He k).
  - eapply Forall_impl; [exact Ht|]. intros [k d|k d|k d]; simpl; [|done|].
    + intros (? & ? & ? & Hno & ?). split_and!; auto. intros k' r' (r & Hr & [-> _] & _)%Hsub. by apply (Hno k').
    + intros (? & ? & [?|[? ?]]); (split_and!; [done|done|]); [by left|right; eauto].
  - destruct tracked as [[k0 limit]|]; [|done]. apply bound_executions; [|done].
    intros r' (r & Hr & [? ?] & _)%Hsub. by exists r.
Qed.

(** Claims are released and jobs deleted, none of those a task has claimed and the newest not. *)
Lemma conc_accepted toks n s t' :
  conc_ok toks (Conn n s) -> store_inv (set_ingest (set_accepted t' (s_ingest s)) s) ->
  max_id (dom (i_accepted (s_ingest s))) <= max_id (dom t') ->
  (forall k a', t' !! k = Some a' -> exists a, i_accepted (s_ingest s) !! k = Some a /\
     (ar_dispatch_id a' = ar_dispatch_id a \/ ar_dispatch_id a' = None /\ k ∉ (claims_of toks).*1 /\ releasable s k)) ->
  conc_ok toks (Conn n (set_ingest (set_accepted t' (s_ingest s)) s)).
Proof.
  intros [Hi Ha He Hk Hd Ht Hb] Hinv Hmax Hsub. simpl in *.
  assert (Hid : forall k, accepted_id s k -> accepted_id (set_ingest (set_accepted t' (s_ingest s)) s) k).
  { intros k Hle. unfold accepted_id in *. simpl. lia. }
  split; simpl; try done.
  - intros k a' d (a & Hka & [->|[-> _]])%Hsub ?; [by apply (Ha k a)|done].
  - apply Forall_forall. intros t Hin. pose proof (proj1 (Forall_forall _ _) Ht t Hin) as Hok.
    destruct t as [k d|k d|k d]; simpl in *; [|by destruct Hok; split; [|apply Hid]|].
    + destruct Hok as (? & ? & ? & ? & Hacc). split_and!; auto. intros a' (a & Hka & [->|(_ & Hn & _)])%Hsub; [by apply Hacc|].
      destruct Hn. apply elem_of_fst. exists d. by apply elem_of_claims.
    + destruct Hok as (? & ? & Hr). split_and!; [done|auto|].
      destruct (t' !! k) as [a'|] eqn:Ek; [|by left]. destruct (Hsub k a' Ek) as (a & Hka & Hdisp).
      destruct Hr as [Hr|[Hnc Hr]]; [congruence|]. right. split; [done|]. intros a2 [= <-] Hd2.
      apply (Hr a); [done|]. destruct Hdisp as [<-|[? _]]; congruence.
  - unfold releasable in Hsub. destruct tracked as [[k0 limit]|]; [|done]. apply bound_accepted; [|done].
    intros a' (a & Hka & [Hdisp|(Hnone & _ & Hrel)])%Hsub; exists a; (split; [done|]); [by left|right; auto].
Qed.

(** The rows of jobs and executions are as before. *)
Lemma conc_ok_rows toks c c' :
  conc_ok toks c -> store_inv (c_db c') -> (c_step c <= c_step c')%nat ->
  i_accepted (s_ingest (c_db c')) = i_accepted (s_ingest (c_db c)) ->
  r_executions (s_results (c_db c')) = r_executions (s_results (c_db c)) -> conc_ok toks c'.
Proof.
  destruct c as [n s], c' as [n' s']. simpl. intros Hok Hinv Hn Ha Hr. apply conc_ok_later with n; [|done].
  destruct Hok as [Hi Hia Hie Hk Hd Ht Hb]. simpl in *. split; simpl; rewrite ?Ha, ?Hr; try done;
    [|by eapply bound_ok_same].
  eapply Forall_impl; [exact Ht|]. intros [k d|k d|k d]; unfold token_ok, accepted_id, startable, no_execution; by rewrite ?Ha, ?Hr.
Qed.

(** The id of the next job has no execution yet. *)
Lemma next_id_free s : store_inv s -> r_executions (s_results s) !! next_job_id s = None.
Proof.
  intros Hinv. destruct (_ !! _) as [r|] eqn:Er; [|done]. apply (si_ids _ Hinv) in Er. unfold next_job_id in Er. lia.
Qed.

Lemma conc_enqueued toks n s job :
  conc_ok toks (Conn n s) -> aj_queue_name job ∈ s_names s ->
  conc_ok toks (Conn n (set_ingest (set_accepted
    (<[next_job_id s := new_accepted_row job]> (i_accepted (s_ingest s))) (s_ingest s)) s)).
Proof.
  intros [Hi Ha He Hk Hd Ht Hb] Hq. simpl in *. set (s' := set_ingest _ _).
  assert (Hid : forall k, accepted_id s k -> accepted_id s' k /\
    <[next_job_id s := new_accepted_row job]> (i_accepted (s_ingest s)) !! k = i_accepted (s_ingest s) !! k).
  { intros k Hle. unfold accepted_id, next_job_id in *. simpl. rewrite max_id_dom_insert. split; [lia|].
    apply lookup_insert_ne. lia. }
  split; simpl; try done.
  - by apply inv_enqueued.
  - intros k a d [[<- <-]|[_ Hka]]%lookup_insert_Some ?; [done|by apply (Ha k a)].
  - eapply Forall_impl; [exact Ht|]. intros [k d|k d|k d]; simpl.
    + intros (? & [? Hsame]%Hid & ? & ? & ?). split_and!; try done. by rewrite Hsame.
    + by intros (? & [? _]%Hid).
    + intros (? & [? Hsame]%Hid & ?). split_and!; try done. by rewrite Hsame.
  - destruct tracked as [[k0 limit]|]; [|done]. apply bound_added; [by apply next_id_free|done|done].
Qed.

Lemma conc_cleaned toks n s cutoff :
  conc_ok toks (Conn n s) -> newest_kept s cutoff ->
  conc_ok toks (Conn n (set_ingest (set_accepted
    (filter (fun kr => ~ ar_created_at kr.2 < cutoff) (i_accepted (s_ingest s))) (s_ingest s)) s)).
Proof.
  intros Hok Hnew. pose proof (co_inv _ _ Hok) as Hinv.
  apply conc_accepted; [done|by apply inv_cleaned_ingest|by apply newest_kept_max|].
  intros k a [Hk _]%map_lookup_filter_Some. exists a. split; [done|by left].
Qed.

Lemma conc_forgotten toks n s cutoff :
  conc_ok toks (Conn n s) ->
  conc_ok toks (Conn n (set_results (set_executions
    (filter (fun kr => ~ er_updated_at kr.2 < cutoff) (r_executions (s_results s))) (s_results s)) s)).
Proof.
  intros Hok. pose proof (co_inv _ _ Hok) as Hinv. simpl in Hinv.
  apply conc_executions; [done|apply inv_executions; [done|..]|].
  - eapply exec_wf_sub; [apply Hinv|]. intros k r [Hr _]%map_lookup_filter_Some. by exists r.
  - intros k r [Hr _]%map_lookup_filter_Some. split; [by apply (si_ids _ Hinv k r)|].
    intros a Ha. by apply (si_linked _ Hinv k a r).
  - intros k r [Hr _]%map_lookup_filter_Some. by exists r.
Qed.

Lemma conc_completed toks n s now ps t' :
  conc_ok toks (Conn n s) -> completed_by now ps (r_executions (s_results s)) t' ->
  conc_ok toks (Conn n (set_results (set_executions t' (s_results s)) s)).
Proof.
  intros Hok Hby. apply conc_executions; [done|eapply inv_completed; [apply Hok|done]|].
  intros k r' Hr'. specialize (Hby k). destruct (r_executions (s_results s) !! k) as [r|]; [|congruence].
  exists r. split; [done|]. destruct Hby as [(p & _ & (_ & _ & Hrun) & E')|[_ E']]; rewrite E' in Hr'; simplify_eq; [|done].
  split; [by destruct (pcm_outcome p)|]. intros ?. by destruct (running_not_restartable r).
Qed.

(** What the owner of a [Retry] token knows *)
Lemma retry_startable toks c k d :
  conc_ok toks c -> Retry k d ∈ toks ->
  forall a, i_accepted (s_ingest (c_db c)) !! k = Some a -> ar_dispatch_id a = Some d -> startable (c_db c) k.
Proof.
  intros Hok Hin a Ha Hd. pose proof (proj1 (Forall_forall _ _) (co_tokens _ _ Hok) _ Hin) as (_ & _ & [?|[_ Hr]]);
    [congruence|by apply (Hr a)].
Qed.

Lemma retry_releasable toks c k d :
  conc_ok toks c -> Retry k d ∈ toks ->
  forall a, i_accepted (s_ingest (c_db c)) !! k = Some a -> ar_dispatch_id a = Some d -> releasable (c_db c) k.
Proof.
  intros Hok Hin a Ha Hd. pose proof (co_bound _ _ Hok) as Hb. unfold releasable. destruct tracked as [[k0 limit]|]; [|done].
  intros ->. by eapply (wb_retry _ _ _ _ _ Hb).
Qed.

Lemma conc_repend toks n s now k d :
  conc_ok toks (Conn n s) -> Retry k d ∈ toks ->
  conc_ok toks (Conn n (set_ingest (set_accepted (repend_update now k d (i_accepted (s_ingest s))) (s_ingest s)) s)).
Proof.
  intros Hok Hin. apply conc_accepted; [done|..].
  - apply inv_repend; [apply Hok|]. intros a r Ha Hd Hr. by apply (retry_startable _ _ _ _ Hok Hin a).
  - unfold repend_update. by rewrite dom_alter_L.
  - intros i a'. unfold repend_update. rewrite lookup_alter_Some. intros [(<- & a & Ha & ->)|[_ Ha]]; [|eauto].
    exists a. split; [done|]. case_decide as Hd; [right|by left].
    split; [done|]. split; [|by apply (retry_releasable _ _ _ _ Hok Hin a)].
    intros [d' Hc%elem_of_claims]%elem_of_fst.
    pose proof (proj1 (Forall_forall _ _) (co_tokens _ _ Hok) _ Hc) as (_ & _ & _ & _ & Hacc).
    pose proof (proj1 (Forall_forall _ _) (co_tokens _ _ Hok) _ Hin) as (_ & _ & [?|[Hn _]]); simpl in *; [congruence|].
    apply Hn, elem_of_claims. specialize (Hacc a Ha). congruence.
Qed.

(** A task may release a claim no task has in hand whose execution may be started again. *)
Lemma conc_ok_retry toks n s k d :
  conc_ok toks (Conn n s) -> issued n d -> accepted_id s k ->
  (forall a, i_accepted (s_ingest s) !! k = Some a -> ar_dispatch_id a = Some d ->
     (k, d) ∉ claims_of toks /\ startable s k /\ releasable s k) ->
  conc_ok (Retry k d :: toks) (Conn n s).
Proof.
  intros [? ? ? ? ? Ht Hb] Hiss Hid Hr. unfold releasable in Hr. split; simpl; try done.
  2:{ destruct tracked as [[k0 limit]|]; [|done]. apply bound_retry; [|done]. intros -> a Ha Hd. by apply (Hr a). }
  constructor; [|done].
  split_and!; [done|done|]. destruct (i_accepted (s_ingest s) !! k) as [a|] eqn:Ea; [right|by left]. split.
  - intros Hc. pose proof Hc as Hc'%elem_of_claims.
    pose proof (proj1 (Forall_forall _ _) Ht _ Hc') as (_ & _ & _ & _ & Hacc). by apply (Hr a eq_refl); [apply Hacc|].
  - intros a' [= <-] Hd. by apply (Hr a).
Qed.

Lemma conc_ok_retries {A} (l : list A) (key : A -> Z * string) toks n s :
  conc_ok toks (Conn n s) ->
  (forall x, x ∈ l -> issued n (key x).2 /\ accepted_id s (key x).1 /\
     forall a, i_accepted (s_ingest s) !! (key x).1 = Some a -> ar_dispatch_id a = Some (key x).2 ->
       key x ∉ claims_of toks /\ startable s (key x).1 /\ releasable s (key x).1) ->
  conc_ok (((fun x => Retry (key x).1 (key x).2) <$> l) ++ toks) (Conn n s).
Proof.
  intros Hok Hl. induction l as [|x l IH]; [done|].
  destruct (Hl x) as (Hiss & Hid & Hr); [by left|]. apply conc_ok_retry; [by apply IH; set_solver|done|done|].
  intros a Ha Hd. destruct (Hr a Ha Hd) as (Hc & Hs & Hrel). split; [|done]. rewrite claims_of_app.
  intros [Hin|Hin]%elem_of_app; [|by destruct (key x)].
  apply elem_of_claims in Hin. by apply list_elem_of_fmap in Hin as (? & ? & _).
Qed.

(** No task has the claim of an execution that was started in hand. *)
Lemma executed_not_claimed toks c k r j d :
  conc_ok toks c -> r_executions (s_results (c_db c)) !! k = Some r -> er_dispatch_id r = d -> (j, d) ∉ claims_of toks.
Proof.
  intros Hok Hr Hd Hc%elem_of_claims.
  pose proof (proj1 (Forall_forall _ _) (co_tokens _ _ Hok) _ Hc) as (_ & _ & _ & Hno & _). by apply (Hno k r).
Qed.

(** An execution within the retry limit may be followed by another. *)
Lemma limit_releasable toks s s' k :
  bound_ok tracked bound toks s -> limit_ok tracked s -> count_of s' k <= limit_of s k -> releasable s' k.
Proof.
  unfold releasable. destruct tracked as [[k0 limit]|]; [|done]. simpl. intros Hb Hl Hc ->.
  pose proof (wb_limit _ _ _ _ _ Hb). lia.
Qed.

Lemma conc_ok_failed now k d outcome s toks n t' :
  let p := mkPendingCompletion k d outcome 0 0 in
  conc_ok toks (Conn n (set_results (set_executions t' (s_results s)) s)) -> store_inv s ->
  bound_ok tracked bound toks s -> limit_ok tracked s -> completed_by now [p] (r_executions (s_results s)) t' -> disposition (s_results s) p = Repend ->
  conc_ok (Retry k d :: toks) (Conn n (set_results (set_executions t' (s_results s)) s)).
Proof.
  intros p Hok Hinv Hb Hl Hby Hd. unfold disposition in Hd.
  destruct (running_under (r_executions (s_results s)) (pcm_key p)) as [r|] eqn:Er; [|done].
  pose proof (completed_by_running _ _ _ _ _ Hby Er : t' !! k = _) as Hk.
  pose proof Er as (Hr & Hdr & _)%running_under_Some. simpl in Hr, Hdr.
  assert (Hdk : er_dispatch_id (outcome_row now outcome r) = d) by by destruct outcome.
  apply conc_ok_retry; [done| | |intros a Ha Hda; split_and!].
  - rewrite <-Hdk. by apply (co_executions _ _ Hok k).
  - by apply (si_ids _ Hinv k r).
  - by apply (executed_not_claimed _ _ k (outcome_row now outcome r) k d Hok).
  - intros r' Hr'. apply (repend_is_restartable now k d outcome (s_results s) t'); [done| |done].
    unfold disposition. fold p. by rewrite Er.
  - apply (limit_releasable toks s); [done..|]. unfold count_of, limit_of. simpl. rewrite Hk, Hr.
    destruct outcome as [payload|message]; [done|]. simpl in *. by case_decide.
Qed.

(** The executions that have expired and may be retried *)
Definition retried (out : list RecoveredStale) : list RecoveredStale := filter (fun x => rs_should_repend x = true) out.
Definition recovered_tok (out : list RecoveredStale) : list token :=
  (fun x => Retry (rs_job_id x) (rs_dispatch_id x)) <$> retried out.

Lemma conc_recovered toks n s now out :
  conc_ok toks (Conn n s) -> limit_ok tracked s ->
  (forall x, x ∈ out <-> exists k r, r_executions (s_results s) !! k = Some r /\ lease_expired now r /\
     x = recovery_of (s_results s) k r) ->
  conc_ok (recovered_tok out ++ toks)
    (Conn n (set_results (set_executions (fail_where (lease_expired now) now (r_executions (s_results s))) (s_results s)) s)).
Proof.
  intros Hok Hl Hout. pose proof (co_inv _ _ Hok) as Hinv. pose proof (co_bound _ _ Hok) as Hb. simpl in Hinv, Hb.
  apply (conc_ok_retries (retried out) (fun x => (rs_job_id x, rs_dispatch_id x))).
  - apply conc_executions; [done|apply inv_fail_where; [done|by intros r [? _]]|].
    intros k r'. rewrite lookup_fail_where. intros (r & Hr & ->)%fmap_Some_1. exists r.
    split; [done|]. case_decide; (split; [done|]); [|done]. intros _. apply fail_row_restartable.
  - intros x [Hx (k & r & Hr & Hexp & ->)%Hout]%list_elem_of_filter. simpl in *. apply bool_decide_eq_true in Hx. split_and!.
    + by apply (co_executions _ _ Hok k).
    + by apply (si_ids _ Hinv k r).
    + intros _ _ _. split; [by apply (executed_not_claimed _ _ k r k _ Hok)|].
      assert (Hk : fail_where (lease_expired now) now (r_executions (s_results s)) !! k = Some (fail_row now "lease expired" r)).
      { rewrite lookup_fail_where, Hr. cbn [fmap option_fmap option_map]. by rewrite decide_True. }
      split; [intros r'; simpl; rewrite Hk; intros [= <-]; apply fail_row_restartable|].
      apply (limit_releasable toks s); [done..|]. unfold count_of, limit_of. simpl. by rewrite Hk, Hr.
Qed.

(** *** Claims *)

Definition claims_tok (claimed : list IngestClaimed) : list token :=
  (fun x => Claimed (ic_id x) (ic_dispatch_id x)) <$> claimed.

Lemma claims_of_claimed claimed : claims_of (claims_tok claimed) = (fun x => (ic_id x, ic_dispatch_id x)) <$> claimed.
Proof. induction claimed as [|x l IH]; [done|]. exact (f_equal (cons _) IH). Qed.

Lemma new_ids_issued n0 n ds d : new_ids n0 n ds -> d ∈ ds -> issued n d /\ ~ issued n0 d.
Proof.
  intros (ks & -> & _ & Hb) (i & -> & Hi)%list_elem_of_fmap. rewrite Forall_forall in Hb. apply Hb in Hi. split.
  - exists i. split; [lia|done].
  - intros (j & Hj & Heq%uuid_v4_inj). lia.
Qed.

(** A token keeps its meaning when others claim jobs. *)
Lemma token_ok_claimed claimed c c' toks t :
  token_ok (claims_of toks) (c_step c) (c_db c) t -> (c_step c <= c_step c')%nat ->
  s_results (c_db c') = s_results (c_db c) -> (forall k, accepted_id (c_db c) k -> accepted_id (c_db c') k) ->
  dom (i_accepted (s_ingest (c_db c'))) = dom (i_accepted (s_ingest (c_db c))) ->
  (forall x, x ∈ claimed -> ~ issued (c_step c) (ic_dispatch_id x)) ->
  (forall k d, (k, d) ∈ claims_of toks -> k ∉ ic_id <$> claimed) -> t ∈ toks ->
  (forall k a, i_accepted (s_ingest (c_db c')) !! k = Some a ->
    (exists x, x ∈ claimed /\ ic_id x = k /\ ar_dispatch_id a = Some (ic_dispatch_id x)) \/
    (k ∉ ic_id <$> claimed /\ i_accepted (s_ingest (c_db c)) !! k = Some a)) ->
  token_ok (((fun x => (ic_id x, ic_dispatch_id x)) <$> claimed) ++ claims_of toks) (c_step c') (c_db c') t.
Proof.
  intros Hold Hn Hres Hid Hdom Hnew Hdis Hin Hother.
  assert (Hst : forall k, startable (c_db c) k -> startable (c_db c') k) by (intros k; unfold startable; by rewrite Hres).
  destruct t as [k d|k d|k d]; simpl in *.
  - destruct Hold as (Hiss & ? & ? & ? & Hacc). split_and!; [by eapply issued_mono|auto|auto|unfold no_execution; by rewrite Hres|].
    intros a [(x & Hx & <- & _)|[_ Hka]]%Hother; [|by apply Hacc].
    destruct (Hdis (ic_id x) d); [by apply elem_of_claims|by apply list_elem_of_fmap_2].
  - destruct Hold as [Hiss ?]. split; [by eapply issued_mono|auto].
  - destruct Hold as (Hiss & ? & Hr). split_and!; [by eapply issued_mono|auto|]. destruct Hr as [Hnone|[Hnc Hr]].
    { left. apply not_elem_of_dom. rewrite Hdom. by apply not_elem_of_dom. }
    right. split.
    + intros [(x & [= -> ->] & Hx)%list_elem_of_fmap|?]%elem_of_app; [by apply (Hnew x)|done].
    + intros a [(x & Hx & _ & Hdx)|[_ Hka]]%Hother ?; [|apply Hst; by apply (Hr a)].
      simplify_eq. by destruct (Hnew x).
Qed.

(** A claim takes only jobs that nobody has, under ids that nobody has seen. *)
Record fresh_claim (toks : list token) (c : conn store) (claimed : list IngestClaimed) : Prop := {
  fc_jobs : NoDup (ic_id <$> claimed);
  fc_free : forall x, x ∈ claimed -> exists a, i_accepted (s_ingest (c_db c)) !! ic_id x = Some a /\ ar_dispatch_id a = None;
  fc_disjoint : forall k d, (k, d) ∈ claims_of toks -> k ∉ ic_id <$> claimed
}.

Lemma claim_is_fresh toks q limit c s1 claimed :
  conc_ok toks c -> claimed_ok q limit (c_db c) s1 claimed -> fresh_claim toks c claimed.
Proof.
  intros Hok Hcl.
  assert (Hfree : forall x, x ∈ claimed -> exists a, i_accepted (s_ingest (c_db c)) !! ic_id x = Some a /\ ar_dispatch_id a = None).
  { intros x Hx. destruct (cl_rows _ _ _ _ _ Hcl x Hx) as (a & _ & Ha & Hn & _). by exists a. }
  split; [|done|].
  - rewrite (cl_ids _ _ _ _ _ Hcl). apply pending_ready.
  - intros k d Hc%elem_of_claims (x & -> & Hx)%list_elem_of_fmap. destruct (Hfree x Hx) as (a & Ha & Hn).
    pose proof (proj1 (Forall_forall _ _) (co_tokens _ _ Hok) _ Hc) as (_ & _ & _ & _ & Hacc). specialize (Hacc a Ha). congruence.
Qed.

(** The tracked job is claimed only when it may be started. *)
Lemma bound_claimed toks q limit c c' claimed :
  conc_ok toks c -> claimed_ok q limit (c_db c) (c_db c') claimed ->
  (forall x, x ∈ claimed -> ~ issued (c_step c) (ic_dispatch_id x)) ->
  (forall k a, i_accepted (s_ingest (c_db c')) !! k = Some a ->
    (exists x, x ∈ claimed /\ ic_id x = k /\ ar_dispatch_id a = Some (ic_dispatch_id x)) \/
    (k ∉ ic_id <$> claimed /\ i_accepted (s_ingest (c_db c)) !! k = Some a)) ->
  bound_ok tracked bound (claims_tok claimed ++ toks) (c_db c').
Proof.
  intros Hok Hcl Hnew Hother. pose proof (claim_is_fresh _ _ _ _ _ _ Hok Hcl) as [_ Hfree _].
  pose proof (co_bound _ _ Hok) as Hb. destruct tracked as [[k0 lim]|]; [|done].
  pose proof (cl_results _ _ _ _ _ Hcl) as Hres.
  assert (Hcount : forall x, x ∈ claimed -> ic_id x = k0 -> count_of (c_db c') k0 <= bound).
  { intros x Hx <-. destruct (Hfree x Hx) as (a0 & Ha0 & Hn0). unfold count_of. rewrite Hres.
    apply (wb_unstarted _ _ _ _ _ Hb a0 Ha0). intros d r Hd. congruence. }
  destruct Hb as [Hl Hall Hun Hc Hre]. split; [done|unfold count_of in *; by rewrite Hres|..].
  - intros a [(x & Hx & Hk & _)|[_ Ha]]%Hother Hno; [by apply (Hcount x)|].
    unfold count_of, unstarted in *. rewrite Hres in *. by apply (Hun a).
  - intros d [(x & [= -> ->] & Hx)%list_elem_of_fmap|Hin]%elem_of_app; [by apply (Hcount x)|].
    unfold count_of in *. rewrite Hres. by apply (Hc d).
  - intros d a [(x & ? & Hx)%list_elem_of_fmap|Hin]%elem_of_app Ha Hd; [done|].
    pose proof (proj1 (Forall_forall _ _) (co_tokens _ _ Hok) _ Hin) as [Hiss _].
    apply Hother in Ha as [(x & Hx & Hk & _)|[_ Ha]]; [by apply (Hcount x)|].
    unfold count_of in *. rewrite Hres. by apply (Hre d a).
Qed.

Lemma conc_claimed toks q limit c c' claimed :
  conc_ok toks c -> claimed_ok q limit (c_db c) (c_db c') claimed ->
  new_ids (c_step c) (c_step c') (ic_dispatch_id <$> claimed) -> (c_step c <= c_step c')%nat ->
  conc_ok (claims_tok claimed ++ toks) c'.
Proof.
  intros Hok Hcl Hids Hn. pose proof (claim_is_fresh _ _ _ _ _ _ Hok Hcl) as [Hnd Hfree Hdis].
  pose proof Hok as [Hi Ha He Hk Hd Ht _]. pose proof Hcl as [Hinv Hres Hdom _ Hrows Hrest _].
  assert (Hnew : forall x, x ∈ claimed -> issued (c_step c') (ic_dispatch_id x) /\ ~ issued (c_step c) (ic_dispatch_id x)).
  { intros x Hx. apply (new_ids_issued _ _ _ _ Hids). by apply list_elem_of_fmap_2. }
  assert (Hid : forall k, accepted_id (c_db c) k -> accepted_id (c_db c') k) by (intros k; unfold accepted_id; by rewrite Hdom).
  assert (Hother : forall k a, i_accepted (s_ingest (c_db c')) !! k = Some a ->
    (exists x, x ∈ claimed /\ ic_id x = k /\ ar_dispatch_id a = Some (ic_dispatch_id x)) \/
    (k ∉ ic_id <$> claimed /\ i_accepted (s_ingest (c_db c)) !! k = Some a)).
  { intros k a Hka. destruct (decide (k ∈ ic_id <$> claimed)) as [Hin|Hin]; [left|right; by rewrite <-Hrest].
    apply list_elem_of_fmap in Hin as (x & -> & Hx). exists x. split_and!; [done..|].
    destruct (Hrows x Hx) as (a0 & now & _ & _ & _ & _ & _ & Hx'). by simplify_eq. }
  split; rewrite ?claims_of_app, ?fmap_app, ?claims_of_claimed, <-?list_fmap_compose; try done.
  - intros k a d [(x & Hx & _ & Hdx)|[_ Hka]]%Hother ?; [|eapply issued_mono; [exact Hn|by apply (Ha k a)]].
    simplify_eq. by apply Hnew.
  - rewrite Hres. intros k r Hr. eapply issued_mono; [exact Hn|by apply (He k)].
  - apply NoDup_app. split_and!; [done| |done]. intros k Hk1 (d & Hc)%elem_of_fst. by apply (Hdis k d).
  - apply NoDup_app. split_and!; [by eapply new_ids_NoDup| |done].
    intros ? (x & -> & Hx)%list_elem_of_fmap ([k d] & Hd2 & Hc%elem_of_claims)%list_elem_of_fmap. simpl in Hd2. subst d.
    destruct (Hnew x Hx) as [_ Hold]. apply Hold.
    pose proof (proj1 (Forall_forall _ _) Ht _ Hc) as Htok. apply Htok.
  - apply Forall_app. split; apply Forall_forall; intros t Hin.
    + apply list_elem_of_fmap in Hin as (x & -> & Hx). destruct (Hnew x Hx) as [Hiss Hold], (Hfree x Hx) as (a0 & Ha0 & Hn0).
      split_and!; [done|by apply Hid, max_id_ge, elem_of_dom_2 with a0|..].
      * intros r. rewrite Hres. by apply (si_available _ Hi _ a0).
      * intros k r. rewrite Hres. intros Hr Heq. apply Hold. rewrite <-Heq. by apply (He k).
      * intros a. destruct (Hrows x Hx) as (a1 & now & _ & _ & _ & _ & _ & ->). by intros [= <-].
    + pose proof (proj1 (Forall_forall _ _) Ht t Hin) as Hold. apply (token_ok_claimed claimed c c'); try done. intros x Hx. by apply Hnew.
  - apply (bound_claimed toks q limit c); try done. intros x Hx. by apply Hnew.
Qed.

(** *** Starting *)

Definition starts_tok (rows : list DispatchInsert) : list token :=
  (fun v => Claimed (di_job_id v) (di_dispatch_id v)) <$> rows.
Definition retries_tok (rows : list DispatchInsert) : list token :=
  (fun v => Retry (di_job_id v) (di_dispatch_id v)) <$> rows.

Definition row_key (v : DispatchInsert) : Z * string := (di_job_id v, di_dispatch_id v).

Lemma claims_of_starts rows : claims_of (starts_tok rows) = row_key <$> rows.
Proof. induction rows as [|v l IH]; [done|]. exact (f_equal (cons _) IH). Qed.

Lemma row_claimed rows toks c v :
  conc_ok (starts_tok rows ++ toks) c -> v ∈ rows ->
  token_ok (claims_of (starts_tok rows ++ toks)) (c_step c) (c_db c) (Claimed (di_job_id v) (di_dispatch_id v)).
Proof.
  intros Hok Hv. apply (proj1 (Forall_forall _ _) (co_tokens _ _ Hok)), elem_of_app. left.
  by apply (list_elem_of_fmap_2 (fun v => Claimed (di_job_id v) (di_dispatch_id v))).
Qed.

Lemma row_releasable rows toks c v :
  conc_ok (starts_tok rows ++ toks) c -> v ∈ rows -> releasable (c_db c) (di_job_id v).
Proof.
  intros Hok Hv. pose proof (co_bound _ _ Hok) as Hb. unfold releasable. destruct tracked as [[k0 limit]|]; [|done].
  intros ->. apply (wb_claimed _ _ _ _ _ Hb (di_dispatch_id v)), elem_of_app. left.
  by apply (list_elem_of_fmap_2 (fun v => Claimed (di_job_id v) (di_dispatch_id v))).
Qed.

(** The jobs and the ids of the rows are none of the other tasks'. *)
Lemma rows_apart rows toks c :
  conc_ok (starts_tok rows ++ toks) c ->
  NoDup (di_job_id <$> rows) /\ forall k d, (k, d) ∈ claims_of toks -> k ∉ di_job_id <$> rows /\ d ∉ di_dispatch_id <$> rows.
Proof.
  intros [_ _ _ Hk Hd _ _]. rewrite claims_of_app, claims_of_starts in Hk, Hd.
  rewrite fmap_app, <-list_fmap_compose in Hk. rewrite fmap_app, <-list_fmap_compose in Hd.
  apply NoDup_app in Hk as (Hk & Hkd & _), Hd as (_ & Hdd & _). split; [done|]. intros k d Hc. split; intros Hin.
  - apply (Hkd k Hin). apply elem_of_fst. by exists d.
  - apply (Hdd d Hin). apply list_elem_of_fmap. by exists (k, d).
Qed.

(** The claims of a dispatch that failed may be released. *)
Lemma conc_undo rows toks c : conc_ok (starts_tok rows ++ toks) c -> conc_ok (retries_tok rows ++ toks) c.
Proof.
  intros Hok. destruct (rows_apart _ _ _ Hok) as [_ Hapart]. destruct c as [n s].
  apply (conc_ok_retries rows row_key); [by eapply conc_ok_drop|]. intros v Hv.
  destruct (row_claimed _ _ _ _ Hok Hv) as (? & ? & Hst & _). split_and!; [done|done|]. intros a _ _. split_and!; [|done|].
  - intros [Hk _]%Hapart. apply Hk. by apply list_elem_of_fmap_2.
  - exact (row_releasable _ _ _ v Hok Hv).
Qed.

(** A dispatch that is committed starts every row. *)
Lemma dispatch_starts_all rows toks now c t' rws :
  conc_ok (starts_tok rows ++ toks) c -> dispatched_by now rows (r_executions (s_results (c_db c))) t' rws ->
  forall v, v ∈ rows -> di_job_id v ∈ rws.*1.
Proof.
  intros Hok Hby v Hv. destruct (decide (di_job_id v ∈ rws.*1)) as [|Hn]; [done|].
  apply (db_rest _ _ _ _ _ Hby) in Hn as [_ Hn]. destruct (Hn v Hv eq_refl) as (r & Hr & Hnr).
  destruct (row_claimed _ _ _ _ Hok Hv) as (_ & _ & Hst & _). by destruct Hnr; apply Hst.
Qed.

(** A token of another task keeps its meaning. *)
Lemma token_ok_started rows toks now n s t' rws t :
  conc_ok (starts_tok rows ++ toks) (Conn n s) -> dispatched_by now rows (r_executions (s_results s)) t' rws -> t ∈ toks ->
  token_ok (claims_of toks) n (set_results (set_executions t' (s_results s)) s) t.
Proof.
  intros Hok Hby Hin. destruct (rows_apart _ _ _ Hok) as [_ Hapart].
  assert (Hold : token_ok (claims_of (starts_tok rows ++ toks)) n s t).
  { apply (proj1 (Forall_forall _ _) (co_tokens _ _ Hok)). set_solver. }
  assert (Hrow : forall k, k ∈ rws.*1 -> exists v r, v ∈ rows /\ di_job_id v = k /\ t' !! k = Some r /\ er_dispatch_id r = di_dispatch_id v).
  { intros k (r & Hr)%elem_of_fst. apply (db_rows _ _ _ _ _ Hby) in Hr as (Hr & v & Hv & Hk & Hs%starts_running).
    exists v, r. split_and!; [done..|apply Hs]. }
  destruct t as [k d|k d|k d]; simpl in *; [|done|].
  - destruct (Hapart k d) as [Hk Hd]; [by apply elem_of_claims|]. destruct Hold as (? & ? & Hst & Hno & ?). split_and!; try done.
    + intros r. simpl. destruct (decide (k ∈ rws.*1)) as [(v & _ & Hv & <- & _)%Hrow|Hn].
      * by destruct Hk; apply list_elem_of_fmap_2.
      * apply (db_rest _ _ _ _ _ Hby) in Hn as [-> _]. apply Hst.
    + intros k' r. simpl. destruct (decide (k' ∈ rws.*1)) as [(v & r' & Hv & _ & -> & Hr')%Hrow|Hn].
      * intros [= <-] Heq. destruct Hd. rewrite <-Heq, Hr'. by apply list_elem_of_fmap_2.
      * apply (db_rest _ _ _ _ _ Hby) in Hn as [-> _]. apply Hno.
  - destruct Hold as (? & ? & [?|[Hnc Hr]]); (split_and!; [done|done|]); [by left|right]. rewrite claims_of_app in Hnc.
    split; [set_solver|]. intros a Ha Hd r. simpl. destruct (decide (k ∈ rws.*1)) as [(v & _ & Hv & <- & _)%Hrow|Hn].
    + destruct Hnc. apply elem_of_app. left. rewrite claims_of_starts.
      destruct (row_claimed _ _ _ _ Hok Hv) as (_ & _ & _ & _ & Hacc). specialize (Hacc a Ha).
      apply list_elem_of_fmap. exists v. unfold row_key. split; [congruence|done].
    + apply (db_rest _ _ _ _ _ Hby) in Hn as [-> _]. by apply (Hr a).
Qed.

(** The tracked job is started at most once more. *)
Lemma bound_started rows toks now n s t' rws :
  conc_ok (starts_tok rows ++ toks) (Conn n s) -> dispatched_by now rows (r_executions (s_results s)) t' rws ->
  bound_ok tracked bound toks (set_results (set_executions t' (s_results s)) s).
Proof.
  intros Hok Hby. pose proof (co_bound _ _ Hok) as Hb. pose proof (fun v => row_releasable rows toks _ v Hok) as Hrel.
  unfold releasable in Hrel. simpl in Hb, Hrel.
  destruct tracked as [[k0 limit]|]; [|done]. simpl in *. destruct (rows_apart _ _ _ Hok) as [_ Hapart].
  destruct (decide (k0 ∈ rws.*1)) as [(r & Hin)%elem_of_fst|Hn].
  - apply (db_rows _ _ _ _ _ Hby) in Hin as (Hr & v & Hv & Hk & Hs). pose proof (Hrel v Hv (eq_sym Hk)) as Hc.
    destruct (row_claimed _ _ _ _ Hok Hv) as (_ & _ & _ & _ & Hacc). simpl in Hacc. rewrite Hk in Hacc.
    pose proof (starts_running _ _ _ _ Hs) as (_ & Hdr & _).
    assert (Hcount : count_of (set_results (set_executions t' (s_results s)) s) k0 <= bound + 1).
    { rewrite Hk in Hc. unfold count_of in *. simpl. rewrite Hr. unfold starts in Hs. pose proof (wb_limit _ _ _ _ _ Hb).
      destruct (r_executions (s_results s) !! k0) as [r0|]; [destruct Hs as [_ ->]|destruct Hs as [id ->]]; simpl in *; lia. }
    split; [apply Hb|done|..].
    + intros a Ha Hno. destruct (Hno (di_dispatch_id v) r); [by apply Hacc|done|done].
    + intros d Hd%elem_of_claims. destruct (Hapart k0 d Hd) as [Hnk _]. destruct Hnk. rewrite <-Hk. by apply list_elem_of_fmap_2.
    + intros d a Hd Ha Had. simpl in Ha. assert (d = di_dispatch_id v) as -> by (specialize (Hacc a Ha); congruence).
      assert (Hin : Retry k0 (di_dispatch_id v) ∈ starts_tok rows ++ toks) by (apply elem_of_app; by right).
      pose proof (proj1 (Forall_forall _ _) (co_tokens _ _ Hok) _ Hin) as (_ & _ & [Hnone|[Hnc _]]); simpl in *; [congruence|].
      destruct Hnc. rewrite claims_of_app, claims_of_starts. apply elem_of_app. left.
      apply list_elem_of_fmap. exists v. unfold row_key. by rewrite Hk.
  - apply (db_rest _ _ _ _ _ Hby) in Hn as [Hsame _]. apply bound_executions.
    + intros r'. rewrite Hsame. intros Hr'. by exists r'.
    + eapply bound_tokens; [|exact Hb]. intros t Ht. apply elem_of_app. by right.
Qed.

Lemma conc_started rows toks now n s t' rws :
  conc_ok (starts_tok rows ++ toks) (Conn n s) -> dispatched_by now rows (r_executions (s_results s)) t' rws ->
  exec_wf (dom (r_queues (s_results s))) t' ->
  conc_ok toks (Conn n (set_results (set_executions t' (s_results s)) s)).
Proof.
  intros Hok Hby Hwf. pose proof (conc_ok_drop _ _ _ Hok) as Hdrop. pose proof (co_inv _ _ Hok) as Hinv. simpl in Hinv.
  assert (Hrow : forall k r, t' !! k = Some r -> (exists v, v ∈ rows /\ di_job_id v = k /\ er_dispatch_id r = di_dispatch_id v) \/
    r_executions (s_results s) !! k = Some r).
  { intros k r Hr. destruct (decide (k ∈ rws.*1)) as [(r2 & Hin)%elem_of_fst|Hn].
    - left. apply (db_rows _ _ _ _ _ Hby) in Hin as (Hr2 & v & Hv & Hk & Hs%starts_running). simplify_eq.
      exists v. split_and!; [done..|apply Hs].
    - right. by apply (db_rest _ _ _ _ _ Hby) in Hn as [<- _]. }
  split; simpl; [|apply Hdrop| |apply Hdrop|apply Hdrop| |].
  - apply inv_executions; [done|done|]. intros k r [(v & Hv & <- & Hd)|Hr]%Hrow.
    + destruct (row_claimed _ _ _ _ Hok Hv) as (_ & Hid & _ & _ & Hacc). split; [exact Hid|]. intros a Ha. right.
      rewrite Hd. by apply Hacc.
    + split; [by apply (si_ids _ Hinv k r)|]. intros a Ha. by apply (si_linked _ Hinv k a).
  - intros k r [(v & Hv & <- & ->)|Hr]%Hrow; [|by apply (co_executions _ _ Hdrop k r)].
    by destruct (row_claimed _ _ _ _ Hok Hv).
  - apply Forall_forall. intros t Hin. by eapply token_ok_started.
  - by eapply bound_started.
Qed.
End tokens.
Arguments conc_ok {_} tracked bound toks c.
Arguments releasable tracked bound s k : clear implicits.

(** ** Abandoned claims *)

Section abandoned.
Context `{EL : EnvLaws} (tracked : option (Z * Z)).

(** Giving a claim of the tracked job back allows one more execution. *)
Definition bound_after {B} (q : request B) (bound : Z) : Z :=
  match q with
  | QAbandon k _ => match tracked with Some (k0, _) => if decide (k = k0) then bound + 1 else bound | None => bound end
  | _ => bound
  end.

Lemma bound_after_le {B} (q : request B) bound : bound <= bound_after q bound.
Proof. destruct q; simpl; try lia. destruct tracked as [[k0 limit]|]; [case_decide|]; lia. Qed.

Lemma conc_ok_mono bound bound' toks c : bound <= bound' -> conc_ok tracked bound toks c -> conc_ok tracked bound' toks c.
Proof.
  intros Hle [? ? ? ? ? ? Hb]. split; try done. destruct tracked as [[k0 limit]|]; [|done]. by eapply bound_mono.
Qed.

Lemma conc_ok_abandoned bound now k d s toks n t' :
  conc_ok tracked bound toks (Conn n s) -> Known k d ∈ toks -> request_safe (QAbandon k d) s ->
  completed_by now [abandonment k d] (r_executions (s_results s)) t' ->
  conc_ok tracked (bound_after (QAbandon k d) bound) (Retry k d :: toks)
    (Conn n (set_results (set_executions t' (s_results s)) s)).
Proof.
  intros Hok Hin Hsafe Hby. pose proof (proj1 (Forall_forall _ _) (co_tokens _ _ Hok) _ Hin) as [Hiss Hid].
  pose proof (co_inv _ _ Hok) as Hinv. pose proof (conc_completed _ _ _ _ _ _ Hok Hby) as Hdone. simpl in Hinv, Hiss, Hid.
  pose proof (co_bound _ _ Hdone) as Hb. simpl in Hb.
  apply conc_ok_retry; [by eapply conc_ok_mono; [apply bound_after_le|]|done|done|]. simpl. intros a Ha Hd.
  destruct (Hsafe a Ha Hd) as (r & Hr & Hdr & Hnc). split_and!.
  - by apply (executed_not_claimed _ _ k r k d Hok).
  - intros r' Hr'. eapply (release_restartable s now k d t' a); try done. intros r2 Hr2. by simplify_eq.
  - unfold releasable. destruct tracked as [[k0 limit]|]; [|done]. intros ->. rewrite decide_True by done. apply Hb.
Qed.
End abandoned.

(** A cleanup of the executions moves each job by forgetting its execution. *)
Lemma forgotten_moves s cutoff :
  request_moves (QResultsCleanup cutoff) s (set_results (set_executions
    (filter (fun kr => ~ er_updated_at kr.2 < cutoff) (r_executions (s_results s))) (s_results s)) s).
Proof.
  intros i. set (t' := filter _ _). destruct (r_executions (s_results s) !! i) as [r|] eqn:Er.
  - destruct (decide (er_updated_at r < cutoff)) as [Hlt|Hlt].
    + right. left. exists EvForgotten. split; [split; [done|by exists r]|]. unfold job_of. simpl.
      replace (t' !! i) with (@None execution_row).
      * rewrite (phase_forgotten _ (r_executions (s_results s) !! i)). constructor.
      * symmetry. apply map_lookup_filter_None. right. intros r' Hr'. simplify_eq/=. lia.
    + left. apply job_of_same; [done|]. simpl. rewrite Er. by apply map_lookup_filter_Some.
  - left. apply job_of_same; [done|]. simpl. rewrite Er. by apply map_lookup_filter_None; left.
Qed.

(** A cleanup of the jobs moves each job by its expiry. *)
Lemma cleaned_moves s cutoff :
  request_moves (QIngestCleanup cutoff) s (set_ingest (set_accepted
    (filter (fun kr => ~ ar_created_at kr.2 < cutoff) (i_accepted (s_ingest s))) (s_ingest s)) s).
Proof.
  intros i. set (t' := filter _ _). destruct (i_accepted (s_ingest s) !! i) as [a|] eqn:Ea.
  - destruct (decide (ar_created_at a < cutoff)) as [Hlt|Hlt].
    + right. left. exists EvExpired. split; [split; [done|by exists a]|]. unfold job_of. simpl.
      replace (t' !! i) with (@None accepted_row); [constructor|]. symmetry. apply map_lookup_filter_None. right.
      intros a' Ha'. simplify_eq/=. lia.
    + left. apply job_of_same; [|done]. simpl. rewrite Ea. by apply map_lookup_filter_Some.
  - left. apply job_of_same; [|done]. simpl. rewrite Ea. by apply map_lookup_filter_None; left.
Qed.

(** ** Requests *)

Section requests.
Context `{EL : EnvLaws} (tracked : option (Z * Z)).

(** The request is served well for the owner of [toks], whatever the other tasks own, and leaves its owner
    with [Q]. *)
Definition serves {B} (q : request B) (toks : list token) (Q : list token -> Result B -> Prop) : Prop :=
  forall bound frame c, conc_ok tracked bound (toks ++ frame) c -> request_safe q (c_db c) -> limit_ok tracked (c_db c) ->
    wp (serve_request q) (fun r c' => request_moves q (c_db c) (c_db c') /\
      exists toks', conc_ok tracked (bound_after tracked q bound) (toks' ++ frame) c' /\ Q toks' r) c.

Lemma request_moves_refl {B} (q : request B) s : request_moves q s s.
Proof. intros k. by left. Qed.

Lemma moves_same {B} (q : request B) s s' :
  i_accepted (s_ingest s') = i_accepted (s_ingest s) -> r_executions (s_results s') = r_executions (s_results s) ->
  request_moves q s s'.
Proof. intros Ha Hr k. left. unfold job_of. by rewrite Ha, Hr. Qed.

(** A request takes its questions one after the other. *)
Lemma wp_up {S A} (m : M S A) (Q : Result A -> conn S -> Prop) c :
  steps_up m -> wp m (fun r c' => (c_step c <= c_step c')%nat -> Q r c') c -> wp m Q c.
Proof. intros Hup Hm. exact (Hm (Hup c)). Qed.

(** A request that fails has changed nothing. *)
Lemma kept {B} (q : request B) bound toks frame c c' (Q : list token -> Result B -> Prop) r :
  conc_ok tracked bound (toks ++ frame) c -> (c_step c <= c_step c')%nat -> c_db c' = c_db c -> Q toks r ->
  request_moves q (c_db c) (c_db c') /\ exists toks', conc_ok tracked (bound_after tracked q bound) (toks' ++ frame) c' /\ Q toks' r.
Proof.
  intros Hok Hn Hs HQ. rewrite Hs. split; [apply request_moves_refl|]. exists toks. split; [|done].
  apply conc_ok_mono with bound; [apply bound_after_le|]. destruct c, c'. simpl in *. subst. by eapply conc_ok_later.
Qed.

(** The request has failed, or only read. *)
Ltac stay Hok :=
  match goal with
  | |- request_moves ?q _ _ /\ exists toks', conc_ok _ _ (toks' ++ ?frame) ?c' /\ _ =>
      refine (kept q _ _ frame _ c' _ _ Hok _ _ _);
        [simpl in *; lia | first [done | match type of Hok with conc_ok _ _ _ ?c => by destruct (c_db c) end] | auto]
  end.

(** *** Reads *)

Lemma serves_execution k toks (Q : list token -> Result (option Execution) -> Prop) :
  (forall r, Q toks r) -> serves (QExecution k) toks Q.
Proof. intros HQ bound frame c Hok _ Hl. cbn [bound_after]. apply wp_query; intros; stay Hok. Qed.

Lemma serves_now toks (Q : list token -> Result Z -> Prop) : (forall r, Q toks r) -> serves QNow toks Q.
Proof. intros HQ bound frame c Hok _ Hl. cbn [bound_after]. apply wp_ask. stay Hok. Qed.

Lemma conc_ok_known bound k d toks c :
  issued (c_step c) d -> accepted_id (c_db c) k -> conc_ok tracked bound toks c -> conc_ok tracked bound (Known k d :: toks) c.
Proof.
  intros Hd Hk [? ? ? ? ? ? Hb]. split; simpl; try done; [by constructor|]. destruct tracked as [[k0 limit]|]; [|done].
  destruct Hb as [? ? ? Hcl Hre]. split; [done..| |].
  - intros d' [?|?]%elem_of_cons; [done|by apply (Hcl d')].
  - intros d' a [?|?]%elem_of_cons; [done|by apply Hre].
Qed.

Lemma serves_accepted k toks (Q : list token -> Result AcceptedJob -> Prop) :
  (forall r, (forall a, r = Ok a -> aj_dispatch_id a = None) -> Q toks r) ->
  (forall a d, aj_dispatch_id a = Some d -> Q (Known k d :: toks) (Ok a)) ->
  serves (QAcceptedJob k) toks Q.
Proof.
  intros Hnone Hsome bound frame c Hok _ Hl. cbn [bound_after]. apply wp_query; [intros e; stay Hok; by apply Hnone|]. intros a Ha.
  destruct (i_accepted (s_ingest (c_db c)) !! k) as [row|] eqn:Ek; simplify_eq/=.
  destruct (ar_dispatch_id row) as [d|] eqn:Ed.
  - split; [apply request_moves_refl|]. exists (Known k d :: toks). split; [|by apply Hsome].
    destruct c as [n s]. apply conc_ok_later with n; [|simpl; lia]. apply conc_ok_known; [| |done].
    + by apply (co_accepted _ _ Hok k row).
    + by apply max_id_ge, elem_of_dom_2 with row.
  - apply (kept (QAcceptedJob k) bound toks frame c (Conn (S (c_step c)) (c_db c))); [done|simpl; lia|done|]. apply Hnone. by intros a [= <-].
Qed.

(** *** Queues, new jobs and cleanups *)

Lemma serves_upsert_queue queue toks (Q : list token -> Result JobQueue -> Prop) :
  (forall r, Q toks r) -> serves (QUpsertQueue queue) toks Q.
Proof.
  intros HQ bound frame c Hok _ Hl. cbn [bound_after]. apply wp_up; [apply up_ingest_call|]. apply wp_call_upsert_queue; [apply Hok|].
  intros r c' Hinv Ho _ _ Hn. pose proof (oq_accepted _ _ _ Ho) as Ea. pose proof (oq_executions _ _ _ Ho) as Er.
  split; [by apply moves_same|]. exists toks. split; [|done]. by apply (conc_ok_rows _ c).
Qed.

Lemma serves_results_upsert_queue queue toks (Q : list token -> Result JobQueue -> Prop) :
  (forall r, Q toks r) -> serves (QResultsUpsertQueue queue) toks Q.
Proof.
  intros HQ bound frame c Hok _ Hl. cbn [bound_after]. apply wp_up; [apply up_results_call|]. apply wp_results_call. cbn [r_handle]. wp_rule. wp_rule.
  eapply wp_mono; [apply wp_r_upsert_queue_rows|]. simpl. intros r2 c2 (Hex & Hq & _). wp_rules. intros Hn.
  split; [by apply moves_same|]. exists toks. split; [|done]. apply (conc_ok_rows _ c); simpl; try done.
  pose proof (co_inv _ _ Hok) as Hinv. apply (only_queue_inv (q_name queue) (c_db c)); simpl; [done| |done|apply (si_ingest _ Hinv)|].
  - split; simpl; [done|done|done|done|]. intros m Hm. destruct Hq as [-> |[now ->]]; [done|]. by apply lookup_stored_queue_ne.
  - destruct Hq as [-> |[now ->]]; [done|]. rewrite dom_stored_queue. set_solver.
Qed.

Lemma serves_enqueue job toks (Q : list token -> Result AcceptedJob -> Prop) :
  (forall r, Q toks r) -> serves (QEnqueue job) toks Q.
Proof.
  intros HQ bound frame c Hok Hroom Hl. cbn [bound_after]. apply wp_up; [apply up_ingest_call|].
  apply wp_call_enqueue; [done|intros e n Hn; stay Hok|]. intros n Hq id Hn. split.
  - intros i. destruct (decide (i = id)) as [Ei|Hne]; [subst i|].
    2:{ left. apply job_of_same; [|done]. simpl. by rewrite lookup_insert_ne. }
    assert (Hnone : r_executions (s_results (c_db c)) !! id = None) by apply next_id_free, Hok.
    right. left. exists EvSubmitted. split; [done|]. unfold job_of. simpl. rewrite lookup_insert_eq, Hnone. unfold id, next_job_id. rewrite next_id_fresh. constructor.
  - exists toks. split; [|done]. destruct c as [n0 s]. apply conc_ok_later with n0; [|done]. by apply conc_enqueued.
Qed.

Lemma serves_ingest_cleanup cutoff toks (Q : list token -> Result nat -> Prop) :
  (forall r, Q toks r) -> serves (QIngestCleanup cutoff) toks Q.
Proof.
  intros HQ bound frame c Hok Hnew Hl. cbn [bound_after]. apply wp_up; [apply up_ingest_call|]. apply wp_ingest_call. cbn [handle]. wp_rule. wp_rule.
  eapply wp_mono; [apply wp_cleanup|]. intros r c1 [_ Hr]. wp_rules. simpl in Hr. intros Hn.
  destruct r as [m|e]; [destruct Hr as [_ Hr]|]; rewrite Hr; [|stay Hok].
  split.
  - intros i. apply cleaned_moves.
  - exists toks. split; [|done]. destruct c as [n0 s]. apply conc_ok_later with n0; [|done]. by apply conc_cleaned.
Qed.

Lemma serves_results_cleanup cutoff toks (Q : list token -> Result nat -> Prop) :
  (forall r, Q toks r) -> serves (QResultsCleanup cutoff) toks Q.
Proof.
  intros HQ bound frame c Hok _ Hl. cbn [bound_after]. apply wp_up; [apply up_results_call|]. apply wp_results_call. cbn [r_handle]. wp_rule. wp_rule.
  unfold r_cleanup_expired_records. apply wp_stmt; [intros e; wp_rules; intros Hn; stay Hok|].
  intros n db [= <- <-]. wp_rules. intros Hn. split; [apply forgotten_moves|]. exists toks. split; [|done].
  destruct c as [n0 s]. apply conc_ok_later with n0; [|done]. by apply conc_forgotten.
Qed.

(** *** Results and releases *)

Lemma serves_repend k d toks (Q : list token -> Result unit -> Prop) :
  Retry k d ∈ toks -> (forall r, Q toks r) -> serves (QRepend k d) toks Q.
Proof.
  intros Hin HQ bound frame c Hok _ Hl. cbn [bound_after]. apply wp_call_repend; [intros e n Hn; stay Hok|]. intros now n Hn.
  assert (Hin' : Retry k d ∈ toks ++ frame) by set_solver. split.
  - intros i. destruct (job_repended (c_db c) now k d i) as [E1|(-> & m & E1 & E2)]; [|by left|].
    + intros a r Ha Hd Hr. by apply (retry_startable _ _ _ _ Hok Hin' a).
    + right. left. exists (EvReleased d). split; [done|]. cbn [c_db] in *. rewrite E1, E2. constructor.
  - exists toks. split; [|done]. destruct c as [n0 s]. apply conc_ok_later with n0; [|done]. by apply conc_repend.
Qed.

Lemma completed_moves {B} (q : request B) s now k d outcome reply at_ t' :
  store_inv s -> completed_by now [mkPendingCompletion k d outcome reply at_] (r_executions (s_results s)) t' ->
  request_event q s k (match outcome with Succeeded _ => EvCompleted d | OFailed _ => EvFailed d end) ->
  request_moves q s (set_results (set_executions t' (s_results s)) s).
Proof.
  intros Hinv Hby Hev i. destruct (job_completed _ _ _ _ _ _ _ _ i Hinv Hby) as [->|(-> & m & E1 & E2)]; [by left|].
  right. left. eexists. split; [exact Hev|]. rewrite E1, E2. destruct outcome; constructor.
Qed.

Lemma serves_complete k d outcome toks (Q : list token -> Result CompletionDisposition -> Prop) :
  (forall r, r <> Ok Repend -> Q toks r) -> Q (Retry k d :: toks) (Ok Repend) ->
  serves (QComplete k d outcome) toks Q.
Proof.
  intros HQ HQr bound frame c Hok _ Hl. cbn [bound_after]. apply wp_up; [apply up_results_call|].
  apply wp_call_complete; [intros e n Hn; stay Hok; by apply HQ|]. intros now t' n Hby Hn. cbn [c_db c_step] in *.
  split; [apply (completed_moves _ _ _ _ _ _ _ _ _ (co_inv _ _ Hok) Hby); simpl; by destruct outcome|].
  destruct c as [n0 s]. pose proof (conc_completed _ _ _ _ _ _ Hok Hby) as Hok'. cbn [c_db c_step] in *.
  destruct (disposition (s_results s) _) eqn:Ed; [exists toks..|exists (Retry k d :: toks)]; (split; [|auto]);
    [by eapply conc_ok_later..|].
  apply conc_ok_later with n0; [|done]. by apply (conc_ok_failed now k d outcome s _ _ _ Hok' (co_inv _ _ Hok) (co_bound _ _ Hok) Hl).
Qed.

Lemma serves_abandon k d toks (Q : list token -> Result unit -> Prop) :
  Known k d ∈ toks -> (forall e, Q toks (Err e)) -> Q (Retry k d :: toks) (Ok tt) -> serves (QAbandon k d) toks Q.
Proof.
  intros Hin HQe HQ bound frame c Hok Hsafe Hl. cbn [bound_after]. apply wp_up; [apply up_results_call|].
  apply wp_call_abandon; [intros e n Hn; stay Hok|]. intros now t' n Hby Hn. cbn [c_db c_step] in *.
  split; [by apply (completed_moves _ _ _ _ _ _ _ _ _ (co_inv _ _ Hok) Hby)|].
  exists (Retry k d :: toks). split; [|done]. destruct c as [n0 s]. apply conc_ok_later with n0; [|done].
  apply (conc_ok_abandoned tracked bound now k d s); [done|set_solver|done..].
Qed.

Lemma serves_recover_stale now toks (Q : list token -> Result (list RecoveredStale) -> Prop) :
  (forall e, Q toks (Err e)) ->
  (forall out, Q (recovered_tok out ++ toks) (Ok out)) ->
  serves (QRecoverStale now) toks Q.
Proof.
  intros HQe HQ bound frame c Hok _ Hl. cbn [bound_after]. apply wp_up; [apply up_results_call|].
  apply wp_call_recover_stale; [apply Hok|intros e n Hn; stay Hok|]. intros out n Hnd Hout Hn. split.
  - intros i. destruct (job_expired (c_db c) now i (co_inv _ _ Hok)) as [E0|(r & m & Hr & Hexp & E1 & E2)]; [by left|].
    right. left. exists (EvFailed (er_dispatch_id r)). split; [by exists r|]. cbn [c_db]. rewrite E1, E2. constructor.
  - eexists. split; [|apply HQ]. destruct c as [n0 s]. apply conc_ok_later with n0; [|done]. rewrite <-app_assoc.
    by apply conc_recovered.
Qed.

(** *** Claims *)

Lemma wp_claim_ids q limit c :
  wp (call_claim_batch q limit) (fun r c' => match r with
    | Ok claimed => (c_step c <= c_step c')%nat /\ new_ids (c_step c) (c_step c') (ic_dispatch_id <$> claimed)
    | Err _ => True end) c.
Proof.
  apply wp_call_claim_batch; [done|]. intros rows now ds n Hn Hl Hids. split; [done|].
  by rewrite claimed_of_dispatch_ids.
Qed.

Lemma claimed_moves q limit s s1 claimed :
  store_inv s -> claimed_ok q limit s s1 claimed -> request_moves (QClaimBatch q limit) s s1.
Proof.
  intros Hinv Hcl i. destruct (decide (i ∈ ic_id <$> claimed)) as [Hin|Hin].
  - apply list_elem_of_fmap in Hin as (x & -> & Hx).
    destruct (cl_rows _ _ _ _ _ Hcl x Hx) as (a & now & Ha & Hn & Hq & _ & _ & Ha1).
    right. left. exists (EvClaimed (ic_dispatch_id x)). split; [split; [by exists a|by eexists]|].
    unfold job_of. rewrite (cl_results _ _ _ _ _ Hcl), Ha, Ha1. simpl. rewrite Hn.
    destruct (r_executions (s_results s) !! ic_id x) as [r|] eqn:Er; [|constructor].
    pose proof (si_available s Hinv _ a r Ha Hn Er) as Hre. rewrite decide_False by by apply restartable_not_running.
    rewrite decide_True by done. constructor.
  - left. apply job_of_same; [by apply (cl_rest _ _ _ _ _ Hcl)|by rewrite (cl_results _ _ _ _ _ Hcl)].
Qed.

Lemma serves_claim_batch q limit toks (Q : list token -> Result (list IngestClaimed) -> Prop) :
  (forall e, Q toks (Err e)) -> (forall claimed, Q (claims_tok claimed ++ toks) (Ok claimed)) ->
  serves (QClaimBatch q limit) toks Q.
Proof.
  intros HQe HQ bound frame c Hok _ Hl. cbn [bound_after]. apply wp_up; [apply up_ingest_call|]. cbn [serve_request].
  eapply wp_mono; [apply wp_and; [apply wp_claim_step, Hok|apply wp_claim_ids]|].
  intros [claimed|e] c' [Hcl Hids] Hn; [|stay Hok].
  destruct Hids as [_ Hids]. split; [by eapply claimed_moves; [apply Hok|]|].
  eexists. split; [|apply HQ]. rewrite <-app_assoc. by eapply conc_claimed.
Qed.

Lemma started_moves bound rows toks now n s t' rws :
  conc_ok tracked bound (starts_tok rows ++ toks) (Conn n s) -> dispatched_by now rows (r_executions (s_results s)) t' rws ->
  request_moves (QDispatch rows) s (set_results (set_executions t' (s_results s)) s).
Proof.
  intros Hok Hby i. destruct (decide (i ∈ rws.*1)) as [(r & Hin)%elem_of_fst|Hn].
  2:{ left. apply job_of_same; [done|]. by apply (db_rest _ _ _ _ _ Hby) in Hn as [Hn _]. }
  apply (db_rows _ _ _ _ _ Hby) in Hin as (Hr & v & Hv & <- & Hs).
  destruct (row_claimed _ _ _ _ Hok Hv) as (_ & _ & Hst & _ & Hacc). simpl in Hacc.
  destruct (i_accepted (s_ingest s) !! di_job_id v) as [a|] eqn:Ea.
  2:{ right. right. unfold job_of. simpl. by rewrite Ea. }
  right. left. exists (EvStarted (di_dispatch_id v)). split; [by exists v|]. specialize (Hacc a eq_refl).
  pose proof (starts_running _ _ _ _ Hs) as (Hrun & _). unfold job_of. simpl. rewrite Ea, Hr.
  rewrite (phase_executing _ a r Hacc Hrun). destruct (r_executions (s_results s) !! di_job_id v) as [r0|] eqn:Er0.
  - rewrite (phase_held _ a r0 Hacc) by by apply Hst. destruct Hs as [_ ->]. constructor.
  - destruct Hs as [id ->]. simpl. rewrite Hacc. exact (step_started _ _ 0).
Qed.

Lemma serves_dispatch rows toks (Q : list token -> Result (list DispatchedExecution) -> Prop) :
  (forall e, Q (retries_tok rows ++ toks) (Err e)) -> (forall out, Q toks (Ok out)) ->
  serves (QDispatch rows) (starts_tok rows ++ toks) Q.
Proof.
  intros HQe HQ bound frame c Hok Hroom Hl. cbn [bound_after]. rewrite <-app_assoc in Hok.
  apply wp_call_dispatch. intros r c' [Hn Hpost]. cbn [c_step c_db] in *. destruct c as [n s]. cbn [c_step c_db] in *.
  destruct Hpost as [(e & -> & Hdb)|(now & t' & rws & Hdb & Hby & Hkeep & Hout)].
  - split; [rewrite Hdb; by apply moves_same|]. exists (retries_tok rows ++ toks). split; [|done]. rewrite <-app_assoc.
    apply conc_ok_rows with (Conn n s); [by apply conc_undo| |done|..]; simpl; rewrite ?Hdb; try done.
    pose proof (co_inv _ _ Hok). by destruct s.
  - destruct r as [out|e].
    2:{ exfalso. destruct (rows_apart _ _ _ Hok) as [Hnd _]. destruct Hout as [?|(v & Hv & Hnv)]; [done|].
        by destruct Hnv; eapply dispatch_starts_all. }
    rewrite Hdb. split; [by eapply started_moves|]. exists toks. split; [|done].
    apply conc_ok_later with n; [|done]. eapply conc_started; [done|done|].
    apply (Hkeep 0%nat); [apply (co_inv _ _ Hok)|]. by rewrite Nat.add_0_r.
Qed.
End requests.
