(* ===== verification/ConcurrentProps.v ===== *)
(** * The store under concurrency: properties

    A program logic for tasks, over the rules of [ConcurrentFacts] for their requests. Every operation of
    the store is verified with it alone, and so any number of them run side by side: the invariant of the
    store holds between any two requests, every request moves every job along its machine, and a completed
    job stays completed. *)
From stdpp Require Import relations.
From S2P Require Import Prelude Types Db Tables Ingest Results ResultsFacts ResultsDispatch ResultsProps Store StoreFacts StoreProps.
From S2P Require Import JobMachine Steps Concurrent ConcurrentTokens ConcurrentFacts.

(** ** The logic *)

Section logic.
Context `{EL : EnvLaws} {tracked : option (Z * Z)}.

(** Every request of the task is served well, and it ends with [Q]. *)
Fixpoint twp {A} (p : prog A) (toks : list token) (Q : list token -> Result A -> Prop) : Prop :=
  match p with
  | Finished r => Q toks r
  | Asking q k => serves tracked q toks (fun toks' r => twp (k r) toks' Q)
  end.

Lemma serves_mono {B} (q : request B) toks (Q Q' : list token -> Result B -> Prop) :
  serves tracked q toks Q -> (forall toks' r, Q toks' r -> Q' toks' r) -> serves tracked q toks Q'.
Proof.
  intros Hs HQ bound frame c Hok Hsafe Hl. eapply wp_mono; [by apply Hs|]. intros r c' (Hm & toks' & Hok' & HQ').
  split; [done|]. exists toks'. auto.
Qed.

Lemma twp_ret {A} (a : A) toks (Q : list token -> Result A -> Prop) : Q toks (Ok a) -> twp (mret a) toks Q.
Proof. done. Qed.

Lemma twp_bind {A B} (p : prog A) (f : A -> prog B) toks (Q : list token -> Result B -> Prop) :
  twp p toks (fun toks' r => match r with Ok a => twp (f a) toks' Q | Err e => Q toks' (Err e) end) ->
  twp (p ≫= f) toks Q.
Proof.
  revert toks. induction p as [r|B' q k IH]; intros toks; simpl; [by destruct r|].
  intros Hs. eapply serves_mono; [exact Hs|]. intros toks' r. apply IH.
Qed.

Lemma twp_attempt {A} (p : prog A) toks (Q : list token -> Result (Result A) -> Prop) :
  twp p toks (fun toks' r => Q toks' (Ok r)) -> twp (pattempt p) toks Q.
Proof.
  revert toks. induction p as [r|B' q k IH]; intros toks; simpl; [done|].
  intros Hs. eapply serves_mono; [exact Hs|]. intros toks' r. apply IH.
Qed.

(** A request that is waited for: its answer goes on, its error is the task's. *)
Lemma twp_ask {B A} (q : request B) (f : B -> prog A) toks (Q : list token -> Result A -> Prop) :
  serves tracked q toks (fun toks' r => match r with Ok a => twp (f a) toks' Q | Err e => Q toks' (Err e) end) ->
  twp (pask q ≫= f) toks Q.
Proof. intros Hs. by apply twp_bind. Qed.

(** Over a list, with an invariant of the tokens *)
Lemma twp_for_each (I : list token -> Prop) {A B} (f : A -> prog B) (l : list A) toks (Q : list token -> Result (list B) -> Prop) :
  I toks ->
  (forall x toks' (Q' : list token -> Result B -> Prop), x ∈ l -> I toks' ->
     (forall toks2 r, I toks2 -> Q' toks2 r) -> twp (f x) toks' Q') ->
  (forall toks' r, I toks' -> Q toks' r) -> twp (pfor_each f l) toks Q.
Proof.
  revert toks Q. induction l as [|x l IH]; intros toks Q Hi Hf HQ; simpl; [by apply HQ|].
  apply twp_bind, Hf; [by left|done|]. intros toks2 [y|e] Hi2; [|by apply HQ].
  apply twp_bind, IH; [done|intros z toks' Q' Hz; apply Hf; by right|].
  intros toks3 [ys|e] Hi3; [|by apply HQ]. by apply HQ.
Qed.

(** The result of a task of the server is dropped. *)
Lemma twp_drop {A} (p : prog A) toks :
  (forall Q : list token -> Result A -> Prop, (forall toks' r, Q toks' r) -> twp p toks Q) ->
  twp (_ ← p; mret tt) toks (fun _ _ => True).
Proof. intros Hp. apply twp_bind, Hp. by intros toks' [a|e]. Qed.

(** ** The operations *)

Definition any_end {A} (Q : list token -> Result A -> Prop) : Prop := forall toks r, Q toks r.

Lemma twp_composed_job k toks (Q : list token -> Result Job -> Prop) : any_end Q -> twp (composed_job_task k) toks Q.
Proof.
  intros HQ. apply twp_ask, serves_accepted.
  - intros [a|e] _; [|apply HQ]. apply twp_ask, serves_execution. intros [o|e]; apply HQ.
  - intros a d _. apply twp_ask, serves_execution. intros [o|e]; apply HQ.
Qed.

Lemma twp_claim_batch queue limit toks (Q : list token -> Result (list Job) -> Prop) :
  any_end Q -> twp (claim_batch_task queue limit) toks Q.
Proof.
  intros HQ. apply twp_ask, serves_claim_batch; [intros e; apply HQ|]. intros claimed.
  destruct claimed as [|x0 rest]; [apply HQ|]. set (claimed := x0 :: rest). cbn beta iota.
  apply twp_ask, serves_now. intros [at_|e]; [|apply HQ]. apply twp_bind, twp_attempt. cbn [twp pask].
  replace (claims_tok claimed) with (starts_tok (dispatch_row at_ <$> claimed))
    by (unfold starts_tok, claims_tok; by rewrite <-list_fmap_compose).
  apply serves_dispatch; [|intros out; apply HQ]. intros e. cbn beta iota.
  set (retries := retries_tok (dispatch_row at_ <$> claimed)).
  apply twp_bind, (twp_for_each (fun t => t = retries ++ toks)); [done| |].
  - intros x ? Q' Hx -> HQ'. apply twp_attempt, serves_repend; [|intros r; by apply HQ'].
    apply elem_of_app. left. unfold retries, retries_tok. rewrite <-list_fmap_compose. by apply list_elem_of_fmap_2'  with x.
  - intros ? [ys|e2] _; apply HQ.
Qed.

Lemma twp_upsert_queue queue toks (Q : list token -> Result JobQueue -> Prop) :
  any_end Q -> twp (upsert_queue_task queue) toks Q.
Proof.
  intros HQ. apply twp_ask, serves_upsert_queue. intros [stored|e]; [|apply HQ].
  apply twp_ask, serves_results_upsert_queue. intros [stored'|e]; apply HQ.
Qed.

(** After a result: the claim is released when a retry is left. *)
Lemma twp_complete k d outcome toks {A} (f : CompletionDisposition -> prog A) (Q : list token -> Result A -> Prop) :
  any_end Q -> (forall disp toks', (disp = Repend -> Retry k d ∈ toks') -> twp (f disp) toks' Q) ->
  twp (pask (QComplete k d outcome) ≫= f) toks Q.
Proof.
  intros HQ Hf. apply twp_ask, serves_complete.
  - intros [disp|e] Hr; [|apply HQ]. apply Hf. intros ->. by destruct Hr.
  - apply Hf. intros _. by left.
Qed.

Lemma twp_complete_job k d outcome toks (Q : list token -> Result (option Job) -> Prop) :
  any_end Q -> twp (complete_task k d outcome) toks Q.
Proof.
  intros HQ. apply twp_complete; [done|]. intros disp toks' Hr.
  assert (Hread : forall toks2, twp (job ← composed_job_task k; mret (Some job)) toks2 Q).
  { intros toks2. apply twp_bind, twp_composed_job. intros toks3 [job|e]; apply HQ. }
  destruct disp; [apply HQ|apply Hread|]. apply twp_ask, serves_repend; [by apply Hr|].
  intros [[]|e]; [apply Hread|apply HQ].
Qed.

Lemma twp_complete_worker_result k d outcome toks (Q : list token -> Result bool -> Prop) :
  any_end Q -> twp (complete_worker_result_task k d outcome) toks Q.
Proof.
  intros HQ. apply twp_complete; [done|]. intros disp toks' Hr. destruct disp; [apply HQ..|].
  apply twp_ask, serves_repend; [by apply Hr|]. intros [[]|e]; apply HQ.
Qed.

Lemma twp_release_claim k d toks (Q : list token -> Result bool -> Prop) :
  any_end Q -> twp (release_claim_task k d) toks Q.
Proof.
  intros HQ. apply twp_ask, serves_accepted.
  - intros [a|e] Ha; [|apply HQ]. rewrite decide_False; [apply HQ|]. by rewrite (Ha a).
  - intros a d' Ha. rewrite Ha. case_decide as Hd; [injection Hd as ->|apply HQ].
    apply twp_ask, serves_abandon; [by left|intros e; apply HQ|]. apply twp_ask, serves_repend; [by left|].
    intros [[]|e]; apply HQ.
Qed.

(** The lookups of a job after its claim has been released only add to what the task knows. *)
Lemma twp_recover_one item toks (Q : list token -> Result Job -> Prop) :
  (rs_should_repend item = true -> Retry (rs_job_id item) (rs_dispatch_id item) ∈ toks) ->
  (forall toks' r, (forall t, t ∈ toks -> t ∈ toks') -> Q toks' r) -> twp (recover_one_task item) toks Q.
Proof.
  intros Hin HQ.
  assert (Hread : twp (composed_job_task (rs_job_id item)) toks Q).
  { apply twp_ask, serves_accepted.
    - intros [a|e] _; [|by apply HQ]. apply twp_ask, serves_execution. intros [o|e]; by apply HQ.
    - intros a d _. apply twp_ask, serves_execution. intros [o|e]; apply HQ; by right. }
  unfold recover_one_task. destruct (rs_should_repend item); [|done].
  apply twp_ask, serves_repend; [by apply Hin|]. intros [[]|e]; [done|by apply HQ].
Qed.

Lemma twp_recover_stale_leases now toks (Q : list token -> Result (list Job) -> Prop) :
  any_end Q -> twp (recover_stale_leases_task now) toks Q.
Proof.
  intros HQ. apply twp_ask, serves_recover_stale; [intros e; apply HQ|]. intros out.
  apply (twp_for_each (fun t => forall x, x ∈ retried out -> Retry (rs_job_id x) (rs_dispatch_id x) ∈ t)).
  - intros x Hx. apply elem_of_app. left. by apply (list_elem_of_fmap_2 (fun x => Retry (rs_job_id x) (rs_dispatch_id x))).
  - intros x toks' Q' Hx Hall HQ'. apply twp_recover_one; [intros Hr; by apply Hall, list_elem_of_filter|]. intros toks2 r Hsub. apply HQ'. auto.
  - intros toks' r _. apply HQ.
Qed.

Lemma twp_cleanup cutoff toks (Q : list token -> Result nat -> Prop) :
  any_end Q -> twp (cleanup_expired_records_task cutoff) toks Q.
Proof.
  intros HQ. apply twp_ask, serves_ingest_cleanup. intros [jobs|e]; [|apply HQ].
  apply twp_ask, serves_results_cleanup. intros [executions|e]; apply HQ.
Qed.

Lemma store_task_ok p : store_task p -> twp p [] (fun _ _ => True).
Proof.
  intros Hp. destruct Hp; apply twp_drop; intros Q HQ;
    [by apply twp_upsert_queue|by apply serves_enqueue|by apply twp_composed_job|by apply twp_claim_batch|by apply twp_complete_job
    |by apply twp_complete_worker_result|by apply twp_release_claim|by apply twp_recover_stale_leases|by apply twp_cleanup].
Qed.

(** ** Tasks side by side *)

(** Each task is verified with the tokens it owns, and the tokens of all tasks fit together. *)
Definition tasks_ok (bound : Z) (ts : list (prog unit)) (c : conn store) : Prop :=
  exists tokss, Forall2 (fun p toks => twp p toks (fun _ _ => True)) ts tokss /\ conc_ok tracked bound (concat tokss) c.

(** The bound after the request of the task *)
Definition task_bound (p : prog unit) (bound : Z) : Z :=
  match p with Finished _ => bound | Asking q _ => bound_after tracked q bound end.

Definition task_moves (p : prog unit) (s s' : store) : Prop :=
  match p with Finished _ => False | Asking q _ => request_moves q s s' end.

Lemma serve_next_ok p toks frame bound c p' c' :
  twp p toks (fun _ _ => True) -> conc_ok tracked bound (toks ++ frame) c -> next_safe p (c_db c) -> limit_ok tracked (c_db c) ->
  serve_next p c = Some (p', c') ->
  task_moves p (c_db c) (c_db c') /\
  exists toks', twp p' toks' (fun _ _ => True) /\ conc_ok tracked (task_bound p bound) (toks' ++ frame) c'.
Proof.
  destruct p as [r|B q k]; [done|]. simpl. intros Ht Hok Hsafe Hl Heq. specialize (Ht bound frame c Hok Hsafe Hl). unfold wp in Ht.
  destruct (serve_request q c) as [r c1]. simplify_eq. destruct Ht as (Hm & toks' & Hok' & Ht').
  split; [done|]. by exists toks'.
Qed.

(** A task out of the pool, with the tokens of the others as its frame *)
Lemma tasks_ok_focus bound ts1 p ts2 c :
  tasks_ok bound (ts1 ++ p :: ts2) c -> exists toks frame,
    twp p toks (fun _ _ => True) /\ conc_ok tracked bound (toks ++ frame) c /\
    forall bound' p' toks' c', twp p' toks' (fun _ _ => True) -> conc_ok tracked bound' (toks' ++ frame) c' ->
      tasks_ok bound' (ts1 ++ p' :: ts2) c'.
Proof.
  intros (tokss & Hall & Hok). apply Forall2_app_inv_l in Hall as (tk1 & tk2 & Hall1 & Hall2 & ->).
  apply Forall2_cons_inv_l in Hall2 as (toks & tk3 & Hp & Hall2 & ->).
  assert (Hperm : forall toks', toks' ++ (concat tk1 ++ concat tk3) ≡ₚ concat (tk1 ++ toks' :: tk3)).
  { intros toks'. rewrite concat_app. cbn [concat]. rewrite !(assoc (++)). f_equiv. apply (comm (++)). }
  exists toks, (concat tk1 ++ concat tk3). split_and!; [done| |].
  - eapply conc_ok_perm; [symmetry; apply Hperm|done].
  - intros bound' p' toks' c' Hp' Hok'. exists (tk1 ++ toks' :: tk3). split; [by apply Forall2_app; [|constructor]|].
    eapply conc_ok_perm; [apply Hperm|done].
Qed.

(** The process stops and the store is opened again. *)
Lemma heal_ok bound c : conc_ok tracked bound [] c -> wp heal_orphan_claims (fun _ c' => conc_ok tracked bound [] c') c.
Proof.
  intros Hok. destruct c as [n s].
  assert (Hlater : forall n', (n <= n')%nat -> conc_ok tracked bound [] (Conn n' s)) by (intros; by eapply conc_ok_later).
  unfold heal_orphan_claims. wp_rule. apply wp_query; [intros; apply Hlater; simpl; lia|]. intros orphans _.
  wp_rule. wp_rule. cbn beta iota. cbn [c_step c_db]. set (now := clock _). wp_rule.
  apply (wp_for_each _ _ (fun _ _ c' => conc_ok tracked bound [] c')); [apply Hlater; lia| |by intros; wp_rule].
  intros done [k d] rest ys [n1 s1] _ Hi. cbn [c_step c_db] in *.
  assert (Hup : forall n', (n1 <= n')%nat -> conc_ok tracked bound [] (Conn n' s1)) by (intros; by eapply conc_ok_later).
  wp_rule. apply wp_query; [intros; apply Hup; simpl; lia|]. intros count [= <-]. cbn [fst snd].
  destruct (decide _) as [Hz|Hz]; [|wp_rule; apply Hup; simpl; lia].
  apply wp_stmt; [intros; apply Hup; simpl; lia|]. intros [] s' [= <-]. cbn [c_step c_db] in *.
  apply conc_accepted; [apply Hup; lia| | |].
  - apply (inv_repend s1 now k d); [apply Hi|]. intros a r Ha Hd Hr.
    destruct (si_linked _ (co_inv _ _ Hi) k a r Ha Hr) as [?|Hd']; [done|].
    destruct (proj1 (no_execution_count _ d) Hz k r Hr). congruence.
  - by rewrite dom_alter_L.
  - intros i a'. rewrite lookup_alter_Some. intros [(<- & a & Ha & ->)|[_ Ha]]; [|eauto].
    exists a. split; [done|]. case_decide as Hd; [right|by left]. split; [done|]. split; [set_solver|].
    apply (unstarted_releasable [] s1 k a); [apply Hi|done|]. intros d' r Hd' Hr Heq.
    destruct (proj1 (no_execution_count _ d) Hz k r Hr). simpl in *. congruence.
Qed.

(** What a step of the pool does to the jobs: a request, or the release of orphans on opening *)
Inductive pool_moves (allowed : prog unit -> Prop) (s s' : store) : Prop :=
| pm_idle : s' = s -> pool_moves allowed s s'
| pm_request p : allowed p -> task_moves p s s' -> pool_moves allowed s s'
| pm_opening : refines OpHeal s s' -> pool_moves allowed s s'.

(** A step keeps every bound that its request does. *)
Lemma tasks_step_ok allowed bound bound' x y :
  tasks_step allowed x y -> (forall p, allowed p -> task_bound p bound <= bound') -> bound <= bound' ->
  limit_ok tracked (c_db x.2) -> tasks_ok bound x.1 x.2 ->
  tasks_ok bound' y.1 y.2 /\ pool_moves allowed (c_db x.2) (c_db y.2).
Proof.
  intros Hstep Hbound Hle Hl. destruct Hstep as [p ts c Hp|ts1 p ts2 c p' c' Hp Hsafe Hs|ts c r c' Hh]; cbn [fst snd] in *.
  - intros (tokss & Hall & Hok). split; [|by apply pm_idle]. exists ([] :: tokss). split; [|by eapply conc_ok_mono].
    constructor; [by apply store_task_ok|done].
  - intros (toks & frame & Ht & Hok & Hback)%tasks_ok_focus.
    destruct (serve_next_ok _ _ _ _ _ _ _ Ht Hok Hsafe Hl Hs) as (Hm & toks' & Ht' & Hok').
    split; [|by apply pm_request with p]. eapply Hback; [done|]. eapply conc_ok_mono; [by apply Hbound|done].
  - intros (tokss & _ & Hok). rewrite <-(app_nil_r (concat tokss)) in Hok. apply conc_ok_drop in Hok. split.
    + exists []. split; [constructor|]. eapply conc_ok_mono; [exact Hle|]. exact (wp_run _ _ _ _ _ (heal_ok bound c Hok) Hh).
    + apply pm_opening. refine (wp_run _ (fun _ c' => refines OpHeal (c_db c) (c_db c')) _ _ _ _ Hh).
      apply heal_refines, Hok.
Qed.

Lemma empty_tasks_ok bound n : bound_ok tracked bound [] empty_store -> tasks_ok bound [] (Conn n empty_store).
Proof.
  intros Hb. exists []. split; [constructor|]. split; simpl; [apply empty_store_inv|..]; try constructor; [..|done].
  - intros k a d. by rewrite lookup_empty.
  - intros k r. by rewrite lookup_empty.
Qed.

Lemma pool_moves_done s s' k d m :
  pool_moves no_cleanup s s' -> job_of s k = (Done d, m) -> job_of s' k = (Done d, m).
Proof.
  intros [->|[r|B q cont] Hq Hm|Href] Hd; [done| | |].
  - done.
  - simpl in Hq, Hm. destruct (Hm k) as [->|[(e & Hev & Hstep)|[Habs _]]]; [done| |by rewrite Hd in Habs].
    rewrite Hd in Hstep. inversion Hstep; subst; destruct q as [| | | | |? ? []| | | | | | | |]; naive_solver.
  - by eapply done_stays_done; [|exact (Href k)|].
Qed.
End logic.

(** Without a job to count, every run keeps the invariant. *)
Section reachable.
Context `{EL : EnvLaws}.

Definition reached (x : list (prog unit) * conn store) : Prop := tasks_ok (tracked := None) 0 x.1 x.2.

Lemma reached_step allowed x y :
  tasks_step allowed x y -> reached x -> reached y /\ pool_moves allowed (c_db x.2) (c_db y.2).
Proof.
  intros Hstep Hok. apply (tasks_step_ok (tracked := None) allowed 0); [done| |done|done|done].
  intros [r|B q k] _; simpl; [done|]. by destruct q.
Qed.

Lemma tasks_run_ok allowed n y : rtc (tasks_step allowed) ([], Conn n empty_store) y -> reached y.
Proof.
  intros Hrun. assert (Hx : reached ([], Conn n empty_store)) by by apply empty_tasks_ok.
  induction Hrun as [|x y z Hstep _ IH]; [done|]. by apply IH, (reached_step allowed x).
Qed.
End reachable.

(** ** Runs of the pool that can be computed *)

Inductive pool_event : Type :=
| Start (p : prog unit)
| Go (i : nat) (** the task at [i] goes on *)
| Reopen.

Definition request_safeb {B} (q : request B) (s : store) : bool :=
  match q with
  | QEnqueue _ => bool_decide (set_Forall (fun i => 0 < i) (dom (i_accepted (s_ingest s)))) &&
      (max_id (dom (i_accepted (s_ingest s))) + 1 <? i64_max)
  | QDispatch rows => max_id (er_ids (r_executions (s_results s))) + Z.of_nat (length rows) <? i64_max
  | QAbandon _ _ | QIngestCleanup _ | QResultsCleanup _ => false
  | _ => true
  end.

Lemma request_safeb_spec {B} (q : request B) s : request_safeb q s = true -> request_safe q s /\ is_cleanup q = false.
Proof.
  destruct q; try done; simpl.
  - intros [?%bool_decide_eq_true ?%Z.ltb_lt]%andb_prop. by repeat split.
  - by intros ?%Z.ltb_lt.
Qed.

Section pool.
Context `{E : Env}.

Definition pool_next (ev : pool_event) (x : list (prog unit) * conn store) : option (list (prog unit) * conn store) :=
  match ev with
  | Start p => Some (p :: x.1, x.2)
  | Go i =>
      match x.1 !! i with
      | Some (Asking q k) =>
          if request_safeb q (c_db x.2) then
            let '(r, c') := serve_request q x.2 in Some (<[i := k r]> x.1, c')
          else None
      | _ => None
      end
  | Reopen => Some ([], (heal_orphan_claims x.2).2)
  end.

Fixpoint pool_run (evs : list pool_event) (x : list (prog unit) * conn store) : option (list (prog unit) * conn store) :=
  match evs with
  | [] => Some x
  | ev :: evs => pool_next ev x ≫= pool_run evs
  end.

Definition starts_ok (evs : list pool_event) : Prop :=
  Forall (fun ev => match ev with Start p => store_task p | _ => True end) evs.

Lemma pool_next_step (allowed : prog unit -> Prop) ev x z :
  (forall B (q : request B) k s, request_safeb q s = true -> allowed (Asking q k)) ->
  match ev with Start p => store_task p | _ => True end -> pool_next ev x = Some z -> tasks_step allowed x z.
Proof.
  intros Hall Hev Hz. destruct x as [ts c], ev as [p|i|]; cbn [pool_next fst snd] in Hz.
  - simplify_eq. by constructor.
  - destruct (ts !! i) as [[r|B q k]|] eqn:Ei; [done| |done].
    destruct (request_safeb q (c_db c)) eqn:Esafe; [|done]. pose proof Esafe as [Hsafe Hc]%request_safeb_spec.
    destruct (serve_request q c) as [r c'] eqn:Es. simplify_eq.
    rewrite <-(take_drop_middle ts i (Asking q k) Ei) at 1.
    rewrite insert_take_drop by by eapply lookup_lt_Some.
    apply ts_serve; [by eapply Hall|done|]. simpl. by rewrite Es.
  - simplify_eq. destruct (heal_orphan_claims c) as [r c'] eqn:Eh. by apply ts_restart with r.
Qed.

Lemma pool_run_steps (allowed : prog unit -> Prop) evs x y :
  (forall p, no_cleanup p -> allowed p) -> starts_ok evs -> pool_run evs x = Some y -> rtc (tasks_step allowed) x y.
Proof.
  intros Hall. revert x. induction evs as [|ev evs IH]; intros x Hst Hrun; [by simplify_eq/=; apply rtc_refl|].
  apply Forall_cons in Hst as [Hev Hst]. simpl in Hrun. apply bind_Some in Hrun as (z & Hz & Hrun).
  eapply rtc_l; [|by apply IH]. apply (pool_next_step _ ev); [|done|done].
  intros B q k s Hs. apply Hall. simpl. by apply (request_safeb_spec q s).
Qed.
End pool.

(** The pool and the store after the events *)
Definition after_events (evs : list pool_event) : list (prog unit) * conn store :=
  default ([], Conn 0 empty_store) (pool_run (E := model_env) evs ([], Conn 0 empty_store)).

Definition runs (evs : list pool_event) : bool :=
  match pool_run (E := model_env) evs ([], Conn 0 empty_store) with Some _ => true | None => false end.

Lemma after_events_reached evs :
  starts_ok evs -> runs evs = true ->
  rtc (tasks_step (E := model_env) (fun _ => True)) ([], Conn 0 empty_store) (after_events evs).
Proof.
  intros Hst Hrun. apply (pool_run_steps _ evs); [done|done|]. unfold runs, after_events in *. by destruct (pool_run _ _).
Qed.

Definition claim_one : prog unit := _ ← claim_batch_task "email" 1; mret tt.

(** A queue and two jobs *)
Definition example_setup : list pool_event :=
  [Start (_ ← upsert_queue_task (mkJobQueue "email" 1 60 0 0); mret tt); Go 0; Go 0;
   Start (_ ← pask (QEnqueue (AcceptedJob_new 10 "email" [])); mret tt); Go 0;
   Start (_ ← pask (QEnqueue (AcceptedJob_new 11 "email" [])); mret tt); Go 0].

(** Two claims at the same time: the first has its job and has not started it when the second claims and
    starts its own. *)
Definition example_claims : list pool_event :=
  example_setup ++ [Start claim_one; Start claim_one; Go 1; Go 0; Go 0; Go 0].

Ltac starts_ok := repeat constructor.

(** ** Theorems *)

(** C7. However the tasks of the server interleave, request by request, whatever fails between two of
    them and wherever the process stops, the two databases stay linked, under the conditions of
    [store_invariant] taken to the requests ([request_safe]): a claim is abandoned only once its execution
    has been started and while it is not completed, a cleanup spares the newest job, and the rowids do not
    run out. What [store_invariant] states of operations that run one after the other then holds between
    any two requests of operations that overlap. The race of a completion with the release of its claim
    is what the first condition excludes; it breaks the link ([release_reopens_completed]). *)
Theorem concurrent_store_keeps_invariant `{EnvLaws} n ts c :
  rtc (tasks_step (fun _ => True)) ([], Conn n empty_store) (ts, c) -> store_inv (c_db c).
Proof.
  intros Hrun. destruct (tasks_run_ok _ _ _ Hrun) as (tokss & _ & Hok). apply Hok.
Qed.

Lemma concurrent_store_keeps_invariant_witness :
  let c := (after_events example_claims).2 in
  store_inv (c_db c) /\ (job_of (c_db c) 1).1 <> Available /\ (job_of (c_db c) 2).2 = 1.
Proof.
  intros c. split_and!; [|vm_compute; discriminate|vm_compute; reflexivity].
  apply (concurrent_store_keeps_invariant (E := model_env) 0 (after_events example_claims).1).
  rewrite <-surjective_pairing. apply after_events_reached; [starts_ok|vm_compute; reflexivity].
Defined.

(** C8. In any state that tasks can reach while they keep to [request_safe] (no claim is abandoned before
    its execution has started or once it is completed, cleanups spare the newest job, rowids do not run
    out), the request a task waits for, if it keeps to it too, moves every job by at most one step of its
    machine, and by an event the request is for: in particular a dispatch starts only jobs that are held
    under the very ids of its rows, although other tasks have been at work since they were claimed. *)
Theorem concurrent_requests_move_jobs `{EnvLaws} n ts1 ts2 {B} (q : request B) cont c r c' :
  rtc (tasks_step (fun _ => True)) ([], Conn n empty_store) (ts1 ++ Asking q cont :: ts2, c) ->
  request_safe q (c_db c) -> serve_request q c = (r, c') -> request_moves q (c_db c) (c_db c').
Proof.
  intros Hrun Hsafe Hs. pose proof (tasks_run_ok _ _ _ Hrun) as Hok. unfold reached in Hok. simpl in Hok.
  apply tasks_ok_focus in Hok as (toks & frame & Ht & Hok & _).
  refine (proj1 (serve_next_ok (Asking q cont) toks frame 0 c (cont r) c' Ht Hok Hsafe I _)). simpl. by rewrite Hs.
Qed.

(** The id under which the second claim has started job 2 *)
Definition example_second_id : string :=
  default ""%string (i_accepted (s_ingest (c_db (after_events example_claims).2)) !! 2 ≫= ar_dispatch_id).

Lemma concurrent_requests_move_jobs_witness :
  let x := after_events example_claims in
  let q := QComplete 2 example_second_id (Succeeded []) in
  let c' := (serve_request (E := model_env) q x.2).2 in
  request_moves q (c_db x.2) (c_db c') /\ job_of (c_db c') 2 = (Done example_second_id, 1).
Proof.
  intros x q c'. split; [|vm_compute; reflexivity].
  refine (concurrent_requests_move_jobs (E := model_env) 0 [] x.1 q _ x.2 (serve_request (E := model_env) q x.2).1 c' _ _ _).
  - refine (rtc_r _ (x.1, x.2) _ _ (ts_spawn _ _ _ _ (st_complete_worker_result 2 example_second_id (Succeeded [])))).
    rewrite <-surjective_pairing. apply after_events_reached; [starts_ok|vm_compute; reflexivity].
  - exact I.
  - by destruct (serve_request q x.2).
Defined.

(** C9. A job that is completed stays completed while tasks of all kinds but cleanups interleave, late
    results, recoveries, restarts and releases of claims included, except that no claim is abandoned once
    its job is completed under it (nor before its execution has started), the condition [request_safe]
    of the requests: what the code does otherwise is [release_reopens_completed]. *)
Theorem concurrent_completed_job_stays `{EnvLaws} n ts c ts' c' k d m :
  rtc (tasks_step (fun _ => True)) ([], Conn n empty_store) (ts, c) -> job_of (c_db c) k = (Done d, m) ->
  rtc (tasks_step no_cleanup) (ts, c) (ts', c') -> job_of (c_db c') k = (Done d, m).
Proof.
  intros Hrun Hd Hrest. pose proof (tasks_run_ok _ _ _ Hrun) as Hok. clear Hrun.
  remember (ts, c) as x eqn:Ex. remember (ts', c') as y eqn:Ey.
  replace c with x.2 in Hd by by subst. replace c' with y.2 by by subst. replace (ts, c) with x in Hok by done. clear Ex Ey.
  induction Hrest as [x|x y z Hstep _ IH]; [done|]. destruct (reached_step _ _ _ Hstep Hok) as [Hok' Hm].
  apply IH; [|done]. by eapply pool_moves_done.
Qed.

Definition report_second (outcome : JobOutcome) : prog unit :=
  _ ← complete_worker_result_task 2 example_second_id outcome; mret tt.

(** Job 2 is completed; then the first claim starts its own job, while a late failure of job 2 is reported
    and a third claim runs. *)
Definition example_finished : list pool_event :=
  example_claims ++ [Start (report_second (Succeeded [])); Go 0].
Definition example_late : list pool_event :=
  [Start (report_second (OFailed "late")); Start claim_one; Go 0; Go 1; Go 4; Go 4; Reopen; Start claim_one; Go 0].

Lemma concurrent_completed_job_stays_witness :
  let x := after_events example_finished in
  job_of (c_db x.2) 2 = (Done example_second_id, 1) /\
  exists y, pool_run (E := model_env) example_late x = Some y /\ job_of (c_db y.2) 2 = (Done example_second_id, 1).
Proof.
  intros x. assert (Hd : job_of (c_db x.2) 2 = (Done example_second_id, 1)) by (vm_compute; reflexivity).
  split; [exact Hd|]. destruct (pool_run (E := model_env) example_late x) as [y|] eqn:Ey.
  - exists y. split; [reflexivity|].
    apply (concurrent_completed_job_stays (E := model_env) 0 x.1 x.2 y.1 y.2); [|exact Hd|].
    + rewrite <-surjective_pairing. apply after_events_reached; [starts_ok|vm_compute; reflexivity].
    + rewrite <-!surjective_pairing. apply (pool_run_steps _ example_late); [done|starts_ok|exact Ey].
  - exfalso. assert (Hno : match pool_run (E := model_env) example_late x with Some _ => true | None => false end = true)
      by (vm_compute; reflexivity). rewrite Ey in Hno. discriminate Hno.
Defined.

(** ** A task alone *)

Section alone.
Context `{E : Env}.

Lemma run_alone_bind {A B} (p : prog A) (f : A -> prog B) c :
  run_alone (p ≫= f) c = (run_alone p ≫= fun a => run_alone (f a)) c.
Proof.
  revert c. induction p as [[a|e]|B' q k IH]; intros c; [done..|]. unfold mbind, M_bind. simpl.
  destruct (serve_request q c) as [r c']. apply IH.
Qed.

Lemma run_alone_ask {B} (q : request B) c : run_alone (pask q) c = serve_request q c.
Proof. simpl. by destruct (serve_request q c). Qed.

Lemma run_alone_attempt {A} (p : prog A) c : run_alone (pattempt p) c = attempt (run_alone p) c.
Proof.
  revert c. induction p as [r|B' q k IH]; intros c; [done|]. unfold attempt. simpl.
  destruct (serve_request q c) as [r c']. apply IH.
Qed.

Lemma M_bind_ext {S A B} (m m' : M S A) (f g : A -> M S B) c :
  m c = m' c -> (forall a c', f a c' = g a c') -> (m ≫= f) c = (m' ≫= g) c.
Proof. unfold mbind, M_bind. intros -> Hf. destruct (m' c) as [[a|e] c']; [apply Hf|done]. Qed.

(** A request that is waited for *)
Lemma run_alone_request {B A} (q : request B) (f : B -> prog A) (g : B -> M store A) c :
  (forall b c', run_alone (f b) c' = g b c') -> run_alone (pask q ≫= f) c = (serve_request q ≫= g) c.
Proof. intros Hf. rewrite run_alone_bind. apply M_bind_ext; [apply run_alone_ask|done]. Qed.

Lemma run_alone_for_each {A B} (f : A -> prog B) (g : A -> M store B) (l : list A) c :
  (forall x c', run_alone (f x) c' = g x c') -> run_alone (pfor_each f l) c = for_each g l c.
Proof.
  intros Hf. revert c. induction l as [|x l IH]; intros c; [done|]. simpl. rewrite run_alone_bind.
  apply M_bind_ext; [apply Hf|]. intros y c1. rewrite run_alone_bind. by apply M_bind_ext.
Qed.

Lemma run_alone_composed_job k c : run_alone (composed_job_task k) c = composed_job k c.
Proof. apply run_alone_request. intros a c1. by apply run_alone_request. Qed.

Lemma run_alone_some_job k c : run_alone (job ← composed_job_task k; mret (Some job)) c = (Some <$> composed_job k) c.
Proof. rewrite run_alone_bind. apply M_bind_ext; [apply run_alone_composed_job|done]. Qed.

Lemma run_alone_claim_batch queue limit c : run_alone (claim_batch_task queue limit) c = claim_batch_inner queue limit c.
Proof.
  apply run_alone_request. intros [|x rest] c1; [done|]. apply run_alone_request. intros at_ c2.
  rewrite run_alone_bind. apply M_bind_ext; [rewrite run_alone_attempt; unfold attempt; by rewrite run_alone_ask|].
  intros [out|e] c3; [done|]. rewrite run_alone_bind. apply M_bind_ext; [|done]. apply run_alone_for_each.
  intros y c4. rewrite run_alone_attempt. unfold attempt. by rewrite run_alone_ask.
Qed.

Lemma run_alone_complete k d outcome c : run_alone (complete_task k d outcome) c = complete k d outcome c.
Proof.
  apply run_alone_request. intros [] c1; [done|apply run_alone_some_job|]. apply run_alone_request.
  intros [] c2. apply run_alone_some_job.
Qed.

Lemma run_alone_release_claim k d c : run_alone (release_claim_task k d) c = release_claim k d c.
Proof.
  apply run_alone_request. intros a c1. case_decide; [|done]. apply run_alone_request. intros [] c2.
  by apply run_alone_request.
Qed.

Lemma run_alone_recover_one item c : run_alone (recover_one_task item) c = recover_one item c.
Proof.
  unfold recover_one_task, recover_one. rewrite run_alone_bind. apply M_bind_ext.
  - destruct (rs_should_repend item); [apply run_alone_ask|done].
  - intros [] c1. apply run_alone_composed_job.
Qed.
End alone.

(** A task that no other disturbs is the operation of the store as it is written: the same requests
    in the same order, with the same result and the same errors, for each of the operations. *)
Theorem tasks_alone_are_operations `{Env} c :
  (forall queue, run_alone (upsert_queue_task queue) c = store_upsert_queue queue c) /\
  (forall k, run_alone (composed_job_task k) c = get_job k c) /\
  (forall queue limit, run_alone (claim_batch_task queue limit) c = claim_batch_inner queue limit c) /\
  (forall k d outcome, run_alone (complete_task k d outcome) c = complete k d outcome c) /\
  (forall k d outcome, run_alone (complete_worker_result_task k d outcome) c = complete_worker_result k d outcome c) /\
  (forall k d, run_alone (release_claim_task k d) c = release_claim k d c) /\
  (forall now, run_alone (recover_stale_leases_task now) c = recover_stale_leases now c) /\
  (forall cutoff, run_alone (cleanup_expired_records_task cutoff) c = store_cleanup_expired_records cutoff c).
Proof.
  split_and!; intros.
  - apply (run_alone_request (QUpsertQueue queue)). intros q c1. by apply (run_alone_request (QResultsUpsertQueue q)).
  - apply run_alone_composed_job.
  - apply run_alone_claim_batch.
  - apply run_alone_complete.
  - apply (run_alone_request (QComplete k d outcome)). intros [] c1; [done..|]. by apply (run_alone_request (QRepend k d)).
  - apply run_alone_release_claim.
  - apply (run_alone_request (QRecoverStale now)). intros out c1. by apply run_alone_for_each, run_alone_recover_one.
  - apply (run_alone_request (QIngestCleanup cutoff)). intros n c1. by apply (run_alone_request (QResultsCleanup cutoff)).
Qed.

