(* ===== verification/ConcurrentAttempts.v ===== *)
(** * How often a job is executed under concurrency

    The bound of [Attempts] for operations that overlap: between the report of a failure and the release
    of its claim, between a claim and its start, and around a restart, other tasks are at work. *)
From stdpp Require Import relations.
From S2P Require Import Prelude Types Db Tables Ingest Results ResultsFacts ResultsDispatch ResultsProps Store StoreFacts StoreProps.
From S2P Require Import JobMachine Steps Concurrent ConcurrentTokens ConcurrentFacts ConcurrentProps.

(** The request gives a claim of job [k] back. *)
Definition gives_back {B} (k : Z) (q : request B) : Prop := match q with QAbandon k' _ => k' = k | _ => False end.
Definition task_gives_back (k : Z) (p : prog unit) : Prop := match p with Finished _ => False | Asking q _ => gives_back k q end.

(** Tasks at work while the retry limit of job [k] is never above [limit], with [n] claims of the job
    given back at most *)
Inductive tasks_run `{Env} (limit k : Z) :
    list (prog unit) * conn store -> Z -> list (prog unit) * conn store -> Prop :=
| tr_nil x : tasks_run limit k x 0 x
| tr_step x y n z :
    limit_of (c_db x.2) k <= limit -> tasks_step (fun p => ~ task_gives_back k p) x y -> tasks_run limit k y n z ->
    tasks_run limit k x n z
| tr_give_back x y n z :
    limit_of (c_db x.2) k <= limit -> tasks_step (task_gives_back k) x y -> tasks_run limit k y n z ->
    tasks_run limit k x (n + 1) z.

Section bound.
Context `{EL : EnvLaws} (limit k : Z).

Lemma kept_bound bound p : ~ task_gives_back k p -> task_bound (tracked := Some (k, limit)) p bound <= bound.
Proof. destruct p as [r|B q cont]; simpl; [done|]. destruct q; simpl; try done. intros Hne. by rewrite decide_False. Qed.

Lemma given_back_bound bound p : task_bound (tracked := Some (k, limit)) p bound <= bound + 1.
Proof. destruct p as [r|B q cont]; simpl; [lia|]. destruct q; simpl; try lia. case_decide; lia. Qed.

Lemma tasks_run_bound x n y bound :
  tasks_run limit k x n y -> tasks_ok (tracked := Some (k, limit)) bound x.1 x.2 ->
  tasks_ok (tracked := Some (k, limit)) (bound + n) y.1 y.2.
Proof.
  intros Hrun. revert bound. induction Hrun as [x|x y n z Hl Hstep _ IH|x y n z Hl Hstep _ IH]; intros bound Hok.
  - by rewrite Z.add_0_r.
  - apply IH. apply (tasks_step_ok (tracked := Some (k, limit)) (fun p => ~ task_gives_back k p) bound bound x); try done.
    intros p. apply kept_bound.
  - replace (bound + (n + 1)) with (bound + 1 + n) by lia. apply IH.
    apply (tasks_step_ok (tracked := Some (k, limit)) (task_gives_back k) bound (bound + 1) x); try done; [|lia].
    intros p _. apply given_back_bound.
Qed.

Lemma empty_within toks : 0 <= limit -> toks = [] -> within_bound k limit limit toks empty_store.
Proof.
  intros Hl ->. assert (Hc : count_of empty_store k = 0) by (unfold count_of; simpl; by rewrite lookup_empty).
  split; rewrite ?Hc; intros; lia.
Qed.
End bound.

(** C10. However the operations of the store overlap, fail or are cut off by restarts, the execution count
    of a job stays within its retry limit and one, plus one for each claim of it that is explicitly given
    back, as long as the requests keep to [request_safe]: no claim, of this or another job, is abandoned
    before its execution has started or once it is completed, cleanups spare the newest job, rowids do
    not run out. No interleaving of reports, recoveries, claims and restarts grants a retry twice. *)
Theorem concurrent_executions_stay_within_limit `{EnvLaws} limit k n0 ts c n :
  0 <= limit -> tasks_run limit k ([], Conn n0 empty_store) n (ts, c) ->
  (job_of (c_db c) k).2 <= limit + 1 + n.
Proof.
  intros Hlimit Hrun. apply tasks_run_bound with (bound := limit) in Hrun as (tokss & _ & Hok).
  - pose proof (wb_all _ _ _ _ _ (co_bound _ _ Hok)) as Hall. change ((job_of (c_db c) k).2) with (count_of (c_db c) k).
    simpl in Hall. lia.
  - by apply empty_tasks_ok, empty_within.
Qed.

(** A run of the pool that gives nothing back *)
Fixpoint limits_kept (limit k : Z) (evs : list pool_event) (x : list (prog unit) * conn store) : bool :=
  match evs with
  | [] => true
  | ev :: evs => (limit_of (c_db x.2) k <=? limit) &&
      match pool_next (E := model_env) ev x with Some y => limits_kept limit k evs y | None => false end
  end.

Lemma limits_kept_run limit k evs x y :
  starts_ok evs -> limits_kept limit k evs x = true -> pool_run (E := model_env) evs x = Some y ->
  tasks_run (H := model_env) limit k x 0 y.
Proof.
  revert x. induction evs as [|ev evs IH]; intros x Hst Hk Hrun; [simplify_eq/=; apply tr_nil|].
  apply Forall_cons in Hst as [Hev Hst]. apply andb_prop in Hk as [Hl%Z.leb_le Hk].
  simpl in Hrun. destruct (pool_next ev x) as [z|] eqn:Ez; [|done]. apply tr_step with z; [done| |by apply IH].
  apply (pool_next_step _ ev); [|done|done]. intros B q cont s Hs Hg. by destruct q.
Qed.

(** Job 1, of a queue with one retry, is claimed and fails; two tasks report the failure, and the claim is
    released once; the job is claimed again and fails again, and then it stays where it is. *)
Definition claim_of_job_1 (evs : list pool_event) : string :=
  default ""%string (i_accepted (s_ingest (c_db (after_events evs).2)) !! 1 ≫= ar_dispatch_id).
Definition fail_job_1 (d : string) : prog unit := _ ← complete_worker_result_task 1 d (OFailed "x"); mret tt.

Definition first_attempt : list pool_event := example_setup ++ [Start claim_one; Go 0; Go 0; Go 0].
Definition first_failure : list pool_event :=
  let d := claim_of_job_1 first_attempt in
  first_attempt ++ [Start (fail_job_1 d); Start (fail_job_1 d); Go 1; Go 0; Go 1].
Definition second_attempt : list pool_event := first_failure ++ [Start claim_one; Go 0; Go 0; Go 0].
Definition second_failure : list pool_event :=
  second_attempt ++ [Start (fail_job_1 (claim_of_job_1 second_attempt)); Go 0; Start claim_one; Go 0; Go 0; Go 0].

Lemma concurrent_executions_stay_within_limit_witness :
  let x := after_events second_failure in (job_of (c_db x.2) 1).2 = 2 /\ (job_of (c_db x.2) 1).2 <= 1 + 1 + 0.
Proof.
  intros x. split; [vm_compute; reflexivity|].
  apply (concurrent_executions_stay_within_limit (E := model_env) 1 1 0 x.1 x.2 0); [lia|].
  rewrite <-surjective_pairing. apply (limits_kept_run 1 1 second_failure); [starts_ok|vm_compute; reflexivity|].
  unfold x, after_events. destruct (pool_run second_failure _) as [y|] eqn:Ey; [reflexivity|].
  exfalso. assert (Hruns : runs second_failure = true) by (vm_compute; reflexivity). unfold runs in Hruns.
  rewrite Ey in Hruns. discriminate Hruns.
Defined.
