(* ===== verification/Scheduler.v ===== *)
(** * The scheduler of the engine

    [crates/engine/src/lib.rs]: [SchedulerState] and the functions that change it
    ([schedule_queue], [finish_pass], [resume_retry], [probe_idle_queues], [seed_idle_queues]).
    Each runs under the state's lock, so it is one step; what it sends on the unbounded channel and
    the tasks it puts to sleep are part of the state. [sched_step] interleaves them with the
    scheduler task, which takes queues off the channel and works through a pass. *)
From S2P Require Import Prelude.

Record QueueSchedule := mkQueueSchedule {
  rerun : bool;
  retry_count : Z (* u8 *)
}.

Record SchedulerState := mkSchedulerState {
  scheduled : gmap string QueueSchedule;
  idle : list string;
  idle_set : gset string
}.

Inductive PassOutcome : Type := Active | Idle | CapacityBlocked | Retry.

(** The state, the channel [Scheduler::tx], and the tasks that sleep before [resume_retry], with
    their delays in milliseconds. *)
Record scheduler := mkScheduler {
  sc_state : SchedulerState;
  sc_tx : list string;
  sc_sleeping : list (string * Z)
}.

Definition empty_scheduler : scheduler := mkScheduler (mkSchedulerState ∅ [] ∅) [] [].

Definition set_scheduled (m : gmap string QueueSchedule) (st : SchedulerState) : SchedulerState :=
  mkSchedulerState m (idle st) (idle_set st).

Definition send (queue : string) (sc : scheduler) : scheduler :=
  mkScheduler (sc_state sc) (sc_tx sc ++ [queue]) (sc_sleeping sc).

Definition with_state (st : SchedulerState) (sc : scheduler) : scheduler :=
  mkScheduler st (sc_tx sc) (sc_sleeping sc).

Definition schedule_queue (queue : string) (sc : scheduler) : scheduler :=
  let st := sc_state sc in
  match scheduled st !! queue with
  | Some schedule =>
      with_state (set_scheduled (<[queue := mkQueueSchedule true (retry_count schedule)]> (scheduled st)) st) sc
  | None =>
      send queue (with_state
        (mkSchedulerState (<[queue := mkQueueSchedule false 0]> (scheduled st)) (idle st)
           (idle_set st ∖ {[queue]})) sc)
  end.

(** [if state.idle_set.insert(queue) { state.idle.push_back(queue) }] *)
Definition push_idle (queue : string) (st : SchedulerState) : SchedulerState :=
  if decide (queue ∈ idle_set st) then st
  else mkSchedulerState (scheduled st) (idle st ++ [queue]) ({[queue]} ∪ idle_set st).

(** [Duration::from_millis(10.saturating_mul(1 << retry_count).min(1000))] *)
Definition retry_delay (retry_count : Z) : Z := Z.min 1000 (Z.min u64_max (10 * Z.shiftl 1 retry_count)).

(** [schedule.retry_count.saturating_add(1).min(7)] *)
Definition next_retry_count (retry_count : Z) : Z := Z.min 7 (u8_saturating_add retry_count 1).

Definition finish_pass (queue : string) (outcome : PassOutcome) (sc : scheduler) : scheduler :=
  let st := sc_state sc in
  match scheduled st !! queue with
  | None => sc
  | Some schedule =>
      let resend :=
        send queue (with_state (set_scheduled (<[queue := mkQueueSchedule false 0]> (scheduled st)) st) sc) in
      match outcome with
      | Active => resend
      | Idle | CapacityBlocked =>
          if rerun schedule then resend
          else with_state (push_idle queue (set_scheduled (delete queue (scheduled st)) st)) sc
      | Retry =>
          let count := next_retry_count (retry_count schedule) in
          let sc := with_state (set_scheduled (<[queue := mkQueueSchedule false count]> (scheduled st)) st) sc in
          mkScheduler (sc_state sc) (sc_tx sc) (sc_sleeping sc ++ [(queue, retry_delay count)])
      end
  end.

Definition resume_retry (queue : string) (sc : scheduler) : scheduler :=
  match scheduled (sc_state sc) !! queue with
  | Some _ => send queue sc
  | None => sc
  end.

(** The loop of [probe_idle_queues]: pop idle queues until [n] that are not scheduled are found. *)
Fixpoint pop_idle (n : nat) (l : list string) (st : SchedulerState) : list string * SchedulerState :=
  match n, l with
  | O, _ | _, [] => ([], mkSchedulerState (scheduled st) l (idle_set st))
  | S n', queue :: rest =>
      let st := mkSchedulerState (scheduled st) rest (idle_set st ∖ {[queue]}) in
      match scheduled st !! queue with
      | Some _ => pop_idle n rest st
      | None => let out := pop_idle n' rest st in (queue :: out.1, out.2)
      end
  end.

Definition probe_idle_queues (idle_probe_batch_size : nat) (sc : scheduler) : scheduler :=
  let '(queues, st) := pop_idle idle_probe_batch_size (idle (sc_state sc)) (sc_state sc) in
  foldl (fun sc queue => schedule_queue queue sc) (with_state st sc) queues.

(** [seed_idle_queues], once the store has listed its queues *)
Definition seed_idle_queues (names : list string) (sc : scheduler) : scheduler :=
  with_state (foldl (fun st name => push_idle name st) (sc_state sc) names) sc.

(** ** Interleavings *)

(** The scheduler and the queues of the current pass that are not finished. *)
Record world := mkWorld { w_sched : scheduler; w_pass : list string }.

Inductive sched_step (probe_size : nat) : world -> world -> Prop :=
(** any task schedules a queue *)
| ss_schedule queue w :
    sched_step probe_size w (mkWorld (schedule_queue queue (w_sched w)) (w_pass w))
(** the scheduler task takes queues off the channel: [HashSet::from([queue])], then [try_recv] *)
| ss_receive taken rest sc :
    taken <> [] -> sc_tx sc = taken ++ rest ->
    sched_step probe_size (mkWorld sc [])
      (mkWorld (mkScheduler (sc_state sc) rest (sc_sleeping sc)) (remove_dups taken))
(** a queue of the pass is finished *)
| ss_finish queue outcome sc pass1 pass2 :
    sched_step probe_size (mkWorld sc (pass1 ++ queue :: pass2))
      (mkWorld (finish_pass queue outcome sc) (pass1 ++ pass2))
(** a sleeping task wakes up *)
| ss_wake queue delay st tx sleeping1 sleeping2 pass :
    sched_step probe_size (mkWorld (mkScheduler st tx (sleeping1 ++ (queue, delay) :: sleeping2)) pass)
      (mkWorld (resume_retry queue (mkScheduler st tx (sleeping1 ++ sleeping2))) pass)
| ss_probe w :
    sched_step probe_size w (mkWorld (probe_idle_queues probe_size (w_sched w)) (w_pass w))
| ss_seed names w :
    sched_step probe_size w (mkWorld (seed_idle_queues names (w_sched w)) (w_pass w)).

Definition sched_run (probe_size : nat) : world -> world -> Prop := rtc (sched_step probe_size).

Definition initial_world : world := mkWorld empty_scheduler [].

(** ** The token invariant *)

(** Where the turns of the queues are: on the channel, in the pass, or with a sleeping task. *)
Definition tokens (w : world) : list string :=
  sc_tx (w_sched w) ++ w_pass w ++ (sc_sleeping (w_sched w)).*1.

Record tokens_ok (w : world) : Prop := {
  tk_NoDup : NoDup (tokens w);
  tk_scheduled : forall q, q ∈ tokens w <-> q ∈ dom (scheduled (sc_state (w_sched w)))
}.

(** Adding or removing a turn together with the entry of its queue. *)
Lemma tokens_ok_add w w' q :
  tokens_ok w -> q ∉ dom (scheduled (sc_state (w_sched w))) -> tokens w' ≡ₚ q :: tokens w ->
  dom (scheduled (sc_state (w_sched w'))) = {[q]} ∪ dom (scheduled (sc_state (w_sched w))) -> tokens_ok w'.
Proof.
  intros [Hnd Ht] Hq Hp Hd. split.
  - rewrite Hp. apply NoDup_cons. split; [by rewrite Ht|done].
  - intros i. rewrite Hp, Hd, elem_of_cons, Ht. set_solver.
Qed.

Lemma tokens_ok_same w w' :
  tokens_ok w -> tokens w' ≡ₚ tokens w ->
  dom (scheduled (sc_state (w_sched w'))) = dom (scheduled (sc_state (w_sched w))) -> tokens_ok w'.
Proof. intros [Hnd Ht] Hp Hd. split; [by rewrite Hp|]. intros i. by rewrite Hp, Hd, Ht. Qed.

Lemma tokens_ok_remove w w' q :
  tokens_ok w -> tokens w ≡ₚ q :: tokens w' ->
  dom (scheduled (sc_state (w_sched w'))) = dom (scheduled (sc_state (w_sched w))) ∖ {[q]} -> tokens_ok w'.
Proof.
  intros [Hnd Ht] Hp Hd. rewrite Hp in Hnd. apply NoDup_cons in Hnd as [Hq Hnd]. split; [done|].
  intros i. rewrite Hd, elem_of_difference, <-Ht, Hp, elem_of_cons, elem_of_singleton.
  split; [|naive_solver]. intros Hi. split; [by right|]. by intros ->.
Qed.

Lemma tokens_ok_schedule q sc pass :
  tokens_ok (mkWorld sc pass) -> tokens_ok (mkWorld (schedule_queue q sc) pass).
Proof.
  intros Hok. unfold schedule_queue. destruct (scheduled (sc_state sc) !! q) as [schedule|] eqn:Eq.
  - apply (tokens_ok_same (mkWorld sc pass)); [done|done|]. simpl.
    rewrite dom_insert_lookup_L; [done|by eexists].
  - apply (tokens_ok_add (mkWorld sc pass) _ q); [done|by apply not_elem_of_dom| |].
    + unfold tokens. simpl. by rewrite <-!app_assoc, Permutation_middle.
    + simpl. by rewrite dom_insert_L.
Qed.

Lemma push_idle_scheduled q st : scheduled (push_idle q st) = scheduled st.
Proof. unfold push_idle. by case_decide. Qed.

Lemma tokens_ok_finish q outcome sc pass1 pass2 :
  tokens_ok (mkWorld sc (pass1 ++ q :: pass2)) ->
  tokens_ok (mkWorld (finish_pass q outcome sc) (pass1 ++ pass2)).
Proof.
  intros Hok.
  assert (Hq : q ∈ dom (scheduled (sc_state sc))).
  { apply (tk_scheduled _ Hok). unfold tokens. simpl. set_solver. }
  apply elem_of_dom in Hq as [schedule Hq].
  assert (Hresend : tokens_ok (mkWorld (send q (with_state (set_scheduled
    (<[q := mkQueueSchedule false 0]> (scheduled (sc_state sc))) (sc_state sc)) sc)) (pass1 ++ pass2))).
  { apply (tokens_ok_same _ _ Hok).
    - unfold tokens. simpl. rewrite <-!app_assoc. simpl. by rewrite <-!Permutation_middle.
    - simpl. rewrite dom_insert_lookup_L; [done|by eexists]. }
  unfold finish_pass. rewrite Hq. destruct outcome; [done| | |].
  1,2: destruct (rerun schedule); [done|]; apply (tokens_ok_remove _ _ q Hok);
    [unfold tokens; simpl; rewrite <-!app_assoc; simpl; by rewrite <-!Permutation_middle
    |simpl; rewrite push_idle_scheduled; simpl; by rewrite dom_delete_L].
  apply (tokens_ok_same _ _ Hok).
  - unfold tokens. simpl. rewrite fmap_app, <-!app_assoc. simpl.
    rewrite (Permutation_app_comm _ [q]). simpl. by rewrite <-!Permutation_middle.
  - simpl. rewrite dom_insert_lookup_L; [done|by eexists].
Qed.

Lemma remove_dups_perm (l : list string) : NoDup l -> remove_dups l ≡ₚ l.
Proof.
  intros Hnd. apply NoDup_Permutation; [apply NoDup_remove_dups|done|].
  intros q. apply elem_of_remove_dups.
Qed.

Lemma tokens_ok_foldl qs sc pass :
  tokens_ok (mkWorld sc pass) ->
  tokens_ok (mkWorld (foldl (fun sc queue => schedule_queue queue sc) sc qs) pass).
Proof.
  revert sc. induction qs as [|q qs IH]; intros sc Hok; simpl; [done|].
  apply IH. by apply tokens_ok_schedule.
Qed.

Lemma pop_idle_scheduled n l st : scheduled (pop_idle n l st).2 = scheduled st.
Proof.
  revert n st. induction l as [|q l IH]; intros [|n] st; simpl; try done.
  destruct (scheduled st !! q); simpl; by rewrite IH.
Qed.

Lemma foldl_push_scheduled names st : scheduled (foldl (fun st name => push_idle name st) st names) = scheduled st.
Proof.
  revert st. induction names as [|q names IH]; intros st; simpl; [done|].
  by rewrite IH, push_idle_scheduled.
Qed.

Lemma sched_step_tokens n w w' : sched_step n w w' -> tokens_ok w -> tokens_ok w'.
Proof.
  intros Hstep Hok. destruct Hstep as [q [sc pass]|taken rest sc Hne Htx|q outcome sc p1 p2
    |q delay st tx s1 s2 pass|[sc pass]|names [sc pass]]; simpl.
  - by apply tokens_ok_schedule.
  - apply (tokens_ok_same _ _ Hok); [|done]. unfold tokens. simpl. rewrite Htx.
    assert (Hnd : NoDup taken).
    { pose proof (tk_NoDup _ Hok) as Hnd. unfold tokens in Hnd. simpl in Hnd. rewrite Htx in Hnd.
      rewrite <-app_assoc in Hnd. by apply NoDup_app in Hnd as [? _]. }
    rewrite remove_dups_perm by done. rewrite <-app_assoc. by rewrite Permutation_app_swap_app.
  - by apply tokens_ok_finish.
  - unfold resume_retry. simpl.
    assert (Hq : q ∈ dom (scheduled st)).
    { apply (tk_scheduled _ Hok). unfold tokens. simpl. rewrite fmap_app. simpl. set_solver. }
    apply elem_of_dom in Hq as [schedule ->]. apply (tokens_ok_same _ _ Hok); [|done].
    unfold tokens. simpl. rewrite !fmap_app. simpl. rewrite <-!app_assoc. simpl.
    by rewrite <-!Permutation_middle.
  - unfold probe_idle_queues. destruct (pop_idle _ _ _) as [queues st] eqn:Ep.
    apply tokens_ok_foldl. apply (tokens_ok_same _ _ Hok); [done|]. simpl.
    by rewrite <-(pop_idle_scheduled n (idle (sc_state sc)) (sc_state sc)), Ep.
  - apply (tokens_ok_same _ _ Hok); [done|]. simpl. by rewrite foldl_push_scheduled.
Qed.

Lemma sched_run_tokens n w w' : sched_run n w w' -> tokens_ok w -> tokens_ok w'.
Proof. induction 1 as [|w w1 w2 Hstep _ IH]; [done|]. intros Hok. apply IH. by eapply sched_step_tokens. Qed.

Lemma initial_tokens_ok : tokens_ok initial_world.
Proof. split; [constructor|]. intros q. set_solver. Qed.

(** ** Known queues *)

(** The queues the scheduler keeps track of. *)
Definition tracked (st : SchedulerState) : gset string := dom (scheduled st) ∪ idle_set st.

(** Every queue in the idle set is in the idle list, where a probe will find it. *)
Definition idle_ok (st : SchedulerState) : Prop := forall q, q ∈ idle_set st -> q ∈ idle st.

Definition keeps_tracking (st st' : SchedulerState) : Prop := idle_ok st' /\ tracked st ⊆ tracked st'.

Lemma keeps_tracking_refl st : idle_ok st -> keeps_tracking st st.
Proof. by split. Qed.

Lemma keeps_tracking_trans st1 st2 st3 :
  keeps_tracking st1 st2 -> keeps_tracking st2 st3 -> keeps_tracking st1 st3.
Proof. intros [? ?] [? ?]. split; [done|]. set_solver. Qed.

Lemma schedule_queue_tracking q sc :
  idle_ok (sc_state sc) -> keeps_tracking (sc_state sc) (sc_state (schedule_queue q sc)).
Proof.
  intros Hok. unfold schedule_queue. destruct (_ !! q) as [schedule|] eqn:Eq; split; simpl.
  - done.
  - unfold tracked. simpl. rewrite dom_insert_L. set_solver.
  - intros i. set_solver.
  - unfold tracked. simpl. rewrite dom_insert_L. intros i Hi.
    destruct (decide (i = q)); set_solver.
Qed.

Lemma schedule_queue_scheduled q sc : q ∈ dom (scheduled (sc_state (schedule_queue q sc))).
Proof. unfold schedule_queue. destruct (_ !! q); simpl; rewrite dom_insert_L; set_solver. Qed.

Lemma push_idle_tracking q st : idle_ok st -> keeps_tracking st (push_idle q st).
Proof.
  intros Hok. unfold push_idle. case_decide; [by apply keeps_tracking_refl|]. split; simpl.
  - intros i. simpl. intros [->%elem_of_singleton|Hi]%elem_of_union; apply elem_of_app; [right; by left|left; auto].
  - unfold tracked. simpl. set_solver.
Qed.

Lemma push_idle_tracked q st : q ∈ tracked (push_idle q st).
Proof. unfold push_idle, tracked. case_decide; simpl; set_solver. Qed.

Lemma finish_pass_tracking q outcome sc :
  idle_ok (sc_state sc) -> keeps_tracking (sc_state sc) (sc_state (finish_pass q outcome sc)).
Proof.
  intros Hok. unfold finish_pass. destruct (_ !! q) as [schedule|] eqn:Eq; [|by apply keeps_tracking_refl].
  assert (Hq : q ∈ dom (scheduled (sc_state sc))) by (by apply elem_of_dom_2 in Eq).
  assert (Hins : forall s, keeps_tracking (sc_state sc)
    (set_scheduled (<[q := s]> (scheduled (sc_state sc))) (sc_state sc))).
  { intros s. split; [done|]. unfold tracked. simpl. rewrite dom_insert_L. set_solver. }
  assert (Hidle : keeps_tracking (sc_state sc)
    (push_idle q (set_scheduled (delete q (scheduled (sc_state sc))) (sc_state sc)))).
  { destruct (push_idle_tracking q (set_scheduled (delete q (scheduled (sc_state sc))) (sc_state sc)))
      as [Ho Ht]; [done|]. split; [done|]. intros i Hi. destruct (decide (i = q)) as [->|Hne].
    - apply push_idle_tracked.
    - apply Ht. unfold tracked in *. simpl. rewrite dom_delete_L. set_solver. }
  destruct outcome; [by apply Hins| | |by apply Hins]; (destruct (rerun schedule); [by apply Hins|done]).
Qed.

Lemma resume_retry_state q sc : sc_state (resume_retry q sc) = sc_state sc.
Proof. unfold resume_retry. by destruct (_ !! q). Qed.

Lemma foldl_schedule_tracking qs sc :
  idle_ok (sc_state sc) ->
  let sc' := foldl (fun sc queue => schedule_queue queue sc) sc qs in
  keeps_tracking (sc_state sc) (sc_state sc') /\ list_to_set qs ⊆ dom (scheduled (sc_state sc')) ∪ idle_set (sc_state sc').
Proof.
  revert sc. induction qs as [|q qs IH]; intros sc Hok; simpl; [split; [by apply keeps_tracking_refl|set_solver]|].
  pose proof (schedule_queue_tracking q sc Hok) as Hq. destruct (IH (schedule_queue q sc)) as [Ht Hs]; [apply Hq|].
  split; [by eapply keeps_tracking_trans|]. intros i [->%elem_of_singleton|Hi]%elem_of_union; [|by apply Hs].
  apply Ht. apply elem_of_union. left. apply schedule_queue_scheduled.
Qed.

(** What popping leaves: the popped queues that are not scheduled are handed back. *)
Lemma pop_idle_tracking n l st :
  (forall q, q ∈ idle_set st -> q ∈ l) ->
  let out := pop_idle n l st in
  idle_ok out.2 /\ tracked st ⊆ tracked out.2 ∪ list_to_set out.1.
Proof.
  revert n st. induction l as [|q l IH]; intros [|n] st Hl; simpl.
  - split; [done|]. unfold tracked. simpl. set_solver.
  - split; [done|]. unfold tracked. simpl. set_solver.
  - split; [done|]. unfold tracked. simpl. set_solver.
  - set (st1 := mkSchedulerState (scheduled st) l (idle_set st ∖ {[q]})).
    assert (Hl1 : forall i, i ∈ idle_set st1 -> i ∈ l).
    { intros i. simpl. intros [Hi Hne]%elem_of_difference. apply Hl, elem_of_cons in Hi. set_solver. }
    destruct (scheduled st !! q) as [s|] eqn:Eq.
    + destruct (IH (S n) st1 Hl1) as [Ho Ht]. split; [done|]. intros i Hi. apply Ht.
      apply elem_of_dom_2 in Eq. clear Ht Ho IH. unfold tracked in *. simpl.
      destruct (decide (i = q)); set_solver.
    + destruct (IH n st1 Hl1) as [Ho Ht]. split; [done|]. intros i Hi. simpl.
      destruct (decide (i = q)) as [->|Hne]; [set_solver +|].
      assert (Hi1 : i ∈ tracked (pop_idle n l st1).2 ∪ list_to_set (pop_idle n l st1).1).
      { apply Ht. clear Ht Ho IH. unfold tracked in *. simpl. set_solver. }
      apply elem_of_union in Hi1 as [Hi1|Hi1]; [set_solver +Hi1|set_solver +Hi1].
Qed.

Lemma probe_tracking n sc :
  idle_ok (sc_state sc) -> keeps_tracking (sc_state sc) (sc_state (probe_idle_queues n sc)).
Proof.
  intros Hok. unfold probe_idle_queues. destruct (pop_idle_tracking n (idle (sc_state sc)) (sc_state sc) Hok) as [Ho Ht].
  destruct (pop_idle _ _ _) as [queues st]. simpl in *.
  destruct (foldl_schedule_tracking queues (with_state st sc) Ho) as [[Ho' Ht'] Hs]. simpl in Ht'.
  split; [done|]. intros i [Hi|Hi]%Ht%elem_of_union; [by apply Ht'|by apply Hs].
Qed.

Lemma seed_tracking names sc :
  idle_ok (sc_state sc) ->
  keeps_tracking (sc_state sc) (sc_state (seed_idle_queues names sc)) /\
  list_to_set names ⊆ tracked (sc_state (seed_idle_queues names sc)).
Proof.
  unfold seed_idle_queues. simpl. generalize (sc_state sc) as st. clear sc.
  induction names as [|q names IH]; intros st Hok; simpl; [split; [by apply keeps_tracking_refl|set_solver]|].
  pose proof (push_idle_tracking q st Hok) as Hq. destruct (IH (push_idle q st)) as [Ht Hs]; [apply Hq|].
  split; [by eapply keeps_tracking_trans|]. intros i [->%elem_of_singleton|Hi]%elem_of_union; [|by apply Hs].
  apply Ht, push_idle_tracked.
Qed.

Lemma sched_step_tracking n w w' :
  sched_step n w w' -> idle_ok (sc_state (w_sched w)) ->
  keeps_tracking (sc_state (w_sched w)) (sc_state (w_sched w')).
Proof.
  intros Hstep Hok. destruct Hstep as [q w|taken rest sc Hne Htx|q outcome sc p1 p2
    |q delay st tx s1 s2 pass|w|names w]; simpl in *.
  - by apply schedule_queue_tracking.
  - by apply keeps_tracking_refl.
  - by apply finish_pass_tracking.
  - rewrite resume_retry_state. by apply keeps_tracking_refl.
  - by apply probe_tracking.
  - by apply seed_tracking.
Qed.

Lemma sched_run_tracking n w w' :
  sched_run n w w' -> idle_ok (sc_state (w_sched w)) ->
  keeps_tracking (sc_state (w_sched w)) (sc_state (w_sched w')).
Proof.
  induction 1 as [|w w1 w2 Hstep _ IH]; intros Hok; [by apply keeps_tracking_refl|].
  pose proof (sched_step_tracking _ _ _ Hstep Hok) as H1. eapply keeps_tracking_trans; [exact H1|].
  apply IH, H1.
Qed.

(** ** Wakeups *)

(** Queue [q] is to run again: it has a turn, and if that turn is the current pass the pass ends
    with another one. *)
Definition will_rerun (q : string) (st : SchedulerState) : Prop :=
  exists schedule, scheduled st !! q = Some schedule /\ rerun schedule = true.

Lemma schedule_queue_will_rerun q q' sc :
  will_rerun q (sc_state sc) -> will_rerun q (sc_state (schedule_queue q' sc)).
Proof.
  intros (s & Hs & Hr). unfold schedule_queue. destruct (decide (q' = q)) as [->|Hne].
  - rewrite Hs. simpl. eexists. simpl. by rewrite lookup_insert_eq.
  - destruct (_ !! q') as [s'|]; simpl; exists s; simpl; by rewrite lookup_insert_ne.
Qed.

Lemma finish_pass_other q q' outcome sc :
  q' <> q -> scheduled (sc_state (finish_pass q' outcome sc)) !! q = scheduled (sc_state sc) !! q.
Proof.
  intros Hne. unfold finish_pass. destruct (_ !! q') as [s|]; [|done].
  destruct outcome; [| | |]; try destruct (rerun s); simpl; rewrite ?push_idle_scheduled; simpl;
    by rewrite ?lookup_insert_ne, ?lookup_delete_ne by done.
Qed.

Lemma will_rerun_scheduled q st st' :
  scheduled st' !! q = scheduled st !! q -> will_rerun q st -> will_rerun q st'.
Proof. unfold will_rerun. by intros ->. Qed.

Lemma foldl_schedule_will_rerun q qs sc :
  will_rerun q (sc_state sc) -> will_rerun q (sc_state (foldl (fun sc queue => schedule_queue queue sc) sc qs)).
Proof.
  revert sc. induction qs as [|q' qs IH]; intros sc Hw; simpl; [done|].
  apply IH. by apply schedule_queue_will_rerun.
Qed.

(** A step that does not finish [q]. *)
Definition not_finishing (q : string) (w w' : world) : Prop := q ∈ w_pass w -> q ∈ w_pass w'.

Lemma sched_step_will_rerun n q w w' :
  sched_step n w w' -> tokens_ok w -> not_finishing q w w' ->
  q ∈ w_pass w -> will_rerun q (sc_state (w_sched w)) -> will_rerun q (sc_state (w_sched w')).
Proof.
  intros Hstep Hok Hnf Hq Hw. destruct Hstep as [q' w|taken rest sc Hne Htx|q' outcome sc p1 p2
    |q' delay st tx s1 s2 pass|w|names w]; simpl in *.
  - by apply schedule_queue_will_rerun.
  - done.
  - eapply will_rerun_scheduled; [|done]. apply finish_pass_other. intros ->.
    specialize (Hnf Hq). simpl in Hnf. pose proof (tk_NoDup _ Hok) as Hnd. unfold tokens in Hnd. simpl in Hnd.
    apply NoDup_app in Hnd as (_ & _ & Hnd). apply NoDup_app in Hnd as (Hnd & _).
    rewrite <-Permutation_middle in Hnd. by apply NoDup_cons in Hnd as [? _].
  - by rewrite resume_retry_state.
  - unfold probe_idle_queues. destruct (pop_idle _ _ _) as [queues st] eqn:Ep.
    apply foldl_schedule_will_rerun. eapply will_rerun_scheduled; [|exact Hw]. simpl.
    by rewrite <-(pop_idle_scheduled n (idle (sc_state (w_sched w))) (sc_state (w_sched w))), Ep.
  - eapply will_rerun_scheduled; [|exact Hw]. simpl. by rewrite foldl_push_scheduled.
Qed.

(** ** Properties *)

(** C30. However the tasks interleave, each scheduled queue has exactly one turn, on the channel, in
    the pass, or with a sleeping task: a queue is never worked on twice at a time, and a scheduled
    queue never loses its turn. *)
Theorem scheduled_queues_have_one_turn n w :
  sched_run n initial_world w ->
  NoDup (tokens w) /\ forall q, q ∈ tokens w <-> q ∈ dom (scheduled (sc_state (w_sched w))).
Proof. intros Hrun. destruct (sched_run_tokens _ _ _ Hrun initial_tokens_ok). done. Qed.

(** Two tasks schedule a queue, the scheduler task starts a pass. *)
Definition example_world : world :=
  mkWorld (mkScheduler (mkSchedulerState {["email" := mkQueueSchedule true 0]} [] ∅) [] []) ["email"%string].

Lemma example_world_run : sched_run 64 initial_world example_world.
Proof.
  eapply rtc_l; [apply (ss_schedule 64 "email")|]. eapply rtc_l; [apply (ss_schedule 64 "email")|].
  eapply rtc_l; [apply (ss_receive 64 ["email"%string] []); done|]. apply rtc_refl.
Qed.

Lemma scheduled_queues_have_one_turn_witness :
  sched_run 64 initial_world example_world /\ NoDup (tokens example_world).
Proof.
  split; [exact example_world_run|].
  exact (proj1 (scheduled_queues_have_one_turn 64 example_world example_world_run)).
Defined.

(** C31. No queue is forgotten: once the scheduler tracks a queue, because it was scheduled or seeded,
    it tracks it for ever, with a turn or in the list the idle probe works through. *)
Theorem no_queue_is_forgotten n w w' q :
  sched_run n initial_world w -> sched_run n w w' -> q ∈ tracked (sc_state (w_sched w)) ->
  q ∈ tokens w' \/ q ∈ idle (sc_state (w_sched w')).
Proof.
  intros Hrun Hrun' Hq.
  destruct (sched_run_tracking _ _ _ Hrun) as [Hok _]; [by intros i Hi%elem_of_empty|].
  destruct (sched_run_tracking _ _ _ Hrun' Hok) as [Hok' Ht].
  apply Ht, elem_of_union in Hq as [Hq|Hq]; [left|right; by apply Hok'].
  apply (tk_scheduled w'); [|done]. eapply sched_run_tokens; [|exact initial_tokens_ok].
  by etrans.
Qed.

Definition example_finished : world :=
  mkWorld (finish_pass "email" Retry (w_sched example_world)) [].

Lemma no_queue_is_forgotten_witness :
  "email"%string ∈ tokens example_finished \/ "email"%string ∈ idle (sc_state (w_sched example_finished)).
Proof.
  apply (no_queue_is_forgotten 64 example_world); [exact example_world_run| |set_solver].
  apply rtc_once. exact (ss_finish 64 "email" Retry (w_sched example_world) [] []).
Defined.

(** No wakeup is lost: when a queue is scheduled while its pass is running, then whatever else
    happens before the pass ends, and however it ends, the queue has another turn afterwards. *)
Theorem wakeup_is_not_lost n q w w' pass1 pass2 outcome :
  sched_run n initial_world w -> q ∈ w_pass w ->
  rtc (fun w w' => sched_step n w w' /\ not_finishing q w w')
    (mkWorld (schedule_queue q (w_sched w)) (w_pass w)) w' ->
  w_pass w' = pass1 ++ q :: pass2 ->
  q ∈ tokens (mkWorld (finish_pass q outcome (w_sched w')) (pass1 ++ pass2)).
Proof.
  intros Hrun Hq Hsteps Hpass.
  pose proof (sched_run_tokens _ _ _ Hrun initial_tokens_ok) as Hok.
  assert (Hok1 : tokens_ok (mkWorld (schedule_queue q (w_sched w)) (w_pass w)))
    by (apply tokens_ok_schedule; by destruct w).
  assert (Hw1 : will_rerun q (sc_state (schedule_queue q (w_sched w)))).
  { assert (Hd : q ∈ dom (scheduled (sc_state (w_sched w)))).
    { apply (tk_scheduled _ Hok). unfold tokens. set_solver. }
    apply elem_of_dom in Hd as [s Hs]. unfold schedule_queue. rewrite Hs. simpl.
    eexists. simpl. by rewrite lookup_insert_eq. }
  assert (H : tokens_ok w' /\ will_rerun q (sc_state (w_sched w'))).
  { revert Hok1 Hw1. set (w1 := mkWorld _ _) in *. assert (Hq1 : q ∈ w_pass w1) by done.
    change (schedule_queue q (w_sched w)) with (w_sched w1). clearbody w1. clear Hok Hq Hrun.
    induction Hsteps as [|w1 w2 w3 [Hstep Hnf] _ IH]; [done|]. intros Hok1 Hw1.
    apply IH; [done|by apply Hnf|by eapply sched_step_tokens|by eapply sched_step_will_rerun]. }
  destruct H as [Hok' (s & Hs & Hr)]. destruct w' as [sc' pass']. simpl in *. subst pass'.
  apply (tk_scheduled _ (tokens_ok_finish q outcome sc' pass1 pass2 Hok')). simpl.
  unfold finish_pass. rewrite Hs, Hr. destruct outcome; simpl; rewrite dom_insert_L; set_solver.
Qed.

Lemma wakeup_is_not_lost_witness :
  "email"%string ∈ tokens (mkWorld (finish_pass "email" Idle (schedule_queue "email" (w_sched example_world))) []).
Proof.
  apply (wakeup_is_not_lost 64 "email" example_world
    (mkWorld (schedule_queue "email" (w_sched example_world)) (w_pass example_world)) [] [] Idle).
  - exact example_world_run.
  - left.
  - apply rtc_refl.
  - reflexivity.
Defined.

(** A pass that could not be served is retried after 20, 40, 80, ... milliseconds, and never
    after more than a second: the [n]-th retry in a row waits [min(1000, 10 * 2^min(n, 7))]. *)
Theorem retry_backs_off q st tx sleeping rerun_ n :
  scheduled st !! q = Some (mkQueueSchedule rerun_ n) -> 0 <= n <= 7 ->
  let sc' := finish_pass q Retry (mkScheduler st tx sleeping) in
  let n' := Z.min 7 (n + 1) in
  scheduled (sc_state sc') !! q = Some (mkQueueSchedule false n') /\
  sc_sleeping sc' = sleeping ++ [(q, Z.min 1000 (10 * 2 ^ n'))] /\
  20 <= Z.min 1000 (10 * 2 ^ n') <= 1000 /\ sc_tx sc' = tx.
Proof.
  intros Hs Hn. unfold finish_pass. simpl. rewrite Hs. simpl.
  assert (Hcount : next_retry_count n = Z.min 7 (n + 1)).
  { unfold next_retry_count, u8_saturating_add, u8_max. lia. }
  rewrite Hcount. set (n' := Z.min 7 (n + 1)).
  assert (Hdelay : retry_delay n' = Z.min 1000 (10 * 2 ^ n') /\ 20 <= Z.min 1000 (10 * 2 ^ n')).
  { assert (n' = 1 \/ n' = 2 \/ n' = 3 \/ n' = 4 \/ n' = 5 \/ n' = 6 \/ n' = 7) as Hc by lia.
    repeat destruct Hc as [->|Hc]; [done..|]. by rewrite Hc. }
  destruct Hdelay as [-> Hlow]. rewrite lookup_insert_eq. split_and!; [done|done|done|lia|done].
Qed.

Lemma retry_backs_off_witness :
  sc_sleeping (finish_pass "email" Retry
    (mkScheduler (mkSchedulerState {["email" := mkQueueSchedule false 6]} [] ∅) [] [])) = [("email"%string, 1000)].
Proof.
  refine (proj1 (proj2 (retry_backs_off "email" (mkSchedulerState {["email" := mkQueueSchedule false 6]} [] ∅)
    [] [] false 6 _ _))); [vm_compute; reflexivity|lia].
Defined.

(** A queue is scheduled and its pass finds no job. *)
Definition idle_cycle (q : string) (sc : scheduler) : scheduler := finish_pass q Idle (schedule_queue q sc).

(** The idle list only shrinks at the probe: scheduling an idle queue takes it out of the idle
    set but leaves its entry in the list, so each pass that finds no job adds another. After [n]
    such passes of one queue the list holds [n] entries for the one queue of the set. *)
Theorem idle_list_grows q sc n :
  scheduled (sc_state sc) !! q = None ->
  let st := sc_state (Nat.iter n (idle_cycle q) sc) in
  idle st = idle (sc_state sc) ++ replicate n q /\ idle_set st ⊆ {[q]} ∪ idle_set (sc_state sc) /\
  scheduled st = scheduled (sc_state sc).
Proof.
  intros Hq. induction n as [|n IH]; simpl; [by rewrite app_nil_r; split_and!; [|set_solver|]|].
  destruct IH as (Hi & Hs & Hd). set (sc1 := Nat.iter n (idle_cycle q) sc) in *.
  assert (Hq1 : scheduled (sc_state sc1) !! q = None) by by rewrite Hd.
  unfold idle_cycle, schedule_queue. rewrite Hq1. unfold finish_pass. simpl.
  rewrite lookup_insert_eq. simpl. unfold push_idle. simpl. rewrite decide_False by set_solver. simpl.
  split_and!.
  - rewrite Hi, <-app_assoc. f_equal. by rewrite <-replicate_cons_app.
  - set_solver.
  - rewrite delete_insert_eq, Hd. by apply delete_id.
Qed.

Lemma idle_list_grows_witness :
  idle (sc_state (Nat.iter 3 (idle_cycle "email") empty_scheduler)) = ["email"%string; "email"%string; "email"%string].
Proof.
  exact (proj1 (idle_list_grows "email" empty_scheduler 3 eq_refl)).
Defined.
