(* ===== verification/Interfaces.v ===== *)
(** * The engine's interfaces

    [crates/engine/src/lib.rs]: the traits [DurableStore] and [WorkerDispatcher] the engine is
    generic over, as classes, and what the engine relies on, as laws. [Store] and [Registry]
    implement them. *)
From S2P Require Import Prelude Types Db.

Inductive DispatchError : Type :=
| NoCapacity
| DispatchInternal (message : string).

Record QueueReservation := mkQueueReservation { qres_queue_name : string; qres_count : nat }.

(** [ReservedDispatch]; [P] is what the dispatcher's permits hold *)
Record ReservedDispatch (P : Type) := mkReservedDispatch { rd_queue_name : string; rd_permit : P }.
Arguments mkReservedDispatch {P}.
Arguments rd_queue_name {P}.
Arguments rd_permit {P}.

(** [trait DurableStore], the operations the engine calls *)
Class DurableStore (S : Type) := {
  ds_list_queues : M S (list JobQueue);
  ds_enqueue : AcceptedJob -> M S AcceptedJob;
  ds_get_job : Z -> M S Job;
  ds_claim_batch : string -> Z -> M S (list Job);
  ds_complete_worker_result : Z -> string -> JobOutcome -> M S bool;
  ds_release_claim : Z -> string -> M S bool;
  ds_recover_stale_leases : Z -> M S (list Job)
}.

(** A claim hands out at most as many jobs as asked for, all of the queue and with a dispatch id. *)
Class DurableStoreLaws (S : Type) `{!DurableStore S} : Prop := {
  ds_claim_bound : forall q limit c jobs c', 1 <= limit ->
    ds_claim_batch q limit c = (Ok jobs, c') ->
    Z.of_nat (length jobs) <= limit /\
    Forall (fun job => job_name job = q /\ is_Some (job_dispatch_id job)) jobs
}.

(** [trait WorkerDispatcher] *)
Class WorkerDispatcher (D P : Type) := {
  wd_reserve : list QueueReservation -> D -> result DispatchError (list (ReservedDispatch P)) * D;
  wd_dispatch : ReservedDispatch P -> Job -> D -> result DispatchError unit * D;
  wd_release : ReservedDispatch P -> D -> D
}.

(** How often [p] occurs in [l]. *)
Definition count {P} `{EqDecision P} (p : P) (l : list P) : nat := length (filter (fun x => x = p) l).

(** A dispatcher counts the slots its permits hold: reserving adds one for each permit, all of the
    queues asked for, and releasing a permit or dispatching with it gives its slot back. *)
Class WorkerDispatcherLaws (D P : Type) `{!EqDecision P} `{!WorkerDispatcher D P} := {
  wd_outstanding : D -> P -> nat;
  wd_ok : D -> Prop;
  wd_reserve_ok : forall reqs d rs d', wd_ok d -> wd_reserve reqs d = (Ok rs, d') ->
    wd_ok d' /\
    (forall p, wd_outstanding d' p = (wd_outstanding d p + count p (rd_permit <$> rs))%nat) /\
    Forall (fun r => rd_queue_name r ∈ qres_queue_name <$> reqs) rs;
  wd_reserve_err : forall reqs d e d', wd_ok d -> wd_reserve reqs d = (Err e, d') ->
    wd_ok d' /\ forall p, wd_outstanding d' p = wd_outstanding d p;
  wd_release_ok : forall r d, wd_ok d ->
    wd_ok (wd_release r d) /\
    forall p, wd_outstanding (wd_release r d) p =
      (wd_outstanding d p - if decide (rd_permit r = p) then 1 else 0)%nat;
  wd_dispatch_ok : forall r job d, wd_ok d -> is_Some (job_dispatch_id job) ->
    wd_ok (wd_dispatch r job d).2 /\
    forall p, wd_outstanding (wd_dispatch r job d).2 p =
      (wd_outstanding d p - if decide (rd_permit r = p) then 1 else 0)%nat
}.

(** ** Default methods of [DurableStore] *)

Section defaults.
Context {S : Type} (claim_next : string -> M S (option Job)).
Context (complete : Z -> string -> JobOutcome -> M S (option Job)).

(** The loop [for _ in 0..limit.min(MAX_CLAIM_BATCH_SIZE)] of the default [claim_batch] *)
Fixpoint default_claim_batch (limit : nat) (queue_name : string) : M S (list Job) :=
  match limit with
  | O => mret []
  | Datatypes.S limit =>
      next ← claim_next queue_name;
      match next with
      | None => mret []
      | Some job => jobs ← default_claim_batch limit queue_name; mret (job :: jobs)
      end
  end.

Definition default_complete_worker_result (job_id : Z) (dispatch_id : string) (outcome : JobOutcome) : M S bool :=
  job ← complete job_id dispatch_id outcome;
  mret (match job with Some job => bool_decide (job_status job = Pending) | None => false end).
End defaults.

Section count.
Context {P : Type} `{EqDecision P}.

Lemma count_nil (p : P) : count p [] = 0%nat.
Proof. done. Qed.

Lemma count_cons (p x : P) l : count p (x :: l) = ((if decide (x = p) then 1 else 0) + count p l)%nat.
Proof. unfold count. rewrite filter_cons. by case_decide. Qed.

Lemma count_app (p : P) l1 l2 : count p (l1 ++ l2) = (count p l1 + count p l2)%nat.
Proof. unfold count. by rewrite filter_app, length_app. Qed.
End count.
