(* ===== verification/Tasks.v ===== *)
(** * Tasks

    An [async] block as a resumption: it either is finished or waits for its next critical section,
    a computation of [M] on the shared state, and goes on with the answer. Between two of them other
    tasks go on; [run] is the task when none does. [EngineSteps] interleaves the tasks of the engine. *)
From stdpp Require Import relations.
From S2P Require Import Prelude Types Db.

Inductive task (S A : Type) : Type :=
| Returned (r : Result A)
| Await {B : Type} (m : M S B) (k : Result B -> task S A).
Arguments Returned {S A} r.
Arguments Await {S A B} m k.

#[export] Instance task_ret {S} : MRet (task S) := fun A a => Returned (Ok a).
#[export] Instance task_bind {S} : MBind (task S) := fun A B f =>
  fix bind (p : task S A) : task S B :=
    match p with
    | Returned (Ok a) => f a
    | Returned (Err e) => Returned (Err e)
    | Await m k => Await m (fun r => bind (k r))
    end.

(** One critical section *)
Definition atomic {S A} (m : M S A) : task S A := Await m Returned.

Definition panic {S A} (message : string) : task S A := Returned (Err (Internal ("panic: " +:+ message))).

Fixpoint tattempt {S A} (p : task S A) : task S (Result A) :=
  match p with
  | Returned r => Returned (Ok r)
  | Await m k => Await m (fun r => tattempt (k r))
  end.

(** A [for] loop, and one that updates a value *)
Fixpoint tfor_each {S A B} (f : A -> task S B) (l : list A) : task S unit :=
  match l with
  | [] => mret tt
  | x :: l => _ ← f x; tfor_each f l
  end.
Fixpoint tthread {S A B} (f : B -> A -> task S A) (l : list B) (a : A) : task S A :=
  match l with
  | [] => mret a
  | x :: l => a' ← f x a; tthread f l a'
  end.

(** The task without company *)
Fixpoint run {S A} (p : task S A) : M S A :=
  match p with
  | Returned r => lift_result r
  | Await m k => fun c => let '(r, c') := m c in run (k r) c'
  end.

Definition working {S A} (p : task S A) : bool := match p with Returned _ => false | Await _ _ => true end.

(** The task goes on. *)
Definition advance {S A} (p : task S A) (c : conn S) : option (task S A * conn S) :=
  match p with
  | Returned _ => None
  | Await m k => let '(r, c') := m c in Some (k r, c')
  end.

(** A task that has not returned can always go on. *)
Lemma working_advances {S A} (p : task S A) c : working p = true -> is_Some (advance p c).
Proof. destruct p as [r|B m k]; [done|]. intros _. simpl. destruct (m c). by eexists. Qed.

(** ** A task that runs alone *)

Section run.
Context {S : Type}.
Implicit Types (c : conn S).

Lemma wp_run_ret {A} (a : A) (Q : Result A -> conn S -> Prop) c : Q (Ok a) c -> wp (run (mret a)) Q c.
Proof. done. Qed.

Lemma wp_run_returned {A} (r : Result A) (Q : Result A -> conn S -> Prop) c : Q r c -> wp (run (Returned r)) Q c.
Proof. done. Qed.

Lemma wp_run_await {A B} (m : M S B) (k : Result B -> task S A) (Q : Result A -> conn S -> Prop) c :
  wp m (fun r c' => wp (run (k r)) Q c') c -> wp (run (Await m k)) Q c.
Proof. unfold wp. simpl. by destruct (m c). Qed.

Lemma wp_run_atomic {A} (m : M S A) (Q : Result A -> conn S -> Prop) c : wp m Q c -> wp (run (atomic m)) Q c.
Proof. intros Hm. by apply wp_run_await. Qed.

Lemma wp_run_bind {A B} (p : task S A) (f : A -> task S B) (Q : Result B -> conn S -> Prop) c :
  wp (run p) (fun r c' => match r with Ok a => wp (run (f a)) Q c' | Err e => Q (Err e) c' end) c ->
  wp (run (p ≫= f)) Q c.
Proof.
  revert c. induction p as [[a|e]|B' m k IH]; intros c Hp; [exact Hp|exact Hp|].
  unfold wp in *. change (run (Await m k ≫= f) c) with (let '(r, c') := m c in run (k r ≫= f) c').
  simpl in Hp. destruct (m c) as [r c']. by apply IH.
Qed.

Lemma wp_run_attempt {A} (p : task S A) (Q : Result (Result A) -> conn S -> Prop) c :
  wp (run p) (fun r c' => Q (Ok r) c') c -> wp (run (tattempt p)) Q c.
Proof.
  revert c. induction p as [r|B' m k IH]; intros c Hp; [done|].
  unfold wp in *. simpl in *. destruct (m c) as [r c']. by apply IH.
Qed.

(** A task comes to its end in finitely many of its own steps: alone, its steps are its run. *)
Lemma run_steps {A} (p : task S A) c : exists r,
  rtc (fun x y => advance x.1 x.2 = Some y) (p, c) (Returned r, (run p c).2) /\ (run p c).1 = r.
Proof.
  revert c. induction p as [r|B m k IH]; intros c; [exists r; split; [apply rtc_refl|done]|].
  simpl. destruct (m c) as [r c'] eqn:Em. destruct (IH r c') as (r' & Hs & Hr). exists r'. split; [|done].
  eapply rtc_l; [|exact Hs]. simpl. by rewrite Em.
Qed.
End run.

(** One rule of the logic for a task that runs alone *)
Ltac run_rule :=
  lazymatch goal with
  | |- wp (run (mret _)) _ _ => apply wp_run_ret
  | |- wp (run (_ ≫= _)) _ _ => apply wp_run_bind
  | |- wp (run (tattempt _)) _ _ => apply wp_run_attempt
  | |- wp (run (atomic _)) _ _ => apply wp_run_atomic
  | |- wp (run (match ?x with _ => _ end)) _ _ => destruct x eqn:?
  | |- wp (run (if ?x then _ else _)) _ _ => destruct x eqn:?
  end.
