(* ===== verification/Engine.v ===== *)
(** * The engine

    [crates/engine/src/lib.rs], [impl Engine]: the passes of the scheduler task over the store and
    the dispatcher, the delivery tasks, the result listener and the calls of the API, generic in
    both interfaces. Each is a [task]: its steps are the critical sections and the awaited calls of the
    code, on the store, the dispatcher, the scheduler, the delivery channel and the delivery budget. *)
From S2P Require Import Prelude Types Db Ingest Scheduler Interfaces Tasks.

Record DispatchOptions := mkDispatchOptions {
  batch_size_max : Z;
  max_delivery_in_flight : Z;
  idle_probe_interval : Z; (* nanoseconds *)
  idle_probe_batch_size : Z
}.

Definition DispatchOptions_default : DispatchOptions := mkDispatchOptions 8192 8192 1000000000 64.

Definition DispatchOptions_validate (o : DispatchOptions) : result string unit :=
  if decide (batch_size_max o = 0 \/ MAX_CLAIM_BATCH_SIZE < batch_size_max o)
  then Err ("dispatch.batch_size_max must be in 1..=" +:+ pretty MAX_CLAIM_BATCH_SIZE)
  else if decide (max_delivery_in_flight o = 0)
  then Err "dispatch.max_delivery_in_flight must be greater than zero"%string
  else if decide (idle_probe_interval o = 0)
  then Err "dispatch.idle_probe_interval must be greater than zero"%string
  else if decide (idle_probe_batch_size o = 0)
  then Err "dispatch.idle_probe_batch_size must be greater than zero"%string
  else Ok tt.

Inductive EngineError : Type :=
| UnknownQueue (name : string)
| JobNotFound (id : Z)
| Storage (source : StoreError)
| Payload (message : string).

(** [impl From<StoreError> for EngineError] *)
Definition EngineError_from (error : StoreError) : EngineError :=
  match error with
  | QueueNotFound name => UnknownQueue name
  | NotFound id => JobNotFound id
  | source => Storage source
  end.

Record SubmitJob (V : Type) := mkSubmitJob { sj_name : string; sj_payload : V }.
Arguments mkSubmitJob {V}.
Arguments sj_name {V}.
Arguments sj_payload {V}.

Record JobView := mkJobView { jv_id : Z; jv_name : string; jv_status : ExecutionStatus }.

Record WorkerResult := mkWorkerResult { wr_job_id : Z; wr_dispatch_id : string; wr_outcome : JobOutcome }.

Inductive WorkerEvent : Type :=
| EvRegistered (queue_name : string)
| EvResult (queue_name : string) (result : WorkerResult).

(** [DeliveryWork]; each holds one permit of the delivery budget *)
Record DeliveryWork (P : Type) := mkDeliveryWork { dw_permit : ReservedDispatch P; dw_job : Job }.
Arguments mkDeliveryWork {P}.
Arguments dw_permit {P}.
Arguments dw_job {P}.

(** The store, the dispatcher, the scheduler, the free permits of [delivery_budget] and the
    channel [delivery_tx], whose capacity is [max_delivery_in_flight]. *)
Record engine (S D P : Type) := mkEngine {
  e_store : S;
  e_disp : D;
  e_sched : scheduler;
  e_budget : nat;
  e_delivery : list (DeliveryWork P)
}.
Arguments mkEngine {S D P}.
Arguments e_store {S D P}.
Arguments e_disp {S D P}.
Arguments e_sched {S D P}.
Arguments e_budget {S D P}.
Arguments e_delivery {S D P}.

Section engine.
Context {S D P : Type} `{!DurableStore S} `{!WorkerDispatcher D P}.
Context (options : DispatchOptions).
Notation eng := (engine S D P).

Definition set_store (s : S) (e : eng) : eng := mkEngine s (e_disp e) (e_sched e) (e_budget e) (e_delivery e).
Definition set_disp (d : D) (e : eng) : eng := mkEngine (e_store e) d (e_sched e) (e_budget e) (e_delivery e).
Definition set_sched (sc : scheduler) (e : eng) : eng :=
  mkEngine (e_store e) (e_disp e) sc (e_budget e) (e_delivery e).
Definition set_budget (n : nat) (e : eng) : eng :=
  mkEngine (e_store e) (e_disp e) (e_sched e) n (e_delivery e).
Definition set_delivery (l : list (DeliveryWork P)) (e : eng) : eng :=
  mkEngine (e_store e) (e_disp e) (e_sched e) (e_budget e) l.

Definition modify (f : eng -> eng) : M eng unit := fun c => (Ok tt, Conn (c_step c) (f (c_db c))).
Definition gets {A} (f : eng -> A) : M eng A := fun c => (Ok (f (c_db c)), c).
Definition with_store {A} (m : M S A) : M eng A := zoom e_store set_store m.

(** The functions of the scheduler *)
Definition engine_schedule_queue (queue : string) : task eng unit :=
  atomic (modify (fun e => set_sched (schedule_queue queue (e_sched e)) e)).
Definition engine_finish_pass (queue : string) (outcome : PassOutcome) : task eng unit :=
  atomic (modify (fun e => set_sched (finish_pass queue outcome (e_sched e)) e)).

(** A call of the store is one step here; in between the calls of others go on. *)
Definition call_store {A} (m : M S A) : task eng (Result A) := tattempt (atomic (with_store m)).

(** [self.dispatcher.release(permit).await] *)
Definition engine_release (r : ReservedDispatch P) : task eng unit :=
  atomic (modify (fun e => set_disp (wd_release r (e_disp e)) e)).

(** [self.dispatcher.reserve(requests).await], and [dispatch] *)
Definition reserve_slots (requests : list QueueReservation) : M eng (result DispatchError (list (ReservedDispatch P))) :=
  fun c => let '(res, d) := wd_reserve requests (e_disp (c_db c)) in (Ok res, Conn (c_step c) (set_disp d (c_db c))).
Definition dispatch_job (permit : ReservedDispatch P) (job : Job) : M eng (result DispatchError unit) :=
  fun c => let '(res, d) := wd_dispatch permit job (e_disp (c_db c)) in (Ok res, Conn (c_step c) (set_disp d (c_db c))).

(** [try_acquire_owned] *)
Definition try_acquire : M eng bool := fun c =>
  match e_budget (c_db c) with
  | O => (Ok false, c)
  | Datatypes.S budget => (Ok true, Conn (c_step c) (set_budget budget (c_db c)))
  end.

(** Dropping an [OwnedSemaphorePermit] *)
Definition drop_budget (n : nat) : task eng unit := atomic (modify (fun e => set_budget (e_budget e + n) e)).

(** [delivery_tx.try_send(work)] *)
Definition try_send (work : DeliveryWork P) : M eng bool := fun c =>
  if decide (Z.of_nat (length (e_delivery (c_db c))) < max_delivery_in_flight options)
  then (Ok true, Conn (c_step c) (set_delivery (e_delivery (c_db c) ++ [work]) (c_db c)))
  else (Ok false, c).

(** [self.dispatcher.release(permit).await], then the permit of the budget is dropped *)
Definition give_back (r : ReservedDispatch P) : task eng unit :=
  _ ← engine_release r; drop_budget 1.

(** *** A pass *)

(** [try_acquire_owned] for a reserved permit: keep it, or release it. *)
Definition take_budget (r : ReservedDispatch P) (by_queue : gmap string (list (ReservedDispatch P))) :
    task eng (gmap string (list (ReservedDispatch P))) :=
  acquired ← atomic try_acquire;
  if (acquired : bool)
  then mret (<[rd_queue_name r := default [] (by_queue !! rd_queue_name r) ++ [r]]> by_queue)
  else _ ← engine_release r; mret by_queue.

(** [if let Some(dispatch_id) = job.dispatch_id { let _ = release_claim(..) }] *)
Definition release_job (job : Job) : task eng unit :=
  match job_dispatch_id job with
  | Some dispatch_id => _ ← call_store (ds_release_claim (job_id job) dispatch_id); mret tt
  | None => mret tt
  end.

(** Hand the claimed jobs to the delivery channel, then give back the permits that are left. The
    binding of the work that was not sent drops its budget permit. *)
Fixpoint deliver_jobs (jobs : list Job) (permits : list (ReservedDispatch P)) : task eng unit :=
  match jobs, permits with
  | [], _ => tfor_each give_back permits
  | _ :: _, [] => panic "claim cannot exceed reserved permits"
  | job :: jobs, permit :: permits =>
      sent ← atomic (try_send (mkDeliveryWork permit job));
      _ ← (if (sent : bool) then mret tt
           else _ ← drop_budget 1;
                _ ← engine_release permit;
                _ ← release_job job;
                engine_schedule_queue (job_name job));
      deliver_jobs jobs permits
  end.

(** The body of the loop over the queues of the pass. *)
Definition drain_queue (queue_name : string) (by_queue : gmap string (list (ReservedDispatch P))) :
    task eng (gmap string (list (ReservedDispatch P))) :=
  match by_queue !! queue_name with
  | None => _ ← engine_finish_pass queue_name CapacityBlocked; mret by_queue
  | Some permits =>
      let reserved := length permits in
      claimed ← call_store (ds_claim_batch queue_name (Z.of_nat reserved));
      match claimed with
      | Err _ =>
          _ ← tfor_each give_back permits;
          _ ← engine_finish_pass queue_name Retry;
          mret (delete queue_name by_queue)
      | Ok jobs =>
          _ ← deliver_jobs jobs permits;
          _ ← engine_finish_pass queue_name (if decide (length jobs = reserved) then Active else Idle);
          mret (delete queue_name by_queue)
      end
  end.

Definition per_queue (headroom queue_count : nat) : nat :=
  Nat.min (Nat.max (headroom / Nat.max queue_count 1) 1)
          (Z.to_nat (Z.min (batch_size_max options) MAX_CLAIM_BATCH_SIZE)).

(** [drain_pass] on the queues of a pass, in the order the set yields them *)
Definition drain_pass (queues : list string) : task eng unit :=
  headroom ← atomic (gets e_budget);
  if decide (headroom = 0%nat) then tfor_each (fun queue => engine_finish_pass queue CapacityBlocked) queues
  else
    let requests := (fun q => mkQueueReservation q (per_queue headroom (length queues))) <$> queues in
    reserved ← atomic (reserve_slots requests);
    match reserved with
    | Err _ => tfor_each (fun queue => engine_finish_pass queue Retry) queues
    | Ok permits =>
        by_queue ← tthread take_budget permits ∅;
        left ← tthread drain_queue queues by_queue;
        (* [permits_by_queue] is dropped: the budget is freed, the permits are not released *)
        drop_budget (length (concat (map_to_list left).*2))
    end.

(** *** Delivery *)

(** The task a delivery is handed to; its permit of the budget is dropped with the work at its end. *)
Definition deliver (work : DeliveryWork P) : task eng unit :=
  let job := dw_job work in
  res ← atomic (dispatch_job (dw_permit work) job);
  _ ← (if is_ok res then mret tt else release_job job);
  _ ← engine_schedule_queue (job_name job);
  drop_budget 1.

(** *** Results and recovery *)

Definition completion_task (queue_name : string) (result : WorkerResult) : task eng unit :=
  res ← call_store (ds_complete_worker_result (wr_job_id result) (wr_dispatch_id result) (wr_outcome result));
  match res with
  | Ok true => engine_schedule_queue queue_name
  | _ => mret tt
  end.

(** The result listener: what it does itself, and the tasks it spawns. *)
Definition on_event (event : WorkerEvent) : task eng unit :=
  match event with
  | EvRegistered queue_name | EvResult queue_name _ => engine_schedule_queue queue_name
  end.
Definition spawned_by (event : WorkerEvent) : list (task eng unit) :=
  match event with
  | EvRegistered _ => []
  | EvResult queue_name result => [completion_task queue_name result]
  end.

Definition recovery_tick (now : Z) : task eng unit :=
  res ← call_store (ds_recover_stale_leases now);
  match res with
  | Ok recovered =>
      tfor_each engine_schedule_queue (job_name <$> filter (fun job => job_status job = Pending) recovered)
  | Err _ => mret tt
  end.

Definition engine_seed : task eng unit :=
  res ← call_store ds_list_queues;
  match res with
  | Ok queues => atomic (modify (fun e => set_sched (seed_idle_queues (q_name <$> queues) (e_sched e)) e))
  | Err _ => mret tt
  end.

(** [probe_idle_queues]: the idle queues are taken under the lock, and scheduled after it. *)
Definition take_idle : M eng (list string) := fun c =>
  let sc := e_sched (c_db c) in
  let '(queues, st) := pop_idle (Z.to_nat (idle_probe_batch_size options)) (idle (sc_state sc)) (sc_state sc) in
  (Ok queues, Conn (c_step c) (set_sched (with_state st sc) (c_db c))).
Definition engine_probe : task eng unit :=
  queues ← atomic take_idle;
  tfor_each engine_schedule_queue queues.

(** *** The API *)

Context {V : Type} (to_vec : V -> result string bytes) (* [serde_json::to_vec] *).

Definition submit `{Env} (job : SubmitJob V) : task eng (result EngineError JobView) :=
  match to_vec (sj_payload job) with
  | Err err => mret (Err (Payload err))
  | Ok payload =>
      now ← atomic unix_now;
      res ← call_store (ds_enqueue (AcceptedJob_new now (sj_name job) payload));
      match res with
      | Err err => mret (Err (EngineError_from err))
      | Ok accepted =>
          _ ← engine_schedule_queue (aj_queue_name accepted);
          mret (Ok (mkJobView (aj_id accepted) (aj_queue_name accepted) Pending))
      end
  end.

Definition engine_get_job (id : Z) : task eng (result EngineError JobView) :=
  res ← call_store (ds_get_job id);
  mret (match res with
        | Ok job => Ok (mkJobView (job_id job) (job_name job) (job_status job))
        | Err err => Err (EngineError_from err)
        end).
End engine.
