(* ===== verification/EngineProps.v ===== *)
(** * The engine: properties

    The accounting of a pass: permits of the dispatcher, permits of the delivery budget, and turns
    of the queues, proved against the interfaces of [Interfaces]. *)
From S2P Require Import Prelude Types Db Ingest Scheduler Interfaces Tasks Engine.

Section rules.
Context {S D P : Type} `{!DurableStore S}.
Implicit Types (c : conn (engine S D P)).

Lemma wp_modify f (Q : Result unit -> conn (engine S D P) -> Prop) c :
  Q (Ok tt) (Conn (c_step c) (f (c_db c))) -> wp (modify f) Q c.
Proof. done. Qed.

Lemma wp_gets {A} (f : engine S D P -> A) (Q : Result A -> conn (engine S D P) -> Prop) c :
  Q (Ok (f (c_db c))) c -> wp (gets f) Q c.
Proof. done. Qed.

(** A call to the store changes nothing else. *)
Lemma wp_with_store {A} (m : M S A) (Q : Result A -> conn (engine S D P) -> Prop) c :
  (forall r s n, Q r (Conn n (set_store s (c_db c)))) -> wp (with_store m) Q c.
Proof. intros HQ. unfold with_store. apply wp_zoom. unfold wp. apply HQ. Qed.

Lemma wp_run_call_store {A} (m : M S A) (Q : Result (Result A) -> conn (engine S D P) -> Prop) c :
  (forall r s n, Q (Ok r) (Conn n (set_store s (c_db c)))) -> wp (run (call_store m)) Q c.
Proof. intros HQ. apply wp_run_attempt, wp_run_atomic, wp_with_store. intros r s n. apply HQ. Qed.
End rules.

Section accounting.
Context {S D P : Type} `{!DurableStore S} `{!DurableStoreLaws S}.
Context `{!EqDecision P} `{!WorkerDispatcher D P} {W : WorkerDispatcherLaws D P}.
Context (options : DispatchOptions).
Notation eng := (engine S D P).
Implicit Types (e : eng) (c : conn eng).

Definition permits_of (works : list (DeliveryWork P)) : list P := (fun w => rd_permit (dw_permit w)) <$> works.

(** The accounts of a pass that started from [e0]: it has reserved [pend] without a permit of the
    budget, holds [held] with one each, and has queued [works]. *)
Record acct e0 (pend held : list (ReservedDispatch P)) (works : list (DeliveryWork P)) e : Prop := {
  ac_ok : wd_ok (e_disp e);
  ac_budget : (e_budget e + length held + length works = e_budget e0)%nat;
  ac_delivery : e_delivery e = e_delivery e0 ++ works;
  ac_outstanding : forall p, wd_outstanding (e_disp e) p =
    (wd_outstanding (e_disp e0) p + count p (rd_permit <$> pend) + count p (rd_permit <$> held) +
     count p (permits_of works))%nat
}.

Lemma acct_perm e0 pend pend' held held' works e :
  pend ≡ₚ pend' -> held ≡ₚ held' -> acct e0 pend held works e -> acct e0 pend' held' works e.
Proof.
  intros Hp Hh [? Hb ? Ho]. split; [done| |done|].
  - by rewrite <-Hh.
  - intros p. rewrite Ho. unfold count. by rewrite Hp, Hh.
Qed.

Lemma acct_sched e0 pend held works e sc : acct e0 pend held works e -> acct e0 pend held works (set_sched sc e).
Proof. by intros [? ? ? ?]. Qed.

Lemma acct_store e0 pend held works e s : acct e0 pend held works e -> acct e0 pend held works (set_store s e).
Proof. by intros [? ? ? ?]. Qed.

Lemma acct_release_pend e0 r pend held works e :
  acct e0 (r :: pend) held works e -> acct e0 pend held works (set_disp (wd_release r (e_disp e)) e).
Proof.
  intros [Hok Hb Hd Ho]. destruct (wd_release_ok r (e_disp e) Hok) as [Hok' Ho']. split; [done..|].
  intros p. simpl. rewrite Ho', Ho, fmap_cons, count_cons. case_decide; lia.
Qed.

Lemma acct_give_back e0 r pend held works e :
  acct e0 pend (r :: held) works e ->
  acct e0 pend held works
    (set_budget (e_budget e + 1) (set_disp (wd_release r (e_disp e)) e)).
Proof.
  intros [Hok Hb Hd Ho]. destruct (wd_release_ok r (e_disp e) Hok) as [Hok' Ho']. split; [done|simpl in *; lia|done|].
  intros p. cbn [e_disp set_budget set_disp]. rewrite Ho', Ho, fmap_cons, count_cons. case_decide; lia.
Qed.

(** *** Giving back *)

Lemma wp_give_back e0 r pend held works c (Q : Result unit -> conn eng -> Prop) :
  acct e0 pend (r :: held) works (c_db c) ->
  (forall c', acct e0 pend held works (c_db c') -> e_sched (c_db c') = e_sched (c_db c) ->
     e_store (c_db c') = e_store (c_db c) -> Q (Ok tt) c') ->
  wp (run (give_back r)) Q c.
Proof.
  intros Hac HQ. unfold give_back, engine_release, drop_budget. run_rule. run_rule. apply wp_modify. run_rule. apply wp_modify.
  apply HQ; [|done..]. simpl. by apply acct_give_back.
Qed.

Lemma wp_give_back_all e0 rs works c (Q : Result unit -> conn eng -> Prop) pend held :
  acct e0 pend (rs ++ held) works (c_db c) ->
  (forall c', acct e0 pend held works (c_db c') -> e_sched (c_db c') = e_sched (c_db c) ->
     e_store (c_db c') = e_store (c_db c) -> Q (Ok tt) c') ->
  wp (run (tfor_each give_back rs)) Q c.
Proof.
  revert c Q. induction rs as [|r rs IH]; intros c Q Hac HQ; cbn [tfor_each].
  - run_rule. by apply HQ.
  - run_rule. eapply wp_give_back; [exact Hac|]. intros c1 Hac1 Hs1 Hst1. apply IH; [done|].
    intros c2 Hac2 Hs2 Hst2. apply HQ; [done|congruence..].
Qed.

(** *** Delivering *)

(** A queued delivery: the job is of the permit's queue and has a dispatch id. *)
Definition work_ok (q : string) (w : DeliveryWork P) : Prop :=
  job_name (dw_job w) = q /\ is_Some (job_dispatch_id (dw_job w)).

Lemma wp_deliver_jobs e0 q jobs permits held works c (Q : Result unit -> conn eng -> Prop) :
  (Z.of_nat (e_budget e0 + length (e_delivery e0)) <= max_delivery_in_flight options) ->
  (length jobs <= length permits)%nat ->
  Forall (fun job => job_name job = q /\ is_Some (job_dispatch_id job)) jobs ->
  acct e0 [] (permits ++ held) works (c_db c) ->
  (forall works' c', Forall (work_ok q) works' -> dw_job <$> works' = jobs ->
     acct e0 [] held (works ++ works') (c_db c') ->
     e_sched (c_db c') = e_sched (c_db c) -> e_store (c_db c') = e_store (c_db c) -> Q (Ok tt) c') ->
  wp (run (deliver_jobs options jobs permits)) Q c.
Proof.
  intros Hcap. revert permits works c Q.
  induction jobs as [|job jobs IH]; intros permits works c Q Hlen Hjobs Hac HQ.
  - assert (Hall : wp (run (tfor_each give_back permits)) Q c).
    { eapply wp_give_back_all; [exact Hac|]. intros c' Hac' Hs Hst.
      apply (HQ []); [constructor|done|by rewrite app_nil_r|done..]. }
    destruct permits; exact Hall.
  - destruct permits as [|permit permits]; [simpl in Hlen; lia|]. cbn [deliver_jobs].
    apply Forall_cons in Hjobs as [Hjob Hjobs].
    run_rule. run_rule. pose proof Hac as [Hok Hb Hd Ho].
    unfold wp at 1, try_send. rewrite decide_True; cycle 1.
    { rewrite Hd, length_app. simpl in Hb. lia. }
    cbn [fst snd]. run_rule. run_rule. apply (IH permits (works ++ [mkDeliveryWork permit job])).
    + simpl in Hlen. lia.
    + done.
    + split; simpl; [done|rewrite !length_app; simpl in *; rewrite length_app in Hb; lia|by rewrite Hd, app_assoc|].
      intros p. rewrite Ho. unfold permits_of.
      rewrite <-app_comm_cons, fmap_cons, !fmap_app, !count_cons, !count_app. simpl.
      rewrite count_cons, count_nil. simpl. lia.
    + intros works' c' Hw Hj Hac' Hs Hst. apply (HQ (mkDeliveryWork permit job :: works')).
      * by constructor.
      * by rewrite fmap_cons, Hj.
      * by rewrite <-app_assoc in Hac'.
      * done.
      * done.
Qed.

(** *** The reserved permits, by queue *)

(** All permits held for the queues of the map. *)
Definition all_held (m : gmap string (list (ReservedDispatch P))) : list (ReservedDispatch P) :=
  concat (map_to_list m).*2.

Lemma all_held_delete m q ps : m !! q = Some ps -> all_held m ≡ₚ ps ++ all_held (delete q m).
Proof.
  intros Hq. unfold all_held. rewrite <-(insert_delete_id m q ps) at 1 by done.
  rewrite map_to_list_insert by apply lookup_delete_eq. done.
Qed.

Lemma all_held_insert m q r :
  all_held (<[q := default [] (m !! q) ++ [r]]> m) ≡ₚ r :: all_held m.
Proof.
  rewrite (all_held_delete _ q _ (lookup_insert_eq _ _ _)), delete_insert_eq, <-app_assoc. simpl.
  destruct (m !! q) as [ps|] eqn:Eq; simpl.
  - rewrite (all_held_delete m q ps Eq). by rewrite Permutation_middle.
  - by rewrite delete_id.
Qed.

(** Every queue of the map is one of [queues] and has at least one permit. *)
Definition held_for (queues : list string) (m : gmap string (list (ReservedDispatch P))) : Prop :=
  forall q ps, m !! q = Some ps -> q ∈ queues /\ ps <> [].

Lemma wp_take_all e0 queues permits c (Q : Result (gmap string (list (ReservedDispatch P))) -> conn eng -> Prop) :
  acct e0 permits [] [] (c_db c) -> Forall (fun r => rd_queue_name r ∈ queues) permits ->
  (forall m c', acct e0 [] (all_held m) [] (c_db c') -> held_for queues m ->
     e_sched (c_db c') = e_sched (c_db c) -> e_store (c_db c') = e_store (c_db c) -> Q (Ok m) c') ->
  wp (run (tthread take_budget permits ∅)) Q c.
Proof.
  intros Hac Hq HQ.
  enough (Hgen : forall permits m c, acct e0 permits (all_held m) [] (c_db c) -> held_for queues m ->
    Forall (fun r => rd_queue_name r ∈ queues) permits ->
    (forall m c', acct e0 [] (all_held m) [] (c_db c') -> held_for queues m ->
       e_sched (c_db c') = e_sched (c_db c) -> e_store (c_db c') = e_store (c_db c) -> Q (Ok m) c') ->
    wp (run (tthread take_budget permits m)) Q c).
  { apply Hgen; [done|by intros q ps H%lookup_empty_Some|done|done]. }
  clear. intros permits. induction permits as [|r permits IH]; intros m c Hac Hm Hq HQ; cbn [tthread].
  { run_rule. by apply HQ. }
  apply Forall_cons in Hq as [Hqr Hq]. run_rule. unfold take_budget. run_rule. run_rule. unfold wp at 1, try_acquire.
  destruct (e_budget (c_db c)) as [|budget] eqn:Eb; cbn [fst snd].
  - unfold engine_release. run_rule. run_rule. apply wp_modify. run_rule. apply IH; [|done|done|done].
    by apply acct_release_pend.
  - run_rule. apply IH; [|..|done|done].
    + apply (acct_perm _ permits permits (r :: all_held m)); [done|by rewrite all_held_insert|].
      destruct Hac as [Hok Hb Hd Ho]. split; [done|rewrite Eb in Hb; simpl in *; lia|done|].
      intros p. cbn [e_disp set_budget]. rewrite Ho, !fmap_cons, !count_cons. lia.
    + intros q ps [[<- <-]|[_ Hps]]%lookup_insert_Some; [split; [done|]|by apply Hm].
      by destruct (default [] (m !! rd_queue_name r)).
Qed.

(** *** A queue of the pass *)

Definition world_of e (pass : list string) : world := mkWorld (e_sched e) pass.

Lemma wp_finish q outcome e0 pend held works pass c (Q : Result unit -> conn eng -> Prop) :
  acct e0 pend held works (c_db c) -> tokens_ok (world_of (c_db c) (q :: pass)) ->
  (forall c', acct e0 pend held works (c_db c') -> tokens_ok (world_of (c_db c') pass) ->
     e_store (c_db c') = e_store (c_db c) -> Q (Ok tt) c') ->
  wp (run (engine_finish_pass q outcome)) Q c.
Proof.
  intros Hac Htok HQ. unfold engine_finish_pass. run_rule. apply wp_modify. apply HQ; simpl.
  - by apply acct_sched.
  - by apply (tokens_ok_finish q outcome _ [] pass).
  - done.
Qed.

Lemma wp_finish_all outcome e0 pend held works pass c (Q : Result unit -> conn eng -> Prop) :
  acct e0 pend held works (c_db c) -> tokens_ok (world_of (c_db c) pass) ->
  (forall c', acct e0 pend held works (c_db c') -> tokens_ok (world_of (c_db c') []) ->
     e_store (c_db c') = e_store (c_db c) -> Q (Ok tt) c') ->
  wp (run (tfor_each (fun q => engine_finish_pass q outcome) pass)) Q c.
Proof.
  revert c Q. induction pass as [|q pass IH]; intros c Q Hac Htok HQ; cbn [tfor_each].
  - run_rule. by apply HQ.
  - run_rule. eapply wp_finish; [done|done|]. intros c1 Hac1 Htok1 Hst1. apply IH; [done|done|].
    intros c2 Hac2 Htok2 Hst2. apply HQ; [done..|congruence].
Qed.

(** What a pass does to the store: it claims jobs of its queues, and [jobs] is what it gets. *)
Inductive claims_run (queues : list string) : S -> list Job -> S -> Prop :=
| claims_none s : claims_run queues s [] s
| claims_more s jobs s1 q n k r k' s2 :
    claims_run queues s jobs s1 -> q ∈ queues -> 1 <= n -> ds_claim_batch q n (Conn k s1) = (r, Conn k' s2) ->
    claims_run queues s (jobs ++ match r with Ok claimed => claimed | Err _ => [] end) s2.

Lemma claims_run_queues queues queues' s jobs s' :
  (forall q, q ∈ queues -> q ∈ queues') -> claims_run queues s jobs s' -> claims_run queues' s jobs s'.
Proof. intros Hq. induction 1; [constructor|]. econstructor; eauto. Qed.

Lemma wp_claim q n c (Q : Result (Result (list Job)) -> conn eng -> Prop) :
  1 <= n ->
  (forall (err : StoreError) s k,
     ds_claim_batch q n (Conn (c_step c) (e_store (c_db c))) = (Err err, Conn k s) ->
     Q (Ok (Err err)) (Conn k (set_store s (c_db c)))) ->
  (forall jobs s k, Z.of_nat (length jobs) <= n ->
     Forall (fun job => job_name job = q /\ is_Some (job_dispatch_id job)) jobs ->
     ds_claim_batch q n (Conn (c_step c) (e_store (c_db c))) = (Ok jobs, Conn k s) ->
     Q (Ok (Ok jobs)) (Conn k (set_store s (c_db c)))) ->
  wp (run (call_store (ds_claim_batch q n))) Q c.
Proof.
  intros Hn Herr Hok. unfold call_store. run_rule. run_rule. unfold with_store. apply wp_zoom. unfold wp.
  destruct (ds_claim_batch q n _) as [[jobs|e] [k s]] eqn:Ec; simpl; [|by apply Herr].
  destruct (ds_claim_bound q n _ jobs (Conn k s) Hn Ec). by apply Hok.
Qed.

(** A delivery of the pass: the job is of one of its queues and has a dispatch id. *)
Definition delivery_ok (queues : list string) (w : DeliveryWork P) : Prop :=
  job_name (dw_job w) ∈ queues /\ is_Some (job_dispatch_id (dw_job w)).

Lemma wp_drain_queue e0 all q rest m works c (Q : Result (gmap string (list (ReservedDispatch P))) -> conn eng -> Prop) :
  (Z.of_nat (e_budget e0 + length (e_delivery e0)) <= max_delivery_in_flight options) ->
  acct e0 [] (all_held m) works (c_db c) -> held_for (q :: rest) m -> q ∉ rest ->
  tokens_ok (world_of (c_db c) (q :: rest)) -> q ∈ all -> claims_run all (e_store e0) (dw_job <$> works) (e_store (c_db c)) ->
  (forall m' works' c', acct e0 [] (all_held m') (works ++ works') (c_db c') -> held_for rest m' ->
     Forall (work_ok q) works' -> tokens_ok (world_of (c_db c') rest) ->
     claims_run all (e_store e0) (dw_job <$> works ++ works') (e_store (c_db c')) -> Q (Ok m') c') ->
  wp (run (drain_queue options q m)) Q c.
Proof.
  intros Hcap Hac Hm Hq Htok Hall Hcl HQ. unfold drain_queue.
  assert (Hrest : held_for rest (delete q m)).
  { intros q' ps [Hne Hps]%lookup_delete_Some. destruct (Hm q' ps Hps) as [[->|?]%elem_of_cons ?]; done. }
  destruct (m !! q) as [permits|] eqn:Em.
  2:{ run_rule. eapply wp_finish; [done|done|]. intros c1 Hac1 Htok1 Hst1. run_rule.
      apply (HQ m []); [by rewrite app_nil_r| |constructor|done|by rewrite app_nil_r, Hst1].
      intros q' ps Hps. destruct (Hm q' ps Hps) as [[->|?]%elem_of_cons ?]; [congruence|done]. }
  destruct (Hm q permits Em) as [_ Hne].
  apply (acct_perm _ [] [] _ (permits ++ all_held (delete q m))) in Hac; [|done|by apply all_held_delete].
  assert (1 <= Z.of_nat (length permits)) as Hreserved by (destruct permits; [done|]; simpl; lia).
  run_rule. apply wp_claim; [done|..].
  - intros e s k Hrun. run_rule. eapply wp_give_back_all; [apply acct_store; exact Hac|]. intros c1 Hac1 Hs1 Hst1.
    run_rule. eapply wp_finish; [done|unfold world_of; by rewrite Hs1|]. intros c2 Hac2 Htok2 Hst2. run_rule.
    apply (HQ _ []); [by rewrite app_nil_r|done|constructor|done|]. rewrite Hst2, Hst1, fmap_app.
    by apply (claims_more all _ _ _ q _ _ _ _ _ Hcl Hall Hreserved Hrun).
  - intros jobs s k Hlen Hjobs Hrun. run_rule.
    eapply wp_deliver_jobs; [done|lia|done|apply acct_store; exact Hac|].
    intros works' c1 Hw Hj Hac1 Hs1 Hst1. run_rule. eapply wp_finish; [done|unfold world_of; by rewrite Hs1|].
    intros c2 Hac2 Htok2 Hst2. run_rule. apply (HQ _ works'); [done..|]. rewrite Hst2, Hst1, fmap_app, Hj.
    by apply (claims_more all _ _ _ q _ _ _ _ _ Hcl Hall Hreserved Hrun).
Qed.

Lemma wp_drain_queues e0 queues m c (Q : Result (gmap string (list (ReservedDispatch P))) -> conn eng -> Prop) :
  (Z.of_nat (e_budget e0 + length (e_delivery e0)) <= max_delivery_in_flight options) ->
  acct e0 [] (all_held m) [] (c_db c) -> held_for queues m -> NoDup queues ->
  tokens_ok (world_of (c_db c) queues) -> e_store (c_db c) = e_store e0 ->
  (forall works c', acct e0 [] [] works (c_db c') -> Forall (delivery_ok queues) works ->
     tokens_ok (world_of (c_db c') []) -> claims_run queues (e_store e0) (dw_job <$> works) (e_store (c_db c')) ->
     Q (Ok ∅) c') ->
  wp (run (tthread (drain_queue options) queues m)) Q c.
Proof.
  intros Hcap Hac Hm Hnd Htok Hst HQ.
  enough (Hgen : forall rest done m works c, queues = done ++ rest ->
    acct e0 [] (all_held m) works (c_db c) -> held_for rest m -> tokens_ok (world_of (c_db c) rest) ->
    Forall (delivery_ok queues) works -> claims_run queues (e_store e0) (dw_job <$> works) (e_store (c_db c)) ->
    wp (run (tthread (drain_queue options) rest m)) Q c).
  { apply (Hgen queues [] m []); try done. rewrite Hst. constructor. }
  clear m c Hac Hm Htok Hst. intros rest. induction rest as [|q rest IH]; intros done m works c Hqs Hac Hm Htok Hw Hcl; cbn [tthread].
  - run_rule. assert (m = ∅) as ->.
    { apply map_empty. intros q. destruct (m !! q) as [ps|] eqn:Eq; [|done].
      by apply Hm in Eq as [?%elem_of_nil _]. }
    by apply HQ with works.
  - run_rule. assert (Hq : q ∈ queues /\ q ∉ rest).
    { subst queues. apply NoDup_app in Hnd as (_ & _ & Hnd). apply NoDup_cons in Hnd as [? _]. set_solver. }
    destruct Hq as [Hq Hqr]. eapply wp_drain_queue; [done|done|done|done|done|exact Hq|done|].
    intros m' works' c' Hac' Hm' Hw' Htok' Hcl'. apply (IH (done ++ [q]) _ (works ++ works')); try done.
    + by rewrite <-app_assoc.
    + apply Forall_app. split; [done|]. eapply Forall_impl; [done|]. intros w [<- ?]. by split.
Qed.

(** *** The pass *)

Lemma wp_drain_pass queues c :
  let e0 := c_db c in
  wd_ok (e_disp e0) -> (Z.of_nat (e_budget e0 + length (e_delivery e0)) <= max_delivery_in_flight options) ->
  tokens_ok (world_of e0 queues) ->
  wp (run (drain_pass options queues)) (fun r c' => r = Ok tt /\ exists works,
    acct e0 [] [] works (c_db c') /\ Forall (delivery_ok queues) works /\
    tokens_ok (world_of (c_db c') []) /\ claims_run queues (e_store e0) (dw_job <$> works) (e_store (c_db c'))) c.
Proof.
  intros e0 Hok Hcap Htok.
  assert (Hac : acct e0 [] [] [] (c_db c)).
  { split; [done|simpl; unfold e0; lia|by rewrite app_nil_r|]. intros p. unfold permits_of. simpl.
    rewrite count_nil. unfold e0. lia. }
  assert (Hnd : NoDup queues).
  { pose proof (tk_NoDup _ Htok) as Hnd. unfold tokens in Hnd. simpl in Hnd.
    apply NoDup_app in Hnd as (_ & _ & Hnd). by apply NoDup_app in Hnd as [? _]. }
  unfold drain_pass. run_rule. run_rule. apply wp_gets. run_rule.
  { eapply wp_finish_all; [done|done|]. intros c' Hac' Htok' Hst'.
    split; [done|]. exists []. split_and!; [done|constructor|done|]. rewrite Hst'. constructor. }
  cbn zeta. set (requests := _ <$> queues). run_rule. run_rule. unfold wp at 1, reserve_slots.
  destruct (wd_reserve requests (e_disp (c_db c))) as [[permits|e] d'] eqn:Er; cbn [fst snd].
  2:{ destruct (wd_reserve_err _ _ _ _ Hok Er) as [Hok' Ho'].
      assert (Hac1 : acct e0 [] [] [] (set_disp d' (c_db c))).
      { destruct Hac as [_ Hb Hd Ho]. split; [done|done|done|]. intros p. simpl. rewrite Ho'. apply Ho. }
      eapply wp_finish_all; [exact Hac1|exact Htok|]. intros c' Hac' Htok' Hst'.
      split; [done|]. exists []. split_and!; [done|constructor|done|]. rewrite Hst'. constructor. }
  destruct (wd_reserve_ok _ _ _ _ Hok Er) as (Hok' & Ho' & Hq).
  assert (Hac1 : acct e0 permits [] [] (set_disp d' (c_db c))).
  { destruct Hac as [_ Hb Hd Ho]. split; [done|done|done|]. intros p. simpl. rewrite Ho'.
    unfold e0, permits_of. simpl. rewrite count_nil. lia. }
  run_rule. eapply (wp_take_all e0 queues); [exact Hac1| |].
  { eapply Forall_impl; [exact Hq|]. intros r Hr. unfold requests in Hr. by rewrite <-list_fmap_compose, list_fmap_id in Hr. }
  intros m c1 Hac2 Hm Hs1 Hst1. run_rule. eapply wp_drain_queues; [done|exact Hac2|done|done| |exact Hst1|].
  { unfold world_of. by rewrite Hs1. }
  intros works c2 Hac3 Hw Htok2 Hcl. unfold drop_budget. run_rule. apply wp_modify. split; [done|].
  exists works. split_and!; [|done|done|done].
  rewrite map_to_list_empty. simpl. destruct Hac3 as [? ? ? ?]. split; simpl; [done|simpl in *; lia|done|done].
Qed.
End accounting.
