(* ===== verification/Protocol.v ===== *)
(** * The worker protocol

    [crates/worker-protocol/src/lib.rs]: frames are a four-byte big-endian length and a CBOR body.
    [serde_cbor] is not under [src/]: its two functions are the class [Cbor], and that reading back
    a value gives the value is the law [CborLaws]. The asynchronous readers of the dispatcher and of
    the SDK are modelled here too, since they share the framing. *)
From S2P Require Import Prelude.

Definition PROTOCOL_VERSION : Z := 1.
Definition MAX_FRAME_BYTES : Z := 1024 * 1024.

Inductive JobResult : Type :=
| JSucceeded (payload : bytes)
| JFailed (message : string).

Inductive WorkerMessage : Type :=
| Register (instance_id : Z) (queue_name : string) (running_jobs free_slots : Z)
| JobDispatch (job_id : Z) (dispatch_id : string) (execution_count : Z) (payload : bytes)
| JobResultMsg (job_id : Z) (dispatch_id : string) (result : JobResult) (running_jobs free_slots : Z)
| Drain
| Draining
| Heartbeat
| Registered (queue_name : string)
| ErrorMsg (code message : string).

Record WireFrame := mkFrame { protocol_version : Z (* u16 *); payload : WorkerMessage }.

(** [ProtocolFrame::v1] *)
Definition v1 (payload : WorkerMessage) : WireFrame := mkFrame PROTOCOL_VERSION payload.

Inductive ProtocolError : Type :=
| UnsupportedVersion (version : Z)
| FrameTooLarge
| Malformed (error : string)
| Io (error : string).

#[export] Instance JobResult_eq_dec : EqDecision JobResult.
Proof. solve_decision. Defined.
#[export] Instance WorkerMessage_eq_dec : EqDecision WorkerMessage.
Proof. solve_decision. Defined.
#[export] Instance WireFrame_eq_dec : EqDecision WireFrame.
Proof. solve_decision. Defined.

(** ** Big-endian integers *)

Definition byte_of (x : Z) : Byte.byte := default Byte.x00 (Byte.of_N (Z.to_N (x mod 256))).
Definition byte_val (b : Byte.byte) : Z := Z.of_N (Byte.to_N b).

(** [x.to_be_bytes()] for an integer of [n] bytes *)
Fixpoint to_be_bytes (n : nat) (x : Z) : bytes :=
  match n with
  | O => []
  | S n => to_be_bytes n (Z.shiftr x 8) ++ [byte_of x]
  end.

(** [from_be_bytes] *)
Definition from_be_bytes (b : bytes) : Z := foldl (fun acc x => Z.shiftl acc 8 + byte_val x) 0 b.

Lemma byte_val_of x : byte_val (byte_of x) = x mod 256.
Proof.
  unfold byte_val, byte_of. pose proof (Z.mod_pos_bound x 256 ltac:(lia)) as Hb.
  destruct (Byte.of_N (Z.to_N (x mod 256))) as [b|] eqn:Eb; simpl.
  - apply Byte.to_of_N in Eb. rewrite Eb. lia.
  - apply Byte.of_N_None_iff in Eb. lia.
Qed.

Lemma byte_val_bound b : 0 <= byte_val b < 256.
Proof. unfold byte_val. pose proof (Byte.to_N_bounded b). lia. Qed.

Lemma length_to_be_bytes n x : length (to_be_bytes n x) = n.
Proof. revert x. induction n as [|n IH]; intros x; simpl; [done|]. rewrite length_app, IH. simpl. lia. Qed.

Lemma from_to_be_bytes n x : 0 <= x < 2 ^ (8 * Z.of_nat n) -> from_be_bytes (to_be_bytes n x) = x.
Proof.
  unfold from_be_bytes. revert x. induction n as [|n IH]; intros x Hx; simpl.
  { simpl in Hx. lia. }
  rewrite foldl_app. simpl. rewrite Z.shiftr_div_pow2 by lia. change (2 ^ 8) with 256.
  rewrite IH.
  - rewrite Z.shiftl_mul_pow2, byte_val_of by lia. change (2 ^ 8) with 256.
    pose proof (Z.div_mod x 256 ltac:(lia)). lia.
  - replace (8 * Z.of_nat (S n)) with (8 * Z.of_nat n + 8) in Hx by lia.
    rewrite Z.pow_add_r in Hx by lia. change (2 ^ 8) with 256 in Hx.
    split; [apply Z.div_pos; lia|]. apply Z.div_lt_upper_bound; lia.
Qed.

Lemma to_be_bytes_0 n : to_be_bytes n 0 = replicate n Byte.x00.
Proof.
  induction n as [|n IH]; [done|]. cbn [to_be_bytes]. change (Z.shiftr 0 8) with 0.
  rewrite IH. symmetry. apply (replicate_S_end n).
Qed.

(** The high bytes of a small integer are zero. *)
Lemma to_be_bytes_high n k x :
  0 <= x < 2 ^ (8 * Z.of_nat k) -> take n (to_be_bytes (n + k) x) = replicate n Byte.x00.
Proof.
  revert x. induction k as [|k IH]; intros x Hx.
  - simpl in Hx. assert (x = 0) as -> by lia. rewrite Nat.add_0_r. clear Hx.
    rewrite take_ge by (by rewrite length_to_be_bytes). apply to_be_bytes_0.
  - rewrite Nat.add_succ_r. simpl. rewrite take_app_le by (rewrite length_to_be_bytes; lia).
    apply IH. rewrite Z.shiftr_div_pow2 by lia. change (2 ^ 8) with 256.
    replace (8 * Z.of_nat (S k)) with (8 * Z.of_nat k + 8) in Hx by lia.
    rewrite Z.pow_add_r in Hx by lia. change (2 ^ 8) with 256 in Hx.
    split; [apply Z.div_pos; lia|]. apply Z.div_lt_upper_bound; lia.
Qed.

(** ** CBOR *)

Class Cbor := {
  to_vec : WireFrame -> result string bytes;
  from_slice : bytes -> result string WireFrame
}.

(** What is written is read back. *)
Class CborLaws `(Cbor) : Prop := {
  from_to_vec : forall f b, to_vec f = Ok b -> from_slice b = Ok f
}.

Section protocol.
Context `{C : Cbor}.

Definition encode_frame (frame : WireFrame) : result ProtocolError bytes :=
  if decide (protocol_version frame <> PROTOCOL_VERSION) then Err (UnsupportedVersion (protocol_version frame))
  else
    let? body := map_err Malformed (to_vec frame) in
    if decide (MAX_FRAME_BYTES < Z.of_nat (length body)) then Err FrameTooLarge
    else Ok (to_be_bytes 4 (Z.of_nat (length body) mod 2 ^ 32) ++ body).

Definition decode_frame (b : bytes) : result ProtocolError WireFrame :=
  if decide (length b < 4)%nat then Err (Io "missing frame length")
  else
    let len := from_be_bytes (take 4 b) in
    if decide (MAX_FRAME_BYTES < len) then Err FrameTooLarge
    else if decide (Z.of_nat (length b) <> len + 4) then Err (Io "frame length mismatch")
    else
      let? frame := map_err Malformed (from_slice (drop 4 b)) in
      if decide (protocol_version frame <> PROTOCOL_VERSION) then Err (UnsupportedVersion (protocol_version frame))
      else Ok frame.

(** [Read::read_exact]: the bytes read and the rest of the stream *)
Definition read_exact (n : nat) (stream : bytes) : result ProtocolError (bytes * bytes) :=
  if decide (length stream < n)%nat then Err (Io "failed to fill whole buffer")
  else Ok (take n stream, drop n stream).

(** The blocking [read_frame] of the crate. The second [len] shadows the first and is a [usize],
    eight bytes on a 64-bit target. *)
Definition read_frame (stream : bytes) : result ProtocolError (WireFrame * bytes) :=
  let? r := read_exact 4 stream in
  let len := from_be_bytes r.1 in
  if decide (MAX_FRAME_BYTES < len) then Err FrameTooLarge
  else
    let? r := read_exact (Z.to_nat len) r.2 in
    let bytes := to_be_bytes 8 len ++ r.1 in
    let? frame := decode_frame bytes in
    Ok (frame, r.2).

(** The asynchronous [read_async_frame] of the SDK ([worker-sdk/src/lib.rs]); the one of the
    dispatcher only differs in an error and is in [Registry]. *)
Definition read_async_frame (stream : bytes) : result ProtocolError (WireFrame * bytes) :=
  let? length := read_exact 4 stream in
  let size := from_be_bytes length.1 in
  if decide (MAX_FRAME_BYTES < size) then Err FrameTooLarge
  else
    let? body := read_exact (Z.to_nat size) length.2 in
    let? frame := decode_frame (length.1 ++ body.1) in
    Ok (frame, body.2).

(** Frame after frame, until the stream ends or a frame cannot be read. *)
Fixpoint read_frames (fuel : nat) (stream : bytes) : list WireFrame * bytes :=
  match fuel with
  | O => ([], stream)
  | S fuel =>
      match read_async_frame stream with
      | Err _ => ([], stream)
      | Ok (frame, rest) => let out := read_frames fuel rest in (frame :: out.1, out.2)
      end
  end.

(** ** Properties *)

Lemma from_be_bytes_bound b : 0 <= from_be_bytes b < 2 ^ (8 * Z.of_nat (length b)).
Proof.
  unfold from_be_bytes. induction b as [|x b IH] using rev_ind; [simpl; lia|].
  rewrite foldl_app, length_app. simpl. rewrite Z.shiftl_mul_pow2 by lia. change (2 ^ 8) with 256.
  pose proof (byte_val_bound x). set (v := foldl _ _ _) in *.
  replace (8 * Z.of_nat (length b + 1)) with (8 * Z.of_nat (length b) + 8) by lia.
  rewrite Z.pow_add_r by lia. change (2 ^ 8) with 256. lia.
Qed.

(** An encoded frame is a length and that many bytes, which read back as the frame. *)
Lemma encode_frame_Ok `{!CborLaws C} frame b :
  encode_frame frame = Ok b ->
  exists body, b = to_be_bytes 4 (Z.of_nat (length body)) ++ body /\
    Z.of_nat (length body) <= MAX_FRAME_BYTES /\ from_slice body = Ok frame /\
    protocol_version frame = PROTOCOL_VERSION.
Proof.
  unfold encode_frame. case_decide as Hv; [done|]. destruct (to_vec frame) as [body|e] eqn:Et; simpl; [|done].
  case_decide as Hl; [done|]. intros [= <-]. exists body. unfold MAX_FRAME_BYTES in *.
  rewrite Z.mod_small by lia. split_and!; [done|lia|by apply from_to_vec|].
  by destruct (decide (protocol_version frame = PROTOCOL_VERSION)).
Qed.

Lemma decode_encoded body frame :
  Z.of_nat (length body) <= MAX_FRAME_BYTES -> from_slice body = Ok frame ->
  protocol_version frame = PROTOCOL_VERSION ->
  decode_frame (to_be_bytes 4 (Z.of_nat (length body)) ++ body) = Ok frame.
Proof.
  intros Hl Hf Hv. unfold decode_frame. unfold MAX_FRAME_BYTES in *.
  rewrite take_app_length' by (by rewrite length_to_be_bytes).
  rewrite drop_app_length' by (by rewrite length_to_be_bytes).
  rewrite from_to_be_bytes by (change (2 ^ (8 * Z.of_nat 4)) with 4294967296; lia).
  rewrite length_app, length_to_be_bytes.
  rewrite decide_False by lia. rewrite decide_False by lia.
  rewrite decide_False by (intros Hn; apply Hn; lia).
  rewrite Hf. cbn [map_err result_bind]. rewrite decide_False; [done|]. intros Hn. by apply Hn.
Qed.

Lemma read_async_frame_encoded `{!CborLaws C} frame b rest :
  encode_frame frame = Ok b -> read_async_frame (b ++ rest) = Ok (frame, rest).
Proof.
  intros (body & -> & Hl & Hf & Hv)%encode_frame_Ok. unfold read_async_frame, read_exact.
  rewrite decide_False by (rewrite !length_app, length_to_be_bytes; lia). cbn [result_bind fst snd].
  rewrite <-app_assoc, take_app_length', drop_app_length' by (by rewrite length_to_be_bytes).
  rewrite from_to_be_bytes by (unfold MAX_FRAME_BYTES in *; change (2 ^ (8 * Z.of_nat 4)) with 4294967296; lia).
  rewrite decide_False by lia. rewrite Nat2Z.id.
  rewrite (decide_False (P := (length (body ++ rest) < length body)%nat)) by (rewrite length_app; lia).
  cbn [result_bind fst snd]. rewrite take_app_length, drop_app_length. by rewrite (decode_encoded _ frame).
Qed.

(** Behind an eight-byte length, [decode_frame] sees the length zero. *)
Lemma decode_long_prefix len body :
  0 <= len < 2 ^ 32 -> decode_frame (to_be_bytes 8 len ++ body) = Err (Io "frame length mismatch").
Proof.
  intros Hlen. unfold decode_frame. rewrite decide_False by (rewrite length_app, length_to_be_bytes; lia).
  rewrite take_app_le by (rewrite length_to_be_bytes; lia). rewrite (to_be_bytes_high 4 4) by done.
  change (from_be_bytes (replicate 4 Byte.x00)) with 0. rewrite decide_False by (unfold MAX_FRAME_BYTES; lia).
  rewrite decide_True; [done|]. rewrite length_app, length_to_be_bytes. lia.
Qed.

(** The bytes a writer puts on the stream for a list of frames *)
Fixpoint encode_frames (frames : list WireFrame) : result ProtocolError bytes :=
  match frames with
  | [] => Ok []
  | frame :: frames =>
      let? b := encode_frame frame in
      let? bs := encode_frames frames in
      Ok (b ++ bs)
  end.

End protocol.

(** Every frame that can be encoded is decoded back, and fits the frame limit. *)
Theorem decode_encode_frame `{!Cbor} `{!CborLaws _} frame b :
  encode_frame frame = Ok b ->
  decode_frame b = Ok frame /\ (4 <= length b)%nat /\ Z.of_nat (length b) <= 4 + MAX_FRAME_BYTES.
Proof.
  intros (body & -> & Hl & Hf & Hv)%encode_frame_Ok. split; [by apply decode_encoded|].
  rewrite length_app, length_to_be_bytes. lia.
Qed.

(** C39. The frames written one after the other are read back in order by the asynchronous reader,
    which stops at the end of the stream: no frame is split or merged. *)
Theorem read_frames_of_encode_frames `{!Cbor} `{!CborLaws _} frames bs :
  encode_frames frames = Ok bs ->
  forall fuel, (length frames <= fuel)%nat -> read_frames fuel bs = (frames, []).
Proof.
  revert bs. induction frames as [|frame frames IH]; intros bs Hbs fuel Hfuel; simpl in Hbs, Hfuel.
  { simplify_eq. destruct fuel; [done|]. done. }
  destruct (encode_frame frame) as [b|] eqn:Hb; [|done]. cbn [result_bind] in Hbs.
  destruct (encode_frames frames) as [bs'|] eqn:Hbs'; [|done]. cbn [result_bind] in Hbs. injection Hbs as <-.
  destruct fuel as [|fuel]; [lia|]. cbn [read_frames].
  rewrite (read_async_frame_encoded _ _ _ Hb). rewrite (IH bs' eq_refl fuel) by lia. done.
Qed.

(** The blocking [read_frame] never returns a frame: the length it prepends has eight bytes,
    so [decode_frame] reads the length zero and rejects the frame, whatever the stream holds. *)
Theorem blocking_read_frame_never_succeeds `{!Cbor} stream :
  exists error, read_frame stream = Err error.
Proof.
  unfold read_frame. destruct (read_exact 4 stream) as [[l rest]|e] eqn:E1; [|by eexists]. cbn [result_bind fst snd].
  case_decide as Hl; [by eexists|].
  destruct (read_exact _ rest) as [[body rest']|e] eqn:E2; [|by eexists]. cbn [result_bind fst snd].
  pose proof (from_be_bytes_bound l) as [H0 _].
  exists (Io "frame length mismatch"). rewrite decode_long_prefix; [done|]. unfold MAX_FRAME_BYTES in *. lia.
Qed.

(** A serializer of three messages: the environment the examples run in. *)
Definition model_cbor : Cbor := {|
  to_vec := fun f =>
    if decide (f = v1 Heartbeat) then Ok [Byte.x01]
    else if decide (f = v1 Drain) then Ok [Byte.x02; Byte.x02]
    else if decide (f = v1 (Register 7 "q" 0 2)) then Ok [Byte.x03] else Err "unsupported"%string;
  from_slice := fun b =>
    match b with
    | [Byte.x01] => Ok (v1 Heartbeat)
    | [Byte.x02; Byte.x02] => Ok (v1 Drain)
    | [Byte.x03] => Ok (v1 (Register 7 "q" 0 2))
    | _ => Err "unexpected"%string
    end
|}.

#[export] Instance model_cbor_laws : CborLaws model_cbor.
Proof. split. simpl. intros f b. repeat case_decide; intros; simplify_eq; done. Qed.

Lemma decode_encode_frame_witness :
  let b := [Byte.x00; Byte.x00; Byte.x00; Byte.x02; Byte.x02; Byte.x02] in
  encode_frame (C := model_cbor) (v1 Drain) = Ok b /\ decode_frame (C := model_cbor) b = Ok (v1 Drain).
Proof.
  intros b. assert (encode_frame (C := model_cbor) (v1 Drain) = Ok b) as H by (vm_compute; reflexivity).
  split; [exact H|]. destruct (decode_encode_frame _ _ H) as [Hd _]. exact Hd.
Defined.

Lemma read_frames_of_encode_frames_witness :
  let frames := [v1 Heartbeat; v1 Drain; v1 Heartbeat] in
  exists bs, encode_frames (C := model_cbor) frames = Ok bs /\ read_frames (C := model_cbor) 3 bs = (frames, []).
Proof.
  intros frames. eexists. assert (encode_frames (C := model_cbor) frames = Ok _) as H by (vm_compute; reflexivity).
  split; [exact H|]. apply (read_frames_of_encode_frames _ _ H). simpl. lia.
Defined.
