(* ===== verification/EngineSteps.v ===== *)
(** * The engine: its tasks and its invariant

    The tasks of [impl Engine] side by side, for any store and any dispatcher that keep the laws of
    [Interfaces]: the scheduler task, the deliveries the pump has spawned, the result listener with its
    completions, and the calls of the API. A step is one critical section or one awaited call of one of
    them, so that a pass is interrupted at each of its awaits, and a delivery is in flight until its
    last step. The invariant is kept for each task alone, by a logic of what a task holds: slots it has
    reserved, permits of the budget, turns of queues. *)
From stdpp Require Import relations.
From S2P Require Import Prelude Types Db Ingest Scheduler Interfaces Tasks Engine EngineProps.

Section steps.
Context `{E : Env} {S D P : Type} `{!DurableStore S} `{!DurableStoreLaws S}.
Context `{!EqDecision P} `{!WorkerDispatcher D P} {W : WorkerDispatcherLaws D P}.
Context (options : DispatchOptions).
Context {V : Type} (to_vec : V -> result string bytes).
Notation eng := (engine S D P).
Implicit Types (e : eng) (c : conn eng).

(** ** The steps *)

(** The engine at work: what its tasks share, the scheduler task ([None] while it waits in [select!]),
    the deliveries with their tasks, and the tasks of the listener and of the API *)
Record engine_state := mkEngineState {
  es_conn : conn eng;
  es_loop : option (task eng unit);
  es_deliveries : list (DeliveryWork P * task eng unit);
  es_others : list (task eng unit)
}.

(** [Engine::with_dispatcher], on a store and a dispatcher; the scheduler task starts with the queues. *)
Definition engine_new (s : S) (d : D) : eng :=
  mkEngine s d empty_scheduler (Z.to_nat (max_delivery_in_flight options)) [].
Definition engine_start (n : nat) (s : S) (d : D) : engine_state :=
  mkEngineState (Conn n (engine_new s d)) (Some engine_seed) [] [].

(** The scheduler task has received [taken]. *)
Definition receive (rest : list string) e : eng :=
  set_sched (mkScheduler (sc_state (e_sched e)) rest (sc_sleeping (e_sched e))) e.

Definition on_db (f : eng -> eng) c : conn eng := Conn (c_step c) (f (c_db c)).

(** A task whose result nobody waits for here *)
Definition detached {A} (p : task eng A) : task eng unit := _ ← p; mret tt.

Inductive engine_step : engine_state -> engine_state -> Prop :=
(** the scheduler task takes what is on its channel; the pass goes over the queues in the order of the [HashSet] *)
| es_receive taken rest queues c ds os :
    taken <> [] -> sc_tx (e_sched (c_db c)) = taken ++ rest -> queues ≡ₚ remove_dups taken ->
    engine_step (mkEngineState c None ds os)
      (mkEngineState (on_db (receive rest) c) (Some (drain_pass options queues)) ds os)
(** its timers *)
| es_recovery now c ds os :
    engine_step (mkEngineState c None ds os) (mkEngineState c (Some (recovery_tick now)) ds os)
| es_probe c ds os :
    engine_step (mkEngineState c None ds os) (mkEngineState c (Some (engine_probe options)) ds os)
(** it goes on with what it does, and returns to [select!] *)
| es_loop_step p p' c c' ds os :
    advance p c = Some (p', c') -> engine_step (mkEngineState c (Some p) ds os) (mkEngineState c' (Some p') ds os)
| es_loop_done c ds os :
    engine_step (mkEngineState c (Some (Returned (Ok tt))) ds os) (mkEngineState c None ds os)
(** the delivery pump spawns the task of a delivery *)
| es_pump work rest c l ds os :
    e_delivery (c_db c) = work :: rest ->
    engine_step (mkEngineState c l ds os)
      (mkEngineState (on_db (set_delivery rest) c) l ((work, deliver work) :: ds) os)
| es_delivery_step work p p' c c' l ds1 ds2 os :
    advance p c = Some (p', c') ->
    engine_step (mkEngineState c l (ds1 ++ (work, p) :: ds2) os) (mkEngineState c' l (ds1 ++ (work, p') :: ds2) os)
(** an event of a worker reaches the listener; a call of the API *)
| es_event event c l ds os :
    engine_step (mkEngineState c l ds os) (mkEngineState c l ds (on_event event :: spawned_by event ++ os))
| es_submit job c l ds os :
    engine_step (mkEngineState c l ds os) (mkEngineState c l ds (detached (submit to_vec job) :: os))
| es_get_job id c l ds os :
    engine_step (mkEngineState c l ds os) (mkEngineState c l ds (detached (engine_get_job id) :: os))
| es_other_step p p' c c' l ds os1 os2 :
    advance p c = Some (p', c') ->
    engine_step (mkEngineState c l ds (os1 ++ p :: os2)) (mkEngineState c' l ds (os1 ++ p' :: os2))
(** a sleeping retry wakes up *)
| es_wake queue delay sleeping1 sleeping2 c l ds os :
    sc_sleeping (e_sched (c_db c)) = sleeping1 ++ (queue, delay) :: sleeping2 ->
    engine_step (mkEngineState c l ds os) (mkEngineState (on_db (fun e => set_sched (resume_retry queue
      (mkScheduler (sc_state (e_sched e)) (sc_tx (e_sched e)) (sleeping1 ++ sleeping2))) e) c) l ds os)
(** the sessions of the workers change the dispatcher: workers come and go, none gains a reservation *)
| es_workers d c l ds os :
    wd_ok d -> (forall p, wd_outstanding d p <= wd_outstanding (e_disp (c_db c)) p)%nat ->
    engine_step (mkEngineState c l ds os) (mkEngineState (on_db (set_disp d) c) l ds os)
(** another user of the databases changes the store *)
| es_store s c l ds os :
    engine_step (mkEngineState c l ds os) (mkEngineState (on_db (set_store s) c) l ds os).

(** The deliveries whose tasks have not finished *)
Definition in_flight (st : engine_state) : list (DeliveryWork P) :=
  (filter (fun wp : DeliveryWork P * task eng unit => working wp.2 = true) (es_deliveries st)).*1.

(** ** What a task holds *)

(** Slots of workers it has reserved, without and with a permit of the delivery budget; permits of the
    budget without a slot; and turns of queues *)
Record holds := mkHolds {
  h_reserved : list (ReservedDispatch P);
  h_held : list (ReservedDispatch P);
  h_freed : nat;
  h_turns : list string
}.
Implicit Types (h frame : holds).

Definition nothing : holds := mkHolds [] [] 0 [].
Definition together h1 h2 : holds :=
  mkHolds (h_reserved h1 ++ h_reserved h2) (h_held h1 ++ h_held h2) (h_freed h1 + h_freed h2) (h_turns h1 ++ h_turns h2).
Fixpoint all_together (hs : list holds) : holds :=
  match hs with [] => nothing | h :: hs => together h (all_together hs) end.

(** The same holdings, in another order *)
Definition same_holds h1 h2 : Prop :=
  h_reserved h1 ≡ₚ h_reserved h2 /\ h_held h1 ≡ₚ h_held h2 /\ h_freed h1 = h_freed h2 /\ h_turns h1 ≡ₚ h_turns h2.

(** The accounts of the engine, when [h] is what its tasks hold *)
Record engine_ok h e : Prop := {
  eo_disp : wd_ok (e_disp e);
  eo_budget : Z.of_nat (e_budget e + length (e_delivery e) + length (h_held h) + h_freed h) = max_delivery_in_flight options;
  eo_outstanding : forall p, (wd_outstanding (e_disp e) p <= count p (permits_of (e_delivery e)) +
    count p (rd_permit <$> h_reserved h) + count p (rd_permit <$> h_held h))%nat;
  eo_works : Forall (fun w => is_Some (job_dispatch_id (dw_job w))) (e_delivery e);
  eo_tokens : tokens_ok (world_of e (h_turns h))
}.

Lemma count_perm (p : P) l1 l2 : l1 ≡ₚ l2 -> count p l1 = count p l2.
Proof using Type. intros Hp. unfold count. by rewrite Hp. Qed.

Lemma engine_ok_same h1 h2 e : same_holds h1 h2 -> engine_ok h1 e -> engine_ok h2 e.
Proof using Type.
  intros (H1 & H2 & H3 & H4) [Hd Hb Ho Hw Ht]. split; [done| | |done|].
  - rewrite <-H2, <-H3. done.
  - intros p. specialize (Ho p). rewrite (count_perm p (rd_permit <$> h_reserved h1) (rd_permit <$> h_reserved h2)) in Ho by by rewrite H1.
    by rewrite (count_perm p (rd_permit <$> h_held h1) (rd_permit <$> h_held h2)) in Ho by by rewrite H2.
  - apply (tokens_ok_same (world_of e (h_turns h1))); [done| |done]. unfold tokens. simpl. by rewrite H4.
Qed.

Lemma together_swap h1 h2 h3 : same_holds (together h1 (together h2 h3)) (together h2 (together h1 h3)).
Proof using Type. split_and!; simpl; [apply Permutation_app_swap_app..|lia|apply Permutation_app_swap_app]. Qed.

Lemma together_nothing h : together nothing h = h.
Proof using Type. by destruct h. Qed.

Lemma together_comm h1 h2 : same_holds (together h1 h2) (together h2 h1).
Proof using Type. split_and!; simpl; [apply Permutation_app_comm..|lia|apply Permutation_app_comm]. Qed.

Lemma same_holds_trans h1 h2 h3 : same_holds h1 h2 -> same_holds h2 h3 -> same_holds h1 h3.
Proof using Type. intros (H1 & H2 & H3 & H4) (? & ? & ? & ?). split_and!; by etrans. Qed.

Lemma same_holds_sym h1 h2 : same_holds h1 h2 -> same_holds h2 h1.
Proof using Type. intros (? & ? & ? & ?). by split_and!. Qed.

Lemma together_mono h1 h2 h : same_holds h1 h2 -> same_holds (together h h1) (together h h2).
Proof using Type. intros (H1 & H2 & H3 & H4). split_and!; simpl; [by rewrite H1|by rewrite H2|lia|by rewrite H4]. Qed.

(** The holdings of a task out of those of many *)
Lemma all_together_focus hs1 h hs2 : same_holds (all_together (hs1 ++ h :: hs2)) (together h (all_together (hs1 ++ hs2))).
Proof using Type.
  induction hs1 as [|h1 hs1 IH]; simpl; [by split_and!|].
  eapply same_holds_trans; [apply together_mono, IH|apply together_swap].
Qed.
Lemma count_permits_app p (l1 l2 : list (DeliveryWork P)) :
  count p (permits_of (l1 ++ l2)) = (count p (permits_of l1) + count p (permits_of l2))%nat.
Proof. unfold permits_of. by rewrite fmap_app, count_app. Qed.

(** ** The logic of a task *)

(** A critical section turns what its task holds into what [Q] allows, whatever the others hold. *)
Definition serves {A} (m : M eng A) h (Q : holds -> Result A -> Prop) : Prop := forall frame c,
  engine_ok (together h frame) (c_db c) ->
  wp m (fun r c' => exists h', engine_ok (together h' frame) (c_db c') /\ Q h' r) c.

(** The task goes on well from what it holds: before each of its steps it holds what [I] says, and at
    its end what [Q] says. *)
Fixpoint twp (I : holds -> Prop) {A} (p : task eng A) h (Q : holds -> Result A -> Prop) : Prop :=
  match p with
  | Returned r => Q h r
  | Await m k => I h /\ serves m h (fun h' r => twp I (k r) h' Q)
  end.

Lemma engine_serves_mono {A} (m : M eng A) h (Q Q' : holds -> Result A -> Prop) :
  serves m h Q -> (forall h' r, Q h' r -> Q' h' r) -> serves m h Q'.
Proof using Type.
  intros Hs HQ frame c Hok. eapply wp_mono; [by apply Hs|]. intros r c' (h' & Hok' & HQ'). exists h'. auto.
Qed.

(** The accounts of the slots of [p], after a change of holdings *)
Ltac slots p :=
  cbn [together h_reserved h_held h_freed h_turns e_delivery e_disp e_budget e_sched set_disp set_budget set_delivery
    c_db es_conn on_db app] in *;
  repeat progress (rewrite ?count_permits_app, ?fmap_app, ?fmap_cons, ?count_app, ?count_cons, ?count_nil in *;
    cbn [permits_of fmap list_fmap dw_permit] in *);
  repeat case_decide; lia.

Section rules.
Context (I : holds -> Prop).

Lemma engine_twp_ret {A} (a : A) h (Q : holds -> Result A -> Prop) : Q h (Ok a) -> twp I (mret a) h Q.
Proof using Type. done. Qed.

Lemma engine_twp_bind {A B} (p : task eng A) (f : A -> task eng B) h (Q : holds -> Result B -> Prop) :
  twp I p h (fun h' r => match r with Ok a => twp I (f a) h' Q | Err e => Q h' (Err e) end) ->
  twp I (p ≫= f) h Q.
Proof using Type.
  revert h. induction p as [[a|e]|B' m k IH]; intros h; [done|done|]. simpl. intros [Hi Hs]. split; [done|].
  eapply engine_serves_mono; [exact Hs|]. intros h' r. apply IH.
Qed.

Lemma engine_twp_attempt {A} (p : task eng A) h (Q : holds -> Result (Result A) -> Prop) :
  twp I p h (fun h' r => Q h' (Ok r)) -> twp I (tattempt p) h Q.
Proof using Type.
  revert h. induction p as [r|B' m k IH]; intros h; [done|]. simpl. intros [Hi Hs]. split; [done|].
  eapply engine_serves_mono; [exact Hs|]. intros h' r. apply IH.
Qed.

(** A section that changes neither the accounts nor what its task holds *)
Lemma twp_quiet {A} (m : M eng A) h (Q : holds -> Result A -> Prop) :
  I h -> (forall frame c, engine_ok (together h frame) (c_db c) ->
    wp m (fun r c' => engine_ok (together h frame) (c_db c') /\ Q h r) c) ->
  twp I (atomic m) h Q.
Proof using Type.
  intros Hi Hm. split; [done|]. intros frame c Hok. eapply wp_mono; [by apply Hm|].
  intros r c' [Hok' HQ]. by exists h.
Qed.

Lemma twp_gets {A} (f : eng -> A) h (Q : holds -> Result A -> Prop) :
  I h -> (forall a, Q h (Ok a)) -> twp I (atomic (gets f)) h Q.
Proof using Type. intros Hi HQ. apply twp_quiet; [done|]. intros frame c Hok. by apply wp_gets. Qed.

Lemma twp_store {A} (m : M S A) h (Q : holds -> Result (Result A) -> Prop) :
  I h -> (forall r, Q h (Ok r)) -> twp I (call_store m) h Q.
Proof using Type.
  intros Hi HQ. apply engine_twp_attempt, twp_quiet; [done|]. intros frame c [? ? ? ? ?].
  apply wp_with_store. intros r s n. by split.
Qed.

Lemma twp_sched (f : scheduler -> scheduler) h (Q : holds -> Result unit -> Prop) :
  I h -> (forall sc pass, tokens_ok (mkWorld sc pass) -> tokens_ok (mkWorld (f sc) pass)) -> Q h (Ok tt) ->
  twp I (atomic (modify (fun e => set_sched (f (e_sched e)) e))) h Q.
Proof using Type.
  intros Hi Hf HQ. apply twp_quiet; [done|]. intros frame c [? ? ? ? Ht]. apply wp_modify. split; [|done].
  split; try done. by apply Hf.
Qed.

Lemma twp_schedule q h (Q : holds -> Result unit -> Prop) :
  I h -> Q h (Ok tt) -> twp I (engine_schedule_queue q) h Q.
Proof using Type. intros Hi HQ. apply twp_sched; [done| |done]. intros sc pass. apply tokens_ok_schedule. Qed.

Lemma twp_schedule_all qs h (Q : holds -> Result unit -> Prop) :
  I h -> Q h (Ok tt) -> twp I (tfor_each engine_schedule_queue qs) h Q.
Proof using Type.
  intros Hi HQ. induction qs as [|q qs IH]; cbn [tfor_each]; [done|]. by apply engine_twp_bind, twp_schedule.
Qed.

Lemma twp_release_job job h (Q : holds -> Result unit -> Prop) :
  I h -> Q h (Ok tt) -> twp I (release_job job) h Q.
Proof using Type.
  intros Hi HQ. unfold release_job. destruct (job_dispatch_id job); [|done].
  apply engine_twp_bind, twp_store; [done|]. intros r. by apply engine_twp_ret.
Qed.

(** Finishing a queue of the pass gives its turn back. *)
Lemma twp_finish q outcome reserved held freed turns (Q : holds -> Result unit -> Prop) :
  I (mkHolds reserved held freed (q :: turns)) -> Q (mkHolds reserved held freed turns) (Ok tt) ->
  twp I (engine_finish_pass q outcome) (mkHolds reserved held freed (q :: turns)) Q.
Proof using Type.
  intros Hi HQ. split; [done|]. intros frame c [? ? ? ? Ht]. apply wp_modify.
  exists (mkHolds reserved held freed turns). split; [|done]. split; try done.
  by apply (tokens_ok_finish q outcome _ [] (turns ++ h_turns frame)).
Qed.

(** Releasing a slot, with or without a permit of the budget *)
Lemma twp_release_held r reserved held freed turns (Q : holds -> Result unit -> Prop) :
  I (mkHolds reserved (r :: held) freed turns) -> Q (mkHolds reserved held (freed + 1) turns) (Ok tt) ->
  twp I (engine_release r) (mkHolds reserved (r :: held) freed turns) Q.
Proof using Type.
  intros Hi HQ. split; [done|]. intros frame c [Hd Hb Ho Hw Ht]. apply wp_modify.
  destruct (wd_release_ok r _ Hd) as [Hd' Ho']. exists (mkHolds reserved held (freed + 1) turns).
  split; [|done]. split; try done; [simpl in *; lia|].
  intros p. specialize (Ho p). specialize (Ho' p). slots p.
Qed.

Lemma twp_release_reserved r reserved held freed turns (Q : holds -> Result unit -> Prop) :
  I (mkHolds (r :: reserved) held freed turns) -> Q (mkHolds reserved held freed turns) (Ok tt) ->
  twp I (engine_release r) (mkHolds (r :: reserved) held freed turns) Q.
Proof using Type.
  intros Hi HQ. split; [done|]. intros frame c [Hd Hb Ho Hw Ht]. apply wp_modify.
  destruct (wd_release_ok r _ Hd) as [Hd' Ho']. exists (mkHolds reserved held freed turns).
  split; [|done]. split; try done.
  intros p. specialize (Ho p). specialize (Ho' p). slots p.
Qed.

Lemma engine_twp_drop n reserved held freed turns (Q : holds -> Result unit -> Prop) :
  I (mkHolds reserved held (n + freed) turns) -> Q (mkHolds reserved held freed turns) (Ok tt) ->
  twp I (drop_budget n) (mkHolds reserved held (n + freed) turns) Q.
Proof using Type.
  intros Hi HQ. split; [done|]. intros frame c [Hd Hb Ho Hw Ht]. apply wp_modify.
  exists (mkHolds reserved held freed turns). split; [|done]. split; try done. simpl in *. lia.
Qed.

Lemma twp_reserve requests held freed turns
    (Q : holds -> Result (result DispatchError (list (ReservedDispatch P))) -> Prop) :
  I (mkHolds [] held freed turns) ->
  (forall err, Q (mkHolds [] held freed turns) (Ok (Err err))) ->
  (forall rs, Forall (fun r => rd_queue_name r ∈ qres_queue_name <$> requests) rs ->
     Q (mkHolds rs held freed turns) (Ok (Ok rs))) ->
  twp I (atomic (reserve_slots requests)) (mkHolds [] held freed turns) Q.
Proof using Type.
  intros Hi Herr HQ. split; [done|]. intros frame c [Hd Hb Ho Hw Ht]. unfold wp, reserve_slots.
  destruct (wd_reserve requests (e_disp (c_db c))) as [[rs|err] d] eqn:Er; cbn [fst snd].
  - destruct (wd_reserve_ok _ _ _ _ Hd Er) as (Hd' & Ho' & Hq). exists (mkHolds rs held freed turns).
    split; [|by apply HQ]. split; try done. intros p. specialize (Ho p). specialize (Ho' p). slots p.
  - destruct (wd_reserve_err _ _ _ _ Hd Er) as (Hd' & Ho'). exists (mkHolds [] held freed turns).
    split; [|by apply Herr]. split; try done. intros p. rewrite Ho'. apply Ho.
Qed.

Lemma twp_try_acquire r reserved held freed turns (Q : holds -> Result bool -> Prop) :
  I (mkHolds (r :: reserved) held freed turns) ->
  Q (mkHolds (r :: reserved) held freed turns) (Ok false) -> Q (mkHolds reserved (r :: held) freed turns) (Ok true) ->
  twp I (atomic try_acquire) (mkHolds (r :: reserved) held freed turns) Q.
Proof using Type.
  intros Hi Hno Hyes. split; [done|]. intros frame c [Hd Hb Ho Hw Ht]. unfold wp, try_acquire.
  destruct (e_budget (c_db c)) as [|budget] eqn:Eb; cbn [fst snd].
  - exists (mkHolds (r :: reserved) held freed turns). split; [|done]. split; try done. simpl in *. by rewrite Eb.
  - exists (mkHolds reserved (r :: held) freed turns). split; [|done]. split; try done; [simpl in *; lia|].
    intros p. specialize (Ho p). slots p.
Qed.

(** A task that holds a permit of the budget finds room on the channel. *)
Lemma twp_try_send permit job reserved held freed turns (Q : holds -> Result bool -> Prop) :
  is_Some (job_dispatch_id job) ->
  I (mkHolds reserved (permit :: held) freed turns) -> Q (mkHolds reserved held freed turns) (Ok true) ->
  twp I (atomic (try_send options (mkDeliveryWork permit job))) (mkHolds reserved (permit :: held) freed turns) Q.
Proof using Type.
  intros Hj Hi HQ. split; [done|]. intros frame c [Hd Hb Ho Hw Ht]. unfold wp, try_send. simpl in Hb.
  rewrite decide_True by lia. cbn [fst snd].
  exists (mkHolds reserved held freed turns). split; [|done]. split; try done.
  - simpl in *. rewrite length_app. simpl. lia.
  - intros p. specialize (Ho p). slots p.
  - apply Forall_app. split; [done|]. by apply Forall_singleton.
Qed.

Lemma twp_dispatch permit job reserved held freed turns (Q : holds -> Result (result DispatchError unit) -> Prop) :
  is_Some (job_dispatch_id job) ->
  I (mkHolds reserved (permit :: held) freed turns) -> (forall res, Q (mkHolds reserved held (freed + 1) turns) (Ok res)) ->
  twp I (atomic (dispatch_job permit job)) (mkHolds reserved (permit :: held) freed turns) Q.
Proof using Type.
  intros Hj Hi HQ. split; [done|]. intros frame c [Hd Hb Ho Hw Ht]. unfold wp, dispatch_job.
  destruct (wd_dispatch_ok permit job _ Hd Hj) as [Hd' Ho']. destruct (wd_dispatch _ _ _) as [res d]. cbn [fst snd] in *.
  exists (mkHolds reserved held (freed + 1) turns). split; [|apply HQ]. split; try done; [simpl in *; lia|].
  intros p. specialize (Ho p). specialize (Ho' p). slots p.
Qed.

Lemma twp_same {A} (p : task eng A) h h' (Q : holds -> Result A -> Prop) :
  (forall h, I h) -> same_holds h h' -> (forall h1 h2 r, same_holds h1 h2 -> Q h1 r -> Q h2 r) ->
  twp I p h Q -> twp I p h' Q.
Proof using Type.
  intros Hi Hs HQ Hp. destruct p as [r|B m k]; [by eapply HQ|]. destruct Hp as [_ Hp]. split; [done|].
  intros frame c Hok. apply Hp. eapply engine_ok_same; [|exact Hok].
  eapply same_holds_trans; [apply together_comm|]. eapply same_holds_trans; [apply together_mono, same_holds_sym, Hs|].
  apply together_comm.
Qed.
End rules.

(** ** The tasks *)

(** A pass may hold anything, a delivery its slot or its permit of the budget, any other task nothing. *)
Definition anything h : Prop := True.
Definition delivery_holds (work : DeliveryWork P) h : Prop :=
  h = mkHolds [] [dw_permit work] 0 [] \/ h = mkHolds [] [] 1 [].

Definition loop_end h (r : Result unit) : Prop := h = nothing /\ r = Ok tt.
Definition task_end h (r : Result unit) : Prop := h = nothing.

Lemma twp_deliver work :
  is_Some (job_dispatch_id (dw_job work)) ->
  twp (delivery_holds work) (deliver work) (mkHolds [] [dw_permit work] 0 []) task_end.
Proof using DurableStoreLaws0 W.
  intros Hj. unfold deliver. apply engine_twp_bind, twp_dispatch; [done|by left|]. intros res.
  apply engine_twp_bind.
  assert (Hend : twp (delivery_holds work) (_ ← engine_schedule_queue (job_name (dw_job work)); drop_budget 1)
    (mkHolds [] [] 1 []) task_end).
  { apply engine_twp_bind, twp_schedule; [by right|]. apply (engine_twp_drop _ 1 [] [] 0 []); [by right|done]. }
  destruct (is_ok res); [exact Hend|]. apply twp_release_job; [by right|exact Hend].
Qed.

Lemma twp_detach {A} (p : task eng A) :
  (forall Q : holds -> Result A -> Prop, (forall r, Q nothing r) -> twp (eq nothing) p nothing Q) ->
  twp (eq nothing) (detached p) nothing task_end.
Proof using Type. intros Hp. apply engine_twp_bind, Hp. by intros [a|e]. Qed.

Lemma twp_completion q result : twp (eq nothing) (completion_task q result) nothing task_end.
Proof using Type.
  apply engine_twp_bind, twp_store; [done|]. intros [[]|e]; [by apply twp_schedule|done..].
Qed.

Lemma twp_on_event event : twp (eq nothing) (on_event event) nothing task_end.
Proof using Type. destruct event; by apply twp_schedule. Qed.

Lemma twp_submit job : twp (eq nothing) (detached (submit to_vec job)) nothing task_end.
Proof using Type.
  apply twp_detach. intros Q HQ. unfold submit. destruct (to_vec _); [|apply HQ].
  apply engine_twp_bind, twp_quiet; [done|]. intros frame c Hok. wp_rule. split; [done|].
  apply engine_twp_bind, twp_store; [done|]. intros [accepted|err]; [|apply HQ].
  apply engine_twp_bind, twp_schedule; [done|]. apply HQ.
Qed.

Lemma twp_get_job id : twp (eq nothing) (detached (engine_get_job id)) nothing task_end.
Proof using Type. apply twp_detach. intros Q HQ. apply engine_twp_bind, twp_store; [done|]. intros r. apply HQ. Qed.

Lemma twp_recovery now : twp anything (recovery_tick now) nothing loop_end.
Proof using Type.
  apply engine_twp_bind, twp_store; [done|]. intros [jobs|e]; [|done]. by apply twp_schedule_all.
Qed.

Lemma twp_seed : twp anything engine_seed nothing loop_end.
Proof using Type.
  apply engine_twp_bind, twp_store; [done|]. intros [queues|e]; [|done]. apply twp_sched; [done| |done].
  intros sc pass Ht. apply (tokens_ok_same (mkWorld sc pass)); [done|done|]. simpl. by rewrite foldl_push_scheduled.
Qed.

Lemma twp_probe : twp anything (engine_probe options) nothing loop_end.
Proof using Type.
  apply engine_twp_bind, twp_quiet; [done|]. intros frame c [Hd Hb Ho Hw Ht]. unfold wp, take_idle.
  destruct (pop_idle _ _ _) as [queues st] eqn:Ep. cbn [fst snd]. split.
  - split; try done. apply (tokens_ok_same _ _ Ht); [done|]. simpl.
    by rewrite <-(pop_idle_scheduled (Z.to_nat (idle_probe_batch_size options)) (idle (sc_state (e_sched (c_db c)))) (sc_state (e_sched (c_db c)))), Ep.
  - by apply twp_schedule_all.
Qed.

(** *** A pass *)

Lemma twp_finish_all outcome reserved held freed turns (Q : holds -> Result unit -> Prop) :
  Q (mkHolds reserved held freed []) (Ok tt) ->
  twp anything (tfor_each (fun q => engine_finish_pass q outcome) turns) (mkHolds reserved held freed turns) Q.
Proof using Type.
  intros HQ. induction turns as [|q turns IH]; cbn [tfor_each]; [done|]. by apply engine_twp_bind, twp_finish.
Qed.

Lemma twp_give_back_all rs reserved held turns (Q : holds -> Result unit -> Prop) :
  Q (mkHolds reserved held 0 turns) (Ok tt) ->
  twp anything (tfor_each give_back rs) (mkHolds reserved (rs ++ held) 0 turns) Q.
Proof using W.
  intros HQ. induction rs as [|r rs IH]; cbn [tfor_each]; [done|].
  apply engine_twp_bind, engine_twp_bind, twp_release_held; [done|]. by apply (engine_twp_drop _ 1).
Qed.

Lemma twp_deliver_jobs jobs permits held turns (Q : holds -> Result unit -> Prop) :
  (length jobs <= length permits)%nat -> Forall (fun job => is_Some (job_dispatch_id job)) jobs ->
  Q (mkHolds [] held 0 turns) (Ok tt) ->
  twp anything (deliver_jobs options jobs permits) (mkHolds [] (permits ++ held) 0 turns) Q.
Proof using W.
  intros Hlen Hjobs HQ. revert permits Hlen. induction jobs as [|job jobs IH]; intros permits Hlen.
  { destruct permits; by apply twp_give_back_all. }
  apply Forall_cons in Hjobs as [Hjob Hjobs]. destruct permits as [|permit permits]; [simpl in Hlen; lia|].
  cbn [deliver_jobs]. apply engine_twp_bind, twp_try_send; [done|done|]. apply engine_twp_bind, engine_twp_ret.
  apply IH; [done|]. simpl in Hlen. lia.
Qed.

Lemma twp_take_all queues permits m turns (Q : holds -> Result (gmap string (list (ReservedDispatch P))) -> Prop) :
  held_for queues m -> Forall (fun r => rd_queue_name r ∈ queues) permits ->
  (forall h1 h2 r, same_holds h1 h2 -> Q h1 r -> Q h2 r) ->
  (forall m, held_for queues m -> Q (mkHolds [] (all_held m) 0 turns) (Ok m)) ->
  twp anything (tthread take_budget permits m) (mkHolds permits (all_held m) 0 turns) Q.
Proof using W.
  intros Hm Hq HQs HQ. revert m Hm. induction permits as [|r permits IH]; intros m Hm; cbn [tthread]; [by apply HQ|].
  apply Forall_cons in Hq as [Hqr Hq]. apply engine_twp_bind. unfold take_budget.
  apply engine_twp_bind, twp_try_acquire; [done|..].
  { apply engine_twp_bind, twp_release_reserved; [done|]. apply engine_twp_ret. by apply IH. }
  apply engine_twp_ret. eapply twp_same; [done| |done|apply IH; [done|]].
  - by split_and!; simpl; rewrite ?all_held_insert.
  - intros q ps [[<- <-]|[_ Hps]]%lookup_insert_Some; [split; [done|]|by apply Hm].
    by destruct (default [] (m !! rd_queue_name r)).
Qed.

(** What a claim hands out, as the continuation of the call sees it *)
Lemma twp_claim q n h (Q : holds -> Result (Result (list Job)) -> Prop) :
  1 <= n -> (forall err, Q h (Ok (Err err))) ->
  (forall jobs, Z.of_nat (length jobs) <= n -> Forall (fun job => is_Some (job_dispatch_id job)) jobs -> Q h (Ok (Ok jobs))) ->
  twp anything (call_store (ds_claim_batch q n)) h Q.
Proof using DurableStoreLaws0.
  intros Hn Herr HQ. apply engine_twp_attempt, twp_quiet; [done|]. intros frame c [? ? ? ? ?].
  unfold with_store. apply wp_zoom. unfold wp. destruct (ds_claim_batch q n _) as [[jobs|e] c'] eqn:Ec; cbn [fst snd].
  2:{ split; [by split|apply Herr]. }
  destruct (ds_claim_bound q n _ _ _ Hn Ec) as [Hl Hj]. split; [by split|]. apply HQ; [done|].
  eapply Forall_impl; [exact Hj|]. by intros job [_ ?].
Qed.

Lemma twp_drain_queue q rest m (Q : holds -> Result (gmap string (list (ReservedDispatch P))) -> Prop) :
  held_for (q :: rest) m ->
  (forall h1 h2 r, same_holds h1 h2 -> Q h1 r -> Q h2 r) ->
  (forall m', held_for rest m' -> Q (mkHolds [] (all_held m') 0 rest) (Ok m')) -> q ∉ rest ->
  twp anything (drain_queue options q m) (mkHolds [] (all_held m) 0 (q :: rest)) Q.
Proof using DurableStoreLaws0 W.
  intros Hm HQs HQ Hq. unfold drain_queue.
  assert (Hrest : held_for rest (delete q m)).
  { intros q' ps [Hne Hps]%lookup_delete_Some. destruct (Hm q' ps Hps) as [[->|?]%elem_of_cons ?]; done. }
  destruct (m !! q) as [permits|] eqn:Em.
  2:{ apply engine_twp_bind, twp_finish; [done|]. apply engine_twp_ret, HQ. intros q' ps Hps.
      destruct (Hm q' ps Hps) as [[->|?]%elem_of_cons ?]; [congruence|done]. }
  destruct (Hm q permits Em) as [_ Hne].
  assert (1 <= Z.of_nat (length permits)) as Hreserved by (destruct permits; [done|]; simpl; lia).
  eapply twp_same; [done| |done|].
  { instantiate (1 := mkHolds [] (permits ++ all_held (delete q m)) 0 (q :: rest)).
    split_and!; simpl; [done|symmetry; by apply all_held_delete|done|done]. }
  apply engine_twp_bind, twp_claim; [done|..].
  - intros err. apply engine_twp_bind, twp_give_back_all, engine_twp_bind, twp_finish; [done|]. by apply engine_twp_ret, HQ.
  - intros jobs Hlen Hjobs. apply engine_twp_bind, twp_deliver_jobs; [lia|done|]. apply engine_twp_bind, twp_finish; [done|].
    by apply engine_twp_ret, HQ.
Qed.

Lemma twp_drain_queues queues m (Q : holds -> Result (gmap string (list (ReservedDispatch P))) -> Prop) :
  held_for queues m -> NoDup queues ->
  (forall h1 h2 r, same_holds h1 h2 -> Q h1 r -> Q h2 r) ->
  Q (mkHolds [] [] 0 []) (Ok ∅) ->
  twp anything (tthread (drain_queue options) queues m) (mkHolds [] (all_held m) 0 queues) Q.
Proof using DurableStoreLaws0 W.
  intros Hm Hnd HQs HQ. revert m Hm. induction queues as [|q queues IH]; intros m Hm; cbn [tthread].
  - assert (m = ∅) as ->; [|done]. apply map_empty. intros q. destruct (m !! q) as [ps|] eqn:Eq; [|done].
    by apply Hm in Eq as [?%elem_of_nil _].
  - apply NoDup_cons in Hnd as [Hq Hnd]. apply engine_twp_bind, twp_drain_queue; [done| | |done].
    + intros h1 h2 [a|e] Hs; [|by apply HQs]. by apply twp_same.
    + intros m' Hm'. by apply IH.
Qed.

Lemma twp_drain_pass queues : NoDup queues -> twp anything (drain_pass options queues) (mkHolds [] [] 0 queues) loop_end.
Proof using DurableStoreLaws0 W.
  intros Hnd. unfold drain_pass. apply engine_twp_bind, twp_gets; [done|]. intros headroom.
  case_decide; [by apply twp_finish_all|]. set (requests := _ <$> queues).
  apply engine_twp_bind, twp_reserve; [done|intros err; by apply twp_finish_all|]. intros permits Hq.
  assert (Hfor : Forall (fun r => rd_queue_name r ∈ queues) permits).
  { eapply Forall_impl; [exact Hq|]. intros r Hr. unfold requests in Hr. by rewrite <-list_fmap_compose, list_fmap_id in Hr. }
  assert (Hend : forall h1 h2 r, same_holds h1 h2 -> loop_end h1 r -> loop_end h2 r).
  { intros h1 [rs hs n ts] r (H1 & H2 & H3 & H4) [-> ->]. split; [|done]. simpl in *.
    apply Permutation_nil in H1, H2, H4. by subst. }
  apply engine_twp_bind. assert (Hempty : all_held (P := P) ∅ = []) by (unfold all_held; by rewrite map_to_list_empty).
  replace (mkHolds permits [] 0 queues) with (mkHolds permits (all_held ∅) 0 queues) by (by rewrite Hempty).
  apply (twp_take_all queues permits ∅); [by intros q ps Hps%lookup_empty_Some|done| |].
  - intros h1 h2 [m|e] Hs; [|by apply Hend]. apply twp_same; [done|done|done].
  - intros m Hm. apply engine_twp_bind, twp_drain_queues; [done|done| |].
    + intros h1 h2 [a|e] Hs; [|by apply Hend]. by apply twp_same.
    + rewrite map_to_list_empty. by apply (engine_twp_drop _ 0).
Qed.

(** ** The engine *)

Definition loop_ok (l : option (task eng unit)) h : Prop :=
  match l with None => h = nothing | Some p => twp anything p h loop_end end.
Definition delivery_ok' (wp : DeliveryWork P * task eng unit) h : Prop := twp (delivery_holds wp.1) wp.2 h task_end.
Definition other_ok (p : task eng unit) : Prop := twp (eq nothing) p nothing task_end.

(** Every task goes on well from what it holds, and the accounts balance. *)
Definition tasks_ok (st : engine_state) : Prop := exists hl hs,
  loop_ok (es_loop st) hl /\ Forall2 delivery_ok' (es_deliveries st) hs /\ Forall other_ok (es_others st) /\
  engine_ok (together hl (all_together hs)) (c_db (es_conn st)).

(** A step of a task, whatever the others hold *)
Lemma advance_ok I (p : task eng unit) h frame c p' c' Q :
  twp I p h Q -> engine_ok (together h frame) (c_db c) -> advance p c = Some (p', c') ->
  exists h', twp I p' h' Q /\ engine_ok (together h' frame) (c_db c').
Proof using Type.
  destruct p as [r|B m k]; [done|]. intros [_ Hs] Hok Hadv. simpl in Hadv. specialize (Hs frame c Hok). unfold wp in Hs.
  destruct (m c) as [r c1]. simplify_eq. destruct Hs as (h' & Hok' & Hp). by exists h'.
Qed.

(** The turns of the queues that were received belong to the pass. *)
Lemma tokens_ok_receive e taken rest queues turns :
  tokens_ok (world_of e turns) -> sc_tx (e_sched e) = taken ++ rest -> queues ≡ₚ remove_dups taken ->
  tokens_ok (world_of (receive rest e) (queues ++ turns)).
Proof using Type.
  intros Ht Htx Hq. unfold world_of in *.
  assert (NoDup taken) as Hnd.
  { pose proof (tk_NoDup _ Ht) as Hnd. unfold tokens in Hnd. simpl in Hnd. rewrite Htx in Hnd.
    by apply NoDup_app in Hnd as [[? _]%NoDup_app _]. }
  apply (tokens_ok_same (mkWorld (e_sched e) turns)); [done| |done]. unfold tokens. simpl.
  rewrite Htx, Hq, remove_dups_perm by done. rewrite <-!app_assoc. by rewrite Permutation_app_swap_app.
Qed.

Lemma engine_ok_receive taken rest queues e frame :
  engine_ok frame e -> sc_tx (e_sched e) = taken ++ rest -> queues ≡ₚ remove_dups taken ->
  engine_ok (together (mkHolds [] [] 0 queues) frame) (receive rest e).
Proof using Type.
  intros [Hd Hb Ho Hw Ht] Htx Hq. split; try done. by apply (tokens_ok_receive e taken).
Qed.

Lemma engine_step_ok st st' : engine_step st st' -> tasks_ok st -> tasks_ok st'.
Proof using DurableStoreLaws0 W.
  intros Hs (hl & hs & Hl & Hds & Hos & Hok). destruct Hs as [taken rest queues c ds os _ Htx Hq|now c ds os|c ds os
    |p p' c c' ds os Hadv|c ds os|work rest c l ds os He|work p p' c c' l ds1 ds2 os Hadv|event c l ds os|job c l ds os
    |id c l ds os|p p' c c' l ds os1 os2 Hadv|q delay s1 s2 c l ds os Hsl|d c l ds os Hd Ho|s c l ds os];
    cbn [es_loop es_deliveries es_others es_conn loop_ok] in *.
  - subst hl. rewrite together_nothing in Hok. exists (mkHolds [] [] 0 queues), hs. split_and!; try done.
    + apply twp_drain_pass. rewrite Hq. apply NoDup_remove_dups.
    + by apply (engine_ok_receive taken).
  - subst hl. exists nothing, hs. split_and!; try done. apply twp_recovery.
  - subst hl. exists nothing, hs. split_and!; try done. apply twp_probe.
  - destruct (advance_ok _ _ _ _ _ _ _ _ Hl Hok Hadv) as (h' & Hp' & Hok'). exists h', hs. by split_and!.
  - destruct Hl as [-> _]. exists nothing, hs. by split_and!.
  - exists hl, (mkHolds [] [dw_permit work] 0 [] :: hs).
    assert (Hj : is_Some (job_dispatch_id (dw_job work)) /\ Forall (fun w => is_Some (job_dispatch_id (dw_job w))) rest).
    { pose proof (eo_works _ _ Hok) as Hw. rewrite He in Hw. by apply Forall_cons in Hw. }
    split_and!; try done.
    + constructor; [|done]. apply twp_deliver, Hj.
    + cbn [all_together]. generalize dependent (all_together hs). intros frame Hok.
      eapply engine_ok_same; [apply together_swap|]. destruct Hok as [Hd Hb Ho _ Ht]. rewrite He in *.
      split; [done| | |apply Hj|done].
      * simpl in *. lia.
      * intros p. specialize (Ho p). unfold permits_of in *. slots p.
  - apply Forall2_app_inv_l in Hds as (hs1 & hs' & Hds1 & Hds2 & ->).
    apply Forall2_cons_inv_l in Hds2 as (h & hs2 & Hp & Hds2 & ->).
    assert (Hfocus : forall h, same_holds (together hl (all_together (hs1 ++ h :: hs2)))
      (together h (together hl (all_together (hs1 ++ hs2))))).
    { intros h0. eapply same_holds_trans; [apply together_mono, all_together_focus|apply together_swap]. }
    eapply engine_ok_same in Hok; [|apply Hfocus].
    destruct (advance_ok _ _ _ _ _ _ _ _ Hp Hok Hadv) as (h' & Hp' & Hok'). exists hl, (hs1 ++ h' :: hs2).
    split_and!; try done; [by apply Forall2_app; [|constructor]|].
    eapply engine_ok_same; [apply same_holds_sym, Hfocus|done].
  - exists hl, hs. split_and!; try done. constructor; [apply twp_on_event|]. apply Forall_app. split; [|done].
    destruct event; simpl; [constructor|]. apply Forall_singleton, twp_completion.
  - exists hl, hs. split_and!; try done. constructor; [apply twp_submit|done].
  - exists hl, hs. split_and!; try done. constructor; [apply twp_get_job|done].
  - apply Forall_app in Hos as [Hos1 Hos2]. apply Forall_cons in Hos2 as [Hp Hos2].
    assert (Hp' : other_ok p' /\ engine_ok (together hl (all_together hs)) (c_db c')).
    { destruct p as [r|B m k]; [done|]. destruct Hp as [_ Hp]. simpl in Hadv.
      specialize (Hp (together hl (all_together hs)) c). rewrite together_nothing in Hp. specialize (Hp Hok). unfold wp in Hp.
      destruct (m c) as [r c1]. simplify_eq. destruct Hp as (h' & Hok' & Hp').
      cbn [fst snd] in *. assert (h' = nothing) as ->.
      { destruct (k r); [exact Hp'|by destruct Hp' as [<- _]]. }
      by rewrite together_nothing in Hok'. }
    exists hl, hs. split_and!; try done; [|apply Hp']. apply Forall_app. split; [done|]. constructor; [apply Hp'|done].
  - exists hl, hs. split_and!; try done. destruct Hok as [? ? ? ? Ht]. split; try done. unfold world_of in Ht.
    simpl in *. destruct (e_sched (c_db c)) as [sts tx sl]. simpl in *. subst sl.
    eapply sched_step_tokens; [|exact Ht]. apply (ss_wake 0%nat q delay).
  - exists hl, hs. split_and!; try done. destruct Hok as [Hd0 Hb Ho0 Hw Ht]. split; try done.
    intros p. specialize (Ho p). specialize (Ho0 p). slots p.
  - exists hl, hs. split_and!; try done. by destruct Hok.
Qed.

Lemma engine_start_ok n s d :
  wd_ok d -> (forall p, wd_outstanding d p = 0%nat) -> 0 <= max_delivery_in_flight options -> tasks_ok (engine_start n s d).
Proof using Type.
  intros Hd Ho Hm. exists nothing, []. split_and!; [apply twp_seed|constructor|constructor|].
  split; simpl; [done|lia| |done|apply initial_tokens_ok]. intros p. rewrite Ho. lia.
Qed.

Lemma engine_reachable_ok n s d st :
  wd_ok d -> (forall p, wd_outstanding d p = 0%nat) -> 0 <= max_delivery_in_flight options ->
  rtc engine_step (engine_start n s d) st -> tasks_ok st.
Proof using DurableStoreLaws0 W.
  intros Hd Ho Hm Hs. pose proof (engine_start_ok n s d Hd Ho Hm) as H0. revert H0.
  induction Hs as [|st1 st2 st3 H1 _ IH]; [done|]. intros H0. by apply IH, (engine_step_ok st1).
Qed.

(** What the deliveries hold together: a permit of the budget each, while they are in flight *)
Lemma deliveries_hold ds hs :
  Forall2 delivery_ok' ds hs ->
  (length (h_held (all_together hs)) + h_freed (all_together hs))%nat =
    length (filter (fun wp : DeliveryWork P * task eng unit => working wp.2 = true) ds) /\
  (forall p, count p (rd_permit <$> h_held (all_together hs)) <=
     count p (permits_of (filter (fun wp : DeliveryWork P * task eng unit => working wp.2 = true) ds).*1))%nat /\
  h_reserved (all_together hs) = [] /\ h_turns (all_together hs) = [].
Proof using Type.
  induction 1 as [|[work p] h ds hs Hp _ (IH1 & IH2 & IH3 & IH4)]; [done|].
  cbn [all_together together h_reserved h_held h_freed h_turns]. rewrite filter_cons. unfold delivery_ok' in Hp.
  cbn [fst snd] in *. destruct p as [r|B m k]; cbn [working] in *.
  - simpl in Hp. unfold task_end in Hp. subst h. rewrite decide_False by done. by rewrite IH3, IH4.
  - destruct Hp as [Hh _]. rewrite decide_True by done. rewrite fmap_cons. rewrite IH3, IH4.
    split_and!; [destruct Hh as [-> | ->]; cbn [h_held h_freed length app]; lia| |by destruct Hh as [-> | ->]..].
    intros q. specialize (IH2 q). unfold permits_of in *.
    destruct Hh as [-> | ->]; cbn [h_held app]; rewrite ?fmap_cons, ?count_cons; cbn [fst]; repeat case_decide; lia.
Qed.

(** *** A pass that nothing disturbs *)

Lemma wp_pass taken rest queues c ds os :
  tasks_ok (mkEngineState c None ds os) -> sc_tx (e_sched (c_db c)) = taken ++ rest -> queues ≡ₚ remove_dups taken ->
  wp (run (drain_pass options queues)) (fun r c' => r = Ok tt /\ tokens_ok (world_of (c_db c') []) /\ exists works,
    e_delivery (c_db c') = e_delivery (c_db c) ++ works /\ Forall (delivery_ok taken) works /\
    (e_budget (c_db c') + length works = e_budget (c_db c))%nat /\
    claims_run taken (e_store (c_db c)) (dw_job <$> works) (e_store (c_db c'))) (on_db (receive rest) c).
Proof using DurableStoreLaws0 W.
  intros (hl & hs & Hl & Hds & _ & [Hd Hb Ho Hw Ht]) Htx Hq. simpl in Hl. subst hl. rewrite together_nothing in *.
  cbn [es_deliveries es_conn] in *. destruct (deliveries_hold _ _ Hds) as (_ & _ & _ & Hturns). rewrite Hturns in Ht.
  pose proof (tokens_ok_receive _ _ _ _ _ Ht Htx Hq) as Ht'. rewrite app_nil_r in Ht'.
  eapply wp_mono; [apply (wp_drain_pass options); simpl; [done|lia|exact Ht']|].
  intros r c' (-> & works & [Hd' Hb' He' Ho'] & Hworks & Htok & Hcl). simpl in *.
  split; [done|]. split; [done|]. exists works. split_and!; [done| |lia|].
  - eapply Forall_impl; [exact Hworks|]. intros w [Hn ?]. split; [|done]. by rewrite Hq, elem_of_remove_dups in Hn.
  - eapply claims_run_queues; [|exact Hcl]. intros q Hin. by rewrite Hq, elem_of_remove_dups in Hin.
Qed.

(** *** Tasks come to their end *)

(** The steps of a task are steps of the engine, in its place among the others ([in_place]). *)
Lemma task_steps (in_place : task eng unit -> conn eng -> engine_state) p c p' c' :
  (forall p c p' c', advance p c = Some (p', c') -> engine_step (in_place p c) (in_place p' c')) ->
  rtc (fun x y : task eng unit * conn eng => advance x.1 x.2 = Some y) (p, c) (p', c') ->
  rtc engine_step (in_place p c) (in_place p' c').
Proof using Type.
  intros Hstep Hs. remember (p, c) as x eqn:Ex. remember (p', c') as y eqn:Ey. revert p c Ex.
  induction Hs as [x|x [p1 c1] z Hadv _ IH]; intros p c ->; [by simplify_eq; apply rtc_refl|].
  eapply rtc_l; [by apply Hstep|]. by apply IH.
Qed.

Lemma loop_steps p c p' c' ds os :
  rtc (fun x y : task eng unit * conn eng => advance x.1 x.2 = Some y) (p, c) (p', c') ->
  rtc engine_step (mkEngineState c (Some p) ds os) (mkEngineState c' (Some p') ds os).
Proof using Type. apply (task_steps (fun p c => mkEngineState c (Some p) ds os)). intros. by apply es_loop_step. Qed.

Lemma delivery_steps work p c p' c' l ds1 ds2 os :
  rtc (fun x y : task eng unit * conn eng => advance x.1 x.2 = Some y) (p, c) (p', c') ->
  rtc engine_step (mkEngineState c l (ds1 ++ (work, p) :: ds2) os) (mkEngineState c' l (ds1 ++ (work, p') :: ds2) os).
Proof using Type.
  apply (task_steps (fun p c => mkEngineState c l (ds1 ++ (work, p) :: ds2) os)). intros. by apply es_delivery_step.
Qed.

Lemma other_steps p c p' c' l ds os1 os2 :
  rtc (fun x y : task eng unit * conn eng => advance x.1 x.2 = Some y) (p, c) (p', c') ->
  rtc engine_step (mkEngineState c l ds (os1 ++ p :: os2)) (mkEngineState c' l ds (os1 ++ p' :: os2)).
Proof using Type.
  apply (task_steps (fun p c => mkEngineState c l ds (os1 ++ p :: os2))). intros. by apply es_other_step.
Qed.

(** Tasks that run to their end *)
Lemma loop_runs (p : task eng unit) c c' ds os :
  run p c = (Ok tt, c') -> rtc engine_step (mkEngineState c (Some p) ds os) (mkEngineState c' None ds os).
Proof using Type.
  intros Hrun. destruct (run_steps p c) as (r & Hs & Hr). rewrite Hrun in Hs, Hr. simpl in Hr. subst r.
  eapply rtc_r; [exact (loop_steps _ _ _ _ ds os Hs)|]. apply es_loop_done.
Qed.

Lemma other_runs (p : task eng unit) c c' l ds os :
  run p c = (Ok tt, c') ->
  rtc engine_step (mkEngineState c l ds (p :: os)) (mkEngineState c' l ds (Returned (Ok tt) :: os)).
Proof using Type.
  intros Hrun. destruct (run_steps p c) as (r & Hs & Hr). rewrite Hrun in Hs, Hr. simpl in Hr. subst r.
  exact (other_steps _ _ _ _ l ds [] os Hs).
Qed.

Lemma engine_tasks_run_ok st st' : rtc engine_step st st' -> tasks_ok st -> tasks_ok st'.
Proof using DurableStoreLaws0 W. induction 1 as [|x y z Hs _ IH]; [done|]. intros Hok. by apply IH, (engine_step_ok x). Qed.

(** The scheduler task never dies. *)
Lemma loop_returns_ok st r : tasks_ok st -> es_loop st = Some (Returned r) -> r = Ok tt.
Proof using Type. intros (hl & hs & Hl & _) He. rewrite He in Hl. apply Hl. Qed.

Lemma finish_loop c l ds os :
  tasks_ok (mkEngineState c l ds os) ->
  exists c', rtc engine_step (mkEngineState c l ds os) (mkEngineState c' None ds os).
Proof using DurableStoreLaws0 W.
  intros Hok. destruct l as [p|]; [|exists c; apply rtc_refl].
  destruct (run_steps p c) as (r & Hs & _). pose proof (loop_steps p c _ _ ds os Hs) as Hrun.
  pose proof (engine_tasks_run_ok _ _ Hrun Hok) as Hok'. pose proof (loop_returns_ok _ r Hok' eq_refl) as ->.
  eexists. eapply rtc_r; [exact Hrun|]. apply es_loop_done.
Qed.

Lemma finish_deliveries c l ds1 ds os :
  filter (fun wp : DeliveryWork P * task eng unit => working wp.2 = true) ds1 = [] ->
  exists c' ds', rtc engine_step (mkEngineState c l (ds1 ++ ds) os) (mkEngineState c' l ds' os) /\
    filter (fun wp : DeliveryWork P * task eng unit => working wp.2 = true) ds' = [].
Proof using Type.
  revert c ds1. induction ds as [|[work p] ds IH]; intros c ds1 H1.
  { exists c, ds1. split; [rewrite app_nil_r; apply rtc_refl|done]. }
  destruct (run_steps p c) as (r & Hs & _). pose proof (delivery_steps work p c _ _ l ds1 ds os Hs) as Hrun.
  destruct (IH (run p c).2 (ds1 ++ [(work, Returned r)])) as (c' & ds' & Hrest & Hf).
  { rewrite filter_app, H1. done. }
  rewrite <-app_assoc in Hrest. exists c', ds'. split; [|done]. by etrans.
Qed.

(** A delivery sends nothing on the channel. *)
Lemma wp_deliver_channel work c :
  wp (run (deliver work)) (fun _ c' => e_delivery (c_db c') = e_delivery (c_db c)) c.
Proof using Type.
  unfold deliver. run_rule. run_rule. unfold wp at 1, dispatch_job. destruct (wd_dispatch _ _ _) as [res d]. cbn [fst snd].
  run_rule.
  assert (Hend : forall c2, e_delivery (c_db c2) = e_delivery (c_db c) ->
    wp (run (_ ← engine_schedule_queue (job_name (dw_job work)); drop_budget 1))
      (fun _ c' => e_delivery (c_db c') = e_delivery (c_db c)) c2).
  { intros c2 E2. run_rule. unfold engine_schedule_queue, drop_budget. run_rule. apply wp_modify. run_rule. by apply wp_modify. }
  destruct (is_ok res); [run_rule; by apply Hend|]. unfold release_job.
  destruct (job_dispatch_id (dw_job work)); [|run_rule; by apply Hend].
  run_rule. apply wp_run_call_store. intros r0 s0 n0. run_rule. by apply Hend.
Qed.

Lemma pump_all c l ds os works :
  e_delivery (c_db c) = works -> filter (fun wp : DeliveryWork P * task eng unit => working wp.2 = true) ds = [] ->
  exists c' ds', rtc engine_step (mkEngineState c l ds os) (mkEngineState c' l ds' os) /\
    e_delivery (c_db c') = [] /\ filter (fun wp : DeliveryWork P * task eng unit => working wp.2 = true) ds' = [].
Proof using Type.
  revert c ds. induction works as [|work works IH]; intros c ds He Hf; [by exists c, ds; split; [apply rtc_refl|]|].
  set (c1 := on_db (set_delivery works) c). destruct (run_steps (deliver work) c1) as (r & Hs & _).
  pose proof (wp_deliver_channel work c1) as Hch. unfold wp in Hch.
  destruct (IH (run (deliver work) c1).2 ((work, Returned r) :: ds)) as (c' & ds' & Hrest & He' & Hf'); [done|by rewrite filter_cons_False|].
  exists c', ds'. split; [|done]. eapply rtc_l; [by apply es_pump|]. etrans; [|exact Hrest].
  exact (delivery_steps work _ _ _ _ l [] ds os Hs).
Qed.
End steps.
Arguments mkEngineState {S D P}.
Arguments es_conn {S D P}.
Arguments es_loop {S D P}.
Arguments es_deliveries {S D P}.
Arguments es_others {S D P}.

(** ** Properties *)

(** C17. The engine's accounts balance in every state its tasks can reach together, with passes
    interrupted at each of their awaits and deliveries in flight: the free permits of the delivery
    budget, the queued deliveries, the deliveries in flight and the permits the pass at work holds make
    up [max_delivery_in_flight], so the channel never overflows and no permit is lost; a slot of a worker
    is reserved only for a delivery that waits or is in flight or for the pass at work; and each
    scheduled queue has exactly one turn, on the channel, with a sleeping retry or in the pass. Between
    two passes the scheduler task holds nothing. *)
Theorem engine_accounts_balance `{Env} {S D P V} `{!DurableStore S, !DurableStoreLaws S, !EqDecision P,
    !WorkerDispatcher D P} `{W : !WorkerDispatcherLaws D P} options (to_vec : V -> result string bytes) n s d st :
  wd_ok d -> (forall p, wd_outstanding d p = 0%nat) -> 0 <= max_delivery_in_flight options ->
  rtc (engine_step options to_vec) (engine_start options n s d) st ->
  let e := c_db (es_conn st) in
  exists reserved held freed turns,
    (es_loop st = None -> reserved = [] /\ held = [] /\ freed = 0%nat /\ turns = []) /\
    Z.of_nat (e_budget e + length (e_delivery e) + length (in_flight st) + (length held + freed)) =
      max_delivery_in_flight options /\
    (forall p, (wd_outstanding (e_disp e) p <= count p (permits_of (e_delivery e)) +
       count p (permits_of (in_flight st)) + count p (rd_permit <$> reserved ++ held))%nat) /\
    NoDup (sc_tx (e_sched e) ++ turns ++ (sc_sleeping (e_sched e)).*1) /\
    (forall q, q ∈ sc_tx (e_sched e) ++ turns ++ (sc_sleeping (e_sched e)).*1 <-> q ∈ dom (scheduled (sc_state (e_sched e)))).
Proof.
  intros Hd Ho Hm Hs e.
  destruct (engine_reachable_ok options to_vec n s d st Hd Ho Hm Hs) as (hl & hs & Hl & Hds & _ & [_ Hb Ho' _ [Hnd Ht]]).
  destruct (deliveries_hold _ _ _ Hds) as (Hn & Hc & Hres & Htu). unfold tokens in Hnd, Ht. simpl in Hnd, Ht, Hb.
  rewrite Htu, app_nil_r in Hnd, Ht. exists (h_reserved hl), (h_held hl), (h_freed hl), (h_turns hl).
  fold e in Hb, Ho', Hnd, Ht. split_and!; [|..|done|done].
  - intros He. rewrite He in Hl. simpl in Hl. by subst hl.
  - unfold in_flight. rewrite length_fmap, length_app in *. lia.
  - intros p. specialize (Ho' p). specialize (Hc p). simpl in Ho'. rewrite Hres, app_nil_r in Ho'.
    fold (in_flight st) in Hc. rewrite fmap_app, count_app in *. lia.
Qed.

(** C18. A pass never panics and never blocks: whatever deliveries are in flight when it starts, it
    returns after finishing each of its queues, so the queues of the channel and of the sleeping retries
    are again all the scheduled ones; all it does to the store is to claim jobs of its queues, and it
    queues exactly the jobs these claims hand out, in order, each with a dispatch id, and takes exactly
    one permit of the budget for each. *)
Theorem pass_always_completes `{Env} {S D P V} `{!DurableStore S, !DurableStoreLaws S, !EqDecision P,
    !WorkerDispatcher D P} `{W : !WorkerDispatcherLaws D P} options (to_vec : V -> result string bytes)
    n s d st taken rest queues r c' :
  wd_ok d -> (forall p, wd_outstanding d p = 0%nat) -> 0 <= max_delivery_in_flight options ->
  rtc (engine_step options to_vec) (engine_start options n s d) st -> es_loop st = None ->
  let c := es_conn st in
  sc_tx (e_sched (c_db c)) = taken ++ rest -> queues ≡ₚ remove_dups taken ->
  run (drain_pass options queues) (on_db (receive rest) c) = (r, c') ->
  r = Ok tt /\ tokens_ok (world_of (c_db c') []) /\ exists works,
    e_delivery (c_db c') = e_delivery (c_db c) ++ works /\
    (e_budget (c_db c') + length works = e_budget (c_db c))%nat /\
    Forall (fun w => job_name (dw_job w) ∈ taken /\ is_Some (job_dispatch_id (dw_job w))) works /\
    claims_run taken (e_store (c_db c)) (dw_job <$> works) (e_store (c_db c')).
Proof.
  intros Hd Ho Hm Hs Hnone c Htx Hq Hrun.
  pose proof (engine_reachable_ok options to_vec n s d st Hd Ho Hm Hs) as Hok.
  destruct st as [c0 l ds os]. simpl in *. subst l c.
  destruct (wp_run _ _ _ _ _ (wp_pass options taken rest queues c0 ds os Hok Htx Hq) Hrun) as (-> & Ht & works & He & Hw & Hb & Hcl).
  split; [done|]. split; [done|]. by exists works.
Qed.


(** Options that validate give every queue of a pass a share of the delivery budget of at least
    one job and at most one claim batch, and the shares fit the budget when there is a permit for
    each queue; options that do not validate are refused with a message that names the option. *)
Theorem valid_options_bound_the_shares options headroom queue_count :
  0 <= batch_size_max options ->
  (DispatchOptions_validate options = Ok tt <->
     1 <= batch_size_max options <= MAX_CLAIM_BATCH_SIZE /\ max_delivery_in_flight options <> 0 /\
     idle_probe_interval options <> 0 /\ idle_probe_batch_size options <> 0) /\
  (DispatchOptions_validate options = Ok tt ->
     (1 <= per_queue options headroom queue_count)%nat /\
     Z.of_nat (per_queue options headroom queue_count) <= MAX_CLAIM_BATCH_SIZE /\
     (queue_count <= headroom -> per_queue options headroom queue_count * queue_count <= headroom)%nat).
Proof.
  intros H0.
  assert (DispatchOptions_validate options = Ok tt <->
     1 <= batch_size_max options <= MAX_CLAIM_BATCH_SIZE /\ max_delivery_in_flight options <> 0 /\
     idle_probe_interval options <> 0 /\ idle_probe_batch_size options <> 0) as Hv.
  { unfold DispatchOptions_validate. repeat case_decide; split; try done; try lia. }
  split; [done|]. intros ((Hb & Hmax) & _)%Hv. unfold per_queue. unfold MAX_CLAIM_BATCH_SIZE in *.
  split_and!; [generalize (headroom / Nat.max queue_count 1)%nat; lia..|]. intros Hle. destruct queue_count as [|k]; [lia|].
  replace (Nat.max (Datatypes.S k) 1) with (Datatypes.S k) by lia.
  pose proof (Nat.Div0.mul_div_le headroom (Datatypes.S k)).
  assert (1 <= headroom / Datatypes.S k)%nat by (apply Nat.div_le_lower_bound; lia).
  etrans; [|done]. rewrite Nat.mul_comm. apply Nat.mul_le_mono_l. lia.
Qed.

Lemma valid_options_bound_the_shares_witness :
  (per_queue DispatchOptions_default 100 3 * 3 <= 100)%nat.
Proof.
  destruct (valid_options_bound_the_shares DispatchOptions_default 100 3) as [_ H]; [simpl; lia|].
  apply H; [vm_compute; reflexivity|lia].
Defined.
