(* ===== verification/Registry.v ===== *)
(** * The worker registry

    [crates/dispatcher/src/lib.rs]: the workers that are connected, [RegistryDispatcher] over them
    and the session of a worker. Every block that holds the lock of the registry is one definition;
    [system_step] interleaves them. The socket is an oracle: which writes succeed is a list in the
    state. The supervisor of the containers is in [Supervisor]; TLS is not modelled. *)
From S2P Require Import Prelude Types Db Interfaces Scheduler Engine Protocol.

(** [mpsc::UnboundedSender<OutboundFrame>]: whether the writer task still receives, and the frames
    sent so far *)
Record Outbound := mkOutbound { ob_open : bool; ob_frames : list WireFrame }.

(** [outbound.send(..).is_ok()] *)
Definition send (frame : WireFrame) (o : Outbound) : bool * Outbound :=
  if ob_open o then (true, mkOutbound true (ob_frames o ++ [frame])) else (false, o).

Record WorkerState := mkWorker {
  ws_queue_name : string;
  ws_capacity_slots : Z;
  ws_running_jobs : Z;
  ws_free_slots : Z;
  ws_last_activity : Z;
  ws_reserved_slots : Z;
  ws_in_flight_dispatches : gset string;
  ws_draining : bool;
  ws_outbound : Outbound
}.

Definition set_reserved (n : Z) (w : WorkerState) : WorkerState :=
  mkWorker (ws_queue_name w) (ws_capacity_slots w) (ws_running_jobs w) (ws_free_slots w)
    (ws_last_activity w) n (ws_in_flight_dispatches w) (ws_draining w) (ws_outbound w).
Definition set_in_flight (s : gset string) (w : WorkerState) : WorkerState :=
  mkWorker (ws_queue_name w) (ws_capacity_slots w) (ws_running_jobs w) (ws_free_slots w)
    (ws_last_activity w) (ws_reserved_slots w) s (ws_draining w) (ws_outbound w).
Definition set_outbound (o : Outbound) (w : WorkerState) : WorkerState :=
  mkWorker (ws_queue_name w) (ws_capacity_slots w) (ws_running_jobs w) (ws_free_slots w)
    (ws_last_activity w) (ws_reserved_slots w) (ws_in_flight_dispatches w) (ws_draining w) o.
Definition set_last_activity (now : Z) (w : WorkerState) : WorkerState :=
  mkWorker (ws_queue_name w) (ws_capacity_slots w) (ws_running_jobs w) (ws_free_slots w)
    now (ws_reserved_slots w) (ws_in_flight_dispatches w) (ws_draining w) (ws_outbound w).

(** The values of [u32] *)
Definition is_u32 (x : Z) : Prop := 0 <= x <= u32_max.

(** [WorkerRegistry]: the map, the events broadcast so far, and the outcomes of the coming writes *)
Record WorkerRegistry := mkRegistry {
  reg_workers : gmap Z WorkerState;
  reg_events : list WorkerEvent;
  reg_writes : list bool
}.

Definition set_workers (ws : gmap Z WorkerState) (r : WorkerRegistry) : WorkerRegistry :=
  mkRegistry ws (reg_events r) (reg_writes r).
Definition set_worker (id : Z) (w : WorkerState) (r : WorkerRegistry) : WorkerRegistry :=
  set_workers (<[id := w]> (reg_workers r)) r.
Definition broadcast (e : WorkerEvent) (r : WorkerRegistry) : WorkerRegistry :=
  mkRegistry (reg_workers r) (reg_events r ++ [e]) (reg_writes r).

(** [ack_rx.await]: whether the next write reaches the socket *)
Definition await_ack (r : WorkerRegistry) : bool * WorkerRegistry :=
  match reg_writes r with
  | [] => (true, r)
  | ok :: oks => (ok, mkRegistry (reg_workers r) (reg_events r) oks)
  end.

(** ** Choosing a worker *)

Definition used_slots (w : WorkerState) : Z :=
  let in_flight := Z.min u32_max (Z.of_nat (size (ws_in_flight_dispatches w))) in
  u32_saturating_add (ws_reserved_slots w) (Z.max (ws_running_jobs w) in_flight).

Definition available_slots (w : WorkerState) : Z := u32_saturating_sub (ws_capacity_slots w) (used_slots w).

(** [u64] multiplication wraps in a release build. *)
Definition u64_mul (a b : Z) : Z := (a * b) mod 2 ^ 64.

Definition compare_load (left right : WorkerState) : comparison :=
  let left_scaled := u64_mul (used_slots left) (Z.max (ws_capacity_slots right) 1) in
  let right_scaled := u64_mul (used_slots right) (Z.max (ws_capacity_slots left) 1) in
  Z.compare left_scaled right_scaled.

Definition eligible (queue_name : string) (w : WorkerState) : bool :=
  negb (ws_draining w) && bool_decide (ws_queue_name w = queue_name) && (0 <? available_slots w).

Definition ideal_step (queue_name : string) (best : option (Z * WorkerState)) (x : Z * WorkerState) :
    option (Z * WorkerState) :=
  if eligible queue_name x.2 then
    match best with
    | None => Some x
    | Some current =>
        match compare_load x.2 current.2 with
        | Lt => Some x
        | Eq => if x.1 <? current.1 then Some x else best
        | Gt => best
        end
    end
  else best.

(** The loop of [find_ideal_worker] over the workers in some order of the hash map *)
Definition find_ideal_in (workers : list (Z * WorkerState)) (queue_name : string) : option (Z * WorkerState) :=
  foldl (ideal_step queue_name) None workers.

(** The order does not matter ([find_ideal_worker_least]), so one is fixed. *)
Definition find_ideal_worker (workers : gmap Z WorkerState) (queue_name : string) : option (Z * WorkerState) :=
  find_ideal_in (map_to_list workers) queue_name.

(** ** [RegistryDispatcher] *)

Fixpoint reserve_queue (count : nat) (queue_name : string) (r : WorkerRegistry) :
    list (ReservedDispatch Z) * WorkerRegistry :=
  match count with
  | O => ([], r)
  | S count =>
      match find_ideal_worker (reg_workers r) queue_name with
      | None => ([], r)
      | Some (worker_id, state) =>
          let state := set_reserved (u32_saturating_add (ws_reserved_slots state) 1) state in
          let out := reserve_queue count queue_name (set_worker worker_id state r) in
          (mkReservedDispatch queue_name worker_id :: out.1, out.2)
      end
  end.

Fixpoint reserve_all (queues : list QueueReservation) (r : WorkerRegistry) :
    list (ReservedDispatch Z) * WorkerRegistry :=
  match queues with
  | [] => ([], r)
  | request :: queues =>
      let first := reserve_queue (qres_count request) (qres_queue_name request) r in
      let out := reserve_all queues first.2 in
      (first.1 ++ out.1, out.2)
  end.

Definition reserve (queues : list QueueReservation) (r : WorkerRegistry) :
    result DispatchError (list (ReservedDispatch Z)) * WorkerRegistry :=
  let out := reserve_all queues r in (Ok out.1, out.2).

Definition dispatch_frame (dispatch_id : string) (job : Job) : WireFrame :=
  v1 (JobDispatch (job_id job) dispatch_id (job_execution_count job) (job_payload job)).

(** The block of [dispatch] that holds the lock: whether the frame was queued *)
Definition dispatch_queue (worker_id : Z) (dispatch_id : string) (job : Job) (r : WorkerRegistry) :
    result DispatchError bool * WorkerRegistry :=
  match reg_workers r !! worker_id with
  | None => (Err (DispatchInternal "reserved worker disappeared"), r)
  | Some worker =>
      let released := set_reserved (u32_saturating_sub (ws_reserved_slots worker) 1) worker in
      if ws_draining worker then (Err (DispatchInternal "worker is draining"), set_worker worker_id released r)
      else if decide (dispatch_id ∈ ws_in_flight_dispatches worker) then
        (Err (DispatchInternal "duplicate worker dispatch id"), set_worker worker_id released r)
      else
        let inserted := set_in_flight ({[dispatch_id]} ∪ ws_in_flight_dispatches released) released in
        let sent := send (dispatch_frame dispatch_id job) (ws_outbound inserted) in
        let worker := set_outbound sent.2 inserted in
        let worker :=
          if sent.1 then worker
          else set_in_flight (ws_in_flight_dispatches worker ∖ {[dispatch_id]}) worker in
        (Ok sent.1, set_worker worker_id worker r)
  end.

Definition release_dispatched (worker_id : Z) (dispatch_id : string) (r : WorkerRegistry) : WorkerRegistry :=
  match reg_workers r !! worker_id with
  | None => r
  | Some worker =>
      set_worker worker_id (set_in_flight (ws_in_flight_dispatches worker ∖ {[dispatch_id]}) worker) r
  end.

Definition release_permit (worker_id : Z) (r : WorkerRegistry) : WorkerRegistry :=
  match reg_workers r !! worker_id with
  | None => r
  | Some worker =>
      set_worker worker_id (set_reserved (u32_saturating_sub (ws_reserved_slots worker) 1) worker) r
  end.

(** What [dispatch] does once it knows whether the frame was written *)
Definition dispatch_finish (wrote : bool) (worker_id : Z) (dispatch_id : string) (r : WorkerRegistry) :
    result DispatchError unit * WorkerRegistry :=
  if wrote then (Ok tt, r)
  else (Err (DispatchInternal "worker dispatch write failed"), release_dispatched worker_id dispatch_id r).

Definition dispatch (permit : ReservedDispatch Z) (job : Job) (r : WorkerRegistry) :
    result DispatchError unit * WorkerRegistry :=
  match job_dispatch_id job with
  | None => (Err (DispatchInternal "claimed job has no dispatch id"), r)
  | Some dispatch_id =>
      match dispatch_queue (rd_permit permit) dispatch_id job r with
      | (Err e, r) => (Err e, r)
      | (Ok queued, r) =>
          let ack := if queued then await_ack r else (false, r) in
          dispatch_finish ack.1 (rd_permit permit) dispatch_id ack.2
      end
  end.

Definition release (permit : ReservedDispatch Z) (r : WorkerRegistry) : WorkerRegistry :=
  release_permit (rd_permit permit) r.

#[export] Instance RegistryDispatcher : WorkerDispatcher WorkerRegistry Z := {|
  wd_reserve := reserve; wd_dispatch := dispatch; wd_release := release |}.

(** ** The session of a worker *)

Definition record_worker_result (dispatch_id : string) (running_jobs free_slots : Z) (w : WorkerState) : WorkerState :=
  mkWorker (ws_queue_name w) (ws_capacity_slots w) running_jobs free_slots (ws_last_activity w)
    (ws_reserved_slots w) (ws_in_flight_dispatches w ∖ {[dispatch_id]}) (ws_draining w) (ws_outbound w).

Definition begin_drain (w : WorkerState) : result string unit * WorkerState :=
  let sent := send (v1 Draining) (ws_outbound w) in
  let w' := mkWorker (ws_queue_name w) (ws_capacity_slots w) (ws_running_jobs w) 0 (ws_last_activity w)
    (ws_reserved_slots w) (ws_in_flight_dispatches w) true sent.2 in
  (if sent.1 then Ok tt else Err "worker writer stopped during drain"%string, w').

(** [JobOutcome] of the result a worker sends *)
Definition job_outcome (r : JobResult) : JobOutcome :=
  match r with JSucceeded payload => Succeeded payload | JFailed message => OFailed message end.

(** The block of the read loop that holds the lock *)
Definition handle_frame (instance_id now : Z) (message : WorkerMessage) (r : WorkerRegistry) :
    result string (option WorkerEvent) * WorkerRegistry :=
  match reg_workers r !! instance_id with
  | None => (Err "worker disappeared"%string, r)
  | Some state =>
      let state := set_last_activity now state in
      match message with
      | JobResultMsg job_id dispatch_id result running_jobs free_slots =>
          let state := record_worker_result dispatch_id running_jobs free_slots state in
          (Ok (Some (EvResult (ws_queue_name state) (mkWorkerResult job_id dispatch_id (job_outcome result)))),
           set_worker instance_id state r)
      | Drain =>
          let drained := begin_drain state in
          (result_map (fun _ => None) drained.1, set_worker instance_id drained.2 r)
      | Heartbeat => (Ok None, set_worker instance_id state r)
      | _ => (Err "invalid post-registration worker frame"%string, set_worker instance_id state r)
      end
  end.

(** [read_frame] of the dispatcher *)
Definition read_frame (stream : bytes) `{Cbor} : result string (WireFrame * bytes) :=
  let protocol {A} (x : result ProtocolError A) := map_err (fun _ => "protocol error"%string) x in
  let? len := protocol (read_exact 4 stream) in
  let size := from_be_bytes len.1 in
  if decide (MAX_FRAME_BYTES < size) then Err "oversized worker frame"%string
  else
    let? body := protocol (read_exact (Z.to_nat size) len.2) in
    let? frame := protocol (decode_frame (len.1 ++ body.1)) in
    Ok (frame, body.2).

(** The read loop, on the bytes the worker sends before it closes or stalls; [now] is the clock of
    the first frame. The fuel is the length of the stream. *)
Fixpoint read_loop `{Cbor} (fuel : nat) (instance_id now : Z) (stream : bytes) (r : WorkerRegistry) :
    option (string * WorkerRegistry) :=
  match fuel with
  | O => None
  | S fuel =>
      match read_frame stream with
      | Err e => Some (e, r)
      | Ok (frame, stream) =>
          match handle_frame instance_id now (payload frame) r with
          | (Err e, r) => Some (e, r)
          | (Ok event, r) =>
              let r := match event with Some event => broadcast event r | None => r end in
              read_loop fuel instance_id (now + 1) stream r
          end
      end
  end.

(** The block of [handle_worker] that registers the worker *)
Definition register_worker (instance_id : Z) (queue_name : string) (running_jobs free_slots now : Z)
    (outbound : Outbound) (r : WorkerRegistry) : result string unit * WorkerRegistry :=
  match reg_workers r !! instance_id with
  | Some _ => (Err "duplicate worker instance"%string, r)
  | None =>
      (Ok tt, set_worker instance_id
        (mkWorker queue_name (u32_saturating_add running_jobs free_slots) running_jobs free_slots now 0 ∅
           false outbound) r)
  end.

(** The [Registered] frame [handle_worker] sends to the worker it has registered; the lock is not held
    between the two. *)
Definition greet (instance_id : Z) (queue_name : string) (r : WorkerRegistry) : WorkerRegistry :=
  set_workers (alter (fun w => set_outbound (send (v1 (Registered queue_name)) (ws_outbound w)).2 w) instance_id
    (reg_workers r)) r.

(** [registry.0.lock().await.remove(&instance_id)] *)
Definition remove_worker (instance_id : Z) (r : WorkerRegistry) : WorkerRegistry :=
  set_workers (delete instance_id (reg_workers r)) r.

Definition handle_worker `{Cbor} (fuel : nat) (allowed : gset string) (now : Z) (stream : bytes) (r : WorkerRegistry) :
    option (string * WorkerRegistry) :=
  match read_frame stream with
  | Err e => Some (e, r)
  | Ok (frame, stream) =>
      match payload frame with
      | Register instance_id queue_name running_jobs free_slots =>
          if decide (queue_name = ""%string \/ queue_name ∉ allowed) then Some ("unknown queue"%string, r)
          else
            match register_worker instance_id queue_name running_jobs free_slots now (mkOutbound true []) r with
            | (Err e, r) => Some (e, r)
            | (Ok _, r) =>
                (* the writer task is new: the send succeeds, the write may not *)
                let r := greet instance_id queue_name r in
                let ack := await_ack r in
                if ack.1 then
                  match read_loop fuel instance_id now stream (broadcast (EvRegistered queue_name) ack.2) with
                  | None => None
                  | Some (e, r) => Some (e, remove_worker instance_id r)
                  end
                else Some ("worker write failed"%string, ack.2)
            end
      | _ => Some ("first worker frame must register"%string, r)
      end
  end.

(** The task that writes the frames of a worker, which [dispatch] and the session wait for: it ends with
    the first frame that cannot be encoded or written, and nothing can be sent to the worker after. *)
Definition stop_writer (id : Z) (r : WorkerRegistry) : WorkerRegistry :=
  set_workers (alter (fun w => set_outbound (mkOutbound false (ob_frames (ws_outbound w))) w) id (reg_workers r)) r.

Definition writer_task `{Cbor} (id : Z) (frame : WireFrame) (r : WorkerRegistry) : bool * WorkerRegistry :=
  match encode_frame frame with
  | Err _ => (false, stop_writer id r)
  | Ok _ =>
      match await_ack r with
      | (true, r) => (true, r)
      | (false, r) => (false, stop_writer id r)
      end
  end.

(** [dispatch] with the writer task at work *)
Definition dispatch_through_writer `{Cbor} (permit : ReservedDispatch Z) (job : Job) (r : WorkerRegistry) :
    result DispatchError unit * WorkerRegistry :=
  match job_dispatch_id job with
  | None => (Err (DispatchInternal "claimed job has no dispatch id"), r)
  | Some dispatch_id =>
      match dispatch_queue (rd_permit permit) dispatch_id job r with
      | (Err e, r) => (Err e, r)
      | (Ok queued, r) =>
          let ack := if queued then writer_task (rd_permit permit) (dispatch_frame dispatch_id job) r else (false, r) in
          dispatch_finish ack.1 (rd_permit permit) dispatch_id ack.2
      end
  end.

(** [container_name] of the Docker supervisor *)
Definition is_ascii_alphanumeric (c : Ascii.ascii) : bool :=
  let n := Ascii.nat_of_ascii c in
  ((48 <=? n) && (n <=? 57) || (65 <=? n) && (n <=? 90) || (97 <=? n) && (n <=? 122))%nat.
(** The map over the characters of a UTF-8 string: a character has one byte that does not continue
    another. *)
Definition is_continuation (c : Ascii.ascii) : bool :=
  let n := Ascii.nat_of_ascii c in ((128 <=? n) && (n <? 192))%nat.
Fixpoint sanitize (s : string) : string :=
  match s with
  | EmptyString => EmptyString
  | String c s =>
      if is_continuation c then sanitize s else
      String (if is_ascii_alphanumeric c then c else Ascii.ascii_of_nat 45) (sanitize s)
  end.
Definition container_name (queue : string) (ordinal : Z) : string :=
  "maqistor-" +:+ sanitize queue +:+ "-" +:+ pretty ordinal.

(** ** Interleavings

    The tasks that share the registry, one step for each time one of them holds the lock. A permit is
    used once, by [dispatch] or by [release]; [sys_waiting] holds the dispatches between their two
    blocks, with whether the frame was queued. The worker picks a fresh instance id for each
    connection ([Uuid::new_v4] in [worker-sdk/src/lib.rs]). *)
Record system := mkSystem {
  sys_registry : WorkerRegistry;
  sys_permits : list Z;
  sys_waiting : list (Z * string * bool)
}.

(** The slots a frame carries are values of [u32]. *)
Definition message_u32 (message : WorkerMessage) : Prop :=
  match message with
  | Register _ _ running_jobs free_slots | JobResultMsg _ _ _ running_jobs free_slots =>
      is_u32 running_jobs /\ is_u32 free_slots
  | _ => True
  end.

Inductive system_step : system -> system -> Prop :=
| step_reserve queues r permits waiting ps r' :
    reserve queues r = (Ok ps, r') ->
    system_step (mkSystem r permits waiting) (mkSystem r' (permits ++ (rd_permit <$> ps)) waiting)
| step_release r p permits permits' waiting :
    permits ≡ₚ p :: permits' ->
    system_step (mkSystem r permits waiting) (mkSystem (release_permit p r) permits' waiting)
| step_dispatch r p permits permits' waiting dispatch_id job res r' :
    permits ≡ₚ p :: permits' ->
    dispatch_queue p dispatch_id job r = (res, r') ->
    system_step (mkSystem r permits waiting)
      (mkSystem r' permits' (match res with Ok queued => (p, dispatch_id, queued) :: waiting | Err _ => waiting end))
| step_ack r permits waiting waiting' p dispatch_id queued wrote :
    waiting ≡ₚ (p, dispatch_id, queued) :: waiting' -> (wrote = true -> queued = true) ->
    system_step (mkSystem r permits waiting) (mkSystem (dispatch_finish wrote p dispatch_id r).2 permits waiting')
| step_frame r permits waiting id now message res r' :
    message_u32 message -> handle_frame id now message r = (res, r') ->
    system_step (mkSystem r permits waiting)
      (mkSystem (match res with Ok (Some event) => broadcast event r' | _ => r' end) permits waiting)
| step_register r permits waiting id queue running free now r' :
    is_u32 running -> is_u32 free -> id ∉ permits -> id ∉ (fst ∘ fst) <$> waiting ->
    register_worker id queue running free now (mkOutbound true []) r = (Ok tt, r') ->
    system_step (mkSystem r permits waiting) (mkSystem r' permits waiting)
| step_remove r permits waiting id :
    system_step (mkSystem r permits waiting) (mkSystem (remove_worker id r) permits waiting)
| step_stop_writer r permits waiting id :
    system_step (mkSystem r permits waiting) (mkSystem (stop_writer id r) permits waiting).

Definition system_init : system := mkSystem (mkRegistry ∅ [] []) [] [].

(** The jobs a worker was sent *)
Definition is_dispatch (f : WireFrame) : bool :=
  match payload f with JobDispatch _ _ _ _ => true | _ => false end.
Definition jobs_sent (w : WorkerState) : list WireFrame := filter is_dispatch (ob_frames (ws_outbound w)).
