(* ===== verification/RegistryProps.v ===== *)
(** * Properties of the worker registry

    Capacity is never exceeded and draining workers get no job, in every interleaving of the critical
    sections; the least loaded worker is chosen; a session ends and takes its worker along, unless its
    registration cannot be acknowledged. *)
From S2P Require Import Prelude Types Db Interfaces Scheduler Engine Protocol Registry.

(** ** Well-formed registries *)

Record worker_wf (w : WorkerState) : Prop := {
  wf_capacity : is_u32 (ws_capacity_slots w);
  wf_running : is_u32 (ws_running_jobs w);
  wf_reserved : is_u32 (ws_reserved_slots w)
}.

Definition registry_wf (r : WorkerRegistry) : Prop := map_Forall (fun _ w => worker_wf w) (reg_workers r).

Ltac u32 := unfold is_u32, u32_saturating_add, u32_saturating_sub, u32_max in *; lia.

Lemma used_slots_u32 w : worker_wf w -> is_u32 (used_slots w).
Proof. intros [??[??]]. unfold used_slots. u32. Qed.

Lemma set_worker_wf id w r : worker_wf w -> registry_wf r -> registry_wf (set_worker id w r).
Proof. intros Hw Hr. by apply map_Forall_insert_2. Qed.

(** ** The load order *)

(** No product of two 32-bit integers wraps. *)
Lemma u64_mul_u32 a b : is_u32 a -> is_u32 b -> u64_mul a b = a * b.
Proof. unfold u64_mul, is_u32, u32_max. intros. apply Z.mod_small. nia. Qed.

Definition slots (w : WorkerState) : Z := Z.max (ws_capacity_slots w) 1.

(** [compare_load] compares the fractions of the slots in use. *)
Lemma compare_load_spec left right :
  worker_wf left -> worker_wf right ->
  compare_load left right = Z.compare (used_slots left * slots right) (used_slots right * slots left).
Proof.
  intros Hl Hr. unfold compare_load. pose proof (used_slots_u32 _ Hl). pose proof (used_slots_u32 _ Hr).
  destruct Hl as [?? _], Hr as [?? _]. rewrite !u64_mul_u32; [done|..]; try done; u32.
Qed.

(** [x] is chosen over [y] *)
Definition preferred (x y : Z * WorkerState) : Prop :=
  used_slots x.2 * slots y.2 < used_slots y.2 * slots x.2 \/
  (used_slots x.2 * slots y.2 = used_slots y.2 * slots x.2 /\ x.1 <= y.1).

Lemma preferred_refl x : preferred x x.
Proof. right. lia. Qed.

Lemma fraction_trans ua sa ub sb uc sc :
  0 < sa -> 0 < sb -> 0 < sc -> ua * sb <= ub * sa -> ub * sc <= uc * sb ->
  ua * sc <= uc * sa /\ (ua * sc = uc * sa -> ua * sb = ub * sa /\ ub * sc = uc * sb).
Proof.
  intros Ha Hb Hc H1 H2.
  assert ((ua * sc) * sb <= (uc * sa) * sb) as H by nia.
  split; [nia|]. intros E. assert (ua * sb * sc = ub * sa * sc) by nia.
  split; [by apply (Z.mul_cancel_r _ _ sc); lia|]. apply (Z.mul_cancel_r _ _ sa); nia.
Qed.

Lemma slots_pos w : 0 < slots w.
Proof. unfold slots. lia. Qed.

Lemma preferred_trans x y z : preferred x y -> preferred y z -> preferred x z.
Proof.
  unfold preferred. intros Hxy Hyz.
  pose proof (slots_pos x.2). pose proof (slots_pos y.2). pose proof (slots_pos z.2).
  destruct (fraction_trans (used_slots x.2) (slots x.2) (used_slots y.2) (slots y.2) (used_slots z.2) (slots z.2))
    as [Hle Heq]; [done..|lia|lia|].
  destruct (decide (used_slots x.2 * slots z.2 = used_slots z.2 * slots x.2)) as [E|]; [|lia].
  destruct (Heq E). lia.
Qed.

Lemma preferred_antisym x y : preferred x y -> preferred y x -> x.1 = y.1.
Proof. unfold preferred. lia. Qed.

(** [best] is the least of the eligible workers of [l]. *)
Definition is_ideal (q : string) (l : list (Z * WorkerState)) (best : option (Z * WorkerState)) : Prop :=
  match best with
  | None => forall y, y ∈ l -> eligible q y.2 = false
  | Some x => x ∈ l /\ eligible q x.2 = true /\ forall y, y ∈ l -> eligible q y.2 = true -> preferred x y
  end.

Lemma ideal_step_spec q l best x :
  Forall (fun y => worker_wf y.2) (l ++ [x]) -> is_ideal q l best -> is_ideal q (l ++ [x]) (ideal_step q best x).
Proof.
  intros Hwf Hbest. unfold ideal_step. destruct (eligible q x.2) eqn:Ex; last first.
  { destruct best as [b|]; simpl in *.
    - destruct Hbest as (Hin & Hb & Hall). split_and!; [set_solver|done|].
      intros y [Hy| ->%list_elem_of_singleton]%elem_of_app; [by apply Hall|congruence].
    - intros y [Hy| ->%list_elem_of_singleton]%elem_of_app; [by apply Hbest|done]. }
  destruct best as [b|]; simpl in Hbest; last first.
  { split_and!; [set_solver|done|].
    intros y [Hy| ->%list_elem_of_singleton]%elem_of_app Ey; [|apply preferred_refl].
    rewrite (Hbest _ Hy) in Ey. done. }
  destruct Hbest as (Hin & Hb & Hall). rewrite Forall_forall in Hwf.
  assert (is_ideal q (l ++ [x]) (Some b) \/ ~ preferred b x) as Hkeep.
  { destruct (decide (used_slots b.2 * slots x.2 < used_slots x.2 * slots b.2 \/
      (used_slots b.2 * slots x.2 = used_slots x.2 * slots b.2 /\ b.1 <= x.1))) as [Hp|]; [left|by right].
    simpl. split_and!; [set_solver|done|].
    intros y [Hy| ->%list_elem_of_singleton]%elem_of_app ?; [by apply Hall|done]. }
  assert (preferred x b -> is_ideal q (l ++ [x]) (Some x)) as Htake.
  { intros Hp. simpl. split_and!; [set_solver|done|].
    intros y [Hy| ->%list_elem_of_singleton]%elem_of_app Ey; [|apply preferred_refl].
    by apply (preferred_trans _ b); [|apply Hall]. }
  rewrite compare_load_spec by (apply Hwf; set_solver).
  unfold preferred in Hkeep, Htake.
  destruct (Z.compare_spec (used_slots x.2 * slots b.2) (used_slots b.2 * slots x.2)).
  - destruct (Z.ltb_spec x.1 b.1); [apply Htake; lia|]. destruct Hkeep; [done|lia].
  - apply Htake. lia.
  - destruct Hkeep; [done|lia].
Qed.

Lemma find_ideal_in_spec q l :
  Forall (fun y => worker_wf y.2) l -> is_ideal q l (find_ideal_in l q).
Proof.
  unfold find_ideal_in. induction l as [|x l IH] using rev_ind; intros Hwf.
  { simpl. intros y Hy. by apply not_elem_of_nil in Hy. }
  rewrite foldl_app. simpl. apply ideal_step_spec; [done|]. apply IH. by apply Forall_app in Hwf as [? _].
Qed.

Lemma is_ideal_unique q l1 l2 b1 b2 :
  l1 ≡ₚ l2 -> NoDup l1.*1 -> is_ideal q l1 b1 -> is_ideal q l2 b2 -> b1 = b2.
Proof.
  intros HP Hnd H1 H2. destruct b1 as [x|], b2 as [y|]; simpl in *; [|exfalso|exfalso|done].
  - destruct H1 as (Hx & Ex & H1), H2 as (Hy & Ey & H2). f_equal.
    rewrite <-HP in Hy. apply (NoDup_fmap_eq fst l1); [done..|].
    apply preferred_antisym; [by apply H1|]. apply H2; [by rewrite <-HP|done].
  - destruct H1 as (Hx & Ex & _). rewrite HP in Hx. by rewrite (H2 _ Hx) in Ex.
  - destruct H2 as (Hy & Ey & _). rewrite <-HP in Hy. by rewrite (H1 _ Hy) in Ey.
Qed.

Lemma registry_wf_list r : registry_wf r -> Forall (fun y => worker_wf y.2) (map_to_list (reg_workers r)).
Proof. intros Hr. apply Forall_forall. intros [id w] Hin%elem_of_map_to_list. by apply (Hr id). Qed.

(** What [find_ideal_worker] returns *)
Lemma find_ideal_worker_Some r q id w :
  registry_wf r -> find_ideal_worker (reg_workers r) q = Some (id, w) ->
  reg_workers r !! id = Some w /\ worker_wf w /\ ws_draining w = false /\ ws_queue_name w = q /\
  used_slots w < ws_capacity_slots w.
Proof.
  intros Hr E. pose proof (find_ideal_in_spec q _ (registry_wf_list _ Hr)) as H.
  unfold find_ideal_worker in E. rewrite E in H. destruct H as (Hin & He & _).
  apply elem_of_map_to_list in Hin. unfold eligible in He. simpl in He.
  apply andb_prop in He as [[Hd Hq]%andb_prop Ha]. apply negb_true_iff in Hd. apply bool_decide_eq_true_1 in Hq.
  split_and!; [done|by apply (Hr id)|done|done|]. unfold available_slots in Ha. apply Z.ltb_lt in Ha. u32.
Qed.

Lemma find_ideal_worker_None r q :
  registry_wf r -> find_ideal_worker (reg_workers r) q = None ->
  map_Forall (fun _ w => eligible q w = false) (reg_workers r).
Proof.
  intros Hr E. pose proof (find_ideal_in_spec q _ (registry_wf_list _ Hr)) as H.
  unfold find_ideal_worker in E. rewrite E in H. intros id w Hw. apply (H (id, w)). by apply elem_of_map_to_list.
Qed.

(** ** Reserving *)

(** One permit is reserved after the other: what holds for each holds for all. *)
Section reserve.
Context (I : list (ReservedDispatch Z) -> WorkerRegistry -> Prop).
Context (Hstep : forall q ps r id w, I ps r -> find_ideal_worker (reg_workers r) q = Some (id, w) ->
  I (ps ++ [mkReservedDispatch q id])
    (set_worker id (set_reserved (u32_saturating_add (ws_reserved_slots w) 1) w) r)).

Lemma reserve_queue_ind count q ps r :
  I ps r -> I (ps ++ (reserve_queue count q r).1) (reserve_queue count q r).2.
Proof.
  revert ps r. induction count as [|count IH]; intros ps r HI; simpl; [by rewrite app_nil_r|].
  destruct (find_ideal_worker (reg_workers r) q) as [[id w]|] eqn:E; [|by rewrite app_nil_r].
  simpl. rewrite (cons_middle _ ps), app_assoc. apply IH. by apply Hstep.
Qed.

Lemma reserve_all_ind reqs ps r : I ps r -> I (ps ++ (reserve_all reqs r).1) (reserve_all reqs r).2.
Proof.
  revert ps r. induction reqs as [|q reqs IH]; intros ps r HI; simpl; [by rewrite app_nil_r|].
  rewrite app_assoc. apply IH. by apply reserve_queue_ind.
Qed.
End reserve.

(** [n] more slots of [w] are reserved *)
Definition reserve_more (n : nat) (w : WorkerState) : WorkerState :=
  set_reserved (ws_reserved_slots w + Z.of_nat n) w.

Lemma reserve_more_0 w : reserve_more 0 w = w.
Proof. destruct w. unfold reserve_more, set_reserved. simpl. by rewrite Z.add_0_r. Qed.

Lemma used_slots_reserve w :
  worker_wf w -> used_slots w < ws_capacity_slots w ->
  worker_wf (reserve_more 1 w) /\ used_slots (reserve_more 1 w) <= ws_capacity_slots w /\
  u32_saturating_add (ws_reserved_slots w) 1 = ws_reserved_slots w + 1.
Proof. intros [Hc Hr Hs] Hu. unfold used_slots in *. simpl in *. split_and!; [split; simpl| |]; u32. Qed.

(** What reserving does to the workers: the permits [ps] were reserved from [r0] on. *)
Record reserved_from (r0 : WorkerRegistry) (ps : list (ReservedDispatch Z)) (r : WorkerRegistry) : Prop := {
  rf_wf : registry_wf r;
  rf_workers : reg_workers r = map_imap (fun id w => Some (reserve_more (count id (rd_permit <$> ps)) w)) (reg_workers r0);
  rf_permits : Forall (fun p => exists w, reg_workers r0 !! rd_permit p = Some w /\
    ws_queue_name w = rd_queue_name p /\ ws_draining w = false) ps;
  rf_used : forall id w, reg_workers r !! id = Some w -> id ∈ rd_permit <$> ps -> used_slots w <= ws_capacity_slots w
}.

Lemma rf_lookup r0 ps r id :
  reserved_from r0 ps r ->
  reg_workers r !! id = reserve_more (count id (rd_permit <$> ps)) <$> (reg_workers r0 !! id).
Proof. intros H. rewrite (rf_workers _ _ _ H), map_lookup_imap. by destruct (reg_workers r0 !! id). Qed.

Lemma reserved_from_step r0 q ps r id w :
  reserved_from r0 ps r -> find_ideal_worker (reg_workers r) q = Some (id, w) ->
  reserved_from r0 (ps ++ [mkReservedDispatch q id])
    (set_worker id (set_reserved (u32_saturating_add (ws_reserved_slots w) 1) w) r).
Proof.
  intros H (Hw & Hwf & Hd & Hq & Hu)%find_ideal_worker_Some; [|apply H].
  destruct (used_slots_reserve w Hwf Hu) as (Hwf' & Hu' & ->).
  pose proof (rf_lookup _ _ _ id H) as Hl. rewrite Hw in Hl.
  destruct (reg_workers r0 !! id) as [w0|] eqn:Hw0; [|done]. injection Hl as Hl. split.
  - apply set_worker_wf; [done|apply H].
  - simpl. apply map_eq. intros id'. rewrite map_lookup_imap, fmap_app, count_app. simpl. rewrite count_cons, count_nil.
    destruct (decide (id = id')) as [<-|Hne].
    + rewrite lookup_insert, decide_True by done. rewrite Hw0. simpl. rewrite Hl. unfold reserve_more, set_reserved. simpl.
      f_equal. f_equal. lia.
    + rewrite lookup_insert_ne by done. rewrite !Nat.add_0_r. rewrite (rf_lookup _ _ _ id' H).
      by destruct (reg_workers r0 !! id').
  - apply Forall_app. split; [apply H|]. apply Forall_singleton. exists w0. simpl.
    subst w. split_and!; [done|done|done].
  - intros id' w'. simpl. rewrite fmap_app. intros Hw' Hin. destruct (decide (id = id')) as [<-|Hne].
    + rewrite lookup_insert, decide_True in Hw' by done. injection Hw' as <-. done.
    + rewrite lookup_insert_ne in Hw' by done. apply (rf_used _ _ _ H _ _ Hw'). set_solver.
Qed.

Lemma reserved_from_nil r : registry_wf r -> reserved_from r [] r.
Proof.
  intros Hr. split; [done| |done|].
  - apply map_eq. intros id. rewrite map_lookup_imap. simpl. rewrite count_nil.
    destruct (reg_workers r !! id); simpl; [|done]. by rewrite reserve_more_0.
  - intros ?? _ Hin. by apply not_elem_of_nil in Hin.
Qed.

Lemma reserve_from reqs r ps r' :
  registry_wf r -> reserve reqs r = (Ok ps, r') -> reserved_from r ps r'.
Proof.
  intros Hr [= <- <-]. apply (reserve_all_ind (reserved_from r) ) with (ps := []); [|by apply reserved_from_nil].
  intros. by apply reserved_from_step.
Qed.

(** A worker that cannot take a job cannot take one after more slots were reserved. *)
Lemma eligible_reserve_more q n w : worker_wf w -> worker_wf (reserve_more n w) ->
  eligible q w = false -> eligible q (reserve_more n w) = false.
Proof.
  unfold eligible, available_slots. intros [??[??]] [??[? Hn]]. simpl in *.
  rewrite !andb_false_iff. intros [[?|?]|Ha]; [by left; left|by left; right|right].
  apply Z.ltb_ge in Ha. apply Z.ltb_ge. unfold used_slots in *. simpl in *. u32.
Qed.

Definition none_eligible (q : string) (r : WorkerRegistry) : Prop :=
  map_Forall (fun _ w => eligible q w = false) (reg_workers r).

(** Fewer permits than asked for are returned only when nobody is left. *)
Lemma reserve_queue_short count q r :
  registry_wf r -> (length (reserve_queue count q r).1 < count)%nat -> none_eligible q (reserve_queue count q r).2.
Proof.
  revert r. induction count as [|count IH]; intros r Hr; simpl; [lia|].
  destruct (find_ideal_worker (reg_workers r) q) as [[id w]|] eqn:Hf; simpl.
  - intros Hlt. apply IH; [|lia]. apply find_ideal_worker_Some in Hf as (? & Hw & _ & _ & Hu); [|done].
    destruct (used_slots_reserve w Hw Hu) as (Hwf & _ & ->). by apply set_worker_wf.
  - intros _. by apply find_ideal_worker_None.
Qed.

Lemma none_eligible_reserve q r ps r' :
  registry_wf r -> none_eligible q r -> reserved_from r ps r' -> none_eligible q r'.
Proof.
  intros Hr Hq H id w' Hw'. pose proof (rf_lookup _ _ _ id H) as Hl. rewrite Hw' in Hl.
  destruct (reg_workers r !! id) as [w|] eqn:Hw; [|done]. injection Hl as ->.
  apply eligible_reserve_more; [by apply (Hr id)|by apply (rf_wf _ _ _ H id)|by apply (Hq id)].
Qed.

Lemma reserve_queue_from n q r :
  registry_wf r -> reserved_from r (reserve_queue n q r).1 (reserve_queue n q r).2.
Proof.
  intros Hr. apply (reserve_queue_ind (reserved_from r)) with (ps := []); [|by apply reserved_from_nil].
  intros. by apply reserved_from_step.
Qed.

Lemma reserve_all_from reqs r :
  registry_wf r -> reserved_from r (reserve_all reqs r).1 (reserve_all reqs r).2.
Proof. intros Hr. by apply (reserve_from reqs). Qed.

Lemma reserve_queue_names n q r : Forall (fun p => rd_queue_name p = q) (reserve_queue n q r).1.
Proof.
  revert r. induction n as [|n IH]; intros r; simpl; [done|].
  destruct (find_ideal_worker _ _) as [[id w]|]; [|done]. by constructor.
Qed.

Lemma reserve_all_short reqs r req :
  registry_wf r -> req ∈ reqs ->
  (length (filter (fun p => rd_queue_name p = qres_queue_name req) (reserve_all reqs r).1) < qres_count req)%nat ->
  none_eligible (qres_queue_name req) (reserve_all reqs r).2.
Proof.
  revert r. induction reqs as [|q reqs IH]; intros r Hr; [by intros ?%not_elem_of_nil|].
  pose proof (reserve_queue_from (qres_count q) (qres_queue_name q) r Hr) as Hfrom.
  pose proof (rf_wf _ _ _ Hfrom) as Hwf. simpl. rewrite filter_app, length_app.
  intros [->|Hin]%elem_of_cons Hlt; [|apply IH; [done|done|lia]].
  eapply none_eligible_reserve; [done| |by apply reserve_all_from].
  apply reserve_queue_short; [done|].
  rewrite (list_filter_all _ (reserve_queue _ _ _).1) in Hlt by apply reserve_queue_names. lia.
Qed.

Lemma reserve_all_names reqs r :
  Forall (fun p => rd_queue_name p ∈ qres_queue_name <$> reqs) (reserve_all reqs r).1.
Proof.
  revert r. induction reqs as [|q reqs IH]; intros r; simpl; [done|]. apply Forall_app. split.
  - eapply Forall_impl; [apply reserve_queue_names|]. simpl. intros p ->. left.
  - eapply Forall_impl; [apply IH|]. simpl. intros p ?. by right.
Qed.

(** ** The registry as the dispatcher of the engine *)

Definition reserved_of (r : WorkerRegistry) (id : Z) : nat :=
  match reg_workers r !! id with Some w => Z.to_nat (ws_reserved_slots w) | None => 0%nat end.

Lemma release_permit_wf id r : registry_wf r -> registry_wf (release_permit id r).
Proof.
  intros Hr. unfold release_permit. destruct (reg_workers r !! id) as [w|] eqn:Hw; [|done].
  apply set_worker_wf; [|done]. destruct (Hr _ _ Hw). split; simpl; [done|done|u32].
Qed.

Lemma reserved_of_release id r p :
  reserved_of (release_permit id r) p = (reserved_of r p - if decide (id = p) then 1 else 0)%nat.
Proof.
  unfold release_permit, reserved_of. destruct (decide (id = p)) as [<-|Hne].
  - destruct (reg_workers r !! id) as [w|] eqn:Hw; simpl.
    + rewrite lookup_insert, decide_True by done. simpl. u32.
    + by rewrite Hw.
  - rewrite Nat.sub_0_r. destruct (reg_workers r !! id) as [w|] eqn:Hw; simpl; [|done].
    by rewrite lookup_insert_ne by done.
Qed.

Lemma reserved_of_from r ps r' id : registry_wf r -> reserved_from r ps r' ->
  reserved_of r' id = (reserved_of r id + count id (rd_permit <$> ps))%nat.
Proof.
  intros Hr H. unfold reserved_of. rewrite (rf_lookup _ _ _ id H).
  destruct (reg_workers r !! id) as [w|] eqn:Hw; simpl.
  - destruct (Hr _ _ Hw) as [??[??]]. rewrite Z2Nat.inj_add by lia. lia.
  - destruct (decide (id ∈ rd_permit <$> ps)) as [Hin|Hnin].
    + apply list_elem_of_fmap in Hin as (p & -> & Hin). pose proof (rf_permits _ _ _ H) as HF.
      rewrite Forall_forall in HF. destruct (HF _ Hin) as (w & Hw' & _). congruence.
    + unfold count. rewrite (list_filter_none); [done|].
      apply Forall_forall. intros x Hx ->. done.
Qed.

(** A worker with one slot less reserved, whatever happened to its jobs and frames *)
Lemma reserved_of_set_worker id w w' r p :
  reg_workers r !! id = Some w -> ws_reserved_slots w' = u32_saturating_sub (ws_reserved_slots w) 1 ->
  reserved_of (set_worker id w' r) p = (reserved_of r p - if decide (id = p) then 1 else 0)%nat.
Proof.
  intros Hw Hr. unfold reserved_of. simpl. destruct (decide (id = p)) as [<-|Hne].
  - rewrite lookup_insert, decide_True, Hw, Hr by done. u32.
  - rewrite lookup_insert_ne by done. lia.
Qed.

Definition slot_returned (id : Z) (r r' : WorkerRegistry) : Prop :=
  registry_wf r' /\ forall p, reserved_of r' p = (reserved_of r p - if decide (id = p) then 1 else 0)%nat.

Lemma dispatch_queue_returns id d job r : registry_wf r -> slot_returned id r (dispatch_queue id d job r).2.
Proof.
  intros Hr. unfold dispatch_queue. destruct (reg_workers r !! id) as [w|] eqn:Hw; simpl; last first.
  { split; [done|]. intros p. case_decide as Hp; [|lia]. subst p. unfold reserved_of. by rewrite Hw. }
  pose proof (Hr _ _ Hw) as [Hc Hrun Hres].
  assert (forall w', ws_capacity_slots w' = ws_capacity_slots w -> ws_running_jobs w' = ws_running_jobs w ->
    ws_reserved_slots w' = u32_saturating_sub (ws_reserved_slots w) 1 -> slot_returned id r (set_worker id w' r)) as Hset.
  { intros w' Hc' Hrun' Hres'. split; [|intros p; by apply (reserved_of_set_worker id w)].
    apply set_worker_wf; [|done]. split; [by rewrite Hc'|by rewrite Hrun'|rewrite Hres'; u32]. }
  destruct (ws_draining w); simpl; [by apply Hset|]. case_decide; simpl; [by apply Hset|].
  unfold send. simpl. destruct (ob_open (ws_outbound w)); simpl; by apply Hset.
Qed.

(** Forgetting a dispatch touches no reservation. *)
Lemma dispatch_finish_reserved wrote id d r :
  registry_wf r -> registry_wf (dispatch_finish wrote id d r).2 /\
  forall p, reserved_of (dispatch_finish wrote id d r).2 p = reserved_of r p.
Proof.
  intros Hr. unfold dispatch_finish. destruct wrote; simpl; [done|]. unfold release_dispatched.
  destruct (reg_workers r !! id) as [w|] eqn:Hw; [|done]. split.
  - apply set_worker_wf; [|done]. by destruct (Hr _ _ Hw).
  - intros p. unfold reserved_of. simpl. destruct (decide (id = p)) as [<-|Hne].
    + by rewrite lookup_insert, decide_True, Hw by done.
    + by rewrite lookup_insert_ne by done.
Qed.

Lemma dispatch_returns permit job r :
  registry_wf r -> is_Some (job_dispatch_id job) -> slot_returned (rd_permit permit) r (dispatch permit job r).2.
Proof.
  intros Hr [d Hd]. unfold dispatch. rewrite Hd. pose proof (dispatch_queue_returns (rd_permit permit) d job r Hr) as [Hq Ho].
  destruct (dispatch_queue (rd_permit permit) d job r) as [[queued|e] r1]; [|by split]. simpl in Hq, Ho.
  assert (exists wrote r2, (if queued then await_ack r1 else (false, r1)) = (wrote, r2) /\
    reg_workers r2 = reg_workers r1) as (wrote & r2 & -> & Hw).
  { destruct queued; [|by exists false, r1]. unfold await_ack. destruct (reg_writes r1); by eexists _, _. }
  simpl. assert (Hr2 : registry_wf r2) by (unfold registry_wf; by rewrite Hw).
  destruct (dispatch_finish_reserved wrote (rd_permit permit) d r2 Hr2) as [Hwf Hres]. split; [done|].
  intros p. rewrite Hres, <-Ho. unfold reserved_of. by rewrite Hw.
Qed.

#[export] Program Instance RegistryDispatcher_laws : WorkerDispatcherLaws WorkerRegistry Z := {|
  wd_outstanding := reserved_of; wd_ok := registry_wf |}.
Next Obligation.
  simpl. intros reqs r rs r' Hr Hrs. pose proof (reserve_from _ _ _ _ Hr Hrs) as H. split_and!; [apply H| |].
  - intros p. by apply reserved_of_from.
  - injection Hrs as <- <-. apply reserve_all_names.
Qed.
Next Obligation. done. Qed.
Next Obligation.
  simpl. intros p r Hr. split; [by apply release_permit_wf|]. intros id. apply reserved_of_release.
Qed.
Next Obligation. simpl. intros. by apply dispatch_returns. Qed.

(** ** The invariant of the interleavings *)

Record system_ok (s : system) : Prop := {
  so_wf : registry_wf (sys_registry s);
  so_reserved : forall id w, reg_workers (sys_registry s) !! id = Some w ->
    ws_reserved_slots w = Z.of_nat (count id (sys_permits s));
  so_capacity : forall id w, reg_workers (sys_registry s) !! id = Some w ->
    ws_reserved_slots w + Z.of_nat (size (ws_in_flight_dispatches w)) <= ws_capacity_slots w
}.

(** A step that changes one worker, keeping the permits of the others, keeps the invariant if the
    worker keeps it. *)
Lemma system_ok_set id w r permits waiting permits' waiting' :
  system_ok (mkSystem r permits waiting) ->
  worker_wf w -> ws_reserved_slots w = Z.of_nat (count id permits') ->
  ws_reserved_slots w + Z.of_nat (size (ws_in_flight_dispatches w)) <= ws_capacity_slots w ->
  (forall id', id' <> id -> count id' permits' = count id' permits) ->
  system_ok (mkSystem (set_worker id w r) permits' waiting').
Proof.
  intros [Hwf Hres Hcap] Hw Hr Hc Hcount. simpl in *. split; simpl.
  - by apply set_worker_wf.
  - intros id' w'. destruct (decide (id = id')) as [<-|Hne].
    + rewrite lookup_insert, decide_True by done. by intros [= <-].
    + rewrite lookup_insert_ne by done. intros Hw'. rewrite Hcount by done. by apply Hres.
  - intros id' w'. destruct (decide (id = id')) as [<-|Hne].
    + rewrite lookup_insert, decide_True by done. by intros [= <-].
    + rewrite lookup_insert_ne by done. apply Hcap.
Qed.

Lemma system_ok_waiting r permits waiting waiting' :
  system_ok (mkSystem r permits waiting) -> system_ok (mkSystem r permits waiting').
Proof. by intros [???]. Qed.

Lemma system_ok_broadcast e r permits waiting :
  system_ok (mkSystem r permits waiting) -> system_ok (mkSystem (broadcast e r) permits waiting).
Proof. by intros [???]. Qed.

Lemma count_Permutation {P} `{EqDecision P} (p : P) l l' : l ≡ₚ l' -> count p l = count p l'.
Proof. unfold count. by intros ->. Qed.

Lemma count_not_in {P} `{EqDecision P} (p : P) l : p ∉ l -> count p l = 0%nat.
Proof.
  intros Hp. unfold count. rewrite list_filter_none; [done|]. apply Forall_forall. by intros x Hx ->.
Qed.

Lemma system_ok_reserve r permits waiting queues ps r' :
  system_ok (mkSystem r permits waiting) -> reserve queues r = (Ok ps, r') ->
  system_ok (mkSystem r' (permits ++ (rd_permit <$> ps)) waiting).
Proof.
  intros Hok Hps. enough (registry_wf r' /\ system_ok (mkSystem r' (permits ++ (rd_permit <$> ps)) waiting)) by naive_solver.
  injection Hps as <- <-.
  apply (reserve_all_ind (fun ps r => registry_wf r /\ system_ok (mkSystem r (permits ++ (rd_permit <$> ps)) waiting)))
    with (ps := []); last first.
  { split; [apply Hok|]. by rewrite fmap_nil, app_nil_r. }
  clear. intros q ps r id w [Hwf Hok] (Hw & Hww & _ & _ & Hu)%find_ideal_worker_Some; [|done].
  destruct (used_slots_reserve w Hww Hu) as (Hww' & _ & ->).
  pose proof (so_reserved _ Hok _ _ Hw) as Hres. simpl in Hres. destruct Hww.
  split; [by apply set_worker_wf|]. rewrite fmap_app, app_assoc. eapply system_ok_set; [done|done|..]; simpl.
  - rewrite count_app, count_cons, count_nil, decide_True by done. lia.
  - unfold used_slots in Hu. u32.
  - intros id' Hne. rewrite count_app, count_cons, count_nil, decide_False by done. lia.
Qed.

Lemma count_take (id p : Z) permits permits' :
  permits ≡ₚ p :: permits' -> count id permits = ((if decide (p = id) then 1 else 0) + count id permits')%nat.
Proof. intros HP. by rewrite (count_Permutation _ _ _ HP), count_cons. Qed.

Lemma system_ok_release r p permits permits' waiting waiting' :
  permits ≡ₚ p :: permits' -> system_ok (mkSystem r permits waiting) ->
  system_ok (mkSystem (release_permit p r) permits' waiting').
Proof.
  intros HP Hok. unfold release_permit. destruct (reg_workers r !! p) as [w|] eqn:Hw.
  - pose proof (so_reserved _ Hok _ _ Hw) as Hres. pose proof (so_capacity _ Hok _ _ Hw) as Hcap.
    destruct (so_wf _ Hok _ _ Hw). simpl in *. rewrite (count_take _ _ _ _ HP), decide_True in Hres by done.
    eapply system_ok_set; [done|split; simpl; [done|done|u32]|..]; simpl.
    + u32.
    + u32.
    + intros id Hne. by rewrite (count_take _ _ _ _ HP), decide_False by done.
  - destruct Hok as [Hwf Hres Hcap]. simpl in *. split; simpl; [done| |done].
    intros id w Hw'. rewrite (Hres _ _ Hw'), (count_take _ _ _ _ HP), decide_False; [done|]. intros ->. congruence.
Qed.

Lemma size_difference_le (X : gset string) d : (size (X ∖ {[d]}) <= size X)%nat.
Proof. apply subseteq_size. set_solver. Qed.

Lemma size_insert_le (X : gset string) d : (size ({[d]} ∪ X) <= S (size X))%nat.
Proof.
  destruct (decide (d ∈ X)).
  - replace ({[d]} ∪ X) with X by set_solver. lia.
  - rewrite size_union by set_solver. rewrite size_singleton. lia.
Qed.

Lemma system_ok_dispatch r p permits permits' waiting waiting' dispatch_id job res r' :
  permits ≡ₚ p :: permits' -> dispatch_queue p dispatch_id job r = (res, r') ->
  system_ok (mkSystem r permits waiting) -> system_ok (mkSystem r' permits' waiting').
Proof.
  intros HP Hd Hok. unfold dispatch_queue in Hd.
  destruct (reg_workers r !! p) as [w|] eqn:Hw; last first.
  { simplify_eq. pose proof (system_ok_release r' p _ _ _ waiting' HP Hok) as H.
    unfold release_permit in H. by rewrite Hw in H. }
  pose proof (so_reserved _ Hok _ _ Hw) as Hres. pose proof (so_capacity _ Hok _ _ Hw) as Hcap.
  destruct (so_wf _ Hok _ _ Hw). simpl in *. rewrite (count_take _ _ _ _ HP), decide_True in Hres by done.
  pose proof (size_insert_le (ws_in_flight_dispatches w) dispatch_id) as Hins.
  pose proof (size_difference_le ({[dispatch_id]} ∪ ws_in_flight_dispatches w) dispatch_id) as Hdel.
  repeat case_match; simplify_eq/=;
    (eapply system_ok_set; [done|split; simpl; [done|done|u32]|simpl; u32|simpl; u32|]);
    intros id Hne; by rewrite (count_take _ _ _ _ HP), decide_False by done.
Qed.

(** A step that changes one worker without touching its reservations or adding a dispatch *)
Lemma system_ok_update r id w w' permits waiting waiting' :
  system_ok (mkSystem r permits waiting) -> reg_workers r !! id = Some w ->
  ws_capacity_slots w' = ws_capacity_slots w -> ws_reserved_slots w' = ws_reserved_slots w ->
  is_u32 (ws_running_jobs w') -> (size (ws_in_flight_dispatches w') <= size (ws_in_flight_dispatches w))%nat ->
  system_ok (mkSystem (set_worker id w' r) permits waiting').
Proof.
  intros Hok Hw Hc Hr Hrun Hs. pose proof (so_capacity _ Hok _ _ Hw) as Hcap.
  pose proof (so_reserved _ Hok _ _ Hw) as Hres. destruct (so_wf _ Hok _ _ Hw). simpl in *.
  eapply system_ok_set; [done|split; [by rewrite Hc|done|by rewrite Hr]|congruence|rewrite Hc, Hr; lia|done].
Qed.

Lemma system_ok_frame id now message r res r' permits waiting :
  system_ok (mkSystem r permits waiting) -> message_u32 message -> handle_frame id now message r = (res, r') ->
  system_ok (mkSystem (match res with Ok (Some event) => broadcast event r' | _ => r' end) permits waiting).
Proof.
  intros Hok Hm Hf. enough (system_ok (mkSystem r' permits waiting)).
  { destruct res as [[e|]|]; [by apply system_ok_broadcast|done..]. }
  unfold handle_frame in Hf. destruct (reg_workers r !! id) as [w|] eqn:Hw; [|by simplify_eq].
  pose proof (so_wf _ Hok _ _ Hw) as [_ Hrun _].
  destruct message; simplify_eq/=;
    (eapply system_ok_update; [done..|unfold message_u32 in Hm; simpl; try tauto|simpl; try done; apply size_difference_le]).
Qed.

Lemma system_ok_register id queue running free now r r' permits waiting :
  system_ok (mkSystem r permits waiting) -> is_u32 running -> is_u32 free -> id ∉ permits ->
  register_worker id queue running free now (mkOutbound true []) r = (Ok tt, r') ->
  system_ok (mkSystem r' permits waiting).
Proof.
  intros Hok Hrun Hfree Hid Hr. unfold register_worker in Hr.
  destruct (reg_workers r !! id) as [w|] eqn:Hw; simplify_eq.
  eapply system_ok_set; [done|split; simpl; u32|simpl; by rewrite count_not_in|cbn [ws_reserved_slots ws_in_flight_dispatches ws_capacity_slots]; rewrite (size_empty (C := gset string)); u32|done].
Qed.

Lemma system_step_ok s s' : system_ok s -> system_step s s' -> system_ok s'.
Proof.
  intros Hok Hs. destruct Hs as [| | |r permits waiting waiting' p d queued wrote| | |r permits waiting id|r permits waiting id].
  - by eapply system_ok_reserve.
  - by eapply system_ok_release.
  - by eapply system_ok_dispatch.
  - unfold dispatch_finish. destruct wrote; cbn [snd]; [by eapply system_ok_waiting|].
    unfold release_dispatched. destruct (reg_workers r !! p) as [w|] eqn:Hw; [|by eapply system_ok_waiting].
    pose proof (so_wf _ Hok _ _ Hw) as [_ Hrun _].
    eapply system_ok_update; [done..|simpl; apply size_difference_le].
  - by eapply system_ok_frame.
  - eapply system_ok_register; [exact Hok| | | |eassumption]; done.
  - destruct Hok as [Hwf Hres Hcap]. simpl in *.
    split; simpl; [by apply map_Forall_delete|..]; intros id' w' [_ Hw]%lookup_delete_Some; [by apply Hres|by apply (Hcap id')].
  - destruct Hok as [Hwf Hres Hcap]. simpl in *.
    split; simpl; intros id' w' Hw; simpl in Hw; apply lookup_alter_Some in Hw as [(<- & w & Hw & ->)|[_ Hw]].
    + by destruct (Hwf _ _ Hw).
    + by apply (Hwf id').
    + exact (Hres _ _ Hw).
    + exact (Hres _ _ Hw).
    + exact (Hcap _ _ Hw).
    + exact (Hcap _ _ Hw).
Qed.

Lemma system_reachable_ok s : rtc system_step system_init s -> system_ok s.
Proof.
  intros Hs. assert (system_ok system_init) as Hinit.
  { split; simpl; [apply map_Forall_empty|intros id w; by rewrite lookup_empty..]. }
  revert Hinit. induction Hs as [|s1 s2 s3 H1 _ IH]; intros Hok; [done|]. by apply IH, (system_step_ok s1).
Qed.

(** ** Draining *)

Definition drained (id : Z) (jobs : list WireFrame) (r : WorkerRegistry) : Prop :=
  forall w, reg_workers r !! id = Some w -> ws_draining w = true /\ jobs_sent w = jobs.

Lemma drained_set id jobs id' w r :
  drained id jobs r -> (id = id' -> ws_draining w = true /\ jobs_sent w = jobs) -> drained id jobs (set_worker id' w r).
Proof.
  intros Hd Hw w'. simpl. destruct (decide (id' = id)) as [->|Hne].
  - rewrite lookup_insert, decide_True by done. intros [= <-]. by apply Hw.
  - rewrite lookup_insert_ne by done. apply Hd.
Qed.

Lemma drained_release id jobs p r : drained id jobs r -> drained id jobs (release_permit p r).
Proof.
  intros Hd. unfold release_permit. destruct (reg_workers r !! p) as [w|] eqn:Hw; [|done].
  apply drained_set; [done|]. intros <-. by apply (Hd w).
Qed.

Lemma drained_dispatch id jobs p d job r :
  drained id jobs r -> drained id jobs (dispatch_queue p d job r).2.
Proof.
  intros Hd. unfold dispatch_queue. destruct (reg_workers r !! p) as [w|] eqn:Hw; [|done].
  destruct (ws_draining w) eqn:Hdr; simpl.
  - apply drained_set; [done|]. intros <-. simpl. by apply (Hd w).
  - assert (id <> p) as Hne by (intros <-; destruct (Hd w Hw); congruence).
    case_decide; simpl; by apply drained_set.
Qed.

Lemma drained_frame id jobs id' now message r :
  drained id jobs r -> drained id jobs (handle_frame id' now message r).2.
Proof.
  intros Hd. unfold handle_frame. destruct (reg_workers r !! id') as [w|] eqn:Hw; [|done].
  destruct message; simpl; (apply drained_set; [done|]); intros <-; destruct (Hd w Hw) as [Hdr <-]; simpl; try done.
  split; [done|]. unfold begin_drain, jobs_sent, send, set_last_activity. destruct w as [???????? [[] frames]]; simpl; [|done].
  by rewrite filter_app, app_nil_r.
Qed.

(** ** Sessions *)

Section session.
Context `{Cbor}.

Lemma read_frame_shorter stream frame rest :
  read_frame stream = Ok (frame, rest) -> (4 + length rest <= length stream)%nat.
Proof.
  unfold read_frame, read_exact. case_decide; simpl; [done|]. case_decide; simpl; [done|].
  case_decide; simpl; [done|]. destruct (decode_frame _); simpl; [|done]. intros [= <- <-].
  rewrite !length_drop. lia.
Qed.

(** A frame only changes the worker of its session, which stays registered. *)
Lemma handle_frame_other id now message r res r' id' :
  handle_frame id now message r = (res, r') -> id <> id' ->
  reg_workers r' !! id' = reg_workers r !! id'.
Proof.
  unfold handle_frame. intros Hf Hne. destruct (reg_workers r !! id); [|by simplify_eq].
  destruct message; simplify_eq/=; by rewrite lookup_insert_ne.
Qed.

(** The read loop ends with an error, once the stream is used up, and leaves the other workers alone. *)
Lemma read_loop_total fuel id now stream r :
  (length stream < fuel)%nat ->
  exists e r', read_loop fuel id now stream r = Some (e, r') /\
    forall id', id <> id' -> reg_workers r' !! id' = reg_workers r !! id'.
Proof.
  revert now stream r. induction fuel as [|fuel IH]; intros now stream r Hf; [lia|]. simpl.
  destruct (read_frame stream) as [[frame rest]|e] eqn:Hr; [|by exists e, r].
  apply read_frame_shorter in Hr.
  destruct (handle_frame id now (payload frame) r) as [[event|e] r1] eqn:Hh; [|exists e, r1; split; [done|];
    intros; by eapply handle_frame_other].
  edestruct (IH (now + 1) rest (match event with Some event => broadcast event r1 | None => r1 end))
    as (e & r' & -> & Hother); [lia|].
  exists e, r'. split; [done|]. intros id' Hne. rewrite Hother by done.
  destruct event; simpl; by eapply handle_frame_other.
Qed.
End session.

(** ** Properties *)

(** [find_ideal_worker] returns, whatever the order of the hash map, the worker of the queue
    that is not draining, has a free slot and uses the smallest fraction of its capacity, the
    smallest id among equals; it returns nothing only when no worker can take a job. *)
Theorem ideal_worker_is_least_loaded r q l :
  registry_wf r -> l ≡ₚ map_to_list (reg_workers r) ->
  find_ideal_in l q = find_ideal_worker (reg_workers r) q /\
  match find_ideal_worker (reg_workers r) q with
  | None => forall id w, reg_workers r !! id = Some w -> eligible q w = false
  | Some (id, w) =>
      reg_workers r !! id = Some w /\ ws_draining w = false /\ ws_queue_name w = q /\
      used_slots w < ws_capacity_slots w /\
      forall id' w', reg_workers r !! id' = Some w' -> eligible q w' = true -> preferred (id, w) (id', w')
  end.
Proof.
  intros Hr Hl. pose proof (find_ideal_in_spec q _ (registry_wf_list _ Hr)) as H. split.
  - apply (is_ideal_unique q l (map_to_list (reg_workers r))); [done|rewrite Hl; apply NoDup_fst_map_to_list| |done].
    apply find_ideal_in_spec. rewrite Hl. by apply registry_wf_list.
  - destruct (find_ideal_worker (reg_workers r) q) as [[id w]|] eqn:E.
    + destruct (find_ideal_worker_Some _ _ _ _ Hr E) as (? & ? & ? & ? & ?). split_and!; [done..|].
      unfold find_ideal_worker in E. rewrite E in H. destruct H as (_ & _ & Hall).
      intros id' w' Hw'. apply (Hall (id', w')). by apply elem_of_map_to_list.
    + by apply find_ideal_worker_None.
Qed.

(** [reserve] gives out permits of registered workers of the right queue that are not draining,
    reserves one slot for each and never more than a worker has, changes nothing else, and gives a
    queue fewer permits than it asked for only when no worker of the queue has a slot left. *)
Theorem reserve_is_bounded_and_complete reqs r ps r' :
  registry_wf r -> reserve reqs r = (Ok ps, r') ->
  (forall id, reg_workers r' !! id = reserve_more (count id (rd_permit <$> ps)) <$> (reg_workers r !! id)) /\
  Forall (fun p => exists w, reg_workers r !! rd_permit p = Some w /\
    ws_queue_name w = rd_queue_name p /\ ws_draining w = false) ps /\
  (forall id w, reg_workers r' !! id = Some w -> id ∈ rd_permit <$> ps -> used_slots w <= ws_capacity_slots w) /\
  (forall req, req ∈ reqs ->
    (length (filter (fun p => rd_queue_name p = qres_queue_name req) ps) < qres_count req)%nat ->
    none_eligible (qres_queue_name req) r').
Proof.
  intros Hr Hres. pose proof (reserve_from _ _ _ _ Hr Hres) as H. split_and!.
  - intros id. by apply rf_lookup.
  - apply H.
  - apply H.
  - injection Hres as <- <-. intros req. by apply reserve_all_short.
Qed.

(** C11. In every interleaving of reservations, dispatches, releases, results, drains, registrations
    and disconnections, the slots reserved on a worker are the permits that are out for it, and they
    and the jobs in flight on it never exceed the capacity it registered with. *)
Theorem worker_capacity_is_never_exceeded s id w :
  rtc system_step system_init s -> reg_workers (sys_registry s) !! id = Some w ->
  ws_reserved_slots w = Z.of_nat (count id (sys_permits s)) /\
  ws_reserved_slots w + Z.of_nat (size (ws_in_flight_dispatches w)) <= ws_capacity_slots w.
Proof. intros Hs%system_reachable_ok Hw. split; [by apply (so_reserved _ Hs)|by apply (so_capacity _ Hs id)]. Qed.

(** Once a worker is draining, no step of the system sends it a job, and it drains until its
    session ends. *)
Theorem draining_worker_gets_no_job s s' id w w' :
  rtc system_step system_init s -> system_step s s' ->
  reg_workers (sys_registry s) !! id = Some w -> ws_draining w = true ->
  reg_workers (sys_registry s') !! id = Some w' -> ws_draining w' = true /\ jobs_sent w' = jobs_sent w.
Proof.
  intros Hok%system_reachable_ok Hs Hw Hdr. revert w'.
  assert (drained id (jobs_sent w) (sys_registry s)) as Hd.
  { intros w0 Hw0. by simplify_eq. }
  change (drained id (jobs_sent w) (sys_registry s')).
  destruct Hs as [qs r ps ? q r' Hrs| |? ? ? ? ? ? ? ? ? ? Hq|r ps wt wt' p d queued wrote|r ps wt i now m res r' _ Hf|
    r ps wt i ? ? ? ? r' _ _ _ _ Hr|r ps wt i|r ps wt i]; simpl in *.
  - intros w'. rewrite (rf_lookup _ _ _ id (reserve_from _ _ _ _ (so_wf _ Hok) Hrs)).
    simpl. rewrite Hw. simpl. by intros [= <-].
  - by apply drained_release.
  - eapply drained_dispatch in Hd. by rewrite Hq in Hd.
  - unfold dispatch_finish. destruct wrote; simpl; [done|]. unfold release_dispatched.
    destruct (reg_workers r !! p) as [w0|] eqn:Hw0; [|done]. apply drained_set; [done|]. intros <-. by apply (Hd w0).
  - eapply drained_frame in Hd. rewrite Hf in Hd. by destruct res as [[]|].
  - unfold register_worker in Hr. destruct (reg_workers r !! i) eqn:Hi; simplify_eq.
    apply drained_set; [done|]. intros <-. congruence.
  - intros w'; simpl; intros [_ Hw']%lookup_delete_Some. by apply Hd.
  - intros w'. simpl. intros [(<- & w0 & Hw0 & ->)|[_ Hw']]%lookup_alter_Some; [by apply (Hd w0)|by apply Hd].
Qed.

(** [dispatch] to a registered worker returns the slot of the permit in every case; on success
    the job's frame was sent and the job is in flight, on failure the jobs in flight are as before. *)
Theorem dispatch_accounts_for_the_slot permit job r d w res r' :
  job_dispatch_id job = Some d -> reg_workers r !! rd_permit permit = Some w ->
  dispatch permit job r = (res, r') ->
  exists w', reg_workers r' !! rd_permit permit = Some w' /\
    ws_reserved_slots w' = u32_saturating_sub (ws_reserved_slots w) 1 /\
    ws_capacity_slots w' = ws_capacity_slots w /\
    match res with
    | Ok _ => ws_draining w = false /\ d ∉ ws_in_flight_dispatches w /\
        ws_in_flight_dispatches w' = {[d]} ∪ ws_in_flight_dispatches w /\
        jobs_sent w' = jobs_sent w ++ [dispatch_frame d job]
    | Err _ => ws_in_flight_dispatches w' = ws_in_flight_dispatches w
    end.
Proof.
  intros Hd Hw Hdis. unfold dispatch, dispatch_queue in Hdis. rewrite Hd, Hw in Hdis.
  destruct (ws_draining w) eqn:Hdr.
  { simplify_eq. simpl. rewrite lookup_insert, decide_True by done. by eexists. }
  case_decide as Hin.
  { simplify_eq. simpl. rewrite lookup_insert, decide_True by done. by eexists. }
  destruct (ob_open (ws_outbound w)) eqn:Hopen.
  - unfold send in Hdis. simpl in Hdis. rewrite Hopen in Hdis. unfold dispatch_finish, await_ack in Hdis. simpl in Hdis.
    assert (exists wrote ws, (res, r') = dispatch_finish wrote (rd_permit permit) d
      (mkRegistry (<[rd_permit permit := set_outbound (mkOutbound true (ob_frames (ws_outbound w) ++ [dispatch_frame d job]))
        (set_in_flight ({[d]} ∪ ws_in_flight_dispatches w)
          (set_reserved (u32_saturating_sub (ws_reserved_slots w) 1) w))]> (reg_workers r)) (reg_events r) ws)) as (wrote & ws & E).
    { destruct (reg_writes r) as [|ok oks]; simpl in Hdis; [by exists true, (reg_writes r)|]. by exists ok, oks. }
    clear Hdis. unfold dispatch_finish, release_dispatched in E. simpl in E.
    rewrite lookup_insert, decide_True in E by done.
    destruct wrote; simplify_eq; simpl; rewrite lookup_insert, decide_True by done; eexists; split_and!; try done; simpl.
    + unfold jobs_sent. simpl. by rewrite filter_app.
    + set_solver +Hin.
  - unfold send in Hdis. simpl in Hdis. rewrite Hopen in Hdis. unfold dispatch_finish, release_dispatched in Hdis. simpl in Hdis.
    rewrite lookup_insert, decide_True in Hdis by done. simplify_eq. simpl.
    rewrite lookup_insert, decide_True by done. eexists; split_and!; try done; simpl. set_solver +Hin.
Qed.

(** When the registration is acknowledged, the session of a worker ends whatever bytes it sends,
    and when it has ended the worker is gone and every other worker is as before. *)
Theorem session_ends_with_the_worker_removed `{Cbor} allowed now stream rest instance_id queue_name running free r :
  read_frame stream = Ok (v1 (Register instance_id queue_name running free), rest) ->
  queue_name <> ""%string -> queue_name ∈ allowed ->
  reg_workers r !! instance_id = None -> (await_ack r).1 = true ->
  exists e r', handle_worker (length stream) allowed now stream r = Some (e, r') /\ reg_workers r' = reg_workers r.
Proof.
  intros Hread Hq Ha Hid Hack. unfold handle_worker. rewrite Hread. simpl.
  rewrite decide_False by tauto. unfold register_worker. rewrite Hid.
  apply read_frame_shorter in Hread. set (r1 := greet _ _ _).
  destruct (await_ack r1) as [ok r2] eqn:Hr2. assert (ok = true /\ reg_workers r2 = reg_workers r1) as [-> Hws].
  { unfold await_ack in Hack, Hr2. simpl in Hr2. destruct (reg_writes r); simpl in *; simplify_eq; done. }
  simpl. destruct (read_loop_total (length stream) instance_id now rest (broadcast (EvRegistered queue_name) r2))
    as (e & r' & -> & Hother); [lia|].
  exists e, (remove_worker instance_id r'). split; [done|]. simpl. apply map_eq. intros id.
  destruct (decide (instance_id = id)) as [<-|Hne].
  - by rewrite lookup_delete, decide_True by done.
  - rewrite lookup_delete_ne, Hother by done. simpl. rewrite Hws. unfold r1, greet. simpl.
    by rewrite lookup_alter_ne, lookup_insert_ne by done.
Qed.

(** When the acknowledgement of a registration cannot be written, [handle_worker] returns
    without removing the worker it inserted: the worker stays in the registry without a session and
    is offered jobs, and its instance id cannot register again. *)
Theorem unacknowledged_registration_leaves_a_ghost `{Cbor} fuel allowed now stream rest instance_id queue_name running free r :
  read_frame stream = Ok (v1 (Register instance_id queue_name running free), rest) ->
  queue_name <> ""%string -> queue_name ∈ allowed -> is_u32 running -> 0 < free <= u32_max ->
  running + free <= u32_max ->
  reg_workers r !! instance_id = None -> (await_ack r).1 = false ->
  exists e r' w, handle_worker fuel allowed now stream r = Some (e, r') /\
    reg_workers r' !! instance_id = Some w /\ eligible queue_name w = true /\
    forall q running free now o, register_worker instance_id q running free now o r' =
      (Err "duplicate worker instance"%string, r').
Proof.
  intros Hread Hq Ha Hrun Hfree Hsum Hid Hack. unfold handle_worker. rewrite Hread. simpl.
  rewrite decide_False by tauto. unfold register_worker. rewrite Hid. set (r1 := greet _ _ _).
  destruct (await_ack r1) as [ok r2] eqn:Hr2. assert (ok = false /\ reg_workers r2 = reg_workers r1) as [-> Hws].
  { unfold await_ack in Hack, Hr2. simpl in Hr2. destruct (reg_writes r); simpl in *; simplify_eq; done. }
  simpl. eexists _, r2, _. split; [done|]. rewrite Hws. unfold r1, greet. simpl.
  rewrite lookup_alter, lookup_insert, !decide_True by done. simpl. split_and!; [done|..|done].
  unfold eligible, available_slots, used_slots, set_outbound. cbn -[size]. rewrite (size_empty (C := gset string)).
  rewrite bool_decide_eq_true_2 by done. simpl. apply Z.ltb_lt. u32.
Qed.

(** A worker whose writer has stopped *)
Lemma dispatch_to_stopped_writer `{Cbor} permit job r d w :
  job_dispatch_id job = Some d -> reg_workers r !! rd_permit permit = Some w -> ob_open (ws_outbound w) = false ->
  exists e w', dispatch_through_writer permit job r = (Err e, set_worker (rd_permit permit) w' r) /\
    ws_outbound w' = ws_outbound w /\ ws_in_flight_dispatches w' = ws_in_flight_dispatches w /\
    ws_draining w' = ws_draining w.
Proof.
  intros Hd Hw Ho. unfold dispatch_through_writer, dispatch_queue. rewrite Hd, Hw.
  destruct (ws_draining w) eqn:Hdr; [by eexists _, _|]. case_decide as Hin; [by eexists _, _|].
  unfold send. simpl. rewrite Ho. unfold dispatch_finish, release_dispatched. simpl.
  rewrite lookup_insert, decide_True by done. eexists _, _. unfold set_worker, set_workers. simpl.
  rewrite insert_insert, decide_True by done. split_and!; [done|done| |done]. simpl. set_solver +Hin.
Qed.

(** A job whose frame cannot be encoded - its payload is longer than a frame may be - stops the writer
    of the worker it is dispatched to, and the worker stays in the registry: its reads go on, it has
    the slots it had, it can be chosen as before, and every job dispatched to it from then on
    fails without being sent. *)
Theorem oversized_job_disables_the_worker `{Cbor} permit job r d w e :
  job_dispatch_id job = Some d -> reg_workers r !! rd_permit permit = Some w ->
  ob_open (ws_outbound w) = true -> ws_draining w = false -> d ∉ ws_in_flight_dispatches w ->
  encode_frame (dispatch_frame d job) = Err e ->
  let id := rd_permit permit in
  let out := dispatch_through_writer permit job r in
  let released := set_reserved (u32_saturating_sub (ws_reserved_slots w) 1) w in
  is_ok out.1 = false /\ exists w',
    reg_workers out.2 !! id = Some w' /\ ob_open (ws_outbound w') = false /\
    (forall q, eligible q w' = eligible q released) /\
    (forall now, is_ok (handle_frame id now Heartbeat out.2).1 = true) /\
    (forall job' d' r1 w1, job_dispatch_id job' = Some d' -> reg_workers r1 !! id = Some w1 ->
      ws_outbound w1 = ws_outbound w' ->
      is_ok (dispatch_through_writer permit job' r1).1 = false /\
      exists w2, reg_workers (dispatch_through_writer permit job' r1).2 !! id = Some w2 /\ ws_outbound w2 = ws_outbound w').
Proof.
  intros Hd Hw Ho Hdr Hin Henc id out released. subst id out.
  assert (exists w', dispatch_through_writer permit job r = (Err (DispatchInternal "worker dispatch write failed"),
      set_worker (rd_permit permit) w' r) /\ ws_outbound w' = mkOutbound false (ob_frames (ws_outbound w) ++ [dispatch_frame d job]) /\
      forall q, eligible q w' = eligible q released) as (w' & -> & Ho' & Hel).
  { unfold dispatch_through_writer, dispatch_queue. rewrite Hd, Hw, Hdr, decide_False by done.
    unfold send. simpl. rewrite Ho. unfold writer_task. simpl. rewrite Henc. unfold dispatch_finish, release_dispatched, stop_writer.
    simpl. rewrite alter_insert, decide_True, lookup_insert, decide_True by done. simpl.
    eexists. unfold set_worker, set_workers. simpl. rewrite insert_insert, decide_True by done.
    split_and!; [done|done|]. intros q. unfold eligible, available_slots, used_slots. simpl.
    by replace (({[d]} ∪ ws_in_flight_dispatches w) ∖ {[d]}) with (ws_in_flight_dispatches w) by set_solver +Hin. }
  simpl. split; [done|]. exists w'. rewrite lookup_insert, decide_True by done.
  split_and!; [done|by rewrite Ho'|done| |].
  - intros now. unfold handle_frame. simpl. by rewrite lookup_insert, decide_True by done.
  - intros job' d' r1 w1 Hd' Hw1 Ho1.
    destruct (dispatch_to_stopped_writer permit job' r1 d' w1 Hd' Hw1) as (e' & w2 & -> & Ho2 & _); [by rewrite Ho1, Ho'|].
    simpl. split; [done|]. exists w2. rewrite lookup_insert, decide_True by done. split; [done|congruence].
Qed.

(** Two queues whose names differ only in the characters that are replaced share the names of
    their containers. *)
Lemma container_names_collide :
  exists q1 q2, q1 <> q2 /\ forall ordinal, container_name q1 ordinal = container_name q2 ordinal.
Proof. by exists "mail.out"%string, "mail-out"%string. Qed.

(** ** Examples *)

Definition example_worker (queue : string) (capacity : Z) : WorkerState :=
  mkWorker queue capacity 0 capacity 0 0 ∅ false (mkOutbound true []).
Definition example_registry : WorkerRegistry :=
  mkRegistry {[ 1 := example_worker "q" 2; 2 := example_worker "q" 1; 3 := example_worker "other" 9 ]} [] [].
Definition example_job : Job :=
  from_accepted (mkAcceptedJob 5 "q" [Byte.x61] (Some "d5"%string) 0 0) None.

Lemma example_registry_wf : registry_wf example_registry.
Proof.
  unfold registry_wf, example_registry. simpl.
  repeat apply map_Forall_insert_2; try (split; simpl; u32). apply map_Forall_empty.
Qed.

Lemma ideal_worker_is_least_loaded_witness :
  find_ideal_in (reverse (map_to_list (reg_workers example_registry))) "q" = Some (1, example_worker "q" 2).
Proof.
  destruct (ideal_worker_is_least_loaded example_registry "q"
    (reverse (map_to_list (reg_workers example_registry))) example_registry_wf) as [-> _].
  - by rewrite reverse_Permutation.
  - vm_compute. reflexivity.
Defined.

Lemma reserve_is_bounded_and_complete_witness :
  let out := reserve [mkQueueReservation "q" 4] example_registry in
  rd_permit <$> default [] (match out.1 with Ok ps => Some ps | Err _ => None end) = [1; 2; 1] /\ none_eligible "q" out.2.
Proof.
  intros out. assert (out = (Ok [mkReservedDispatch "q" 1; mkReservedDispatch "q" 2; mkReservedDispatch "q" 1], out.2)) as Hout
    by (vm_compute; reflexivity).
  split; [vm_compute; reflexivity|].
  destruct (reserve_is_bounded_and_complete _ _ _ _ example_registry_wf Hout) as (_ & _ & _ & H).
  apply (H (mkQueueReservation "q" 4)); [by left|vm_compute; lia].
Defined.

(** A worker registers, a slot is reserved and the job is dispatched. *)
Definition example_registered : system :=
  mkSystem (register_worker 1 "q" 0 1 0 (mkOutbound true []) (mkRegistry ∅ [] [])).2 [] [].
Definition example_reserved : system :=
  mkSystem (reserve [mkQueueReservation "q" 3] (sys_registry example_registered)).2 [1] [].
Definition example_dispatched : system :=
  mkSystem (dispatch_queue 1 "d5" example_job (sys_registry example_reserved)).2 [] [(1, "d5"%string, true)].
Definition example_draining : system :=
  mkSystem (handle_frame 1 7 Drain (sys_registry example_dispatched)).2 [] [(1, "d5"%string, true)].

Lemma example_dispatched_reachable : rtc system_step system_init example_dispatched.
Proof.
  apply (rtc_l _ _ example_registered).
  { apply (step_register _ _ _ 1 "q" 0 1 0); [split; vm_compute; congruence|split; vm_compute; congruence|set_solver|set_solver|reflexivity]. }
  apply (rtc_l _ _ example_reserved).
  { apply (step_reserve [mkQueueReservation "q" 3] _ [] [] [mkReservedDispatch "q" 1]). vm_compute. reflexivity. }
  apply (rtc_l _ _ example_dispatched); [|apply rtc_refl].
  apply (step_dispatch _ 1 [1] [] [] "d5" example_job (Ok true)); [done|vm_compute; reflexivity].
Qed.

Lemma worker_capacity_is_never_exceeded_witness :
  exists w, reg_workers (sys_registry example_dispatched) !! 1 = Some w /\
    ws_in_flight_dispatches w = {["d5"%string]} /\ ws_reserved_slots w + Z.of_nat (size (ws_in_flight_dispatches w)) <= 1.
Proof.
  eexists. assert (reg_workers (sys_registry example_dispatched) !! 1 = Some _) as Hw by (vm_compute; reflexivity).
  split; [exact Hw|]. split; [vm_compute; reflexivity|].
  destruct (worker_capacity_is_never_exceeded _ _ _ example_dispatched_reachable Hw) as [_ H]. exact H.
Defined.

Lemma draining_worker_gets_no_job_witness :
  exists w w', reg_workers (sys_registry example_draining) !! 1 = Some w /\
    reg_workers (release_permit 1 (sys_registry example_draining)) !! 1 = Some w' /\
    ws_draining w = true /\ jobs_sent w' = [dispatch_frame "d5" example_job].
Proof.
  eexists _, _.
  assert (reg_workers (sys_registry example_draining) !! 1 = Some _) as Hw by (vm_compute; reflexivity).
  pose (s' := mkSystem (dispatch_finish true 1 "d5" (sys_registry example_draining)).2 [] []).
  assert (reg_workers (sys_registry s') !! 1 = Some _) as Hw' by (vm_compute; reflexivity).
  split; [exact Hw|]. split; [vm_compute; reflexivity|]. split; [vm_compute; reflexivity|].
  refine (eq_trans (proj2 (draining_worker_gets_no_job example_draining s' 1 _ _ _ _ Hw _ Hw')) _).
  - eapply rtc_r; [exact example_dispatched_reachable|].
    apply (step_frame _ [] [(1, "d5"%string, true)] 1 7 Drain (Ok None)); [exact I|vm_compute; reflexivity].
  - apply (step_ack (sys_registry example_draining) [] [(1, "d5"%string, true)] [] 1 "d5" true true); done.
  - vm_compute. reflexivity.
  - vm_compute. reflexivity.
Defined.

Lemma dispatch_accounts_for_the_slot_witness :
  let r := sys_registry example_reserved in
  let out := dispatch (mkReservedDispatch "q" 1) example_job (mkRegistry (reg_workers r) [] [false]) in
  exists w', reg_workers out.2 !! 1 = Some w' /\ ws_reserved_slots w' = 0 /\ ws_in_flight_dispatches w' = ∅ /\
    out.1 = Err (DispatchInternal "worker dispatch write failed").
Proof.
  intros r out. pose (p := mkReservedDispatch "q" 1).
  assert (out = (Err (DispatchInternal "worker dispatch write failed"), out.2)) as Hout by (vm_compute; reflexivity).
  assert (exists w, reg_workers (mkRegistry (reg_workers r) [] [false]) !! rd_permit p = Some w /\
    ws_reserved_slots w = 1 /\ ws_in_flight_dispatches w = ∅) as (w & Hw & Hres & Hfl)
    by (eexists; split; [vm_compute; reflexivity|split; vm_compute; reflexivity]).
  destruct (dispatch_accounts_for_the_slot p example_job _ "d5" w _ _ eq_refl Hw Hout) as (w' & Hw' & Hr & _ & Hf).
  exists w'. split; [exact Hw'|]. split; [rewrite Hr, Hres; reflexivity|]. split; [rewrite Hf; exact Hfl|].
  vm_compute. reflexivity.
Defined.

(** The frames of a worker that registers with two slots, sends a heartbeat and drains *)
Definition example_stream : bytes :=
  [Byte.x00; Byte.x00; Byte.x00; Byte.x01; Byte.x03; Byte.x00; Byte.x00; Byte.x00; Byte.x01; Byte.x01;
   Byte.x00; Byte.x00; Byte.x00; Byte.x02; Byte.x02; Byte.x02].

Lemma session_ends_with_the_worker_removed_witness :
  exists e r', handle_worker (H := model_cbor) (length example_stream) {["q"%string]} 0 example_stream example_registry =
    Some (e, r') /\ reg_workers r' = reg_workers example_registry.
Proof.
  eapply (session_ends_with_the_worker_removed (H := model_cbor) _ _ _ _ 7 "q" 0 2).
  - vm_compute. reflexivity.
  - done.
  - set_solver.
  - vm_compute. reflexivity.
  - reflexivity.
Defined.

Lemma unacknowledged_registration_leaves_a_ghost_witness :
  exists e r' w, handle_worker (H := model_cbor) 9 {["q"%string]} 0 example_stream (mkRegistry ∅ [] [false]) = Some (e, r') /\
    reg_workers r' !! 7 = Some w /\ eligible "q" w = true.
Proof.
  destruct (unacknowledged_registration_leaves_a_ghost (H := model_cbor) 9 {["q"%string]} 0 example_stream
    (drop 5 example_stream) 7 "q" 0 2 (mkRegistry ∅ [] [false])) as (e & r' & w & Hh & Hw & He & _).
  - vm_compute. reflexivity.
  - done.
  - set_solver.
  - split; vm_compute; congruence.
  - split; vm_compute; congruence.
  - vm_compute. congruence.
  - reflexivity.
  - reflexivity.
  - exists e, r', w. split_and!; [exact Hh|exact Hw|exact He].
Defined.

(** A serializer that writes the payload of a job as it is, and a job of any size *)
Definition payload_cbor : Cbor := {|
  to_vec := fun f => match payload f with JobDispatch _ _ _ p => Ok p | _ => Err "unsupported"%string end;
  from_slice := fun b => Ok (v1 (JobDispatch 5 "d5" 1 b))
|}.
Definition sized_job (n : nat) : Job :=
  from_accepted (mkAcceptedJob 5 "q" (replicate n Byte.x61) (Some "d5"%string) 0 0) None.

Lemma sized_job_too_large n :
  MAX_FRAME_BYTES < Z.of_nat n ->
  encode_frame (C := payload_cbor) (dispatch_frame "d5" (sized_job n)) = Err FrameTooLarge.
Proof.
  intros Hn. unfold encode_frame, sized_job. simpl. rewrite length_replicate. by rewrite decide_True.
Qed.

(** A size over the limit, never computed *)
Lemma large_size : {n : nat | MAX_FRAME_BYTES < Z.of_nat n}.
Proof. exists (Z.to_nat (MAX_FRAME_BYTES + 1)). rewrite Z2Nat.id; unfold MAX_FRAME_BYTES; lia. Qed.

Lemma oversized_job_disables_the_worker_witness :
  let job := sized_job (proj1_sig large_size) in
  let permit := mkReservedDispatch "q" 1 in
  let r := sys_registry example_reserved in
  is_ok (dispatch_through_writer (H := payload_cbor) permit job r).1 = false /\
  exists w', reg_workers (dispatch_through_writer (H := payload_cbor) permit job r).2 !! 1 = Some w' /\
    ob_open (ws_outbound w') = false /\ eligible "q" w' = true.
Proof.
  intros job permit r.
  assert (exists w, reg_workers r !! rd_permit permit = Some w /\ ob_open (ws_outbound w) = true /\ ws_draining w = false /\
    ws_in_flight_dispatches w = ∅ /\
    eligible "q" (set_reserved (u32_saturating_sub (ws_reserved_slots w) 1) w) = true)
    as (w & Hw & Ho & Hd & Hfl & Hel)
    by (eexists; split; [vm_compute; reflexivity|split_and!; vm_compute; reflexivity]).
  assert (encode_frame (C := payload_cbor) (dispatch_frame "d5" job) = Err FrameTooLarge) as Henc.
  { apply sized_job_too_large. exact (proj2_sig large_size). }
  destruct (oversized_job_disables_the_worker (H := payload_cbor) permit job r "d5" w FrameTooLarge eq_refl Hw Ho Hd)
    as (Herr & w' & Hw' & Ho' & Hq & _); [rewrite Hfl; set_solver|exact Henc|].
  split; [exact Herr|]. exists w'. split; [exact Hw'|]. split; [exact Ho'|]. rewrite Hq. exact Hel.
Defined.
