(* ===== verification/System.v ===== *)
(** * The executor: the engine over the SQLite store and the worker registry

    [crates/maqistor/src/main.rs] runs [Engine<SqliteStore, RegistryDispatcher>]: [SqliteStore]
    implements [DurableStore] here, so that the theorems of [EngineSteps] hold of the executor. *)
From S2P Require Import Prelude Types Db Tables Ingest Results ResultsFacts ResultsDispatch ResultsProps.
From S2P Require Import Store StoreFacts StoreProps Scheduler Interfaces Tasks Engine EngineProps EngineSteps.
From S2P Require Import Protocol Registry RegistryProps.

(** [impl DurableStore for SqliteStore]: the calls the engine makes *)
#[export] Instance SqliteStore `{Env} : DurableStore store := {|
  ds_list_queues := list_queues;
  ds_enqueue := enqueue;
  ds_get_job := get_job;
  ds_claim_batch := claim_batch_inner;
  ds_complete_worker_result := complete_worker_result;
  ds_release_claim := release_claim;
  ds_recover_stale_leases := recover_stale_leases
|}.

(** The jobs of a claim, whatever state the databases are in *)
Lemma wp_claim_bound `{EnvLaws} q limit c :
  1 <= limit ->
  wp (claim_batch_inner q limit) (fun r _ => match r with
    | Ok jobs => Z.of_nat (length jobs) <= limit /\
        Forall (fun job => job_name job = q /\ is_Some (job_dispatch_id job)) jobs
    | Err _ => True end) c.
Proof.
  intros Hl. unfold claim_batch_inner. wp_rule. apply wp_call_claim_batch; [done|].
  intros rows now ds n _ Hlen _.
  assert (Z.of_nat (length rows) <= limit) as Hrows.
  { pose proof (clamp_bounds limit 1 MAX_CLAIM_BATCH_SIZE ltac:(done)).
    etrans; [apply select_pending_length; lia|]. unfold clamp. repeat case_match; lia. }
  assert (Forall (fun x => ic_name x = q) (zip_with claimed_of rows ds)) as Hnames.
  { apply Forall_forall. intros x (i & p & d & -> & Hp & _)%elem_of_lookup_zip_with. simpl.
    apply list_elem_of_lookup_2, elem_of_select_pending in Hp as (a & _ & _ & _ & ? & _). done. }
  assert (Z.of_nat (length (zip_with claimed_of rows ds)) <= limit) as Hzip by (rewrite length_zip_with; lia).
  revert Hnames Hzip. generalize (zip_with claimed_of rows ds) as claimed. clear. intros claimed Hnames Hzip.
  destruct claimed as [|x0 rest]; [wp_rule; by split; [simpl; lia|]|]. cbn beta iota. set (claimed := x0 :: rest) in *.
  wp_rule. wp_rule. wp_rule. wp_rule. unfold wp at 1. destruct (call_dispatch _ _) as [[out|err] c1]; cbn [fst snd]; last first.
  { wp_rule. unfold wp at 1. by destruct (for_each _ _ _) as [[?|?] ?]. }
  wp_rule. split.
  - rewrite length_zip_with. lia.
  - apply Forall_forall. intros job (i & x & d & -> & Hx & _)%elem_of_lookup_zip_with. simpl. split; [|by eexists].
    rewrite Forall_forall in Hnames. apply Hnames. by eapply list_elem_of_lookup_2.
Qed.

#[export] Instance SqliteStore_laws `{EnvLaws} : DurableStoreLaws store.
Proof.
  split. intros q limit c jobs c' Hl Hrun. exact (wp_run _ _ _ _ _ (wp_claim_bound q limit c Hl) Hrun).
Qed.

(** ** Submitting *)

Section submit.
Context `{EL : EnvLaws} {D P : Type} `{!EqDecision P} `{!WorkerDispatcher D P} {W : WorkerDispatcherLaws D P}.
Context (options : DispatchOptions) {V : Type} (to_vec : V -> result string bytes).

(** The queue has its turn: it is scheduled, and it waits on the channel or sleeps until its retry, or
    else the pass at work, which has its turn, is told to give it another one ([rerun]); with the scheduler
    task between two things it does ([idle]), only the former. *)
Definition has_turn (idle : Prop) (q : string) (sc : scheduler) : Prop :=
  q ∈ dom (scheduled (sc_state sc)) /\
  (q ∈ sc_tx sc ++ (sc_sleeping sc).*1 \/ will_rerun q (sc_state sc)) /\
  (idle -> q ∈ sc_tx sc ++ (sc_sleeping sc).*1).

(** What [submit] leaves behind *)
Definition submit_post (idle : Prop) (job : SubmitJob V) (e : engine store D P) (res : result EngineError JobView)
    (e' : engine store D P) : Prop :=
  match res with
  | Ok view =>
      exists payload now,
        to_vec (sj_payload job) = Ok payload /\ sj_name job ∈ s_names (e_store e) /\
        view = mkJobView (next_job_id (e_store e)) (sj_name job) Pending /\
        i_accepted (s_ingest (e_store e)) !! jv_id view = None /\
        i_accepted (s_ingest (e_store e')) =
          <[jv_id view := new_accepted_row (AcceptedJob_new now (sj_name job) payload)]> (i_accepted (s_ingest (e_store e))) /\
        has_turn idle (sj_name job) (e_sched e')
  | Err _ => e' = e
  end.

(** Scheduling a queue gives it a turn, whatever turns a pass has. *)
Lemma schedule_has_turn (idle : Prop) q sc turns :
  tokens_ok (mkWorld sc turns) -> (idle -> turns = []) -> has_turn idle q (schedule_queue q sc).
Proof using Type.
  intros Ht Hidle. split_and!; [apply schedule_queue_scheduled| |].
  - unfold will_rerun, schedule_queue. destruct (scheduled (sc_state sc) !! q) as [s|]; simpl; [right|left].
    + eexists. simpl. by rewrite lookup_insert_eq.
    + apply elem_of_app. left. apply elem_of_app. right. by left.
  - intros ->%Hidle. apply (tk_scheduled _ (tokens_ok_schedule q _ _ Ht)), schedule_queue_scheduled.
Qed.

Lemma wp_submit (idle : Prop) job h c :
  engine_ok options h (c_db c) -> (idle -> h_turns h = []) -> id_room (i_accepted (s_ingest (e_store (c_db c)))) 1 ->
  wp (run (submit to_vec job)) (fun r c' => exists res, r = Ok res /\ submit_post idle job (c_db c) res (c_db c')) c.
Proof.
  intros Hok Hidle Hroom. destruct c as [k e]. simpl in *. unfold submit.
  destruct (to_vec _) as [payload|err] eqn:Hp; [|run_rule; by eexists].
  run_rule. run_rule. wp_rule. run_rule. unfold call_store. run_rule. run_rule. unfold with_store. apply wp_zoom. simpl.
  apply wp_call_enqueue; simpl; [done| |].
  - intros err n. eexists. split; [done|]. simpl. by destruct e.
  - intros n Hname. eexists. split; [done|]. eexists payload, _. split_and!; try done; [apply next_id_fresh|].
    apply (schedule_has_turn idle _ _ (h_turns h)); [apply Hok|done].
Qed.

(** Between two things the scheduler task does, nobody has a turn in hand. *)
Lemma tasks_ok_idle (st : engine_state (S := store) (D := D) (P := P)) :
  tasks_ok options st -> exists h, engine_ok options h (c_db (es_conn st)) /\ (es_loop st = None -> h_turns h = []).
Proof using Type.
  intros (hl & hs & Hl & Hds & _ & Hok). exists (together hl (all_together hs)). split; [done|].
  intros Hn. rewrite Hn in Hl. simpl in Hl. subst hl. rewrite together_nothing. by destruct (deliveries_hold _ _ _ Hds) as (_ & _ & _ & ->).
Qed.
End submit.

(** C23. In any state the tasks of the engine can reach, a job that [submit] accepts is in the ingest
    database under a fresh id, with its queue and its payload and unclaimed, no other job changed, and
    its queue has a turn with the scheduler, on the channel or with a sleeping retry, or else the pass at
    work, which has its turn, is told to give it another one; a job that is refused leaves the executor
    as it was. *)
Theorem submitted_job_is_stored_and_scheduled `{EnvLaws} {D P V} `{!EqDecision P, !WorkerDispatcher D P}
    `{W : !WorkerDispatcherLaws D P} options (to_vec : V -> result string bytes) n s d job st r c' :
  wd_ok d -> (forall p, wd_outstanding d p = 0%nat) -> 0 <= max_delivery_in_flight options ->
  rtc (engine_step options to_vec) (engine_start options n s d) st ->
  let c := es_conn st in
  id_room (i_accepted (s_ingest (e_store (c_db c)))) 1 ->
  run (submit to_vec job) c = (r, c') ->
  exists res, r = Ok res /\ submit_post to_vec (es_loop st = None) job (c_db c) res (c_db c').
Proof.
  intros Hd Ho Hm Hs c Hroom Hrun. pose proof (engine_reachable_ok options to_vec n s d st Hd Ho Hm Hs) as Hok.
  destruct (tasks_ok_idle options st Hok) as (h & Hh & Hidle).
  exact (wp_run _ _ _ _ _ (wp_submit options to_vec _ job h c Hh Hidle Hroom) Hrun).
Qed.

(** ** The executor at work *)

#[local] Existing Instance model_env.

(** A payload is its own bytes. *)
Definition example_to_vec (b : bytes) : result string bytes := Ok b.

(** The store with the queue [email], the registry with a worker of two slots for it. *)
Definition example_workers : WorkerRegistry := mkRegistry {[ 1 := example_worker "email" 2 ]} [] [].
Definition example_options : DispatchOptions := mkDispatchOptions 8 8 1000000000 64.
#[local] Notation executor := (engine store WorkerRegistry Z).
Definition example_start : engine_state (S := store) (D := WorkerRegistry) (P := Z) := engine_start example_options 20 (c_db example_store) example_workers.

(** The scheduler task has learnt the queues; then a job is submitted. *)
Definition example_seeded : conn executor := (run engine_seed (es_conn example_start)).2.
Definition example_submit : SubmitJob bytes := mkSubmitJob "email" [Byte.x61].
Definition example_submitted : conn executor := (run (submit example_to_vec example_submit) example_seeded).2.

(** The submitted job and the one that waited are claimed and queued in one pass, *)
Definition example_passed : conn executor :=
  (run (drain_pass example_options ["email"%string]) (on_db (receive []) example_submitted)).2.

(** and the first of the deliveries is on its way: its job has been sent. *)
Definition example_work (k : nat) : DeliveryWork Z :=
  default (mkDeliveryWork (mkReservedDispatch "" 0) (mkJob 0 "" Pending [] 0 None None None None 0 0)) (e_delivery (c_db example_passed) !! k).
Definition example_taken_up : conn executor := on_db (set_delivery [example_work 1]) example_passed.
Definition example_delivering : engine_state (S := store) (D := WorkerRegistry) (P := Z) :=
  match advance (deliver (example_work 0)) example_taken_up with
  | Some (p, c) => mkEngineState c None [(example_work 0, p)] [Returned (Ok tt)]
  | None => mkEngineState example_passed None [] []
  end.

Lemma example_workers_wf : registry_wf example_workers.
Proof.
  apply map_Forall_insert_2; [split; simpl; u32|apply map_Forall_empty].
Qed.

Lemma example_workers_free p : reserved_of example_workers p = 0%nat.
Proof.
  unfold reserved_of, example_workers. simpl. destruct (decide (p = 1)) as [->|Hne]; [done|].
  by rewrite lookup_singleton_ne by done.
Qed.

#[local] Notation steps := (engine_step example_options example_to_vec).

Lemma example_seeded_reachable {V} (to_vec : V -> result string bytes) :
  rtc (engine_step example_options to_vec) example_start (mkEngineState example_seeded None [] []).
Proof. apply (loop_runs _ _ engine_seed). vm_compute. reflexivity. Qed.

Lemma example_submitted_reachable : rtc steps example_start (mkEngineState example_submitted None [] [Returned (Ok tt)]).
Proof.
  etrans; [exact (example_seeded_reachable _)|]. eapply rtc_l; [apply (es_submit _ _ example_submit)|].
  apply other_runs. vm_compute. reflexivity.
Qed.

Lemma example_queued : e_delivery (c_db example_passed) = [example_work 0; example_work 1].
Proof. vm_compute. reflexivity. Qed.

Lemma example_delivering_reachable : rtc steps example_start example_delivering.
Proof.
  etrans; [exact example_submitted_reachable|].
  assert (sc_tx (e_sched (c_db example_submitted)) = ["email"%string] ++ []) as Htx by (vm_compute; reflexivity).
  assert (["email"%string] ≡ₚ remove_dups ["email"%string]) as Hq by (vm_compute; reflexivity).
  eapply rtc_l.
  { refine (es_receive example_options example_to_vec ["email"%string] [] ["email"%string] example_submitted [] [Returned (Ok tt)] _ Htx Hq).
    discriminate. }
  assert (run (drain_pass example_options ["email"%string]) (on_db (receive []) example_submitted) = (Ok tt, example_passed))
    as Hpass by (vm_compute; reflexivity).
  etrans; [exact (loop_runs _ _ _ _ _ _ _ Hpass)|].
  eapply rtc_l; [exact (es_pump example_options example_to_vec (example_work 0) [example_work 1] example_passed None [] _ example_queued)|]. apply rtc_once.
  destruct (working_advances (deliver (example_work 0)) example_taken_up eq_refl) as ([p c] & Ha).
  unfold example_delivering. rewrite Ha.
  exact (es_delivery_step example_options example_to_vec (example_work 0) _ _ example_taken_up _ None [] [] _ Ha).
Qed.

Lemma submitted_job_is_stored_and_scheduled_witness :
  let e' := c_db example_submitted in
  i_accepted (s_ingest (e_store e')) !! 3 = Some (new_accepted_row (AcceptedJob_new 1021 "email" [Byte.x61])) /\
  "email"%string ∈ sc_tx (e_sched e') ++ (sc_sleeping (e_sched e')).*1.
Proof.
  intros e'. set (view := mkJobView 3 "email" Pending).
  assert (run (submit example_to_vec example_submit) example_seeded = (Ok (Ok view), example_submitted)) as Hrun
    by (vm_compute; reflexivity).
  assert (id_room (i_accepted (s_ingest (e_store (c_db example_seeded)))) 1) as Hroom.
  { apply (store_room_decide (e_store (c_db example_seeded))). vm_compute. reflexivity. }
  destruct (submitted_job_is_stored_and_scheduled (W := RegistryDispatcher_laws) example_options example_to_vec 20
    (c_db example_store) example_workers example_submit (mkEngineState example_seeded None [] []) (Ok (Ok view)) example_submitted)
    as (res & Hres & Hpost).
  - exact example_workers_wf.
  - exact example_workers_free.
  - simpl. lia.
  - exact (example_seeded_reachable _).
  - exact Hroom.
  - exact Hrun.
  - injection Hres as <-. destruct Hpost as (payload & now & Hp & _ & _ & _ & Hins & _ & _ & Htx). injection Hp as <-.
    split; [vm_compute; reflexivity|]. exact (Htx eq_refl).
Defined.

(** Two jobs are claimed: one is in flight, one is queued, and the slots of both are taken; what the
    registry counts as reserved is covered by them. *)
Lemma engine_accounts_balance_witness :
  let e := c_db (es_conn example_delivering) in
  (fun w => job_id (dw_job w)) <$> in_flight example_delivering = [2] /\
  (fun w => job_id (dw_job w)) <$> e_delivery e = [3] /\ e_budget e = 6%nat /\
  (forall p, (reserved_of (e_disp e) p <= count p (permits_of (e_delivery e)) + count p (permits_of (in_flight example_delivering)))%nat).
Proof.
  intros e. split; [vm_compute; reflexivity|]. split; [vm_compute; reflexivity|]. split; [vm_compute; reflexivity|].
  destruct (engine_accounts_balance (W := RegistryDispatcher_laws) example_options example_to_vec 20 (c_db example_store)
    example_workers example_delivering example_workers_wf example_workers_free) as (rs & hs & fs & ts & Hidle & _ & Hout & _).
  - simpl. lia.
  - exact example_delivering_reachable.
  - assert (es_loop example_delivering = None) as Hn by (vm_compute; reflexivity).
    destruct (Hidle Hn) as (-> & -> & _). intros p. specialize (Hout p).
    change (rd_permit <$> [] ++ []) with (@nil Z) in Hout. rewrite count_nil, Nat.add_0_r in Hout. exact Hout.
Defined.

Lemma pass_always_completes_witness :
  let out := run (drain_pass example_options ["email"%string]) (on_db (receive []) example_submitted) in
  fst out = Ok tt /\ tokens_ok (world_of (c_db (snd out)) []).
Proof.
  intros out.
  destruct (pass_always_completes (W := RegistryDispatcher_laws) example_options example_to_vec 20 (c_db example_store)
    example_workers (mkEngineState example_submitted None [] [Returned (Ok tt)])
    ["email"%string] [] ["email"%string] (fst out) (snd out) example_workers_wf example_workers_free) as (H1 & H2 & _).
  - simpl. lia.
  - exact example_submitted_reachable.
  - reflexivity.
  - vm_compute. reflexivity.
  - done.
  - unfold out. apply surjective_pairing.
  - split; [exact H1|exact H2].
Defined.

