(* ===== verification/Float.v ===== *)
(** * Binary64

    Rust's [f64], [usize] conversions and [Duration] (a number of nanoseconds), on the specification
    of IEEE 754 arithmetic of the Standard Library, so that the controllers of [Adaptive] evaluate
    as the code does. *)
From Stdlib Require Import Floats.SpecFloat.
From S2P Require Import Prelude.

Abbreviation f64 := spec_float.

Definition prec64 : Z := 53.
Definition emax64 : Z := 1024.

Definition fadd : f64 -> f64 -> f64 := SFadd prec64 emax64.
Definition fsub : f64 -> f64 -> f64 := SFsub prec64 emax64.
Definition fmul : f64 -> f64 -> f64 := SFmul prec64 emax64.
Definition fdiv : f64 -> f64 -> f64 := SFdiv prec64 emax64.
Definition fsqrt : f64 -> f64 := SFsqrt prec64 emax64.

(** [x as f64] for an integer, the nearest, ties to even *)
Definition f64_of_Z (x : Z) : f64 := binary_normalize prec64 emax64 x 0 false.

(** The decimal literal [n / 10^d] *)
Definition literal (n : Z) (d : nat) : f64 := fdiv (f64_of_Z n) (f64_of_Z (10 ^ Z.of_nat d)).

Definition fzero : f64 := S754_zero false.
Definition fone : f64 := f64_of_Z 1.

(** [f64::MIN_POSITIVE] *)
Definition MIN_POSITIVE : f64 := S754_finite false (2 ^ 52) (-1074).

(** [a < b], [a > b], [a <= b]; false on NaN *)
Definition flt (a b : f64) : bool := SFltb a b.
Definition fgt (a b : f64) : bool := SFltb b a.
Definition fle (a b : f64) : bool := SFleb a b.
Definition fge (a b : f64) : bool := SFleb b a.

Definition is_finite (x : f64) : bool :=
  match x with S754_zero _ | S754_finite _ _ _ => true | _ => false end.

(** [f64::max]: a NaN gives the other operand *)
Definition fmax (a b : f64) : f64 :=
  match a, b with
  | S754_nan, _ => b
  | _, S754_nan => a
  | _, _ => if flt a b then b else a
  end.

(** The integer part towards minus infinity of [(-1)^s * m * 2^e] *)
Definition floor_of (s : bool) (m : positive) (e : Z) : Z :=
  let x := cond_Zopp s (Zpos m) in
  if 0 <=? e then x * 2 ^ e else x / 2 ^ (- e).

(** A saturating conversion to [usize]: NaN gives 0 *)
Definition saturate_usize (x : Z) : Z := Z.max 0 (Z.min usize_max x).
Definition to_usize (round : bool -> positive -> Z -> Z) (x : f64) : Z :=
  match x with
  | S754_nan | S754_zero _ | S754_infinity true => 0
  | S754_infinity false => usize_max
  | S754_finite s m e => saturate_usize (round s m e)
  end.

(** [x.floor() as usize], [x.ceil() as usize], [x.round() as usize]; rounding gives an integer that
    is a double, so the conversion truncates nothing *)
Definition floor_usize : f64 -> Z := to_usize floor_of.
Definition ceil_usize : f64 -> Z := to_usize (fun s m e => - floor_of (negb s) m e).
Definition round_usize : f64 -> Z :=
  to_usize (fun s m e =>
    let half_up := if 0 <=? e then Zpos m * 2 ^ e else (2 * Zpos m + 2 ^ (- e)) / 2 ^ (1 - e) in
    cond_Zopp s half_up).

Lemma saturate_usize_bounds x : 0 <= saturate_usize x <= usize_max.
Proof. unfold saturate_usize, usize_max, u64_max. lia. Qed.

(** ** Durations *)

Definition NANOS_PER_SEC : Z := 1000000000.
(** [Duration::MAX] *)
Definition DURATION_MAX : Z := u64_max * NANOS_PER_SEC + NANOS_PER_SEC - 1.

(** [Duration::as_secs_f64]: [(secs as f64) + (nanos as f64) / (NANOS_PER_SEC as f64)] *)
Definition as_secs_f64 (d : Z) : f64 :=
  fadd (f64_of_Z (d / NANOS_PER_SEC)) (fdiv (f64_of_Z (d mod NANOS_PER_SEC)) (f64_of_Z NANOS_PER_SEC)).

(** [a / b] to the nearest integer, ties to even *)
Definition div_nearest_even (a b : Z) : Z :=
  let q := a / b in
  match Z.compare (2 * (a mod b)) b with
  | Lt => q
  | Gt => q + 1
  | Eq => if Z.even q then q else q + 1
  end.

(** [Duration::from_secs_f64]: the nearest number of nanoseconds; [None] is the panic on a negative
    number, a NaN or a number that does not fit *)
Definition from_secs_f64 (x : f64) : option Z :=
  match x with
  | S754_zero _ => Some 0
  | S754_finite false m e =>
      let nanos := if 0 <=? e then Zpos m * 2 ^ e * NANOS_PER_SEC
                   else div_nearest_even (Zpos m * NANOS_PER_SEC) (2 ^ (- e)) in
      if nanos <=? DURATION_MAX then Some nanos else None
  | _ => None
  end.

(** [now.saturating_duration_since(earlier)] *)
Definition saturating_duration_since (now earlier : Z) : Z := Z.max 0 (now - earlier).
