(* ===== verification/Options.v ===== *)
(** * Write options

    [crates/persistence/src/sqlite/options.rs]: the limits of the adaptive batches and their
    validation. *)
From S2P Require Import Prelude Float.

Inductive DurabilityMode : Type := DNone | DBalanced | DStrict.

Record BatchOptions := mkBatchOptions {
  batch_size_min : Z;
  batch_size_max : Z;
  batch_wait_min : Z; (* nanoseconds *)
  batch_wait_max : Z;
  ewma_window : Z;
  batch_probe_factor : f64;
  batch_backoff_factor : f64
}.

(** [Duration::from_millis] *)
Definition from_millis (ms : Z) : Z := ms * 1000000.

Definition enqueue_defaults : BatchOptions :=
  mkBatchOptions 64 8192 (from_millis 1) (from_millis 100) 16 (literal 110 2) (literal 80 2).
Definition completion_defaults : BatchOptions :=
  mkBatchOptions 128 8192 (from_millis 1) (from_millis 20) 16 (literal 125 2) (literal 80 2).

(** [BatchOptions::validate] *)
Definition validate (section : string) (o : BatchOptions) : result string unit :=
  if decide (ewma_window o = 0) then Err (section +:+ ".ewma_window must be greater than zero")
  else if negb (is_finite (batch_probe_factor o)) || fle (batch_probe_factor o) fone
  then Err (section +:+ ".batch_probe_factor must be greater than one")
  else if negb (is_finite (batch_backoff_factor o)) ||
          negb (fle fzero (batch_backoff_factor o) && flt (batch_backoff_factor o) fone)
  then Err (section +:+ ".batch_backoff_factor must be greater than zero and less than one")
  else if decide (batch_size_min o = 0 \/ batch_size_max o < batch_size_min o)
  then Err (section +:+ ".batch_size_min must be positive and not exceed batch_size_max")
  else if decide (batch_wait_min o = 0 \/ batch_wait_max o < batch_wait_min o)
  then Err (section +:+ ".batch_wait_min_ms must be positive and not exceed batch_wait_max_ms")
  else Ok tt.

Record SqliteWriteOptions := mkSqliteWriteOptions {
  durability : DurabilityMode;
  enqueue_options : BatchOptions;
  completion_options : BatchOptions
}.

Definition SqliteWriteOptions_default : SqliteWriteOptions :=
  mkSqliteWriteOptions DNone enqueue_defaults completion_defaults.

(** [SqliteWriteOptions::validate] *)
Definition validate_all (o : SqliteWriteOptions) : result string unit :=
  let? _ := validate "persistence.enqueue" (enqueue_options o) in
  let? _ := validate "persistence.completion" (completion_options o) in
  Ok tt.

(** What the fields of a [usize] or [Duration] are. *)
Record batch_options_typed (o : BatchOptions) : Prop := {
  bt_size_min : 0 <= batch_size_min o;
  bt_size_max : batch_size_max o <= usize_max;
  bt_wait_min : 0 <= batch_wait_min o;
  bt_wait_max : batch_wait_max o <= DURATION_MAX
}.

(** What validation promises to the controllers. *)
Record batch_options_ok (o : BatchOptions) : Prop := {
  bo_size : 0 < batch_size_min o <= batch_size_max o;
  bo_wait : 0 < batch_wait_min o <= batch_wait_max o;
  bo_window : ewma_window o <> 0;
  bo_probe : is_finite (batch_probe_factor o) = true /\ fle (batch_probe_factor o) fone = false;
  bo_backoff : is_finite (batch_backoff_factor o) = true /\ fle fzero (batch_backoff_factor o) = true /\
    flt (batch_backoff_factor o) fone = true
}.

(** Validation accepts exactly the options the controllers can work with. *)
Lemma validate_ok section o :
  batch_options_typed o -> validate section o = Ok tt <-> batch_options_ok o.
Proof.
  intros [? ? ? ?]. unfold validate. split.
  - destruct (decide (ewma_window o = 0)); [done|].
    destruct (is_finite (batch_probe_factor o)) eqn:?; simpl; [|done].
    destruct (fle (batch_probe_factor o) fone) eqn:?; simpl; [done|].
    destruct (is_finite (batch_backoff_factor o)) eqn:?; simpl; [|done].
    destruct (fle fzero _) eqn:?; simpl; [|done]. destruct (flt _ fone) eqn:?; simpl; [|done].
    do 2 (case_decide; [done|]). intros _. split; try done; lia.
  - intros [? ? Hw [-> ->] (-> & -> & ->)]. rewrite (decide_False (P := ewma_window o = 0)) by done. simpl.
    rewrite !decide_False by lia. done.
Qed.
