(* ===== verification/Adaptive.v ===== *)
(** * Adaptive batching

    [crates/engine/src/adaptive.rs] and [crates/persistence/src/sqlite/adaptive.rs]: the averages
    and streaks, the size and the wait of a batch, and the choice between the lanes of the results
    writer. Instants and durations are numbers of nanoseconds. *)
From S2P Require Import Prelude Float Options.

(** ** [Ewma] *)

Record Ewma := mkEwma { ew_alpha : f64; ew_value : option f64 }.

Definition Ewma_new (window : Z) : Ewma :=
  mkEwma (fdiv (f64_of_Z 2) (fadd (f64_of_Z window) fone)) None.

Definition observe (sample : f64) (e : Ewma) : Ewma :=
  if negb (is_finite sample) || flt sample fzero then e
  else mkEwma (ew_alpha e) (Some (match ew_value e with
    | Some value => fadd (fmul (ew_alpha e) sample) (fmul (fsub fone (ew_alpha e)) value)
    | None => sample
    end)).

(** ** [DirectionStreak] *)

Record DirectionStreak := mkStreak { ds_direction : Z; ds_samples : Z }.

Definition DirectionStreak_default : DirectionStreak := mkStreak 0 0.

Definition confirm (direction : Z) (s : DirectionStreak) : bool * DirectionStreak :=
  if decide (direction = 0) then (false, mkStreak 0 0)
  else
    let samples := if decide (ds_direction s = direction) then u8_saturating_add (ds_samples s) 1 else 1 in
    if 3 <=? samples then (true, mkStreak direction 0) else (false, mkStreak direction samples).

(** ** [AdaptiveBatch] *)

Record AdaptiveBatch := mkBatch {
  ab_min : Z;
  ab_max : Z;
  ab_size : Z;
  ab_probe_factor : f64;
  ab_backoff_factor : f64;
  ab_direction : DirectionStreak
}.

Definition AdaptiveBatch_new (min max : Z) (probe_factor backoff_factor : f64) : AdaptiveBatch :=
  mkBatch min max (clamp (round_usize (fsqrt (fmul (f64_of_Z min) (f64_of_Z max)))) min max)
    probe_factor backoff_factor DirectionStreak_default.

Definition with_size (size : Z) (b : AdaptiveBatch) : AdaptiveBatch :=
  mkBatch (ab_min b) (ab_max b) size (ab_probe_factor b) (ab_backoff_factor b) (ab_direction b).
Definition with_direction (s : DirectionStreak) (b : AdaptiveBatch) : AdaptiveBatch :=
  mkBatch (ab_min b) (ab_max b) (ab_size b) (ab_probe_factor b) (ab_backoff_factor b) s.

Definition set_size (size : Z) (b : AdaptiveBatch) : AdaptiveBatch :=
  with_size (clamp size (ab_min b) (ab_max b)) b.

Definition observe_direction (direction : Z) (b : AdaptiveBatch) : bool * AdaptiveBatch :=
  let confirmed := confirm direction (ab_direction b) in
  let b := with_direction confirmed.2 b in
  if confirmed.1 then
    let previous := ab_size b in
    let size :=
      if decide (direction = 1) then ceil_usize (fmul (f64_of_Z (ab_size b)) (ab_probe_factor b))
      else if decide (direction = -1) then floor_usize (fmul (f64_of_Z (ab_size b)) (ab_backoff_factor b))
      else ab_size b in
    let b := set_size size b in
    (negb (bool_decide (ab_size b = previous)), b)
  else (false, b).

Definition reset_direction (b : AdaptiveBatch) : AdaptiveBatch :=
  with_direction (confirm 0 (ab_direction b)).2 b.

(** ** [AdaptiveBatchController] *)

Definition LOW_FILL_TIMEOUTS : Z := 3.
Definition WAIT_ADJUST_UP : f64 := literal 125 2.
Definition WAIT_ADJUST_DOWN : f64 := literal 80 2.
Definition WAIT_DIRECTION_HIGH : f64 := literal 120 2.
Definition WAIT_DIRECTION_LOW : f64 := literal 80 2.
Definition MAX_QUEUEING_RATIO : f64 := literal 120 2.
Definition TARGET_FILL_RATIO : f64 := literal 75 2.
Definition BASELINE_RELAXATION : f64 := literal 2 2.
Definition LOW_FILL_RATIO : f64 := literal 50 2.
Definition COMPLETION_GOODPUT_REGRESSION : f64 := literal 95 2.
Definition COMPLETION_GOODPUT_RELAXATION : f64 := literal 10 2.

Inductive FlushReason : Type := FullBatch | Timeout.

Record AdaptiveBatchController := mkController {
  limits : BatchOptions;
  request_rate : Ewma;
  commit_rate : Ewma;
  commit_duration : Ewma;
  fill_ratio : Ewma;
  baseline_commit_duration : option f64;
  batch : AdaptiveBatch;
  batch_wait : Z;
  backlog : Z;
  low_fill_timeouts : Z;
  last_request : option Z;
  last_commit : option Z;
  wait_direction_streak : DirectionStreak;
  completion_goodput : Ewma;
  completion_goodput_baseline : option f64
}.

Definition AdaptiveBatchController_new (options : BatchOptions) : AdaptiveBatchController := {|
  limits := options;
  request_rate := Ewma_new (ewma_window options);
  commit_rate := Ewma_new (ewma_window options);
  commit_duration := Ewma_new (ewma_window options);
  fill_ratio := Ewma_new (ewma_window options);
  baseline_commit_duration := None;
  batch := AdaptiveBatch_new (batch_size_min options) (batch_size_max options)
             (batch_probe_factor options) (batch_backoff_factor options);
  batch_wait := batch_wait_min options;
  backlog := 0;
  low_fill_timeouts := 0;
  last_request := None;
  last_commit := None;
  wait_direction_streak := DirectionStreak_default;
  completion_goodput := Ewma_new (ewma_window options);
  completion_goodput_baseline := None
|}.

(** Updates of one field *)
Definition set_request_rate (x : Ewma) (c : AdaptiveBatchController) :=
  mkController (limits c) x (commit_rate c) (commit_duration c) (fill_ratio c) (baseline_commit_duration c) (batch c)
    (batch_wait c) (backlog c) (low_fill_timeouts c) (last_request c) (last_commit c) (wait_direction_streak c)
    (completion_goodput c) (completion_goodput_baseline c).
Definition set_commit_rate (x : Ewma) (c : AdaptiveBatchController) :=
  mkController (limits c) (request_rate c) x (commit_duration c) (fill_ratio c) (baseline_commit_duration c) (batch c)
    (batch_wait c) (backlog c) (low_fill_timeouts c) (last_request c) (last_commit c) (wait_direction_streak c)
    (completion_goodput c) (completion_goodput_baseline c).
Definition set_commit_duration (x : Ewma) (c : AdaptiveBatchController) :=
  mkController (limits c) (request_rate c) (commit_rate c) x (fill_ratio c) (baseline_commit_duration c) (batch c)
    (batch_wait c) (backlog c) (low_fill_timeouts c) (last_request c) (last_commit c) (wait_direction_streak c)
    (completion_goodput c) (completion_goodput_baseline c).
Definition set_fill_ratio (x : Ewma) (c : AdaptiveBatchController) :=
  mkController (limits c) (request_rate c) (commit_rate c) (commit_duration c) x (baseline_commit_duration c) (batch c)
    (batch_wait c) (backlog c) (low_fill_timeouts c) (last_request c) (last_commit c) (wait_direction_streak c)
    (completion_goodput c) (completion_goodput_baseline c).
Definition set_baseline (x : option f64) (c : AdaptiveBatchController) :=
  mkController (limits c) (request_rate c) (commit_rate c) (commit_duration c) (fill_ratio c) x (batch c)
    (batch_wait c) (backlog c) (low_fill_timeouts c) (last_request c) (last_commit c) (wait_direction_streak c)
    (completion_goodput c) (completion_goodput_baseline c).
Definition set_batch (x : AdaptiveBatch) (c : AdaptiveBatchController) :=
  mkController (limits c) (request_rate c) (commit_rate c) (commit_duration c) (fill_ratio c)
    (baseline_commit_duration c) x (batch_wait c) (backlog c) (low_fill_timeouts c) (last_request c) (last_commit c)
    (wait_direction_streak c) (completion_goodput c) (completion_goodput_baseline c).
Definition set_batch_wait (x : Z) (c : AdaptiveBatchController) :=
  mkController (limits c) (request_rate c) (commit_rate c) (commit_duration c) (fill_ratio c)
    (baseline_commit_duration c) (batch c) x (backlog c) (low_fill_timeouts c) (last_request c) (last_commit c)
    (wait_direction_streak c) (completion_goodput c) (completion_goodput_baseline c).
Definition set_backlog (x : Z) (c : AdaptiveBatchController) :=
  mkController (limits c) (request_rate c) (commit_rate c) (commit_duration c) (fill_ratio c)
    (baseline_commit_duration c) (batch c) (batch_wait c) x (low_fill_timeouts c) (last_request c) (last_commit c)
    (wait_direction_streak c) (completion_goodput c) (completion_goodput_baseline c).
Definition set_low_fill (x : Z) (c : AdaptiveBatchController) :=
  mkController (limits c) (request_rate c) (commit_rate c) (commit_duration c) (fill_ratio c)
    (baseline_commit_duration c) (batch c) (batch_wait c) (backlog c) x (last_request c) (last_commit c)
    (wait_direction_streak c) (completion_goodput c) (completion_goodput_baseline c).
Definition set_last_request (x : option Z) (c : AdaptiveBatchController) :=
  mkController (limits c) (request_rate c) (commit_rate c) (commit_duration c) (fill_ratio c)
    (baseline_commit_duration c) (batch c) (batch_wait c) (backlog c) (low_fill_timeouts c) x (last_commit c)
    (wait_direction_streak c) (completion_goodput c) (completion_goodput_baseline c).
Definition set_last_commit (x : option Z) (c : AdaptiveBatchController) :=
  mkController (limits c) (request_rate c) (commit_rate c) (commit_duration c) (fill_ratio c)
    (baseline_commit_duration c) (batch c) (batch_wait c) (backlog c) (low_fill_timeouts c) (last_request c) x
    (wait_direction_streak c) (completion_goodput c) (completion_goodput_baseline c).
Definition set_wait_streak (x : DirectionStreak) (c : AdaptiveBatchController) :=
  mkController (limits c) (request_rate c) (commit_rate c) (commit_duration c) (fill_ratio c)
    (baseline_commit_duration c) (batch c) (batch_wait c) (backlog c) (low_fill_timeouts c) (last_request c)
    (last_commit c) x (completion_goodput c) (completion_goodput_baseline c).
Definition set_goodput (x : Ewma) (c : AdaptiveBatchController) :=
  mkController (limits c) (request_rate c) (commit_rate c) (commit_duration c) (fill_ratio c)
    (baseline_commit_duration c) (batch c) (batch_wait c) (backlog c) (low_fill_timeouts c) (last_request c)
    (last_commit c) (wait_direction_streak c) x (completion_goodput_baseline c).
Definition set_goodput_baseline (x : option f64) (c : AdaptiveBatchController) :=
  mkController (limits c) (request_rate c) (commit_rate c) (commit_duration c) (fill_ratio c)
    (baseline_commit_duration c) (batch c) (batch_wait c) (backlog c) (low_fill_timeouts c) (last_request c)
    (last_commit c) (wait_direction_streak c) (completion_goodput c) x.

Definition batch_size (c : AdaptiveBatchController) : Z := ab_size (batch c).

Definition observe_request (now : Z) (c : AdaptiveBatchController) : AdaptiveBatchController :=
  let previous := last_request c in
  let c := set_last_request (Some now) c in
  match previous with
  | None => c
  | Some previous =>
      let elapsed := as_secs_f64 (saturating_duration_since now previous) in
      if fgt elapsed fzero then set_request_rate (observe (fdiv fone elapsed) (request_rate c)) c else c
  end.

Definition observe_commit_baseline (sample : f64) (c : AdaptiveBatchController) : AdaptiveBatchController :=
  set_baseline (Some (match baseline_commit_duration c with
    | None => sample
    | Some baseline =>
        if flt sample baseline then sample
        else fadd baseline (fmul (fsub sample baseline) BASELINE_RELAXATION)
    end)) c.

(** [self.batch.set_size((size * backoff_factor).floor())], and the reset of the streaks *)
Definition shrink_batch (c : AdaptiveBatchController) : AdaptiveBatchController :=
  let b := set_size (floor_usize (fmul (f64_of_Z (ab_size (batch c))) (batch_backoff_factor (limits c)))) (batch c) in
  set_batch (reset_direction b) (set_low_fill 0 c).

Definition adjust_batch_size (c : AdaptiveBatchController) : AdaptiveBatchController :=
  match ew_value (commit_duration c), baseline_commit_duration c with
  | Some duration, Some baseline =>
      let queueing_ratio := fdiv duration (fmax baseline MIN_POSITIVE) in
      if (LOW_FILL_TIMEOUTS <=? low_fill_timeouts c) && fle queueing_ratio MAX_QUEUEING_RATIO then shrink_batch c
      else
        let demand_exceeds_service :=
          match ew_value (request_rate c), ew_value (commit_rate c) with
          | Some request, Some commit =>
              if fgt commit fzero then fgt request (fmul (f64_of_Z (ab_size (batch c))) commit) else false
          | _, _ => false
          end in
        let direction :=
          if fgt queueing_ratio MAX_QUEUEING_RATIO then -1
          else if (0 <? backlog c) || demand_exceeds_service then 1 else 0 in
        set_batch (observe_direction direction (batch c)).2 c
  | _, _ => c
  end.

Definition adjust_completion_batch_size (c : AdaptiveBatchController) : AdaptiveBatchController :=
  match ew_value (completion_goodput c) with
  | None => c
  | Some goodput =>
      if (LOW_FILL_TIMEOUTS <=? low_fill_timeouts c) && (backlog c =? 0) then
        set_goodput_baseline (Some goodput) (shrink_batch c)
      else if backlog c =? 0 then
        set_batch (observe_direction 0 (batch c)).2 (set_goodput_baseline (Some goodput) c)
      else
        let baseline := default goodput (completion_goodput_baseline c) in
        let direction := if flt goodput (fmul baseline COMPLETION_GOODPUT_REGRESSION) then -1 else 1 in
        let changed := observe_direction direction (batch c) in
        set_goodput_baseline (Some
          (if 0 <? direction then fadd baseline (fmul (fsub goodput baseline) COMPLETION_GOODPUT_RELAXATION)
           else if changed.1 then goodput else baseline)) (set_batch changed.2 c)
  end.

(** The wait that fills three quarters of a batch at the current rate, before it is clamped;
    [None] when it is no [Duration] *)
Definition desired_wait (rate : f64) (c : AdaptiveBatchController) : option Z :=
  from_secs_f64 (fmax (fdiv (fmul (f64_of_Z (ab_size (batch c))) TARGET_FILL_RATIO) rate)
                   (as_secs_f64 (batch_wait_min (limits c)))).

(** [None] is a panic of [Duration::from_secs_f64]. *)
Definition adjust_batch_wait (c : AdaptiveBatchController) : option AdaptiveBatchController :=
  match ew_value (request_rate c) with
  | None => Some c
  | Some rate =>
      if negb (fgt rate fzero) then Some c
      else
        desired ← desired_wait rate c;
        let desired := clamp desired (batch_wait_min (limits c)) (batch_wait_max (limits c)) in
        let wait := as_secs_f64 (batch_wait c) in
        let direction :=
          if fgt (as_secs_f64 desired) (fmul wait WAIT_DIRECTION_HIGH) then 1
          else if flt (as_secs_f64 desired) (fmul wait WAIT_DIRECTION_LOW) then -1 else 0 in
        let confirmed := confirm direction (wait_direction_streak c) in
        let c := set_wait_streak confirmed.2 c in
        if negb confirmed.1 then Some c
        else
          next ← (if decide (direction = 1) then (fun d => Z.min d desired) <$> from_secs_f64 (fmul wait WAIT_ADJUST_UP)
                  else if decide (direction = -1)
                  then (fun d => Z.max d desired) <$> from_secs_f64 (fmul wait WAIT_ADJUST_DOWN)
                  else Some (batch_wait c));
          Some (set_batch_wait (clamp next (batch_wait_min (limits c)) (batch_wait_max (limits c))) c)
  end.

(** [usize] as [f64], over the batch size *)
Definition fill_of (filled : Z) (c : AdaptiveBatchController) : f64 :=
  fdiv (f64_of_Z filled) (f64_of_Z (Z.max (ab_size (batch c)) 1)).

(** The count of the timeouts that found the batch less than half full *)
Definition count_low_fill (reason : FlushReason) (ratio : f64) (c : AdaptiveBatchController) : AdaptiveBatchController :=
  match reason with
  | Timeout =>
      if (backlog c =? 0) && flt ratio LOW_FILL_RATIO then set_low_fill (u8_saturating_add (low_fill_timeouts c) 1) c
      else set_low_fill 0 c
  | FullBatch => set_low_fill 0 c
  end.

Definition record_successful_commit (filled elapsed completed_at queued : Z) (reason : FlushReason)
    (c : AdaptiveBatchController) : option AdaptiveBatchController :=
  let c := set_backlog queued c in
  let duration := as_secs_f64 elapsed in
  let c := set_commit_duration (observe duration (commit_duration c)) c in
  let c := observe_commit_baseline duration c in
  let previous := last_commit c in
  let c := set_last_commit (Some completed_at) c in
  let c :=
    match previous with
    | None => c
    | Some previous =>
        let interval := as_secs_f64 (saturating_duration_since completed_at previous) in
        if fgt interval fzero then set_commit_rate (observe (fdiv fone interval) (commit_rate c)) c else c
    end in
  let ratio := fill_of filled c in
  let c := set_fill_ratio (observe ratio (fill_ratio c)) c in
  let c := count_low_fill reason ratio c in
  adjust_batch_wait (adjust_batch_size c).

Definition record_successful_completion_commit (filled elapsed completed_at queued : Z) (reason : FlushReason)
    (c : AdaptiveBatchController) : option AdaptiveBatchController :=
  let c := set_backlog queued c in
  let previous := last_commit c in
  let c := set_last_commit (Some completed_at) c in
  let interval := match previous with
                  | Some previous => saturating_duration_since completed_at previous
                  | None => elapsed end in
  let seconds := as_secs_f64 interval in
  let c := if fgt seconds fzero then set_goodput (observe (fdiv (f64_of_Z filled) seconds) (completion_goodput c)) c
           else c in
  let ratio := fill_of filled c in
  let c := set_fill_ratio (observe ratio (fill_ratio c)) c in
  let c := count_low_fill reason ratio c in
  adjust_batch_wait (adjust_completion_batch_size c).

(** ** [ResultsLaneController] *)

Definition MAX_RESULTS_PREFERRED_LANE_TURNS : Z := 32.

Inductive ResultsLane : Type := Dispatch | Completion.
#[export] Instance ResultsLane_eq_dec : EqDecision ResultsLane.
Proof. solve_decision. Defined.

Inductive ResultsLaneSelectionReason : Type := OnlyActive | InitialTieBreak | Preferred | StarvationOverride.

Record ResultsLaneController := mkLanes {
  dispatch_rows_per_turn : Ewma;
  dispatch_turn_duration : Ewma;
  completion_rows_per_turn : Ewma;
  completion_turn_duration : Ewma;
  shared_rows_per_turn : Ewma;
  shared_turn_duration : Ewma;
  preferred : option ResultsLane;
  direction_streak : DirectionStreak;
  preferred_turns : Z
}.

Definition ResultsLaneController_new (window : Z) : ResultsLaneController :=
  mkLanes (Ewma_new window) (Ewma_new window) (Ewma_new window) (Ewma_new window) (Ewma_new window) (Ewma_new window)
    None DirectionStreak_default 0.

(** Update of the preference, the streak and the turns *)
Definition set_preference (p : option ResultsLane) (s : DirectionStreak) (turns : Z) (c : ResultsLaneController) :=
  mkLanes (dispatch_rows_per_turn c) (dispatch_turn_duration c) (completion_rows_per_turn c)
    (completion_turn_duration c) (shared_rows_per_turn c) (shared_turn_duration c) p s turns.

Definition other_lane (lane : ResultsLane) : ResultsLane :=
  match lane with Dispatch => Completion | Completion => Dispatch end.

(** [a.or(b)] *)
Definition option_or {A} (a b : option A) : option A := match a with Some _ => a | None => b end.

Definition pressure (lane : ResultsLane) (queued_rows : Z) (oldest : option Z) (now : Z) (c : ResultsLaneController) :
    option f64 :=
  let rows_per_turn := match lane with
                       | Dispatch => ew_value (dispatch_rows_per_turn c)
                       | Completion => ew_value (completion_rows_per_turn c) end in
  let turn_duration := match lane with
                       | Dispatch => ew_value (dispatch_turn_duration c)
                       | Completion => ew_value (completion_turn_duration c) end in
  rows ← option_or rows_per_turn (ew_value (shared_rows_per_turn c));
  duration ← option_or turn_duration (ew_value (shared_turn_duration c));
  let queued_turns := fdiv (f64_of_Z queued_rows) (fmax rows fone) in
  let waited := match oldest with
                | Some queued_at => as_secs_f64 (saturating_duration_since now queued_at)
                | None => fzero end in
  Some (fadd queued_turns (fdiv waited (fmax duration MIN_POSITIVE))).

(** Which lane has more pressure: [1] the completions, [-1] the dispatches *)
Definition pressure_direction (dispatch completion : option f64) : Z :=
  match dispatch, completion with
  | Some dispatch, Some completion => if fgt completion dispatch then 1 else if fgt dispatch completion then -1 else 0
  | _, _ => 0
  end.

Definition select (dispatch_rows : Z) (dispatch_oldest : option Z) (completion_rows : Z) (completion_oldest : option Z)
    (now : Z) (c : ResultsLaneController) : option (ResultsLane * ResultsLaneSelectionReason) * ResultsLaneController :=
  match 0 <? dispatch_rows, 0 <? completion_rows with
  | false, false => (None, c)
  | true, false => (Some (Dispatch, OnlyActive), set_preference (preferred c) (direction_streak c) 0 c)
  | false, true => (Some (Completion, OnlyActive), set_preference (preferred c) (direction_streak c) 0 c)
  | true, true =>
      let direction := pressure_direction (pressure Dispatch dispatch_rows dispatch_oldest now c)
                         (pressure Completion completion_rows completion_oldest now c) in
      let confirmed := confirm direction (direction_streak c) in
      let next_preferred := if decide (direction = 1) then Some Completion
                            else if decide (direction = -1) then Some Dispatch else preferred c in
      let c :=
        if confirmed.1 && negb (bool_decide (next_preferred = preferred c))
        then set_preference next_preferred confirmed.2 0 c
        else set_preference (preferred c) confirmed.2 (preferred_turns c) c in
      match preferred c with
      | None => (Some (Completion, InitialTieBreak), c)
      | Some lane =>
          if MAX_RESULTS_PREFERRED_LANE_TURNS <=? preferred_turns c then (Some (other_lane lane, StarvationOverride), c)
          else (Some (lane, Preferred), c)
      end
  end.

(** [observe_success], the duration in nanoseconds *)
Definition observe_success (lane : ResultsLane) (rows duration : Z) (c : ResultsLaneController) : ResultsLaneController :=
  if decide (rows = 0) then c
  else
    let rows := f64_of_Z rows in
    let duration := as_secs_f64 duration in
    let shared_rows := observe rows (shared_rows_per_turn c) in
    let shared_duration := observe duration (shared_turn_duration c) in
    match lane with
    | Dispatch =>
        mkLanes (observe rows (dispatch_rows_per_turn c)) (observe duration (dispatch_turn_duration c))
          (completion_rows_per_turn c) (completion_turn_duration c) shared_rows shared_duration
          (preferred c) (direction_streak c) (preferred_turns c)
    | Completion =>
        mkLanes (dispatch_rows_per_turn c) (dispatch_turn_duration c)
          (observe rows (completion_rows_per_turn c)) (observe duration (completion_turn_duration c))
          shared_rows shared_duration (preferred c) (direction_streak c) (preferred_turns c)
    end.

Definition record_turn (lane : ResultsLane) (c : ResultsLaneController) : ResultsLaneController :=
  set_preference (preferred c) (direction_streak c)
    (if decide (preferred c = Some lane) then Z.min usize_max (preferred_turns c + 1) else 0) c.
