(* ===== verification/AdaptiveProps.v ===== *)
(** * Properties of the adaptive controllers

    The limits every batch keeps to, the direction streaks that damp the changes, and the fairness
    of the lanes of the results writer. *)
From S2P Require Import Prelude Float Options Adaptive.

(** ** Streaks *)

Lemma confirm_zero s : confirm 0 s = (false, mkStreak 0 0).
Proof. done. Qed.

(** The streak of a run of equal directions: every third sample confirms. *)
Lemma confirm_same d n : d <> 0 -> 0 <= n <= 2 ->
  confirm d (mkStreak d n) = (bool_decide (n = 2), mkStreak d (if decide (n = 2) then 0 else n + 1)).
Proof.
  intros Hd Hn. unfold confirm. rewrite decide_False by done. simpl. rewrite decide_True by done.
  assert (n = 0 \/ n = 1 \/ n = 2) as [-> | [-> | ->]] by lia; done.
Qed.

Definition streak_ok (s : DirectionStreak) : Prop := 0 <= ds_samples s <= 2.

Lemma confirm_ok d s : streak_ok s -> streak_ok (confirm d s).2.
Proof.
  unfold streak_ok, confirm, u8_saturating_add, u8_max. intros Hs. case_decide; [done|].
  destruct (decide (ds_direction s = d)); case_match eqn:Hc; simpl; lia.
Qed.

(** ** Limits of a batch *)

Definition batch_in_limits (b : AdaptiveBatch) : Prop :=
  ab_min b <= ab_max b /\ ab_min b <= ab_size b <= ab_max b /\ streak_ok (ab_direction b).

Lemma batch_new_in_limits min max probe backoff :
  min <= max -> batch_in_limits (AdaptiveBatch_new min max probe backoff).
Proof. intros ?. split; [done|]. split; [by apply clamp_bounds|]. unfold streak_ok. simpl. lia. Qed.

Lemma set_size_in_limits n b : batch_in_limits b -> batch_in_limits (set_size n b).
Proof. intros (? & ? & ?). split; [done|]. split; [by apply clamp_bounds|done]. Qed.

Lemma observe_direction_in_limits d b : batch_in_limits b -> batch_in_limits (observe_direction d b).2.
Proof.
  intros (Hle & Hsize & Hs). unfold observe_direction.
  assert (batch_in_limits (with_direction (confirm d (ab_direction b)).2 b)) as Hb.
  { split; [done|]. split; [done|]. by apply confirm_ok. }
  destruct (confirm d (ab_direction b)).1; simpl; [by apply set_size_in_limits|done].
Qed.

Lemma reset_direction_in_limits b : batch_in_limits b -> batch_in_limits (reset_direction b).
Proof. intros (? & ? & ?). split; [done|]. split; [done|]. by apply confirm_ok. Qed.

(** What a direction does to the size: nothing unless it confirms, and then only in its own sense. *)
Lemma observe_direction_unchanged d b :
  (confirm d (ab_direction b)).1 = false -> ab_size (observe_direction d b).2 = ab_size b.
Proof. intros H. unfold observe_direction. by rewrite H. Qed.

(** ** Limits of a controller *)

Record controller_in_limits (o : BatchOptions) (c : AdaptiveBatchController) : Prop := {
  cl_limits : limits c = o;
  cl_min : ab_min (batch c) = batch_size_min o;
  cl_max : ab_max (batch c) = batch_size_max o;
  cl_batch : batch_in_limits (batch c);
  cl_wait : batch_wait_min o <= batch_wait c <= batch_wait_max o
}.

(** The parts of a controller its limits speak of *)
Definition limited (c : AdaptiveBatchController) := (limits c, batch c, batch_wait c).

Lemma in_limits_eq o c c' : limited c' = limited c -> controller_in_limits o c -> controller_in_limits o c'.
Proof. intros [= H1 H2 H3] [? ? ? ? ?]. split; by rewrite ?H1, ?H2, ?H3. Qed.

Lemma in_limits_set_batch o b c :
  controller_in_limits o c -> ab_min b = ab_min (batch c) -> ab_max b = ab_max (batch c) -> batch_in_limits b ->
  controller_in_limits o (set_batch b c).
Proof. intros [? ? ? ? ?] H1 H2 ?. split; simpl; [done|by rewrite H1|by rewrite H2|done|done]. Qed.

Lemma observe_request_limited now c : limited (observe_request now c) = limited c.
Proof. unfold observe_request. repeat case_match; done. Qed.

Lemma count_low_fill_limited reason ratio c : limited (count_low_fill reason ratio c) = limited c.
Proof. unfold count_low_fill. repeat case_match; done. Qed.

Lemma observe_direction_min d b : ab_min (observe_direction d b).2 = ab_min b.
Proof. unfold observe_direction. by case_match. Qed.

Lemma observe_direction_max d b : ab_max (observe_direction d b).2 = ab_max b.
Proof. unfold observe_direction. by case_match. Qed.

Lemma in_limits_observe_direction o d c :
  controller_in_limits o c -> controller_in_limits o (set_batch (observe_direction d (batch c)).2 c).
Proof.
  intros Hc. apply in_limits_set_batch; [done|apply observe_direction_min|apply observe_direction_max|].
  apply observe_direction_in_limits, Hc.
Qed.

Lemma in_limits_shrink o c : controller_in_limits o c -> controller_in_limits o (shrink_batch c).
Proof.
  intros Hc. unfold shrink_batch. apply in_limits_set_batch; [by apply (in_limits_eq _ c)|done|done|].
  apply reset_direction_in_limits, set_size_in_limits, Hc.
Qed.

Lemma adjust_batch_size_in_limits o c : controller_in_limits o c -> controller_in_limits o (adjust_batch_size c).
Proof.
  intros Hc. unfold adjust_batch_size. destruct (ew_value (commit_duration c)); [|done].
  destruct (baseline_commit_duration c); [|done].
  destruct (_ && _); [by apply in_limits_shrink|by apply in_limits_observe_direction].
Qed.

Lemma adjust_completion_batch_size_in_limits o c :
  controller_in_limits o c -> controller_in_limits o (adjust_completion_batch_size c).
Proof.
  intros Hc. unfold adjust_completion_batch_size. destruct (ew_value (completion_goodput c)); [|done].
  destruct (_ && _); [apply (in_limits_eq _ (shrink_batch c)); [done|by apply in_limits_shrink]|].
  destruct (_ =? _); [apply (in_limits_observe_direction o 0 (set_goodput_baseline _ c)); by apply (in_limits_eq _ c)|].
  eapply (in_limits_eq _ (set_batch _ c)), in_limits_observe_direction; done.
Qed.

Lemma adjust_batch_wait_in_limits o c c' :
  batch_wait_min o <= batch_wait_max o -> controller_in_limits o c -> adjust_batch_wait c = Some c' ->
  controller_in_limits o c'.
Proof.
  intros Hw Hc. unfold adjust_batch_wait. destruct (ew_value (request_rate c)) as [rate|]; [|by intros [= <-]].
  destruct (negb _); [by intros [= <-]|].
  destruct (desired_wait rate c) as [desired|]; simpl; [|done].
  destruct (negb _); [intros [= <-]; by apply (in_limits_eq _ c)|].
  intros H. apply bind_Some in H as (next & _ & [= <-]).
  destruct Hc as [Hl ? ? ? ?]. split; simpl; [done..|]. rewrite Hl. by apply clamp_bounds.
Qed.

(** ** What the writers tell a controller *)

Inductive observation : Type :=
| ORequest (now : Z)
| OCommit (filled elapsed completed_at queued : Z) (reason : FlushReason)
| OCompletionCommit (filled elapsed completed_at queued : Z) (reason : FlushReason).

Definition observe_one (x : observation) (c : AdaptiveBatchController) : option AdaptiveBatchController :=
  match x with
  | ORequest now => Some (observe_request now c)
  | OCommit filled elapsed at_ queued reason => record_successful_commit filled elapsed at_ queued reason c
  | OCompletionCommit filled elapsed at_ queued reason =>
      record_successful_completion_commit filled elapsed at_ queued reason c
  end.

(** The observations in order; [None] once one of them panicked. *)
Definition observe_all (xs : list observation) (c : AdaptiveBatchController) : option AdaptiveBatchController :=
  foldl (fun r x => r ≫= observe_one x) (Some c) xs.

Lemma controller_new_in_limits o : batch_options_ok o -> controller_in_limits o (AdaptiveBatchController_new o).
Proof. intros [? ? ? ? ?]. split; simpl; [done..|apply batch_new_in_limits; lia|lia]. Qed.

Lemma observe_one_in_limits o x c c' :
  batch_options_ok o -> controller_in_limits o c -> observe_one x c = Some c' -> controller_in_limits o c'.
Proof.
  intros Ho Hc. assert (batch_wait_min o <= batch_wait_max o) by (destruct Ho; lia).
  destruct x as [now|filled elapsed at_ queued reason|filled elapsed at_ queued reason]; simpl.
  - intros [= <-]. by eapply in_limits_eq; [apply observe_request_limited|].
  - unfold record_successful_commit. apply adjust_batch_wait_in_limits; [done|].
    apply adjust_batch_size_in_limits. eapply in_limits_eq; [rewrite count_low_fill_limited|done].
    simpl. repeat case_match; done.
  - unfold record_successful_completion_commit. apply adjust_batch_wait_in_limits; [done|].
    apply adjust_completion_batch_size_in_limits. eapply in_limits_eq; [rewrite count_low_fill_limited|done].
    simpl. repeat case_match; done.
Qed.

Lemma foldl_None xs : foldl (fun r x => r ≫= observe_one x) None xs = None.
Proof. induction xs; simpl; done. Qed.

Lemma observe_all_in_limits o xs c c' :
  batch_options_ok o -> controller_in_limits o c -> observe_all xs c = Some c' -> controller_in_limits o c'.
Proof.
  intros Ho. unfold observe_all. revert c. induction xs as [|x xs IH]; simpl; [intros c Hc [= <-]; done|].
  intros c Hc. destruct (observe_one x c) as [c1|] eqn:Hx; simpl in *; [|by rewrite foldl_None].
  apply IH. by eapply observe_one_in_limits.
Qed.

(** *** The waits on which Rust panics *)

(** There is a request rate, and a wait the controller computes from it or from the current wait is no
    [Duration]: the one that fills three quarters of a batch, or the current one a quarter longer or a
    fifth shorter. *)
Definition wait_overflows (o : BatchOptions) (c : AdaptiveBatchController) : Prop :=
  exists rate, ew_value (request_rate c) = Some rate /\ fgt rate fzero = true /\
    ((exists size, batch_size_min o <= size <= batch_size_max o /\
        from_secs_f64 (fmax (fdiv (fmul (f64_of_Z size) TARGET_FILL_RATIO) rate) (as_secs_f64 (batch_wait_min o))) = None) \/
     from_secs_f64 (fmul (as_secs_f64 (batch_wait c)) WAIT_ADJUST_UP) = None \/
     from_secs_f64 (fmul (as_secs_f64 (batch_wait c)) WAIT_ADJUST_DOWN) = None).

Lemma adjust_batch_wait_panics o c :
  controller_in_limits o c -> adjust_batch_wait c = None -> wait_overflows o c.
Proof.
  intros [Hl Hmin Hmax (_ & Hs & _) _]. unfold adjust_batch_wait, wait_overflows.
  destruct (ew_value (request_rate c)) as [rate|]; [|done]. destruct (fgt rate fzero) eqn:Hr; [|done]. simpl.
  intros H. exists rate. split; [done|]. split; [done|]. revert H. unfold desired_wait. rewrite Hl.
  destruct (from_secs_f64 (fmax _ _)) as [desired|] eqn:Hd.
  2:{ intros _. left. exists (ab_size (batch c)). split; [lia|done]. }
  simpl. destruct (negb _); [done|]. intros H. right.
  destruct (decide _); [left|destruct (decide _); [right|done]];
    destruct (from_secs_f64 (fmul _ _)); done.
Qed.

(** What the choice of the size leaves alone *)
Definition timed (c : AdaptiveBatchController) := (request_rate c, batch_wait c).

Lemma wait_overflows_timed o c c' : timed c' = timed c -> wait_overflows o c' -> wait_overflows o c.
Proof. intros [= H1 H2]. unfold wait_overflows. by rewrite H1, H2. Qed.

Lemma adjust_batch_size_timed c : timed (adjust_batch_size c) = timed c.
Proof. unfold adjust_batch_size. repeat case_match; done. Qed.

Lemma adjust_completion_batch_size_timed c : timed (adjust_completion_batch_size c) = timed c.
Proof. unfold adjust_completion_batch_size. repeat case_match; done. Qed.

(** An observation panics only for a wait that is no [Duration]. *)
Lemma observe_one_panics o x c :
  controller_in_limits o c -> observe_one x c = None -> wait_overflows o c.
Proof.
  intros Hc. destruct x as [now|filled elapsed at_ queued reason|filled elapsed at_ queued reason]; simpl; [done|..].
  - unfold record_successful_commit. intros Hp%(adjust_batch_wait_panics o).
    + revert Hp. apply wait_overflows_timed. rewrite adjust_batch_size_timed.
      unfold count_low_fill. repeat case_match; done.
    + apply adjust_batch_size_in_limits. eapply in_limits_eq; [rewrite count_low_fill_limited|done].
      simpl. repeat case_match; done.
  - unfold record_successful_completion_commit. intros Hp%(adjust_batch_wait_panics o).
    + revert Hp. apply wait_overflows_timed. rewrite adjust_completion_batch_size_timed.
      unfold count_low_fill. repeat case_match; done.
    + apply adjust_completion_batch_size_in_limits. eapply in_limits_eq; [rewrite count_low_fill_limited|done].
      simpl. repeat case_match; done.
Qed.

(** Options that pass validation bound every batch: a controller built from them keeps, whatever
    it observes afterwards (as long as its thread lives), a batch size between the configured
    sizes, which is at least one, and a wait between the configured waits. *)
Theorem batch_limits_are_kept section o xs c :
  batch_options_typed o -> validate section o = Ok tt ->
  observe_all xs (AdaptiveBatchController_new o) = Some c ->
  0 < batch_size_min o <= batch_size c /\ batch_size c <= batch_size_max o /\
  batch_wait_min o <= batch_wait c <= batch_wait_max o.
Proof.
  intros Ht Hv Hxs. apply validate_ok in Hv; [|done].
  destruct (observe_all_in_limits o xs _ c Hv (controller_new_in_limits o Hv) Hxs) as [_ Hmin Hmax (_ & Hs & _) Hw].
  destruct Hv. unfold batch_size. lia.
Qed.

Definition example_observations : list observation := [
  ORequest 0; ORequest 1000000; ORequest 3000000;
  OCommit 64 2000000 5000000 10 FullBatch;
  OCommit 64 2000000 7000000 10 FullBatch;
  OCommit 64 2000000 9000000 10 FullBatch;
  OCompletionCommit 1 2000000 11000000 0 Timeout ].

(** Three commits with a backlog grow the batch of 724 rows by a tenth. *)
Lemma batch_limits_are_kept_witness :
  exists c, observe_all example_observations (AdaptiveBatchController_new enqueue_defaults) = Some c /\
    batch_size (AdaptiveBatchController_new enqueue_defaults) = 724 /\ batch_size c = 797 /\
    0 < 64 <= batch_size c /\ batch_size c <= 8192.
Proof.
  destruct (observe_all example_observations (AdaptiveBatchController_new enqueue_defaults)) as [c|] eqn:Hc;
    [|by vm_compute in Hc].
  exists c. split; [done|]. split; [by vm_compute|]. split.
  - enough (batch_size <$> Some c = Some 797) as [= H] by done. rewrite <- Hc. by vm_compute.
  - destruct (batch_limits_are_kept "persistence.enqueue" enqueue_defaults example_observations c) as (H1 & H2 & _).
    + split; vm_compute; congruence.
    + by vm_compute.
    + done.
    + split; [exact H1|exact H2].
Defined.

(** ** Fairness of the lanes *)

(** What a turn of the results writer is told: the rows queued in the two lanes and since when, the
    time, and the success of the turn, if it had one. *)
Record lane_input := mkInput {
  in_dispatch_rows : Z;
  in_dispatch_oldest : option Z;
  in_completion_rows : Z;
  in_completion_oldest : option Z;
  in_now : Z;
  in_success : option (Z * Z) (* rows and duration *)
}.

(** One turn: [select], the work of the lane, [observe_success] when it succeeded, [record_turn]. *)
Definition lane_turn (i : lane_input) (c : ResultsLaneController) : option ResultsLane * ResultsLaneController :=
  let selected := select (in_dispatch_rows i) (in_dispatch_oldest i) (in_completion_rows i) (in_completion_oldest i)
                    (in_now i) c in
  match selected.1 with
  | None => (None, selected.2)
  | Some (lane, _) =>
      let c := match in_success i with
               | Some (rows, duration) => observe_success lane rows duration selected.2
               | None => selected.2 end in
      (Some lane, record_turn lane c)
  end.

(** The lanes that had a turn, in order *)
Fixpoint lane_turns (inputs : list lane_input) (c : ResultsLaneController) :
    list ResultsLane * ResultsLaneController :=
  match inputs with
  | [] => ([], c)
  | i :: inputs =>
      let turn := lane_turn i c in
      let rest := lane_turns inputs turn.2 in
      (option_list turn.1 ++ rest.1, rest.2)
  end.

Definition both_active (i : lane_input) : Prop := 0 < in_dispatch_rows i /\ 0 < in_completion_rows i.

(** The preference and its turns, all that the choice of a lane changes *)
Definition preference (c : ResultsLaneController) := (preferred c, preferred_turns c).

Lemma observe_success_preference lane rows duration c :
  preference (observe_success lane rows duration c) = preference c.
Proof. unfold observe_success. case_decide; [done|]. by destruct lane. Qed.

(** With both lanes active and a preference, a turn keeps the preference or replaces it, and goes
    to the preferred lane unless that has had its 32 turns in a row. *)
Lemma lane_turn_active i c p :
  both_active i -> preferred c = Some p ->
  exists q turns lane, (lane_turn i c).1 = Some lane /\
    (q = p /\ turns = preferred_turns c \/ q = other_lane p /\ turns = 0) /\
    (lane = if 32 <=? turns then other_lane q else q) /\
    preference (lane_turn i c).2 = (Some q, if 32 <=? turns then 0 else Z.min usize_max (turns + 1)).
Proof.
  intros [Hd Hc] Hp. unfold lane_turn, select.
  rewrite (proj2 (Z.ltb_lt _ _) Hd), (proj2 (Z.ltb_lt _ _) Hc).
  set (direction := pressure_direction _ _). set (s := confirm direction _).
  set (next := if decide (direction = 1) then _ else _).
  destruct (s.1 && negb (bool_decide (next = preferred c))) eqn:Hflip.
  - apply andb_true_iff in Hflip as [_ Hne%negb_true_iff%bool_decide_eq_false].
    assert (next = Some (other_lane p)) as Hnext.
    { unfold next in *. rewrite Hp in *. repeat case_decide; destruct p; simpl; congruence. }
    rewrite Hnext. exists (other_lane p), 0, (other_lane p). simpl. split; [done|]. split; [by right|]. split; [done|].
    unfold record_turn. destruct (in_success i) as [[rows duration]|].
    + pose proof (observe_success_preference (other_lane p) rows duration
        (set_preference (Some (other_lane p)) s.2 0 c)) as [= H1 H2].
      unfold preference. simpl. rewrite H1, H2. simpl. by rewrite decide_True by done.
    + unfold preference. simpl. by rewrite decide_True by done.
  - rewrite Hp. cbn [fst snd preferred set_preference preferred_turns]. unfold MAX_RESULTS_PREFERRED_LANE_TURNS.
    exists p, (preferred_turns c), (if 32 <=? preferred_turns c then other_lane p else p).
    assert (other_lane p <> p) as Hop by by destruct p.
    destruct (32 <=? preferred_turns c); simpl; (split; [done|]); (split; [by left|]); (split; [done|]);
      unfold record_turn; destruct (in_success i) as [[rows duration]|];
      try (match goal with |- context [observe_success ?l ?r ?d ?x] =>
             pose proof (observe_success_preference l r d x) as [= H1 H2] end);
      unfold preference; simpl in *; rewrite ?H1, ?H2; simpl;
      first [by rewrite decide_True by done | rewrite decide_False by congruence; done].
Qed.

(** An upper bound of the turns before lane [l] has one, with both lanes active. *)
Definition turns_until (l : ResultsLane) (c : ResultsLaneController) : Z :=
  if decide (preferred c = Some l) then (if 32 <=? preferred_turns c then 34 else 33) else 33 - preferred_turns c.

Lemma lane_turn_progress l i c :
  both_active i -> preferred c <> None -> 0 <= preferred_turns c <= 32 ->
  ((lane_turn i c).1 = Some l \/ turns_until l (lane_turn i c).2 < turns_until l c) /\
  preferred (lane_turn i c).2 <> None /\ 0 <= preferred_turns (lane_turn i c).2 <= 32.
Proof.
  intros Hi Hsome Ht. destruct (preferred c) as [p|] eqn:Hp; [|done].
  destruct (lane_turn_active i c p Hi Hp) as (q & turns & lane & Hlane & Hq & Hl & [= H1 H2]).
  rewrite Hlane. unfold turns_until. rewrite H1, H2, Hp. unfold usize_max, u64_max.
  split; [|destruct (Z.leb_spec 32 turns); split; [done|lia|done|destruct Hq as [[_ ->]|[_ ->]]; lia]].
  destruct (decide (lane = l)) as [->|Hne]; [by left|right].
  destruct (Z.leb_spec 32 turns), (Z.leb_spec 32 (preferred_turns c)); destruct Hq as [[-> ->]|[-> ->]]; try lia;
    repeat case_decide; destruct p, l; simplify_eq/=; try done; try lia;
    repeat match goal with |- context [?a <=? ?b] => destruct (Z.leb_spec a b) end; lia.
Qed.

(** The end of a turn *)
Lemma record_success_bounded lane success c :
  0 <= preferred_turns c <= 32 -> (preferred c = Some lane -> preferred_turns c < 32) ->
  0 <= preferred_turns (record_turn lane (match success with
    | Some (rows, duration) => observe_success lane rows duration c | None => c end)) <= 32.
Proof.
  intros Ht Hlt. unfold record_turn, usize_max, u64_max. destruct success as [[rows duration]|].
  - pose proof (observe_success_preference lane rows duration c) as [= H1 H2].
    rewrite H1. simpl. rewrite H2. case_decide; [specialize (Hlt ltac:(done))|]; lia.
  - simpl. case_decide; [specialize (Hlt ltac:(done))|]; lia.
Qed.

(** The preferred lane never has more than 32 turns in a row, whatever the lanes contain. *)
Lemma lane_turn_bounded i c : 0 <= preferred_turns c <= 32 -> 0 <= preferred_turns (lane_turn i c).2 <= 32.
Proof.
  intros Ht. destruct (decide (both_active i)) as [Hi|Hi].
  - destruct (preferred c) as [p|] eqn:Hp.
    { eapply (lane_turn_progress p); [done|congruence|done]. }
    unfold lane_turn, select. destruct Hi as [Hd Hc]. rewrite (proj2 (Z.ltb_lt _ _) Hd), (proj2 (Z.ltb_lt _ _) Hc).
    set (s := confirm _ _). set (next := if decide _ then _ else _).
    destruct (s.1 && _); cbn [preferred set_preference preferred_turns fst snd];
      [|rewrite Hp; cbn [fst snd]; apply record_success_bounded; simpl; congruence].
    destruct next as [lane|]; cbn [fst snd]; [destruct (_ <=? _)|]; cbn [fst snd];
      apply record_success_bounded; simpl; done || lia.
  - unfold lane_turn, select. unfold both_active in Hi.
    destruct (Z.ltb_spec 0 (in_dispatch_rows i)), (Z.ltb_spec 0 (in_completion_rows i)); [lia|..|done];
      cbn [fst snd]; apply record_success_bounded; simpl; lia.
Qed.

Lemma lane_turns_bounded inputs c :
  0 <= preferred_turns c <= 32 -> 0 <= preferred_turns (lane_turns inputs c).2 <= 32.
Proof.
  revert c. induction inputs as [|i inputs IH]; simpl; [done|]. intros c Ht. by apply IH, lane_turn_bounded.
Qed.

Lemma lane_turns_fair l inputs c :
  Forall both_active inputs -> preferred c <> None -> 0 <= preferred_turns c <= 32 ->
  turns_until l c <= Z.of_nat (length inputs) -> l ∈ (lane_turns inputs c).1.
Proof.
  revert c. induction inputs as [|i inputs IH]; intros c Hi Hp Ht Hl.
  { exfalso. revert Hl. unfold turns_until. simpl. case_decide; [case_match|]; lia. }
  apply Forall_cons in Hi as [Hi His]. destruct (lane_turn_progress l i c Hi Hp Ht) as (Hprog & Hp' & Ht').
  simpl. apply elem_of_app. destruct Hprog as [->|Hlt]; [left; simpl; set_solver|right].
  apply IH; [done..|]. rewrite length_cons in Hl. lia.
Qed.

(** A turn that finds both lanes active while no preference is confirmed goes to the completions. *)
Lemma lane_turn_undecided i c :
  both_active i -> preferred c = None -> preferred (lane_turn i c).2 = None -> (lane_turn i c).1 = Some Completion.
Proof.
  intros [Hd Hc] Hp. unfold lane_turn, select. rewrite (proj2 (Z.ltb_lt _ _) Hd), (proj2 (Z.ltb_lt _ _) Hc).
  set (s := confirm _ _). set (next := if decide _ then _ else _).
  destruct (s.1 && _); cbn [preferred set_preference]; [|by rewrite Hp].
  destruct next as [lane|]; [|done]. cbn [preferred_turns set_preference fst snd].
  unfold MAX_RESULTS_PREFERRED_LANE_TURNS. rewrite (proj2 (Z.leb_gt 32 0)) by lia. cbn [fst snd].
  unfold record_turn. cbn [preferred set_preference]. intros Hn. exfalso. revert Hn. destruct (in_success i) as [[rows duration]|]; [|done].
  pose proof (observe_success_preference lane rows duration (set_preference (Some lane) s.2 0 c)) as [= -> _]. done.
Qed.

Lemma lane_turn_keeps_preference i c : preferred c <> None -> preferred (lane_turn i c).2 <> None.
Proof.
  intros Hp. destruct (preferred c) as [p|] eqn:Ep; [|done].
  destruct (decide (both_active i)) as [Hi|Hi].
  { destruct (lane_turn_active i c p Hi Ep) as (q & turns & lane & _ & _ & _ & [= -> _]). done. }
  assert (forall lane turns s, preferred (record_turn lane (match in_success i with
    | Some (rows, duration) => observe_success lane rows duration (set_preference (preferred c) s turns c)
    | None => set_preference (preferred c) s turns c end)) <> None) as Hrec.
  { intros lane turns s. unfold record_turn. cbn [preferred set_preference]. destruct (in_success i) as [[rows duration]|].
    - pose proof (observe_success_preference lane rows duration (set_preference (preferred c) s turns c)) as [= -> _].
      simpl. congruence.
    - simpl. congruence. }
  unfold lane_turn, select. unfold both_active in Hi.
  destruct (Z.ltb_spec 0 (in_dispatch_rows i)), (Z.ltb_spec 0 (in_completion_rows i)); [lia|apply Hrec..|].
  cbn [fst snd]. congruence.
Qed.

Lemma lane_turns_keep_preference inputs c : preferred c <> None -> preferred (lane_turns inputs c).2 <> None.
Proof. revert c. induction inputs as [|i inputs IH]; intros c Hp; simpl; [done|]. by apply IH, lane_turn_keeps_preference. Qed.

Lemma lane_turns_undecided inputs c :
  Forall both_active inputs -> preferred c = None -> preferred (lane_turns inputs c).2 = None ->
  (lane_turns inputs c).1 = replicate (length inputs) Completion.
Proof.
  revert c. induction inputs as [|i inputs IH]; intros c Hi Hp Hn; [done|]. simpl in *.
  apply Forall_cons in Hi as [Hi His].
  destruct (preferred (lane_turn i c).2) as [p|] eqn:Ep.
  { exfalso. apply (lane_turns_keep_preference inputs (lane_turn i c).2); [congruence|done]. }
  by rewrite (lane_turn_undecided i c Hi Hp Ep), IH.
Qed.

(** C32. Once a preference has been confirmed, neither lane of the results writer starves: after any
    history of turns that has confirmed one, whatever the queues, clocks and outcomes are, among any 34
    turns that find both lanes active each lane has one. The condition is needed: as long as no
    preference is confirmed, every turn that finds both lanes active goes to the completions. *)
Theorem no_lane_starves window history inputs :
  let c := (lane_turns history (ResultsLaneController_new window)).2 in
  Forall both_active inputs ->
  (preferred c <> None -> 34 <= Z.of_nat (length inputs) ->
    Dispatch ∈ (lane_turns inputs c).1 /\ Completion ∈ (lane_turns inputs c).1) /\
  (preferred (lane_turns inputs c).2 = None -> (lane_turns inputs c).1 = replicate (length inputs) Completion).
Proof.
  intros c Hi. split.
  - intros Hp Hl. assert (0 <= preferred_turns c <= 32) as Ht by (apply lane_turns_bounded; simpl; lia).
    split; apply lane_turns_fair; try done; unfold turns_until; case_decide; try case_match; lia.
  - intros Hn. apply lane_turns_undecided; [done| |done].
    destruct (preferred c) as [p|] eqn:Ep; [|done]. exfalso.
    apply (lane_turns_keep_preference inputs c); [congruence|done].
Qed.

(** Three turns with a longer queue of completions confirm the preference of their lane. *)
Definition example_history : list lane_input :=
  replicate 5 (mkInput 10 (Some 0) 100 (Some 0) 1000000 (Some (10, 1000000))).

Lemma no_lane_starves_witness :
  let c := (lane_turns example_history (ResultsLaneController_new 16)).2 in
  preferred c = Some Completion /\
  Dispatch ∈ (lane_turns (replicate 34 (mkInput 1 None 1000 None 0 None)) c).1.
Proof.
  assert (preferred (lane_turns example_history (ResultsLaneController_new 16)).2 = Some Completion) as Hp by by vm_compute.
  split; [exact Hp|].
  refine (proj1 (proj1 (no_lane_starves 16 example_history (replicate 34 (mkInput 1 None 1000 None 0 None)) _) _ _)).
  - apply Forall_replicate. split; reflexivity.
  - rewrite Hp. discriminate.
  - reflexivity || (vm_compute; discriminate).
Defined.
