(* ===== verification/IngestWriter.v ===== *)
(** * The loop of the ingest writer

    [crates/persistence/src/sqlite/ingest.rs], [ingest_writer_loop]: the thread that owns the ingest
    connection takes requests from its channel, sorts them into three queues, and serves the meta
    requests first, then the claims, then a batch of enqueues whose size and wait [Adaptive]
    chooses. *)
From S2P Require Import Prelude Types Db Tables Ingest Float Options Adaptive.

(** ** The channel

    [tokio::sync::mpsc]: the requests are received in the order they were sent, and [recv] gives
    [None] once every sender is gone and the channel is empty. Which requests have arrived when is
    not the writer's choice: whether one is there before a [try_recv] or a timeout gives up, and how
    many are waiting ([rx.len()]), are answers of this class. The requests still to be received are
    a list; at its end the senders are gone. *)
Class Channel := {
  arrives : nat -> bool;
  waiting : nat -> Z
}.

(** How a turn, or the loop, ends. A panic is a [Duration] that is out of range in the controller;
    it ends the thread. *)
Inductive turn_end : Type := Running | Disconnected | Panicked.

Inductive IngestClass : Type := IMeta | IClaim | IJob.
#[export] Instance IngestClass_eq_dec : EqDecision IngestClass.
Proof. solve_decision. Defined.

(** The queue a request waits in *)
Definition ingest_class (request : IngestRequest) : IngestClass :=
  match request with
  | IEnqueue _ _ => IJob
  | IClaimBatch _ _ _ => IClaim
  | _ => IMeta
  end.

Record IngestQueues := mkIngestQueues {
  iq_meta : list IngestRequest;
  iq_claim : list IngestRequest;
  iq_ingest : list PendingEnqueue
}.

Definition no_ingest : IngestQueues := mkIngestQueues [] [] [].

Definition ingest_is_empty (q : IngestQueues) : bool :=
  match q with mkIngestQueues [] [] [] => true | _ => false end.

Definition ingest_push (request : IngestRequest) (q : IngestQueues) : IngestQueues :=
  match request with
  | IEnqueue job reply => mkIngestQueues (iq_meta q) (iq_claim q) (iq_ingest q ++ [mkPendingEnqueue job reply])
  | IClaimBatch _ _ _ => mkIngestQueues (iq_meta q) (iq_claim q ++ [request]) (iq_ingest q)
  | _ => mkIngestQueues (iq_meta q ++ [request]) (iq_claim q) (iq_ingest q)
  end.

(** Which requests end the wait for more enqueues *)
Definition ingest_preempts (request : IngestRequest) : bool :=
  match request with
  | IClaimBatch _ _ _ | IUpsertQueue _ _ | IRepend _ _ _ => true
  | _ => false
  end.

(** The writer: its channel, its queues, its controller, the names of the queues it knows, and
    what it has sent on the reply channels so far. *)
Record ingest_writer := mkIngestWriter {
  iw_rx : list IngestRequest;
  iw_queues : IngestQueues;
  iw_controller : AdaptiveBatchController;
  iw_names : gset string;
  iw_sent : list (nat * IngestReply)
}.

Definition ingest_writer_new (options : BatchOptions) (names : gset string) (rx : list IngestRequest) :
  ingest_writer := mkIngestWriter rx no_ingest (AdaptiveBatchController_new options) names [].

Definition iw_receive (rx : list IngestRequest) (q : IngestQueues) (w : ingest_writer) : ingest_writer :=
  mkIngestWriter rx q (iw_controller w) (iw_names w) (iw_sent w).

Section writer.
Context `{E : Env} `{Ch : Channel}.

(** [while let Ok(request) = rx.try_recv() { queues.push(request) }] *)
Fixpoint ingest_try_recv (rx : list IngestRequest) (q : IngestQueues) :
    M ingest_db (list IngestRequest * IngestQueues) :=
  match rx with
  | [] => mret ([], q)
  | request :: rest =>
      arrived ← ask arrives;
      if (arrived : bool) then ingest_try_recv rest (ingest_push request q) else mret (rx, q)
  end.

(** The first loop of [run_ingest_turn]: take what is queued, up to the target. *)
Fixpoint ingest_take (target : Z) (pending queued : list PendingEnqueue) (ctl : AdaptiveBatchController) :
    M ingest_db (list PendingEnqueue * list PendingEnqueue * AdaptiveBatchController) :=
  match queued with
  | item :: rest =>
      if Z.of_nat (length pending) <? target
      then now ← instant_now; ingest_take target (pending ++ [item]) rest (observe_request now ctl)
      else mret (pending, queued, ctl)
  | [] => mret (pending, [], ctl)
  end.

(** The second loop: wait for more, until the deadline, a request that preempts or the end of the
    channel; true when the channel is closed. *)
Fixpoint ingest_fill (target deadline : Z) (rx : list IngestRequest) (pending : list PendingEnqueue)
    (q : IngestQueues) (ctl : AdaptiveBatchController) :
    M ingest_db (list IngestRequest * list PendingEnqueue * IngestQueues * AdaptiveBatchController * bool) :=
  if negb (Z.of_nat (length pending) <? target) then mret (rx, pending, q, ctl, false)
  else
    now ← instant_now;
    if saturating_duration_since deadline now =? 0 then mret (rx, pending, q, ctl, false)
    else
      arrived ← ask arrives;
      if negb arrived then mret (rx, pending, q, ctl, false)
      else
        match rx with
        | [] => mret ([], pending, q, ctl, true)
        | IEnqueue job reply :: rest =>
            now ← instant_now;
            ingest_fill target deadline rest (pending ++ [mkPendingEnqueue job reply]) q (observe_request now ctl)
        | request :: rest =>
            if ingest_preempts request then mret (rest, pending, ingest_push request q, ctl, false)
            else ingest_fill target deadline rest pending (ingest_push request q) ctl
        end.

(** [flush_pending]: the batch, its replies, and the observation of its commit; [None] when the
    observation panics, which is after the replies. *)
Definition flush_pending (pending : list PendingEnqueue) (names : gset string) (reason : FlushReason) (backlog : Z)
    (ctl : AdaptiveBatchController) : M ingest_db (list (nat * IngestReply) * option AdaptiveBatchController) :=
  match pending with
  | [] => mret ([], Some ctl)
  | _ =>
      let filled := length pending in
      out ← enqueue_batch pending names;
      let replies := (fun kr : nat * Result AcceptedJob => (kr.1, RepAccepted kr.2)) <$> out.2 in
      match out.1 with
      | None => mret (replies, Some ctl)
      | Some commit =>
          completed_at ← instant_now;
          mret (replies, record_successful_commit (Z.of_nat (Nat.min filled (bc_count commit))) (bc_duration commit)
                           completed_at backlog reason ctl)
      end
  end.

(** Write a flush back. *)
Definition iw_flushed (rx : list IngestRequest) (q : IngestQueues) (ctl : AdaptiveBatchController)
    (out : list (nat * IngestReply) * option AdaptiveBatchController) (w : ingest_writer) : ingest_writer :=
  mkIngestWriter rx q (default ctl out.2) (iw_names w) (iw_sent w ++ out.1).

Definition run_ingest_turn (w : ingest_writer) : M ingest_db (turn_end * ingest_writer) :=
  let target := batch_size (iw_controller w) in
  taken ← ingest_take target [] (iq_ingest (iw_queues w)) (iw_controller w);
  let '(pending, queued, ctl) := taken in
  let q := mkIngestQueues (iq_meta (iw_queues w)) (iq_claim (iw_queues w)) queued in
  match pending with
  | [] => mret (Running, mkIngestWriter (iw_rx w) q ctl (iw_names w) (iw_sent w))
  | _ =>
      now ← instant_now;
      filled ← ingest_fill target (now + batch_wait ctl) (iw_rx w) pending q ctl;
      let '(rx, pending, q, ctl, disconnected) := filled in
      let reason := if target <=? Z.of_nat (length pending) then FullBatch else Timeout in
      backlog ← ask waiting;
      out ← flush_pending pending (iw_names w) reason backlog ctl;
      mret (match out.2 with
            | None => Panicked
            | Some _ => if (disconnected : bool) then Disconnected else Running
            end, iw_flushed rx q ctl out w)
  end.

Definition flush_ingest (backlog : Z) (w : ingest_writer) : M ingest_db (turn_end * ingest_writer) :=
  let q := iw_queues w in
  match iq_ingest q with
  | [] => mret (Running, w)
  | pending =>
      out ← flush_pending pending (iw_names w) Timeout backlog (iw_controller w);
      mret (match out.2 with None => Panicked | Some _ => Running end,
            iw_flushed (iw_rx w) (mkIngestQueues (iq_meta q) (iq_claim q) []) (iw_controller w) out w)
  end.

(** [conn.handle(request, &mut queue_names)] *)
Definition ingest_serve (request : IngestRequest) (q : IngestQueues) (w : ingest_writer) : M ingest_db ingest_writer :=
  out ← handle request (iw_names w);
  mret (mkIngestWriter (iw_rx w) q (iw_controller w) out.2 (iw_sent w ++ out.1)).

(** [while let Some(request) = queues.meta.pop_front() { .. }], and the same for the claims *)
Fixpoint serve_meta (meta : list IngestRequest) (w : ingest_writer) : M ingest_db ingest_writer :=
  match meta with
  | [] => mret w
  | request :: rest =>
      w ← ingest_serve request (mkIngestQueues rest (iq_claim (iw_queues w)) (iq_ingest (iw_queues w))) w;
      serve_meta rest w
  end.
Fixpoint serve_claims (claims : list IngestRequest) (w : ingest_writer) : M ingest_db ingest_writer :=
  match claims with
  | [] => mret w
  | request :: rest =>
      w ← ingest_serve request (mkIngestQueues (iq_meta (iw_queues w)) rest (iq_ingest (iw_queues w))) w;
      serve_claims rest w
  end.

(** What is left is served when the channel is closed. *)
Definition ingest_finish (backlog : Z) (w : ingest_writer) : M ingest_db (turn_end * ingest_writer) :=
  flushed ← flush_ingest backlog w;
  let '(end_, w) := flushed in
  match end_ with
  | Panicked => mret (Panicked, w)
  | _ =>
      w ← serve_meta (iq_meta (iw_queues w)) w;
      w ← serve_claims (iq_claim (iw_queues w)) w;
      mret (Disconnected, w)
  end.

(** [if queues.is_empty() { rx.recv().await }], which waits for a request; [None] is the [break]. *)
Definition ingest_recv (w : ingest_writer) : option ingest_writer :=
  if ingest_is_empty (iw_queues w) then
    match iw_rx w with
    | request :: rest => Some (iw_receive rest (ingest_push request (iw_queues w)) w)
    | [] => None
    end
  else Some w.

(** The loop; [None] when the fuel runs out. *)
Fixpoint ingest_writer_loop (fuel : nat) (w : ingest_writer) : M ingest_db (option (turn_end * ingest_writer)) :=
  match fuel with
  | O => mret None
  | S fuel =>
      match ingest_recv w with
      | None => Some <$> ingest_finish 0 w
      | Some w =>
          received ← ingest_try_recv (iw_rx w) (iw_queues w);
          let w := iw_receive received.1 received.2 w in
          let q := iw_queues w in
          match iq_meta q, iq_claim q, iq_ingest q with
          | request :: rest, _, _ =>
              w ← ingest_serve request (mkIngestQueues rest (iq_claim q) (iq_ingest q)) w;
              ingest_writer_loop fuel w
          | [], request :: rest, _ =>
              w ← ingest_serve request (mkIngestQueues [] rest (iq_ingest q)) w;
              ingest_writer_loop fuel w
          | [], [], _ :: _ =>
              turn ← run_ingest_turn w;
              let '(end_, w) := turn in
              match end_ with
              | Running => ingest_writer_loop fuel w
              | Panicked => mret (Some (Panicked, w))
              | Disconnected => backlog ← ask waiting; Some <$> ingest_finish backlog w
              end
          | [], [], [] => ingest_writer_loop fuel w
          end
      end
  end.
End writer.
