(* ===== verification/IngestWriterProps.v ===== *)
(** * The loop of the ingest writer: properties

    The loop never stalls: with the fuel of one iteration per request it ends, and every request
    that was sent has been answered exactly once, the meta requests and the claims in the order of
    their arrival. *)
From S2P Require Import Prelude Types Db Tables Ingest Float Options Adaptive AdaptiveProps IngestWriter.

(** ** The replies of the operations *)

Definition reply_class (reply : IngestReply) : IngestClass :=
  match reply with
  | RepAccepted _ => IJob
  | RepClaimed _ => IClaim
  | RepQueue _ | RepUnit _ | RepCount _ => IMeta
  end.

Section replies.
Context `{E : Env}.

Lemma wp_attempt_any {S A B} (m : M S A) (f : Result A -> M S B) (Q : Result B -> conn S -> Prop) c :
  (forall r c', wp (f r) Q c') -> wp (attempt m ≫= f) Q c.
Proof. intros H. wp_rule. wp_rule. unfold wp. apply H. Qed.

(** A request that is no enqueue has one reply, of its class, on its channel. *)
Lemma wp_handle_reply request names c :
  ingest_class request <> IJob ->
  wp (handle request names) (fun r _ => exists reply names',
    r = Ok ([(reply_of request, reply)], names') /\ reply_class reply = ingest_class request) c.
Proof.
  destruct request; cbn [handle ingest_class reply_of]; try done; intros _; apply wp_attempt_any;
    intros r c'; wp_rule; by eexists _, _.
Qed.

Lemma wp_enqueue_chunk_replies chunk c :
  wp (enqueue_chunk chunk) (fun r c' => (c_step c <= c_step c')%nat /\
    forall done, r = Ok done -> pe_reply <$> done = pe_reply <$> chunk) c.
Proof.
  unfold enqueue_chunk. wp_rule. apply wp_stmt; [intros e; split; [simpl; lia|done]|].
  intros last db _. wp_rule. split; [simpl; lia|]. intros done [= <-].
  apply list_eq. intros i. rewrite !list_lookup_fmap, list_lookup_imap. by destruct (chunk !! i).
Qed.

Lemma partition_Permutation {A} (P : A -> Prop) `{!forall x, Decision (P x)} (l : list A) :
  filter (fun x => ~ P x) l ++ filter P l ≡ₚ l.
Proof.
  induction l as [|x l IH]; [done|]. rewrite !filter_cons.
  destruct (decide (P x)) as [Hx|Hx]; rewrite ?(decide_False (P := ~ P x)), ?(decide_True (P := ~ P x)) by tauto.
  - by rewrite <-Permutation_middle, IH.
  - simpl. by rewrite IH.
Qed.

(** Every enqueue of a batch has one reply, whatever fails. *)
Lemma wp_enqueue_batch_replies batch names c :
  wp (enqueue_batch batch names) (fun r _ => exists commit replies,
    r = Ok (commit, replies) /\ replies.*1 ≡ₚ pe_reply <$> batch) c.
Proof.
  unfold enqueue_batch. destruct batch as [|p0 batch0] eqn:Eb; [by wp_rule; eexists _, _|]. rewrite <-Eb.
  set (jobs := filter (fun p => aj_queue_name (pe_job p) ∈ names) batch).
  set (refused := filter (fun p => aj_queue_name (pe_job p) ∉ names) batch).
  assert ((pe_reply <$> refused) ++ (pe_reply <$> jobs) ≡ₚ pe_reply <$> batch) as Hall.
  { rewrite <-fmap_app. f_equiv. exact (partition_Permutation (fun p => aj_queue_name (pe_job p) ∈ names) batch). }
  assert (forall l : list PendingEnqueue, ((fun p => (pe_reply p, Err (QueueNotFound (aj_queue_name (pe_job p)))))
    <$> l : list (nat * Result AcceptedJob)).*1 = pe_reply <$> l) as Hfst
    by (intros l; rewrite <-list_fmap_compose; done).
  destruct jobs as [|j0 jobs0] eqn:Ej.
  { wp_rule. eexists _, _. split; [done|]. rewrite Hfst, <-Hall. by rewrite app_nil_r. }
  rewrite <-Ej in *. wp_rule. wp_rule. wp_rule. wp_rule. apply wp_transaction; simpl.
  - intros e n _. wp_rule. eexists _, _. split; [done|].
    rewrite fmap_app, Hfst, <-list_fmap_compose. exact Hall.
  - apply (wp_for_each _ _ (fun done outs c' => (Datatypes.S (Datatypes.S (c_step c)) <= c_step c')%nat /\
      pe_reply <$> concat outs = pe_reply <$> concat done)); [done| |].
    + intros done chunk rest outs c' _ [Hs Ho]. eapply wp_mono; [apply wp_enqueue_chunk_replies|].
      intros [out|e] c'' [Hs' Hr]; [|split; [lia|done]]. split; [lia|].
      rewrite !concat_app, !fmap_app, Ho. simpl. by rewrite !app_nil_r, (Hr out).
    + intros outs c' [Hs Ho]. split; [lia|]. wp_rules. eexists _, _. split; [done|].
      rewrite fmap_app, Hfst, <-list_fmap_compose. rewrite <-Hall. apply Permutation_app_head.
      change (pe_reply <$> concat outs ≡ₚ pe_reply <$> jobs). rewrite Ho, concat_chunks; done.
Qed.
End replies.

(** ** Accounts of the requests of a writer *)

Definition answered (cls : IngestClass) (sent : list (nat * IngestReply)) : list nat :=
  (filter (fun kr => reply_class kr.2 = cls) sent).*1.
Definition requested (cls : IngestClass) (rx : list IngestRequest) : list nat :=
  reply_of <$> filter (fun request => ingest_class request = cls) rx.
Definition queued (cls : IngestClass) (q : IngestQueues) : list nat :=
  match cls with
  | IMeta => reply_of <$> iq_meta q
  | IClaim => reply_of <$> iq_claim q
  | IJob => pe_reply <$> iq_ingest q
  end.

(** Every reply channel of a class: answered, waiting in a queue, or still to be received. *)
Definition total (cls : IngestClass) (w : ingest_writer) : list nat :=
  answered cls (iw_sent w) ++ queued cls (iw_queues w) ++ requested cls (iw_rx w).

Record queues_ok (q : IngestQueues) : Prop := {
  qo_meta : Forall (fun r => ingest_class r = IMeta) (iq_meta q);
  qo_claim : Forall (fun r => ingest_class r = IClaim) (iq_claim q)
}.

Definition q_size (q : IngestQueues) : nat := length (iq_meta q) + length (iq_claim q) + length (iq_ingest q).
Definition load (w : ingest_writer) : nat := q_size (iw_queues w) + length (iw_rx w).

(** The writer has moved on from [w] to [w']: nothing is lost or answered twice, and the order of
    the meta requests and of the claims is kept. *)
Record moves (o : BatchOptions) (w w' : ingest_writer) : Prop := {
  mv_order : forall cls, cls <> IJob -> total cls w' = total cls w;
  mv_jobs : total IJob w' ≡ₚ total IJob w;
  mv_queues : queues_ok (iw_queues w');
  mv_ctl : controller_in_limits o (iw_controller w')
}.

Lemma moves_trans o w1 w2 w3 : moves o w1 w2 -> moves o w2 w3 -> moves o w1 w3.
Proof.
  intros [H1 H2 _ _] [H3 H4 ? ?]. split; [|by rewrite H4|done..]. intros cls Hc. by rewrite H3, H1.
Qed.

Lemma moves_refl o w : queues_ok (iw_queues w) -> controller_in_limits o (iw_controller w) -> moves o w w.
Proof. by split. Qed.

Lemma answered_app cls s1 s2 : answered cls (s1 ++ s2) = answered cls s1 ++ answered cls s2.
Proof. unfold answered. by rewrite filter_app, fmap_app. Qed.

Lemma requested_cons cls request rx : requested cls (request :: rx) = requested cls [request] ++ requested cls rx.
Proof. unfold requested. by rewrite (filter_app _ [request] rx), fmap_app. Qed.

(** A batch of replies to enqueues *)
Lemma answered_jobs cls (replies : list (nat * Result AcceptedJob)) :
  answered cls ((fun kr => (kr.1, RepAccepted kr.2)) <$> replies) = if decide (cls = IJob) then replies.*1 else [].
Proof.
  unfold answered. destruct (decide (cls = IJob)) as [->|Hne]; induction replies as [|kr replies IH]; try done;
    rewrite fmap_cons, filter_cons; cbn [reply_class fst snd]; [rewrite decide_True by done|by rewrite decide_False by congruence].
  rewrite !fmap_cons. by rewrite IH.
Qed.

Lemma queued_push cls request q : queued cls (ingest_push request q) = queued cls q ++ requested cls [request].
Proof.
  unfold requested. rewrite filter_cons, filter_nil.
  destruct cls, request; simpl; rewrite ?decide_True, ?decide_False by done; simpl;
    rewrite ?fmap_app, ?app_nil_r; done.
Qed.

Lemma queues_ok_push request q : queues_ok q -> queues_ok (ingest_push request q).
Proof.
  intros [? ?]. destruct request; split; simpl; try done; apply Forall_app; split; try done; by repeat constructor.
Qed.

Lemma q_size_push request q : q_size (ingest_push request q) = S (q_size q).
Proof. unfold q_size. destruct request; simpl; rewrite ?length_app; simpl; lia. Qed.

(** What receiving requests keeps: the order of each class, and the number of requests. *)
Record receives (rx : list IngestRequest) (q : IngestQueues) (rx' : list IngestRequest) (q' : IngestQueues) : Prop := {
  rc_order : forall cls, queued cls q' ++ requested cls rx' = queued cls q ++ requested cls rx;
  rc_size : (q_size q' + length rx' = q_size q + length rx)%nat;
  rc_grows : (q_size q <= q_size q')%nat;
  rc_queues : queues_ok q -> queues_ok q'
}.

Lemma receives_refl rx q : receives rx q rx q.
Proof. by split. Qed.

Lemma receives_push request rx q rx' q' :
  receives rx (ingest_push request q) rx' q' -> receives (request :: rx) q rx' q'.
Proof.
  intros [Ho Hs Hg Hq]. rewrite q_size_push in *. split; simpl; [|lia|lia|by intros; apply Hq, queues_ok_push].
  intros cls. by rewrite Ho, queued_push, (requested_cons cls request rx), app_assoc.
Qed.

Lemma moves_receive o w rx q :
  receives (iw_rx w) (iw_queues w) rx q -> queues_ok (iw_queues w) -> controller_in_limits o (iw_controller w) ->
  moves o w (iw_receive rx q w).
Proof.
  intros [Ho _ _ Hq] Hok Hc.
  split; [intros cls _|..|auto|done]; unfold total; cbn [iw_receive iw_sent iw_queues iw_rx]; by rewrite Ho.
Qed.

Section steps.
Context `{E : Env} `{Ch : Channel} (o : BatchOptions) (Ho : batch_options_ok o).

Lemma wp_ingest_try_recv rx q c :
  wp (ingest_try_recv rx q) (fun r _ => exists rx' q', r = Ok (rx', q') /\ receives rx q rx' q') c.
Proof.
  revert q c. induction rx as [|request rx IH]; intros q c; simpl.
  { wp_rule. eexists _, _. split; [done|apply receives_refl]. }
  wp_rule. wp_rule. destruct (arrives _).
  - eapply wp_mono; [apply IH|]. intros r c' (rx' & q' & -> & Hr). eexists _, _. split; [done|].
    by apply receives_push.
  - wp_rule. eexists _, _. split; [done|apply receives_refl].
Qed.

(** Serving the first meta request, or the first claim *)
Lemma wp_ingest_serve request q w c :
  ingest_class request <> IJob -> queues_ok q -> controller_in_limits o (iw_controller w) ->
  (forall cls, queued cls (iw_queues w) = (if decide (ingest_class request = cls) then [reply_of request] else []) ++ queued cls q) ->
  wp (ingest_serve request q w) (fun r _ => exists w', r = Ok w' /\ moves o w w' /\
    iw_queues w' = q /\ iw_rx w' = iw_rx w) c.
Proof.
  intros Hcls Hq Hc Hqueued. unfold ingest_serve. wp_rule. eapply wp_mono; [by apply wp_handle_reply|].
  intros r c' (reply & names & -> & Hr). wp_rule. eexists. split; [done|]. split; [|done].
  assert (forall cls, total cls w =
    total cls (mkIngestWriter (iw_rx w) q (iw_controller w) names (iw_sent w ++ [(reply_of request, reply)]))) as Ht.
  { intros cls. unfold total. simpl. rewrite answered_app, Hqueued. unfold answered at 3. rewrite filter_cons, filter_nil.
    simpl. rewrite Hr. by destruct (decide (ingest_class request = cls)); simpl; rewrite <-?app_assoc. }
  split; simpl; [by intros; rewrite Ht|by rewrite Ht|done|done].
Qed.

Lemma wp_serve_meta meta w c :
  iq_meta (iw_queues w) = meta -> queues_ok (iw_queues w) -> controller_in_limits o (iw_controller w) ->
  wp (serve_meta meta w) (fun r _ => exists w', r = Ok w' /\ moves o w w' /\
    iw_queues w' = mkIngestQueues [] (iq_claim (iw_queues w)) (iq_ingest (iw_queues w)) /\ iw_rx w' = iw_rx w) c.
Proof.
  revert w c. induction meta as [|request meta IH]; intros w c Hm Hq Hc; simpl.
  { wp_rule. exists w. split; [done|]. split; [by apply moves_refl|]. split; [|done].
    by destruct (iw_queues w); simplify_eq/=. }
  pose proof (qo_meta _ Hq) as Hmeta. rewrite Hm in Hmeta. apply Forall_cons in Hmeta as [Hreq Hmeta].
  wp_rule. eapply wp_mono; [apply wp_ingest_serve; try done|].
  - by rewrite Hreq.
  - split; [done|]. apply Hq.
  - intros cls. rewrite Hreq. destruct cls; simpl; rewrite ?Hm; done.
  - intros r c' (w1 & -> & Hmv & Hq1 & Hrx). cbn beta iota. eapply wp_mono; [apply IH|].
    + by rewrite Hq1.
    + by apply Hmv.
    + by apply Hmv.
    + intros r c2 (w2 & -> & Hmv2 & Hq2 & Hrx2). exists w2. split; [done|].
      split; [by eapply moves_trans|]. by rewrite Hq2, Hrx2, Hq1.
Qed.

Lemma wp_serve_claims claims w c :
  iq_claim (iw_queues w) = claims -> queues_ok (iw_queues w) -> controller_in_limits o (iw_controller w) ->
  wp (serve_claims claims w) (fun r _ => exists w', r = Ok w' /\ moves o w w' /\
    iw_queues w' = mkIngestQueues (iq_meta (iw_queues w)) [] (iq_ingest (iw_queues w)) /\ iw_rx w' = iw_rx w) c.
Proof.
  revert w c. induction claims as [|request claims IH]; intros w c Hm Hq Hc; simpl.
  { wp_rule. exists w. split; [done|]. split; [by apply moves_refl|]. split; [|done].
    by destruct (iw_queues w); simplify_eq/=. }
  pose proof (qo_claim _ Hq) as Hclaims. rewrite Hm in Hclaims. apply Forall_cons in Hclaims as [Hreq Hclaims].
  wp_rule. eapply wp_mono; [apply wp_ingest_serve; try done|].
  - by rewrite Hreq.
  - split; [|done]. apply Hq.
  - intros cls. rewrite Hreq. destruct cls; simpl; rewrite ?Hm; done.
  - intros r c' (w1 & -> & Hmv & Hq1 & Hrx). cbn beta iota. eapply wp_mono; [apply IH|].
    + by rewrite Hq1.
    + by apply Hmv.
    + by apply Hmv.
    + intros r c2 (w2 & -> & Hmv2 & Hq2 & Hrx2). exists w2. split; [done|].
      split; [by eapply moves_trans|]. by rewrite Hq2, Hrx2, Hq1.
Qed.

(** *** A turn of the enqueues *)

Lemma wp_ingest_take target pending jobs ctl c :
  controller_in_limits o ctl ->
  wp (ingest_take target pending jobs ctl) (fun r _ => exists pending' jobs' ctl',
    r = Ok (pending', jobs', ctl') /\ pending' ++ jobs' = pending ++ jobs /\ controller_in_limits o ctl' /\
    (jobs' = [] \/ target <= Z.of_nat (length pending')) /\
    (length pending <= length pending')%nat) c.
Proof.
  revert pending ctl c. induction jobs as [|item jobs IH]; intros pending ctl c Hc; simpl.
  { wp_rule. eexists _, _, _. split; [done|]. split; [done|]. split; [done|]. split; [by left|done]. }
  destruct (Z.ltb_spec (Z.of_nat (length pending)) target).
  - wp_rule. wp_rule. eapply wp_mono; [apply IH; by eapply in_limits_eq; [apply observe_request_limited|]|].
    intros r c' (p' & j' & ctl' & -> & Ha & Hc' & Hd & Hl). rewrite length_app in Hl. simpl in Hl.
    eexists _, _, _. split; [done|]. split; [by rewrite Ha, <-app_assoc|]. split; [done|]. split; [done|lia].
  - wp_rule. eexists _, _, _. split; [done|]. split; [done|]. split; [done|]. split; [by right|done].
Qed.

Lemma wp_ingest_fill target deadline rx pending q ctl c :
  controller_in_limits o ctl -> queues_ok q ->
  wp (ingest_fill target deadline rx pending q ctl) (fun r _ => exists rx' pending' q' ctl' disconnected,
    r = Ok (rx', pending', q', ctl', disconnected) /\
    (forall cls, cls <> IJob -> queued cls q' ++ requested cls rx' = queued cls q ++ requested cls rx) /\
    (pe_reply <$> pending') ++ requested IJob rx' = (pe_reply <$> pending) ++ requested IJob rx /\
    iq_ingest q' = iq_ingest q /\
    (length pending <= length pending' /\
     length pending' + q_size q' + length rx' = length pending + q_size q + length rx)%nat /\
    controller_in_limits o ctl' /\ queues_ok q' /\ (disconnected = true -> rx' = [])) c.
Proof.
  revert pending q ctl c. induction rx as [|request rx IH]; intros pending q ctl c Hc Hq; simpl;
    (destruct (negb _); [wp_rule; eexists _, _, _, _, _; split_and!; done|]); wp_rule; wp_rule;
    (destruct (_ =? 0); [wp_rule; eexists _, _, _, _, _; split_and!; done|]); wp_rule; wp_rule;
    (destruct (arrives _); simpl; [|wp_rule; eexists _, _, _, _, _; split_and!; done]).
  { wp_rule. eexists _, _, _, _, _. split_and!; done. }
  assert (ingest_class request = IJob \/ ingest_class request <> IJob) as [Hj|Hj]
    by (destruct (decide (ingest_class request = IJob)); tauto).
  - destruct request as [|job reply| | | |]; try done. wp_rule. wp_rule.
    eapply wp_mono; [apply IH; [by eapply in_limits_eq; [apply observe_request_limited|]|done]|].
    intros r c' (rx' & p' & q' & ctl' & d & -> & H1 & H2 & H3 & [H4 H4'] & H5 & H6 & H7).
    rewrite length_app in H4, H4'. simpl in H4, H4'.
    eexists _, _, _, _, _. split_and!; try done; [| |lia|lia].
    + intros cls Hcls. rewrite H1 by done. rewrite (requested_cons cls _ rx).
      unfold requested at 2. rewrite filter_cons, filter_nil. simpl. by rewrite decide_False by congruence.
    + rewrite H2, (requested_cons IJob _ rx), fmap_app, <-app_assoc. done.
  - assert (iq_ingest (ingest_push request q) = iq_ingest q) as Hi by by destruct request.
    assert (requested IJob (request :: rx) = requested IJob rx) as Hr.
    { unfold requested. rewrite filter_cons. by rewrite decide_False. }
    assert (forall cls, queued cls (ingest_push request q) ++ requested cls rx = queued cls q ++ requested cls (request :: rx)) as Ho'.
    { intros cls. by rewrite queued_push, (requested_cons cls request rx), app_assoc. }
    assert (wp (if ingest_preempts request then mret (rx, pending, ingest_push request q, ctl, false)
                else ingest_fill target deadline rx pending (ingest_push request q) ctl)
      (fun r _ => exists rx' pending' q' ctl' disconnected,
        r = Ok (rx', pending', q', ctl', disconnected) /\
        (forall cls, cls <> IJob -> queued cls q' ++ requested cls rx' = queued cls q ++ requested cls (request :: rx)) /\
        (pe_reply <$> pending') ++ requested IJob rx' = (pe_reply <$> pending) ++ requested IJob (request :: rx) /\
        iq_ingest q' = iq_ingest q /\
        (length pending <= length pending' /\
         length pending' + q_size q' + length rx' = length pending + q_size q + S (length rx))%nat /\
        controller_in_limits o ctl' /\ queues_ok q' /\ (disconnected = true -> rx' = []))
      (Conn (S (S (c_step c))) (c_db c))) as Hwp.
    { rewrite Hr. destruct (ingest_preempts request).
      - wp_rule. eexists _, _, _, _, _. split_and!; try done; [by rewrite q_size_push; lia|by apply queues_ok_push].
      - eapply wp_mono; [apply IH; [done|by apply queues_ok_push]|].
        intros r c' (rx' & p' & q' & ctl' & d & -> & H1 & H2 & H3 & [H4 H4'] & H5 & H6 & H7).
        rewrite q_size_push in H4'.
        eexists _, _, _, _, _. split_and!; try done; [|by rewrite H3|lia].
        intros cls Hcls. by rewrite H1 by done. }
    by destruct request.
Qed.

(** The controller after a flush: in its limits, unless the observation of the commit panicked *)
Definition flush_ctl ctl (ctl' : option AdaptiveBatchController) : Prop :=
  controller_in_limits o (default ctl ctl') /\ (ctl' = None -> wait_overflows o ctl).

Lemma flush_controller filled duration at_ backlog reason ctl :
  controller_in_limits o ctl -> flush_ctl ctl (record_successful_commit filled duration at_ backlog reason ctl).
Proof.
  intros Hc. set (x := OCommit filled duration at_ backlog reason). split.
  - destruct (record_successful_commit _ _ _ _ _ _) as [ctl'|] eqn:Hr; [|done]. by apply (observe_one_in_limits o x ctl).
  - by apply (observe_one_panics o x).
Qed.

Lemma wp_flush_pending pending names reason backlog ctl c :
  controller_in_limits o ctl ->
  wp (flush_pending pending names reason backlog ctl) (fun r _ => exists replies ctl',
    r = Ok (replies, ctl') /\ flush_ctl ctl ctl' /\
    (forall cls, cls <> IJob -> answered cls replies = []) /\
    answered IJob replies ≡ₚ pe_reply <$> pending) c.
Proof.
  intros Hc. unfold flush_pending. destruct pending as [|p0 pending'] eqn:Ep.
  { wp_rule. eexists _, _. split; [done|]. by split_and!. }
  rewrite <-Ep. wp_rule. eapply wp_mono; [apply wp_enqueue_batch_replies|].
  intros r c' (commit & replies & -> & Hr). cbn [fst snd].
  assert (forall ctl' n, flush_ctl ctl ctl' -> wp (S := ingest_db) (mret
      ((fun kr : nat * Result AcceptedJob => (kr.1, RepAccepted kr.2)) <$> replies, ctl'))
    (fun r _ => exists replies0 ctl', r = Ok (replies0, ctl') /\ flush_ctl ctl ctl' /\
       (forall cls, cls <> IJob -> answered cls replies0 = []) /\
       answered IJob replies0 ≡ₚ pe_reply <$> pending) n) as Hret.
  { intros ctl' n Hc'. wp_rule. eexists _, _. split; [done|]. split; [done|].
    split; [intros cls Hcls|]; rewrite answered_jobs; [by rewrite decide_False|by rewrite decide_True]. }
  destruct commit as [commit|]; [|by apply Hret].
  wp_rule. wp_rule. apply Hret. by eapply flush_controller.
Qed.

Lemma wp_run_ingest_turn w c :
  queues_ok (iw_queues w) -> controller_in_limits o (iw_controller w) -> iq_ingest (iw_queues w) <> [] ->
  wp (run_ingest_turn w) (fun r _ => exists end_ w', r = Ok (end_, w') /\ moves o w w' /\
    (load w' < load w)%nat /\ (end_ = Disconnected -> iw_rx w' = []) /\
    (end_ = Panicked -> wait_overflows o (iw_controller w'))) c.
Proof.
  intros Hq Hc Hne. unfold run_ingest_turn.
  assert (1 <= batch_size (iw_controller w)) as Htarget.
  { destruct Hc as [_ Hmin _ (_ & Hs & _) _], Ho. unfold batch_size. lia. }
  wp_rule. eapply wp_mono; [by apply wp_ingest_take|].
  intros r c' (pending & jobs & ctl & -> & Hsplit & Hc1 & Hd & _). cbn beta iota.
  destruct pending as [|p0 pending'] eqn:Ep.
  { destruct Hd as [->|Hd]; simpl in *; [by rewrite <-Hsplit in Hne|lia]. }
  rewrite <-Ep in *. assert (0 < length pending)%nat as Hpos by (rewrite Ep; simpl; lia). clear Ep.
  wp_rule. wp_rule. wp_rule.
  eapply wp_mono; [apply wp_ingest_fill; [exact Hc1|]; split; apply Hq|].
  intros r c2 (rx & pending2 & q & ctl2 & disconnected & -> & H1 & H2 & H3 & [H4 H4'] & H5 & H6 & H7).
  cbn beta iota. cbn [iq_meta iq_claim iq_ingest q_size] in *.
  wp_rule. wp_rule. wp_rule. eapply wp_mono; [by apply wp_flush_pending|].
  intros r c3 (replies & ctl3 & -> & [Hc3 Hover] & Hother & Hjobs). wp_rule. eexists _, _. split; [done|].
  split; [split|split_and!].
  - intros cls Hcls. unfold total, iw_flushed. cbn [iw_sent iw_queues iw_rx fst snd].
    rewrite answered_app, Hother, app_nil_r, H1 by done. by destruct cls.
  - unfold total, iw_flushed. cbn [iw_sent iw_queues iw_rx fst snd queued].
    rewrite answered_app, Hjobs, H3, <-app_assoc. apply Permutation_app_head.
    rewrite (Permutation_app_comm (pe_reply <$> jobs)), app_assoc, H2, <-app_assoc.
    rewrite (Permutation_app_comm (requested IJob _)), app_assoc, <-fmap_app, Hsplit. done.
  - done.
  - done.
  - unfold load, iw_flushed. cbn [iw_queues iw_rx]. unfold q_size in *. cbn [iq_meta iq_claim iq_ingest] in *.
    apply (f_equal length) in Hsplit. rewrite length_app in Hsplit. simpl in Hsplit. lia.
  - cbn [fst snd iw_flushed iw_rx]. destruct ctl3; [|done]. destruct disconnected; [auto|done].
  - cbn [fst snd iw_flushed iw_controller]. destruct ctl3; [by destruct disconnected|]. intros _. by apply Hover.
Qed.

Lemma wp_flush_ingest backlog w c :
  queues_ok (iw_queues w) -> controller_in_limits o (iw_controller w) ->
  wp (flush_ingest backlog w) (fun r _ => exists end_ w', r = Ok (end_, w') /\ moves o w w' /\
    end_ <> Disconnected /\ iw_rx w' = iw_rx w /\ iq_ingest (iw_queues w') = [] /\
    (end_ = Panicked -> wait_overflows o (iw_controller w'))) c.
Proof.
  intros Hq Hc. unfold flush_ingest. destruct (iq_ingest (iw_queues w)) as [|p0 pending'] eqn:Ep.
  { wp_rule. eexists _, _. split; [done|]. split; [by apply moves_refl|]. done. }
  rewrite <-Ep. wp_rule. eapply wp_mono; [by apply wp_flush_pending|].
  intros r c' (replies & ctl' & -> & [Hc' Hover] & Hother & Hjobs). wp_rule. eexists _, _. split; [done|].
  split; [split|split; [by destruct ctl'|split_and!; [done..|]]].
  - intros cls Hcls. unfold total, iw_flushed. cbn [iw_sent iw_queues iw_rx fst snd].
    rewrite answered_app, Hother, app_nil_r by done. by destruct cls.
  - unfold total, iw_flushed. cbn [iw_sent iw_queues iw_rx fst snd queued iq_ingest].
    by rewrite answered_app, Hjobs, <-app_assoc.
  - split; apply Hq.
  - done.
  - cbn [fst snd iw_flushed iw_controller]. destruct ctl'; [done|]. intros _. by apply Hover.
Qed.

(** How the loop may end *)
Definition ended (w : ingest_writer) (end_ : turn_end) : Prop :=
  match end_ with
  | Running => False
  | Disconnected => iw_rx w = [] /\ iw_queues w = no_ingest
  | Panicked => wait_overflows o (iw_controller w)
  end.

Lemma wp_ingest_finish backlog w c :
  queues_ok (iw_queues w) -> controller_in_limits o (iw_controller w) -> iw_rx w = [] ->
  wp (ingest_finish backlog w) (fun r _ => exists end_ w', r = Ok (end_, w') /\ moves o w w' /\
    ended w' end_) c.
Proof.
  intros Hq Hc Hrx. unfold ingest_finish. wp_rule. eapply wp_mono; [by apply wp_flush_ingest|].
  intros r c' (end_ & w1 & -> & Hmv & He & Hrx1 & Hi & Hover). cbn beta iota.
  assert (wp (w0 ← serve_meta (iq_meta (iw_queues w1)) w1;
              w2 ← serve_claims (iq_claim (iw_queues w0)) w0; mret (Disconnected, w2))
    (fun r _ => exists end_ w', r = Ok (end_, w') /\ moves o w w' /\
      ended w' end_) c') as Hserve.
  { wp_rule. eapply wp_mono; [apply wp_serve_meta; [done|apply Hmv..]|].
    intros r c2 (w2 & -> & Hmv2 & Hq2 & Hrx2). wp_rule.
    eapply wp_mono; [apply wp_serve_claims; [done|apply Hmv2..]|].
    intros r c3 (w3 & -> & Hmv3 & Hq3 & Hrx3). wp_rule. eexists _, _. split; [done|].
    split; [by eapply moves_trans, moves_trans|]. split; [|by rewrite Hq3, Hq2, Hi].
    by rewrite Hrx3, Hrx2, Hrx1. }
  destruct end_; [exact Hserve|done|]. wp_rule. eexists _, _. split; [done|]. split; [done|]. by apply Hover.
Qed.

(** *** The loop *)

Lemma q_size_0 q : q_size q = 0%nat -> q = no_ingest.
Proof. destruct q as [[|? ?] [|? ?] [|? ?]]; unfold q_size; simpl; intros; done || lia. Qed.

Lemma ingest_is_empty_spec q : ingest_is_empty q = true <-> q = no_ingest.
Proof. destruct q as [[|? ?] [|? ?] [|? ?]]; simpl; split; done. Qed.

(** Before it serves anything, the loop has a request in a queue, or it stops. *)
Lemma ingest_recv_spec w :
  queues_ok (iw_queues w) -> controller_in_limits o (iw_controller w) ->
  match ingest_recv w with
  | None => iw_queues w = no_ingest /\ iw_rx w = []
  | Some w' => moves o w w' /\ load w' = load w /\ iw_queues w' <> no_ingest
  end.
Proof.
  intros Hq Hc. unfold ingest_recv. destruct (ingest_is_empty (iw_queues w)) eqn:He.
  - apply ingest_is_empty_spec in He. destruct (iw_rx w) as [|request rx] eqn:Hrx; [done|].
    assert (receives (iw_rx w) (iw_queues w) rx (ingest_push request (iw_queues w))) as Hrec.
    { rewrite Hrx. apply receives_push, receives_refl. }
    split; [by apply moves_receive|]. split.
    + destruct Hrec as [_ Hs _ _]. unfold load. simpl. lia.
    + simpl. intros H. apply (f_equal q_size) in H. by rewrite q_size_push in H.
  - split; [by apply moves_refl|]. split; [done|]. intros H. apply ingest_is_empty_spec in H. congruence.
Qed.

Lemma wp_ingest_writer_loop fuel w c :
  (load w < fuel)%nat -> queues_ok (iw_queues w) -> controller_in_limits o (iw_controller w) ->
  wp (ingest_writer_loop fuel w) (fun r _ => exists end_ w', r = Ok (Some (end_, w')) /\ moves o w w' /\
    ended w' end_) c.
Proof.
  revert w c. induction fuel as [|fuel IH]; intros w c Hfuel Hq Hc; [lia|]. cbn [ingest_writer_loop].
  pose proof (ingest_recv_spec w Hq Hc) as Hrecv. destruct (ingest_recv w) as [w1|].
  2:{ unfold fmap, M_fmap. wp_rule. eapply wp_mono; [apply wp_ingest_finish; [done..|apply Hrecv]|].
      intros r c' (end_ & w' & -> & Hmv & He). wp_rule. by eexists _, _. }
  destruct Hrecv as (Hmv1 & Hl1 & Hne1). wp_rule. eapply wp_mono; [apply wp_ingest_try_recv|].
  intros r c1 (rx & q & -> & Hrec). cbn beta iota. cbn [fst snd].
  assert (moves o w1 (iw_receive rx q w1)) as Hmv2 by (by apply moves_receive; [|apply Hmv1..]).
  assert (load (iw_receive rx q w1) = load w) as Hl2 by (destruct Hrec; unfold load in *; simpl; lia).
  assert (q <> no_ingest) as Hne2.
  { intros ->. apply Hne1, q_size_0. destruct Hrec as [_ _ Hg _]. unfold q_size at 2 in Hg. simpl in Hg. lia. }
  set (w2 := iw_receive rx q w1) in *. change (iw_queues w2) with q.
  pose proof (moves_trans _ _ _ _ Hmv1 Hmv2) as Hmv. clear Hmv1 Hmv2.
  destruct (mv_queues _ _ _ Hmv) as [Hmeta Hclaim]. change (iw_queues w2) with q in Hmeta, Hclaim.
  assert (forall request q' c, ingest_class request <> IJob -> queues_ok q' -> q_size q = S (q_size q') ->
    (forall cls, queued cls q = (if decide (ingest_class request = cls) then [reply_of request] else []) ++ queued cls q') ->
    wp (w3 ← ingest_serve request q' w2; ingest_writer_loop fuel w3) (fun r _ => exists end_ w',
      r = Ok (Some (end_, w')) /\ moves o w w' /\ ended w' end_) c) as Hserve.
  { intros request q' c2 Hcls Hq' Hsize Hqueued. wp_rule.
    eapply wp_mono; [apply wp_ingest_serve; [done|done|apply Hmv|exact Hqueued]|].
    intros r c3 (w3 & -> & Hmv3 & Hq3 & Hrx3). cbn beta iota.
    eapply wp_mono; [apply IH; [|apply Hmv3..]|].
    - unfold load in *. rewrite Hq3, Hrx3. change (iw_queues w2) with q in Hl2. lia.
    - intros r c4 (end_ & w' & -> & Hmv' & He). eexists _, _. split; [done|].
      split; [by eapply moves_trans, moves_trans|done]. }
  destruct (iq_meta q) as [|request meta] eqn:Em.
  2:{ apply Forall_cons in Hmeta as [Hr Hmeta]. apply Hserve; [by rewrite Hr|by split| |].
      - unfold q_size. rewrite Em. simpl. lia.
      - intros cls. rewrite Hr. destruct cls; simpl; rewrite ?Em; done. }
  destruct (iq_claim q) as [|request claims] eqn:Ec.
  2:{ apply Forall_cons in Hclaim as [Hr Hclaim]. apply Hserve; [by rewrite Hr|by split| |].
      - unfold q_size. rewrite Em, Ec. simpl. lia.
      - intros cls. rewrite Hr. destruct cls; simpl; rewrite ?Em, ?Ec; done. }
  destruct (iq_ingest q) as [|p jobs] eqn:Ej.
  { destruct Hne2, q; simplify_eq/=. done. }
  wp_rule. eapply wp_mono; [apply wp_run_ingest_turn; [apply Hmv..|]; change (iw_queues w2) with q; by rewrite Ej|].
  intros r c2 (end_ & w3 & -> & Hmv3 & Hl3 & Hd & Hover). cbn beta iota.
  pose proof (moves_trans _ _ _ _ Hmv Hmv3) as Hmv'. destruct end_.
  - eapply wp_mono; [apply IH; [lia|apply Hmv3..]|].
    intros r c3 (end_ & w' & -> & Hmv4 & He). eexists _, _. split; [done|]. split; [by eapply moves_trans|done].
  - wp_rule. wp_rule. unfold fmap, M_fmap. wp_rule.
    eapply wp_mono; [apply wp_ingest_finish; [apply Hmv3..|by apply Hd]|].
    intros r c3 (end_ & w' & -> & Hmv4 & He). wp_rule. eexists _, _. split; [done|].
    split; [by eapply moves_trans|done].
  - wp_rule. eexists _, _. split; [done|]. split; [done|]. by apply Hover.
Qed.
End steps.

(** C26. The ingest writer never stalls and loses no request: whatever arrives when, however long the
    statements take and whichever fail, with options that pass validation it ends after at most one
    iteration per request, in one of two ways. Either every sender is gone: then every request sent has
    been answered exactly once, the meta requests and the claims in the order in which they arrived. Or,
    at a successful commit, the controller computed a wait that is no [Duration], on which Rust panics;
    then nothing has been answered twice, and the answered meta requests and claims are the first ones. *)
Theorem ingest_writer_answers_everything `{Env} `{Channel} section o names rx n db :
  batch_options_typed o -> validate section o = Ok tt ->
  exists end_ w c',
    ingest_writer_loop (S (length rx)) (ingest_writer_new o names rx) (Conn n db) = (Ok (Some (end_, w)), c') /\
    match end_ with
    | Running => False
    | Disconnected =>
        answered IMeta (iw_sent w) = requested IMeta rx /\ answered IClaim (iw_sent w) = requested IClaim rx /\
        answered IJob (iw_sent w) ≡ₚ requested IJob rx
    | Panicked =>
        wait_overflows o (iw_controller w) /\
        answered IMeta (iw_sent w) `prefix_of` requested IMeta rx /\
        answered IClaim (iw_sent w) `prefix_of` requested IClaim rx /\
        answered IJob (iw_sent w) ⊆+ requested IJob rx
    end.
Proof.
  intros Ht Hv. apply validate_ok in Hv; [|done].
  pose proof (wp_ingest_writer_loop o Hv (S (length rx)) (ingest_writer_new o names rx) (Conn n db)) as Hwp.
  destruct (ingest_writer_loop _ _ _) as [r c'] eqn:Hrun.
  assert (exists end_ w', r = Ok (Some (end_, w')) /\ moves o (ingest_writer_new o names rx) w' /\ ended o w' end_)
    as (end_ & w & -> & [Hord Hjobs _ _] & Hend).
  { unfold wp in Hwp. rewrite Hrun in Hwp. apply Hwp; [|by repeat constructor|by apply controller_new_in_limits].
    unfold load. simpl. lia. }
  exists end_, w, c'. split; [done|].
  pose proof (Hord IMeta ltac:(done)) as Hmeta. pose proof (Hord IClaim ltac:(done)) as Hclaim.
  unfold total in Hmeta, Hclaim, Hjobs. cbn [iw_sent iw_queues iw_rx ingest_writer_new] in *.
  change (answered ?cls []) with (@nil nat) in *. change (queued ?cls no_ingest) with (@nil nat) in *. simpl in *.
  destruct end_; [done| |].
  - destruct Hend as [Hrx Hq]. rewrite Hrx, Hq in *. simpl in *.
    rewrite !app_nil_r in *. done.
  - split_and!; [done|by rewrite <-Hmeta; apply prefix_app_r|by rewrite <-Hclaim; apply prefix_app_r|].
    rewrite <-Hjobs. by apply submseteq_inserts_r.
Qed.

(** Every request has arrived when the writer looks. *)
Definition model_channel : Channel := {| arrives := fun _ => true; waiting := fun _ => 0 |}.

Definition example_rx : list IngestRequest := [
  IEnqueue (AcceptedJob_new 5 "email" []) 1; IUpsertQueue (JobQueue_new 5 "email") 2;
  IClaimBatch "email" 10 3; IEnqueue (AcceptedJob_new 5 "sms" []) 4; IVacuum 5; IClaimBatch "email" 10 6 ].

(** How a run of the loop ended *)
Definition ending (r : Result (option (turn_end * ingest_writer))) : turn_end :=
  match r with Ok (Some (end_, _)) => end_ | _ => Running end.

Lemma ingest_writer_answers_everything_witness :
  exists w c', ingest_writer_loop (E := model_env) (Ch := model_channel) 7
      (ingest_writer_new enqueue_defaults ∅ example_rx) (Conn 0 empty_ingest) = (Ok (Some (Disconnected, w)), c') /\
    answered IMeta (iw_sent w) = [2; 5]%nat /\ answered IClaim (iw_sent w) = [3; 6]%nat /\
    answered IJob (iw_sent w) ≡ₚ [1; 4]%nat.
Proof.
  destruct (ingest_writer_answers_everything (H := model_env) (H0 := model_channel) "persistence.enqueue"
    enqueue_defaults ∅ example_rx 0 empty_ingest) as (end_ & w & c' & Hrun & Hout).
  - split; vm_compute; congruence.
  - by vm_compute.
  - assert (ending (fst (ingest_writer_loop (E := model_env) (Ch := model_channel) (S (length example_rx))
      (ingest_writer_new enqueue_defaults ∅ example_rx) (Conn 0 empty_ingest))) = Disconnected) as Hend
      by by vm_compute.
    rewrite Hrun in Hend. simpl in Hend. subst end_. exists w, c'. split; [exact Hrun|exact Hout].
Defined.
