(* ===== verification/Linear.v ===== *)
(** * Serving requests one at a time

    The specification the two writers are compared with: requests served one after the other, each on
    its own, and what their clients then get. A writer that has sent some replies and still has some
    requests to serve is linear when the replies, in their order, and its state are those of such a
    sequence. *)
From S2P Require Import Prelude Types Db.

Section served.
Context {St Rq Rp : Type}.
(** Where the reply to a request goes, and what serving a request on its own may do *)
Context (channel : Rq -> nat) (alone : St -> Rq -> Rp -> St -> Prop).

(** Requests served one after the other *)
Inductive served : St -> list (Rq * Rp) -> St -> Prop :=
| served_nil s : served s [] s
| served_cons s1 request reply s2 trace s3 :
    alone s1 request reply s2 -> served s2 trace s3 -> served s1 ((request, reply) :: trace) s3.

(** What the clients of a trace get *)
Definition replies_of (trace : list (Rq * Rp)) : list (nat * Rp) := (fun x => (channel x.1, x.2)) <$> trace.

Lemma replies_of_app t1 t2 : replies_of (t1 ++ t2) = replies_of t1 ++ replies_of t2.
Proof. apply fmap_app. Qed.

Lemma served_app s1 t1 s2 t2 s3 : served s1 t1 s2 -> served s2 t2 s3 -> served s1 (t1 ++ t2) s3.
Proof. induction 1 as [|s1 request reply s t1 s2 H _ IH]; intros H2; [done|]. by econstructor; [|apply IH]. Qed.

Lemma served_one s1 request reply s2 : alone s1 request reply s2 -> served s1 [(request, reply)] s2.
Proof. intros H. econstructor; [exact H|apply served_nil]. Qed.

(** Requests that leave the state as it is *)
Lemma served_constant {A} s (rq : A -> Rq) (rp : A -> Rp) l :
  Forall (fun x => alone s (rq x) (rp x) s) l -> served s ((fun x => (rq x, rp x)) <$> l) s.
Proof. induction 1; [apply served_nil|]. by econstructor. Qed.

(** Since the start in [s0] with the requests [rx0]: the replies [sent] and the state are those of
    requests served one at a time; [left] are the others. *)
Definition linear (s0 : St) (rx0 : list Rq) (s : St) (sent : list (nat * Rp)) (left : list Rq) : Prop :=
  exists trace, served s0 trace s /\ sent = replies_of trace /\ trace.*1 ++ left ≡ₚ rx0.

Lemma linear_start s rx : linear s rx s [] rx.
Proof. exists []. split; [apply served_nil|done]. Qed.

Lemma linear_reorder s0 rx0 s sent left left' : left ≡ₚ left' -> linear s0 rx0 s sent left -> linear s0 rx0 s sent left'.
Proof. intros HP (trace & Hs & Hr & Hp). exists trace. by rewrite <-HP. Qed.

Lemma linear_serves s0 rx0 s sent requests left trace s' :
  linear s0 rx0 s sent (requests ++ left) -> served s trace s' -> trace.*1 ≡ₚ requests ->
  linear s0 rx0 s' (sent ++ replies_of trace) left.
Proof.
  intros (trace0 & Hs & -> & HP) Hs' Hr. exists (trace0 ++ trace). split; [by eapply served_app|].
  split; [by rewrite replies_of_app|]. by rewrite fmap_app, <-app_assoc, Hr.
Qed.

Lemma linear_left s0 rx0 s sent left : linear s0 rx0 s sent left -> left ⊆+ rx0.
Proof. intros (trace & _ & _ & HP). rewrite <-HP. by apply submseteq_inserts_l. Qed.
End served.

(** ** Errors of SQLite *)

(** Every statement fails with the same error. *)
Definition failing_env (e : string) : Env := {|
  clock := clock (Env := model_env); instant := instant (Env := model_env); uuid_v4 := uuid_v4 (Env := model_env);
  fault := fun _ => Some e; sqlite_error := sqlite_error (Env := model_env);
  row_order := fun A => row_order (Env := model_env) (A := A);
  pick_match := fun A => pick_match (Env := model_env) (A := A); next_rowid := next_rowid (Env := model_env) |}.

Lemma failing_env_laws e : EnvLaws (failing_env e).
Proof. destruct model_env_laws. by split. Qed.

Section internal.
Context `{E : Env}.

(** Computations that only fail with an error of SQLite *)
Definition internal_only {S A} (m : M S A) : Prop := forall c e, fst (m c) = Err e -> exists t, e = Internal t.

Lemma internal_ret {S A} (a : A) : internal_only (S := S) (mret a).
Proof using Type. by intros c e [=]. Qed.

Lemma internal_bind {S A B} (m : M S A) (f : A -> M S B) :
  internal_only m -> (forall a, internal_only (f a)) -> internal_only (m ≫= f).
Proof using Type.
  intros Hm Hf c e. unfold mbind, M_bind. specialize (Hm c). destruct (m c) as [[a|e'] c']; simpl in *; [by apply Hf|].
  intros [= ->]. by apply Hm.
Qed.

Lemma internal_stmt {S A} (f : nat -> S -> Result (A * S)) :
  (forall n db e, f n db = Err e -> exists t, e = Internal t) -> internal_only (stmt f).
Proof using Type.
  intros Hf c e. unfold stmt. destruct (fault (c_step c)); simpl; [intros [= <-]; by eexists|].
  destruct (f (c_step c) (c_db c)) as [[a db]|e'] eqn:Hr; simpl; [done|]. intros [= ->]. by eapply Hf.
Qed.

Lemma internal_for_each {S A B} (f : A -> M S B) l : (forall x, internal_only (f x)) -> internal_only (for_each f l).
Proof using Type.
  intros Hf. induction l as [|x l IH]; [apply internal_ret|]. apply internal_bind; [apply Hf|]. intros y.
  apply internal_bind; [exact IH|]. intros ys. apply internal_ret.
Qed.

Lemma internal_thread {S A B} (f : B -> A -> M S A) l a : (forall x a, internal_only (f x a)) -> internal_only (thread f l a).
Proof using Type.
  intros Hf. revert a. induction l as [|x l IH]; intros a; [apply internal_ret|]. apply internal_bind; [apply Hf|]. exact IH.
Qed.

Lemma internal_query {S A} (f : nat -> S -> Result A) :
  (forall n db e, f n db = Err e -> exists t, e = Internal t) -> internal_only (query f).
Proof using Type.
  intros Hf. apply internal_stmt. intros n db e He. destruct (f n db) as [a|e'] eqn:Hr; [done|].
  injection He as ->. by eapply Hf.
Qed.

Lemma internal_transaction {S A} (m : M S A) : internal_only m -> internal_only (transaction m).
Proof using Type.
  intros Hm c e. unfold transaction.
  match goal with |- context [match ?body c with (_, _) => _ end] => assert (internal_only body) as Hi;
    [|specialize (Hi c e); destruct (body c) as [[a|e'] c']; simpl in *; [done|intros [= ->]; by apply Hi]] end.
  apply internal_bind; [by apply internal_stmt|]. intros _. apply internal_bind; [done|]. intros a.
  apply internal_bind; [by apply internal_stmt|]. intros _. apply internal_ret.
Qed.

End internal.
