(* ===== verification/IngestLinear.v ===== *)
(** * The ingest writer serves its requests one at a time

    [ingest_writer_loop] reorders the requests and batches the enqueues into one transaction. What its
    clients see is nevertheless a sequence: the replies it sends, in their order, and the database it
    leaves are those of [IngestConn::handle] on one request after the other. *)
From S2P Require Import Prelude Types Db Tables Ingest Float Options Adaptive AdaptiveProps.
From S2P Require Import IngestWriter IngestWriterProps Linear.

(** ** The sequential specification *)

(** The names the writer knows and the database *)
Abbreviation ingest_state := (gset string * ingest_db)%type.

(** One request served on its own: what [handle] does in some environment - some clock, some failing
    statement - that obeys the laws. *)
Definition served_alone (s : ingest_state) (request : IngestRequest) (reply : IngestReply) (s' : ingest_state) : Prop :=
  exists (E : Env), EnvLaws E /\ exists n n',
    handle (E := E) request s.1 (Conn n s.2) = (Ok ([(reply_of request, reply)], s'.1), Conn n' s'.2).

Definition enqueue_request (p : PendingEnqueue) : IngestRequest := IEnqueue (pe_job p) (pe_reply p).

(** ** Enqueues on their own *)

(** An enqueue of an unknown queue is refused. *)
Lemma alone_refused names db p :
  ~ known names p ->
  served_alone (names, db) (enqueue_request p) (RepAccepted (Err (QueueNotFound (aj_queue_name (pe_job p))))) (names, db).
Proof.
  intros Hk. exists model_env. split; [apply model_env_laws|]. exists 0%nat, 0%nat.
  cbn [handle enqueue_request reply_of fst snd]. unfold enqueue_batch. rewrite !filter_cons, !filter_nil.
  unfold known in Hk. simpl. rewrite decide_False, decide_True by done. done.
Qed.

(** An enqueue of a known queue may fail with any error of SQLite. *)
Lemma alone_failed names db p e :
  known names p ->
  served_alone (names, db) (enqueue_request p) (RepAccepted (Err (Internal e))) (names, db).
Proof.
  intros Hk. exists (failing_env e). split; [apply failing_env_laws|]. eexists 0%nat, _.
  cbn [handle enqueue_request reply_of fst snd]. unfold enqueue_batch. rewrite !filter_cons, !filter_nil.
  unfold known in Hk. simpl. rewrite decide_True, decide_False by tauto. reflexivity.
Qed.

(** Otherwise it gets the next id. *)
Lemma enqueue_chunk_alone db p n :
  aj_queue_name (pe_job p) ∈ dom (i_queues db) ->
  let id := max_id (dom (i_accepted db)) + 1 in
  enqueue_chunk (E := model_env) [p] (Conn n db) =
    (Ok [mkPendingEnqueue (with_id id (pe_job p)) (pe_reply p)],
     Conn (S n) (set_accepted (<[id := new_accepted_row (pe_job p)]> (i_accepted db)) db)).
Proof.
  intros Hq id. unfold enqueue_chunk, stmt, mbind, M_bind. simpl. rewrite decide_True by by repeat constructor.
  unfold mret, M_ret. simpl. do 3 f_equal. unfold id. f_equal. f_equal. lia.
Qed.

Lemma transaction_alone db p n :
  aj_queue_name (pe_job p) ∈ dom (i_queues db) ->
  let id := max_id (dom (i_accepted db)) + 1 in
  transaction (E := model_env) (for_each (enqueue_chunk (E := model_env)) [[p]]) (Conn n db) =
    (Ok [[mkPendingEnqueue (with_id id (pe_job p)) (pe_reply p)]],
     Conn (S (S (S n))) (set_accepted (<[id := new_accepted_row (pe_job p)]> (i_accepted db)) db)).
Proof.
  intros Hq id. unfold transaction, mbind, M_bind. unfold stmt at 1. cbn [fault model_env c_step c_db for_each].
  unfold mbind, M_bind. rewrite enqueue_chunk_alone by done. reflexivity.
Qed.

Lemma alone_accepted names db p :
  known names p -> names ⊆ dom (i_queues db) ->
  let id := max_id (dom (i_accepted db)) + 1 in
  served_alone (names, db) (enqueue_request p) (RepAccepted (Ok (with_id id (pe_job p))))
    (names, set_accepted (<[id := new_accepted_row (pe_job p)]> (i_accepted db)) db).
Proof.
  intros Hk Hn id. exists model_env. split; [apply model_env_laws|]. eexists 0%nat, _.
  cbn [handle enqueue_request reply_of fst snd]. unfold enqueue_batch. rewrite !filter_cons, !filter_nil.
  unfold known in Hk. destruct p as [job reply]. cbn [pe_job pe_reply] in *. rewrite decide_True, decide_False by tauto.
  assert (chunks ROWS_PER_STATEMENT [mkPendingEnqueue job reply] = [[mkPendingEnqueue job reply]]) as -> by reflexivity.
  unfold mbind, M_bind, attempt, instant_now, ask. cbn [c_step c_db].
  rewrite transaction_alone by (simpl; set_solver). reflexivity.
Qed.

(** ** A batch of enqueues *)

Section batch.
Context `{EL : EnvLaws}.

Lemma internal_enqueue_chunk chunk : internal_only (enqueue_chunk chunk).
Proof using Type.
  apply internal_bind; [|intros last; apply internal_ret]. apply internal_stmt. intros n db e.
  case_decide; [by destruct (insert_rows _ _ _ _)|]. intros [= <-]. by eexists.
Qed.

Lemma batch_error_internal batch names c :
  wp (enqueue_batch batch names) (fun r _ => forall out e, r = Ok out ->
    out.2 = refusals names batch ++ ((fun p => (pe_reply p, Err e)) <$> accepted_of names batch) ->
    accepted_of names batch <> [] -> exists t, e = Internal t) c.
Proof using Type.
  unfold enqueue_batch, refusals, accepted_of. destruct batch as [|p0 batch0]; [by wp_rule|].
  set (jobs := filter _ (p0 :: batch0)). set (refused := _ <$> filter _ (p0 :: batch0)).
  destruct jobs as [|j0 jobs0]; [wp_rule; by intros out e _ _ []|].
  wp_rule. wp_rule. wp_rule. wp_rule. unfold wp at 1.
  pose proof (internal_transaction _ (internal_for_each enqueue_chunk (chunks ROWS_PER_STATEMENT (j0 :: jobs0))
    internal_enqueue_chunk) (Conn (S (c_step c)) (c_db c))) as Hi. cbn [c_step c_db].
  destruct (transaction _ _) as [[done|err] c']; cbn [fst snd] in *.
  - wp_rule. wp_rule. wp_rule. intros out e [= <-] Heq _. cbn [snd] in Heq. apply app_inv_head in Heq.
    destruct (concat done); by simplify_eq/=.
  - wp_rule. intros out e [= <-] Heq _. cbn [snd] in Heq. apply app_inv_head in Heq. injection Heq as -> _. by apply Hi.
Qed.

(** *** As a sequence *)

Definition enqueue_replies (replies : list (nat * Result AcceptedJob)) : list (nat * IngestReply) :=
  (fun kr => (kr.1, RepAccepted kr.2)) <$> replies.

Lemma served_refused names db (reply : PendingEnqueue -> Result AcceptedJob) l :
  Forall (fun p => served_alone (names, db) (enqueue_request p) (RepAccepted (reply p)) (names, db)) l ->
  exists trace, served served_alone (names, db) trace (names, db) /\ trace.*1 = enqueue_request <$> l /\
    replies_of reply_of trace = enqueue_replies ((fun p => (pe_reply p, reply p)) <$> l).
Proof using Type.
  intros Hl. eexists. split; [exact (served_constant _ _ _ (fun p => RepAccepted (reply p)) _ Hl)|].
  unfold replies_of, enqueue_replies. by rewrite <-!list_fmap_compose.
Qed.

Lemma served_accepted names db l :
  Forall (known names) l -> names ⊆ dom (i_queues db) -> id_room (i_accepted db) (length l) ->
  let first := max_id (dom (i_accepted db)) + 1 in
  exists trace,
    served served_alone (names, db) trace (names, set_accepted (append_rows first (pe_job <$> l) (i_accepted db)) db) /\
    trace.*1 = enqueue_request <$> l /\
    replies_of reply_of trace = enqueue_replies ((fun p => (pe_reply p, Ok (pe_job p))) <$> numbered first l).
Proof.
  intros Hk Hn Hroom. cbn zeta. revert db Hn Hroom. induction Hk as [|p l Hp _ IH]; intros db Hn Hroom.
  { exists []. split_and!; [|done..]. destruct db. apply served_nil. }
  set (first := max_id (dom (i_accepted db)) + 1).
  destruct (id_room_next (i_accepted db) (length l) 0 (new_accepted_row (pe_job p)) Hroom) as (Hid & Hroom' & Hmax & _).
  fold first in Hid. rewrite Hid in Hroom', Hmax.
  destruct (IH (set_accepted (<[first := new_accepted_row (pe_job p)]> (i_accepted db)) db)) as (trace & Ht & Hr & Hrep);
    [done|done|]. cbn [i_accepted set_accepted] in *. rewrite Hmax in Ht, Hrep.
  exists ((enqueue_request p, RepAccepted (Ok (with_id first (pe_job p)))) :: trace). split_and!.
  - econstructor; [by apply alone_accepted|exact Ht].
  - rewrite !fmap_cons. by rewrite Hr.
  - change (p :: l) with ([p] ++ l). rewrite numbered_app. rewrite fmap_app. unfold replies_of, enqueue_replies in *.
    rewrite fmap_cons, Hrep. simpl. by rewrite Z.add_0_r.
Qed.

Lemma served_batch names db batch db' out :
  names ⊆ dom (i_queues db) -> id_room (i_accepted db) (length batch) ->
  enqueue_post batch names db db' out ->
  (forall e, out.2 = refusals names batch ++ ((fun p => (pe_reply p, Err e)) <$> accepted_of names batch) ->
    accepted_of names batch <> [] -> exists t, e = Internal t) ->
  exists trace, served served_alone (names, db) trace (names, db') /\ trace.*1 ≡ₚ enqueue_request <$> batch /\
    replies_of reply_of trace = enqueue_replies out.2.
Proof.
  intros Hn Hroom Hpost Hint.
  assert (Forall (known names) (accepted_of names batch)) as Hk.
  { apply Forall_forall. intros p Hp. by apply list_elem_of_filter in Hp as [? _]. }
  destruct (served_refused names db (fun p => Err (QueueNotFound (aj_queue_name (pe_job p))))
    (filter (fun p => aj_queue_name (pe_job p) ∉ names) batch)) as (t1 & Ht1 & Hr1 & Hrep1).
  { apply Forall_forall. intros p [Hp _]%list_elem_of_filter. by apply alone_refused. }
  assert (exists t2, served served_alone (names, db) t2 (names, db') /\ t2.*1 = enqueue_request <$> accepted_of names batch /\
    enqueue_replies out.2 = enqueue_replies (refusals names batch) ++ replies_of reply_of t2) as (t2 & Ht2 & Hr2 & Hrep2).
  { unfold enqueue_post in Hpost. destruct Hpost as [(-> & _ & e & He)|(_ & Hout & ->)].
    - destruct (decide (accepted_of names batch = [])) as [Hnil|Hne].
      { exists []. rewrite He, Hnil, !app_nil_r. split_and!; [apply served_nil|done..]. }
      destruct (Hint e He Hne) as [t ->].
      destruct (served_refused names db (fun _ => Err (Internal t)) (accepted_of names batch)) as (t2 & H1 & H2 & H3).
      { eapply Forall_impl; [exact Hk|]. intros p Hp. by apply alone_failed. }
      exists t2. split_and!; [done|done|]. rewrite He, H3. unfold enqueue_replies. by rewrite fmap_app.
    - destruct (served_accepted names db (accepted_of names batch) Hk Hn) as (t2 & H1 & H2 & H3).
      { destruct Hroom as [? ?]. split; [done|]. assert (length (accepted_of names batch) <= length batch)%nat by apply length_filter. lia. }
      exists t2. split_and!; [done|done|]. rewrite Hout, H3. unfold enqueue_replies. by rewrite fmap_app. }
  exists (t1 ++ t2). split_and!.
  - by eapply served_app.
  - rewrite fmap_app, Hr1, Hr2, <-fmap_app. apply fmap_Permutation.
    exact (partition_Permutation (fun p => aj_queue_name (pe_job p) ∈ names) batch).
  - unfold replies_of in *. rewrite fmap_app, Hrep1. by rewrite Hrep2.
Qed.
End batch.

(** ** Rowids that are left *)

Lemma id_room_subset {R} (t t' : gmap Z R) k : dom t' ⊆ dom t -> id_room t k -> id_room t' k.
Proof.
  intros Hs [Hpos Hmax]. split; [set_solver|].
  enough (max_id (dom t') <= max_id (dom t)) by lia.
  apply max_id_lub; [apply max_id_nonneg|]. intros i Hi. apply max_id_ge. set_solver.
Qed.

Lemma id_room_le {R} (t : gmap Z R) k k' : (k' <= k)%nat -> id_room t k -> id_room t k'.
Proof. intros Hk [? ?]. split; [done|lia]. Qed.

Lemma same_jobs_dom t t' : same_jobs t t' -> dom t' ⊆ dom t.
Proof. intros Hs i [r Hr]%elem_of_dom. destruct (Hs i r Hr) as (r' & Hr' & _). by eapply elem_of_dom_2. Qed.

Section writer.
Context `{EL : EnvLaws} `{Ch : Channel}.

(** Only enqueues add rows. *)
Lemma wp_handle_ids request names c :
  ingest_class request <> IJob ->
  wp (handle request names) (fun _ c' => dom (i_accepted (c_db c')) ⊆ dom (i_accepted (c_db c))) c.
Proof.
  destruct request as [q rp|job rp|q limit rp|id d rp|cutoff rp|rp]; cbn [handle ingest_class]; try done; intros _; wp_rule; wp_rule.
  - eapply wp_mono; [apply wp_upsert_queue|]. intros r c' (_ & Ha & _). wp_rule. by rewrite Ha.
  - eapply wp_mono; [apply wp_claim_batch|]. intros r c' (_ & Hr). wp_rule. destruct r as [claimed|e]; [|by rewrite Hr].
    destruct Hr as (_ & now & ds & _ & _ & _ & ->). apply same_jobs_dom, same_jobs_update_keys. done.
  - eapply wp_mono; [apply wp_repend|]. intros r c' [_ Hr]. wp_rule. destruct r; [|by rewrite Hr].
    destruct Hr as [now ->]. apply same_jobs_dom, same_jobs_repend.
  - eapply wp_mono; [apply wp_cleanup|]. intros r c' [_ Hr]. wp_rule. destruct r; [|by rewrite Hr].
    destruct Hr as [_ ->]. apply same_jobs_dom, same_jobs_filter.
  - eapply wp_mono; [apply wp_vacuum|]. intros r c' (_ & _ & Ha). wp_rule. by rewrite Ha.
Qed.

(** ** The writer *)

Context (names0 : gset string) (db0 : ingest_db) (rx0 : list IngestRequest).

(** From the start on, the replies [sent] and the state are those of requests served one at a time;
    [waiting] are the others. *)
Record ingest_linear (names : gset string) (sent : list (nat * IngestReply)) (left : list IngestRequest) (db : ingest_db) : Prop := {
  ln_served : linear reply_of served_alone (names0, db0) rx0 (names, db) sent left;
  ln_wf : ingest_wf names db;
  ln_room : id_room (i_accepted db) (S (length left))
}.

Lemma linear_perm names sent left left' db : left ≡ₚ left' -> ingest_linear names sent left db -> ingest_linear names sent left' db.
Proof using Type.
  intros HP [Hlin Hwf Hroom]. split; [by eapply linear_reorder|done|by rewrite <-HP].
Qed.

Lemma linear_serve request names sent left c :
  ingest_class request <> IJob -> ingest_linear names sent (request :: left) (c_db c) ->
  wp (handle request names) (fun r c' => forall out, r = Ok out -> ingest_linear out.2 (sent ++ out.1) left (c_db c')) c.
Proof using EL.
  intros Hcls [Hlin Hwf Hroom].
  pose proof (wp_handle request names c Hwf ltac:(by eapply id_room_le; [|exact Hroom]; lia)) as H1.
  pose proof (wp_handle_ids request names c Hcls) as H2. unfold wp in *.
  destruct (handle request names c) as [r c'] eqn:Hrun. simpl in *. destruct H1 as (reply & names' & -> & _ & Hwf').
  intros out [= <-]. simpl. split; [|done|].
  - apply (linear_serves _ _ _ _ _ _ [request] left [(request, reply)] _ Hlin); [|done]. apply served_one.
    exists E. split; [done|]. destruct c as [n db], c' as [n' db']. by exists n, n'.
  - eapply id_room_subset; [exact H2|]. eapply id_room_le; [|exact Hroom]. simpl. lia.
Qed.

Lemma linear_flush pending names sent left reason backlog ctl c :
  ingest_linear names sent ((enqueue_request <$> pending) ++ left) (c_db c) ->
  wp (flush_pending pending names reason backlog ctl)
    (fun r c' => forall out, r = Ok out -> ingest_linear names (sent ++ out.1) left (c_db c')) c.
Proof using EL.
  intros [Hlin0 Hwf Hroom]. unfold flush_pending. rewrite length_app, length_fmap in Hroom.
  destruct pending as [|p0 pending0] eqn:Ep.
  { wp_rule. intros out [= <-]. simpl. by rewrite app_nil_r. }
  rewrite <-Ep in *. clear Ep p0 pending0. wp_rule.
  assert (id_room (i_accepted (c_db c)) (length pending)) as Hroom' by (eapply id_room_le; [|exact Hroom]; lia).
  eapply wp_mono; [apply wp_and; [by apply wp_enqueue_batch|apply batch_error_internal]|].
  intros r c' [(_ & out & -> & Hpost) Hint]. specialize (fun e => Hint out e eq_refl).
  destruct (served_batch names (c_db c) pending (c_db c') out (proj1 Hwf) Hroom' Hpost Hint) as (t & Ht & Hr & Hrep).
  assert (ingest_linear names (sent ++ enqueue_replies out.2) left (c_db c')) as Hlin.
  { split.
    - rewrite <-Hrep. by eapply linear_serves.
    - unfold enqueue_post in Hpost. destruct Hpost as [(-> & _)|(_ & _ & ->)]; [done|].
      apply ingest_wf_append; [done|]. apply Forall_forall. intros p Hp. by apply list_elem_of_filter in Hp as [? _].
    - unfold enqueue_post in Hpost. destruct Hpost as [(-> & _)|(_ & _ & ->)]; [eapply id_room_le; [|exact Hroom]; lia|].
      simpl. apply id_room_append; [|done]. rewrite length_fmap.
      assert (length (accepted_of names pending) <= length pending)%nat by apply length_filter.
      eapply id_room_le; [|exact Hroom]. lia. }
  destruct out.1 as [commit|]; cbn [fst snd]; [wp_rule; wp_rule|]; wp_rule; by intros ? [= <-].
Qed.

(** *** The queues *)

Definition queue_requests (q : IngestQueues) : list IngestRequest :=
  iq_meta q ++ iq_claim q ++ (enqueue_request <$> iq_ingest q).

Lemma queue_requests_push request q : queue_requests (ingest_push request q) ≡ₚ request :: queue_requests q.
Proof using Type.
  destruct q as [meta claim jobs], request; unfold queue_requests; simpl; rewrite ?fmap_app; simpl; solve_Permutation.
Qed.

(** What a computation that only receives requests leaves *)
Definition keeps (left : list IngestRequest) (q : IngestQueues) (left' : list IngestRequest) (q' : IngestQueues) : Prop :=
  left' ++ queue_requests q' ≡ₚ left ++ queue_requests q /\ (queues_ok q -> queues_ok q').

Lemma keeps_refl left q : keeps left q left q.
Proof using Type. by split. Qed.

Lemma keeps_push request left q left' q' :
  keeps left (ingest_push request q) left' q' -> keeps (request :: left) q left' q'.
Proof using Type.
  intros [HP Hq]. split; [|intros; by apply Hq, queues_ok_push]. rewrite HP, queue_requests_push. solve_Permutation.
Qed.

Lemma keeps_perm left1 left2 q left' q' : left1 ≡ₚ left2 -> keeps left1 q left' q' -> keeps left2 q left' q'.
Proof using Type. intros HP [H ?]. split; [by rewrite H, HP|done]. Qed.

Lemma keeps_try_recv rx q c :
  wp (ingest_try_recv rx q) (fun r c' => c_db c' = c_db c /\ forall rx' q', r = Ok (rx', q') -> keeps rx q rx' q') c.
Proof using E Ch.
  revert q c. induction rx as [|request rx IH]; intros q c; simpl.
  { wp_rule. split; [done|]. intros rx' q' [= <- <-]. apply keeps_refl. }
  wp_rule. wp_rule. destruct (arrives _).
  - eapply wp_mono; [apply IH|]. intros r c' [Hdb Hr]. split; [done|]. intros rx' q' Heq. by apply keeps_push, Hr.
  - wp_rule. split; [done|]. intros rx' q' [= <- <-]. apply keeps_refl.
Qed.

Lemma keeps_take target pending jobs ctl c :
  wp (ingest_take target pending jobs ctl) (fun r c' => c_db c' = c_db c /\
    forall pending' jobs' ctl', r = Ok (pending', jobs', ctl') -> pending' ++ jobs' = pending ++ jobs) c.
Proof using E Ch.
  revert pending ctl c. induction jobs as [|item jobs IH]; intros pending ctl c; simpl.
  { wp_rule. split; [done|]. by intros ? ? ? [= <- <- <-]. }
  destruct (Z.of_nat (length pending) <? target).
  - wp_rule. wp_rule. eapply wp_mono; [apply IH|]. intros r c' [Hdb Hr]. split; [done|].
    intros p' j' ctl' Heq. rewrite (Hr p' j' ctl' Heq). by rewrite <-app_assoc.
  - wp_rule. split; [done|]. by intros ? ? ? [= <- <- <-].
Qed.

Lemma keeps_fill target deadline rx pending q ctl c :
  wp (ingest_fill target deadline rx pending q ctl) (fun r c' => c_db c' = c_db c /\
    forall rx' pending' q' ctl' d, r = Ok (rx', pending', q', ctl', d) ->
      keeps ((enqueue_request <$> pending) ++ rx) q ((enqueue_request <$> pending') ++ rx') q') c.
Proof using E Ch.
  revert pending q ctl c. induction rx as [|request rx IH]; intros pending q ctl c; simpl;
    (destruct (negb _); [wp_rule; split; [done|]; intros ????? [= <- <- <- <- <-]; apply keeps_refl|]); wp_rule; wp_rule;
    (destruct (_ =? 0); [wp_rule; split; [done|]; intros ????? [= <- <- <- <- <-]; apply keeps_refl|]); wp_rule; wp_rule;
    (destruct (arrives _); simpl; [|wp_rule; split; [done|]; intros ????? [= <- <- <- <- <-]; apply keeps_refl]).
  { wp_rule. split; [done|]. intros ????? [= <- <- <- <- <-]. apply keeps_refl. }
  assert (forall c2, c_db c2 = c_db c -> wp (if ingest_preempts request then mret (rx, pending, ingest_push request q, ctl, false)
                else ingest_fill target deadline rx pending (ingest_push request q) ctl)
      (fun r c' => c_db c' = c_db c /\ forall rx' pending' q' ctl' d, r = Ok (rx', pending', q', ctl', d) ->
        keeps ((enqueue_request <$> pending) ++ request :: rx) q ((enqueue_request <$> pending') ++ rx') q') c2) as Hwp.
  { intros c2 Hc2. destruct (ingest_preempts request).
    - wp_rule. split; [done|]. intros ????? [= <- <- <- <- <-].
      eapply keeps_perm; [|by apply (keeps_push request), keeps_refl]. solve_Permutation.
    - eapply wp_mono; [apply IH|]. intros r c' [Hdb Hr]. split; [congruence|]. intros rx' p' q' ctl' d Heq.
      eapply keeps_perm; [|by eapply (keeps_push request), Hr]. solve_Permutation. }
  destruct request as [|job reply| | | |]; try (by apply Hwp).
  wp_rule. wp_rule. eapply wp_mono; [apply IH|]. intros r c' [Hdb Hr]. split; [done|]. intros rx' p' q' ctl' d Heq.
  eapply keeps_perm; [|by eapply Hr]. rewrite fmap_app. simpl. solve_Permutation.
Qed.

(** *** The loop *)

Definition linear_writer (w : ingest_writer) (db : ingest_db) : Prop :=
  ingest_linear (iw_names w) (iw_sent w) (iw_rx w ++ queue_requests (iw_queues w)) db /\ queues_ok (iw_queues w).

Lemma linear_receive w rx q db :
  keeps (iw_rx w) (iw_queues w) rx q -> linear_writer w db -> linear_writer (iw_receive rx q w) db.
Proof using Type.
  intros [HP Hq] [Hlin Hok]. split; [|by apply Hq]. simpl. by eapply linear_perm; [symmetry; exact HP|].
Qed.

Lemma linear_ingest_serve request q w c :
  ingest_class request <> IJob -> linear_writer w (c_db c) -> queues_ok q ->
  queue_requests (iw_queues w) ≡ₚ request :: queue_requests q ->
  wp (ingest_serve request q w) (fun r c' => forall w', r = Ok w' -> linear_writer w' (c_db c') /\ iw_queues w' = q) c.
Proof using EL.
  intros Hcls [Hlin _] Hq HP. unfold ingest_serve. wp_rule.
  eapply wp_mono; [apply (linear_serve request _ (iw_sent w) (iw_rx w ++ queue_requests q)); [done|]|].
  { eapply linear_perm; [|exact Hlin]. rewrite HP. solve_Permutation. }
  intros [out|e] c' Hout; [|done]. wp_rule. intros w' [= <-]. split; [|done]. split; [|done]. by apply Hout.
Qed.

Lemma linear_serve_meta meta w c :
  iq_meta (iw_queues w) = meta -> linear_writer w (c_db c) ->
  wp (serve_meta meta w) (fun r c' => forall w', r = Ok w' -> linear_writer w' (c_db c')) c.
Proof using EL.
  revert w c. induction meta as [|request meta IH]; intros w c Hm Hlin; simpl; [wp_rule; by intros ? [= <-]|].
  pose proof (proj2 Hlin) as [Hmeta Hclaim]. rewrite Hm in Hmeta. apply Forall_cons in Hmeta as [Hreq Hmeta].
  wp_rule. eapply wp_mono; [apply linear_ingest_serve; [by rewrite Hreq|done|by split|]|].
  - unfold queue_requests. by rewrite Hm.
  - intros [w1|e] c' Hw1; [|done]. destruct (Hw1 w1 eq_refl) as [Hlin1 Hq1]. apply IH; [by rewrite Hq1|done].
Qed.

Lemma linear_serve_claims claims w c :
  iq_claim (iw_queues w) = claims -> linear_writer w (c_db c) ->
  wp (serve_claims claims w) (fun r c' => forall w', r = Ok w' -> linear_writer w' (c_db c')) c.
Proof using EL.
  revert w c. induction claims as [|request claims IH]; intros w c Hm Hlin; simpl; [wp_rule; by intros ? [= <-]|].
  pose proof (proj2 Hlin) as [Hmeta Hclaim]. rewrite Hm in Hclaim. apply Forall_cons in Hclaim as [Hreq Hclaim].
  wp_rule. eapply wp_mono; [apply linear_ingest_serve; [by rewrite Hreq|done|by split|]|].
  - unfold queue_requests. rewrite Hm. simpl. solve_Permutation.
  - intros [w1|e] c' Hw1; [|done]. destruct (Hw1 w1 eq_refl) as [Hlin1 Hq1]. apply IH; [by rewrite Hq1|done].
Qed.

Lemma linear_run_turn w c :
  linear_writer w (c_db c) ->
  wp (run_ingest_turn w) (fun r c' => forall end_ w', r = Ok (end_, w') -> linear_writer w' (c_db c')) c.
Proof using EL.
  intros [Hlin Hok]. unfold run_ingest_turn. wp_rule. eapply wp_mono; [apply keeps_take|].
  intros [[[pending queued] ctl]|e] c1 [Hdb1 Htake]; [|done]. specialize (Htake _ _ _ eq_refl). simpl in Htake.
  cbn beta iota. set (q := mkIngestQueues (iq_meta (iw_queues w)) (iq_claim (iw_queues w)) queued).
  assert (queues_ok q) as Hq by (split; apply Hok).
  assert (ingest_linear (iw_names w) (iw_sent w) (((enqueue_request <$> pending) ++ iw_rx w) ++ queue_requests q) (c_db c1)) as Hlin1.
  { rewrite Hdb1. eapply linear_perm; [|exact Hlin]. unfold queue_requests. simpl. rewrite <-Htake, fmap_app. solve_Permutation. }
  destruct pending as [|p0 pending'] eqn:Ep.
  { wp_rule. intros end_ w' [= <- <-]. split; [exact Hlin1|exact Hq]. }
  rewrite <-Ep in *. clear Ep. wp_rule. wp_rule. wp_rule. eapply wp_mono; [apply keeps_fill|].
  intros [[[[[rx pending2] q2] ctl2] d]|e] c2 [Hdb2 Hfill]; [|done]. destruct (Hfill _ _ _ _ _ eq_refl) as [HP Hq2].
  cbn beta iota. wp_rule. wp_rule. wp_rule.
  eapply wp_mono; [apply (linear_flush pending2 _ (iw_sent w) (rx ++ queue_requests q2))|].
  - cbn [c_db]. rewrite Hdb2. cbn [c_db]. eapply linear_perm; [|exact Hlin1]. rewrite <-HP. solve_Permutation.
  - intros [out|e] c3 Hout; [|done]. wp_rule. intros end_ w' [= <- <-]. split; [|by apply Hq2].
    unfold iw_flushed. simpl. by apply Hout.
Qed.

Lemma linear_flush_ingest backlog w c :
  linear_writer w (c_db c) ->
  wp (flush_ingest backlog w) (fun r c' => forall end_ w', r = Ok (end_, w') -> linear_writer w' (c_db c')) c.
Proof using EL.
  intros [Hlin Hok]. unfold flush_ingest. destruct (iq_ingest (iw_queues w)) as [|p0 pending'] eqn:Ep.
  { wp_rule. by intros end_ w' [= <- <-]. }
  rewrite <-Ep. wp_rule.
  eapply wp_mono; [apply (linear_flush _ _ (iw_sent w) (iw_rx w ++ iq_meta (iw_queues w) ++ iq_claim (iw_queues w)))|].
  - eapply linear_perm; [|exact Hlin]. unfold queue_requests. solve_Permutation.
  - intros [out|e] c3 Hout; [|done]. wp_rule. intros end_ w' [= <- <-]. split; [|split; apply Hok].
    unfold iw_flushed, queue_requests. simpl. rewrite app_nil_r. by apply Hout.
Qed.

Lemma linear_finish backlog w c :
  linear_writer w (c_db c) ->
  wp (ingest_finish backlog w) (fun r c' => forall end_ w', r = Ok (end_, w') -> linear_writer w' (c_db c')) c.
Proof using EL.
  intros Hlin. unfold ingest_finish. wp_rule. eapply wp_mono; [by apply linear_flush_ingest|].
  intros [[end_ w1]|e] c1 Hw1; [|done]. specialize (Hw1 _ _ eq_refl). cbn beta iota.
  assert (wp (w0 ← serve_meta (iq_meta (iw_queues w1)) w1;
              w2 ← serve_claims (iq_claim (iw_queues w0)) w0; mret (Disconnected, w2))
    (fun r c' => forall end_ w', r = Ok (end_, w') -> linear_writer w' (c_db c')) c1) as Hserve.
  { wp_rule. eapply wp_mono; [by apply linear_serve_meta|]. intros [w2|e] c2 Hw2; [|done].
    wp_rule. eapply wp_mono; [by apply linear_serve_claims, Hw2|]. intros [w3|e] c3 Hw3; [|done].
    wp_rule. intros ? ? [= <- <-]. by apply Hw3. }
  destruct end_; [exact Hserve|exact Hserve|]. wp_rule. by intros ? ? [= <- <-].
Qed.

Lemma linear_recv w w' db : ingest_recv w = Some w' -> linear_writer w db -> linear_writer w' db.
Proof using Type.
  unfold ingest_recv. destruct (ingest_is_empty _); [|by intros [= ->]].
  destruct (iw_rx w) as [|request rx] eqn:Hrx; [done|]. intros [= <-]. apply linear_receive. rewrite Hrx.
  apply keeps_push, keeps_refl.
Qed.

Lemma linear_loop fuel w c :
  linear_writer w (c_db c) ->
  wp (ingest_writer_loop fuel w) (fun r c' => forall end_ w', r = Ok (Some (end_, w')) -> linear_writer w' (c_db c')) c.
Proof using EL.
  revert w c. induction fuel as [|fuel IH]; intros w c Hlin; [by cbn [ingest_writer_loop]; wp_rule|]. cbn [ingest_writer_loop].
  assert (forall backlog w c, linear_writer w (c_db c) -> wp (Some <$> ingest_finish backlog w)
    (fun r c' => forall end_ w', r = Ok (Some (end_, w')) -> linear_writer w' (c_db c')) c) as Hfinish.
  { clear -EL. intros backlog w c Hlin. unfold fmap, M_fmap. wp_rule. eapply wp_mono; [by apply linear_finish|].
    intros [[end_ w']|e] c' Hw'; [|done]. wp_rule. intros ? ? [= <- <-]. by eapply Hw'. }
  destruct (ingest_recv w) as [w1|] eqn:Hrecv; [|by apply Hfinish].
  pose proof (linear_recv _ _ _ Hrecv Hlin) as Hlin1. wp_rule. eapply wp_mono; [apply keeps_try_recv|].
  intros [[rx q]|e] c1 [Hdb Hkeep]; [|done]. cbn beta iota. cbn [fst snd].
  pose proof (linear_receive w1 rx q (c_db c1) (Hkeep _ _ eq_refl) ltac:(by rewrite Hdb)) as Hlin2.
  set (w2 := iw_receive rx q w1) in *. change (iw_queues w2) with q. pose proof (proj2 Hlin2) as Hq. change (iw_queues w2) with q in Hq.
  assert (forall request q', ingest_class request <> IJob -> queues_ok q' -> queue_requests q ≡ₚ request :: queue_requests q' ->
    wp (w3 ← ingest_serve request q' w2; ingest_writer_loop fuel w3)
      (fun r c' => forall end_ w', r = Ok (Some (end_, w')) -> linear_writer w' (c_db c')) c1) as Hserve.
  { intros request q' Hcls Hq' HP. wp_rule. eapply wp_mono; [by apply linear_ingest_serve|].
    intros [w3|e] c3 Hw3; [|done]. apply IH. by apply Hw3. }
  destruct q as [[|request meta] claims jobs]; cbn [iq_meta iq_claim iq_ingest] in *.
  2:{ destruct Hq as [[Hr Hmeta]%Forall_cons Hclaim]. apply Hserve; [by rewrite Hr|by split|done]. }
  destruct claims as [|request claims].
  2:{ destruct Hq as [Hmeta [Hr Hclaim]%Forall_cons]. apply Hserve; [by rewrite Hr|by split|done]. }
  destruct jobs as [|p jobs]; [by apply IH|].
  wp_rule. eapply wp_mono; [by apply linear_run_turn|]. intros [[end_ w3]|e] c3 Hw3; [|done]. specialize (Hw3 _ _ eq_refl).
  cbn beta iota. destruct end_; [by apply IH| |].
  - wp_rule. wp_rule. by apply Hfinish.
  - wp_rule. by intros ? ? [= <- <-].
Qed.
End writer.

(** ** Property *)

(** C20. The ingest writer is linearizable: however it reorders and batches the requests, the replies it has
    sent, in the order it has sent them, and the database are those of [handle] serving these requests
    one at a time - each in some environment that obeys the laws, so a batch that fails is as if each
    of its enqueues had failed - and the requests that are left are still waiting. *)
Theorem ingest_writer_is_linearizable `{EnvLaws} `{Channel} fuel options names rx n db end_ w c' :
  ingest_wf names db -> id_room (i_accepted db) (S (length rx)) ->
  ingest_writer_loop fuel (ingest_writer_new options names rx) (Conn n db) = (Ok (Some (end_, w)), c') ->
  exists trace, served served_alone (names, db) trace (iw_names w, c_db c') /\ iw_sent w = replies_of reply_of trace /\
    trace.*1 ++ iw_rx w ++ queue_requests (iw_queues w) ≡ₚ rx.
Proof.
  intros Hwf Hroom Hrun.
  assert (linear_writer names db rx (ingest_writer_new options names rx) db) as Hlin.
  { split; [|by repeat constructor]. split; simpl; rewrite ?app_nil_r; [apply linear_start|done|done]. }
  pose proof (linear_loop names db rx fuel _ (Conn n db) Hlin) as Hwp.
  destruct (wp_run _ _ _ _ _ Hwp Hrun _ _ eq_refl) as [[(trace & Hs & Hr & HP) _ _] _]. by exists trace.
Qed.

(** What a run of the loop has answered, and what is left *)
Definition run_end (r : Result (option (turn_end * ingest_writer))) : option (list nat * list IngestRequest) :=
  match r with
  | Ok (Some (_, w)) => Some ((iw_sent w).*1, iw_rx w ++ queue_requests (iw_queues w))
  | _ => None
  end.

(** The upsert and the maintenance overtake the first enqueue, then the claims do; all are served. *)
Lemma ingest_writer_is_linearizable_witness :
  exists trace s', served served_alone (∅, empty_ingest) trace s' /\ (replies_of reply_of trace).*1 = [2; 5; 3; 6; 4; 1]%nat /\
    trace.*1 ≡ₚ example_rx.
Proof.
  assert (ingest_wf ∅ empty_ingest) as Hwf by (split; [set_solver|by intros i r Hr]).
  assert (id_room (i_accepted empty_ingest) (S (length example_rx))) as Hroom by (apply id_room_decide; vm_compute; reflexivity).
  assert (run_end (fst (ingest_writer_loop (E := model_env) (Ch := model_channel) 7
    (ingest_writer_new enqueue_defaults ∅ example_rx) (Conn 0 empty_ingest))) = Some ([2; 5; 3; 6; 4; 1]%nat, [])) as Hend
    by (vm_compute; reflexivity).
  destruct (ingest_writer_loop (E := model_env) (Ch := model_channel) 7
    (ingest_writer_new enqueue_defaults ∅ example_rx) (Conn 0 empty_ingest)) as [r c'] eqn:Hrun.
  simpl in Hend. unfold run_end in Hend. destruct r as [[[end_ w]|]|]; try discriminate Hend. injection Hend as Hsent Hleft.
  destruct (ingest_writer_is_linearizable (E := model_env) 7 enqueue_defaults ∅ example_rx 0 empty_ingest end_ w c' Hwf Hroom Hrun)
    as (trace & Hs & Hr & HP).
  exists trace, (iw_names w, c_db c'). split; [exact Hs|]. split; [rewrite <-Hr; exact Hsent|].
  rewrite Hleft, app_nil_r in HP. exact HP.
Defined.
