(* ===== verification/ResultsWriter.v ===== *)
(** * The loop of the results writer

    [crates/persistence/src/sqlite/results.rs], [results_writer_loop]: the thread that owns the
    results connection serves the meta requests first, then lets the lane controller of [Adaptive]
    choose between one dispatch and one batch of completions. The channel is that of
    [IngestWriter]. *)
From S2P Require Import Prelude Types Db Tables Ingest Results Float Options Adaptive IngestWriter.

Inductive ResultsClass : Type := RMeta | RDisp | RComp.
#[export] Instance ResultsClass_eq_dec : EqDecision ResultsClass.
Proof. solve_decision. Defined.

(** The queue a request waits in *)
Definition results_class (request : ResultsRequest) : ResultsClass :=
  match request with
  | RComplete _ _ _ _ => RComp
  | RDispatch _ _ => RDisp
  | _ => RMeta
  end.

Record ResultsQueues := mkResultsQueues {
  rq_meta : list ResultsRequest;
  rq_dispatch : list PendingDispatch;
  rq_complete : list PendingCompletion
}.

Definition no_results : ResultsQueues := mkResultsQueues [] [] [].

Definition results_is_empty (q : ResultsQueues) : bool :=
  match q with mkResultsQueues [] [] [] => true | _ => false end.

(** [ResultsQueues::push] at time [now] *)
Definition results_push_at (now : Z) (request : ResultsRequest) (q : ResultsQueues) : ResultsQueues :=
  match request with
  | RComplete job_id dispatch_id outcome reply =>
      mkResultsQueues (rq_meta q) (rq_dispatch q)
        (rq_complete q ++ [mkPendingCompletion job_id dispatch_id outcome reply now])
  | RDispatch rows reply =>
      mkResultsQueues (rq_meta q) (rq_dispatch q ++ [mkPendingDispatch rows reply now]) (rq_complete q)
  | _ => mkResultsQueues (rq_meta q ++ [request]) (rq_dispatch q) (rq_complete q)
  end.

Definition dispatch_rows (q : ResultsQueues) : Z :=
  foldr (fun pending total => Z.of_nat (length (pd_rows pending)) + total) 0 (rq_dispatch q).
Definition dispatch_oldest (q : ResultsQueues) : option Z := pd_queued_at <$> head (rq_dispatch q).
Definition completion_oldest (q : ResultsQueues) : option Z := pcm_queued_at <$> head (rq_complete q).

(** Which requests end the wait for more completions *)
Definition results_preempts (request : ResultsRequest) : bool :=
  match request with
  | RUpsertQueue _ _ | RAbandon _ _ _ | RRecoverStale _ _ => true
  | _ => false
  end.

Record results_writer := mkResultsWriter {
  rw_rx : list ResultsRequest;
  rw_queues : ResultsQueues;
  rw_controller : AdaptiveBatchController;
  rw_lanes : ResultsLaneController;
  rw_sent : list (nat * ResultsReply)
}.

Definition results_writer_new (options : BatchOptions) (rx : list ResultsRequest) : results_writer :=
  mkResultsWriter rx no_results (AdaptiveBatchController_new options) (ResultsLaneController_new (ewma_window options)) [].

Definition rw_receive (rx : list ResultsRequest) (q : ResultsQueues) (w : results_writer) : results_writer :=
  mkResultsWriter rx q (rw_controller w) (rw_lanes w) (rw_sent w).

Section writer.
Context `{E : Env} `{Ch : Channel}.

(** A completion takes the time when it is pushed, and so does a dispatch. *)
Definition results_push (request : ResultsRequest) (q : ResultsQueues) : M results_db ResultsQueues :=
  match results_class request with
  | RMeta => mret (results_push_at 0 request q)
  | _ => now ← instant_now; mret (results_push_at now request q)
  end.

Fixpoint results_try_recv (rx : list ResultsRequest) (q : ResultsQueues) :
    M results_db (list ResultsRequest * ResultsQueues) :=
  match rx with
  | [] => mret ([], q)
  | request :: rest =>
      arrived ← ask arrives;
      if (arrived : bool) then q ← results_push request q; results_try_recv rest q else mret (rx, q)
  end.

(** The first loop of [run_complete_turn] *)
Fixpoint complete_take (target : Z) (pending queued : list PendingCompletion) (ctl : AdaptiveBatchController) :
    M results_db (list PendingCompletion * list PendingCompletion * AdaptiveBatchController) :=
  match queued with
  | item :: rest =>
      if Z.of_nat (length pending) <? target
      then now ← instant_now; complete_take target (pending ++ [item]) rest (observe_request now ctl)
      else mret (pending, queued, ctl)
  | [] => mret (pending, [], ctl)
  end.

(** The second loop; true when the channel is closed *)
Fixpoint complete_fill (target deadline : Z) (rx : list ResultsRequest) (pending : list PendingCompletion)
    (q : ResultsQueues) (ctl : AdaptiveBatchController) :
    M results_db (list ResultsRequest * list PendingCompletion * ResultsQueues * AdaptiveBatchController * bool) :=
  if negb (Z.of_nat (length pending) <? target) then mret (rx, pending, q, ctl, false)
  else
    now ← instant_now;
    if saturating_duration_since deadline now =? 0 then mret (rx, pending, q, ctl, false)
    else
      arrived ← ask arrives;
      if negb arrived then mret (rx, pending, q, ctl, false)
      else
        match rx with
        | [] => mret ([], pending, q, ctl, true)
        | RComplete job_id dispatch_id outcome reply :: rest =>
            now ← instant_now;
            let ctl := observe_request now ctl in
            queued_at ← instant_now;
            complete_fill target deadline rest
              (pending ++ [mkPendingCompletion job_id dispatch_id outcome reply queued_at]) q ctl
        | request :: rest =>
            q ← results_push request q;
            if results_preempts request then mret (rest, pending, q, ctl, false)
            else complete_fill target deadline rest pending q ctl
        end.

(** [record_successful_completion_commit], when there was a commit; [backlog] computes the backlog *)
Definition observe_completion (filled : nat) (commit : option BatchCommit) (backlog : M results_db Z) (reason : FlushReason)
    (ctl : AdaptiveBatchController) : M results_db (option AdaptiveBatchController) :=
  match commit with
  | None => mret (Some ctl)
  | Some commit =>
      backlog ← backlog;
      completed_at ← instant_now;
      mret (record_successful_completion_commit (Z.of_nat (Nat.min filled (bc_count commit))) (bc_duration commit)
              completed_at backlog reason ctl)
  end.

Definition completion_replies (out : list (nat * Result CompletionDisposition)) : list (nat * ResultsReply) :=
  (fun kr => (kr.1, RRepDisposition kr.2)) <$> out.

Definition run_complete_turn (w : results_writer) : M results_db (turn_end * results_writer) :=
  let target := batch_size (rw_controller w) in
  taken ← complete_take target [] (rq_complete (rw_queues w)) (rw_controller w);
  let '(pending, queued, ctl) := taken in
  let q := mkResultsQueues (rq_meta (rw_queues w)) (rq_dispatch (rw_queues w)) queued in
  match pending with
  | [] => mret (Running, mkResultsWriter (rw_rx w) q ctl (rw_lanes w) (rw_sent w))
  | _ =>
      now ← instant_now;
      filled ← complete_fill target (now + batch_wait ctl) (rw_rx w) pending q ctl;
      let '(rx, pending, q, ctl, disconnected) := filled in
      let reason := if target <=? Z.of_nat (length pending) then FullBatch else Timeout in
      out ← complete_batch pending;
      let lanes := match out.1 with
                   | Some commit => observe_success Completion (Z.of_nat (bc_count commit)) (bc_duration commit) (rw_lanes w)
                   | None => rw_lanes w end in
      let backlog := waiting ← ask waiting; mret (Z.of_nat (length (rq_complete q)) + waiting) in
      ctl' ← observe_completion (length pending) out.1 backlog reason ctl;
      mret (match ctl' with
            | None => Panicked
            | Some _ => if (disconnected : bool) then Disconnected else Running
            end,
            mkResultsWriter rx q (default ctl ctl') (record_turn Completion lanes)
              (rw_sent w ++ completion_replies out.2))
  end.

Definition run_dispatch_turn (w : results_writer) : M results_db results_writer :=
  let q := rw_queues w in
  match rq_dispatch q with
  | [] => mret w
  | pending :: rest =>
      let rows := Z.of_nat (length (pd_rows pending)) in
      started ← instant_now;
      result ← attempt (dispatch_batch (pd_rows pending));
      lanes ← (if is_ok result
               then elapsed ← instant_now;
                    mret (observe_success Dispatch rows (Z.max 0 (elapsed - started)) (rw_lanes w))
               else mret (rw_lanes w));
      mret (mkResultsWriter (rw_rx w) (mkResultsQueues (rq_meta q) rest (rq_complete q)) (rw_controller w)
              (record_turn Dispatch lanes) (rw_sent w ++ [(pd_reply pending, RRepDispatched result)]))
  end.

Definition flush_complete (backlog : Z) (w : results_writer) : M results_db (turn_end * results_writer) :=
  let q := rw_queues w in
  match rq_complete q with
  | [] => mret (Running, w)
  | batch =>
      out ← complete_batch batch;
      ctl' ← observe_completion (length batch) out.1 (mret backlog) Timeout (rw_controller w);
      mret (match ctl' with None => Panicked | Some _ => Running end,
            mkResultsWriter (rw_rx w) (mkResultsQueues (rq_meta q) (rq_dispatch q) []) (default (rw_controller w) ctl')
              (rw_lanes w) (rw_sent w ++ completion_replies out.2))
  end.

Definition results_serve (request : ResultsRequest) (q : ResultsQueues) (w : results_writer) :
    M results_db results_writer :=
  replies ← r_handle request;
  mret (mkResultsWriter (rw_rx w) q (rw_controller w) (rw_lanes w) (rw_sent w ++ replies)).

Fixpoint results_serve_meta (meta : list ResultsRequest) (w : results_writer) : M results_db results_writer :=
  match meta with
  | [] => mret w
  | request :: rest =>
      w ← results_serve request (mkResultsQueues rest (rq_dispatch (rw_queues w)) (rq_complete (rw_queues w))) w;
      results_serve_meta rest w
  end.

(** [while let Some(pending) = queues.dispatch.pop_front() { .. }] *)
Fixpoint serve_dispatches (dispatches : list PendingDispatch) (w : results_writer) : M results_db results_writer :=
  match dispatches with
  | [] => mret w
  | pending :: rest =>
      result ← attempt (dispatch_batch (pd_rows pending));
      serve_dispatches rest
        (mkResultsWriter (rw_rx w) (mkResultsQueues (rq_meta (rw_queues w)) rest (rq_complete (rw_queues w)))
           (rw_controller w) (rw_lanes w) (rw_sent w ++ [(pd_reply pending, RRepDispatched result)]))
  end.

(** What is left is served when the channel is closed; the dispatches only when a turn found it so
    ([with_dispatches]), since the other way out has none. *)
Definition results_finish (with_dispatches : bool) (backlog : Z) (w : results_writer) :
    M results_db (turn_end * results_writer) :=
  flushed ← flush_complete backlog w;
  let '(end_, w) := flushed in
  match end_ with
  | Panicked => mret (Panicked, w)
  | _ =>
      w ← results_serve_meta (rq_meta (rw_queues w)) w;
      w ← (if with_dispatches then serve_dispatches (rq_dispatch (rw_queues w)) w else mret w);
      mret (Disconnected, w)
  end.

(** [if queues.is_empty() { rx.recv().await }]; [None] is the [break]. *)
Definition results_recv (w : results_writer) : M results_db (option results_writer) :=
  if results_is_empty (rw_queues w) then
    match rw_rx w with
    | request :: rest => q ← results_push request (rw_queues w); mret (Some (rw_receive rest q w))
    | [] => mret None
    end
  else mret (Some w).

(** The loop; [None] when the fuel runs out. *)
Fixpoint results_writer_loop (fuel : nat) (w : results_writer) : M results_db (option (turn_end * results_writer)) :=
  match fuel with
  | O => mret None
  | S fuel =>
      first ← results_recv w;
      match first with
      | None => Some <$> results_finish false 0 w
      | Some w =>
          received ← results_try_recv (rw_rx w) (rw_queues w);
          let w := rw_receive received.1 received.2 w in
          let q := rw_queues w in
          match rq_meta q with
          | request :: rest =>
              w ← results_serve request (mkResultsQueues rest (rq_dispatch q) (rq_complete q)) w;
              results_writer_loop fuel w
          | [] =>
              now ← instant_now;
              let selected := select (dispatch_rows q) (dispatch_oldest q) (Z.of_nat (length (rq_complete q)))
                                (completion_oldest q) now (rw_lanes w) in
              let w := mkResultsWriter (rw_rx w) q (rw_controller w) selected.2 (rw_sent w) in
              match selected.1 with
              | None => results_writer_loop fuel w
              | Some (Dispatch, _) => w ← run_dispatch_turn w; results_writer_loop fuel w
              | Some (Completion, _) =>
                  turn ← run_complete_turn w;
                  let '(end_, w) := turn in
                  match end_ with
                  | Running => results_writer_loop fuel w
                  | Panicked => mret (Some (Panicked, w))
                  | Disconnected => backlog ← ask waiting; Some <$> results_finish true backlog w
                  end
              end
          end
      end
  end.
End writer.
