(* ===== verification/ResultsWriterProps.v ===== *)
(** * The loop of the results writer: properties

    The loop never stalls as long as every dispatch has rows: with the fuel of one iteration per
    request it ends, and every request that was sent has been answered exactly once, each class of
    requests in the order of its arrival. A dispatch without rows makes it spin for ever. *)
From S2P Require Import Prelude Types Db Tables Ingest Results ResultsFacts Float Options Adaptive AdaptiveProps.
From S2P Require Import IngestWriter IngestWriterProps ResultsWriter.

Definition r_reply_class (reply : ResultsReply) : ResultsClass :=
  match reply with
  | RRepDisposition _ => RComp
  | RRepDispatched _ => RDisp
  | RRepQueue _ | RRepUnit _ | RRepRecovered _ | RRepCount _ => RMeta
  end.

Definition r_channel (request : ResultsRequest) : nat :=
  match request with
  | RUpsertQueue _ reply | RDispatch _ reply | RComplete _ _ _ reply | RAbandon _ _ reply
  | RRecoverStale _ reply | RCleanupExpiredRecords _ reply | RVacuum reply => reply
  end.

(** A dispatch has rows: what [SqliteStore::claim_batch_inner] sends. *)
Definition has_rows (request : ResultsRequest) : Prop :=
  match request with RDispatch rows _ => rows <> [] | _ => True end.

Section replies.
Context `{EL : EnvLaws}.

Lemma wp_r_handle_reply request c :
  results_class request = RMeta ->
  wp (r_handle request) (fun r _ => exists reply,
    r = Ok [(r_channel request, reply)] /\ r_reply_class reply = RMeta) c.
Proof.
  destruct request; cbn [r_handle results_class r_channel]; try done; intros _; apply wp_attempt_any;
    intros r c'; wp_rule; by eexists.
Qed.

(** The completions of a batch are answered in order. *)
Lemma wp_complete_batch_replies batch c :
  wp (complete_batch batch) (fun r _ => exists commit replies,
    r = Ok (commit, replies) /\ replies.*1 = pcm_reply <$> batch) c.
Proof.
  eapply wp_mono; [apply wp_complete_batch|]. intros r c' ([commit replies] & -> & Hpost).
  eexists _, _. split; [done|]. destruct Hpost as [(e & [= -> ->] & _)|(now & ds & d & t' & [= -> ->] & Hl & _)].
  - by rewrite <-list_fmap_compose.
  - by rewrite (fmap_zip_with_fst _ _ pcm_reply).
Qed.
End replies.

(** ** Accounts of the requests *)

Definition r_answered (cls : ResultsClass) (sent : list (nat * ResultsReply)) : list nat :=
  (filter (fun kr => r_reply_class kr.2 = cls) sent).*1.
Definition r_requested (cls : ResultsClass) (rx : list ResultsRequest) : list nat :=
  r_channel <$> filter (fun request => results_class request = cls) rx.
Definition r_queued (cls : ResultsClass) (q : ResultsQueues) : list nat :=
  match cls with
  | RMeta => r_channel <$> rq_meta q
  | RDisp => pd_reply <$> rq_dispatch q
  | RComp => pcm_reply <$> rq_complete q
  end.

(** Every reply channel of a class: answered, waiting in a queue, or still to be received. *)
Definition r_total (cls : ResultsClass) (w : results_writer) : list nat :=
  r_answered cls (rw_sent w) ++ r_queued cls (rw_queues w) ++ r_requested cls (rw_rx w).

Record r_queues_ok (q : ResultsQueues) : Prop := {
  rqo_meta : Forall (fun r => results_class r = RMeta) (rq_meta q);
  rqo_dispatch : Forall (fun p => pd_rows p <> []) (rq_dispatch q)
}.

Definition rq_size (q : ResultsQueues) : nat := length (rq_meta q) + length (rq_dispatch q) + length (rq_complete q).
Definition r_load (w : results_writer) : nat := rq_size (rw_queues w) + length (rw_rx w).

(** The writer has moved on from [w] to [w']: nothing is lost, answered twice or out of order. *)
Record r_moves (o : BatchOptions) (w w' : results_writer) : Prop := {
  rmv_order : forall cls, r_total cls w' = r_total cls w;
  rmv_queues : r_queues_ok (rw_queues w');
  rmv_rows : Forall has_rows (rw_rx w) -> Forall has_rows (rw_rx w');
  rmv_ctl : controller_in_limits o (rw_controller w')
}.

Lemma r_moves_trans o w1 w2 w3 : r_moves o w1 w2 -> r_moves o w2 w3 -> r_moves o w1 w3.
Proof. intros [H1 _ ? _] [H2 ? ? ?]. split; [|done|auto|done]. intros cls. by rewrite H2, H1. Qed.

Lemma r_moves_refl o w : r_queues_ok (rw_queues w) -> controller_in_limits o (rw_controller w) -> r_moves o w w.
Proof. by split. Qed.

Lemma r_answered_app cls s1 s2 : r_answered cls (s1 ++ s2) = r_answered cls s1 ++ r_answered cls s2.
Proof. unfold r_answered. by rewrite filter_app, fmap_app. Qed.

Lemma r_requested_cons cls request rx :
  r_requested cls (request :: rx) = r_requested cls [request] ++ r_requested cls rx.
Proof. unfold r_requested. by rewrite (filter_app _ [request] rx), fmap_app. Qed.

Lemma r_answered_one cls k reply :
  r_answered cls [(k, reply)] = if decide (r_reply_class reply = cls) then [k] else [].
Proof. unfold r_answered. rewrite filter_cons, filter_nil. simpl. by case_decide. Qed.

Lemma r_requested_one cls request :
  r_requested cls [request] = if decide (results_class request = cls) then [r_channel request] else [].
Proof. unfold r_requested. rewrite filter_cons, filter_nil. simpl. by case_decide. Qed.

(** A batch of replies to completions *)
Lemma r_answered_completions cls out :
  r_answered cls (completion_replies out) = if decide (cls = RComp) then out.*1 else [].
Proof.
  unfold r_answered, completion_replies. destruct (decide (cls = RComp)) as [->|Hne];
    induction out as [|kr out IH]; try done;
    rewrite fmap_cons, filter_cons; cbn [r_reply_class fst snd];
    [rewrite decide_True by done|by rewrite decide_False by congruence].
  rewrite !fmap_cons. by rewrite IH.
Qed.

Lemma r_queued_push now cls request q :
  r_queued cls (results_push_at now request q) = r_queued cls q ++ r_requested cls [request].
Proof.
  rewrite r_requested_one. destruct cls, request; cbn [results_class];
    rewrite ?decide_True, ?decide_False by done; simpl; rewrite ?fmap_app, ?app_nil_r; done.
Qed.

Lemma r_queues_ok_push now request q :
  has_rows request -> r_queues_ok q -> r_queues_ok (results_push_at now request q).
Proof.
  intros Hr [? ?]. destruct request; split; simpl; try done; apply Forall_app; split; try done; by repeat constructor.
Qed.

Lemma rq_size_push now request q : rq_size (results_push_at now request q) = S (rq_size q).
Proof. unfold rq_size. destruct request; simpl; rewrite ?length_app; simpl; lia. Qed.

(** What receiving requests keeps *)
Record r_receives (rx : list ResultsRequest) (q : ResultsQueues) (rx' : list ResultsRequest) (q' : ResultsQueues) :
    Prop := {
  rrc_order : forall cls, r_queued cls q' ++ r_requested cls rx' = r_queued cls q ++ r_requested cls rx;
  rrc_size : (rq_size q' + length rx' = rq_size q + length rx)%nat;
  rrc_grows : (rq_size q <= rq_size q')%nat;
  rrc_queues : Forall has_rows rx -> r_queues_ok q -> r_queues_ok q' /\ Forall has_rows rx'
}.

Lemma r_receives_refl rx q : r_receives rx q rx q.
Proof. by split. Qed.

Lemma r_receives_push now request rx q rx' q' :
  r_receives rx (results_push_at now request q) rx' q' -> r_receives (request :: rx) q rx' q'.
Proof.
  intros [Ho Hs Hg Hq]. rewrite rq_size_push in *. split; simpl; [|lia|lia|].
  - intros cls. by rewrite Ho, r_queued_push, (r_requested_cons cls request rx), app_assoc.
  - intros [? ?]%Forall_cons ?. apply Hq; [done|]. by apply r_queues_ok_push.
Qed.

Lemma r_moves_receive o w rx q :
  r_receives (rw_rx w) (rw_queues w) rx q -> r_queues_ok (rw_queues w) -> Forall has_rows (rw_rx w) ->
  controller_in_limits o (rw_controller w) -> r_moves o w (rw_receive rx q w).
Proof.
  intros [Ho _ _ Hq] Hok Hrows Hc. destruct (Hq Hrows Hok).
  split; [intros cls|done|done|done]. unfold r_total. cbn [rw_receive rw_sent rw_queues rw_rx]. by rewrite Ho.
Qed.

Section steps.
Context `{EL : EnvLaws} `{Ch : Channel} (o : BatchOptions) (Ho : batch_options_ok o).

Lemma wp_results_push request q c :
  wp (results_push request q) (fun r _ => exists now, r = Ok (results_push_at now request q)) c.
Proof. unfold results_push. destruct (results_class request); repeat wp_rule; by eexists. Qed.

Lemma wp_results_try_recv rx q c :
  wp (results_try_recv rx q) (fun r _ => exists rx' q', r = Ok (rx', q') /\ r_receives rx q rx' q') c.
Proof.
  revert q c. induction rx as [|request rx IH]; intros q c; simpl.
  { wp_rule. eexists _, _. split; [done|apply r_receives_refl]. }
  wp_rule. wp_rule. destruct (arrives _).
  - wp_rule. eapply wp_mono; [apply wp_results_push|]. intros r c1 [now ->].
    eapply wp_mono; [apply IH|]. intros r c' (rx' & q' & -> & Hr). eexists _, _. split; [done|].
    by eapply r_receives_push.
  - wp_rule. eexists _, _. split; [done|apply r_receives_refl].
Qed.

Lemma wp_results_serve request q w c :
  results_class request = RMeta -> r_queues_ok q -> controller_in_limits o (rw_controller w) ->
  (forall cls, r_queued cls (rw_queues w) = (if decide (RMeta = cls) then [r_channel request] else []) ++ r_queued cls q) ->
  wp (results_serve request q w) (fun r _ => exists w', r = Ok w' /\ r_moves o w w' /\
    rw_queues w' = q /\ rw_rx w' = rw_rx w) c.
Proof.
  intros Hcls Hq Hc Hqueued. unfold results_serve. wp_rule. eapply wp_mono; [by apply wp_r_handle_reply|].
  intros r c' (reply & -> & Hr). wp_rule. eexists. split; [done|]. split; [|done].
  split; [|done|done|done]. intros cls. unfold r_total. cbn [rw_sent rw_queues rw_rx].
  rewrite r_answered_app, Hqueued, r_answered_one, Hr. by case_decide; simpl; rewrite <-?app_assoc.
Qed.

Lemma wp_results_serve_meta meta w c :
  rq_meta (rw_queues w) = meta -> r_queues_ok (rw_queues w) -> controller_in_limits o (rw_controller w) ->
  wp (results_serve_meta meta w) (fun r _ => exists w', r = Ok w' /\ r_moves o w w' /\
    rw_queues w' = mkResultsQueues [] (rq_dispatch (rw_queues w)) (rq_complete (rw_queues w)) /\
    rw_rx w' = rw_rx w) c.
Proof.
  revert w c. induction meta as [|request meta IH]; intros w c Hm Hq Hc; simpl.
  { wp_rule. exists w. split; [done|]. split; [by apply r_moves_refl|]. split; [|done].
    by destruct (rw_queues w); simplify_eq/=. }
  pose proof (rqo_meta _ Hq) as Hmeta. rewrite Hm in Hmeta. apply Forall_cons in Hmeta as [Hreq Hmeta].
  wp_rule. eapply wp_mono; [apply wp_results_serve; try done|].
  - split; [done|]. apply Hq.
  - intros cls. destruct cls; simpl; rewrite ?Hm; done.
  - intros r c' (w1 & -> & Hmv & Hq1 & Hrx). cbn beta iota. eapply wp_mono; [apply IH|].
    + by rewrite Hq1.
    + by apply Hmv.
    + by apply Hmv.
    + intros r c2 (w2 & -> & Hmv2 & Hq2 & Hrx2). exists w2. split; [done|].
      split; [by eapply r_moves_trans|]. by rewrite Hq2, Hrx2, Hq1.
Qed.

(** The first dispatch has been answered. *)
Lemma r_moves_dispatch w pending rest lanes r :
  rq_dispatch (rw_queues w) = pending :: rest -> r_queues_ok (rw_queues w) -> controller_in_limits o (rw_controller w) ->
  r_moves o w (mkResultsWriter (rw_rx w) (mkResultsQueues (rq_meta (rw_queues w)) rest (rq_complete (rw_queues w)))
    (rw_controller w) lanes (rw_sent w ++ [(pd_reply pending, RRepDispatched r)])).
Proof.
  intros Hd [Hmeta Hdisp] Hc. rewrite Hd in Hdisp. apply Forall_cons in Hdisp as [_ Hdisp].
  split; [|by split|done|done]. intros cls. unfold r_total. cbn [rw_sent rw_queues rw_rx].
  rewrite r_answered_app, r_answered_one. cbn [r_reply_class].
  destruct cls; cbn [r_queued rq_meta rq_dispatch rq_complete]; rewrite ?decide_True, ?decide_False by done;
    rewrite ?Hd, ?app_nil_r, <-?app_assoc; done.
Qed.

Lemma wp_serve_dispatches dispatches w c :
  rq_dispatch (rw_queues w) = dispatches -> r_queues_ok (rw_queues w) -> controller_in_limits o (rw_controller w) ->
  wp (serve_dispatches dispatches w) (fun r _ => exists w', r = Ok w' /\ r_moves o w w' /\
    rw_queues w' = mkResultsQueues (rq_meta (rw_queues w)) [] (rq_complete (rw_queues w)) /\ rw_rx w' = rw_rx w) c.
Proof.
  revert w c. induction dispatches as [|pending rest IH]; intros w c Hd Hq Hc; simpl.
  { wp_rule. exists w. split; [done|]. split; [by apply r_moves_refl|]. split; [|done].
    by destruct (rw_queues w); simplify_eq/=. }
  apply wp_attempt_any. intros r c1.
  pose proof (r_moves_dispatch w pending rest (rw_lanes w) r Hd Hq Hc) as Hmv.
  eapply wp_mono; [apply IH; [done|apply Hmv..]|].
  intros r' c' (w' & -> & Hmv' & Hq' & Hrx'). eexists. split; [done|]. split; [by eapply r_moves_trans|done].
Qed.

Lemma wp_run_dispatch_turn w c :
  r_queues_ok (rw_queues w) -> controller_in_limits o (rw_controller w) -> rq_dispatch (rw_queues w) <> [] ->
  wp (run_dispatch_turn w) (fun r _ => exists w', r = Ok w' /\ r_moves o w w' /\ (r_load w' < r_load w)%nat) c.
Proof.
  intros Hq Hc Hne. unfold run_dispatch_turn. destruct (rq_dispatch (rw_queues w)) as [|pending rest] eqn:Hd; [done|].
  wp_rule. wp_rule. apply wp_attempt_any. intros r c1.
  assert (forall lanes, r_load (mkResultsWriter (rw_rx w)
    (mkResultsQueues (rq_meta (rw_queues w)) rest (rq_complete (rw_queues w))) (rw_controller w) lanes
    (rw_sent w ++ [(pd_reply pending, RRepDispatched r)])) < r_load w)%nat as Hl.
  { intros lanes. unfold r_load, rq_size. simpl. rewrite Hd. simpl. lia. }
  wp_rule. destruct (is_ok r); repeat wp_rule; (eexists; split; [done|]; split; [by apply r_moves_dispatch|apply Hl]).
Qed.

(** *** A turn of the completions *)

Lemma wp_complete_take target pending jobs ctl c :
  controller_in_limits o ctl ->
  wp (complete_take target pending jobs ctl) (fun r _ => exists pending' jobs' ctl',
    r = Ok (pending', jobs', ctl') /\ pending' ++ jobs' = pending ++ jobs /\ controller_in_limits o ctl' /\
    (jobs' = [] \/ target <= Z.of_nat (length pending'))) c.
Proof.
  revert pending ctl c. induction jobs as [|item jobs IH]; intros pending ctl c Hc; simpl.
  { wp_rule. eexists _, _, _. split; [done|]. split; [done|]. split; [done|]. by left. }
  destruct (Z.ltb_spec (Z.of_nat (length pending)) target).
  - wp_rule. wp_rule. eapply wp_mono; [apply IH; by eapply in_limits_eq; [apply observe_request_limited|]|].
    intros r c' (p' & j' & ctl' & -> & Ha & Hc' & Hd).
    eexists _, _, _. split; [done|]. split; [by rewrite Ha, <-app_assoc|done].
  - wp_rule. eexists _, _, _. split; [done|]. split; [done|]. split; [done|]. by right.
Qed.

(** What the wait for completions keeps *)
Record fills (rx : list ResultsRequest) (pending : list PendingCompletion) (q : ResultsQueues)
    (rx' : list ResultsRequest) (pending' : list PendingCompletion) (q' : ResultsQueues) : Prop := {
  fl_order : forall cls, cls <> RComp -> r_queued cls q' ++ r_requested cls rx' = r_queued cls q ++ r_requested cls rx;
  fl_pending : (pcm_reply <$> pending') ++ r_requested RComp rx' = (pcm_reply <$> pending) ++ r_requested RComp rx;
  fl_complete : rq_complete q' = rq_complete q;
  fl_grows : (length pending <= length pending')%nat;
  fl_size : (length pending' + rq_size q' + length rx' = length pending + rq_size q + length rx)%nat;
  fl_queues : Forall has_rows rx -> r_queues_ok q -> r_queues_ok q' /\ Forall has_rows rx'
}.

Lemma fills_refl rx pending q : fills rx pending q rx pending q.
Proof. by split. Qed.

Lemma fills_push now request rx pending q rx' pending' q' :
  results_class request <> RComp -> fills rx pending (results_push_at now request q) rx' pending' q' ->
  fills (request :: rx) pending q rx' pending' q'.
Proof.
  intros Hcls [H1 H2 H3 H4 H5 H6]. rewrite rq_size_push in H5. split; simpl; [| | |done|lia|].
  - intros cls Hc. by rewrite H1, r_queued_push, (r_requested_cons cls request rx), app_assoc.
  - rewrite H2, (r_requested_cons RComp request rx), r_requested_one. by rewrite decide_False.
  - rewrite H3. by destruct request.
  - intros [Hr Hrows]%Forall_cons Hq. by apply H6; [|apply r_queues_ok_push].
Qed.

Lemma fills_take job_id dispatch_id outcome reply queued_at rx pending q rx' pending' q' :
  fills rx (pending ++ [mkPendingCompletion job_id dispatch_id outcome reply queued_at]) q rx' pending' q' ->
  fills (RComplete job_id dispatch_id outcome reply :: rx) pending q rx' pending' q'.
Proof.
  intros [H1 H2 H3 H4 H5 H6]. rewrite length_app in H4, H5. simpl in H4, H5. split; simpl; [| |done|lia|lia|].
  - intros cls Hc. rewrite H1, (r_requested_cons cls _ rx), r_requested_one by done. cbn [results_class].
    by rewrite decide_False by congruence.
  - rewrite H2, (r_requested_cons RComp _ rx), fmap_app, <-app_assoc. done.
  - intros [_ ?]%Forall_cons. auto.
Qed.

Lemma wp_complete_fill target deadline rx pending q ctl c :
  controller_in_limits o ctl ->
  wp (complete_fill target deadline rx pending q ctl) (fun r _ => exists rx' pending' q' ctl' disconnected,
    r = Ok (rx', pending', q', ctl', disconnected) /\ fills rx pending q rx' pending' q' /\
    controller_in_limits o ctl' /\ (disconnected = true -> rx' = []) /\
    (target <= Z.of_nat (length pending) -> pending' = pending /\ rx' = rx)) c.
Proof.
  revert pending q ctl c. induction rx as [|request rx IH]; intros pending q ctl c Hc; simpl;
    (destruct (Z.ltb_spec (Z.of_nat (length pending)) target); simpl;
      [|wp_rule; eexists _, _, _, _, _; split_and!; try done; apply fills_refl]); wp_rule; wp_rule;
    (destruct (_ =? 0); [wp_rule; eexists _, _, _, _, _; split_and!; try done; apply fills_refl|]); wp_rule; wp_rule;
    (destruct (arrives _); simpl; [|wp_rule; eexists _, _, _, _, _; split_and!; try done; apply fills_refl]).
  { wp_rule. eexists _, _, _, _, _. split_and!; try done; apply fills_refl. }
  assert (results_class request <> RComp -> wp (q ← results_push request q;
       if results_preempts request then mret (rx, pending, q, ctl, false)
       else complete_fill target deadline rx pending q ctl)
    (fun r _ => exists rx' pending' q' ctl' disconnected,
      r = Ok (rx', pending', q', ctl', disconnected) /\ fills (request :: rx) pending q rx' pending' q' /\
      controller_in_limits o ctl' /\ (disconnected = true -> rx' = []) /\
      (target <= Z.of_nat (length pending) -> pending' = pending /\ rx' = request :: rx))
    (Conn (S (S (c_step c))) (c_db c))) as Hpush.
  { intros Hcls. wp_rule. eapply wp_mono; [apply wp_results_push|]. intros r c1 [now ->].
    destruct (results_preempts request).
    - wp_rule. eexists _, _, _, _, _. split_and!; try done; [by eapply fills_push, fills_refl|lia].
    - eapply wp_mono; [by apply IH|]. intros r c' (rx' & p' & q' & ctl' & d & -> & Hf & Hc' & Hd & _).
      eexists _, _, _, _, _. split_and!; try done; [by eapply fills_push|lia]. }
  destruct request; try by apply Hpush.
  wp_rule. wp_rule. wp_rule. wp_rule.
  eapply wp_mono; [apply IH; by eapply in_limits_eq; [apply observe_request_limited|]|].
  intros r c' (rx' & p' & q' & ctl' & d & -> & Hf & Hc' & Hd & _).
  eexists _, _, _, _, _. split_and!; try done; [by eapply fills_take|lia].
Qed.

Lemma wp_observe_completion filled commit backlog reason ctl c :
  controller_in_limits o ctl -> (forall c, wp backlog (fun r _ => is_ok r = true) c) ->
  wp (observe_completion filled commit backlog reason ctl) (fun r _ => exists ctl',
    r = Ok ctl' /\ flush_ctl o ctl ctl') c.
Proof.
  intros Hc Hb. unfold observe_completion. destruct commit as [commit|]; [|wp_rule; by eexists].
  wp_rule. eapply wp_mono; [apply Hb|]. intros [b|] c1 Hok; [|done]. wp_rule. wp_rule. wp_rule.
  eexists. split; [done|]. set (reply := record_successful_completion_commit _ _ _ _ _ _). split.
  - destruct reply as [ctl'|] eqn:Hrec; [|done]. by eapply (observe_one_in_limits o (OCompletionCommit _ _ _ _ _)).
  - by apply (observe_one_panics o (OCompletionCommit _ _ _ _ _)).
Qed.

Lemma wp_run_complete_turn w c :
  r_queues_ok (rw_queues w) -> controller_in_limits o (rw_controller w) -> Forall has_rows (rw_rx w) ->
  rq_complete (rw_queues w) <> [] ->
  wp (run_complete_turn w) (fun r _ => exists end_ w', r = Ok (end_, w') /\ r_moves o w w' /\
    (r_load w' < r_load w)%nat /\ (end_ = Disconnected -> rw_rx w' = []) /\
    (end_ = Panicked -> wait_overflows o (rw_controller w'))) c.
Proof.
  intros Hq Hc Hrows Hne. unfold run_complete_turn.
  assert (1 <= batch_size (rw_controller w)) as Htarget.
  { destruct Hc as [_ Hmin _ (_ & Hs & _) _], Ho. unfold batch_size. lia. }
  wp_rule. eapply wp_mono; [by apply wp_complete_take|].
  intros r c' (pending & jobs & ctl & -> & Hsplit & Hc1 & Hd). cbn beta iota.
  destruct pending as [|p0 pending'] eqn:Ep.
  { destruct Hd as [->|Hd]; simpl in *; [by rewrite <-Hsplit in Hne|lia]. }
  rewrite <-Ep in *. assert (0 < length pending)%nat as Hpos by (rewrite Ep; simpl; lia). clear Ep.
  wp_rule. wp_rule. wp_rule. eapply wp_mono; [by apply wp_complete_fill|].
  intros r c2 (rx & pending2 & q & ctl2 & disconnected & -> & Hf & Hc2 & Hdis & Hfull). cbn beta iota.
  destruct (fl_queues _ _ _ _ _ _ Hf Hrows) as [Hq2 Hrows2]; [split; apply Hq|].
  wp_rule. eapply wp_mono; [apply wp_complete_batch_replies|]. intros r c3 (commit & replies & -> & Hreplies).
  cbn [fst snd]. wp_rule. eapply wp_mono; [apply wp_observe_completion; [exact Hc2|]; intros; by wp_rules|].
  intros r c4 (ctl' & -> & [Hc4 Hover]). wp_rule. eexists _, _. split; [done|]. split; [split|split_and!].
  - intros cls. unfold r_total. cbn [rw_sent rw_queues rw_rx]. rewrite r_answered_app, r_answered_completions, <-app_assoc.
    f_equal. case_decide as Hcls; [subst cls|rewrite (fl_order _ _ _ _ _ _ Hf) by done; by destruct cls].
    cbn [r_queued]. rewrite Hreplies, (fl_complete _ _ _ _ _ _ Hf). cbn [rq_complete].
    simpl in Hsplit. rewrite <-Hsplit, fmap_app.
    destruct Hd as [->|Hd]; [|by destruct (Hfull Hd) as [-> ->]; rewrite <-app_assoc].
    simpl. rewrite app_nil_r. apply (fl_pending _ _ _ _ _ _ Hf).
  - done.
  - done.
  - done.
  - unfold r_load. cbn [rw_queues rw_rx].
    pose proof (fl_size _ _ _ _ _ _ Hf) as Hs. pose proof (fl_grows _ _ _ _ _ _ Hf).
    unfold rq_size in *. cbn [rq_meta rq_dispatch rq_complete] in *.
    apply (f_equal length) in Hsplit. rewrite length_app in Hsplit. simpl in Hsplit. lia.
  - cbn [rw_rx]. destruct ctl'; [|done]. destruct disconnected; [auto|done].
  - cbn [rw_controller]. destruct ctl'; [by destruct disconnected|]. intros _. by apply Hover.
Qed.

Lemma wp_flush_complete backlog w c :
  r_queues_ok (rw_queues w) -> controller_in_limits o (rw_controller w) ->
  wp (flush_complete backlog w) (fun r _ => exists end_ w', r = Ok (end_, w') /\ r_moves o w w' /\
    end_ <> Disconnected /\ rw_rx w' = rw_rx w /\
    rw_queues w' = mkResultsQueues (rq_meta (rw_queues w)) (rq_dispatch (rw_queues w)) [] /\
    (end_ = Panicked -> wait_overflows o (rw_controller w'))) c.
Proof.
  intros Hq Hc. unfold flush_complete. destruct (rq_complete (rw_queues w)) as [|p0 batch'] eqn:Ep.
  { wp_rule. eexists _, _. split; [done|]. split; [by apply r_moves_refl|]. split_and!; [done..| |done].
    destruct (rw_queues w); by simplify_eq/=. }
  rewrite <-Ep. wp_rule. eapply wp_mono; [apply wp_complete_batch_replies|].
  intros r c3 (commit & replies & -> & Hreplies). cbn [fst snd].
  wp_rule. eapply wp_mono; [apply wp_observe_completion; [exact Hc|]; intros; by wp_rules|].
  intros r c4 (ctl' & -> & [Hc4 Hover]). wp_rule. eexists _, _. split; [done|].
  split; [split|split; [by destruct ctl'|split_and!; [done..|]]].
  - intros cls. unfold r_total. cbn [rw_sent rw_queues rw_rx].
    rewrite r_answered_app, r_answered_completions, <-app_assoc. f_equal.
    case_decide as Hcls; [subst cls; by rewrite Hreplies|by destruct cls].
  - split; apply Hq.
  - done.
  - done.
  - cbn [rw_controller]. destruct ctl'; [done|]. intros _. by apply Hover.
Qed.

(** How the loop may end *)
Definition r_ended (w : results_writer) (end_ : turn_end) : Prop :=
  match end_ with
  | Running => False
  | Disconnected => rw_rx w = [] /\ rw_queues w = no_results
  | Panicked => wait_overflows o (rw_controller w)
  end.

(** When the other way out is taken there is no dispatch to serve. *)
Lemma wp_results_finish with_dispatches backlog w c :
  r_queues_ok (rw_queues w) -> controller_in_limits o (rw_controller w) -> rw_rx w = [] ->
  (with_dispatches = false -> rq_dispatch (rw_queues w) = []) ->
  wp (results_finish with_dispatches backlog w) (fun r _ => exists end_ w', r = Ok (end_, w') /\ r_moves o w w' /\
    r_ended w' end_) c.
Proof.
  intros Hq Hc Hrx Hwith. unfold results_finish. wp_rule. eapply wp_mono; [by apply wp_flush_complete|].
  intros r c' (end_ & w1 & -> & Hmv & He & Hrx1 & Hq1 & Hover). cbn beta iota.
  assert (wp (w0 ← results_serve_meta (rq_meta (rw_queues w1)) w1;
              w2 ← (if with_dispatches then serve_dispatches (rq_dispatch (rw_queues w0)) w0 else mret w0);
              mret (Disconnected, w2))
    (fun r _ => exists end_ w', r = Ok (end_, w') /\ r_moves o w w' /\
      r_ended w' end_) c') as Hserve.
  { wp_rule. eapply wp_mono; [apply wp_results_serve_meta; [done|apply Hmv..]|].
    intros r c2 (w2 & -> & Hmv2 & Hq2 & Hrx2). wp_rule. destruct with_dispatches.
    - eapply wp_mono; [apply wp_serve_dispatches; [done|apply Hmv2..]|].
      intros r c3 (w3 & -> & Hmv3 & Hq3 & Hrx3). wp_rule. eexists _, _. split; [done|].
      split; [by eapply r_moves_trans, r_moves_trans|]. split; [by rewrite Hrx3, Hrx2, Hrx1|by rewrite Hq3, Hq2, Hq1].
    - wp_rule. wp_rule. eexists _, _. split; [done|].
      split; [by eapply r_moves_trans|]. split; [by rewrite Hrx2, Hrx1|].
      rewrite Hq2, Hq1. cbn [rq_dispatch rq_complete]. by rewrite Hwith. }
  destruct end_; [exact Hserve|done|]. wp_rule. eexists _, _. split; [done|]. split; [done|]. by apply Hover.
Qed.

(** *** The loop *)

Lemma rq_size_0 q : rq_size q = 0%nat -> q = no_results.
Proof. destruct q as [[|? ?] [|? ?] [|? ?]]; unfold rq_size; simpl; intros; done || lia. Qed.

Lemma results_is_empty_spec q : results_is_empty q = true <-> q = no_results.
Proof. destruct q as [[|? ?] [|? ?] [|? ?]]; simpl; split; done. Qed.

(** A lane that is selected has rows; when one has rows, one is selected. *)
Lemma select_active dr od cr oc now c :
  match (select dr od cr oc now c).1 with
  | None => dr <= 0 /\ cr <= 0
  | Some (Dispatch, _) => 0 < dr
  | Some (Completion, _) => 0 < cr
  end.
Proof.
  unfold select. destruct (Z.ltb_spec 0 dr), (Z.ltb_spec 0 cr); simpl; try done.
  destruct (_ && _); simpl; [destruct (if decide _ then _ else _)|destruct (preferred c)]; simpl;
    try (destruct (_ <=? _)); simpl; try (destruct r); done.
Qed.

Lemma dispatch_rows_nil q : rq_dispatch q = [] -> dispatch_rows q = 0.
Proof. unfold dispatch_rows. by intros ->. Qed.

Lemma dispatch_rows_pos q : r_queues_ok q -> rq_dispatch q <> [] -> 0 < dispatch_rows q.
Proof.
  intros [_ Hd] Hne. unfold dispatch_rows. destruct (rq_dispatch q) as [|p rest]; [done|].
  apply Forall_cons in Hd as [Hp _]. destruct (pd_rows p) as [|row rows] eqn:Hrow; [done|]. simpl. rewrite Hrow.
  assert (forall l, 0 <= foldr (fun pending total => Z.of_nat (length (pd_rows pending)) + total) 0 l) as Hge
    by (induction l; simpl; lia).
  specialize (Hge rest). simpl. lia.
Qed.

(** Before it serves anything, the loop has a request in a queue, or it stops. *)
Lemma wp_results_recv w c :
  r_queues_ok (rw_queues w) -> controller_in_limits o (rw_controller w) -> Forall has_rows (rw_rx w) ->
  wp (results_recv w) (fun r _ => exists first, r = Ok first /\
    match first with
    | None => rw_queues w = no_results /\ rw_rx w = []
    | Some w' => r_moves o w w' /\ r_load w' = r_load w /\ rw_queues w' <> no_results
    end) c.
Proof.
  intros Hq Hc Hrows. unfold results_recv. destruct (results_is_empty (rw_queues w)) eqn:He.
  - apply results_is_empty_spec in He. destruct (rw_rx w) as [|request rx] eqn:Hrx.
    { wp_rule. by eexists. }
    wp_rule. eapply wp_mono; [apply wp_results_push|]. intros r c1 [now ->]. wp_rule. eexists. split; [done|].
    assert (r_receives (rw_rx w) (rw_queues w) rx (results_push_at now request (rw_queues w))) as Hrec.
    { rewrite Hrx. eapply r_receives_push, r_receives_refl. }
    split; [apply r_moves_receive; [done|done|by rewrite Hrx|done]|]. split.
    + destruct Hrec as [_ Hs _ _]. unfold r_load. simpl. lia.
    + simpl. intros H. apply (f_equal rq_size) in H. by rewrite rq_size_push in H.
  - wp_rule. eexists. split; [done|]. split; [by apply r_moves_refl|]. split; [done|].
    intros H. apply results_is_empty_spec in H. congruence.
Qed.

Definition loop_post (w : results_writer) (r : Result (option (turn_end * results_writer))) : Prop :=
  exists end_ w', r = Ok (Some (end_, w')) /\ r_moves o w w' /\ r_ended w' end_.

Lemma loop_post_trans w1 w2 r : r_moves o w1 w2 -> loop_post w2 r -> loop_post w1 r.
Proof.
  intros Hmv (end_ & w' & -> & Hmv' & He). eexists _, _. split; [done|]. split; [by eapply r_moves_trans|done].
Qed.

(** The choice of a lane leaves the requests alone. *)
Lemma r_moves_lanes w lanes :
  r_queues_ok (rw_queues w) -> controller_in_limits o (rw_controller w) ->
  r_moves o w (mkResultsWriter (rw_rx w) (rw_queues w) (rw_controller w) lanes (rw_sent w)).
Proof. by split. Qed.

Lemma wp_results_writer_loop fuel w c :
  (r_load w < fuel)%nat -> r_queues_ok (rw_queues w) -> controller_in_limits o (rw_controller w) ->
  Forall has_rows (rw_rx w) ->
  wp (results_writer_loop fuel w) (fun r _ => loop_post w r) c.
Proof.
  revert w c. induction fuel as [|fuel IH]; intros w c Hfuel Hq Hc Hrows; [lia|]. cbn [results_writer_loop].
  assert (forall w1 c, r_moves o w w1 -> (r_load w1 < r_load w)%nat ->
    wp (results_writer_loop fuel w1) (fun r _ => loop_post w r) c) as Hnext.
  { intros w1 c1 Hmv Hl. eapply wp_mono; [apply IH; [lia|apply Hmv..|by apply (rmv_rows _ _ _ Hmv)]|].
    intros r c2. by apply loop_post_trans. }
  assert (forall w1 with_dispatches backlog c, r_moves o w w1 -> rw_rx w1 = [] ->
    (with_dispatches = false -> rq_dispatch (rw_queues w1) = []) ->
    wp (Some <$> results_finish with_dispatches backlog w1) (fun r _ => loop_post w r) c) as Hfinish.
  { intros w1 wd backlog c1 Hmv Hrx1 Hwd. unfold fmap, M_fmap. wp_rule.
    eapply wp_mono; [apply wp_results_finish; [apply Hmv..|done|done]|].
    intros r c2 (end_ & w' & -> & Hmv' & He). wp_rule. eapply loop_post_trans; [done|]. by eexists _, _. }
  wp_rule. eapply wp_mono; [by apply wp_results_recv|]. intros r c1 (first & -> & Hfirst). cbn beta iota.
  destruct first as [w1|].
  2:{ destruct Hfirst as [Hq0 Hrx0]. apply Hfinish; [by apply r_moves_refl|done|by rewrite Hq0]. }
  destruct Hfirst as (Hmv1 & Hl1 & Hne1). wp_rule. eapply wp_mono; [apply wp_results_try_recv|].
  intros r c2 (rx & q & -> & Hrec). cbn beta iota. cbn [fst snd].
  assert (Forall has_rows (rw_rx w1)) as Hrows1 by by apply (rmv_rows _ _ _ Hmv1).
  assert (r_moves o w1 (rw_receive rx q w1)) as Hmv2 by (apply r_moves_receive; [done|apply Hmv1|done|apply Hmv1]).
  assert (q <> no_results) as Hne2.
  { intros ->. apply Hne1, rq_size_0. destruct Hrec as [_ _ Hg _]. unfold rq_size at 2 in Hg. simpl in Hg. lia. }
  assert (r_load (rw_receive rx q w1) = r_load w) as Hl2 by (destruct Hrec; unfold r_load in *; simpl; lia).
  set (w2 := rw_receive rx q w1) in *. change (rw_queues w2) with q.
  pose proof (r_moves_trans _ _ _ _ Hmv1 Hmv2) as Hmv. clear Hmv1 Hmv2 Hrec.
  pose proof (rmv_queues _ _ _ Hmv) as Hq2. change (rw_queues w2) with q in Hq2.
  destruct (rq_meta q) as [|request meta] eqn:Em.
  2:{ pose proof (rqo_meta _ Hq2) as Hmeta. rewrite Em in Hmeta. apply Forall_cons in Hmeta as [Hr Hmeta].
      wp_rule. eapply wp_mono; [apply wp_results_serve; [done|split; [done|apply Hq2]|apply Hmv|]|].
      - intros cls. change (rw_queues w2) with q. destruct cls; simpl; rewrite ?Em; done.
      - intros r c3 (w3 & -> & Hmv3 & Hq3 & Hrx3). cbn beta iota. apply Hnext; [by eapply r_moves_trans|].
        rewrite <-Hl2. unfold r_load, rq_size. rewrite Hq3, Hrx3. change (rw_queues w2) with q. rewrite Em. simpl. lia. }
  wp_rule. wp_rule. set (selected := select _ _ _ _ _ _).
  pose proof (select_active (dispatch_rows q) (dispatch_oldest q) (Z.of_nat (length (rq_complete q)))
    (completion_oldest q) (instant (c_step c2)) (rw_lanes w2)) as Hsel. fold selected in Hsel.
  pose proof (r_moves_lanes w2 selected.2 Hq2 (rmv_ctl _ _ _ Hmv)) as Hmv3. change (rw_queues w2) with q in Hmv3.
  set (w3 := mkResultsWriter (rw_rx w2) q (rw_controller w2) selected.2 (rw_sent w2)) in *.
  assert (r_load w3 = r_load w) as Hl3 by exact Hl2.
  pose proof (r_moves_trans _ _ _ _ Hmv Hmv3) as Hmv'.
  destruct selected.1 as [[[] reason]|].
  - assert (rq_dispatch (rw_queues w3) <> []) as Hd by (intros H; rewrite dispatch_rows_nil in Hsel; [lia|done]).
    wp_rule. eapply wp_mono; [apply wp_run_dispatch_turn; [apply Hmv'..|done]|].
    intros r c3 (w4 & -> & Hmv4 & Hl4). cbn beta iota. apply Hnext; [by eapply r_moves_trans|lia].
  - assert (rq_complete (rw_queues w3) <> []) as Hd.
    { change (rw_queues w3) with q. intros H. rewrite H in Hsel. simpl in Hsel. lia. }
    wp_rule. eapply wp_mono; [apply wp_run_complete_turn; [apply Hmv'..| |done]|].
    { by apply (rmv_rows _ _ _ Hmv'). }
    intros r c3 (end_ & w4 & -> & Hmv4 & Hl4 & Hd4 & Hover). cbn beta iota.
    pose proof (r_moves_trans _ _ _ _ Hmv' Hmv4) as Hmv5. destruct end_.
    + apply Hnext; [done|lia].
    + wp_rule. wp_rule. apply Hfinish; [done|by apply Hd4|done].
    + wp_rule. eapply loop_post_trans; [done|]. eexists _, _. split; [done|].
      split; [by apply r_moves_refl; apply Hmv5|]. by apply Hover.
  - exfalso. destruct (rq_dispatch q) as [|p rest] eqn:Ed.
    + destruct (rq_complete q) as [|p rest] eqn:Ecm; [|simpl in Hsel; lia].
      apply Hne2. destruct q; by simplify_eq/=.
    + assert (0 < dispatch_rows q) by (apply dispatch_rows_pos; [done|by rewrite Ed]). lia.
Qed.
End steps.

(** C27. The results writer never stalls and loses no request: whatever arrives when, however long the
    statements take and whichever fail, with options that pass validation and dispatches that all have
    rows (one without rows makes the loop spin, [empty_dispatch_spins]) it ends after at most one
    iteration per request, in one of two ways. Either every sender is gone: then every request sent has
    been answered exactly once, each class in the order of its arrival. Or, at a commit of completions,
    the controller computed a wait that is no [Duration], on which Rust panics; then the answered
    requests of each class are its first ones, once each. *)
Theorem results_writer_answers_everything `{EnvLaws} `{Channel} section o rx n db :
  batch_options_typed o -> validate section o = Ok tt -> Forall has_rows rx ->
  exists end_ w c',
    results_writer_loop (S (length rx)) (results_writer_new o rx) (Conn n db) = (Ok (Some (end_, w)), c') /\
    match end_ with
    | Running => False
    | Disconnected => forall cls, r_answered cls (rw_sent w) = r_requested cls rx
    | Panicked =>
        wait_overflows o (rw_controller w) /\ forall cls, r_answered cls (rw_sent w) `prefix_of` r_requested cls rx
    end.
Proof.
  intros Ht Hv Hrows. apply validate_ok in Hv; [|done].
  pose proof (wp_results_writer_loop o Hv (S (length rx)) (results_writer_new o rx) (Conn n db)) as Hwp.
  destruct (results_writer_loop _ _ _) as [r c'] eqn:Hrun.
  assert (loop_post o (results_writer_new o rx) r) as (end_ & w & -> & [Hord _ _ _] & Hend).
  { unfold wp in Hwp. rewrite Hrun in Hwp.
    apply Hwp; [|by repeat constructor|by apply controller_new_in_limits|done]. unfold r_load. simpl. lia. }
  exists end_, w, c'. split; [done|].
  assert (forall cls, r_total cls (results_writer_new o rx) = r_requested cls rx) as Hnew by by intros [].
  destruct end_; [done| |split; [done|]]; intros cls; specialize (Hord cls); rewrite Hnew in Hord; unfold r_total in Hord.
  - destruct Hend as [Hrx Hq]. rewrite Hrx, Hq in Hord.
    rewrite <-Hord. destruct cls; simpl; by rewrite !app_nil_r.
  - rewrite <-Hord. by apply prefix_app_r.
Qed.

(** A dispatch without rows makes the results writer spin: no lane is ever selected, and however
    long it runs the loop neither answers nor waits nor ends. *)
Theorem empty_dispatch_spins `{Env} `{Channel} fuel o reply n db :
  exists c', results_writer_loop fuel (results_writer_new o [RDispatch [] reply]) (Conn n db) = (Ok None, c').
Proof.
  enough (forall fuel w c q0, rw_rx w = [] -> rw_queues w = mkResultsQueues [] [mkPendingDispatch [] reply q0] [] ->
    wp (results_writer_loop fuel w) (fun r _ => r = Ok None) c) as Hspin.
  { destruct fuel as [|fuel]; [by eexists|].
    assert (wp (results_writer_loop (S fuel) (results_writer_new o [RDispatch [] reply]))
      (fun r _ => r = Ok None) (Conn n db)) as Hwp.
    { cbn [results_writer_loop]. wp_rule. cbn [results_recv results_writer_new rw_queues results_is_empty no_results rw_rx].
      unfold results_push. cbn [results_class]. wp_rule. wp_rule. wp_rule. wp_rule. cbn beta iota.
      wp_rule. cbn [rw_receive rw_rx results_try_recv]. wp_rule. cbn beta iota. cbn. wp_rule. wp_rule.
      by eapply Hspin. }
    unfold wp in Hwp. destruct (results_writer_loop _ _ _) as [r c']. simpl in Hwp. subst r. by eexists. }
  clear. intros fuel. induction fuel as [|fuel IH]; intros [rx q ctl lanes sent] c q0 Hrx Hq; [done|].
  simpl in Hrx, Hq. subst. cbn [results_writer_loop]. wp_rule.
  cbn [results_recv rw_queues results_is_empty]. wp_rule. cbn beta iota. wp_rule. cbn [rw_rx results_try_recv].
  wp_rule. cbn beta iota. cbn. wp_rule. wp_rule. by eapply IH.
Qed.

Definition example_results_rx : list ResultsRequest := [
  RUpsertQueue (JobQueue_new 5 "email") 1; RDispatch [mkDispatchInsert 1 "email" "a" 70] 2;
  RComplete 1 "a" (Succeeded []) 3; RComplete 1 "a" (Succeeded []) 4; RRecoverStale 100 5;
  RDispatch [mkDispatchInsert 2 "email" "b" 70] 6; RVacuum 7 ].

Definition r_ending (r : Result (option (turn_end * results_writer))) : turn_end :=
  match r with Ok (Some (end_, _)) => end_ | _ => Running end.

Lemma results_writer_answers_everything_witness :
  exists w c', results_writer_loop (E := model_env) (Ch := model_channel) 8
      (results_writer_new completion_defaults example_results_rx) (Conn 0 empty_results) = (Ok (Some (Disconnected, w)), c') /\
    r_answered RMeta (rw_sent w) = [1; 5; 7]%nat /\ r_answered RDisp (rw_sent w) = [2; 6]%nat /\
    r_answered RComp (rw_sent w) = [3; 4]%nat.
Proof.
  destruct (results_writer_answers_everything (E := model_env) (H0 := model_channel) "persistence.completion"
    completion_defaults example_results_rx 0 empty_results) as (end_ & w & c' & Hrun & Hout).
  - split; vm_compute; congruence.
  - by vm_compute.
  - repeat constructor; discriminate.
  - assert (r_ending (fst (results_writer_loop (E := model_env) (Ch := model_channel) (S (length example_results_rx))
      (results_writer_new completion_defaults example_results_rx) (Conn 0 empty_results))) = Disconnected) as Hend
      by by vm_compute.
    rewrite Hrun in Hend. simpl in Hend. subst end_. exists w, c'. split; [exact Hrun|].
    split; [exact (Hout RMeta)|]. split; [exact (Hout RDisp)|exact (Hout RComp)].
Defined.
