(* ===== verification/ResultsLinear.v ===== *)
(** * The results writer serves its requests one at a time

    [results_writer_loop] lets meta requests overtake, chooses between dispatches and completions and
    commits the completions in batches. What its clients see is nevertheless a sequence: the replies it
    sends, in their order, and the database it leaves are those of [ResultsConn::handle] on one request
    after the other, as long as no dispatch is completed twice. *)
From S2P Require Import Prelude Types Db Tables Ingest Results ResultsFacts ResultsDispatch ResultsProps.
From S2P Require Import Float Options Adaptive AdaptiveProps IngestWriter IngestWriterProps ResultsWriter ResultsWriterProps Linear.

(** ** The sequential specification *)

(** One request served on its own: what [handle] does in some environment that obeys the laws. *)
Definition r_served_alone (db : results_db) (request : ResultsRequest) (reply : ResultsReply) (db' : results_db) : Prop :=
  exists (E : Env), EnvLaws E /\ exists n n',
    r_handle (E := E) request (Conn n db) = (Ok [(r_reply_of request, reply)], Conn n' db').

Definition completion_request (p : PendingCompletion) : ResultsRequest :=
  RComplete (pcm_job_id p) (pcm_dispatch_id p) (pcm_outcome p) (pcm_reply p).
Definition dispatch_request (p : PendingDispatch) : ResultsRequest := RDispatch (pd_rows p) (pd_reply p).

(** The dispatch a request completes *)
Definition completion_key (request : ResultsRequest) : option (Z * string) :=
  match request with RComplete job_id dispatch_id _ _ => Some (job_id, dispatch_id) | _ => None end.

(** No dispatch is completed twice. *)
Definition completed_once (rx : list ResultsRequest) : Prop := NoDup (omap completion_key rx).

(** ** Completions on their own *)

(** Nothing fails, and it is [now]. *)
Definition at_time (now : Z) : Env := {|
  clock := fun _ => now; instant := instant (Env := model_env); uuid_v4 := uuid_v4 (Env := model_env);
  fault := fun _ => None; sqlite_error := sqlite_error (Env := model_env);
  row_order := fun A => row_order (Env := model_env) (A := A);
  pick_match := fun A => pick_match (Env := model_env) (A := A); next_rowid := next_rowid (Env := model_env) |}.

Lemma at_time_laws now : EnvLaws (at_time now).
Proof. destruct model_env_laws. by split. Qed.

Section one.
Context {A : Type} (upd : Z * string * A -> execution_row -> execution_row) (v : Z * string * A) (t : gmap Z execution_row).

Lemma chosen_one now n k r :
  chosen (E := at_time now) completion_matches n [v] k r = if decide (completion_matches v k r) then Some v else None.
Proof. unfold chosen. simpl. rewrite filter_cons. by case_decide. Qed.

Lemma update_from_one now n :
  update_from (E := at_time now) completion_matches upd n [v] t =
    match running_under t v.1 with Some r => <[v.1.1 := upd v r]> t | None => t end.
Proof.
  apply map_eq. intros k. rewrite (lookup_update_from (E := at_time now)). unfold running_under.
  destruct (decide (k = v.1.1)) as [->|Hk].
  - destruct (t !! v.1.1) as [r|] eqn:Er; cbn [fmap option_fmap option_map]; [|by rewrite Er]. rewrite chosen_one. unfold completion_matches.
    destruct (decide (er_dispatch_id r = v.1.2 /\ running r)) as [Hm|Hm].
    + rewrite decide_True by tauto. by rewrite lookup_insert_eq.
    + rewrite decide_False by tauto. by rewrite Er.
  - transitivity (t !! k).
    + destruct (t !! k) as [r|]; cbn [fmap option_fmap option_map mbind option_bind]; [|done]. rewrite chosen_one, decide_False; [done|]. by intros (? & _).
    + repeat case_match; try done. by rewrite lookup_insert_ne.
Qed.

Lemma updated_rows_one now n :
  updated_rows (E := at_time now) completion_matches upd n [v] t =
    match running_under t v.1 with Some r => [(v.1.1, upd v r)] | None => [] end.
Proof.
  unfold updated_rows. cbn [row_order at_time model_env].
  assert (map_imap (fun k r => (fun v0 => upd v0 r) <$> chosen (E := at_time now) completion_matches n [v] k r) t =
    match running_under t v.1 with Some r => {[v.1.1 := upd v r]} | None => ∅ end) as ->.
  { apply map_eq. intros k. rewrite map_lookup_imap. unfold running_under. destruct (decide (k = v.1.1)) as [->|Hk].
    - destruct (t !! v.1.1) as [r|]; cbn [fmap option_fmap option_map mbind option_bind]; [|done]. rewrite chosen_one. unfold completion_matches.
      destruct (decide (er_dispatch_id r = v.1.2 /\ running r)) as [Hm|Hm].
      + rewrite decide_True by tauto. simpl. by rewrite lookup_singleton_eq.
      + rewrite decide_False by tauto. simpl. by rewrite lookup_empty.
    - transitivity (@None execution_row).
      + destruct (t !! k) as [r|]; cbn [fmap option_fmap option_map mbind option_bind]; [|done]. rewrite chosen_one, decide_False; [done|]. by intros (? & _).
      + repeat case_match; simpl; by rewrite ?lookup_singleton_ne, ?lookup_empty by done. }
  destruct (running_under t v.1); [apply map_to_list_singleton|apply map_to_list_empty].
Qed.
End one.

Definition tables_linked (db : results_db) : Prop :=
  map_Forall (fun _ r => er_queue_name r ∈ dom (r_queues db)) (r_executions db).

Lemma results_wf_linked db : results_wf db -> tables_linked db.
Proof. intros Hwf k r Hr. apply (ew_rows _ _ Hwf k r Hr). Qed.

Lemma complete_success_alone now db p payload n :
  pcm_outcome p = Succeeded payload ->
  complete_success_chunk (E := at_time now) now [p] [0%nat] [Ignored] (Conn n db) =
    (Ok [disposition db p], Conn (S n) (complete_one now db p)).
Proof.
  intros Ho. unfold complete_success_chunk, stmt, mbind, M_bind. cbn [fault at_time c_step c_db].
  assert (success_values [p] [0%nat] = [(pcm_key p, payload)]) as -> by (unfold success_values; simpl; by rewrite Ho).
  rewrite (updated_rows_one (fun v : Z * string * bytes => complete_row now v.2) (pcm_key p, payload)).
  rewrite (update_from_one (fun v : Z * string * bytes => complete_row now v.2) (pcm_key p, payload)).
  unfold disposition, complete_one. rewrite Ho. cbn [fst snd].
  destruct (running_under (r_executions db) (pcm_key p)) as [r|] eqn:Er; unfold mret, M_ret; simpl.
  - apply running_under_Some in Er as (_ & Hd & _). case_decide as Hin; [done|]. destruct Hin. simpl in Hd. rewrite Hd. by left.
  - by destruct db.
Qed.

Lemma complete_fail_alone now db p message n :
  pcm_outcome p = OFailed message -> tables_linked db -> exists n',
  complete_fail_chunk (E := at_time now) now [p] [0%nat] [Ignored] (Conn n db) =
    (Ok [disposition db p], Conn n' (complete_one now db p)).
Proof.
  intros Ho Hlinked. unfold complete_fail_chunk, stmt, mbind, M_bind. cbn [fault at_time c_step c_db].
  assert (fail_values [p] [0%nat] = [(pcm_key p, message)]) as -> by (unfold fail_values; simpl; by rewrite Ho).
  rewrite (updated_rows_one (fun v : Z * string * string => fail_row now v.2) (pcm_key p, message)).
  rewrite (update_from_one (fun v : Z * string * string => fail_row now v.2) (pcm_key p, message)).
  unfold disposition, complete_one. rewrite Ho. cbn [fst snd].
  destruct (running_under (r_executions db) (pcm_key p)) as [r|] eqn:Er.
  - apply running_under_Some in Er as (Hr & Hd & _). cbn [fmap list_fmap fst snd load_limits er_queue_name fail_row].
    rewrite lookup_empty. unfold mbind, M_bind, query. cbn [fault at_time c_step c_db r_queues set_executions].
    pose proof (Hlinked _ _ Hr) as [q Hq]%elem_of_dom. unfold stmt. cbn [fault at_time c_step c_db r_queues set_executions result_map]. rewrite Hq. cbn [mret M_ret]. unfold mret, M_ret.
    eexists. simpl. unfold collect_map. simpl. rewrite Hd. simpl. rewrite lookup_insert_eq. rewrite lookup_insert_eq. simpl.
    reflexivity.
  - eexists. unfold mret, M_ret, mbind, M_bind. simpl. unfold collect_map. simpl. rewrite lookup_empty. by destruct db.
Qed.

Lemma transaction_ok {S A} now (m : M S A) n n' db db' a :
  m (Conn (Datatypes.S n) db) = (Ok a, Conn n' db') ->
  transaction (E := at_time now) m (Conn n db) = (Ok a, Conn (Datatypes.S n') db').
Proof. intros Hm. unfold transaction, stmt, mbind, M_bind. cbn [fault at_time c_step c_db]. by rewrite Hm. Qed.

Lemma complete_tx_alone now db p n :
  tables_linked db -> exists n',
  complete_tx (E := at_time now) [p] (Conn n db) = (Ok [disposition db p], Conn n' (complete_one now db p)).
Proof.
  intros Hlinked. unfold complete_tx.
  destruct (pcm_outcome p) as [payload|message] eqn:Ho.
  - eexists. apply transaction_ok. unfold mbind at 1, M_bind. cbn [unix_now ask clock at_time c_step c_db].
    assert (outcome_idx true [p] = [0%nat] /\ outcome_idx false [p] = []) as [-> ->]
      by (unfold outcome_idx, is_succeeded; simpl; rewrite !filter_cons; simpl; by rewrite Ho).
    cbn [chunks chunks_fuel length take drop thread replicate ROWS_PER_STATEMENT]. unfold mbind, M_bind.
    by rewrite (complete_success_alone now db p payload) by done.
  - destruct (complete_fail_alone now db p message (Datatypes.S (Datatypes.S n)) Ho Hlinked) as [n' Hn'].
    eexists. apply transaction_ok. unfold mbind at 1, M_bind. cbn [unix_now ask clock at_time c_step c_db].
    assert (outcome_idx true [p] = [] /\ outcome_idx false [p] = [0%nat]) as [-> ->]
      by (unfold outcome_idx, is_succeeded; simpl; rewrite !filter_cons; simpl; by rewrite Ho).
    cbn [chunks chunks_fuel length take drop thread replicate ROWS_PER_STATEMENT]. unfold mbind, M_bind.
    cbn [mret M_ret]. unfold mret, M_ret. rewrite Hn'. reflexivity.
Qed.

(** A completion on its own at time [now] *)
Lemma alone_completed now db p :
  tables_linked db ->
  r_served_alone db (completion_request p) (RRepDisposition (Ok (disposition db p))) (complete_one now db p).
Proof.
  intros Hlinked. exists (at_time now). split; [apply at_time_laws|].
  set (p0 := mkPendingCompletion (pcm_job_id p) (pcm_dispatch_id p) (pcm_outcome p) (pcm_reply p) 0).
  destruct (complete_tx_alone now db p0 2 Hlinked) as [n' Hn'].
  exists 0%nat, (Datatypes.S n'). cbn [r_handle completion_request r_reply_of]. unfold mbind, M_bind.
  cbn [instant_now ask instant at_time model_env c_step c_db]. unfold complete_batch, mbind, M_bind.
  cbn [instant_now ask instant at_time model_env c_step c_db]. change (Z.of_nat 0) with 0. unfold attempt. fold p0.
  by rewrite Hn'.
Qed.

(** It may fail with any error of SQLite. *)
Lemma alone_not_completed db p e :
  r_served_alone db (completion_request p) (RRepDisposition (Err (Internal e))) db.
Proof.
  exists (failing_env e). split; [apply failing_env_laws|]. eexists 0%nat, _. reflexivity.
Qed.

Lemma complete_one_linked now db p : tables_linked db -> tables_linked (complete_one now db p).
Proof.
  intros Hl. unfold complete_one. destruct (running_under _ _) as [r|] eqn:Er; [|done].
  apply running_under_Some in Er as (Hr & _ & _). apply map_Forall_insert_2; [|exact Hl].
  pose proof (Hl _ _ Hr) as Hq. by destruct (pcm_outcome p).
Qed.

Lemma served_committed now db batch :
  tables_linked db -> let '(ds, db') := complete_all now db batch in
  served r_served_alone db (zip_with (fun p d => (completion_request p, RRepDisposition (Ok d))) batch ds) db' /\
  length ds = length batch.
Proof.
  revert db. induction batch as [|p batch IH]; intros db Hl; simpl; [split; [apply served_nil|done]|].
  specialize (IH (complete_one now db p) (complete_one_linked now db p Hl)).
  destruct (complete_all now (complete_one now db p) batch) as [ds db']. destruct IH as [IH Hlen].
  simpl. split; [|by rewrite Hlen]. econstructor; [by apply alone_completed|exact IH].
Qed.

(** ** A batch of completions *)

Section batch.
Context `{EL : EnvLaws}.

Lemma internal_load_limits names limits : internal_only (load_limits names limits).
Proof using Type.
  revert limits. induction names as [|q names IH]; intros limits; simpl; [apply internal_ret|].
  destruct (limits !! q); [apply IH|]. apply internal_bind; [|intros; apply IH].
  apply internal_query. intros n db e. destruct (r_queues db !! q); [done|]. intros [= <-]. by eexists.
Qed.

Lemma internal_complete_tx batch : internal_only (complete_tx batch).
Proof using Type.
  apply internal_transaction, internal_bind; [intros c e [=]|]. intros now. apply internal_bind.
  - apply internal_thread. intros chunk ds. apply internal_bind; [apply internal_stmt; intros n db e He; discriminate He|]. intros u. apply internal_ret.
  - intros ds. apply internal_thread. intros chunk ds0. apply internal_bind; [apply internal_stmt; intros n db e He; discriminate He|].
    intros u. apply internal_bind; [apply internal_load_limits|]. intros l. apply internal_ret.
Qed.

Lemma completion_error_internal batch c :
  wp (complete_batch batch) (fun r _ => forall out e, r = Ok out ->
    out.2 = (fun p => (pcm_reply p, Err e)) <$> batch -> batch <> [] -> exists t, e = Internal t) c.
Proof using Type.
  unfold complete_batch. destruct batch as [|p batch]; [wp_rule; by intros|]. wp_rule. wp_rule. cbn beta iota. wp_rule. wp_rule.
  unfold wp at 1. pose proof (internal_complete_tx (p :: batch) (Conn (S (c_step c)) (c_db c))) as Hi. cbn [c_step c_db].
  destruct (complete_tx _ _) as [[ds|err] c']; cbn [fst snd] in *.
  - wp_rule. wp_rule. wp_rule. intros out e [= <-] Heq _. cbn [snd] in Heq. destruct ds; by simplify_eq/=.
  - wp_rule. intros out e [= <-] Heq _. cbn [snd] in Heq. injection Heq as -> _. by apply Hi.
Qed.

(** A batch is a sequence of completions. *)
Lemma served_completions batch c :
  NoDup (pcm_key <$> batch) -> results_wf (c_db c) ->
  wp (complete_batch batch) (fun r c' => exists out trace, r = Ok out /\
    served r_served_alone (c_db c) trace (c_db c') /\ trace.*1 = completion_request <$> batch /\
    replies_of r_reply_of trace = completion_replies out.2) c.
Proof using EL.
  intros Hnd Hwf.
  eapply wp_mono; [apply wp_and; [apply wp_complete_batch|apply completion_error_internal]|].
  intros r c' [(out & -> & Hpost) Hint]. exists out. destruct Hpost as [(e & -> & ->)|(now & ds & d & t' & -> & Hl & -> & Hby & _ & Hds)].
  - destruct (decide (batch = [])) as [->|Hne]; [exists []; split_and!; [done|apply served_nil|done..]|].
    destruct (Hint _ e eq_refl eq_refl Hne) as [t ->].
    eexists. split; [done|]. split.
    + apply (served_constant _ _ completion_request (fun _ => RRepDisposition (Err (Internal t))) batch).
      apply Forall_forall. intros p _. apply alone_not_completed.
    + unfold replies_of, completion_replies. cbn [snd]. by rewrite <-!list_fmap_compose.
  - pose proof (served_committed now (c_db c) batch (results_wf_linked _ Hwf)) as Hs.
    rewrite (complete_all_eq _ _ _ _ Hnd Hby) in Hs. destruct Hs as [Hs Hlen]. rewrite <-(Hds Hnd) in Hs.
    eexists. split; [done|]. split; [exact Hs|]. split; [by apply fmap_zip_with_fst|].
    clear. cbn [snd]. revert ds. induction batch as [|p batch IH]; intros [|x ds]; [done..|].
    unfold replies_of, completion_replies in *. simpl. by rewrite IH.
Qed.
End batch.

(** ** Rowids that are left *)

(** The rowids the requests may still need *)
Definition rows_left (requests : list ResultsRequest) : nat := foldr (fun r n => rows_needed r + n)%nat 0%nat requests.

#[export] Instance rows_left_proper : Proper (Permutation ==> eq) rows_left.
Proof. induction 1; simpl; lia. Qed.

Lemma rows_left_app l1 l2 : rows_left (l1 ++ l2) = (rows_left l1 + rows_left l2)%nat.
Proof. induction l1; simpl; lia. Qed.

Lemma rows_left_completions batch : rows_left (completion_request <$> batch) = 0%nat.
Proof. by induction batch. Qed.

Section handle.
Context `{EL : EnvLaws}.

(** Rows that keep their rowids *)
Lemma same_ids_room t t' j :
  (forall k r', t' !! k = Some r' -> exists r, t !! k = Some r /\ er_id r' = er_id r) -> exec_room t j -> exec_room t' j.
Proof using Type.
  intros Hids Hroom. unfold exec_room in *. enough (max_id (er_ids t') <= max_id (er_ids t)) by lia.
  apply max_id_lub; [apply max_id_nonneg|]. intros i (k & r' & Hr & <-)%elem_of_er_ids. apply max_id_ge, elem_of_er_ids.
  destruct (Hids k r' Hr) as (r & ? & ->). by exists k, r.
Qed.

(** Only a dispatch makes rows. *)
Lemma row_steps_room request t t' j :
  (forall k, row_step request k (t !! k) (t' !! k)) -> (forall rows reply, request <> RDispatch rows reply) ->
  exec_room t j -> exec_room t' j.
Proof using Type.
  intros Hstep Hnot. apply same_ids_room. intros k r Hr. specialize (Hstep k). rewrite Hr in Hstep.
  destruct (t !! k) as [r0|]; inversion Hstep; subst; try (by exfalso; eapply Hnot);
    exists r0 || eexists; (split; [reflexivity|done || by destruct outcome]).
Qed.

Lemma wp_r_handle_room request j c :
  results_wf (c_db c) -> exec_room (r_executions (c_db c)) (rows_needed request + j) ->
  wp (r_handle request) (fun r c' => exists reply, r = Ok [(r_reply_of request, reply)] /\
    results_wf (c_db c') /\ exec_room (r_executions (c_db c')) j) c.
Proof using EL.
  intros Hwf Hroom.
  assert (exec_room (r_executions (c_db c)) (rows_needed request)) as Hroom' by (eapply er_ids_room_le; [done|]; lia).
  destruct request as [q rp|rows rp|k d o rp|k d rp|now rp|cutoff rp|rp].
  2:{ cbn [r_handle rows_needed r_reply_of] in *. wp_rule. wp_rule. eapply wp_mono; [apply wp_dispatch_batch|].
      intros r c' [_ Hpost]. wp_rules. eexists. split; [done|].
      destruct Hpost as [(e & -> & ->)|(now & t' & rws & -> & _ & Hkeep & _)].
      - split; [done|]. eapply er_ids_room_le; [exact Hroom|]. lia.
      - by apply Hkeep. }
  all: eapply wp_mono; [by apply wp_r_handle|]; intros r c' (reply & -> & Hwf' & Hsteps); exists reply; split; [done|];
    split; [done|]; by eapply (row_steps_room _ (r_executions (c_db c))).
Qed.

(** ** The writer *)

Context `{Ch : Channel} (db0 : results_db) (rx0 : list ResultsRequest) (Honce : completed_once rx0).

(** From the start on, the replies [sent] and the database are those of requests served one at a time;
    [left] are the others. *)
Record results_linear (sent : list (nat * ResultsReply)) (left : list ResultsRequest) (db : results_db) : Prop := {
  rl_served : linear r_reply_of r_served_alone db0 rx0 db sent left;
  rl_wf : results_wf db;
  rl_room : exec_room (r_executions db) (rows_left left)
}.

Lemma r_linear_perm sent left left' db : left ≡ₚ left' -> results_linear sent left db -> results_linear sent left' db.
Proof using Type. intros HP [Hlin Hwf Hroom]. split; [by eapply linear_reorder|done|by rewrite <-HP]. Qed.

Lemma r_linear_serve request sent left c :
  results_linear sent (request :: left) (c_db c) ->
  wp (r_handle request) (fun r c' => forall out, r = Ok out -> results_linear (sent ++ out) left (c_db c')) c.
Proof using EL.
  intros [Hlin Hwf Hroom]. pose proof (wp_r_handle_room request (rows_left left) c Hwf Hroom) as H1. unfold wp in *.
  destruct (r_handle request c) as [r c'] eqn:Hrun. simpl in *. destruct H1 as (reply & -> & Hwf' & Hroom').
  intros out [= <-]. split; [|done|done].
  apply (linear_serves _ _ _ _ _ _ [request] left [(request, reply)] _ Hlin); [|done]. apply served_one.
  exists E. split; [done|]. destruct c as [n db], c' as [n' db']. by exists n, n'.
Qed.

Lemma once_batch sent left batch db :
  results_linear sent ((completion_request <$> batch) ++ left) db -> NoDup (pcm_key <$> batch).
Proof using Honce.
  intros [Hlin _ _]. apply linear_left in Hlin as [rest HP]%submseteq_Permutation. unfold completed_once in Honce.
  rewrite HP, !omap_app in Honce. apply NoDup_app in Honce as [[Hnd _]%NoDup_app _].
  assert (omap completion_key (completion_request <$> batch) = pcm_key <$> batch) as <-; [|done].
  clear. induction batch as [|p batch IH]; [done|]. cbn. f_equal. exact IH.
Qed.

Lemma r_linear_complete batch sent left c :
  results_linear sent ((completion_request <$> batch) ++ left) (c_db c) ->
  wp (complete_batch batch) (fun r c' => forall out, r = Ok out ->
    results_linear (sent ++ completion_replies out.2) left (c_db c')) c.
Proof using EL Honce.
  intros Hlin. pose proof (once_batch _ _ _ _ Hlin) as Hnd. destruct Hlin as [Hlin Hwf Hroom].
  rewrite rows_left_app, rows_left_completions in Hroom.
  eapply wp_mono; [apply wp_and; [by apply served_completions|apply wp_complete_batch]|].
  intros r c' [(out & trace & -> & Hs & Hr & Hrep) (out' & [= <-] & Hpost)] ? [= <-]. split.
  - rewrite <-Hrep. eapply linear_serves; [exact Hlin|exact Hs|by rewrite Hr].
  - destruct Hpost as [(e & _ & ->)|(now & ds & d & t' & _ & _ & -> & Hby & _)]; [done|]. by apply (completed_by_wf _ _ _ _ _ Hby Hwf).
  - destruct Hpost as [(e & _ & ->)|(now & ds & d & t' & _ & _ & -> & Hby & _)]; [done|].
    eapply same_ids_room; [|exact Hroom]. intros k r' Hr'. specialize (Hby k). simpl in Hr'.
    destruct (r_executions (c_db c) !! k) as [r|]; [|congruence]. exists r. split; [done|].
    destruct Hby as [(p & _ & _ & E0)|[_ E0]]; rewrite E0 in Hr'; simplify_eq; [by destruct (pcm_outcome p)|done].
Qed.
(** *** The queues *)

Definition r_queue_requests (q : ResultsQueues) : list ResultsRequest :=
  rq_meta q ++ (dispatch_request <$> rq_dispatch q) ++ (completion_request <$> rq_complete q).

Lemma r_queue_requests_push now request q :
  r_queue_requests (results_push_at now request q) ≡ₚ request :: r_queue_requests q.
Proof using Type.
  destruct q as [meta disp comp], request; unfold r_queue_requests; simpl; rewrite ?fmap_app; simpl; solve_Permutation.
Qed.

(** What a computation that only receives requests leaves *)
Definition r_keeps (left : list ResultsRequest) (q : ResultsQueues) (left' : list ResultsRequest) (q' : ResultsQueues) : Prop :=
  left' ++ r_queue_requests q' ≡ₚ left ++ r_queue_requests q.

Lemma r_keeps_refl left q : r_keeps left q left q.
Proof using Type. unfold r_keeps. reflexivity. Qed.

Lemma r_keeps_push now request left q left' q' :
  r_keeps left (results_push_at now request q) left' q' -> r_keeps (request :: left) q left' q'.
Proof using Type. unfold r_keeps. intros ->. rewrite r_queue_requests_push. solve_Permutation. Qed.

Lemma r_keeps_perm left1 left2 q left' q' : left1 ≡ₚ left2 -> r_keeps left1 q left' q' -> r_keeps left2 q left' q'.
Proof using Type. unfold r_keeps. by intros <-. Qed.

Lemma wp_push request q c :
  wp (results_push request q) (fun r c' => c_db c' = c_db c /\ exists now, r = Ok (results_push_at now request q)) c.
Proof using E. unfold results_push. destruct (results_class request); wp_rules; (split; [done|]); by eexists. Qed.

Lemma r_keeps_try_recv rx q c :
  wp (results_try_recv rx q) (fun r c' => c_db c' = c_db c /\ forall rx' q', r = Ok (rx', q') -> r_keeps rx q rx' q') c.
Proof using E Ch.
  revert q c. induction rx as [|request rx IH]; intros q c; simpl.
  { wp_rule. split; [done|]. intros rx' q' [= <- <-]; apply r_keeps_refl. }
  wp_rule. wp_rule. destruct (arrives _); [|wp_rule; split; [done|]; intros rx' q' [= <- <-]; apply r_keeps_refl].
  wp_rule. eapply wp_mono; [apply wp_push|]. intros r c1 [Hdb1 [now ->]]. eapply wp_mono; [apply IH|].
  intros r c' [Hdb Hr]. split; [by rewrite Hdb, Hdb1|]. intros rx' q' Heq. by eapply r_keeps_push, Hr.
Qed.

Lemma r_keeps_take target pending queued ctl c :
  wp (complete_take target pending queued ctl) (fun r c' => c_db c' = c_db c /\
    forall pending' queued' ctl', r = Ok (pending', queued', ctl') -> pending' ++ queued' = pending ++ queued) c.
Proof using E.
  revert pending ctl c. induction queued as [|item queued IH]; intros pending ctl c; simpl.
  { wp_rule. split; [done|]. by intros ? ? ? [= <- <- <-]. }
  destruct (Z.of_nat (length pending) <? target).
  - wp_rule. wp_rule. eapply wp_mono; [apply IH|]. intros r c' [Hdb Hr]. split; [done|].
    intros p' j' ctl' Heq. rewrite (Hr p' j' ctl' Heq). by rewrite <-app_assoc.
  - wp_rule. split; [done|]. by intros ? ? ? [= <- <- <-].
Qed.

Lemma r_keeps_fill target deadline rx pending q ctl c :
  wp (complete_fill target deadline rx pending q ctl) (fun r c' => c_db c' = c_db c /\
    forall rx' pending' q' ctl' d, r = Ok (rx', pending', q', ctl', d) ->
      r_keeps ((completion_request <$> pending) ++ rx) q ((completion_request <$> pending') ++ rx') q') c.
Proof using E Ch.
  revert pending q ctl c. induction rx as [|request rx IH]; intros pending q ctl c; simpl;
    (destruct (negb _); [wp_rule; split; [done|]; intros ????? [= <- <- <- <- <-]; apply r_keeps_refl|]); wp_rule; wp_rule;
    (destruct (_ =? 0); [wp_rule; split; [done|]; intros ????? [= <- <- <- <- <-]; apply r_keeps_refl|]); wp_rule; wp_rule;
    (destruct (arrives _); simpl; [|wp_rule; split; [done|]; intros ????? [= <- <- <- <- <-]; apply r_keeps_refl]).
  { wp_rule. split; [done|]. intros ????? [= <- <- <- <- <-]; apply r_keeps_refl. }
  assert (forall c2, c_db c2 = c_db c -> wp (q0 ← results_push request q;
              if results_preempts request then mret (rx, pending, q0, ctl, false)
              else complete_fill target deadline rx pending q0 ctl)
      (fun r c' => c_db c' = c_db c /\ forall rx' pending' q' ctl' d, r = Ok (rx', pending', q', ctl', d) ->
        r_keeps ((completion_request <$> pending) ++ request :: rx) q ((completion_request <$> pending') ++ rx') q') c2) as Hwp.
  { intros c2 Hc2. wp_rule. eapply wp_mono; [apply wp_push|]. intros r c3 [Hdb3 [now ->]]. cbn beta iota.
    destruct (results_preempts request).
    - wp_rule. split; [congruence|]. intros ????? [= <- <- <- <- <-].
      eapply r_keeps_perm; [|by apply (r_keeps_push now request), r_keeps_refl]. solve_Permutation.
    - eapply wp_mono; [apply IH|]. intros r c' [Hdb Hr]. split; [congruence|]. intros rx' p' q' ctl' d Heq.
      eapply r_keeps_perm; [|by eapply (r_keeps_push now request), Hr]. solve_Permutation. }
  destruct request as [| |k d o rp| | | |]; try (by apply Hwp).
  wp_rule. wp_rule. wp_rule. wp_rule. eapply wp_mono; [apply IH|]. intros r c' [Hdb Hr]. split; [done|]. intros rx' p' q' ctl' d' Heq.
  eapply r_keeps_perm; [|by eapply Hr]. rewrite fmap_app. simpl. solve_Permutation.
Qed.
(** *** The loop *)

Definition r_linear_writer (w : results_writer) (db : results_db) : Prop :=
  results_linear (rw_sent w) (rw_rx w ++ r_queue_requests (rw_queues w)) db.

(** The part of a writer [r_linear_writer] speaks of *)
Lemma r_linear_writer_eq w w' db :
  rw_sent w' = rw_sent w -> rw_rx w' = rw_rx w -> rw_queues w' = rw_queues w -> r_linear_writer w db -> r_linear_writer w' db.
Proof using Type. unfold r_linear_writer. by intros -> -> ->. Qed.

Lemma r_linear_receive w rx q db :
  r_keeps (rw_rx w) (rw_queues w) rx q -> r_linear_writer w db -> r_linear_writer (rw_receive rx q w) db.
Proof using Type. intros HP. apply r_linear_perm. symmetry. exact HP. Qed.

Lemma r_linear_results_serve request q w c :
  r_linear_writer w (c_db c) -> r_queue_requests (rw_queues w) ≡ₚ request :: r_queue_requests q ->
  wp (results_serve request q w) (fun r c' => forall w', r = Ok w' -> r_linear_writer w' (c_db c') /\ rw_queues w' = q) c.
Proof using EL.
  intros Hlin HP. unfold results_serve. wp_rule.
  eapply wp_mono; [apply (r_linear_serve request (rw_sent w) (rw_rx w ++ r_queue_requests q))|].
  { eapply r_linear_perm; [|exact Hlin]. rewrite HP. solve_Permutation. }
  intros [out|e] c' Hout; [|done]. wp_rule. intros w' [= <-]. split; [|done]. by apply Hout.
Qed.

Lemma r_linear_serve_meta meta w c :
  rq_meta (rw_queues w) = meta -> r_linear_writer w (c_db c) ->
  wp (results_serve_meta meta w) (fun r c' => forall w', r = Ok w' -> r_linear_writer w' (c_db c')) c.
Proof using EL.
  revert w c. induction meta as [|request meta IH]; intros w c Hm Hlin; simpl; [wp_rule; by intros ? [= <-]|].
  wp_rule. eapply wp_mono; [apply r_linear_results_serve; [done|]|].
  - unfold r_queue_requests. by rewrite Hm.
  - intros [w1|e] c' Hw1; [|done]. destruct (Hw1 w1 eq_refl) as [Hlin1 Hq1]. apply IH; [by rewrite Hq1|done].
Qed.

(** One dispatch is served as [handle] serves it. *)
Lemma r_linear_dispatch pending sent left c {B} (f : Result (list DispatchedExecution) -> M results_db B)
    (Q : Result B -> conn results_db -> Prop) :
  results_linear sent (dispatch_request pending :: left) (c_db c) ->
  (forall result c', results_linear (sent ++ [(pd_reply pending, RRepDispatched result)]) left (c_db c') -> wp (f result) Q c') ->
  wp (result ← attempt (dispatch_batch (pd_rows pending)); f result) Q c.
Proof using EL.
  intros Hlin Hf. wp_rule. wp_rule. pose proof (r_linear_serve _ _ _ _ Hlin) as Hserve. unfold wp in Hserve at 1. unfold wp at 1.
  cbn [dispatch_request r_handle] in Hserve. unfold mbind, M_bind, attempt, mret, M_ret in Hserve.
  destruct (dispatch_batch (pd_rows pending) c) as [result c'] eqn:Hrun. simpl in *. apply Hf. by apply Hserve.
Qed.

Lemma r_linear_serve_dispatches dispatches w c :
  rq_dispatch (rw_queues w) = dispatches -> r_linear_writer w (c_db c) ->
  wp (serve_dispatches dispatches w) (fun r c' => forall w', r = Ok w' -> r_linear_writer w' (c_db c')) c.
Proof using EL.
  revert w c. induction dispatches as [|pending rest IH]; intros w c Hd Hlin; cbn [serve_dispatches]; [wp_rule; by intros ? [= <-]|].
  apply (r_linear_dispatch pending (rw_sent w)
    (rw_rx w ++ r_queue_requests (mkResultsQueues (rq_meta (rw_queues w)) rest (rq_complete (rw_queues w))))).
  - eapply r_linear_perm; [|exact Hlin]. unfold r_queue_requests. rewrite Hd. simpl. solve_Permutation.
  - intros result c' Hlin'. by apply IH.
Qed.

Lemma r_linear_dispatch_turn w c :
  r_linear_writer w (c_db c) ->
  wp (run_dispatch_turn w) (fun r c' => forall w', r = Ok w' -> r_linear_writer w' (c_db c')) c.
Proof using EL.
  intros Hlin. unfold run_dispatch_turn. destruct (rq_dispatch (rw_queues w)) as [|pending rest] eqn:Hd.
  { wp_rule. by intros ? [= <-]. }
  wp_rule. wp_rule. cbn beta iota.
  apply (r_linear_dispatch pending (rw_sent w)
    (rw_rx w ++ r_queue_requests (mkResultsQueues (rq_meta (rw_queues w)) rest (rq_complete (rw_queues w))))).
  - eapply r_linear_perm; [|exact Hlin]. unfold r_queue_requests. rewrite Hd. simpl. solve_Permutation.
  - intros result c' Hlin'. destruct (is_ok result); repeat wp_rule; by intros ? [= <-].
Qed.

(** The statistics leave the database. *)
Lemma wp_observe_same filled commit (backlog : M results_db Z) reason ctl c :
  (forall c, wp backlog (fun _ c' => c_db c' = c_db c) c) ->
  wp (observe_completion filled commit backlog reason ctl) (fun _ c' => c_db c' = c_db c) c.
Proof using E.
  intros Hb. unfold observe_completion. destruct commit; [|by wp_rule]. wp_rule. eapply wp_mono; [apply Hb|].
  intros [size|e] c' Hdb; [|done]. by repeat wp_rule.
Qed.

Lemma r_linear_complete_turn w c :
  r_linear_writer w (c_db c) ->
  wp (run_complete_turn w) (fun r c' => forall end_ w', r = Ok (end_, w') -> r_linear_writer w' (c_db c')) c.
Proof using EL Honce.
  intros Hlin. unfold run_complete_turn. wp_rule. eapply wp_mono; [apply r_keeps_take|].
  intros [[[pending queued] ctl]|e] c1 [Hdb1 Htake]; [|done]. specialize (Htake _ _ _ eq_refl). simpl in Htake.
  cbn beta iota. set (q := mkResultsQueues (rq_meta (rw_queues w)) (rq_dispatch (rw_queues w)) queued).
  assert (results_linear (rw_sent w) (((completion_request <$> pending) ++ rw_rx w) ++ r_queue_requests q) (c_db c1)) as Hlin1.
  { rewrite Hdb1. eapply r_linear_perm; [|exact Hlin]. unfold r_queue_requests. simpl. rewrite <-Htake, fmap_app. solve_Permutation. }
  destruct pending as [|p0 pending'] eqn:Ep; [wp_rule; by intros end_ w' [= <- <-]|].
  rewrite <-Ep in *. clear Ep. wp_rule. wp_rule. cbn beta iota. wp_rule. eapply wp_mono; [apply r_keeps_fill|].
  intros [[[[[rx pending2] q2] ctl2] d]|e] c2 [Hdb2 Hfill]; [|done]. specialize (Hfill _ _ _ _ _ eq_refl).
  cbn beta iota. wp_rule.
  eapply wp_mono; [apply (r_linear_complete pending2 (rw_sent w) (rx ++ r_queue_requests q2))|].
  - rewrite Hdb2. cbn [c_db]. eapply r_linear_perm; [|exact Hlin1]. unfold r_keeps in Hfill. rewrite <-Hfill. solve_Permutation.
  - intros [out|e] c3 Hout; [|done]. specialize (Hout out eq_refl). wp_rule.
    eapply wp_mono; [apply wp_observe_same; intros; by repeat wp_rule|]. intros [ctl'|e] c4 Hdb4; [|done]. wp_rule.
    intros end_ w' [= <- <-]. unfold r_linear_writer. cbn [rw_sent rw_rx rw_queues]. by rewrite Hdb4.
Qed.

Lemma r_linear_flush backlog w c :
  r_linear_writer w (c_db c) ->
  wp (flush_complete backlog w) (fun r c' => forall end_ w', r = Ok (end_, w') -> r_linear_writer w' (c_db c')) c.
Proof using EL Honce.
  intros Hlin. unfold flush_complete. destruct (rq_complete (rw_queues w)) as [|p0 batch'] eqn:Eb.
  { wp_rule. by intros end_ w' [= <- <-]. }
  set (q := mkResultsQueues (rq_meta (rw_queues w)) (rq_dispatch (rw_queues w)) []).
  wp_rule. eapply wp_mono; [apply (r_linear_complete (p0 :: batch') (rw_sent w) (rw_rx w ++ r_queue_requests q))|].
  - eapply r_linear_perm; [|exact Hlin]. unfold r_queue_requests. rewrite Eb. simpl. solve_Permutation.
  - intros [out|e] c3 Hout; [|done]. specialize (Hout out eq_refl). wp_rule.
    eapply wp_mono; [apply wp_observe_same; intros; by repeat wp_rule|]. intros [ctl'|e] c4 Hdb4; [|done]. wp_rule.
    intros end_ w' [= <- <-]. unfold r_linear_writer. cbn [rw_sent rw_rx rw_queues]. by rewrite Hdb4.
Qed.

Lemma r_linear_finish with_dispatches backlog w c :
  r_linear_writer w (c_db c) ->
  wp (results_finish with_dispatches backlog w) (fun r c' => forall end_ w', r = Ok (end_, w') -> r_linear_writer w' (c_db c')) c.
Proof using EL Honce.
  intros Hlin. unfold results_finish. wp_rule. eapply wp_mono; [by apply r_linear_flush|].
  intros [[end_ w1]|e] c1 Hw1; [|done]. specialize (Hw1 _ _ eq_refl). cbn beta iota.
  assert (wp (w0 ← results_serve_meta (rq_meta (rw_queues w1)) w1;
              w2 ← (if with_dispatches then serve_dispatches (rq_dispatch (rw_queues w0)) w0 else mret w0); mret (Disconnected, w2))
    (fun r c' => forall end_ w', r = Ok (end_, w') -> r_linear_writer w' (c_db c')) c1) as Hserve.
  { wp_rule. eapply wp_mono; [by apply r_linear_serve_meta|]. intros [w2|e] c2 Hw2; [|done]. specialize (Hw2 _ eq_refl).
    wp_rule. destruct with_dispatches.
    - eapply wp_mono; [by apply r_linear_serve_dispatches|]. intros [w3|e] c3 Hw3; [|done].
      wp_rule. intros ? ? [= <- <-]. by apply Hw3.
    - wp_rule. wp_rule. by intros ? ? [= <- <-]. }
  destruct end_; [exact Hserve|exact Hserve|]. wp_rule. by intros ? ? [= <- <-].
Qed.

Lemma r_linear_recv w c :
  r_linear_writer w (c_db c) ->
  wp (results_recv w) (fun r c' => c_db c' = c_db c /\ forall w', r = Ok (Some w') -> r_linear_writer w' (c_db c')) c.
Proof using EL.
  intros Hlin. unfold results_recv. destruct (results_is_empty (rw_queues w)); [|wp_rule; split; [done|]; by intros ? [= <-]].
  destruct (rw_rx w) as [|request rest] eqn:Hrx; [wp_rule; by split|].
  wp_rule. eapply wp_mono; [apply wp_push|]. intros r c1 [Hdb [now ->]]. wp_rule. split; [done|]. intros w' [= <-].
  rewrite Hdb. apply r_linear_receive; [|done]. rewrite Hrx. apply (r_keeps_push now), r_keeps_refl.
Qed.

Lemma r_linear_loop fuel w c :
  r_linear_writer w (c_db c) ->
  wp (results_writer_loop fuel w) (fun r c' => forall end_ w', r = Ok (Some (end_, w')) -> r_linear_writer w' (c_db c')) c.
Proof using EL Honce.
  revert w c. induction fuel as [|fuel IH]; intros w c Hlin; [by cbn [results_writer_loop]; wp_rule|]. cbn [results_writer_loop].
  assert (forall b backlog w c, r_linear_writer w (c_db c) -> wp (Some <$> results_finish b backlog w)
    (fun r c' => forall end_ w', r = Ok (Some (end_, w')) -> r_linear_writer w' (c_db c')) c) as Hfinish.
  { clear -EL Honce. intros b backlog w c Hlin. unfold fmap, M_fmap. wp_rule. eapply wp_mono; [by apply r_linear_finish|].
    intros [[end_ w']|e] c' Hw'; [|done]. wp_rule. intros ? ? [= <- <-]. by eapply Hw'. }
  wp_rule. eapply wp_mono; [by apply r_linear_recv|]. intros [[w1|]|e] c1 [Hdb1 Hw1]; [| |done].
  2:{ apply Hfinish. by rewrite Hdb1. }
  specialize (Hw1 _ eq_refl). wp_rule. eapply wp_mono; [apply r_keeps_try_recv|].
  intros [[rx q]|e] c2 [Hdb2 Hkeep]; [|done]. cbn beta iota. cbn [fst snd].
  pose proof (r_linear_receive w1 rx q (c_db c2) (Hkeep _ _ eq_refl) ltac:(by rewrite Hdb2)) as Hlin2.
  set (w2 := rw_receive rx q w1) in *. change (rw_queues w2) with q.
  destruct (rq_meta q) as [|request meta] eqn:Em.
  2:{ wp_rule. eapply wp_mono; [apply r_linear_results_serve; [done|]|].
      - change (rw_queues w2) with q. unfold r_queue_requests at 1. by rewrite Em.
      - intros [w3|e] c3 Hw3; [|done]. apply IH. by apply Hw3. }
  wp_rule. wp_rule. cbn beta iota. destruct (select _ _ _ _ _ _) as [chosen lanes]. cbn [fst snd].
  set (w3 := mkResultsWriter _ _ _ _ _). assert (r_linear_writer w3 (c_db c2)) as Hlin3 by by apply (r_linear_writer_eq w2).
  destruct chosen as [[[] reason]|]; [| |by apply IH].
  - wp_rule. eapply wp_mono; [by apply r_linear_dispatch_turn|]. intros [w4|e] c4 Hw4; [|done]. apply IH. by apply Hw4.
  - wp_rule. eapply wp_mono; [by apply r_linear_complete_turn|]. intros [[end_ w4]|e] c4 Hw4; [|done]. specialize (Hw4 _ _ eq_refl).
    cbn beta iota. destruct end_; [by apply IH| |].
    + wp_rule. wp_rule. by apply Hfinish.
    + wp_rule. by intros ? ? [= <- <-].
Qed.
End handle.

(** ** Property *)

(** C21. The results writer is linearizable: when no dispatch is completed twice, the replies it has sent,
    in the order it has sent them, and the database are those of [handle] serving these requests one at
    a time - each in some environment that obeys the laws, so a batch of completions that fails is as if
    each of them had failed, and a batch that commits as if they had been recorded one after the other
    at the same instant - and the requests that are left are still waiting. *)
Theorem results_writer_is_linearizable `{EnvLaws} `{Channel} fuel options rx n db end_ w c' :
  results_wf db -> exec_room (r_executions db) (rows_left rx) -> completed_once rx ->
  results_writer_loop fuel (results_writer_new options rx) (Conn n db) = (Ok (Some (end_, w)), c') ->
  exists trace, served r_served_alone db trace (c_db c') /\ rw_sent w = replies_of r_reply_of trace /\
    trace.*1 ++ rw_rx w ++ r_queue_requests (rw_queues w) ≡ₚ rx.
Proof.
  intros Hwf Hroom Honce Hrun.
  assert (r_linear_writer db rx (results_writer_new options rx) db) as Hlin.
  { split; simpl; rewrite ?app_nil_r; [apply linear_start|done|done]. }
  pose proof (r_linear_loop db rx Honce fuel _ (Conn n db) Hlin) as Hwp.
  destruct (wp_run _ _ _ _ _ Hwp Hrun _ _ eq_refl) as [(trace & Hs & Hr & HP) _ _]. by exists trace.
Qed.

Definition linear_rx : list ResultsRequest := [
  RUpsertQueue (JobQueue_new 5 "email") 1; RDispatch [mkDispatchInsert 4 "email" "e" 7000; mkDispatchInsert 9 "email" "f" 7000] 2;
  RComplete 1 "a" (Succeeded []) 3; RComplete 2 "b" (OFailed "boom") 4; RRecoverStale 50 5; RVacuum 6 ].

Definition r_run_end (r : Result (option (turn_end * results_writer))) : option (list nat * list ResultsRequest) :=
  match r with
  | Ok (Some (_, w)) => Some ((rw_sent w).*1, rw_rx w ++ r_queue_requests (rw_queues w))
  | _ => None
  end.

(** The recovery and the maintenance overtake, then both completions are committed in one batch, before
    the dispatch. *)
Lemma results_writer_is_linearizable_witness :
  exists trace db', served r_served_alone example_results trace db' /\
    (replies_of r_reply_of trace).*1 = [1; 5; 6; 3; 4; 2]%nat /\ trace.*1 ≡ₚ linear_rx.
Proof.
  assert (results_wf example_results) as Hwf by (apply results_wf_decide; vm_compute; reflexivity).
  assert (exec_room (r_executions example_results) (rows_left linear_rx)) as Hroom by (vm_compute; reflexivity).
  assert (completed_once linear_rx) as Honce by (apply (bool_decide_eq_true_1 _); vm_compute; reflexivity).
  assert (r_run_end (fst (results_writer_loop (E := model_env) (Ch := model_channel) 8
    (results_writer_new completion_defaults linear_rx) (Conn 0 example_results))) = Some ([1; 5; 6; 3; 4; 2]%nat, [])) as Hend
    by (vm_compute; reflexivity).
  destruct (results_writer_loop (E := model_env) (Ch := model_channel) 8
    (results_writer_new completion_defaults linear_rx) (Conn 0 example_results)) as [r c'] eqn:Hrun.
  simpl in Hend. unfold r_run_end in Hend. destruct r as [[[end_ w]|]|]; try discriminate Hend. injection Hend as Hsent Hleft.
  destruct (results_writer_is_linearizable (E := model_env) 8 completion_defaults linear_rx 0 example_results end_ w c'
    Hwf Hroom Honce Hrun) as (trace & Hs & Hr & HP).
  exists trace, (c_db c'). split; [exact Hs|]. split; [rewrite <-Hr; exact Hsent|].
  rewrite Hleft, app_nil_r in HP. exact HP.
Defined.

(** A dispatch that is completed twice in one batch is confirmed twice, which one request after the
    other is not: the second completion would be ignored. *)
Example completed_twice :
  let p := mkPendingCompletion 1 "a" (Succeeded []) in
  (exists commit c', complete_batch (E := model_env) [p 1%nat 0; p 2%nat 0] (Conn 0 example_results) =
     (Ok (commit, [(1%nat, Ok DCompleted); (2%nat, Ok DCompleted)]), c')) /\
  (complete_all 100 example_results [p 1%nat 0; p 2%nat 0]).1 = [DCompleted; Ignored].
Proof. split; [eexists _, _|]; vm_compute; reflexivity. Qed.
