(* ===== verification/WorkerSdk.v ===== *)
(** * The session of the worker SDK

    [crates/worker-sdk/src/lib.rs]: [serve] reads frames, spawns a task per job ([execute_job]), and
    drains when it is asked to shut down. What tokio decides - which task runs next, when bytes
    arrive in which pieces, when a frame has been written, when the caller's [shutdown] is ready -
    are events, in any order. A [read_async_frame] that has consumed bytes of a frame and is
    dropped by [tokio::select!] loses them: [read_exact] is not cancellation safe. *)
From S2P Require Import Prelude Protocol.

(** The state of [read_async_frame] on the bytes it has consumed and those that are there: it has
    consumed them all when the frame is not complete. *)
Inductive poll_result : Type :=
| Pending (consumed : bytes)
| Ready (r : result ProtocolError WireFrame) (rest : bytes).

Definition poll_async_frame `{Cbor} (consumed available : bytes) : poll_result :=
  let all := consumed ++ available in
  if decide (length all < 4)%nat then Pending all
  else
    let size := from_be_bytes (take 4 all) in
    if decide (MAX_FRAME_BYTES < size) then Ready (Err FrameTooLarge) (drop 4 all)
    else
      let n := (4 + Z.to_nat size)%nat in
      if decide (length all < n)%nat then Pending all
      else Ready (decode_frame (take n all)) (drop n all).

Inductive SessionState : Type := Serving | AwaitingDrain | SDraining.
#[export] Instance SessionState_eq_dec : EqDecision SessionState.
Proof. solve_decision. Defined.

(** [execute_job]: not started or waiting for a slot, in the handler (holding a slot), waiting for
    its report to be written ([send_and_wait]), finished. *)
Inductive task_phase : Type := TNew (payload : bytes) | TRunning | TReporting | TWritten.

Record task := mkTask { t_job_id : Z; t_dispatch_id : string; t_execution_count : Z; t_phase : task_phase }.

(** Who waits until a frame is written *)
Inductive waiter : Type := WServe | WTask (key : nat).

Inductive WorkerRunError : Type :=
| Stopped
| Configuration (message : string)
| Remote (code message : string)
| EProtocol (error : ProtocolError)
| RunIo (message : string)
| RunTls (message : string).

(** The session: [se_blocked] while [serve] waits for its [Drain] frame to be written; the tasks of
    the [JoinSet]; the free permits of the semaphore; the frames queued for the writer and those it
    has written; the bytes the current [read_async_frame] has consumed and those still in the
    socket; and, for the specification only, the jobs spawned so far. *)
Record session := mkSession {
  se_state : SessionState;
  se_blocked : bool;
  se_tasks : gmap nat task;
  se_next : nat;
  se_slots : Z;
  se_outbound : list (WorkerMessage * option waiter);
  se_written : list WorkerMessage;
  se_buffer : bytes;
  se_socket : bytes;
  se_spawned : list (Z * string)
}.

Inductive sdk_event : Type :=
| EvShutdown                                     (* [shutdown] is ready *)
| EvWriterDead                                   (* [writer_alive] changed *)
| EvJoin (key : nat)                             (* [join_next] gives this task *)
| EvPanic (key : nat)                            (* its handler panicked *)
| EvBytes (b : bytes)                            (* bytes arrive *)
| EvClosed                                       (* the stream ends *)
| EvRun (key : nat)                              (* the task decodes its payload and asks for a slot *)
| EvHandler (key : nat) (r : result string bytes) (* its handler returns *)
| EvWritten                                      (* the writer has written a frame *)
| EvHeartbeat.                                   (* the heartbeat interval ticks *)

(** Field updates *)
Definition se_set_state (x : SessionState) (s : session) : session :=
  mkSession x (se_blocked s) (se_tasks s) (se_next s) (se_slots s) (se_outbound s) (se_written s) (se_buffer s)
    (se_socket s) (se_spawned s).
Definition se_set_blocked (x : bool) (s : session) : session :=
  mkSession (se_state s) x (se_tasks s) (se_next s) (se_slots s) (se_outbound s) (se_written s) (se_buffer s)
    (se_socket s) (se_spawned s).
Definition se_set_tasks (x : gmap nat task) (slots : Z) (s : session) : session :=
  mkSession (se_state s) (se_blocked s) x (se_next s) slots (se_outbound s) (se_written s) (se_buffer s)
    (se_socket s) (se_spawned s).
Definition se_set_outbound (x : list (WorkerMessage * option waiter)) (s : session) : session :=
  mkSession (se_state s) (se_blocked s) (se_tasks s) (se_next s) (se_slots s) x (se_written s) (se_buffer s)
    (se_socket s) (se_spawned s).
Definition se_set_written (x : list WorkerMessage) (s : session) : session :=
  mkSession (se_state s) (se_blocked s) (se_tasks s) (se_next s) (se_slots s) (se_outbound s) x (se_buffer s)
    (se_socket s) (se_spawned s).
Definition se_set_bytes (buffer socket : bytes) (s : session) : session :=
  mkSession (se_state s) (se_blocked s) (se_tasks s) (se_next s) (se_slots s) (se_outbound s) (se_written s) buffer
    socket (se_spawned s).

Definition set_phase (p : task_phase) (t : task) : task :=
  mkTask (t_job_id t) (t_dispatch_id t) (t_execution_count t) p.

Section sdk.
(** [serde_json::from_slice] for the payload type of the worker: the error when it fails *)
Context `{Cb : Cbor} (json_error : bytes -> option string).
Context (queue_name : string) (concurrency : Z).

(** [outbound.send(..)] *)
Definition se_send (message : WorkerMessage) (w : option waiter) (s : session) : session :=
  se_set_outbound (se_outbound s ++ [(message, w)]) s.

(** [jobs.spawn(execute_job(..))] *)
Definition spawn_job (job_id : Z) (dispatch_id : string) (execution_count : Z) (payload : bytes) (s : session) : session :=
  mkSession (se_state s) (se_blocked s)
    (<[se_next s := mkTask job_id dispatch_id execution_count (TNew payload)]> (se_tasks s)) (S (se_next s)) (se_slots s)
    (se_outbound s) (se_written s) (se_buffer s) (se_socket s) (se_spawned s ++ [(job_id, dispatch_id)]).

(** [report]: the slots as they are now *)
Definition report (key : nat) (t : task) (r : result string bytes) (s : session) : session :=
  let free_slots := se_slots s in
  let outcome := match r with Ok payload => JSucceeded payload | Err message => JFailed message end in
  se_send (JobResultMsg (t_job_id t) (t_dispatch_id t) outcome (u32_saturating_sub concurrency free_slots) free_slots)
    (Some (WTask key)) (se_set_tasks (<[key := set_phase TReporting t]> (se_tasks s)) (se_slots s) s).

(** The match on a message in [serve] *)
Definition handle_message (message : WorkerMessage) (s : session) : session * option WorkerRunError :=
  match message with
  | Registered registered =>
      if decide (registered = queue_name) then (s, None) else (s, Some (Configuration "unexpected worker frame"))
  | JobDispatch job_id dispatch_id execution_count payload =>
      if decide (se_state s = SDraining) then (s, Some (Configuration "unexpected worker frame"))
      else (spawn_job job_id dispatch_id execution_count payload s, None)
  | Draining =>
      if decide (se_state s = AwaitingDrain) then (se_set_state SDraining s, None)
      else (s, Some (Configuration "unexpected worker frame"))
  | ErrorMsg code message => (s, Some (Remote code message))
  | Heartbeat => (s, None)
  | _ => (s, Some (Configuration "unexpected worker frame"))
  end.

(** The iterations of the loop that the available bytes allow: [None] while the session runs. Each
    frame has at least four bytes, so the length of the bytes is enough fuel. *)
Fixpoint serve_loop (fuel : nat) (s : session) : session * option (result WorkerRunError unit) :=
  if decide (se_state s = SDraining /\ se_tasks s = ∅) then (s, Some (Ok tt))
  else
    match poll_async_frame (se_buffer s) (se_socket s) with
    | Pending consumed => (se_set_bytes consumed [] s, None)
    | Ready (Err e) rest => (se_set_bytes [] rest s, Some (Err (EProtocol e)))
    | Ready (Ok frame) rest =>
        match handle_message (payload frame) (se_set_bytes [] rest s) with
        | (s, Some e) => (s, Some (Err e))
        | (s, None) =>
            match fuel with
            | O => (s, None)
            | S fuel => serve_loop fuel s
            end
        end
    end.

(** Go round the loop again, unless [serve] is waiting for its [Drain] frame. *)
Definition serve_again (s : session) : session * option (result WorkerRunError unit) :=
  if se_blocked s then (s, None)
  else serve_loop (length (se_buffer s) + length (se_socket s)) s.

(** Another branch of [select!] was taken: the read is dropped with the bytes it has consumed. *)
Definition drop_read (s : session) : session := se_set_bytes [] (se_socket s) s.

(** [execute_job] up to its handler *)
Definition run_task (key : nat) (s : session) : session :=
  match se_tasks s !! key with
  | Some t =>
      match t_phase t with
      | TNew payload =>
          match json_error payload with
          | Some err => report key t (Err ("invalid job payload: " +:+ err)) s
          | None =>
              if 0 <? se_slots s
              then se_set_tasks (<[key := set_phase TRunning t]> (se_tasks s)) (se_slots s - 1) s
              else s
          end
      | _ => s
      end
  | None => s
  end.

(** [execute_job] after its handler *)
Definition finish_task (key : nat) (r : result string bytes) (s : session) : session :=
  match se_tasks s !! key with
  | Some t =>
      match t_phase t with
      | TRunning => report key t r (se_set_tasks (se_tasks s) (se_slots s + 1) s)
      | _ => s
      end
  | None => s
  end.

Definition phase_of (key : nat) (s : session) : option task_phase := t_phase <$> se_tasks s !! key.

(** What an event does; an event that cannot happen does nothing. *)
Definition serve_event (e : sdk_event) (s : session) : session * option (result WorkerRunError unit) :=
  match e with
  | EvShutdown =>
      if decide (se_state s = Serving /\ se_blocked s = false)
      then (se_set_blocked true (se_send Drain (Some WServe) (drop_read s)), None) else (s, None)
  | EvWriterDead => (s, Some (Err Stopped))
  | EvJoin key =>
      match phase_of key s, se_blocked s with
      | Some TWritten, false => serve_again (drop_read (se_set_tasks (delete key (se_tasks s)) (se_slots s) s))
      | _, _ => (s, None)
      end
  | EvPanic key =>
      match phase_of key s, se_blocked s with
      | Some TRunning, false => (s, Some (Err Stopped))
      | _, _ => (s, None)
      end
  | EvBytes b => serve_again (se_set_bytes (se_buffer s) (se_socket s ++ b) s)
  | EvClosed => if se_blocked s then (s, None) else (s, Some (Err (EProtocol (Io "early eof"))))
  | EvRun key => (run_task key s, None)
  | EvHandler key r => (finish_task key r s, None)
  | EvWritten =>
      match se_outbound s with
      | [] => (s, None)
      | (message, w) :: rest =>
          let s := se_set_written (se_written s ++ [message]) (se_set_outbound rest s) in
          match w with
          | None => (s, None)
          | Some WServe => serve_again (se_set_state AwaitingDrain (se_set_blocked false s))
          | Some (WTask key) =>
              (se_set_tasks (alter (set_phase TWritten) key (se_tasks s)) (se_slots s) s, None)
          end
      end
  | EvHeartbeat => (se_send Heartbeat None s, None)
  end.

(** The events in order, until the session ends *)
Fixpoint serve (events : list sdk_event) (s : session) : session * option (result WorkerRunError unit) :=
  match events with
  | [] => (s, None)
  | e :: events =>
      match serve_event e s with
      | (s, None) => serve events s
      | ended => ended
      end
  end.

(** [run_until] once it is connected: the registration has been written, all slots are free. *)
Definition session_new (instance_id : Z) : session :=
  mkSession Serving false ∅ 0 concurrency [] [Register instance_id queue_name 0 concurrency] [] [] [].
End sdk.
