(* ===== verification/WorkerSdkProps.v ===== *)
(** * The session of the worker SDK: properties

    Every job the session accepts is executed under a slot and reported exactly once, and a session
    that ends well has written all its reports; but a frame that is only partly read when a job
    finishes is lost. *)
From S2P Require Import Prelude Protocol WorkerSdk.

(** ** Accounts of the jobs *)

Definition executing_phase (p : task_phase) : bool :=
  match p with TNew _ | TRunning => true | _ => false end.
Definition running_phase (p : task_phase) : bool := match p with TRunning => true | _ => false end.

Definition job_of (t : task) : Z * string := (t_job_id t, t_dispatch_id t).

(** The tasks in a phase *)
Definition tasks_in (P : task_phase -> bool) (tasks : gmap nat task) : list task :=
  filter (fun t => P (t_phase t) = true) (map_to_list tasks).*2.

(** The job a frame reports *)
Definition report_of (m : WorkerMessage) : option (Z * string) :=
  match m with JobResultMsg job_id dispatch_id _ _ _ => Some (job_id, dispatch_id) | _ => None end.

Definition reports (l : list WorkerMessage) : list (Z * string) := omap report_of l.

Lemma reports_app l1 l2 : reports (l1 ++ l2) = reports l1 ++ reports l2.
Proof. apply omap_app. Qed.

(** A frame tells slots that add up. *)
Definition slots_add_up (concurrency : Z) (m : WorkerMessage) : Prop :=
  match m with
  | JobResultMsg _ _ _ running_jobs free_slots => 0 <= free_slots /\ 0 <= running_jobs /\ running_jobs + free_slots = concurrency
  | _ => True
  end.

Definition waits_for (ow : WorkerMessage * option waiter) : option nat :=
  match ow.2 with Some (WTask key) => Some key | _ => None end.

Lemma tasks_in_insert P tasks key t :
  tasks !! key = None -> tasks_in P (<[key := t]> tasks) ≡ₚ (if P (t_phase t) then [t] else []) ++ tasks_in P tasks.
Proof.
  intros Hk. unfold tasks_in. rewrite (map_to_list_insert _ _ _ Hk). rewrite fmap_cons, filter_cons. simpl.
  destruct (P (t_phase t)); [by rewrite decide_True by done|by rewrite decide_False by done].
Qed.

Lemma tasks_in_delete P tasks key t :
  tasks !! key = Some t -> tasks_in P tasks ≡ₚ (if P (t_phase t) then [t] else []) ++ tasks_in P (delete key tasks).
Proof.
  intros Hk. rewrite <-(insert_delete_id tasks key t Hk) at 1. by rewrite tasks_in_insert by apply lookup_delete_eq.
Qed.

Lemma tasks_in_update P tasks key t t' :
  tasks !! key = Some t ->
  exists rest, tasks_in P tasks ≡ₚ (if P (t_phase t) then [t] else []) ++ rest /\
    tasks_in P (<[key := t']> tasks) ≡ₚ (if P (t_phase t') then [t'] else []) ++ rest.
Proof.
  intros Hk. exists (tasks_in P (delete key tasks)). split; [by apply tasks_in_delete|].
  rewrite <-insert_delete_eq. by rewrite tasks_in_insert by apply lookup_delete_eq.
Qed.

Section props.
Context `{Cb : Cbor} (json_error : bytes -> option string).
Context (queue_name : string) (concurrency : Z) (Hconc : 0 <= concurrency).

(** What holds of a session after any events. *)
Record session_ok (s : session) : Prop := {
  so_fresh : forall key, (se_next s <= key)%nat -> se_tasks s !! key = None;
  so_slots : 0 <= se_slots s /\ se_slots s + Z.of_nat (length (tasks_in running_phase (se_tasks s))) = concurrency;
  so_jobs : se_spawned s ≡ₚ (job_of <$> tasks_in executing_phase (se_tasks s)) ++ reports (se_outbound s).*1 ++
    reports (se_written s);
  so_waits : NoDup (omap waits_for (se_outbound s));
  so_waiting : forall m key, (m, Some (WTask key)) ∈ se_outbound s -> exists t,
    se_tasks s !! key = Some t /\ t_phase t = TReporting;
  so_reports : forall m w, (m, w) ∈ se_outbound s -> is_Some (report_of m) -> exists key, w = Some (WTask key);
  so_sums : Forall (slots_add_up concurrency) ((se_outbound s).*1 ++ se_written s);
  so_drain : se_state s = Serving -> (Drain, Some WServe) ∈ se_outbound s \/ se_blocked s = false;
  so_drained : se_state s <> Serving -> Drain ∈ se_written s;
  so_serve : forall m, (m, Some WServe) ∈ se_outbound s -> m = Drain
}.

(** The parts of a session [session_ok] speaks of *)
Definition accounted (s : session) :=
  (se_state s, se_blocked s, se_tasks s, se_next s, se_slots s, se_outbound s, se_written s, se_spawned s).

Lemma session_ok_eq s s' : accounted s' = accounted s -> session_ok s -> session_ok s'.
Proof.
  destruct s, s'. unfold accounted. simpl. intros [= -> -> -> -> -> -> -> ->] [? ? ? ? ? ? ? ? ? ?].
  split; done.
Qed.

Lemma session_new_ok instance_id : session_ok (session_new queue_name concurrency instance_id).
Proof.
  split; simpl; try done; try set_solver.
  - split; [done|]. unfold tasks_in. rewrite map_to_list_empty. simpl. lia.
  - by repeat constructor.
  - by right.
Qed.

(** *** The steps *)

Lemma spawn_job_ok job_id dispatch_id count payload s :
  session_ok s -> session_ok (spawn_job job_id dispatch_id count payload s).
Proof.
  intros [Hf Hs Hj Hw Hwt Hr Hsum Hd Hd2 Hsv].
  assert (se_tasks s !! se_next s = None) as Hnew by (apply Hf; lia).
  split; simpl; try done.
  - intros key Hk. rewrite lookup_insert_ne by lia. apply Hf. lia.
  - by rewrite (Permutation_length (tasks_in_insert running_phase _ _ _ Hnew)).
  - rewrite (tasks_in_insert executing_phase _ _ _ Hnew). simpl. rewrite Hj, Permutation_app_comm. done.
  - intros m key Hin. destruct (Hwt m key Hin) as (t & Ht & Hp). exists t. split; [|done].
    rewrite lookup_insert_ne; [done|]. intros <-. congruence.
Qed.

(** A task that executes reports: it leaves the executing ones, and its frame is queued. *)
Lemma report_ok key t slots r s :
  se_tasks s !! key = Some t -> executing_phase (t_phase t) = true ->
  0 <= slots -> slots + Z.of_nat (length (tasks_in running_phase (<[key := set_phase TReporting t]> (se_tasks s)))) = concurrency ->
  session_ok s -> session_ok (report concurrency key t r (se_set_tasks (se_tasks s) slots s)).
Proof.
  intros Ht Hex H0 Hsl [Hf Hs Hj Hw Hwt Hr Hsum Hd Hd2 Hsv].
  assert (key ∉ omap waits_for (se_outbound s)) as Hnot.
  { intros ([m w] & Hin & Hwk)%list_elem_of_omap. unfold waits_for in Hwk. simpl in Hwk.
    destruct w as [[|k]|]; simplify_eq. destruct (Hwt m key Hin) as (t' & Ht' & Hp). rewrite Ht in Ht'.
    injection Ht' as <-. by rewrite Hp in Hex. }
  split; simpl; try done.
  - intros k Hk. rewrite lookup_insert_ne; [by apply Hf|]. intros ->. rewrite Hf in Ht; done.
  - destruct (tasks_in_update executing_phase _ _ _ (set_phase TReporting t) Ht) as (rest & H1 & H2).
    rewrite H2. simpl. rewrite Hj, H1, Hex. rewrite fmap_app. unfold reports at 3. rewrite fmap_app, omap_app.
    simpl. rewrite <-!app_assoc. simpl.
    by rewrite (app_assoc _ (reports _) (_ :: _)), <-Permutation_middle, <-app_assoc.
  - rewrite omap_app. simpl. apply NoDup_app. split; [done|]. split; [|apply NoDup_singleton].
    intros k Hk ->%list_elem_of_singleton. done.
  - intros m k [Hin|Hin]%elem_of_app.
    + destruct (Hwt m k Hin) as (t' & Ht' & Hp). exists t'. split; [|done]. rewrite lookup_insert_ne; [done|].
      intros ->. rewrite Ht in Ht'. injection Ht' as <-. by rewrite Hp in Hex.
    + apply list_elem_of_singleton in Hin as [= -> ->]. eexists. split; [apply lookup_insert_eq|done].
  - intros m w [Hin|Hin]%elem_of_app; [by apply Hr|]. apply list_elem_of_singleton in Hin as [= -> ->]. by exists key.
  - rewrite fmap_app, <-app_assoc. apply Forall_app in Hsum as [? ?]. apply Forall_app. split; [done|].
    constructor; [|done]. simpl; unfold u32_saturating_sub; lia.
  - intros Hst. destruct (Hd Hst); [left|by right]. by apply elem_of_app; left.
  - intros m [Hin|Hin]%elem_of_app; [by apply Hsv|]. by apply list_elem_of_singleton in Hin.
Qed.

Lemma run_task_ok key s : session_ok s -> session_ok (run_task json_error concurrency key s).
Proof.
  intros Hok. unfold run_task. destruct (se_tasks s !! key) as [t|] eqn:Ht; [|done].
  destruct (t_phase t) as [payload| | |] eqn:Hp; try done. destruct (json_error payload) as [err|].
  - pose proof (so_slots _ Hok) as [Hs1 Hs2].
    assert (se_set_tasks (se_tasks s) (se_slots s) s = s) as Heq by by destruct s.
    rewrite <-Heq at 1. apply report_ok; [done|by rewrite Hp|done| |done].
    destruct (tasks_in_update running_phase _ _ _ (set_phase TReporting t) Ht) as (rest & H1 & H2).
    rewrite H1, Hp in Hs2. by rewrite H2.
  - destruct (Z.ltb_spec 0 (se_slots s)) as [Hlt|]; [|done]. destruct Hok as [Hf Hs Hj Hw Hwt Hr Hsum Hd Hd2 Hsv].
    destruct (tasks_in_update running_phase _ _ _ (set_phase TRunning t) Ht) as (rest & H1 & H2).
    destruct (tasks_in_update executing_phase _ _ _ (set_phase TRunning t) Ht) as (rest' & H3 & H4).
    rewrite Hp in H1, H3. simpl in H1, H2, H3, H4. split; simpl; try done.
    + intros k Hk. rewrite lookup_insert_ne; [by apply Hf|]. intros ->. rewrite Hf in Ht; done.
    + rewrite H1 in Hs. rewrite H2. simpl. lia.
    + rewrite H4. rewrite Hj, H3. done.
    + intros m k Hin. destruct (Hwt m k Hin) as (t' & Ht' & Hp'). exists t'. split; [|done].
      rewrite lookup_insert_ne; [done|]. intros ->. congruence.
Qed.

Lemma finish_task_ok key r s : session_ok s -> session_ok (finish_task concurrency key r s).
Proof.
  intros Hok. unfold finish_task. destruct (se_tasks s !! key) as [t|] eqn:Ht; [|done].
  destruct (t_phase t) eqn:Hp; try done. pose proof (so_slots _ Hok) as [Hs1 Hs2].
  apply report_ok; [done|by rewrite Hp|lia| |done].
  destruct (tasks_in_update running_phase _ _ _ (set_phase TReporting t) Ht) as (rest & H1 & H2).
  rewrite H1, Hp in Hs2. rewrite H2. simpl in *. lia.
Qed.

Lemma tasks_in_alter P tasks key t t' :
  tasks !! key = Some t -> P (t_phase t) = false -> P (t_phase t') = false ->
  tasks_in P (<[key := t']> tasks) ≡ₚ tasks_in P tasks.
Proof.
  intros Ht H1 H2. destruct (tasks_in_update P _ _ _ t' Ht) as (rest & -> & ->). by rewrite H1, H2.
Qed.

(** A frame has been written. *)
Lemma written_ok m w rest s :
  se_outbound s = (m, w) :: rest -> session_ok s ->
  session_ok (let s' := se_set_written (se_written s ++ [m]) (se_set_outbound rest s) in
    match w with
    | None => s'
    | Some WServe => se_set_state AwaitingDrain (se_set_blocked false s')
    | Some (WTask key) => se_set_tasks (alter (set_phase TWritten) key (se_tasks s')) (se_slots s') s'
    end).
Proof.
  intros Hout [Hf Hs Hj Hw Hwt Hr Hsum Hd Hd2 Hsv]. rewrite Hout in *.
  assert (se_spawned s ≡ₚ (job_of <$> tasks_in executing_phase (se_tasks s)) ++ reports rest.*1 ++
    reports (se_written s ++ [m])) as Hj'.
  { rewrite Hj. apply Permutation_app_head. unfold reports. rewrite omap_app. simpl.
    destruct (report_of m); simpl; [|by rewrite app_nil_r].
    rewrite app_assoc. apply Permutation_cons_append. }
  assert (Forall (slots_add_up concurrency) (rest.*1 ++ se_written s ++ [m])) as Hsum'.
  { rewrite app_assoc. simpl in Hsum. rewrite <-Permutation_cons_append. exact Hsum. }
  assert (Drain ∈ se_written s -> Drain ∈ se_written s ++ [m]) as Hdr by set_solver.
  destruct w as [[|key]|].
  - assert (m = Drain) as -> by (apply Hsv; left).
    split; simpl; try done.
    + intros m' key Hin. apply (Hwt m'). by right.
    + intros m' w' Hin. apply Hr. by right.
    + intros _. set_solver.
    + intros m' Hin. apply Hsv. by right.
  - destruct (Hwt m key ltac:(left)) as (t & Ht & Hp).
    assert (alter (set_phase TWritten) key (se_tasks s) = <[key := set_phase TWritten t]> (se_tasks s)) as Halt.
    { apply map_eq. intros k. destruct (decide (k = key)) as [->|Hne].
      - by rewrite lookup_alter_eq, lookup_insert_eq, Ht.
      - by rewrite lookup_alter_ne, lookup_insert_ne by done. }
    simpl in Hw. apply NoDup_cons in Hw as [Hkey Hw].
    assert (forall m' k, (m', Some (WTask k)) ∈ rest -> k <> key) as Hother.
    { intros m' k Hin ->. apply Hkey. apply list_elem_of_omap. by exists (m', Some (WTask key)). }
    split; simpl; rewrite ?Halt; try done.
    + intros k Hk. rewrite lookup_insert_ne; [by apply Hf|]. intros ->. rewrite Hf in Ht; done.
    + rewrite (tasks_in_alter _ _ _ t); [done|done|by rewrite Hp|done].
    + rewrite (tasks_in_alter _ _ _ t); [done|done|by rewrite Hp|done].
    + intros m' k Hin. pose proof (Hother _ _ Hin). rewrite lookup_insert_ne by done. apply (Hwt m'). by right.
    + intros m' w' Hin. apply Hr. by right.
    + intros Hst. destruct (Hd Hst) as [Hin|]; [|by right]. left. apply elem_of_cons in Hin as [|]; done.
    + intros Hst. auto.
    + intros m' Hin. apply Hsv. by right.
  - split; simpl; try done.
    + intros m' key Hin. apply (Hwt m'). by right.
    + intros m' w' Hin. apply Hr. by right.
    + intros Hst. destruct (Hd Hst) as [Hin|]; [|by right]. left. apply elem_of_cons in Hin as [|]; done.
    + intros Hst. auto.
    + intros m' Hin. apply Hsv. by right.
Qed.

Lemma join_ok key s :
  phase_of key s = Some TWritten -> session_ok s ->
  session_ok (drop_read (se_set_tasks (delete key (se_tasks s)) (se_slots s) s)).
Proof.
  unfold phase_of. intros (t & Ht & Hp)%fmap_Some_1 [Hf Hs Hj Hw Hwt Hr Hsum Hd Hd2 Hsv].
  assert (forall P, P TWritten = false -> tasks_in P (delete key (se_tasks s)) ≡ₚ tasks_in P (se_tasks s)) as Htasks.
  { intros P HP. rewrite (tasks_in_delete P _ _ _ Ht). rewrite <-Hp, HP || rewrite <-Hp in *. by rewrite ?HP. }
  split; simpl; try done.
  - intros k Hk. rewrite lookup_delete_None. right. by apply Hf.
  - by rewrite Htasks.
  - by rewrite Htasks.
  - intros m k Hin. destruct (Hwt m k Hin) as (t' & Ht' & Hp'). exists t'. split; [|done].
    rewrite lookup_delete_ne; [done|]. intros ->. congruence.
Qed.

Lemma handle_message_ok m s s' e :
  session_ok s -> se_blocked s = false -> handle_message queue_name m s = (s', e) ->
  session_ok s' /\ se_blocked s' = false.
Proof.
  intros Hok Hb. unfold handle_message.
  destruct m; try (case_decide); intros [= <- <-]; try done; (split; [|done]); [by apply spawn_job_ok|].
  destruct Hok as [Hf Hs Hj Hw Hwt Hr Hsum Hd Hd2 Hsv]. split; simpl; try done. intros _. apply Hd2. congruence.
Qed.

Lemma serve_loop_ok fuel s :
  session_ok s -> se_blocked s = false ->
  session_ok (serve_loop queue_name fuel s).1 /\
  ((serve_loop queue_name fuel s).2 = Some (Ok tt) ->
    se_state (serve_loop queue_name fuel s).1 = SDraining /\ se_tasks (serve_loop queue_name fuel s).1 = ∅).
Proof.
  revert s. induction fuel as [|fuel IH]; intros s Hok Hb; simpl; (case_decide; [done|]);
    (destruct (poll_async_frame _ _) as [consumed|[frame|e] rest]; simpl;
      [split; [by apply (session_ok_eq s)|done]| |split; [by apply (session_ok_eq s)|done]]);
    (destruct (handle_message _ _ _) as [s' [e|]] eqn:Hm;
      (apply handle_message_ok in Hm as [Hok' Hb']; [|by apply (session_ok_eq s)|done]); simpl); try done.
  by apply IH.
Qed.

Lemma serve_again_ok s :
  session_ok s ->
  session_ok (serve_again queue_name s).1 /\
  ((serve_again queue_name s).2 = Some (Ok tt) ->
    se_state (serve_again queue_name s).1 = SDraining /\ se_tasks (serve_again queue_name s).1 = ∅).
Proof. intros Hok. unfold serve_again. destruct (se_blocked s) eqn:Hb; [done|]. by apply serve_loop_ok. Qed.

Lemma serve_event_ok e s :
  session_ok s ->
  let out := serve_event json_error queue_name concurrency e s in
  session_ok out.1 /\ (out.2 = Some (Ok tt) -> se_state out.1 = SDraining /\ se_tasks out.1 = ∅).
Proof.
  intros Hok. destruct e as [| |key|key|b| |key|key r| |]; simpl; try done.
  - case_decide as Hst; [|done]. split; [|done]. destruct Hst as [Hst Hb].
    destruct Hok as [Hf Hs Hj Hw Hwt Hr Hsum Hd Hd2 Hsv]. split; simpl; try done.
    + rewrite fmap_app, reports_app. simpl. by rewrite app_nil_r.
    + rewrite omap_app. simpl. by rewrite app_nil_r.
    + intros m key [Hin|Hin]%elem_of_app; [by apply (Hwt m)|]. by apply list_elem_of_singleton in Hin.
    + intros m w [Hin|Hin]%elem_of_app; [by apply (Hr m)|].
      apply list_elem_of_singleton in Hin as [= -> ->]. by intros [].
    + rewrite fmap_app, <-app_assoc. apply Forall_app in Hsum as [? ?]. apply Forall_app. split; [done|].
      by constructor.
    + intros _. left. set_solver.
    + intros m [Hin|Hin]%elem_of_app; [by apply Hsv|]. by apply list_elem_of_singleton in Hin as [= ->].
  - destruct (phase_of key s) as [[]|] eqn:Hp; try done. destruct (se_blocked s); [done|].
    by apply serve_again_ok, join_ok.
  - destruct (phase_of key s) as [[]|]; try done. by destruct (se_blocked s).
  - apply serve_again_ok. by apply (session_ok_eq s).
  - by destruct (se_blocked s).
  - split; [by apply run_task_ok|done].
  - split; [by apply finish_task_ok|done].
  - destruct (se_outbound s) as [|[m w] rest] eqn:Hout; [done|].
    pose proof (written_ok m w rest s Hout Hok) as Hok'. cbn zeta in Hok'.
    destruct w as [[|key]|]; [by apply serve_again_ok|done|done].
  - split; [|done]. destruct Hok as [Hf Hs Hj Hw Hwt Hr Hsum Hd Hd2 Hsv]. split; simpl; try done.
    + rewrite fmap_app, reports_app. simpl. by rewrite app_nil_r.
    + rewrite omap_app. simpl. by rewrite app_nil_r.
    + intros m key [Hin|Hin]%elem_of_app; [by apply (Hwt m)|]. by apply list_elem_of_singleton in Hin.
    + intros m w [Hin|Hin]%elem_of_app; [by apply (Hr m)|].
      apply list_elem_of_singleton in Hin as [= -> ->]. by intros [].
    + rewrite fmap_app, <-app_assoc. apply Forall_app in Hsum as [? ?]. apply Forall_app. split; [done|].
      by constructor.
    + intros Hst. destruct (Hd Hst); [left; set_solver|by right].
    + intros m [Hin|Hin]%elem_of_app; [by apply Hsv|]. by apply list_elem_of_singleton in Hin as [= ->].
Qed.

Lemma serve_ok events s :
  session_ok s ->
  let out := serve json_error queue_name concurrency events s in
  session_ok out.1 /\ (out.2 = Some (Ok tt) -> se_state out.1 = SDraining /\ se_tasks out.1 = ∅).
Proof.
  revert s. induction events as [|e events IH]; intros s Hok; simpl; [done|].
  pose proof (serve_event_ok e s Hok) as He. cbn zeta in He.
  destruct (serve_event _ _ _ e s) as [s' [r|]]; simpl in *; [done|]. by apply IH, He.
Qed.

(** A session without tasks has nothing left to report. *)
Lemma no_tasks_no_reports s :
  session_ok s -> se_tasks s = ∅ -> se_spawned s ≡ₚ reports (se_written s).
Proof.
  intros Hok Ht. rewrite (so_jobs _ Hok), Ht. unfold tasks_in. rewrite map_to_list_empty. simpl.
  enough (reports (se_outbound s).*1 = []) as -> by done.
  enough (forall l, (forall m w, (m, w) ∈ l -> (m, w) ∈ se_outbound s) -> reports l.*1 = []) as H by by apply H.
  induction l as [|[m w] l IH]; [done|]. intros Hin. simpl. destruct (report_of m) eqn:Hm.
  - destruct (so_reports _ Hok m w) as [key ->]; [apply Hin; left|by eexists|].
    destruct (so_waiting _ Hok m key) as (t & H & _); [apply Hin; left|]. by rewrite Ht in H.
  - apply IH. intros m' w' H. apply Hin. by right.
Qed.
End props.

(** C28. Whatever happens to a session, in whatever order: the handlers running and the free slots
    are the concurrency, which is what every report tells the server; and every job the session
    has accepted is either still executing, or has exactly one report, queued or written. When the
    session ends well, it has written [Drain] and the one report of each job. *)
Theorem sdk_reports_every_job `{Cbor} json_error queue_name concurrency instance_id events s r :
  0 <= concurrency ->
  serve json_error queue_name concurrency events (session_new queue_name concurrency instance_id) = (s, r) ->
  0 <= se_slots s /\
  se_slots s + Z.of_nat (length (tasks_in running_phase (se_tasks s))) = concurrency /\
  Forall (slots_add_up concurrency) ((se_outbound s).*1 ++ se_written s) /\
  se_spawned s ≡ₚ (job_of <$> tasks_in executing_phase (se_tasks s)) ++ reports (se_outbound s).*1 ++
    reports (se_written s) /\
  (r = Some (Ok tt) -> Drain ∈ se_written s /\ se_spawned s ≡ₚ reports (se_written s)).
Proof.
  intros Hc Hrun.
  pose proof (serve_ok json_error queue_name concurrency Hc events _ (session_new_ok queue_name concurrency Hc instance_id))
    as Hok.
  rewrite Hrun in Hok. cbn zeta in Hok. cbn [fst snd] in Hok. destruct Hok as [Hok Hend].
  split; [apply Hok|]. split; [apply Hok|]. split; [apply Hok|]. split; [apply Hok|].
  intros Hr. destruct (Hend Hr) as [Hst Ht]. split.
  - apply (so_drained _ _ Hok). by rewrite Hst.
  - by apply (no_tasks_no_reports concurrency).
Qed.

(** ** Frames in pieces *)

Section pieces.
Context `{Cb : Cbor} (json_error : bytes -> option string).
Context (queue_name : string) (concurrency : Z).

Lemma poll_pending consumed b1 c :
  poll_async_frame consumed b1 = Pending c ->
  forall b2, poll_async_frame c b2 = poll_async_frame consumed (b1 ++ b2).
Proof.
  unfold poll_async_frame. rewrite <-?app_assoc. intros H b2. assert (c = consumed ++ b1) as ->.
  { repeat case_decide; simplify_eq/=; done. }
  by rewrite <-app_assoc.
Qed.

(** The length of a frame with less than 256 bytes *)
Lemma to_be_bytes_small n : 0 <= n < 256 -> to_be_bytes 4 n = [Byte.x00; Byte.x00; Byte.x00; byte_of n].
Proof.
  intros Hn. cbn [to_be_bytes app]. rewrite !(Z.shiftr_div_pow2 _ 8) by lia.
  rewrite (Z.div_small n) by (change (2 ^ 8) with 256; lia). done.
Qed.

(** What is left of a frame, read as a frame: never that frame. *)
Lemma poll_rest n body k :
  Z.of_nat (length body) = n -> 0 < n < 256 -> (1 <= k <= 3)%nat ->
  let rest := drop k (to_be_bytes 4 n ++ body) in
  poll_async_frame [] rest = Pending rest \/ exists after, poll_async_frame [] rest = Ready (Err FrameTooLarge) after.
Proof.
  intros Hl Hn Hk rest. unfold poll_async_frame. simpl.
  assert (length rest = (4 + length body - k)%nat) as Hlen
    by (unfold rest; rewrite length_drop, length_app, length_to_be_bytes; done).
  case_decide as H4; [by left|]. case_decide as Hbig; [by right; eexists|].
  rewrite decide_True; [by left|].
  enough (n <= from_be_bytes (take 4 rest)) by lia.
  unfold rest. rewrite to_be_bytes_small by lia. clear Hbig.
  assert (byte_val (byte_of n) = n) as Hv by (rewrite byte_val_of; apply Z.mod_small; lia).
  assert (byte_val Byte.x00 = 0) as H0 by done.
  destruct body as [|b0 body]; [simpl in *; lia|]. pose proof (byte_val_bound b0).
  assert (k = 1 \/ k = 2 \/ k = 3)%nat as [-> | [-> | ->]] by lia.
  - unfold from_be_bytes. simpl. rewrite !Z.shiftl_mul_pow2 by lia. change (2 ^ 8) with 256. lia.
  - destruct body as [|b1 body]; [simpl in *; lia|]. pose proof (byte_val_bound b1).
    unfold from_be_bytes. simpl. rewrite !Z.shiftl_mul_pow2 by lia. change (2 ^ 8) with 256. lia.
  - destruct body as [|b1 body]; [simpl in *; lia|]. pose proof (byte_val_bound b1).
    destruct body as [|b2 body]; [simpl in *; lia|]. pose proof (byte_val_bound b2).
    unfold from_be_bytes. simpl. rewrite !Z.shiftl_mul_pow2 by lia. change (2 ^ 8) with 256. lia.
Qed.

(** A complete frame does not depend on what follows it. *)
Lemma poll_ready_app consumed b1 b2 r rest :
  poll_async_frame consumed b1 = Ready r rest -> poll_async_frame consumed (b1 ++ b2) = Ready r (rest ++ b2).
Proof.
  unfold poll_async_frame. rewrite app_assoc. set (all := consumed ++ b1). intros Hp.
  case_decide as H4; [done|]. rewrite decide_False by (rewrite length_app; lia).
  rewrite take_app_le by lia. case_decide as Hbig; [simplify_eq; by rewrite drop_app_le by lia|].
  case_decide as Hn; [done|]. rewrite decide_False by (rewrite length_app; lia). simplify_eq.
  by rewrite take_app_le, drop_app_le by lia.
Qed.

(** A complete frame has at least four bytes. *)
Lemma poll_ready_shorter consumed b r rest :
  poll_async_frame consumed b = Ready r rest -> (length rest + 4 <= length consumed + length b)%nat.
Proof.
  unfold poll_async_frame. rewrite <-length_app. set (all := consumed ++ b). intros Hp.
  case_decide; [done|]. case_decide; [simplify_eq; rewrite length_drop; lia|].
  case_decide; [done|]. simplify_eq. rewrite length_drop. lia.
Qed.

(** Messages are handled apart from the bytes. *)
Lemma handle_message_bytes m buffer socket s :
  handle_message queue_name m (se_set_bytes buffer socket s) =
    (se_set_bytes buffer socket (handle_message queue_name m s).1, (handle_message queue_name m s).2).
Proof. destruct m; simpl; try case_decide; done. Qed.

Definition se_bytes (s : session) : nat := length (se_buffer s) + length (se_socket s).

(** The fuel is enough when it is the number of bytes. *)
Lemma serve_loop_fuel f1 f2 s :
  (se_bytes s <= f1)%nat -> (se_bytes s <= f2)%nat -> serve_loop queue_name f1 s = serve_loop queue_name f2 s.
Proof.
  assert (forall f1 f2 s, (f1 <= f2)%nat -> (se_bytes s <= f1)%nat -> serve_loop queue_name f1 s = serve_loop queue_name f2 s) as Hle.
  { clear. intros f1. induction f1 as [|f1 IH]; intros f2 s Hf Hb.
    - assert (se_buffer s = [] /\ se_socket s = []) as [H1 H2].
      { unfold se_bytes in Hb. destruct (se_buffer s), (se_socket s); simpl in Hb; done || lia. }
      destruct f2; [done|]. simpl. rewrite H1, H2. case_decide; [done|]. done.
    - destruct f2 as [|f2]; [lia|]. simpl. case_decide; [done|].
      destruct (poll_async_frame _ _) as [|[frame|] rest] eqn:Hp; [done| |done]. rewrite handle_message_bytes.
      destruct (handle_message _ _ s) as [s' [e|]]; [done|]. cbn [fst snd]. apply IH; [lia|].
      apply poll_ready_shorter in Hp. unfold se_bytes in *. simpl. lia. }
  intros H1 H2. destruct (decide (f1 <= f2)%nat); [by apply Hle|]. symmetry. apply Hle; lia.
Qed.

Lemma serve_loop_pieces f1 b2 s s1 :
  (se_bytes s <= f1)%nat -> serve_loop queue_name f1 s = (s1, None) ->
  forall f2, (se_bytes s + length b2 <= f2)%nat ->
  serve_loop queue_name f2 (se_set_bytes (se_buffer s) (se_socket s ++ b2) s) =
    serve_loop queue_name f2 (se_set_bytes (se_buffer s1) (se_socket s1 ++ b2) s1) /\
  (se_bytes s1 <= se_bytes s)%nat /\ se_blocked s1 = se_blocked s.
Proof.
  revert s s1. induction f1 as [|f1 IH]; intros s s1 Hb Hs1 f2 Hf2; simpl in Hs1;
    (case_decide as Hd; [done|]); destruct (poll_async_frame _ _) as [consumed|[frame|e] rest] eqn:Hp; try done.
  - simplify_eq. split; [|split; [|done]].
    + destruct f2; simpl; rewrite decide_False, (decide_False (P := _ /\ _)) by done;
        by rewrite <-(poll_pending _ _ _ Hp b2).
    + unfold se_bytes. simpl. unfold poll_async_frame in Hp. repeat case_decide; simplify_eq; rewrite length_app; lia.
  - exfalso. apply poll_ready_shorter in Hp. unfold se_bytes in Hb. lia.
  - simplify_eq. split; [|split; [|done]].
    + destruct f2; simpl; rewrite decide_False, (decide_False (P := _ /\ _)) by done;
        by rewrite <-(poll_pending _ _ _ Hp b2).
    + unfold se_bytes. simpl. unfold poll_async_frame in Hp. repeat case_decide; simplify_eq; rewrite length_app; lia.
  - pose proof (poll_ready_shorter _ _ _ _ Hp) as Hshort. rewrite handle_message_bytes in Hs1.
    destruct (handle_message _ _ s) as [s' [e|]] eqn:Hm; [done|]. cbn [fst snd] in Hs1.
    assert (se_blocked s' = se_blocked s) as Hblk.
    { unfold handle_message in Hm. destruct (payload frame); try case_decide; by simplify_eq/=. }
    assert (se_bytes (se_set_bytes [] rest s') = length rest) as Hrest by done.
    destruct (IH (se_set_bytes [] rest s') s1 ltac:(unfold se_bytes in *; lia) Hs1 f2
      ltac:(unfold se_bytes in *; lia)) as (H1 & H2 & H3).
    split; [|split; [unfold se_bytes in *; simpl in *; lia|by rewrite H3]].
    rewrite <-H1. destruct f2 as [|f2]; [unfold se_bytes in *; lia|]. cbn [serve_loop].
    cbn [se_state se_tasks se_buffer se_socket se_set_bytes]. rewrite decide_False by done.
    rewrite (poll_ready_app _ _ b2 _ _ Hp). rewrite !handle_message_bytes, Hm. cbn [fst snd].
    change (serve_loop queue_name f2 (se_set_bytes [] (rest ++ b2) s') =
      serve_loop queue_name (S f2) (se_set_bytes [] (rest ++ b2) s')).
    apply serve_loop_fuel; unfold se_bytes in *; simpl; rewrite ?length_app; lia.
Qed.

(** An idle session that gets the first bytes of a length *)
Lemma serve_short fuel s b :
  se_state s = Serving -> se_buffer s = [] -> se_socket s = b -> (length b < 4)%nat ->
  serve_loop queue_name fuel s = (se_set_bytes b [] s, None).
Proof using Type.
  intros Hst Hbuf Hsock Hl. destruct fuel; simpl; rewrite Hst, Hbuf, Hsock, decide_False by (intros [? _]; done);
    unfold poll_async_frame; simpl; by rewrite decide_True.
Qed.
End pieces.

(** While nothing else happens to the session, frames may arrive in any pieces: two pieces are
    handled as their concatenation is. *)
Theorem bytes_may_arrive_in_pieces `{Cbor} json_error queue_name concurrency b1 b2 s s1 :
  serve json_error queue_name concurrency [EvBytes b1] s = (s1, None) ->
  serve json_error queue_name concurrency [EvBytes b1; EvBytes b2] s =
    serve json_error queue_name concurrency [EvBytes (b1 ++ b2)] s.
Proof.
  cbn [serve serve_event]. unfold serve_again. simpl. destruct (se_blocked s) eqn:Hb.
  { simpl. rewrite Hb. intros _. by rewrite app_assoc. }
  destruct (serve_loop _ _ _) as [s1' [r|]] eqn:Hs1; [done|]. intros _.
  destruct (serve_loop_pieces queue_name _ b2 _ _ (Nat.le_refl _) Hs1
    (length (se_buffer s) + length (se_socket s ++ b1 ++ b2))) as (H1 & H2 & H3).
  { unfold se_bytes. simpl. rewrite !length_app. lia. }
  cbn [se_set_bytes se_buffer se_socket se_blocked] in *. simpl in H3. rewrite H3, Hb.
  rewrite (serve_loop_fuel queue_name _ (length (se_buffer s) + length (se_socket s ++ b1 ++ b2))).
  - change (se_set_bytes ?x ?y (se_set_bytes _ _ s)) with (se_set_bytes x y s) in H1.
    rewrite <-app_assoc in H1. by rewrite H1.
  - done.
  - unfold se_bytes in *. simpl in *. rewrite !length_app in *. lia.
Qed.

(** [read_async_frame] does not survive the [select!] of [serve]: when the first bytes of a frame
    of less than 256 bytes have arrived and a job is joined before the others, they are lost, and the
    others are read as the length of a frame: the session never sees the frame, but waits for bytes
    that nobody sends or ends with [FrameTooLarge]. *)
Theorem partial_frame_is_lost `{!Cbor} `{!CborLaws _} json_error queue_name concurrency frame b k key s :
  encode_frame frame = Ok b -> (4 < length b < 260)%nat -> (1 <= k <= 3)%nat ->
  se_state s = Serving -> se_blocked s = false -> se_buffer s = [] -> se_socket s = [] ->
  phase_of key s = Some TWritten ->
  let out := serve json_error queue_name concurrency [EvBytes (take k b); EvJoin key; EvBytes (drop k b)] s in
  se_spawned out.1 = se_spawned s /\ se_state out.1 = Serving /\
  (out.2 = None /\ se_buffer out.1 = drop k b \/ out.2 = Some (Err (EProtocol FrameTooLarge))).
Proof.
  intros (body & -> & _ & _ & _)%encode_frame_Ok Hlen Hk Hst Hbl Hbuf Hsock Hkey.
  rewrite length_app, length_to_be_bytes in Hlen.
  pose proof (poll_rest (Z.of_nat (length body)) body k eq_refl ltac:(lia) Hk) as Hp. cbn zeta in Hp.
  set (b := to_be_bytes 4 _ ++ body) in *.
  assert (length (take k b) < 4)%nat as Hshort by (rewrite length_take; lia).
  set (s1 := se_set_bytes (take k b) [] s).
  assert (serve_event json_error queue_name concurrency (EvBytes (take k b)) s = (s1, None)) as H1.
  { cbn [serve_event]. unfold serve_again. cbn [se_set_bytes se_blocked]. rewrite Hbl.
    by rewrite (serve_short queue_name _ _ (take k b)); [| |done|simpl; rewrite Hsock|]. }
  set (s2 := drop_read (se_set_tasks (delete key (se_tasks s)) (se_slots s) s1)).
  assert (serve_event json_error queue_name concurrency (EvJoin key) s1 = (s2, None)) as H2.
  { cbn [serve_event]. unfold phase_of in *. subst s1 s2. cbn [se_set_bytes se_tasks se_blocked]. rewrite Hkey, Hbl.
    unfold serve_again. cbn [drop_read se_set_tasks se_set_bytes se_blocked]. rewrite Hbl.
    rewrite (serve_short queue_name _ _ []); [done|done|done|done|simpl; lia]. }
  cbn [serve]. rewrite H1, H2. cbn [serve_event]. unfold serve_again, s2, s1.
  cbn [drop_read se_set_tasks se_set_bytes se_blocked]. rewrite Hbl.
  cbn [drop_read se_set_tasks se_buffer se_socket se_set_bytes app length Nat.add].
  assert (length (drop k b) = S (length (drop k b) - 1))%nat as ->.
  { unfold b. rewrite length_drop, length_app, length_to_be_bytes. lia. }
  cbn [serve_loop se_state se_tasks se_buffer se_socket se_set_bytes se_set_tasks drop_read].
  rewrite Hst, decide_False by (intros [? _]; done).
  destruct Hp as [Hp|[after Hp]]; rewrite Hp; simpl; rewrite ?Hst; auto.
Qed.

(** ** Examples *)

Definition example_cbor : Cbor := {|
  to_vec := fun f =>
    if decide (f = v1 (JobDispatch 1 "d" 1 [])) then Ok [Byte.x04]
    else if decide (f = v1 Draining) then Ok [Byte.x05; Byte.x05] else Err "unsupported"%string;
  from_slice := fun b =>
    match b with
    | [Byte.x04] => Ok (v1 (JobDispatch 1 "d" 1 []))
    | [Byte.x05; Byte.x05] => Ok (v1 Draining)
    | _ => Err "unexpected"%string
    end
|}.

#[export] Instance example_cbor_laws : CborLaws example_cbor.
Proof. split. simpl. intros f b. repeat case_decide; intros; simplify_eq; done. Qed.

Definition job_frame : bytes := [Byte.x00; Byte.x00; Byte.x00; Byte.x01; Byte.x04].
Definition draining_frame : bytes := [Byte.x00; Byte.x00; Byte.x00; Byte.x02; Byte.x05; Byte.x05].

(** A session from its first job to its end *)
Definition example_events : list sdk_event := [
  EvBytes (take 2 job_frame); EvBytes (drop 2 job_frame); EvRun 0; EvHeartbeat; EvShutdown; EvHandler 0 (Ok []);
  EvWritten; EvWritten; EvBytes draining_frame; EvWritten; EvJoin 0 ].

Definition example_run (events : list sdk_event) :=
  serve (Cb := example_cbor) (fun _ => None) "q" 2 events (session_new "q" 2 7).

Lemma sdk_reports_every_job_witness :
  exists s, example_run example_events = (s, Some (Ok tt)) /\ se_spawned s = [(1, "d"%string)] /\
    se_spawned s ≡ₚ reports (se_written s).
Proof.
  eexists. split; [by vm_compute|]. split; [reflexivity|].
  edestruct (sdk_reports_every_job (H := example_cbor) (fun _ => None) "q" 2 7 example_events) as (_ & _ & _ & _ & H).
  - lia.
  - vm_compute. reflexivity.
  - apply H. reflexivity.
Defined.

Lemma bytes_may_arrive_in_pieces_witness :
  example_run [EvBytes (take 2 job_frame); EvBytes (drop 2 job_frame)] = example_run [EvBytes job_frame] /\
  se_spawned (example_run [EvBytes job_frame]).1 = [(1, "d"%string)].
Proof.
  split; [|by vm_compute].
  refine (bytes_may_arrive_in_pieces (H := example_cbor) (fun _ => None) "q" 2 (take 2 job_frame) (drop 2 job_frame)
    (session_new "q" 2 7) _ _).
  vm_compute. reflexivity.
Defined.

(** The session when its first job has been reported *)
Definition example_reported : session :=
  (example_run [EvBytes job_frame; EvRun 0; EvHandler 0 (Ok []); EvWritten]).1.

(** The next job arrives while the first is joined: it is never spawned. *)
Lemma partial_frame_is_lost_witness :
  encode_frame (C := example_cbor) (v1 (JobDispatch 1 "d" 1 [])) = Ok job_frame /\
  se_spawned (serve (Cb := example_cbor) (fun _ => None) "q" 2
    [EvBytes (take 2 job_frame); EvJoin 0; EvBytes (drop 2 job_frame)] example_reported).1 = se_spawned example_reported.
Proof.
  assert (encode_frame (C := example_cbor) (v1 (JobDispatch 1 "d" 1 [])) = Ok job_frame) as Henc by by vm_compute.
  split; [exact Henc|].
  refine (proj1 (partial_frame_is_lost (H := example_cbor) (fun _ => None) "q" 2 _ job_frame 2 0 example_reported
    Henc _ _ _ _ _ _ _)).
  all: first [vm_compute; reflexivity | unfold job_frame; simpl; lia].
Defined.
