(* ===== verification/Link.v ===== *)
(** * The server and a worker over one connection

    [handle_worker] of [crates/dispatcher/src/lib.rs] on one side, [serve] of
    [crates/worker-sdk/src/lib.rs] on the other: the registry of [Registry] and the session of
    [WorkerSdk] run side by side, joined by what each has written and the other has read. The
    connection is up and carries whole frames; the rest of the server (the engine that reserves and
    dispatches, the sessions of the other workers) does what it likes. *)
From S2P Require Import Prelude Types Db Interfaces Scheduler Engine Protocol Registry WorkerSdk.

(** The server; whether the worker has been sent its [Registered] frame; the session of the SDK; how
    many of the frames queued for the worker have arrived there; how many of the frames the worker
    has written the server has read. *)
Record link := mkLink {
  lk_server : system;
  lk_greeted : bool;
  lk_worker : session;
  lk_arrived : nat;
  lk_read : nat
}.

Definition on_registry (f : WorkerRegistry -> WorkerRegistry) (s : system) : system :=
  mkSystem (f (sys_registry s)) (sys_permits s) (sys_waiting s).

(** The frames queued for a worker, in order *)
Definition frames_to (id : Z) (s : system) : list WireFrame :=
  match reg_workers (sys_registry s) !! id with Some w => ob_frames (ws_outbound w) | None => [] end.

(** What the read loop of the server does with a frame it could read *)
Definition read_step (id now : Z) (message : WorkerMessage) (s : system) : result string unit * system :=
  match handle_frame id now message (sys_registry s) with
  | (Err e, r) => (Err e, mkSystem r (sys_permits s) (sys_waiting s))
  | (Ok event, r) =>
      (Ok tt, mkSystem (match event with Some event => broadcast event r | None => r end) (sys_permits s) (sys_waiting s))
  end.

(** The steps of the server that do not belong to the session of [id]: those of [system_step] that
    leave its connection up, and the dispatches to any worker. What is queued for [id] is written. *)
Inductive server_step (id : Z) : system -> system -> Prop :=
| sv_reserve queues r permits waiting ps r' :
    reserve queues r = (Ok ps, r') ->
    server_step id (mkSystem r permits waiting) (mkSystem r' (permits ++ (rd_permit <$> ps)) waiting)
| sv_release r p permits permits' waiting :
    permits ≡ₚ p :: permits' ->
    server_step id (mkSystem r permits waiting) (mkSystem (release_permit p r) permits' waiting)
| sv_dispatch r p permits permits' waiting dispatch_id job res r' :
    permits ≡ₚ p :: permits' ->
    dispatch_queue p dispatch_id job r = (res, r') ->
    server_step id (mkSystem r permits waiting)
      (mkSystem r' permits' (match res with Ok queued => (p, dispatch_id, queued) :: waiting | Err _ => waiting end))
| sv_ack r permits waiting waiting' p dispatch_id queued wrote :
    waiting ≡ₚ (p, dispatch_id, queued) :: waiting' -> (wrote = true -> queued = true) ->
    (p = id -> wrote = queued) ->
    server_step id (mkSystem r permits waiting) (mkSystem (dispatch_finish wrote p dispatch_id r).2 permits waiting')
| sv_frame r permits waiting other now message res r' :
    other <> id -> message_u32 message -> handle_frame other now message r = (res, r') ->
    server_step id (mkSystem r permits waiting)
      (mkSystem (match res with Ok (Some event) => broadcast event r' | _ => r' end) permits waiting)
| sv_register r permits waiting other queue running free now r' :
    is_u32 running -> is_u32 free -> other ∉ permits -> other ∉ (fst ∘ fst) <$> waiting ->
    register_worker other queue running free now (mkOutbound true []) r = (Ok tt, r') ->
    server_step id (mkSystem r permits waiting) (mkSystem r' permits waiting)
| sv_remove r permits waiting other :
    other <> id -> server_step id (mkSystem r permits waiting) (mkSystem (remove_worker other r) permits waiting)
| sv_stop_writer r permits waiting other :
    other <> id -> server_step id (mkSystem r permits waiting) (mkSystem (stop_writer other r) permits waiting).

Lemma server_step_system id s s' : server_step id s s' -> system_step s s'.
Proof. destruct 1; eauto using system_step. Qed.

Section link.
Context `{Cb : Cbor} (json_error : bytes -> option string).
Context (id : Z) (queue_name : string) (concurrency : Z).

(** The bytes of a frame arrive. *)
Definition arrive (b : bytes) (s : session) : session * option (result WorkerRunError unit) :=
  serve_event json_error queue_name concurrency (EvBytes b) s.

Inductive link_step : link -> link -> Prop :=
| lk_step_server sys sys' greeted s arrived read :
    server_step id sys sys' ->
    link_step (mkLink sys greeted s arrived read) (mkLink sys' greeted s arrived read)
| lk_step_greet sys s arrived read :
    link_step (mkLink sys false s arrived read) (mkLink (on_registry (greet id queue_name) sys) true s arrived read)
| lk_step_arrive sys greeted s s' arrived read frame b :
    frames_to id sys !! arrived = Some frame -> encode_frame frame = Ok b -> arrive b s = (s', None) ->
    link_step (mkLink sys greeted s arrived read) (mkLink sys greeted s' (S arrived) read)
| lk_step_worker sys greeted s s' arrived read e :
    (forall b, e <> EvBytes b) -> serve_event json_error queue_name concurrency e s = (s', None) ->
    link_step (mkLink sys greeted s arrived read) (mkLink sys greeted s' arrived read)
| lk_step_read sys sys' s arrived read message b frame now :
    se_written s !! read = Some message -> encode_frame (v1 message) = Ok b ->
    Registry.read_frame b = Ok (frame, []) -> read_step id now (payload frame) sys = (Ok tt, sys') ->
    link_step (mkLink sys true s arrived read) (mkLink sys' true s arrived (S read)).

(** The server has read the registration of a new worker and has put it in the registry. *)
Definition link_new (now : Z) (sys : system) : link :=
  mkLink (on_registry (fun r => (register_worker id queue_name 0 concurrency now (mkOutbound true []) r).2) sys) false
    (session_new queue_name concurrency id) 0 1.

(** The moves as a function, to run the model: the greeting, the next frame arrives, an event of the
    worker, the server reads the next message, and the engine of the server reserves slots,
    dispatches a job and learns that it has been written. *)
Inductive move : Type :=
| MvGreet
| MvArrive
| MvWorker (e : sdk_event)
| MvRead (now : Z)
| MvReserve (queues : list QueueReservation)
| MvDispatch (permit : Z) (dispatch_id : string) (job : Job)
| MvAck.

Definition with_server (sys : system) (l : link) : link :=
  mkLink sys (lk_greeted l) (lk_worker l) (lk_arrived l) (lk_read l).

Definition link_move (m : move) (l : link) : option link :=
  let sys := lk_server l in
  match m with
  | MvGreet =>
      if lk_greeted l then None
      else Some (mkLink (on_registry (greet id queue_name) sys) true (lk_worker l) (lk_arrived l) (lk_read l))
  | MvArrive =>
      match frames_to id sys !! lk_arrived l with
      | Some frame =>
          match encode_frame frame with
          | Ok b =>
              match arrive b (lk_worker l) with
              | (s', None) => Some (mkLink sys (lk_greeted l) s' (S (lk_arrived l)) (lk_read l))
              | _ => None
              end
          | Err _ => None
          end
      | None => None
      end
  | MvWorker (EvBytes _) => None
  | MvWorker e =>
      match serve_event json_error queue_name concurrency e (lk_worker l) with
      | (s', None) => Some (mkLink sys (lk_greeted l) s' (lk_arrived l) (lk_read l))
      | _ => None
      end
  | MvRead now =>
      match lk_greeted l, se_written (lk_worker l) !! lk_read l with
      | true, Some message =>
          match encode_frame (v1 message) with
          | Ok b =>
              match Registry.read_frame b with
              | Ok (frame, []) =>
                  match read_step id now (payload frame) sys with
                  | (Ok _, sys') => Some (mkLink sys' true (lk_worker l) (lk_arrived l) (S (lk_read l)))
                  | _ => None
                  end
              | _ => None
              end
          | Err _ => None
          end
      | _, _ => None
      end
  | MvReserve queues =>
      match reserve queues (sys_registry sys) with
      | (Ok ps, r') => Some (with_server (mkSystem r' (sys_permits sys ++ (rd_permit <$> ps)) (sys_waiting sys)) l)
      | _ => None
      end
  | MvDispatch p dispatch_id job =>
      match sys_permits sys, dispatch_queue p dispatch_id job (sys_registry sys) with
      | permit :: permits', (res, r') =>
          if decide (permit = p) then
            Some (with_server (mkSystem r' permits'
              (match res with Ok queued => (p, dispatch_id, queued) :: sys_waiting sys | Err _ => sys_waiting sys end)) l)
          else None
      | [], _ => None
      end
  | MvAck =>
      match sys_waiting sys with
      | (p, dispatch_id, queued) :: waiting' =>
          Some (with_server (mkSystem (dispatch_finish queued p dispatch_id (sys_registry sys)).2 (sys_permits sys) waiting') l)
      | [] => None
      end
  end.

Fixpoint link_moves (ms : list move) (l : link) : option link :=
  match ms with
  | [] => Some l
  | m :: ms => match link_move m l with Some l => link_moves ms l | None => None end
  end.

Lemma link_move_step m l l' : link_move m l = Some l' -> link_step l l'.
Proof.
  destruct l as [[r permits waiting] greeted s arrived read]. unfold link_move, with_server.
  cbn [lk_server lk_greeted lk_worker lk_arrived lk_read sys_registry sys_permits sys_waiting]. intros Hm.
  destruct m as [| |e| | | |].
  - destruct greeted; simplify_eq. apply lk_step_greet.
  - repeat case_match; simplify_eq. by eapply lk_step_arrive.
  - destruct e; try done; (destruct (serve_event _ _ _ _ s) as [s' [|]] eqn:Hs; [done|]; injection Hm as <-;
      eapply lk_step_worker; [|exact Hs]; done).
  - destruct greeted; [|done]. destruct (se_written s !! read) as [m|] eqn:Hr; [|done].
    destruct (encode_frame (v1 m)) as [b|] eqn:Hb; [|done]. destruct (Registry.read_frame b) as [[frame [|]]|] eqn:Hf; try done.
    destruct (read_step _ _ _ _) as [[[]|] sys'] eqn:Hs; simplify_eq. by eapply lk_step_read.
  - destruct (reserve _ _) as [[ps|] r'] eqn:Hr; simplify_eq. apply lk_step_server. by apply (sv_reserve _ queues).
  - destruct permits as [|p permits']; [done|]. destruct (dispatch_queue _ _ _ _) as [res r'] eqn:Hd.
    case_decide; simplify_eq. apply lk_step_server. by eapply sv_dispatch.
  - destruct waiting as [|[[p d] queued] waiting']; simplify_eq. apply lk_step_server. by eapply sv_ack.
Qed.

Lemma link_moves_steps ms l l' : link_moves ms l = Some l' -> rtc link_step l l'.
Proof.
  revert l. induction ms as [|m ms IH]; intros l; simpl; [by intros [= ->]|].
  destruct (link_move m l) as [l1|] eqn:Hm; [|done]. intros Hms. apply (rtc_l _ _ l1); [by apply (link_move_step m)|by apply IH].
Qed.

(** The worker picks an instance id the server has not seen ([Uuid::new_v4]). *)
Definition fresh_id (sys : system) : Prop :=
  reg_workers (sys_registry sys) !! id = None /\ id ∉ sys_permits sys /\ id ∉ (fst ∘ fst) <$> sys_waiting sys.

(** What can become of the connection of a worker that registers with a running server *)
Definition link_reachable (l : link) : Prop :=
  exists now sys, rtc system_step system_init sys /\ fresh_id sys /\ rtc link_step (link_new now sys) l.
End link.

(** ** What is in flight *)

(** The job a frame dispatches *)
Definition dispatched_job (f : WireFrame) : option (Z * string) :=
  match payload f with JobDispatch job_id dispatch_id _ _ => Some (job_id, dispatch_id) | _ => None end.
Definition dispatched (l : list WireFrame) : list (Z * string) := omap dispatched_job l.
