(* ===== verification/LinkProps.v ===== *)
(** * The server and a worker over one connection: properties

    The two sides agree on which jobs are in flight, neither ever gets a frame it does not expect,
    a job that arrives finds a free slot, and a worker that has drained leaves nothing behind. *)
From S2P Require Import Prelude Types Db Interfaces Scheduler Engine Protocol.
From S2P Require Import Registry RegistryProps WorkerSdk WorkerSdkProps Link.

(** ** The frames that may come *)

(** A frame the server sends before it has answered [Drain] *)
Definition ordinary (queue_name : string) (f : WireFrame) : Prop :=
  match payload f with
  | Registered q => q = queue_name
  | JobDispatch _ _ _ _ => True
  | _ => False
  end.

(** A message the server accepts after the registration *)
Definition from_worker (m : WorkerMessage) : Prop :=
  match m with JobResultMsg _ _ _ _ _ | Drain | Heartbeat => True | _ => False end.

(** How far the drain has come: [inbox] are the frames the session has not handled, [unread] the
    messages the server has not read. *)
Definition phase_ok (queue_name : string) (draining : bool) (s : session) (inbox : list WireFrame)
    (unread : list WorkerMessage) : Prop :=
  let queued := count Drain (se_outbound s).*1 in
  let sent := count Drain unread in
  match se_state s, se_blocked s with
  | Serving, blocked =>
      draining = false /\ queued = (if blocked then 1 else 0)%nat /\ sent = 0%nat /\ Forall (ordinary queue_name) inbox
  | AwaitingDrain, false =>
      queued = 0%nat /\
      (draining = false /\ sent = 1%nat /\ Forall (ordinary queue_name) inbox \/
       draining = true /\ sent = 0%nat /\ exists jobs, inbox = jobs ++ [v1 Draining] /\ Forall (ordinary queue_name) jobs)
  | SDraining, false => draining = true /\ queued = 0%nat /\ sent = 0%nat /\ inbox = []
  | _, true => False
  end.

Lemma dispatched_app l1 l2 : dispatched (l1 ++ l2) = dispatched l1 ++ dispatched l2.
Proof. apply omap_app. Qed.

Lemma ordinary_dispatch queue_name d job : ordinary queue_name (dispatch_frame d job).
Proof. done. Qed.

(** The jobs between the server and its answer: in frames the session has not handled, executing, and
    in reports the server has not read *)
Definition outstanding (s : session) (inbox : list WireFrame) (unread : list WorkerMessage) : list (Z * string) :=
  dispatched inbox ++ (job_of <$> tasks_in executing_phase (se_tasks s)) ++ reports (se_outbound s).*1 ++ reports unread.

Section worker.
Context `{Cb : Cbor} `{CL : !CborLaws Cb} (json_error : bytes -> option string).
Context (queue_name : string) (concurrency : Z) (Hconc : 0 <= concurrency).
#[local] Set Default Proof Using "Type*".

(** *** One frame *)

(** What handling frames leaves alone *)
Record same_writer (s s' : session) : Prop := {
  sw_outbound : se_outbound s' = se_outbound s;
  sw_written : se_written s' = se_written s;
  sw_blocked : se_blocked s' = se_blocked s
}.

Lemma same_writer_trans s1 s2 s3 : same_writer s1 s2 -> same_writer s2 s3 -> same_writer s1 s3.
Proof using Type. intros [] []. split; congruence. Qed.

Lemma handle_ordinary f s :
  ordinary queue_name f -> se_state s <> SDraining ->
  exists s', handle_message queue_name (payload f) s = (s', None) /\ se_state s' = se_state s /\ same_writer s s' /\
    se_spawned s' = se_spawned s ++ dispatched [f].
Proof using Type.
  unfold ordinary, handle_message, dispatched, dispatched_job. simpl. intros Ho Hst. destruct (payload f); try done.
  - rewrite decide_False by done. by eexists.
  - rewrite decide_True by done. exists s. by rewrite app_nil_r.
Qed.

Lemma handle_expected d f inbox unread s :
  phase_ok queue_name d s (f :: inbox) unread -> se_blocked s = false ->
  exists s', handle_message queue_name (payload f) s = (s', None) /\
    phase_ok queue_name d s' inbox unread /\ same_writer s s' /\ se_spawned s' = se_spawned s ++ dispatched [f].
Proof using Type.
  intros Hp Hb.
  assert (ordinary queue_name f -> se_state s <> SDraining -> (forall s', se_state s' = se_state s -> same_writer s s' ->
    phase_ok queue_name d s' inbox unread) -> exists s', handle_message queue_name (payload f) s = (s', None) /\
    phase_ok queue_name d s' inbox unread /\ same_writer s s' /\ se_spawned s' = se_spawned s ++ dispatched [f]) as Hord.
  { intros Ho Hst Hphase. destruct (handle_ordinary f s Ho Hst) as (s' & Hh & Hs & Hw & Hsp). exists s'.
    split_and!; [done|by apply Hphase|done|done]. }
  unfold phase_ok in *. rewrite Hb in *. destruct (se_state s) eqn:Hst.
  - destruct Hp as (Hd & Hq & Hs & Hin). apply Forall_cons in Hin as [Hf Hin].
    apply Hord; [done|done|]. intros s' -> [Ho _ Hb']. by rewrite Ho, Hb', Hb.
  - destruct Hp as (Hq & [(Hd & Hs & Hin)|(Hd & Hs & jobs & Hin & Hjobs)]).
    + apply Forall_cons in Hin as [Hf Hin].
      apply Hord; [done|done|]. intros s' -> [Ho _ Hb']. rewrite Hb', Hb, Ho. split; [done|by left].
    + destruct jobs as [|f' jobs]; injection Hin as -> ->.
      * exists (se_set_state SDraining s). unfold handle_message. simpl. rewrite Hst, decide_True by done.
        simpl. rewrite Hb. split_and!; try done. by rewrite app_nil_r.
      * apply Forall_cons in Hjobs as [Hf Hjobs]. apply Hord; [done|done|]. intros s' -> [Ho _ Hb'].
        rewrite Hb', Hb, Ho. split; [done|]. right. split_and!; [done|done|by exists jobs].
  - destruct Hp as (_ & _ & _ & Hin). done.
Qed.

(** *** The frames that have arrived *)

Lemma poll_encoded frame b rest :
  encode_frame frame = Ok b -> poll_async_frame [] (b ++ rest) = Ready (Ok frame) rest.
Proof.
  intros (body & -> & Hl & Hf & Hv)%encode_frame_Ok. unfold poll_async_frame. cbn [app].
  rewrite decide_False by (rewrite !length_app, length_to_be_bytes; lia).
  rewrite <-app_assoc, take_app_length' by (by rewrite length_to_be_bytes).
  rewrite from_to_be_bytes by (unfold MAX_FRAME_BYTES in *; change (2 ^ (8 * Z.of_nat 4)) with 4294967296; lia).
  rewrite decide_False by lia. rewrite Nat2Z.id.
  rewrite decide_False by (rewrite !length_app, length_to_be_bytes; lia).
  rewrite app_assoc, take_app_length', drop_app_length' by (by rewrite length_app, length_to_be_bytes).
  by rewrite (decode_encoded _ frame).
Qed.

(** The loop handles the frames in the socket one after the other; it stops when it has none left or
    when the session is over. *)
Lemma serve_loop_frames pend later unread d fuel s :
  session_ok concurrency s -> se_blocked s = false -> se_buffer s = [] -> encode_frames pend = Ok (se_socket s) ->
  (length (se_socket s) <= fuel)%nat -> phase_ok queue_name d s (pend ++ later) unread ->
  let out := serve_loop queue_name fuel s in
  (out.2 = None \/ out.2 = Some (Ok tt)) /\
  exists handled rest, pend = handled ++ rest /\
    (out.2 = None -> rest = [] /\ se_buffer out.1 = [] /\ se_socket out.1 = []) /\
    phase_ok queue_name d out.1 (rest ++ later) unread /\ same_writer s out.1 /\
    se_spawned out.1 = se_spawned s ++ dispatched handled.
Proof.
  revert fuel s. induction pend as [|f pend IH]; intros fuel s Hok Hb Hbuf Hsock Hfuel Hp out.
  - injection Hsock as Hsock. subst out.
    destruct fuel; cbn [serve_loop]; (case_decide as Hend; [|rewrite Hbuf, <-Hsock]); cbn [fst snd];
      (split; [by (left + right)|]; exists [], []; split_and!; try done; by rewrite app_nil_r).
  - cbn [encode_frames] in Hsock. destruct (encode_frame f) as [b|] eqn:Hf; [|done].
    cbn [result_bind] in Hsock. destruct (encode_frames pend) as [bs|] eqn:Hbs; [|done].
    cbn [result_bind] in Hsock. injection Hsock as Hsock.
    assert (4 <= length b)%nat as Hlen by by apply (decode_encode_frame f).
    destruct fuel as [|fuel]; [rewrite <-Hsock, length_app in Hfuel; lia|]. subst out. cbn [serve_loop].
    case_decide as Hend.
    { split; [by right|]. exists [], (f :: pend). split_and!; try done. by rewrite app_nil_r. }
    rewrite Hbuf, <-Hsock, (poll_encoded f) by done.
    destruct (handle_expected d f (pend ++ later) unread (se_set_bytes [] bs s) Hp Hb) as (s' & Hh & Hp' & [Ho Hw Hb'] & Hsp).
    pose proof (handle_message_ok queue_name concurrency _ _ _ _ (session_ok_eq _ s (se_set_bytes [] bs s) eq_refl Hok) Hb Hh)
      as [Hok' _].
    rewrite Hh. assert (se_buffer s' = [] /\ se_socket s' = bs) as [Hbuf' Hsock'].
    { pose proof (handle_message_bytes queue_name (payload f) [] bs s) as E. rewrite Hh in E. injection E as -> _. done. }
    simpl in Ho, Hw, Hb', Hsp.
    destruct (IH fuel s') as (Hr & handled & rest & -> & Hnone & Hp'' & [Ho2 Hw2 Hb2] & Hsp2);
      [done|congruence|done|congruence|rewrite Hsock'; rewrite <-Hsock, length_app in Hfuel; lia|done|].
    split; [done|]. exists (f :: handled), rest. split_and!; [done|done|done|split; congruence|].
    rewrite Hsp2, Hsp, <-app_assoc. f_equal. symmetry. apply (dispatched_app [f]).
Qed.

(** *** The two sides *)

(** [w] is what the server knows of the worker. *)
Record pair_ok (w : WorkerState) (s : session) (inbox : list WireFrame) (unread : list WorkerMessage) : Prop := {
  po_session : session_ok concurrency s;
  po_jobs : dispatched (ob_frames (ws_outbound w)) = se_spawned s ++ dispatched inbox;
  po_once : NoDup (outstanding s inbox unread).*2;
  po_flight : ws_in_flight_dispatches w = list_to_set (outstanding s inbox unread).*2;
  po_messages : Forall from_worker ((se_outbound s).*1 ++ unread);
  po_drain : forall x, (Drain, x) ∈ se_outbound s -> x = Some WServe;
  po_phase : phase_ok queue_name (ws_draining w) s inbox unread
}.

(** The bytes in the socket of the worker are the frames [pend]; it leaves them there only while it
    waits for its own [Drain] to be written. *)
Record bytes_ok (s : session) (pend : list WireFrame) : Prop := {
  bo_buffer : se_buffer s = [];
  bo_socket : encode_frames pend = Ok (se_socket s);
  bo_idle : se_blocked s = false -> pend = []
}.

(** Whatever the session does, a job that leaves one account enters the next. *)
Lemma outstanding_moves s s' handled inbox unread l :
  session_ok concurrency s -> session_ok concurrency s' ->
  se_spawned s' = se_spawned s ++ dispatched handled -> se_written s' = se_written s ++ l ->
  outstanding s' inbox (unread ++ l) ≡ₚ outstanding s (handled ++ inbox) unread.
Proof using Type.
  intros Hok Hok' Hsp Hw. pose proof (so_jobs _ _ Hok) as H. pose proof (so_jobs _ _ Hok') as H'.
  rewrite Hsp, Hw, H in H'. unfold outstanding. rewrite dispatched_app.
  unfold reports in *. rewrite !omap_app in *.
  set (e := job_of <$> tasks_in executing_phase (se_tasks s)) in *.
  set (e' := job_of <$> tasks_in executing_phase (se_tasks s')) in *.
  assert (dispatched handled ++ e ++ omap report_of (se_outbound s).*1 ≡ₚ e' ++ omap report_of (se_outbound s').*1 ++
    omap report_of l) as Hm.
  { apply (Permutation_app_inv_r (omap report_of (se_written s))). rewrite <-!app_assoc in *.
    rewrite (Permutation_app_comm (omap report_of l)), <-H'. solve_Permutation. }
  transitivity (dispatched inbox ++ (e' ++ omap report_of (se_outbound s').*1 ++ omap report_of l) ++ omap report_of unread).
  { solve_Permutation. }
  rewrite <-Hm. solve_Permutation.
Qed.

Lemma pair_moves w s s' handled inbox unread l :
  pair_ok w s (handled ++ inbox) unread -> session_ok concurrency s' ->
  se_spawned s' = se_spawned s ++ dispatched handled -> se_written s' = se_written s ++ l ->
  Forall from_worker ((se_outbound s').*1 ++ unread ++ l) ->
  (forall x, (Drain, x) ∈ se_outbound s' -> x = Some WServe) ->
  phase_ok queue_name (ws_draining w) s' inbox (unread ++ l) ->
  pair_ok w s' inbox (unread ++ l).
Proof using Type.
  intros [Hok Hj Hnd Hfl Hm Hd Hp] Hok' Hsp Hw Hm' Hd' Hp'.
  pose proof (outstanding_moves s s' handled inbox unread l Hok Hok' Hsp Hw) as HO.
  split; try done.
  - by rewrite Hj, Hsp, dispatched_app, <-app_assoc.
  - by rewrite HO.
  - rewrite Hfl. apply leibniz_equiv. by rewrite HO.
Qed.

(** The session goes round its loop. *)
Lemma pair_again w s pend later unread :
  pair_ok w s (pend ++ later) unread -> se_buffer s = [] -> encode_frames pend = Ok (se_socket s) ->
  let out := serve_again queue_name s in
  (out.2 = None \/ out.2 = Some (Ok tt)) /\ se_written out.1 = se_written s /\
  exists pend', pair_ok w out.1 (pend' ++ later) unread /\ (out.2 = None -> bytes_ok out.1 pend').
Proof.
  intros Hpair Hbuf Hsock. unfold serve_again. destruct (se_blocked s) eqn:Hb; cbn zeta.
  { split; [by left|]. split; [done|]. exists pend. split; [done|]. intros _. split; simpl; [done|done|congruence]. }
  pose proof (po_session _ _ _ _ Hpair) as Hok.
  destruct (serve_loop_frames pend later unread (ws_draining w) (length (se_buffer s) + length (se_socket s)) s)
    as (Hr & handled & rest & -> & Hnone & Hp & [Ho Hw Hb'] & Hsp); [done..|lia|apply Hpair|].
  split; [done|]. split; [done|]. exists rest. split.
  - rewrite <-(app_nil_r unread). rewrite <-app_assoc in Hpair.
    apply (pair_moves w s _ handled (rest ++ later) unread []); rewrite ?app_nil_r; try done.
    + by apply serve_loop_ok.
    + rewrite Ho. apply Hpair.
    + rewrite Ho. apply Hpair.
  - intros Hn. destruct (Hnone Hn) as (-> & H1 & H2). split; [done|by rewrite H2|done].
Qed.

(** *** The events of the session *)

Lemma count_zero_or m l : count m l = 0%nat <-> Forall (fun x : WorkerMessage => x <> m) l.
Proof using Type.
  split.
  - intros H. apply Forall_forall. intros x Hx ->. unfold count in H.
    apply nil_length_inv in H. assert (m ∈ filter (fun y => y = m) l) as Hin by by apply list_elem_of_filter.
    rewrite H in Hin. by apply not_elem_of_nil in Hin.
  - intros H. apply count_not_in. intros Hin. rewrite Forall_forall in H. by apply (H m).
Qed.

(** A task or the heartbeat: other messages than [Drain] are queued. *)
Lemma pair_queues w s s' inbox unread l :
  pair_ok w s inbox unread -> session_ok concurrency s' ->
  se_state s' = se_state s -> se_blocked s' = se_blocked s -> se_spawned s' = se_spawned s ->
  se_written s' = se_written s -> se_outbound s' = se_outbound s ++ l ->
  Forall (fun x => from_worker x.1 /\ x.1 <> Drain) l ->
  pair_ok w s' inbox unread.
Proof using Type.
  intros Hpair Hok' Hst Hb Hsp Hw Ho Hl. rewrite <-(app_nil_r unread).
  apply (pair_moves w s s' [] inbox unread []); rewrite ?app_nil_r; try done.
  - rewrite Ho, fmap_app. pose proof (po_messages _ _ _ _ Hpair) as [Hm Hu]%Forall_app.
    apply Forall_app. split; [|done]. apply Forall_app. split; [done|]. apply Forall_fmap.
    eapply Forall_impl; [exact Hl|]. by intros x [].
  - intros x. rewrite Ho. intros [Hin|Hin]%elem_of_app; [by apply (po_drain _ _ _ _ Hpair)|].
    rewrite Forall_forall in Hl. by destruct (Hl _ Hin).
  - assert (count Drain (se_outbound s').*1 = count Drain (se_outbound s).*1) as E.
    { rewrite Ho, fmap_app, count_app. enough (count Drain l.*1 = 0%nat) by lia. apply count_zero_or, Forall_fmap.
      eapply Forall_impl; [exact Hl|]. by intros x []. }
    pose proof (po_phase _ _ _ _ Hpair) as Hp. unfold phase_ok in *. by rewrite E, Hst, Hb.
Qed.

Lemma same_session s : se_set_tasks (se_tasks s) (se_slots s) s = s.
Proof using Type. by destruct s. Qed.

(** What a task queues is its report, if it queues anything. *)
Definition reports_only (s s' : session) : Prop :=
  se_state s' = se_state s /\ se_blocked s' = se_blocked s /\ se_spawned s' = se_spawned s /\
  se_written s' = se_written s /\ se_buffer s' = se_buffer s /\ se_socket s' = se_socket s /\
  exists l, se_outbound s' = se_outbound s ++ l /\ Forall (fun x => from_worker x.1 /\ x.1 <> Drain) l.

Lemma reports_only_refl s : reports_only s s.
Proof using Type. unfold reports_only. split_and!; try done. exists []. by rewrite app_nil_r. Qed.

Lemma run_task_reports key s : reports_only s (run_task json_error concurrency key s).
Proof using Type.
  unfold run_task. destruct (se_tasks s !! key) as [t|]; [|apply reports_only_refl].
  destruct (t_phase t); try apply reports_only_refl. destruct (json_error payload).
  - unfold reports_only. split_and!; try done. eexists. split; [done|]. by constructor.
  - destruct (0 <? se_slots s); [|apply reports_only_refl]. unfold reports_only. split_and!; try done.
    exists []. by rewrite app_nil_r.
Qed.

Lemma finish_task_reports key r s : reports_only s (finish_task concurrency key r s).
Proof using Type.
  unfold finish_task. destruct (se_tasks s !! key) as [t|]; [|apply reports_only_refl].
  destruct (t_phase t); try apply reports_only_refl.
  unfold reports_only. split_and!; try done. eexists. split; [done|]. by constructor.
Qed.

Lemma pair_reports w s s' pend later unread :
  pair_ok w s (pend ++ later) unread -> bytes_ok s pend -> session_ok concurrency s' -> reports_only s s' ->
  pair_ok w s' (pend ++ later) unread /\ bytes_ok s' pend /\ se_written s' = se_written s.
Proof using Type.
  intros Hp [H1 H2 H3] Hok (Hst & Hb & Hsp & Hw & Hbuf & Hsock & l & Ho & Hl). split_and!; [|split|done].
  - by eapply pair_queues.
  - congruence.
  - by rewrite Hsock.
  - rewrite Hb. done.
Qed.

Lemma pair_same w s s' inbox unread :
  pair_ok w s inbox unread -> accounted s' = accounted s -> pair_ok w s' inbox unread.
Proof using Type.
  destruct s, s'. unfold accounted. simpl. intros Hp [= -> -> -> -> -> -> -> ->].
  destruct Hp as [Hok ? ? ? ? ? ?]. split; try done. by eapply session_ok_eq; [|exact Hok].
Qed.

(** [serve] is asked to shut down: it queues its [Drain] frame. *)
Lemma pair_shutdown w s inbox unread :
  pair_ok w s inbox unread -> se_state s = Serving -> se_blocked s = false ->
  pair_ok w (se_set_blocked true (se_send Drain (Some WServe) (drop_read s))) inbox unread.
Proof using Cb Hconc json_error.
  intros Hp Hst Hb. rewrite <-(app_nil_r unread).
  apply (pair_moves w s _ [] inbox unread []); rewrite ?app_nil_r; try done.
  - pose proof (serve_event_ok json_error queue_name concurrency Hconc EvShutdown s (po_session _ _ _ _ Hp)) as [Hok _].
    cbn [serve_event] in Hok. by rewrite decide_True in Hok by done.
  - simpl. rewrite fmap_app. pose proof (po_messages _ _ _ _ Hp) as [Hm Hu]%Forall_app.
    apply Forall_app. split; [|done]. apply Forall_app. split; [done|by repeat constructor].
  - simpl. intros x [Hin|Hin]%elem_of_app; [by apply (po_drain _ _ _ _ Hp)|].
    by apply list_elem_of_singleton in Hin as [= ->].
  - pose proof (po_phase _ _ _ _ Hp) as Hph. unfold phase_ok in *. simpl. rewrite Hst, Hb in *.
    destruct Hph as (Hd & Hq & Hs & Hin). rewrite fmap_app, count_app. split_and!; [done| |done|done].
    rewrite Hq. done.
Qed.

(** The writer has written a frame. *)
Lemma pair_written w s m wt rest inbox unread :
  pair_ok w s inbox unread -> se_outbound s = (m, wt) :: rest ->
  pair_ok w (let s' := se_set_written (se_written s ++ [m]) (se_set_outbound rest s) in
    match wt with
    | None => s'
    | Some WServe => se_set_state AwaitingDrain (se_set_blocked false s')
    | Some (WTask key) => se_set_tasks (alter (set_phase TWritten) key (se_tasks s')) (se_slots s') s'
    end) inbox (unread ++ [m]).
Proof using Hconc.
  intros Hp Ho. pose proof (written_ok concurrency Hconc m wt rest s Ho (po_session _ _ _ _ Hp)) as Hok. cbn zeta in *.
  pose proof (po_messages _ _ _ _ Hp) as Hm. pose proof (po_phase _ _ _ _ Hp) as Hph.
  pose proof (po_drain _ _ _ _ Hp) as Hdr. unfold phase_ok in Hph. rewrite Ho in Hm, Hph, Hdr. rewrite fmap_cons, count_cons in Hph.
  assert (wt <> Some WServe -> m <> Drain) as Hne by (intros Hwt ->; apply Hwt, Hdr; left).
  apply (pair_moves w s _ [] inbox unread [m]); try done.
  - destruct wt as [[]|]; simpl; by rewrite app_nil_r.
  - by destruct wt as [[]|].
  - assert (Forall from_worker (rest.*1 ++ unread ++ [m])).
    { rewrite app_assoc, <-Permutation_cons_append. done. }
    by destruct wt as [[]|].
  - assert (forall x, (Drain, x) ∈ rest -> x = Some WServe) by (intros x Hx; apply Hdr; by right).
    by destruct wt as [[]|].
  - assert (wt = Some WServe \/ wt <> Some WServe) as [->|Hwt] by (destruct wt as [[]|]; auto).
    + assert (m = Drain) as -> by (apply (so_serve _ _ (po_session _ _ _ _ Hp)); rewrite Ho; left).
      unfold phase_ok. simpl. rewrite decide_True in Hph by done. rewrite count_app.
      destruct (se_state s), (se_blocked s); try (destruct_and?; lia); destruct_and?; try done.
      split; [lia|]. left. split_and!; [done| |done]. rewrite count_cons, decide_True, count_nil by done. lia.
    + specialize (Hne Hwt). rewrite decide_False in Hph by done. simpl in Hph.
      assert (phase_ok queue_name (ws_draining w)
        (se_set_written (se_written s ++ [m]) (se_set_outbound rest s)) inbox (unread ++ [m])) as Hph'.
      { unfold phase_ok. simpl. rewrite count_app, count_cons, decide_False, count_nil, Nat.add_0_r by done. done. }
      by destruct wt as [[]|].
Qed.

(** Any event but the arrival of bytes: the session goes on, ends well, or ends because a handler
    panicked, its writer died or the connection was closed. *)
Lemma pair_event w s e s' r pend later unread :
  pair_ok w s (pend ++ later) unread -> bytes_ok s pend -> (forall b, e <> EvBytes b) ->
  serve_event json_error queue_name concurrency e s = (s', r) ->
  (r = None \/ r = Some (Ok tt)) /\ (exists l pend', se_written s' = se_written s ++ l /\
      pair_ok w s' (pend' ++ later) (unread ++ l) /\ (r = None -> bytes_ok s' pend')) \/
  r = Some (Err Stopped) \/ (e = EvClosed /\ r = Some (Err (EProtocol (Io "early eof")))).
Proof.
  intros Hp Hb He Hrun.
  assert (forall s1 l, pair_ok w s1 (pend ++ later) (unread ++ l) -> se_written s1 = se_written s ++ l ->
    se_buffer s1 = [] -> encode_frames pend = Ok (se_socket s1) -> serve_again queue_name s1 = (s', r) ->
    (r = None \/ r = Some (Ok tt)) /\ (exists l pend', se_written s' = se_written s ++ l /\
      pair_ok w s' (pend' ++ later) (unread ++ l) /\ (r = None -> bytes_ok s' pend'))) as Hagain.
  { intros s1 l Hp1 Hw1 Hbuf Hsock Hrun1. destruct (pair_again w s1 pend later (unread ++ l) Hp1 Hbuf Hsock) as (H1 & H2 & pend' & H3).
    rewrite Hrun1 in *. simpl in *. split; [done|]. exists l, pend'. split; [congruence|done]. }
  assert (forall s1, pair_ok w s1 (pend ++ later) unread /\ bytes_ok s1 pend /\ se_written s1 = se_written s ->
    s' = s1 -> r = None ->
    (r = None \/ r = Some (Ok tt)) /\ (exists l pend', se_written s' = se_written s ++ l /\
      pair_ok w s' (pend' ++ later) (unread ++ l) /\ (r = None -> bytes_ok s' pend'))) as Hstay.
  { intros s1 (Hp1 & Hb1 & Hw1) -> ->. split; [by left|]. exists [], pend. by rewrite !app_nil_r. }
  destruct Hb as [Hbuf Hsock Hidle]. pose proof (Build_bytes_ok _ _ Hbuf Hsock Hidle) as Hb.
  pose proof (po_session _ _ _ _ Hp) as Hok.
  destruct e as [| |key|key|b| |key|key r0| |]; simpl in Hrun.
  - left. case_decide as Hst; injection Hrun as <- <-; [|by apply (Hstay s)]. destruct Hst as [Hst Hbl].
    eapply Hstay; [|done|done]. split_and!; [by apply pair_shutdown|split; [done|done|done]|done].
  - injection Hrun as <- <-. by right; left.
  - left. destruct (phase_of key s) as [[]|] eqn:Hk; try (injection Hrun as <- <-; by apply (Hstay s)).
    destruct (se_blocked s) eqn:Hbl; [injection Hrun as <- <-; by apply (Hstay s)|].
    eapply (Hagain _ []); [| | | |exact Hrun]; rewrite ?app_nil_r; try done.
    eapply pair_queues; [done|by apply join_ok|done|done|done|done| |]; [by rewrite app_nil_r|done].
  - destruct (phase_of key s) as [[]|] eqn:Hk; try (injection Hrun as <- <-; left; by apply (Hstay s)).
    destruct (se_blocked s) eqn:Hbl; injection Hrun as <- <-; [by (left; apply (Hstay s))|by right; left].
  - by destruct (He b).
  - destruct (se_blocked s); injection Hrun as <- <-; [by (left; apply (Hstay s))|by right; right].
  - left. injection Hrun as <- <-. eapply Hstay; [|done|done].
    eapply pair_reports; [done|done|by apply run_task_ok|apply run_task_reports].
  - left. injection Hrun as <- <-. eapply Hstay; [|done|done].
    eapply pair_reports; [done|done|by apply finish_task_ok|apply finish_task_reports].
  - left. destruct (se_outbound s) as [|[m wt] rest] eqn:Ho; [injection Hrun as <- <-; by apply (Hstay s)|].
    pose proof (pair_written w s m wt rest _ _ Hp Ho) as Hp'. cbn zeta in Hp'.
    destruct wt as [[|key]|]; [|injection Hrun as <- <-..].
    + by eapply (Hagain _ [m]); [| | | |exact Hrun].
    + split; [by left|]. exists [m], pend. split_and!; [done|done|]. intros _. by split.
    + split; [by left|]. exists [m], pend. split_and!; [done|done|]. intros _. by split.
  - left. injection Hrun as <- <-. eapply Hstay; [|done|done]. split_and!; [|split; [done|done|done]|done].
    pose proof (serve_event_ok json_error queue_name concurrency Hconc EvHeartbeat s Hok) as [Hok' _].
    eapply pair_queues; [done|exact Hok'|done|done|done|done|done|]. by repeat constructor.
Qed.

Lemma encode_frames_snoc pend frame bs b :
  encode_frames pend = Ok bs -> encode_frame frame = Ok b -> encode_frames (pend ++ [frame]) = Ok (bs ++ b).
Proof using Type.
  intros Hbs Hb. revert bs Hbs. induction pend as [|f pend IH]; intros bs; simpl.
  - intros [= <-]. rewrite Hb. simpl. by rewrite app_nil_r.
  - destruct (encode_frame f); simpl; [|done]. destruct (encode_frames pend) as [bs'|]; simpl; [|done].
    intros [= <-]. rewrite (IH bs') by done. simpl. by rewrite app_assoc.
Qed.

(** A frame arrives. *)
Lemma pair_arrive w s pend frame later b unread :
  pair_ok w s (pend ++ frame :: later) unread -> bytes_ok s pend -> encode_frame frame = Ok b ->
  let out := arrive json_error queue_name concurrency b s in
  (out.2 = None \/ out.2 = Some (Ok tt)) /\ se_written out.1 = se_written s /\
  exists pend', pair_ok w out.1 (pend' ++ later) unread /\ (out.2 = None -> bytes_ok out.1 pend').
Proof.
  intros Hp [Hbuf Hsock Hidle] Hb. unfold arrive. cbn [serve_event].
  refine (pair_again w (se_set_bytes (se_buffer s) (se_socket s ++ b) s) (pend ++ [frame]) later unread _ _ _).
  - rewrite <-app_assoc. by apply (pair_same w s).
  - done.
  - by apply encode_frames_snoc.
Qed.

(** *** The server *)

(** A worker as far as its session is concerned *)
Definition connected (w : WorkerState) : Prop :=
  ws_queue_name w = queue_name /\ ws_capacity_slots w = concurrency /\ ob_open (ws_outbound w) = true.

Definition same_connection (w w' : WorkerState) : Prop :=
  ws_queue_name w' = ws_queue_name w /\ ws_capacity_slots w' = ws_capacity_slots w /\
  ws_in_flight_dispatches w' = ws_in_flight_dispatches w /\ ws_draining w' = ws_draining w /\
  ws_outbound w' = ws_outbound w.

(** What the others do to a worker: they reserve its slots and queue jobs for it. *)
Definition job_queued (w w' : WorkerState) : Prop :=
  exists d job, ws_draining w = false /\ d ∉ ws_in_flight_dispatches w /\
    ws_queue_name w' = ws_queue_name w /\ ws_capacity_slots w' = ws_capacity_slots w /\ ws_draining w' = false /\
    ws_in_flight_dispatches w' = {[d]} ∪ ws_in_flight_dispatches w /\
    ws_outbound w' = mkOutbound true (ob_frames (ws_outbound w) ++ [dispatch_frame d job]).

Definition acks_ok (id : Z) (s : system) : Prop :=
  Forall (fun x => x.1.1 = id -> x.2 = true) (sys_waiting s).

Lemma same_connection_refl w : same_connection w w.
Proof using Type. by unfold same_connection. Qed.

Lemma server_step_worker id sys sys' w :
  server_step id sys sys' -> system_ok sys -> acks_ok id sys ->
  reg_workers (sys_registry sys) !! id = Some w -> connected w ->
  acks_ok id sys' /\ exists w', reg_workers (sys_registry sys') !! id = Some w' /\
    (same_connection w w' \/ job_queued w w').
Proof using Type.
  intros Hstep Hok Hack Hw Hc. unfold acks_ok in *.
  destruct Hstep as [queues r permits waiting ps r' Hres|r p permits permits' waiting HP
    |r p permits permits' waiting d job res r' HP Hd|r permits waiting waiting' p d queued wrote HP Hwr Hid
    |r permits waiting other now message res r' Hne Hm Hf|r permits waiting other queue running free now r' _ _ _ _ Hreg
    |r permits waiting other Hne|r permits waiting other Hne]; simpl in *.
  - split; [done|]. pose proof (reserve_from queues r ps r' (so_wf _ Hok) Hres) as Hfrom.
    pose proof (rf_lookup _ _ _ id Hfrom) as Hl. rewrite Hw in Hl. eexists. split; [exact Hl|]. by left.
  - split; [done|]. unfold release_permit. destruct (decide (p = id)) as [->|Hne].
    + rewrite Hw. simpl. rewrite lookup_insert, decide_True by done. eexists. split; [done|]. by left.
    + exists w. split; [|left; apply same_connection_refl].
      destruct (reg_workers r !! p); simpl; [by rewrite lookup_insert_ne by done|done].
  - unfold dispatch_queue in Hd. destruct (decide (p = id)) as [->|Hne].
    + rewrite Hw in Hd. destruct (ws_draining w) eqn:Hdr; [|case_decide as Hin].
      * simplify_eq. split; [done|]. simpl. rewrite lookup_insert, decide_True by done. eexists. split; [done|]. by left.
      * simplify_eq. split; [done|]. simpl. rewrite lookup_insert, decide_True by done. eexists. split; [done|]. by left.
      * destruct Hc as (_ & _ & Hopen). unfold send in Hd. simpl in Hd. rewrite Hopen in Hd. simpl in Hd. simplify_eq.
        split; [by constructor|]. simpl. rewrite lookup_insert, decide_True by done. eexists. split; [done|].
        right. by exists d, job.
    + split.
      * destruct res; [|done]. constructor; [done|done].
      * exists w. split; [|left; apply same_connection_refl].
        destruct (reg_workers r !! p); [|by simplify_eq].
        repeat case_match; simplify_eq/=; by rewrite lookup_insert_ne by done.
  - rewrite HP in Hack. apply Forall_cons in Hack as [Hq Hack]. split; [done|]. exists w. split; [|left; apply same_connection_refl].
    unfold dispatch_finish. destruct wrote; [done|]. simpl. unfold release_dispatched. simpl in Hq.
    destruct (decide (p = id)) as [->|Hne]; [specialize (Hid eq_refl); specialize (Hq eq_refl); congruence|].
    destruct (reg_workers r !! p); simpl; [by rewrite lookup_insert_ne by done|done].
  - split; [done|]. exists w. split; [|left; apply same_connection_refl].
    pose proof (handle_frame_other other now message r res r' id Hf Hne) as Ho.
    destruct res as [[]|]; simpl; by rewrite Ho.
  - split; [done|]. exists w. split; [|left; apply same_connection_refl].
    unfold register_worker in Hreg. destruct (reg_workers r !! other) eqn:Ho; simplify_eq. simpl.
    rewrite lookup_insert_ne; [done|]. congruence.
  - split; [done|]. exists w. split; [|left; apply same_connection_refl]. by rewrite lookup_delete_ne.
  - split; [done|]. exists w. split; [|left; apply same_connection_refl]. by rewrite lookup_alter_ne.
Qed.

Lemma pair_same_connection w w' s inbox unread :
  same_connection w w' -> pair_ok w s inbox unread -> pair_ok w' s inbox unread.
Proof using Type.
  intros (_ & _ & Hfl & Hd & Ho) [? ? ? ? ? ? ?]. split; rewrite ?Ho, ?Hfl, ?Hd; done.
Qed.

Lemma phase_more draining s inbox unread f :
  draining = false -> ordinary queue_name f -> phase_ok queue_name draining s inbox unread ->
  phase_ok queue_name draining s (inbox ++ [f]) unread.
Proof using Type.
  intros -> Hf. assert (Forall (ordinary queue_name) inbox -> Forall (ordinary queue_name) (inbox ++ [f])) as Hin.
  { intros H. apply Forall_app. split; [done|by repeat constructor]. }
  unfold phase_ok. destruct (se_state s), (se_blocked s); try done.
  - intros (? & ? & ? & ?). auto.
  - intros (? & ? & ? & ?). auto.
  - intros (? & [(? & ? & ?)|(? & _)]); [|done]. split; [done|]. left. auto.
  - by intros (? & _).
Qed.

(** A frame is queued for the worker. *)
Lemma pair_sent w w' s inbox unread f :
  ws_draining w = false -> ws_draining w' = false -> ordinary queue_name f ->
  ob_frames (ws_outbound w') = ob_frames (ws_outbound w) ++ [f] ->
  ws_in_flight_dispatches w' = list_to_set (dispatched [f]).*2 ∪ ws_in_flight_dispatches w ->
  Forall (fun d => d ∉ ws_in_flight_dispatches w) (dispatched [f]).*2 ->
  pair_ok w s inbox unread -> pair_ok w' s (inbox ++ [f]) unread.
Proof using Type.
  intros Hd Hd' Hf Ho Hfl Hfresh [Hok Hj Hnd Hset Hm Hdr Hp].
  assert (outstanding s (inbox ++ [f]) unread ≡ₚ dispatched [f] ++ outstanding s inbox unread) as HO.
  { unfold outstanding. rewrite dispatched_app. solve_Permutation. }
  split; try done.
  - by rewrite Ho, !dispatched_app, Hj, <-app_assoc.
  - rewrite HO, fmap_app. apply NoDup_app. split_and!; [| |done].
    + unfold dispatched. simpl. destruct (dispatched_job f); simpl; [apply NoDup_singleton|apply NoDup_nil_2].
    + intros d Hin Hin'. rewrite Forall_forall in Hfresh. apply (Hfresh d Hin). rewrite Hset. by apply elem_of_list_to_set.
  - rewrite Hfl, Hset. apply leibniz_equiv. rewrite HO, fmap_app, list_to_set_app. done.
  - rewrite Hd in Hp. rewrite Hd'. by apply phase_more.
Qed.

Lemma pair_job_queued w w' s inbox unread :
  job_queued w w' -> pair_ok w s inbox unread ->
  exists f, ob_frames (ws_outbound w') = ob_frames (ws_outbound w) ++ [f] /\ pair_ok w' s (inbox ++ [f]) unread.
Proof using Type.
  intros (d & job & Hd & Hin & _ & _ & Hd' & Hfl & Ho) Hp. exists (dispatch_frame d job). rewrite Ho. split; [done|].
  eapply pair_sent; [exact Hd|exact Hd'|apply ordinary_dispatch|by rewrite Ho| | |done].
  - rewrite Hfl. simpl. by rewrite union_empty_r_L.
  - simpl. by constructor.
Qed.

(** The server reads a message of the worker. *)
Lemma pair_read id now m unread w s inbox sys :
  concurrency <= u32_max -> m ∈ se_written s ->
  reg_workers (sys_registry sys) !! id = Some w -> connected w -> pair_ok w s inbox (m :: unread) ->
  exists w' sys' l, read_step id now m sys = (Ok tt, sys') /\ system_step sys sys' /\ sys_waiting sys' = sys_waiting sys /\
    reg_workers (sys_registry sys') !! id = Some w' /\ connected w' /\
    ob_frames (ws_outbound w') = ob_frames (ws_outbound w) ++ l /\ pair_ok w' s (inbox ++ l) unread.
Proof using Hconc.
  intros Hmax Hmw Hw Hc Hp. destruct sys as [r permits waiting]. simpl in *.
  pose proof (po_messages _ _ _ _ Hp) as Hfrom. rewrite Forall_app, Forall_cons in Hfrom. destruct Hfrom as (Hout & Hm & Hun).
  assert (message_u32 m) as Hu32.
  { pose proof (so_sums _ _ (po_session _ _ _ _ Hp)) as Hs. apply Forall_app in Hs as [_ Hs].
    rewrite Forall_forall in Hs. specialize (Hs m Hmw). destruct m; try done. simpl in *. unfold is_u32. lia. }
  destruct (handle_frame id now m r) as [res r'] eqn:Hh.
  pose proof (step_frame r permits waiting id now m res r' Hu32 Hh) as Hstep.
  unfold read_step. simpl. rewrite Hh. unfold handle_frame in Hh. rewrite Hw in Hh.
  destruct Hp as [Hok Hj Hnd Hset Hmsg Hdr Hph]. destruct Hc as (Hq & Hcap & Hopen).
  destruct m as [| |job_id d result running free| | | | |]; try done; cbn [fst snd] in Hh.
  - injection Hh as <- <-. eexists _, _, []. split; [done|]. split; [exact Hstep|]. split; [done|]. simpl.
    rewrite lookup_insert, decide_True by done. split; [done|]. split; [done|]. rewrite !app_nil_r. split; [done|].
    assert (outstanding s inbox (JobResultMsg job_id d result running free :: unread) ≡ₚ
      (job_id, d) :: outstanding s inbox unread) as HO by (unfold outstanding; simpl; solve_Permutation).
    rewrite HO in Hnd. simpl in Hnd. apply NoDup_cons in Hnd as [Hd Hnd].
    split; try done.
    + simpl. rewrite Hset. apply leibniz_equiv. rewrite HO. simpl. intros x.
      rewrite elem_of_difference, elem_of_union, elem_of_singleton, !elem_of_list_to_set.
      split; [intros [[->|?] Hne]; [by destruct Hne|done]|]. intros Hx. split; [by right|]. by intros ->.
    + by apply Forall_app.
  - unfold begin_drain, send in Hh. simpl in Hh. rewrite Hopen in Hh. injection Hh as <- <-.
    eexists _, _, [v1 Draining]. split; [done|]. split; [exact Hstep|]. split; [done|]. simpl.
    rewrite lookup_insert, decide_True by done. split; [done|]. split; [done|]. split; [done|].
    assert (outstanding s (inbox ++ [v1 Draining]) unread = outstanding s inbox (Drain :: unread)) as HO.
    { unfold outstanding. rewrite dispatched_app. simpl. by rewrite app_nil_r. }
    split; rewrite ?HO; try done.
    + simpl. by rewrite !dispatched_app, Hj, <-app_assoc.
    + by apply Forall_app.
    + unfold phase_ok in *. rewrite count_cons, decide_True in Hph by done. simpl in *.
      destruct (se_state s), (se_blocked s); try (destruct_and?; lia); try done.
      destruct Hph as (? & [(Hd & Hs & Hin)|(? & ? & _)]); [|lia]. split; [done|]. right. split_and!; [done|lia|].
      by exists inbox.
  - injection Hh as <- <-. eexists _, _, []. split; [done|]. split; [exact Hstep|]. split; [done|]. simpl.
    rewrite lookup_insert, decide_True by done. split; [done|]. split; [done|]. rewrite !app_nil_r. split; [done|].
    split; try done. by apply Forall_app.
Qed.
End worker.

(** The server reads back what the writer of the SDK encodes. *)
Lemma server_read_encoded `{Cb : Cbor} `{CL : !CborLaws Cb} frame b rest :
  encode_frame frame = Ok b -> Registry.read_frame (b ++ rest) = Ok (frame, rest).
Proof.
  intros (body & -> & Hl & Hf & Hv)%encode_frame_Ok. unfold Registry.read_frame, read_exact.
  rewrite decide_False by (rewrite !length_app, length_to_be_bytes; lia). cbn [map_err result_bind fst snd].
  rewrite <-app_assoc, take_app_length', drop_app_length' by (by rewrite length_to_be_bytes).
  rewrite from_to_be_bytes by (unfold MAX_FRAME_BYTES in *; change (2 ^ (8 * Z.of_nat 4)) with 4294967296; lia).
  rewrite decide_False by lia. rewrite Nat2Z.id.
  rewrite (decide_False (P := (length (body ++ rest) < length body)%nat)) by (rewrite length_app; lia).
  cbn [map_err result_bind fst snd]. rewrite take_app_length, drop_app_length. by rewrite (decode_encoded _ frame).
Qed.

(** ** The invariant of the connection *)

Section link.
Context `{Cb : Cbor} `{CL : !CborLaws Cb} (json_error : bytes -> option string).
Context (id : Z) (queue_name : string) (concurrency : Z) (Hconc : is_u32 concurrency).

(** What the worker has written and the server has not read *)
Definition unread (l : link) : list WorkerMessage := drop (lk_read l) (se_written (lk_worker l)).

(** The frames the session has not handled: those in its socket and those on their way *)
Definition in_transit (w : WorkerState) (l : link) (pend : list WireFrame) : list WireFrame :=
  pend ++ drop (lk_arrived l) (ob_frames (ws_outbound w)).

Record link_ok (l : link) : Prop := {
  lo_system : system_ok (lk_server l);
  lo_acks : acks_ok id (lk_server l);
  lo_read : (lk_read l <= length (se_written (lk_worker l)))%nat;
  lo_worker : exists w pend,
    reg_workers (sys_registry (lk_server l)) !! id = Some w /\ connected queue_name concurrency w /\
    (lk_arrived l <= length (ob_frames (ws_outbound w)))%nat /\
    pair_ok queue_name concurrency w (lk_worker l) (in_transit w l pend) (unread l) /\ bytes_ok (lk_worker l) pend /\
    (lk_greeted l = false -> ws_draining w = false)
}.

Lemma link_new_ok now sys :
  system_ok sys -> reg_workers (sys_registry sys) !! id = None -> id ∉ sys_permits sys ->
  id ∉ (fst ∘ fst) <$> sys_waiting sys ->
  link_ok (link_new id queue_name concurrency now sys).
Proof using Hconc.
  destruct sys as [r permits waiting]. simpl. intros Hok Hid Hp Hwt. unfold link_new, on_registry, register_worker. simpl.
  rewrite Hid. simpl. split; simpl.
  - eapply (system_ok_register id queue_name 0 concurrency now r); [done|u32|done|done|]. unfold register_worker. by rewrite Hid.
  - apply Forall_forall. intros x Hx Heq. exfalso. apply Hwt, list_elem_of_fmap. by exists x.
  - lia.
  - eexists _, []. rewrite lookup_insert, decide_True by done. split; [done|]. split.
    { split; [done|]. split; [|done]. simpl. u32. }
    split; [simpl; lia|]. unfold unread, in_transit. simpl. split; [|split; [by split|done]].
    assert (outstanding (session_new queue_name concurrency id) [] [] = []) as HO.
    { unfold outstanding, tasks_in. simpl. by rewrite map_to_list_empty. }
    split; simpl; rewrite ?HO; try done; [apply session_new_ok; apply Hconc|apply NoDup_nil_2|].
    intros x Hx. by apply not_elem_of_nil in Hx.
Qed.

Lemma drop_app_more {A} n (l k : list A) : (n <= length l)%nat -> drop n (l ++ k) = drop n l ++ k.
Proof using Type. intros. by rewrite drop_app_le. Qed.

Lemma greet_system_ok sys : system_ok sys -> system_ok (on_registry (greet id queue_name) sys).
Proof using Type.
  destruct sys as [r permits waiting]. intros [Hwf Hres Hcap]. unfold on_registry, greet. simpl in *.
  split; simpl; intros id' w' Hw; simpl in Hw; apply lookup_alter_Some in Hw as [(<- & w & Hw & ->)|[_ Hw]];
    [by destruct (Hwf _ _ Hw)|by apply (Hwf id')|exact (Hres _ _ Hw)|exact (Hres _ _ Hw)|exact (Hcap _ _ Hw)|exact (Hcap _ _ Hw)].
Qed.

Lemma link_step_ok l l' : link_ok l -> link_step json_error id queue_name concurrency l l' -> link_ok l'.
Proof using CL Hconc.
  intros [Hsys Hack Hread (w & pend & Hw & Hc & Harr & Hp & Hb & Hg)] Hstep.
  assert (0 <= concurrency) as H0 by u32.
  destruct Hstep as [sys sys' greeted s arrived read Hs|sys s arrived read|sys greeted s s' arrived read frame b Hfr Henc Hrun
    |sys greeted s s' arrived read e He Hrun|sys sys' s arrived read m b frame now Hm Henc Hfr Hrun];
    unfold unread, in_transit in *; simpl in *.
  - pose proof (system_step_ok _ _ Hsys (server_step_system _ _ _ Hs)) as Hsys'.
    destruct (server_step_worker queue_name concurrency id sys sys' w Hs Hsys Hack Hw Hc) as (Hack' & w' & Hw' & Hcase).
    split; simpl; [done|done|done|]. exists w', pend. unfold unread, in_transit. simpl. split; [done|].
    destruct Hc as (Hq & Hcap & Hopen). destruct Hcase as [Hsame|Hjob].
    + pose proof Hsame as (E1 & E2 & _ & E4 & E5). rewrite E5. unfold connected. rewrite E1, E2, E4, E5.
      split; [done|]. split; [done|]. split; [by eapply pair_same_connection|done].
    + destruct (pair_job_queued queue_name concurrency w w' s _ _ Hjob Hp) as (f & Ho & Hp').
      destruct Hjob as (d & job & _ & _ & E1 & E2 & E3 & _ & E5). split; [split_and!; [congruence|congruence|by rewrite E5]|].
      rewrite Ho. split; [rewrite length_app; lia|]. by rewrite drop_app_more, app_assoc by done.
  - set (w' := set_outbound (send (v1 (Registered queue_name)) (ws_outbound w)).2 w).
    assert (reg_workers (greet id queue_name (sys_registry sys)) !! id = Some w') as Hw'.
    { unfold greet. simpl. by rewrite lookup_alter_eq, Hw. }
    destruct Hc as (Hq & Hcap & Hopen).
    assert (ws_outbound w' = mkOutbound true (ob_frames (ws_outbound w) ++ [v1 (Registered queue_name)])) as Ho.
    { unfold w', send. by rewrite Hopen. }
    assert (connected queue_name concurrency w') as Hc' by (split_and!; [done|done|by rewrite Ho]).
    assert (ws_in_flight_dispatches w' = ws_in_flight_dispatches w /\ ws_draining w' = ws_draining w) as [Hfl Hdr] by done.
    clearbody w'. split; simpl; [by apply greet_system_ok|done|done|]. exists w', pend. unfold unread, in_transit. simpl.
    rewrite Ho, Hdr. simpl. split_and!; [done|apply Hc'..|rewrite length_app; lia| |done|done].
    rewrite drop_app_more, app_assoc by done.
    eapply pair_sent; [by apply Hg|by rewrite Hdr; apply Hg|done|by rewrite Ho| | |done]; simpl; [|done].
    by rewrite Hfl, union_empty_l_L.
  - unfold frames_to in Hfr. rewrite Hw in Hfr. rewrite (drop_S _ _ _ Hfr) in Hp.
    destruct (pair_arrive json_error queue_name concurrency H0 w s pend frame _ b _ Hp Hb Henc) as (_ & Hwr & pend' & Hp' & Hb').
    rewrite Hrun in *. simpl in *. split; simpl; [done|done|by rewrite Hwr|].
    exists w, pend'. unfold unread, in_transit. simpl. rewrite Hwr. apply lookup_lt_Some in Hfr.
    split_and!; [done|done..|lia|done|by apply Hb'|done].
  - destruct (pair_event json_error queue_name concurrency H0 w s e s' None pend _ _ Hp Hb He Hrun)
      as [(_ & k & pend' & Hwr & Hp' & Hb')|[?|[_ ?]]]; [|done|done].
    split; simpl; [done|done|rewrite Hwr, length_app; lia|]. exists w, pend'. unfold unread, in_transit. simpl.
    rewrite Hwr, drop_app_more by done. split_and!; [done|done..|by apply Hb'|done].
  - rewrite (drop_S _ _ _ Hm) in Hp. pose proof Hm as Hin%list_elem_of_lookup_2.
    assert (frame = v1 m) as ->.
    { pose proof (server_read_encoded (v1 m) b [] Henc) as E. rewrite app_nil_r in E. congruence. }
    destruct (pair_read queue_name concurrency H0 id now m _ w s _ sys ltac:(apply Hconc) Hin Hw Hc Hp)
      as (w' & sys1 & k & Hrun' & Hstep & Hwt & Hw' & Hc' & Ho & Hp').
    cbn [payload v1] in Hrun. rewrite Hrun' in Hrun. injection Hrun as <-. apply lookup_lt_Some in Hm.
    split; simpl; [by eapply system_step_ok|unfold acks_ok; by rewrite Hwt|lia|]. exists w', pend.
    unfold unread, in_transit. simpl. rewrite Ho, drop_app_more, app_assoc by done.
    split_and!; [done|apply Hc'..|rewrite length_app; lia|done|done|done].
Qed.

Lemma link_reachable_ok l : link_reachable json_error id queue_name concurrency l -> link_ok l.
Proof using CL Hconc.
  intros (now & sys & Hsys%system_reachable_ok & (Hid & Hp & Hwt) & Hrun).
  pose proof (link_new_ok now sys Hsys Hid Hp Hwt) as Hnew. revert Hnew.
  induction Hrun as [|l1 l2 l3 Hs _ IH]; intros Hl; [done|]. apply IH. by eapply link_step_ok.
Qed.

(** The worker of the connection, and the frames its session has not handled *)
Lemma link_worker l :
  link_reachable json_error id queue_name concurrency l ->
  system_ok (lk_server l) /\ (lk_read l <= length (se_written (lk_worker l)))%nat /\ exists w pend,
    reg_workers (sys_registry (lk_server l)) !! id = Some w /\ connected queue_name concurrency w /\
    pair_ok queue_name concurrency w (lk_worker l) (in_transit w l pend) (unread l) /\ bytes_ok (lk_worker l) pend.
Proof using CL Hconc.
  intros [Hsys _ Hr (w & pend & Hw & Hc & _ & Hp & Hb & _)]%link_reachable_ok. split; [done|]. split; [done|].
  exists w, pend. done.
Qed.
End link.

(** *** Slots *)

Lemma tasks_in_le P Q tasks :
  (forall p, P p = true -> Q p = true) -> (length (tasks_in P tasks) <= length (tasks_in Q tasks))%nat.
Proof.
  intros HPQ. unfold tasks_in. induction (map_to_list tasks).*2 as [|t l IH]; [done|]. rewrite !filter_cons.
  destruct (decide (P (t_phase t) = true)) as [HP|HP].
  - rewrite decide_True by auto. simpl. lia.
  - case_decide; simpl; lia.
Qed.

(** A task that has not started leaves a slot to those that run. *)
Lemma new_task_counts tasks key t payload :
  tasks !! key = Some t -> t_phase t = TNew payload ->
  (length (tasks_in running_phase tasks) < length (tasks_in executing_phase tasks))%nat.
Proof.
  intros Ht Hp. rewrite (tasks_in_delete running_phase _ _ _ Ht), (tasks_in_delete executing_phase _ _ _ Ht), Hp. simpl.
  pose proof (tasks_in_le running_phase executing_phase (delete key tasks)) as Hle.
  enough (length (tasks_in running_phase (delete key tasks)) <= length (tasks_in executing_phase (delete key tasks)))%nat by lia.
  apply Hle. by intros [].
Qed.

(** The jobs in flight fit the slots of the worker. *)
Lemma executing_fits concurrency queue_name w s inbox unread sys id :
  system_ok sys -> reg_workers (sys_registry sys) !! id = Some w -> connected queue_name concurrency w ->
  pair_ok queue_name concurrency w s inbox unread ->
  Z.of_nat (length (outstanding s inbox unread)) <= concurrency.
Proof.
  intros Hok Hw (_ & Hcap & _) Hp. pose proof (so_capacity _ Hok _ _ Hw) as Hc.
  pose proof (so_reserved _ Hok _ _ Hw) as Hr. rewrite (po_flight _ _ _ _ _ _ Hp), Hcap in Hc.
  rewrite size_list_to_set, length_fmap in Hc by apply Hp. lia.
Qed.

(** ** Properties *)

(** C12. The server and the SDK agree on the jobs in flight: at any time the dispatches the registry
    holds for the worker are, each exactly once, the jobs in frames the session has not handled, those
    it executes, and those in reports the server has not read; and the session has spawned the jobs
    the server has sent, in order, none lost and none twice. *)
Theorem server_and_worker_agree `{Cbor} `{!CborLaws _} json_error id queue_name concurrency l :
  is_u32 concurrency -> link_reachable json_error id queue_name concurrency l ->
  exists w transit,
    reg_workers (sys_registry (lk_server l)) !! id = Some w /\ ws_capacity_slots w = concurrency /\
    dispatched (frames_to id (lk_server l)) = se_spawned (lk_worker l) ++ dispatched transit /\
    let jobs := outstanding (lk_worker l) transit (unread l) in
    NoDup jobs.*2 /\ ws_in_flight_dispatches w = list_to_set jobs.*2.
Proof.
  intros Hc Hl. destruct (link_worker json_error id queue_name concurrency Hc l Hl) as (_ & _ & w & pend & Hw & (_ & Hcap & _) & Hp & _).
  exists w, (in_transit w l pend). unfold frames_to. rewrite Hw. split_and!; [done|done|apply Hp..].
Qed.

(** C14. Each side only gets what it expects: no frame the server sends ends the session with an error, no
    message the worker sends makes the server drop it, and the session ends only when it has drained,
    when a handler panics, or when the connection or its writer is lost. *)
Theorem every_frame_is_expected `{Cbor} `{!CborLaws _} json_error id queue_name concurrency l :
  is_u32 concurrency -> link_reachable json_error id queue_name concurrency l ->
  (forall frame b, frames_to id (lk_server l) !! lk_arrived l = Some frame -> encode_frame frame = Ok b ->
    (arrive json_error queue_name concurrency b (lk_worker l)).2 ∈ [None; Some (Ok tt)]) /\
  (forall e s' r, (forall b, e <> EvBytes b) ->
    serve_event json_error queue_name concurrency e (lk_worker l) = (s', Some r) ->
    r = Ok tt \/ r = Err Stopped \/ e = EvClosed /\ r = Err (EProtocol (Io "early eof"))) /\
  (forall now m, se_written (lk_worker l) !! lk_read l = Some m ->
    exists sys', read_step id now m (lk_server l) = (Ok tt, sys')).
Proof.
  intros Hc Hl. destruct (link_worker json_error id queue_name concurrency Hc l Hl) as (_ & _ & w & pend & Hw & Hcon & Hp & Hb).
  assert (0 <= concurrency) as H0' by apply Hc. split_and!.
  - intros frame b Hf Henc. unfold frames_to in Hf. rewrite Hw in Hf. unfold in_transit in Hp. rewrite (drop_S _ _ _ Hf) in Hp.
    destruct (pair_arrive json_error queue_name concurrency H0' w _ pend frame _ b _ Hp Hb Henc) as [[-> | ->] _]; set_solver.
  - intros e s' r He Hrun.
    destruct (pair_event json_error queue_name concurrency H0' w _ e s' _ pend _ _ Hp Hb He Hrun)
      as [[[?|?] _]|[?|[? ?]]]; simplify_eq; auto.
  - intros now m Hm. unfold unread in Hp. rewrite (drop_S _ _ _ Hm) in Hp. pose proof Hm as Hin%list_elem_of_lookup_2.
    destruct (pair_read queue_name concurrency H0' id now m _ w _ _ _ ltac:(apply Hc) Hin Hw Hcon Hp) as (_ & sys' & _ & Hr & _).
    by exists sys'.
Qed.

(** C13. A job that has arrived never waits for a slot: the reservations of the server keep the jobs of
    the worker within its concurrency, so that its task enters the handler as soon as it is run. *)
Theorem jobs_start_at_once `{Cbor} `{!CborLaws _} json_error id queue_name concurrency l key payload :
  is_u32 concurrency -> link_reachable json_error id queue_name concurrency l ->
  phase_of key (lk_worker l) = Some (TNew payload) -> json_error payload = None ->
  exists s', serve_event json_error queue_name concurrency (EvRun key) (lk_worker l) = (s', None) /\
    phase_of key s' = Some TRunning.
Proof.
  intros Hc Hl Hk Hj. destruct (link_worker json_error id queue_name concurrency Hc l Hl) as (Hok & _ & w & pend & Hw & Hcon & Hp & _).
  pose proof (executing_fits _ _ _ _ _ _ _ _ Hok Hw Hcon Hp) as Hfit.
  pose proof (so_slots _ _ (po_session _ _ _ _ _ _ Hp)) as [Hs1 Hs2].
  unfold phase_of in *. destruct (se_tasks (lk_worker l) !! key) as [t|] eqn:Ht; [|done]. injection Hk as Hk.
  pose proof (new_task_counts _ _ _ _ Ht Hk) as Hlt.
  unfold outstanding in Hfit. rewrite !length_app, length_fmap in Hfit.
  cbn [serve_event]. unfold run_task. rewrite Ht, Hk, Hj.
  destruct (Z.ltb_spec 0 (se_slots (lk_worker l))) as [|Hz]; [|lia].
  eexists. split; [done|]. simpl. by rewrite lookup_insert, decide_True by done.
Qed.

(** C15. When the session ends well, the worker leaves nothing behind: the server sends it no more jobs,
    it has spawned and reported every job it was ever sent, and what the registry still holds are the
    reports that have been written and not yet read. *)
Theorem drained_worker_leaves_nothing `{Cbor} `{!CborLaws _} json_error id queue_name concurrency l e s' :
  is_u32 concurrency -> link_reachable json_error id queue_name concurrency l ->
  (forall b, e = EvBytes b -> exists frame,
    frames_to id (lk_server l) !! lk_arrived l = Some frame /\ encode_frame frame = Ok b) ->
  serve_event json_error queue_name concurrency e (lk_worker l) = (s', Some (Ok tt)) ->
  exists w, reg_workers (sys_registry (lk_server l)) !! id = Some w /\ ws_draining w = true /\
    se_spawned s' = dispatched (frames_to id (lk_server l)) /\ se_spawned s' ≡ₚ reports (se_written s') /\
    ws_in_flight_dispatches w = list_to_set (reports (drop (lk_read l) (se_written s'))).*2.
Proof.
  intros Hc Hl He Hrun. destruct (link_worker json_error id queue_name concurrency Hc l Hl) as (_ & Hr & w & pend & Hw & Hcon & Hp & Hb).
  assert (0 <= concurrency) as H0' by apply Hc.
  assert (exists inbox k, se_written s' = se_written (lk_worker l) ++ k /\
    pair_ok queue_name concurrency w s' inbox (unread l ++ k)) as (inbox & k & Hwr & Hp').
  { assert ((exists b, e = EvBytes b) \/ forall b, e <> EvBytes b) as [[b ->]|Hne] by (destruct e; eauto).
    - destruct (He b eq_refl) as (frame & Hf & Henc). unfold frames_to in Hf. rewrite Hw in Hf.
      unfold in_transit in Hp. rewrite (drop_S _ _ _ Hf) in Hp.
      destruct (pair_arrive json_error queue_name concurrency H0' w _ pend frame _ b _ Hp Hb Henc) as (_ & Hwr & pend' & Hp' & _).
      unfold arrive in *. rewrite Hrun in *. simpl in *. eexists _, []. rewrite !app_nil_r. split; [done|exact Hp'].
    - destruct (pair_event json_error queue_name concurrency H0' w _ e s' _ pend _ _ Hp Hb Hne Hrun)
        as [[_ (k & pend' & Hwr & Hp' & _)]|[?|[_ ?]]]; [|done|done]. by eexists _, k. }
  destruct (serve_event_ok json_error queue_name concurrency H0' e _ (po_session _ _ _ _ _ _ Hp)) as [_ Hend].
  rewrite Hrun in Hend. destruct (Hend eq_refl) as [Hst Htasks]. simpl in Hst, Htasks.
  pose proof (no_tasks_no_reports concurrency s' (po_session _ _ _ _ _ _ Hp') Htasks) as Hrep.
  pose proof (po_phase _ _ _ _ _ _ Hp') as Hph. unfold phase_ok in Hph. rewrite Hst in Hph.
  destruct (se_blocked s'); [done|]. destruct Hph as (Hdr & _ & _ & ->).
  exists w. split_and!; [done|done| |done|].
  - unfold frames_to. rewrite Hw, (po_jobs _ _ _ _ _ _ Hp'). symmetry. apply app_nil_r.
  - rewrite (po_flight _ _ _ _ _ _ Hp'). unfold outstanding. rewrite Htasks. unfold tasks_in at 1. rewrite map_to_list_empty.
    assert (reports (se_outbound s').*1 = []) as ->.
    { apply nil_length_inv. pose proof (so_jobs _ _ (po_session _ _ _ _ _ _ Hp')) as Hj%Permutation_length.
      apply Permutation_length in Hrep. rewrite !length_app in Hj. lia. }
    unfold unread. by rewrite Hwr, drop_app_le.
Qed.

(** ** Examples *)

(** A serializer of the messages of a list: each is its place in the list. *)
Definition table_cbor (ms : list WorkerMessage) : Cbor := {|
  to_vec := fun f =>
    match list_find (fun m => f = v1 m) ms with
    | Some (i, _) => if decide (Z.of_nat i < 256) then Ok [byte_of (Z.of_nat i)] else Err "unsupported"%string
    | None => Err "unsupported"%string
    end;
  from_slice := fun b =>
    match b with
    | [x] => match ms !! Z.to_nat (byte_val x) with Some m => Ok (v1 m) | None => Err "unexpected"%string end
    | _ => Err "unexpected"%string
    end
|}.

#[export] Instance table_cbor_laws ms : CborLaws (table_cbor ms).
Proof.
  split. simpl. intros f b. destruct (list_find _ ms) as [[i m]|] eqn:Hf; [|done].
  apply list_find_Some in Hf as (Hm & -> & _). case_decide as Hi; [|done]. intros [= <-].
  by rewrite byte_val_of, Z.mod_small, Nat2Z.id, Hm by lia.
Qed.

Definition link_cbor : Cbor := table_cbor
  [Registered "q"; JobDispatch 1 "d" 1 [Byte.x61]; Draining; Drain; JobResultMsg 1 "d" (JSucceeded []) 0 2; Heartbeat].

Definition link_job : Job := mkJob 1 "q" Running [Byte.x61] 1 None (Some "d"%string) None None 0 0.

(** A worker of two slots, from its registration to the answer to its [Drain] *)
Definition link_example : list move := [
  MvGreet; MvReserve [mkQueueReservation "q" 1]; MvDispatch 7 "d" link_job; MvArrive; MvAck; MvArrive;
  MvWorker (EvRun 0); MvWorker EvHeartbeat; MvWorker (EvHandler 0 (Ok [])); MvWorker EvShutdown; MvWorker EvWritten;
  MvWorker EvWritten; MvRead 5; MvWorker EvWritten; MvRead 6; MvRead 7; MvWorker (EvJoin 0) ].

Definition link_start : link := link_new 7 "q" 2 0 system_init.
Definition link_after (n : nat) : link :=
  default link_start (link_moves (Cb := link_cbor) (fun _ => None) 7 "q" 2 (take n link_example) link_start).

Lemma link_after_reachable n :
  link_moves (Cb := link_cbor) (fun _ => None) 7 "q" 2 (take n link_example) link_start = Some (link_after n) ->
  link_reachable (Cb := link_cbor) (fun _ => None) 7 "q" 2 (link_after n).
Proof.
  intros Hm. exists 0, system_init. split; [apply rtc_refl|]. split.
  - split; [apply lookup_empty|]. split; apply not_elem_of_nil.
  - by apply (link_moves_steps _ _ _ _ (take n link_example)).
Qed.

Lemma server_and_worker_agree_witness :
  let l := link_after 9 in
  exists w transit, reg_workers (sys_registry (lk_server l)) !! 7 = Some w /\ ws_capacity_slots w = 2 /\
    dispatched (frames_to 7 (lk_server l)) = [(1, "d"%string)] /\
    ws_in_flight_dispatches w = list_to_set (outstanding (lk_worker l) transit (unread l)).*2.
Proof.
  intros l. assert (is_u32 2) as Hc by u32.
  assert (link_reachable (Cb := link_cbor) (fun _ => None) 7 "q" 2 l) as Hl
    by (apply link_after_reachable; vm_compute; reflexivity).
  destruct (server_and_worker_agree (fun _ => None) 7 "q" 2 l Hc Hl) as (w & transit & Hw & Hcap & _ & _ & Hset).
  exists w, transit. split; [exact Hw|]. split; [exact Hcap|]. split; [vm_compute; reflexivity|exact Hset].
Defined.

Lemma every_frame_is_expected_witness :
  let l := link_after 12 in
  exists sys', read_step 7 5 Heartbeat (lk_server l) = (Ok tt, sys').
Proof.
  intros l. assert (is_u32 2) as Hc by u32.
  assert (link_reachable (Cb := link_cbor) (fun _ => None) 7 "q" 2 l) as Hl
    by (apply link_after_reachable; vm_compute; reflexivity).
  destruct (every_frame_is_expected (fun _ => None) 7 "q" 2 l Hc Hl) as (_ & _ & H).
  apply H. vm_compute. reflexivity.
Defined.

Lemma jobs_start_at_once_witness :
  let l := link_after 6 in
  exists s', serve_event (Cb := link_cbor) (fun _ => None) "q" 2 (EvRun 0) (lk_worker l) = (s', None) /\
    phase_of 0 s' = Some TRunning.
Proof.
  intros l. assert (is_u32 2) as Hc by u32.
  assert (link_reachable (Cb := link_cbor) (fun _ => None) 7 "q" 2 l) as Hl
    by (apply link_after_reachable; vm_compute; reflexivity).
  apply (jobs_start_at_once (fun _ => None) 7 "q" 2 l 0 [Byte.x61] Hc Hl); [vm_compute; reflexivity|reflexivity].
Defined.

(** The bytes of [Draining] *)
Definition link_draining : bytes := [Byte.x00; Byte.x00; Byte.x00; Byte.x01; Byte.x02].

Lemma drained_worker_leaves_nothing_witness :
  let l := link_after 17 in
  exists s' w, serve_event (Cb := link_cbor) (fun _ => None) "q" 2 (EvBytes link_draining) (lk_worker l) = (s', Some (Ok tt)) /\
    reg_workers (sys_registry (lk_server l)) !! 7 = Some w /\ ws_in_flight_dispatches w = ∅.
Proof.
  intros l. assert (is_u32 2) as Hc by u32.
  assert (link_reachable (Cb := link_cbor) (fun _ => None) 7 "q" 2 l) as Hl
    by (apply link_after_reachable; vm_compute; reflexivity).
  assert (exists s', serve_event (Cb := link_cbor) (fun _ => None) "q" 2 (EvBytes link_draining) (lk_worker l)
    = (s', Some (Ok tt)) /\ reports (drop (lk_read l) (se_written s')) = []) as (s' & Hrun & Hnone)
    by (eexists; split; [vm_compute; reflexivity|reflexivity]).
  destruct (drained_worker_leaves_nothing (fun _ => None) 7 "q" 2 l (EvBytes link_draining) s' Hc Hl)
    as (w & Hw & _ & _ & _ & Hset); [|exact Hrun|].
  - intros b [= <-]. exists (v1 Draining). split; vm_compute; reflexivity.
  - exists s', w. split; [exact Hrun|]. split; [exact Hw|]. rewrite Hset, Hnone. reflexivity.
Defined.
