(* ===== verification/Config.v ===== *)
(** * The configuration

    [crates/maqistor/src/config.rs]: what a configuration file may say, what it means for the other
    components, and the validation that decides whether the server starts. The file system,
    [humantime] and [chrono] are not under [src/]: they are the class [Host]. *)
From S2P Require Import Prelude Float Options Engine.
From Stdlib Require Import Ascii.

(** The operating system and the two parsers *)
Class Host := {
  is_file : string -> bool;
  path_exists : string -> bool;
  (** [fs::read_to_string] *)
  read_to_string : string -> result string string;
  (** [fs::canonicalize(..)?.to_string_lossy()] *)
  canonicalize : string -> result string string;
  (** [humantime::parse_duration], in nanoseconds *)
  parse_duration : string -> result string Z;
  (** [stamped.parse::<DateTime<FixedOffset>>()], the time of day in UTC, in nanoseconds *)
  parse_time : string -> result string Z
}.

(** ** Strings

    The bytes of UTF-8 strings; every pattern of the code is ASCII. *)

(** [s.starts_with(p)] *)
Definition starts_with (p s : string) : bool := String.prefix p s.

Definition string_rev (s : string) : string := String.string_of_list_ascii (reverse (String.list_ascii_of_string s)).

(** [s.ends_with(p)] *)
Definition ends_with (p s : string) : bool := starts_with (string_rev p) (string_rev s).

Fixpoint drop_slashes (l : list ascii) : list ascii :=
  match l with
  | c :: l' => if bool_decide (c = "/"%char) then drop_slashes l' else l
  | [] => []
  end.
(** [s.trim_end_matches('/')] *)
Definition trim_end_slashes (s : string) : string :=
  String.string_of_list_ascii (reverse (drop_slashes (reverse (String.list_ascii_of_string s)))).

(** The [White_Space] characters of three bytes *)
Definition white3 (a b c : nat) : bool :=
  ((a =? 225) && (b =? 154) && (c =? 128)
   || (a =? 226) && (b =? 128) && ((128 <=? c) && (c <=? 138) || (c =? 168) || (c =? 169) || (c =? 175))
   || (a =? 226) && (b =? 129) && (c =? 159)
   || (a =? 227) && (b =? 128) && (c =? 128))%nat.

(** [s.trim_start()] and, on the reversed bytes, [s.trim_end()] *)
Fixpoint trim_front (l : list ascii) : list ascii :=
  match l with
  | [] => []
  | a :: l1 =>
      let x := nat_of_ascii a in
      if ((9 <=? x) && (x <=? 13) || (x =? 32))%nat then trim_front l1
      else
        match l1 with
        | [] => l
        | b :: l2 =>
            let y := nat_of_ascii b in
            if ((x =? 194) && ((y =? 133) || (y =? 160)))%nat then trim_front l2
            else match l2 with
                 | [] => l
                 | c :: l3 => if white3 x y (nat_of_ascii c) then trim_front l3 else l
                 end
        end
  end.
Fixpoint trim_back (l : list ascii) : list ascii :=
  match l with
  | [] => []
  | c :: l1 =>
      let z := nat_of_ascii c in
      if ((9 <=? z) && (z <=? 13) || (z =? 32))%nat then trim_back l1
      else
        match l1 with
        | [] => l
        | b :: l2 =>
            let y := nat_of_ascii b in
            if ((y =? 194) && ((z =? 133) || (z =? 160)))%nat then trim_back l2
            else match l2 with
                 | [] => l
                 | a :: l3 => if white3 (nat_of_ascii a) y z then trim_back l3 else l
                 end
        end
  end.
(** [s.trim()] *)
Definition trim (s : string) : string :=
  String.string_of_list_ascii (reverse (trim_back (reverse (trim_front (String.list_ascii_of_string s))))).
(** [s.trim().is_empty()] *)
Definition is_blank (s : string) : bool := bool_decide (trim s = ""%string).

(** What follows the last [sep], if there is one: [s.rsplit_once(sep).map(|(_, tail)| tail)] *)
Fixpoint after_last (sep : ascii) (l : list ascii) : option (list ascii) :=
  match l with
  | [] => None
  | c :: l =>
      match after_last sep l with
      | Some tail => Some tail
      | None => if bool_decide (c = sep) then Some l else None
      end
  end.
Definition rsplit_tail (sep : ascii) (s : string) : option string :=
  String.string_of_list_ascii <$> after_last sep (String.list_ascii_of_string s).

(** [s.replacen] of the first space by nothing *)
Fixpoint remove_space (s : string) : string :=
  match s with
  | EmptyString => EmptyString
  | String c s => if bool_decide (c = " "%char) then s else String c (remove_space s)
  end.

(** [s.contains(p)] *)
Definition contains (p s : string) : bool :=
  match String.index 0 p s with Some _ => true | None => false end.

(** ** The configuration file *)

Record DockerConfig := mkDockerConfig {
  dc_endpoint : option string;
  dc_ca_cert_path : option string;
  dc_cert_path : option string;
  dc_key_path : option string
}.

Record VacuumConfig := mkVacuumConfig { vc_every : string; vc_at : string }.
Record CleanupConfig := mkCleanupConfig { cc_interval : string; cc_retention : string; cc_vacuum : option VacuumConfig }.

Record BatchConfig := mkBatchConfig {
  bc_size_min : option Z;
  bc_size_max : option Z;
  bc_wait_min_ms : option Z;
  bc_wait_max_ms : option Z;
  bc_ewma_window : option Z;
  bc_probe_factor : option f64;
  bc_backoff_factor : option f64
}.

Inductive StartupPolicy : Type := Recover | Preserve.

Record PersistenceConfig := mkPersistenceConfig {
  pc_ingest_database : option string;
  pc_results_database : option string;
  pc_durability : DurabilityMode;
  pc_cleanup : option CleanupConfig;
  pc_startup : StartupPolicy;
  pc_enqueue : BatchConfig;
  pc_completion : BatchConfig
}.

Record DispatchConfig := mkDispatchConfig {
  dp_batch_size_max : option Z;
  dp_max_delivery_in_flight : option Z;
  dp_idle_probe_interval_ms : option Z;
  dp_idle_probe_batch_size : option Z
}.

Record ContainerMountConfig := mkMountConfig { mc_source : string; mc_target : string; mc_read_only : bool }.

Record ManagedConfig := mkManagedConfig {
  mg_image : string;
  mg_replicas : Z;
  mg_env_file : option string;
  mg_env_vars : option (list (string * string));
  mg_mounts : option (list ContainerMountConfig)
}.

Record QueueConfig := mkQueueConfig {
  qc_name : string;
  qc_max_retries : Z;
  qc_timeout_secs : Z;
  qc_managed_config : option ManagedConfig
}.

Record WorkerTlsConfig := mkWorkerTlsConfig { wt_ca_cert_path : string; wt_cert_path : string; wt_key_path : string }.

Record AppConfig := mkAppConfig {
  ac_listen : option string;
  ac_worker_listen : option string;
  ac_worker_tls : WorkerTlsConfig;
  ac_docker : DockerConfig;
  ac_persistence : PersistenceConfig;
  ac_dispatch : DispatchConfig;
  ac_queues : list QueueConfig
}.

Definition DEFAULT_LISTEN : string := "0.0.0.0:7828".
Definition DEFAULT_WORKER_LISTEN : string := "0.0.0.0:7829".

(** Why a configuration is refused: one constructor for each message *)
Inductive ConfigError : Type :=
| ReadConfig (path : string) (message : string) | ParseConfig (path : string) (message : string)
| WriteOptionsError (message : string)
| DispatchOptionsError (message : string)
| DockerTlsTogether | DockerHttpsNeedsTls | DockerTlsNeedsEndpoint | DockerTlsScheme | DockerScheme | DockerHost
| IntervalUnset | RetentionUnset | IntervalInvalid (message : string) | RetentionInvalid (message : string)
| IntervalZero | RetentionZero | RetentionTooLarge
| SameListen | QueueNames | QueueTimeout (name : string) | ManagedQueue (name : string)
| ImageTag (image : string) | ImageFloatingTag (image : string)
| EnvFile (path : string) | EnvVars
| MountEmpty | MountTarget (target : string) | MountSource (source : string) | MountDuplicate (target : string)
| VacuumEvery (message : string) | VacuumTooLarge | VacuumAt (message : string).

Definition bail {A} (e : ConfigError) : result ConfigError A := Err e.
(** [if condition { bail!(..) }] *)
Definition reject_if (condition : bool) (e : ConfigError) : result ConfigError unit :=
  if condition then Err e else Ok tt.

Section config.
Context `{Hst : Host}.

(** *** Options *)

(** [d.as_millis() as u64] *)
Definition as_millis (d : Z) : Z := (d / 1000000) mod 2 ^ 64.

(** [BatchConfig::apply] *)
Definition apply (c : BatchConfig) (o : BatchOptions) : BatchOptions :=
  mkBatchOptions
    (default (Options.batch_size_min o) (bc_size_min c))
    (default (Options.batch_size_max o) (bc_size_max c))
    (from_millis (default (as_millis (batch_wait_min o)) (bc_wait_min_ms c)))
    (from_millis (default (as_millis (batch_wait_max o)) (bc_wait_max_ms c)))
    (default (ewma_window o) (bc_ewma_window c))
    (default (batch_probe_factor o) (bc_probe_factor c))
    (default (batch_backoff_factor o) (bc_backoff_factor c)).

Definition write_options (c : PersistenceConfig) : result ConfigError SqliteWriteOptions :=
  let options := mkSqliteWriteOptions (pc_durability c)
                   (apply (pc_enqueue c) (enqueue_options SqliteWriteOptions_default))
                   (apply (pc_completion c) (completion_options SqliteWriteOptions_default)) in
  let? _ := map_err WriteOptionsError (validate_all options) in
  Ok options.

(** [DispatchConfig::options] *)
Definition dispatch_options (c : DispatchConfig) : result ConfigError DispatchOptions :=
  let o := DispatchOptions_default in
  let options := mkDispatchOptions
    (default (Engine.batch_size_max o) (dp_batch_size_max c))
    (default (max_delivery_in_flight o) (dp_max_delivery_in_flight c))
    (from_millis (default (as_millis (idle_probe_interval o)) (dp_idle_probe_interval_ms c)))
    (default (idle_probe_batch_size o) (dp_idle_probe_batch_size c)) in
  let? _ := map_err DispatchOptionsError (DispatchOptions_validate options) in
  Ok options.

(** *** Docker *)

Definition docker_scheme (endpoint : string) : bool :=
  starts_with "unix://" endpoint || starts_with "npipe://" endpoint || starts_with "tcp://" endpoint
  || starts_with "http://" endpoint || starts_with "https://" endpoint.

Definition validate_docker_config (docker : DockerConfig) : result ConfigError unit :=
  let tls_set := length (filter is_Some [dc_ca_cert_path docker; dc_cert_path docker; dc_key_path docker]) in
  let? _ := reject_if (negb (tls_set =? 0)%nat && negb (tls_set =? 3)%nat) DockerTlsTogether in
  let? _ := reject_if (match dc_endpoint docker with Some e => starts_with "https://" e | None => false end
                       && negb (tls_set =? 3)%nat) DockerHttpsNeedsTls in
  let? _ :=
    if (tls_set =? 3)%nat then
      match dc_endpoint docker with
      | None => bail DockerTlsNeedsEndpoint
      | Some endpoint => reject_if (negb (starts_with "tcp://" endpoint || starts_with "https://" endpoint)) DockerTlsScheme
      end
    else Ok tt in
  match dc_endpoint docker with
  | None => Ok tt
  | Some endpoint =>
      let? _ := reject_if (negb (docker_scheme endpoint)) DockerScheme in
      reject_if (ends_with "://" (trim_end_slashes endpoint)
                 || bool_decide (endpoint = "unix://"%string) || bool_decide (endpoint = "npipe://"%string)) DockerHost
  end.

(** *** Cleanup *)

(** [CleanupConfig::interval], [retention], and [VacuumConfig::every] *)
Definition interval (c : CleanupConfig) : result ConfigError Z := map_err IntervalInvalid (parse_duration (cc_interval c)).
Definition retention (c : CleanupConfig) : result ConfigError Z := map_err RetentionInvalid (parse_duration (cc_retention c)).
Definition every (v : VacuumConfig) : result ConfigError Z := map_err VacuumEvery (parse_duration (vc_every v)).

Definition validate_cleanup_config (cleanup : CleanupConfig) : result ConfigError unit :=
  let? _ := reject_if (is_blank (cc_interval cleanup)) IntervalUnset in
  let? _ := reject_if (is_blank (cc_retention cleanup)) RetentionUnset in
  let? interval := interval cleanup in
  let? retention := retention cleanup in
  let? _ := reject_if (interval =? 0) IntervalZero in
  let? _ := reject_if (retention =? 0) RetentionZero in
  reject_if (i64_max <? retention / 1000000) RetentionTooLarge.

(** The string [VacuumConfig::at] parses: a sign that is not the first character is that of a time zone. *)
Definition stamped (at_ : string) : string :=
  let signed := contains "+" at_ || match at_ with String _ tail => contains "-" tail | EmptyString => false end in
  if signed then "1970-01-01T" +:+ remove_space (trim at_) +:+ ":00"
  else "1970-01-01T" +:+ trim at_ +:+ ":00+00:00".

Definition is_due (now : Z) (time_of_day : Z) (last_run : option Z) (v : VacuumConfig) : result ConfigError bool :=
  let? at_ := map_err VacuumAt (parse_time (stamped (vc_at v))) in
  let? every := every v in
  let? spacing_ok :=
    match last_run with
    | None => Ok true
    | Some last =>
        if every / 1000000 <=? i64_max then Ok (i64_saturating_add last (every / 1000000) <=? now)
        else bail VacuumTooLarge
    end in
  Ok (spacing_ok && (at_ <=? time_of_day)).

(** *** Managed queues *)

Definition validate_managed_image (image : string) : result ConfigError unit :=
  let reference := default image (rsplit_tail "/" image) in
  let tag := rsplit_tail ":" reference in
  let digest := contains "@sha256:" image in
  let? _ := reject_if (negb digest && bool_decide (tag = None)) (ImageTag image) in
  reject_if (bool_decide (tag = Some "latest"%string) || bool_decide (tag = Some "stable"%string)) (ImageFloatingTag image).

Definition validate_managed_env_file (env_file : option string) : result ConfigError unit :=
  match env_file with
  | Some path => reject_if (negb (is_file path)) (EnvFile path)
  | None => Ok tt
  end.

Definition validate_managed_env_vars (env_vars : option (list (string * string))) : result ConfigError unit :=
  match env_vars with
  | Some vars => reject_if (existsb (fun kv => bool_decide (kv.1 = ""%string) || bool_decide (kv.2 = ""%string)) vars) EnvVars
  | None => Ok tt
  end.

Fixpoint validate_mounts (mounts : list ContainerMountConfig) (targets : gset string) : result ConfigError unit :=
  match mounts with
  | [] => Ok tt
  | mount :: mounts =>
      let? _ := reject_if (is_blank (mc_source mount) || is_blank (mc_target mount)) MountEmpty in
      let? _ := reject_if (negb (starts_with "/" (mc_target mount))) (MountTarget (mc_target mount)) in
      let? _ := reject_if (negb (path_exists (mc_source mount))) (MountSource (mc_source mount)) in
      let? _ := reject_if (bool_decide (mc_target mount ∈ targets)) (MountDuplicate (mc_target mount)) in
      validate_mounts mounts ({[mc_target mount]} ∪ targets)
  end.

Definition validate_managed_mounts (mounts : option (list ContainerMountConfig)) : result ConfigError unit :=
  match mounts with
  | Some mounts => validate_mounts mounts ∅
  | None => Ok tt
  end.

(** The block of [AppConfig::validate] for a queue *)
Definition validate_managed (queue : QueueConfig) : result ConfigError unit :=
  match qc_managed_config queue with
  | None => Ok tt
  | Some config =>
      let? _ := reject_if (bool_decide (mg_image config = ""%string) || (mg_replicas config =? 0))
                  (ManagedQueue (qc_name queue)) in
      let? _ := validate_managed_image (mg_image config) in
      let? _ := validate_managed_env_file (mg_env_file config) in
      let? _ := validate_managed_env_vars (mg_env_vars config) in
      validate_managed_mounts (mg_mounts config)
  end.

Fixpoint validate_queues (queues : list QueueConfig) (names : gset string) : result ConfigError unit :=
  match queues with
  | [] => Ok tt
  | queue :: queues =>
      let? _ := reject_if (is_blank (qc_name queue) || bool_decide (qc_name queue ∈ names)) QueueNames in
      let? _ := reject_if (qc_timeout_secs queue =? 0) (QueueTimeout (qc_name queue)) in
      let? _ := validate_managed queue in
      validate_queues queues ({[qc_name queue]} ∪ names)
  end.

Definition listen (c : AppConfig) : string := default DEFAULT_LISTEN (ac_listen c).
Definition worker_listen (c : AppConfig) : string := default DEFAULT_WORKER_LISTEN (ac_worker_listen c).

(** [AppConfig::validate] *)
Definition validate_config (c : AppConfig) : result ConfigError unit :=
  let? _ := write_options (ac_persistence c) in
  let? _ := dispatch_options (ac_dispatch c) in
  let? _ := validate_docker_config (ac_docker c) in
  let? _ := match pc_cleanup (ac_persistence c) with
            | Some cleanup => validate_cleanup_config cleanup
            | None => Ok tt end in
  let? _ := reject_if (bool_decide (listen c = worker_listen c)) SameListen in
  validate_queues (ac_queues c) ∅.

(** [AppConfig::load]; [from_str] is [toml::from_str]. *)
Definition load (from_str : string -> result string AppConfig) (path : string) : result ConfigError AppConfig :=
  let? contents := map_err (ReadConfig path) (read_to_string path) in
  let? config := map_err (ParseConfig path) (from_str contents) in
  let? _ := validate_config config in
  Ok config.

Definition replicas (q : QueueConfig) : Z :=
  match qc_managed_config q with Some c => mg_replicas c | None => 1 end.

Definition has_managed_queues (c : AppConfig) : bool :=
  existsb (fun q => bool_decide (is_Some (qc_managed_config q))) (ac_queues c).
End config.
