(* ===== verification/ConfigProps.v ===== *)
(** * The configuration: properties

    Validation accepts exactly the configurations the other components can work with, except that
    it lets endpoints without a host through. *)
From S2P Require Import Prelude Float Options Ingest Engine Config.
From Stdlib Require Import Ascii SpecFloat.

Lemma reject_if_ok b e : reject_if b e = Ok tt <-> b = false.
Proof. unfold reject_if. by destruct b. Qed.

Lemma bind_ok {E A B} (r : result E A) (f : A -> result E B) b :
  result_bind r f = Ok b <-> exists a, r = Ok a /\ f a = Ok b.
Proof. destruct r; simpl; naive_solver. Qed.

Lemma bind_unit_ok {E B} (r : result E unit) (f : unit -> result E B) b :
  result_bind r f = Ok b <-> r = Ok tt /\ f tt = Ok b.
Proof. rewrite bind_ok. split; [intros ([] & ? & ?); done|naive_solver]. Qed.

Lemma map_err_ok {E F A} (g : E -> F) (r : result E A) a : map_err g r = Ok a <-> r = Ok a.
Proof. destruct r; simpl; naive_solver. Qed.

(** ** Endpoints *)

Lemma drop_slashes_head l : match drop_slashes l with c :: _ => c <> "/"%char | [] => True end.
Proof. induction l as [|c l IH]; simpl; [done|]. by case_bool_decide. Qed.

(** A string without its trailing slashes does not end with one. *)
Lemma trimmed_never_ends_with_slashes e : ends_with "://" (trim_end_slashes e) = false.
Proof.
  unfold ends_with, trim_end_slashes, string_rev. rewrite !String.list_ascii_of_string_of_list_ascii, reverse_involutive.
  pose proof (drop_slashes_head (reverse (String.list_ascii_of_string e))) as H.
  destruct (drop_slashes _) as [|c l]; [done|]. unfold starts_with. simpl.
  match goal with |- context [if ?d then _ else _] => destruct d as [Heq|]; [|done] end. by subst c.
Qed.

(** ** What validation means *)

Definition tls_set (d : DockerConfig) : nat :=
  length (filter is_Some [dc_ca_cert_path d; dc_cert_path d; dc_key_path d]).

Definition option_true {A} (P : A -> Prop) (x : option A) : Prop :=
  match x with Some a => P a | None => True end.

(** A scheme and nothing after it but slashes: no path and no host *)
Definition schemes : list string := ["unix://"; "npipe://"; "tcp://"; "http://"; "https://"]%string.
Definition hostless (endpoint : string) : Prop :=
  exists scheme slashes, scheme ∈ schemes /\ Forall (fun a => a = "/"%char) slashes /\
    endpoint = scheme +:+ String.string_of_list_ascii slashes.

(** The Docker section: TLS with all three files or none, and only over tcp:// or https://, which
    always needs it; a scheme the client knows, with a path or host. What validation itself checks of the
    last ([strict = false]) is that the endpoint is not the bare unix:// or npipe://. *)
Record docker_ok (strict : bool) (d : DockerConfig) : Prop := {
  dk_tls : tls_set d = 0%nat \/ tls_set d = 3%nat;
  dk_https : option_true (fun e => starts_with "https://" e = true -> tls_set d = 3%nat) (dc_endpoint d);
  dk_endpoint : tls_set d = 3%nat -> exists e, dc_endpoint d = Some e /\
    (starts_with "tcp://" e = true \/ starts_with "https://" e = true);
  dk_scheme : option_true (fun e => docker_scheme e = true) (dc_endpoint d);
  dk_host : option_true (fun e => if strict then ~ hostless e else e <> "unix://"%string /\ e <> "npipe://"%string)
    (dc_endpoint d)
}.

Section props.
Context `{Hst : Host}.

Record cleanup_ok (c : CleanupConfig) : Prop := {
  ck_blank : is_blank (cc_interval c) = false /\ is_blank (cc_retention c) = false;
  ck_interval : exists d, parse_duration (cc_interval c) = Ok d /\ d <> 0;
  ck_retention : exists d, parse_duration (cc_retention c) = Ok d /\ d <> 0 /\ d / 1000000 <= i64_max
}.

(** An image with a digest, or a version tag; never a floating tag. *)
Definition image_ok (image : string) : Prop :=
  let tag := rsplit_tail ":" (default image (rsplit_tail "/" image)) in
  (contains "@sha256:" image = true \/ is_Some tag) /\ tag <> Some "latest"%string /\ tag <> Some "stable"%string.

Definition mount_ok (m : ContainerMountConfig) : Prop :=
  is_blank (mc_source m) = false /\ is_blank (mc_target m) = false /\ starts_with "/" (mc_target m) = true /\
  path_exists (mc_source m) = true.

Record managed_ok (m : ManagedConfig) : Prop := {
  mk_image : mg_image m <> ""%string /\ image_ok (mg_image m);
  mk_replicas : mg_replicas m <> 0;
  mk_env_file : option_true (fun path => is_file path = true) (mg_env_file m);
  mk_env_vars : option_true (Forall (fun kv => kv.1 <> ""%string /\ kv.2 <> ""%string)) (mg_env_vars m);
  mk_mounts : option_true (fun ms => NoDup (mc_target <$> ms) /\ Forall mount_ok ms) (mg_mounts m)
}.

Definition queue_ok (q : QueueConfig) : Prop :=
  is_blank (qc_name q) = false /\ qc_timeout_secs q <> 0 /\ option_true managed_ok (qc_managed_config q).

(** The limits of the batches of a writer. Validation itself ([strict = false]) lets a backoff factor of
    zero through. *)
Definition batch_ok (strict : bool) (o : BatchOptions) : Prop :=
  batch_options_ok o /\ (strict = true -> flt fzero (batch_backoff_factor o) = true).

Record dispatch_ok (d : DispatchConfig) : Prop := {
  do_batch : 1 <= default (Engine.batch_size_max DispatchOptions_default) (dp_batch_size_max d) <= MAX_CLAIM_BATCH_SIZE;
  do_in_flight : 0 < default (max_delivery_in_flight DispatchOptions_default) (dp_max_delivery_in_flight d);
  do_interval : 0 < default 1000 (dp_idle_probe_interval_ms d);
  do_probe : 0 < default (idle_probe_batch_size DispatchOptions_default) (dp_idle_probe_batch_size d)
}.

(** A configuration as the messages of the validation ask for it ([strict = true]), and as the validation
    checks it ([strict = false]) *)
Record config_ok (strict : bool) (c : AppConfig) : Prop := {
  ok_enqueue : batch_ok strict (apply (pc_enqueue (ac_persistence c)) enqueue_defaults);
  ok_completion : batch_ok strict (apply (pc_completion (ac_persistence c)) completion_defaults);
  ok_dispatch : dispatch_ok (ac_dispatch c);
  ok_docker : docker_ok strict (ac_docker c);
  ok_cleanup : option_true cleanup_ok (pc_cleanup (ac_persistence c));
  ok_listen : listen c <> worker_listen c;
  ok_names : NoDup (qc_name <$> ac_queues c);
  ok_queues : Forall queue_ok (ac_queues c)
}.

Lemma validate_docker_spec d : validate_docker_config d = Ok tt <-> docker_ok false d.
Proof.
  unfold validate_docker_config. change (length (filter is_Some _)) with (tls_set d).
  rewrite !bind_unit_ok, !reject_if_ok. split.
  - intros (Htls & Hhttps & Hend & Hscheme). split.
    + destruct (Nat.eqb_spec (tls_set d) 0), (Nat.eqb_spec (tls_set d) 3); simpl in Htls; auto; done.
    + destruct (dc_endpoint d) as [e|]; simpl; [|done]. intros He. rewrite He in Hhttps.
      by destruct (Nat.eqb_spec (tls_set d) 3).
    + intros H3. rewrite (proj2 (Nat.eqb_eq _ _) H3) in Hend. destruct (dc_endpoint d) as [e|]; [|done].
      apply reject_if_ok in Hend. exists e. split; [done|]. apply orb_true_iff. by destruct (_ || _).
    + destruct (dc_endpoint d) as [e|]; simpl; [|done].
      apply bind_unit_ok in Hscheme as [Hs _]. apply reject_if_ok in Hs. by destruct (docker_scheme e).
    + destruct (dc_endpoint d) as [e|]; simpl; [|done].
      apply bind_unit_ok in Hscheme as [_ Hh]. apply reject_if_ok in Hh.
      rewrite trimmed_never_ends_with_slashes in Hh. apply orb_false_iff in Hh as [Hu Hn].
      by apply bool_decide_eq_false in Hu, Hn.
  - intros [Htls Hhttps Hend Hscheme Hhost].
    split; [destruct Htls as [-> | ->]; done|]. split.
    { destruct (dc_endpoint d) as [e|]; [|done]. simpl in Hhttps. destruct (starts_with "https://" e); [|done].
      by rewrite Hhttps. }
    split.
    { destruct (Nat.eqb_spec (tls_set d) 3) as [H3|]; [|done]. destruct (Hend H3) as (e & -> & He).
      apply reject_if_ok. apply orb_true_iff in He. by rewrite He. }
    destruct (dc_endpoint d) as [e|]; [|done]. simpl in Hscheme, Hhost. destruct Hhost as [Hu Hn].
    apply bind_unit_ok. rewrite !reject_if_ok, trimmed_never_ends_with_slashes, Hscheme.
    by rewrite !bool_decide_eq_false_2 by done.
Qed.

Lemma validate_cleanup_spec c : validate_cleanup_config c = Ok tt <-> cleanup_ok c.
Proof.
  unfold validate_cleanup_config, interval, retention. rewrite !bind_unit_ok, !reject_if_ok. split.
  - intros (Hi & Hr & H). apply bind_ok in H as (i & Hpi & H). apply bind_ok in H as (r & Hpr & H).
    apply map_err_ok in Hpi, Hpr. rewrite !bind_unit_ok, !reject_if_ok in H. destruct H as (Hi0 & Hr0 & Hbig).
    split; [done|exists i; split; [done|lia]|exists r; split; [done|lia]].
  - intros [[Hi Hr] (i & Hpi & Hi0) (r & Hpr & Hr0 & Hbig)]. split; [done|]. split; [done|].
    rewrite Hpi, Hpr. simpl. rewrite !bind_unit_ok, !reject_if_ok. lia.
Qed.

Lemma validate_image_spec image : validate_managed_image image = Ok tt <-> image_ok image.
Proof.
  unfold validate_managed_image, image_ok. set (tag := rsplit_tail ":" _).
  rewrite bind_unit_ok, !reject_if_ok, orb_false_iff, !bool_decide_eq_false.
  destruct (contains "@sha256:" image), tag as [t|]; simpl; rewrite ?bool_decide_eq_false; split; intros H; try (by naive_solver).
Qed.

Lemma validate_mounts_spec mounts targets :
  validate_mounts mounts targets = Ok tt <->
  NoDup (mc_target <$> mounts) /\ (forall m, m ∈ mounts -> mc_target m ∉ targets) /\ Forall mount_ok mounts.
Proof.
  revert targets. induction mounts as [|m mounts IH]; intros targets.
  { simpl. split; [intros _|done]. split; [constructor|]. split; [|constructor]. intros m Hm. by apply elem_of_nil in Hm. }
  cbn [validate_mounts]. rewrite !bind_unit_ok, !reject_if_ok, IH, fmap_cons, NoDup_cons, Forall_cons.
  unfold mount_ok at 2. rewrite orb_false_iff, !negb_false_iff, bool_decide_eq_false, list_elem_of_fmap. split.
  - intros ([] & Ht & Hs & Hd & Hnd & Hall & Hok). split_and!; try done.
    + intros (m' & Heq & Hin). apply (Hall m' Hin). rewrite <-Heq. set_solver.
    + intros m' [->|Hin]%elem_of_cons; [done|]. specialize (Hall m' Hin). set_solver.
  - intros ([Hnot Hnd] & Hall & (Hb1 & Hb2 & Ht & Hs) & Hok). split_and!; try done; [apply Hall; by left|].
    intros m' Hin [Heq%elem_of_singleton|Hin']%elem_of_union; [apply Hnot; by exists m'|].
    by apply (Hall m'); [right|].
Qed.

Lemma existsb_empty vars :
  existsb (fun kv : string * string => bool_decide (kv.1 = ""%string) || bool_decide (kv.2 = ""%string)) vars = false <->
  Forall (fun kv => kv.1 <> ""%string /\ kv.2 <> ""%string) vars.
Proof.
  induction vars as [|kv vars IH]; simpl; [done|].
  by rewrite orb_false_iff, orb_false_iff, !bool_decide_eq_false, IH, Forall_cons.
Qed.

Lemma validate_managed_spec q :
  validate_managed q = Ok tt <-> option_true managed_ok (qc_managed_config q).
Proof.
  unfold validate_managed. destruct (qc_managed_config q) as [m|]; simpl; [|done].
  rewrite !bind_unit_ok, reject_if_ok, validate_image_spec, orb_false_iff, bool_decide_eq_false, Z.eqb_neq.
  unfold validate_managed_env_file, validate_managed_env_vars, validate_managed_mounts. split.
  - intros ([] & Him & Hf & Hv & Hm). split; [done|done| | |].
    + destruct (mg_env_file m); [|done]. apply reject_if_ok, negb_false_iff in Hf. done.
    + destruct (mg_env_vars m); [|done]. apply reject_if_ok, existsb_empty in Hv. done.
    + destruct (mg_mounts m); [|done]. apply validate_mounts_spec in Hm. simpl. tauto.
  - intros [[? ?] ? Hf Hv Hm]. split_and!; try done.
    + destruct (mg_env_file m); [|done]. by apply reject_if_ok, negb_false_iff.
    + destruct (mg_env_vars m); [|done]. by apply reject_if_ok, existsb_empty.
    + destruct (mg_mounts m); [|done]. apply validate_mounts_spec. simpl in Hm. set_solver.
Qed.

Lemma validate_queues_spec queues names :
  validate_queues queues names = Ok tt <->
  NoDup (qc_name <$> queues) /\ (forall q, q ∈ queues -> qc_name q ∉ names) /\ Forall queue_ok queues.
Proof.
  revert names. induction queues as [|q queues IH]; intros names.
  { simpl. split; [intros _|done]. split; [constructor|]. split; [|constructor]. intros m Hm. by apply elem_of_nil in Hm. }
  cbn [validate_queues]. rewrite !bind_unit_ok, !reject_if_ok, IH, fmap_cons, NoDup_cons, Forall_cons, validate_managed_spec.
  unfold queue_ok at 2. rewrite orb_false_iff, bool_decide_eq_false, Z.eqb_neq, list_elem_of_fmap. split.
  - intros ([] & Ht & Hm & Hnd & Hall & Hok). split_and!; try done.
    + intros (q' & Heq & Hin). apply (Hall q' Hin). rewrite <-Heq. set_solver.
    + intros q' [->|Hin]%elem_of_cons; [done|]. specialize (Hall q' Hin). set_solver.
  - intros ([Hnot Hnd] & Hall & (Hb & Ht & Hm) & Hok). split_and!; try done; [apply Hall; by left|].
    intros q' Hin [Heq%elem_of_singleton|Hin']%elem_of_union; [apply Hnot; by exists q'|].
    by apply (Hall q'); [right|].
Qed.
End props.


(** ** What a valid configuration gives the other components *)

(** The types of the fields of a [BatchConfig] *)
Record batch_config_typed (c : BatchConfig) : Prop := {
  bt_min : option_true (fun n => 0 <= n <= usize_max) (bc_size_min c);
  bt_max : option_true (fun n => 0 <= n <= usize_max) (bc_size_max c);
  bt_wait_min_ms : option_true (fun n => 0 <= n <= u64_max) (bc_wait_min_ms c);
  bt_wait_max_ms : option_true (fun n => 0 <= n <= u64_max) (bc_wait_max_ms c)
}.

Lemma from_millis_typed ms : 0 <= ms <= u64_max -> 0 <= from_millis ms <= DURATION_MAX.
Proof. unfold from_millis, DURATION_MAX, u64_max, NANOS_PER_SEC. lia. Qed.

Lemma as_millis_typed d : 0 <= as_millis d <= u64_max.
Proof. unfold as_millis, u64_max. pose proof (Z.mod_pos_bound (d / 1000000) (2 ^ 64) ltac:(lia)). lia. Qed.

Lemma default_typed (x : option Z) (d bound : Z) :
  option_true (fun n => 0 <= n <= bound) x -> 0 <= d <= bound -> 0 <= default d x <= bound.
Proof. by destruct x. Qed.

Lemma apply_typed c o : batch_config_typed c -> batch_options_typed o -> 0 <= Options.batch_size_max o ->
  Options.batch_size_min o <= usize_max -> batch_options_typed (apply c o).
Proof.
  intros [H1 H2 H3 H4] [O1 O2 O3 O4] ? ?.
  pose proof (default_typed _ (Options.batch_size_min o) _ H1). pose proof (default_typed _ (Options.batch_size_max o) _ H2).
  pose proof (from_millis_typed _ (default_typed _ (as_millis (batch_wait_min o)) _ H3 (as_millis_typed _))).
  pose proof (from_millis_typed _ (default_typed _ (as_millis (batch_wait_max o)) _ H4 (as_millis_typed _))).
  split; cbn [apply Options.batch_size_min Options.batch_size_max batch_wait_min batch_wait_max]; lia.
Qed.

Lemma defaults_typed : batch_options_typed enqueue_defaults /\ batch_options_typed completion_defaults.
Proof. split; split; vm_compute; congruence. Qed.

Record dispatch_config_typed (d : DispatchConfig) : Prop := {
  dt_batch : option_true (fun n => 0 <= n) (dp_batch_size_max d);
  dt_in_flight : option_true (fun n => 0 <= n) (dp_max_delivery_in_flight d);
  dt_interval : option_true (fun n => 0 <= n) (dp_idle_probe_interval_ms d);
  dt_probe : option_true (fun n => 0 <= n) (dp_idle_probe_batch_size d)
}.

(** The numbers of a configuration are of their types. *)
Record config_typed (c : AppConfig) : Prop := {
  ct_enqueue : batch_config_typed (pc_enqueue (ac_persistence c));
  ct_completion : batch_config_typed (pc_completion (ac_persistence c));
  ct_dispatch : dispatch_config_typed (ac_dispatch c)
}.

Lemma write_options_spec c :
  batch_config_typed (pc_enqueue c) -> batch_config_typed (pc_completion c) ->
  is_ok (write_options c) = true <->
    batch_options_ok (apply (pc_enqueue c) enqueue_defaults) /\ batch_options_ok (apply (pc_completion c) completion_defaults).
Proof.
  intros Htq Htc. destruct defaults_typed as [Hdq Hdc].
  rewrite <-(validate_ok "persistence.enqueue") by (apply apply_typed; try done; vm_compute; congruence).
  rewrite <-(validate_ok "persistence.completion") by (apply apply_typed; try done; vm_compute; congruence).
  unfold write_options, validate_all. simpl.
  destruct (validate "persistence.enqueue" _) as [[]|], (validate "persistence.completion" _) as [[]|]; simpl; naive_solver.
Qed.

Lemma dispatch_options_ok d o : dispatch_options d = Ok o -> DispatchOptions_validate o = Ok tt.
Proof. unfold dispatch_options. rewrite bind_unit_ok, map_err_ok. by intros [? [= <-]]. Qed.

Lemma dispatch_options_spec d :
  dispatch_config_typed d -> is_ok (dispatch_options d) = true <-> dispatch_ok d.
Proof.
  intros [H1 H2 H3 H4].
  assert (Hd : forall (x : option Z) n, option_true (fun n => 0 <= n) x -> 0 <= n -> 0 <= default n x) by by intros [].
  pose proof (Hd _ (Engine.batch_size_max DispatchOptions_default) H1 ltac:(done)).
  pose proof (Hd _ (max_delivery_in_flight DispatchOptions_default) H2 ltac:(done)).
  pose proof (Hd _ 1000 H3 ltac:(done)).
  pose proof (Hd _ (idle_probe_batch_size DispatchOptions_default) H4 ltac:(done)).
  unfold dispatch_options, DispatchOptions_validate.
  cbn [Engine.batch_size_max max_delivery_in_flight idle_probe_interval idle_probe_batch_size].
  change (as_millis (idle_probe_interval DispatchOptions_default)) with 1000. unfold from_millis.
  repeat case_decide; simpl; (split; [intros; try done; split; lia|intros []; try done; lia]).
Qed.

(** Validation, part by part *)
Lemma validate_config_parts `{Host} c :
  validate_config c = Ok tt <->
    is_ok (write_options (ac_persistence c)) = true /\ is_ok (dispatch_options (ac_dispatch c)) = true /\
    docker_ok false (ac_docker c) /\ option_true cleanup_ok (pc_cleanup (ac_persistence c)) /\
    listen c <> worker_listen c /\ NoDup (qc_name <$> ac_queues c) /\ Forall queue_ok (ac_queues c).
Proof.
  unfold validate_config. destruct (write_options _) as [write|]; simpl; [|naive_solver].
  destruct (dispatch_options _) as [dispatch|]; simpl; [|naive_solver].
  rewrite !bind_unit_ok, validate_docker_spec, reject_if_ok, bool_decide_eq_false, validate_queues_spec.
  assert (match pc_cleanup (ac_persistence c) with Some cleanup => validate_cleanup_config cleanup | None => Ok tt end = Ok tt
    <-> option_true cleanup_ok (pc_cleanup (ac_persistence c))) as ->.
  { destruct (pc_cleanup (ac_persistence c)); [apply validate_cleanup_spec|done]. }
  set_solver.
Qed.

Lemma validate_config_spec `{Host} c : config_typed c -> validate_config c = Ok tt <-> config_ok false c.
Proof.
  intros [Htq Htc Htd]. rewrite validate_config_parts, (write_options_spec _ Htq Htc), (dispatch_options_spec _ Htd). split.
  - intros ([] & ? & ? & ? & ? & ? & ?). by split.
  - intros [[? _] [? _] ? ? ? ? ? ?]. by split_and!.
Qed.

(** *** What validation lets through *)

(** A backoff factor of zero, for one of the writers *)
Definition is_zero (x : f64) : Prop := exists s, x = S754_zero s.
Definition zero_backoff (c : AppConfig) : Prop :=
  is_zero (batch_backoff_factor (apply (pc_enqueue (ac_persistence c)) enqueue_defaults)) \/
  is_zero (batch_backoff_factor (apply (pc_completion (ac_persistence c)) completion_defaults)).

Definition hostless_endpoint (c : AppConfig) : Prop := exists e, dc_endpoint (ac_docker c) = Some e /\ hostless e.

Lemma positive_is_not_zero x : fle fzero x = true -> flt fzero x = true <-> ~ is_zero x.
Proof.
  unfold is_zero. destruct x as [s|[]| |[] m e]; try done; intros _; (split; [intros Hp|]); try done; try (by intros [? ?]).
  intros Hn. destruct Hn. by exists s.
Qed.

Lemma batch_ok_strict o : batch_ok true o <-> batch_ok false o /\ ~ is_zero (batch_backoff_factor o).
Proof.
  unfold batch_ok. split.
  - intros [Hok Hp]. rewrite <-positive_is_not_zero by apply Hok. auto.
  - intros [[Hok _] Hz]. split; [done|]. intros _. apply positive_is_not_zero; [apply Hok|done].
Qed.

Lemma string_app_nil (s : string) : (s +:+ "")%string = s.
Proof. induction s as [|a s IH]; [done|]. change (String a (s +:+ "")%string = String a s). by rewrite IH. Qed.

Lemma bare_scheme_hostless scheme : scheme ∈ schemes -> hostless scheme.
Proof. intros Hs. exists scheme, []. split; [done|]. split; [constructor|]. simpl. by rewrite string_app_nil. Qed.

Lemma docker_ok_strict d :
  docker_ok true d <-> docker_ok false d /\ ~ exists e, dc_endpoint d = Some e /\ hostless e.
Proof.
  split.
  - intros [H1 H2 H3 H4 H5]. split.
    + split; try done. destruct (dc_endpoint d) as [e|]; [|done]. simpl in *.
      split; intros ->; apply H5, bare_scheme_hostless; set_solver.
    + intros (e & He & Hh). by rewrite He in H5.
  - intros [[H1 H2 H3 H4 H5] Hn]. split; try done. destruct (dc_endpoint d) as [e|]; [|done]. simpl. intros Hh.
    apply Hn. by exists e.
Qed.

Lemma config_ok_strict `{Host} c :
  config_ok true c <-> config_ok false c /\ ~ zero_backoff c /\ ~ hostless_endpoint c.
Proof.
  unfold zero_backoff, hostless_endpoint. split.
  - intros [[H1 Z1]%batch_ok_strict [H2 Z2]%batch_ok_strict H3 [H4 Z4]%docker_ok_strict H5 H6 H7 H8].
    split; [by split|]. tauto.
  - intros ([H1 H2 H3 H4 H5 H6 H7 H8] & Hz & Hh). split; try done; [apply batch_ok_strict..|apply docker_ok_strict]; tauto.
Qed.


(** What [load] returns has been read, parsed and validated. *)
Lemma load_ok `{Host} from_str path c :
  (forall contents c, from_str contents = Ok c -> config_typed c) ->
  load from_str path = Ok c <->
  exists contents, read_to_string path = Ok contents /\ from_str contents = Ok c /\ config_ok false c.
Proof.
  intros Htyped. unfold load. destruct (read_to_string path) as [contents|e]; simpl; [|naive_solver].
  destruct (from_str contents) as [c'|e] eqn:Ec; simpl; [rewrite bind_unit_ok, validate_config_spec by eauto|]; split.
  - intros [Hok [= <-]]. by exists contents.
  - intros (? & [= <-] & Hc & Hok). by assert (c' = c) as -> by congruence.
  - done.
  - intros (? & [= <-] & Hc & _). congruence.
Qed.

(** The check that an endpoint names a host never fires: without its trailing slashes no string ends
    with [://]. So [tcp://], [http://] and, with TLS, [https://] are accepted without a host, however many slashes
    follow. *)
Theorem hostless_endpoint_is_accepted scheme slashes :
  scheme ∈ ["tcp://"; "http://"; "https://"]%string -> drop_slashes slashes = [] ->
  let endpoint := scheme +:+ String.string_of_list_ascii slashes in
  ends_with "://" (trim_end_slashes endpoint) = false /\
  validate_docker_config (mkDockerConfig (Some endpoint)
    (if decide (scheme = "https://"%string) then Some "ca"%string else None)
    (if decide (scheme = "https://"%string) then Some "cert"%string else None)
    (if decide (scheme = "https://"%string) then Some "key"%string else None)) = Ok tt.
Proof.
  intros Hs Hsl endpoint. split; [apply trimmed_never_ends_with_slashes|]. apply validate_docker_spec.
  assert (forall p s, starts_with p (p +:+ s) = true) as Hpre.
  { intros p s. unfold starts_with. induction p as [|a p IH]; [by destruct s|]. simpl.
    destruct (ascii_dec a a); done. }
  subst endpoint. set (s := String.string_of_list_ascii slashes).
  rewrite !elem_of_cons, elem_of_nil in Hs. destruct Hs as [-> | [-> | [-> | []]]];
    rewrite ?decide_False, ?decide_True by done; (split; [by (left + right)|..]);
    cbn [dc_endpoint option_true]; try done;
    try (unfold docker_scheme; rewrite ?(Hpre "tcp://"%string), ?(Hpre "http://"%string), ?(Hpre "https://"%string);
         by rewrite ?orb_true_r).
  intros _. eexists. split; [done|]. right. apply (Hpre "https://"%string).
Qed.

Lemma hostless_endpoint_is_accepted_witness :
  validate_docker_config (mkDockerConfig (Some "tcp:////"%string) None None None) = Ok tt.
Proof. apply (hostless_endpoint_is_accepted "tcp://" ["/"%char; "/"%char]); [left|reflexivity]. Defined.

(** Every file exists, every duration is an hour. *)
Definition example_host : Host := {|
  is_file := fun _ => true; path_exists := fun _ => true;
  read_to_string := fun _ => Ok "MODE=fast"%string; canonicalize := fun path => Ok path;
  parse_duration := fun _ => Ok 3600000000000; parse_time := fun _ => Ok 0
|}.

Definition no_batch_config : BatchConfig := mkBatchConfig None None None None None None None.

Definition example_config : AppConfig :=
  mkAppConfig None None (mkWorkerTlsConfig "ca.pem" "server.pem" "server.key") (mkDockerConfig None None None None)
    (mkPersistenceConfig None None DNone (Some (mkCleanupConfig "1h" "7d" None)) Recover
       (mkBatchConfig (Some 1) None None None None None None) no_batch_config)
    (mkDispatchConfig None None None None)
    [mkQueueConfig "email" 3 60
       (Some (mkManagedConfig "ghcr.io/example/email:1.2.3" 2 None None (Some [mkMountConfig "./certs" "/certs" true])))].

