(* ===== verification/Paths.v ===== *)
(** * Where the two databases are

    [default_results_path] of [crates/persistence/src/sqlite/common.rs] and the two paths of
    [PersistenceConfig] ([crates/maqistor/src/config.rs]), with what they use of [std::path::Path] on
    Unix: a path is its bytes, and its components are found from the end, skipping empty ones and
    [.] except at the start of a relative path. *)
From S2P Require Import Prelude Float Options Engine Config ConfigProps.
From Stdlib Require Import Ascii.

(** ** [std::path::Path] *)

Abbreviation text := (list ascii).

Definition slash : ascii := "/".
Definition dot : ascii := ".".
Definition chars (s : string) : text := String.list_ascii_of_string s.

(** The text between the separators *)
Fixpoint split_slash (p : text) : list text :=
  match p with
  | [] => [[]]
  | c :: p =>
      if decide (c = slash) then [] :: split_slash p
      else match split_slash p with seg :: rest => (c :: seg) :: rest | [] => [[c]] end
  end.

Fixpoint join_slash (l : list text) : text :=
  match l with
  | [] => []
  | [seg] => seg
  | seg :: l => seg ++ slash :: join_slash l
  end.

(** [has_root] *)
Definition rooted (p : text) : bool := match p with c :: _ => bool_decide (c = slash) | [] => false end.

Definition segments (p : text) : list text := split_slash (if rooted p then tail p else p).

(** What is skipped at the end of the reversed segments *)
Fixpoint skip_back (root : bool) (l : list text) : list text :=
  match l with
  | [] => []
  | seg :: rest =>
      if decide (seg = [] \/ (seg = [dot] /\ (root = true \/ rest <> []))) then skip_back root rest else l
  end.

(** The components, the last one first *)
Definition components_back (p : text) : list text := skip_back (rooted p) (reverse (segments p)).

(** [Path::file_name]: the last component, when it is a normal one *)
Definition file_name (p : text) : option text :=
  match components_back p with
  | seg :: _ => if decide (seg = [dot] \/ seg = [dot; dot]) then None else Some seg
  | [] => None
  end.

(** [Path::parent], when there is one: the text up to the last component *)
Definition parent (p : text) : text :=
  (if rooted p then [slash] else []) ++ join_slash (reverse (skip_back (rooted p) (tail (components_back p)))).

(** [PathBuf::push] of a relative path *)
Definition push (p name : text) : text :=
  match last p with
  | Some c => if decide (c = slash) then p ++ name else p ++ slash :: name
  | None => name
  end.

(** [Path::with_file_name] *)
Definition with_file_name (p name : text) : text :=
  push (match file_name p with Some _ => parent p | None => p end) name.

(** What comes before the last [sep] *)
Fixpoint before_last (sep : ascii) (l : text) : option text :=
  match l with
  | [] => None
  | c :: l =>
      match before_last sep l with
      | Some before => Some (c :: before)
      | None => if decide (c = sep) then Some [] else None
      end
  end.

(** [rsplit_file_at_dot], the part [file_stem] uses *)
Definition stem_of (name : text) : text :=
  match before_last dot name with
  | None | Some [] => name
  | Some before => before
  end.

(** [Path::file_stem] *)
Definition file_stem (p : text) : option text := stem_of <$> file_name p.

(** [str::strip_suffix] *)
Fixpoint strip_suffix (suffix l : text) : option text :=
  if decide (l = suffix) then Some []
  else match l with [] => None | c :: l => cons c <$> strip_suffix suffix l end.

(** ** The program *)

Definition default_results_path (ingest : text) : text :=
  let stem := default (chars "maqistor") (file_stem ingest) in
  let results_stem :=
    match strip_suffix (chars "-ingest") stem with
    | Some base => base ++ chars "-results"
    | None => stem ++ chars "-results"
    end in
  with_file_name ingest (results_stem ++ chars ".db").

Definition DEFAULT_INGEST_DATABASE : string := "./data/maqistor-ingest.db".
Definition DEFAULT_RESULTS_DATABASE : string := "./data/maqistor-results.db".

Definition ingest_database_path (c : PersistenceConfig) : string :=
  default DEFAULT_INGEST_DATABASE (pc_ingest_database c).

Definition results_database_path (c : PersistenceConfig) : string :=
  match pc_results_database c with
  | Some path => path
  | None =>
      match pc_ingest_database c with
      | None => DEFAULT_RESULTS_DATABASE
      | Some _ => String.string_of_list_ascii (default_results_path (chars (ingest_database_path c)))
      end
  end.

Example default_results_paths :
  (fun s => String.string_of_list_ascii (default_results_path (chars s))) <$>
    ["/var/lib/a-ingest.db"; "jobs.sqlite3"; "./x/.hidden"; "d//./e/"; "/"; ".."; "-ingest"]%string =
    ["/var/lib/a-results.db"; "jobs-results.db"; "./x/.hidden-results.db"; "d/e-results.db"; "/maqistor-results.db";
     "../maqistor-results.db"; "-results.db"]%string.
Proof. vm_compute. reflexivity. Qed.

(** ** Properties *)

Definition no_slash (l : text) : Prop := slash ∉ l.

Lemma split_slash_ne p : split_slash p <> [].
Proof. induction p as [|c p IH]; simpl; [done|]. case_decide; [done|]. by destruct (split_slash p). Qed.

Lemma split_slash_no_slash p seg : seg ∈ split_slash p -> no_slash seg.
Proof.
  unfold no_slash. revert seg. induction p as [|c p IH]; intros seg; simpl.
  - intros ->%list_elem_of_singleton. set_solver.
  - case_decide as Hc.
    + intros [-> |Hin]%elem_of_cons; [apply not_elem_of_nil|by apply IH].
    + destruct (split_slash p) as [|s rest].
      * intros ->%list_elem_of_singleton. intros He%list_elem_of_singleton. congruence.
      * intros [-> |Hin]%elem_of_cons; [|apply IH; by right].
        intros [He|Hs]%elem_of_cons; [congruence|]. by apply (IH s); [left|].
Qed.

Lemma split_slash_one name : no_slash name -> split_slash name = [name].
Proof.
  unfold no_slash. induction name as [|c name IH]; [done|]. intros Hn. simpl.
  rewrite decide_False by set_solver. by rewrite IH by set_solver.
Qed.

Lemma split_slash_app p name : no_slash name -> split_slash (p ++ slash :: name) = split_slash p ++ [name].
Proof.
  intros Hn. induction p as [|c p IH]; simpl.
  - by rewrite split_slash_one.
  - rewrite IH. case_decide; [done|]. by destruct (split_slash p) eqn:Hp; [destruct (split_slash_ne p)|].
Qed.

(** A component that is not skipped and has a name *)
Definition proper (name : text) : Prop := no_slash name /\ name <> [] /\ name <> [dot] /\ name <> [dot; dot].

Lemma file_name_proper p name : file_name p = Some name -> proper name.
Proof.
  unfold file_name, components_back. intros Hf.
  assert (forall root l, match skip_back root l with seg :: _ => seg <> [] /\ seg ∈ l | [] => True end) as Hskip.
  { clear. intros root l. induction l as [|seg rest IH]; simpl; [done|]. case_decide as Hs.
    - destruct (skip_back root rest); [done|]. set_solver.
    - split; [naive_solver|by left]. }
  specialize (Hskip (rooted p) (reverse (segments p))).
  destruct (skip_back _ _) as [|seg rest]; [done|]. case_decide as Hd; [done|]. injection Hf as ->.
  destruct Hskip as [Hne Hin]. split; [|naive_solver]. rewrite elem_of_reverse in Hin. by apply split_slash_no_slash in Hin.
Qed.

Lemma file_name_of_segments p name rest :
  proper name -> reverse (segments p) = name :: rest -> file_name p = Some name.
Proof.
  intros (_ & Hne & Hd & Hdd) Hs. unfold file_name, components_back. rewrite Hs. simpl.
  rewrite decide_False by naive_solver. rewrite decide_False by naive_solver. done.
Qed.

Lemma push_file_name p name : proper name -> file_name (push p name) = Some name.
Proof.
  intros Hp. pose proof Hp as (Hn & Hne & _ & _).
  assert (exists q, push p name = name /\ q = [] \/ push p name = q ++ slash :: name) as [q Hq].
  { unfold push. destruct p as [|c p] using rev_ind; [exists []; by left|]. rewrite last_snoc.
    case_decide as Hc; [exists p|exists (p ++ [c])]; right; [|done]. subst c. by rewrite <-app_assoc. }
  destruct Hq as [[-> _]| ->].
  - apply (file_name_of_segments _ _ []); [done|]. unfold segments.
    assert (rooted name = false) as ->; [|by rewrite split_slash_one].
    destruct name as [|c name]; [done|]. apply bool_decide_eq_false. intros ->. apply Hn. by left.
  - destruct q as [|c q].
    + apply (file_name_of_segments _ _ []); [done|]. unfold segments. simpl. by rewrite split_slash_one.
    + destruct (decide (c = slash)) as [->|Hc].
      * apply (file_name_of_segments _ _ (reverse (split_slash q))); [done|]. unfold segments. simpl.
        by rewrite split_slash_app, reverse_snoc by done.
      * apply (file_name_of_segments _ _ (reverse (split_slash (c :: q)))); [done|]. unfold segments. simpl rooted.
        rewrite bool_decide_eq_false_2 by done. by rewrite split_slash_app, reverse_snoc by done.
Qed.

Lemma before_last_app sep l tail : sep ∉ tail -> before_last sep (l ++ sep :: tail) = Some l.
Proof.
  intros Ht. induction l as [|c l IH]; simpl.
  - assert (before_last sep tail = None) as ->; [|by rewrite decide_True].
    induction tail as [|c tail IH]; simpl; [done|]. rewrite IH by set_solver. rewrite decide_False; [done|]. set_solver.
  - by rewrite IH.
Qed.

Lemma before_last_prefix sep l b : before_last sep l = Some b -> exists rest, l = b ++ rest.
Proof.
  revert b. induction l as [|c l IH]; intros b; simpl; [done|]. destruct (before_last sep l) as [b'|].
  - intros [= <-]. destruct (IH b' eq_refl) as [rest ->]. by exists rest.
  - case_decide; [|done]. intros [= <-]. by exists (c :: l).
Qed.

Lemma stem_of_prefix name : exists rest, name = stem_of name ++ rest.
Proof.
  unfold stem_of. destruct (before_last dot name) as [[|c b]|] eqn:Hb; [exists []; by rewrite app_nil_r|..].
  - by apply before_last_prefix in Hb.
  - exists []. by rewrite app_nil_r.
Qed.

Lemma stem_of_db base : base <> [] -> stem_of (base ++ chars ".db") = base.
Proof.
  intros Hb. unfold stem_of. change (chars ".db") with (dot :: chars "db"). rewrite before_last_app; [by destruct base|].
  apply (bool_decide_eq_true_1 _). vm_compute. reflexivity.
Qed.

Lemma strip_suffix_Some suffix l base : strip_suffix suffix l = Some base -> l = base ++ suffix.
Proof.
  revert base. induction l as [|c l IH]; intros base; simpl; case_decide as Hs; [intros [= <-]; done|done|intros [= <-]; done|].
  destruct (strip_suffix suffix l) as [b|]; simpl; [|done]. intros [= <-]. by rewrite (IH b eq_refl).
Qed.

(** The name of the results database *)
Definition results_stem (stem : text) : text :=
  match strip_suffix (chars "-ingest") stem with
  | Some base => base ++ chars "-results"
  | None => stem ++ chars "-results"
  end.

Lemma results_stem_ne stem : results_stem stem <> stem.
Proof.
  unfold results_stem. destruct (strip_suffix _ stem) as [base|] eqn:Hs.
  - apply strip_suffix_Some in Hs as ->. intros He%app_inv_head. vm_compute in He. discriminate He.
  - intros He. apply (f_equal length) in He. rewrite length_app in He. simpl in He. lia.
Qed.

Lemma results_stem_no_slash stem : no_slash stem -> no_slash (results_stem stem).
Proof.
  unfold results_stem, no_slash. intros Hs.
  assert (slash ∉ chars "-results") as Hr by (apply (bool_decide_eq_true_1 _); vm_compute; reflexivity).
  destruct (strip_suffix _ stem) as [base|] eqn:Hb; [apply strip_suffix_Some in Hb as ->|]; set_solver.
Qed.

Lemma results_stem_nonempty stem : (8 <= length (results_stem stem))%nat.
Proof. unfold results_stem. destruct (strip_suffix _ stem); rewrite length_app; simpl; lia. Qed.

Lemma default_results_name p :
  let stem := default (chars "maqistor") (file_stem p) in
  file_name (default_results_path p) = Some (results_stem stem ++ chars ".db").
Proof.
  intros stem. unfold default_results_path. fold stem. change (match strip_suffix _ stem with Some base => _ | None => _ end) with (results_stem stem).
  apply push_file_name. pose proof (results_stem_nonempty stem) as Hlen. split.
  - assert (no_slash (results_stem stem)) as Hs; [apply results_stem_no_slash|].
    + unfold stem, file_stem. destruct (file_name p) as [name|] eqn:Hf; simpl.
      * apply file_name_proper in Hf as (Hn & _). destruct (stem_of_prefix name) as [rest Hr]. unfold no_slash in *. rewrite Hr in Hn. set_solver.
      * apply (bool_decide_eq_true_1 _). vm_compute. reflexivity.
    + unfold no_slash in *. assert (slash ∉ chars ".db") by (apply (bool_decide_eq_true_1 _); vm_compute; reflexivity). set_solver.
  - split_and!; intros He; apply (f_equal length) in He; rewrite length_app in He; simpl in He; lia.
Qed.

(** The two names differ: the stem changes. *)
Lemma default_results_other_name p : file_name (default_results_path p) <> file_name p.
Proof.
  rewrite default_results_name. intros Hf. unfold file_stem in Hf. destruct (file_name p) as [name|]; [|done].
  simpl in Hf. injection Hf as Hname. apply (f_equal stem_of) in Hname. rewrite stem_of_db in Hname; [by apply results_stem_ne in Hname|].
  intros He. pose proof (results_stem_nonempty (stem_of name)) as Hlen. rewrite He in Hlen. simpl in Hlen. lia.
Qed.

(** Unless the configuration names a results database itself, the two databases are two files: the
    name of the results database differs from that of the ingest database, wherever that is and whatever
    it is called. *)
Theorem databases_are_two_files (c : PersistenceConfig) :
  pc_results_database c = None ->
  file_name (chars (results_database_path c)) <> file_name (chars (ingest_database_path c)) /\
  results_database_path c <> ingest_database_path c.
Proof.
  intros Hnone.
  assert (file_name (chars (results_database_path c)) <> file_name (chars (ingest_database_path c))) as Hname.
  { unfold results_database_path, ingest_database_path. rewrite Hnone. destruct (pc_ingest_database c) as [path|]; simpl.
    - unfold chars at 1. rewrite String.list_ascii_of_string_of_list_ascii. apply default_results_other_name.
    - intros He. vm_compute in He. discriminate He. }
  split; [exact Hname|]. intros He. apply Hname. by rewrite He.
Qed.

Definition example_paths (ingest results : option string) : PersistenceConfig :=
  mkPersistenceConfig ingest results DNone None Recover no_batch_config no_batch_config.

Lemma databases_are_two_files_witness :
  results_database_path (example_paths (Some "/var/lib/jobs-results.db"%string) None) = "/var/lib/jobs-results-results.db"%string /\
  results_database_path (example_paths (Some "/var/lib/jobs-results.db"%string) None) <> "/var/lib/jobs-results.db"%string.
Proof.
  split; [vm_compute; reflexivity|].
  exact (proj2 (databases_are_two_files (example_paths (Some "/var/lib/jobs-results.db"%string) None) eq_refl)).
Defined.

(** Otherwise nothing keeps the configuration from naming one file for both. *)
Example one_file_is_accepted :
  let config := mkAppConfig None None (mkWorkerTlsConfig "ca.pem" "server.pem" "server.key") (mkDockerConfig None None None None) (example_paths None (Some DEFAULT_INGEST_DATABASE))
    (mkDispatchConfig None None None None) [] in
  validate_config (Hst := example_host) config = Ok tt /\
  results_database_path (ac_persistence config) = ingest_database_path (ac_persistence config).
Proof. split; vm_compute; reflexivity. Qed.
