(* ===== verification/Opening.v ===== *)
(** * Opening the connections of a database

    [RwConnection] and [ReadPool] of [crates/persistence/src/sqlite/common.rs]: how the one connection
    that writes and the four that only read are opened, and which of the four a read uses. Each call of
    the file system or of SQLite may fail; what the migration makes of the file is in [Schema]. *)
From S2P Require Import Prelude Types Db Options Paths.

(** ** Connections *)

(** A connection: its file, the flags it was opened with, and what was set on it *)
Record connection := mkConnection {
  cn_path : text;
  cn_read_only : bool;
  cn_busy_timeout : option Z; (** milliseconds *)
  cn_pragmas : gmap string string
}.

(** [PRAGMA synchronous] of a durability *)
Definition synchronous (durability : DurabilityMode) : string :=
  match durability with DBalanced => "NORMAL" | DStrict => "FULL" | DNone => "OFF" end.

(** [Path::parent], filtered: [None] for the root and when there is no directory to make *)
Definition parent_dir (path : text) : option text :=
  match components_back path with
  | [] => None
  | _ => if decide (parent path = []) then None else Some (parent path)
  end.

Section opening.
Context `{E : Env}.

(** The state is the set of directories that have been made. *)
Definition create_dir_all (dir : text) : M (gset text) unit := stmt (fun _ s => Ok (tt, {[dir]} ∪ s)).

Definition connection_open (path : text) (read_only : bool) : M (gset text) connection :=
  stmt (fun _ s => Ok (mkConnection path read_only None ∅, s)).

Definition busy_timeout (ms : Z) (conn : connection) : M (gset text) connection :=
  stmt (fun _ s => Ok (mkConnection (cn_path conn) (cn_read_only conn) (Some ms) (cn_pragmas conn), s)).

Definition pragma_update (name value : string) (conn : connection) : M (gset text) connection :=
  stmt (fun _ s => Ok (mkConnection (cn_path conn) (cn_read_only conn) (cn_busy_timeout conn)
                         (<[name := value]> (cn_pragmas conn)), s)).

(** [RwConnection::open] *)
Definition RwConnection_open (path : text) (durability : DurabilityMode) : M (gset text) connection :=
  _ ← match parent_dir path with Some dir => create_dir_all dir | None => mret tt end;
  conn ← connection_open path false;
  conn ← busy_timeout 5000 conn;
  conn ← pragma_update "journal_mode" "WAL" conn;
  conn ← pragma_update "foreign_keys" "ON" conn;
  pragma_update "synchronous" (synchronous durability) conn.

(** ** The pool of readers *)

Definition ACCEPTED_JOB_SELECT : string :=
  "SELECT id, queue_name, payload, dispatch_id, created_at, updated_at FROM accepted_jobs".
Definition EXECUTION_SELECT : string :=
  "SELECT id, job_id, queue_name, status, execution_count, lease_expires_at, dispatch_id, result_payload, result_error, created_at, updated_at FROM executions".

(** [rp_next]: the [AtomicUsize], of 64 bits *)
Record ReadPool := mkReadPool {
  rp_connections : list connection;
  rp_next : Z;
  rp_accepted_job_sql : string;
  rp_execution_sql : string;
  rp_queue_sql : string;
  rp_queues_sql : string
}.

Definition open_reader (path : text) : M (gset text) connection :=
  conn ← connection_open path true;
  conn ← busy_timeout 5000 conn;
  pragma_update "query_only" "ON" conn.

Definition open_with_sql (path : text) (accepted_job_sql execution_sql queue_sql queues_sql : string) : M (gset text) ReadPool :=
  connections ← for_each (fun _ => open_reader path) (seq 0 4);
  mret (mkReadPool connections 0 accepted_job_sql execution_sql queue_sql queues_sql).

Definition ReadPool_open_ingest (path : text) : M (gset text) ReadPool :=
  open_with_sql path (ACCEPTED_JOB_SELECT ++ " WHERE id = ?1") ""
    "SELECT name, max_retries, timeout_secs, created_at, updated_at FROM job_queues WHERE name = ?1"
    "SELECT name, max_retries, timeout_secs, created_at, updated_at FROM job_queues ORDER BY name ASC".

Definition ReadPool_open_results (path : text) : M (gset text) ReadPool :=
  open_with_sql path "" (EXECUTION_SELECT ++ " WHERE job_id = ?1") "" "".
End opening.

(** [ReadPool::connection]: [fetch_add] wraps around. *)
Definition pool_connection (p : ReadPool) : Z * ReadPool :=
  (rp_next p mod Z.of_nat (length (rp_connections p)),
   mkReadPool (rp_connections p) ((rp_next p + 1) mod 2 ^ 64) (rp_accepted_job_sql p) (rp_execution_sql p)
     (rp_queue_sql p) (rp_queues_sql p)).

(** The connections that the next [n] reads use *)
Fixpoint pool_uses (n : nat) (p : ReadPool) : list Z :=
  match n with
  | O => []
  | S n => let '(i, p) := pool_connection p in i :: pool_uses n p
  end.

(** ** Properties *)

Section props.
Context `{E : Env}.

(** A connection that is opened for writing has all its settings, and its directory has been made. *)
Lemma wp_rw_open path durability c :
  wp (RwConnection_open path durability) (fun r c' => match r with
    | Ok conn => conn = mkConnection path false (Some 5000)
        (<["synchronous" := synchronous durability]> (<["foreign_keys" := "ON"]> {["journal_mode" := "WAL"]}))%string /\
        c_db c' = match parent_dir path with Some dir => {[dir]} ∪ c_db c | None => c_db c end
    | Err _ => True end) c.
Proof.
  unfold RwConnection_open. wp_rule.
  enough (Hrest : forall c1, c_db c1 = match parent_dir path with Some dir => {[dir]} ∪ c_db c | None => c_db c end ->
    wp (conn ← connection_open path false; conn ← busy_timeout 5000 conn; conn ← pragma_update "journal_mode" "WAL" conn;
        conn ← pragma_update "foreign_keys" "ON" conn; pragma_update "synchronous" (synchronous durability) conn)
      (fun r c' => match r with
        | Ok conn => conn = mkConnection path false (Some 5000)
            (<["synchronous" := synchronous durability]> (<["foreign_keys" := "ON"]> {["journal_mode" := "WAL"]}))%string /\
            c_db c' = match parent_dir path with Some dir => {[dir]} ∪ c_db c | None => c_db c end
        | Err _ => True end) c1).
  { destruct (parent_dir path) as [dir|]; [|wp_rule; by apply Hrest].
    apply wp_stmt; [done|]. intros [] db [= <-]. by apply Hrest. }
  intros c1 Hc1. do 4 (wp_rule; apply wp_stmt; [done|]; intros ? ? [= <- <-]).
  apply wp_stmt; [done|]. by intros ? ? [= <- <-].
Qed.

(** The readers cannot write. *)
Definition read_only (conn : connection) : Prop :=
  cn_read_only conn = true /\ cn_pragmas conn !! "query_only"%string = Some "ON"%string.

Lemma wp_open_with_sql path s1 s2 s3 s4 c :
  wp (open_with_sql path s1 s2 s3 s4) (fun r c' => match r with
    | Ok p => length (rp_connections p) = 4%nat /\ Forall (fun conn => read_only conn /\ cn_path conn = path) (rp_connections p) /\
        rp_next p = 0
    | Err _ => True end) c.
Proof.
  unfold open_with_sql. wp_rule.
  apply (wp_for_each _ _ (fun done ys _ => length ys = length done /\
    Forall (fun conn => read_only conn /\ cn_path conn = path) ys)).
  - split; [done|constructor].
  - intros done x rest ys c1 _ [Hl Hall]. unfold open_reader.
    do 2 (wp_rule; apply wp_stmt; [done|]; intros ? ? [= <- <-]).
    apply wp_stmt; [done|]. intros ? ? [= <- <-]. rewrite !length_app, Hl. split; [done|].
    apply Forall_app. split; [done|]. by repeat constructor.
  - intros ys c1 [Hl Hall]. by wp_rule.
Qed.
End props.

(** The reads take the connections in turn, for ever: the counter wraps around at a multiple of four. *)
Theorem reads_take_turns p n :
  length (rp_connections p) = 4%nat -> 0 <= rp_next p < 2 ^ 64 ->
  pool_uses n p = (fun i => (rp_next p + Z.of_nat i) mod 4) <$> seq 0 n.
Proof.
  revert p. induction n as [|n IH]; intros p Hl Hp; [done|]. simpl. rewrite Hl. f_equal.
  { f_equal. lia. }
  rewrite IH; [|done|apply Z.mod_pos_bound; lia]. rewrite <-fmap_S_seq, <-list_fmap_compose. apply list_fmap_ext.
  intros _ i _. simpl. rewrite Z.add_mod, Z.mod_mod_divide, <-Z.add_mod by (first [lia|by exists (2 ^ 62)]). f_equal. lia.
Qed.

Lemma reads_take_turns_witness :
  pool_uses 3 (mkReadPool (replicate 4 (mkConnection [] true None ∅)) (2 ^ 64 - 1) "" "" "" "") = [3; 0; 1].
Proof. rewrite reads_take_turns; [vm_compute; reflexivity|reflexivity|cbn [rp_next]; lia]. Defined.
