(* ===== verification/Startup.v ===== *)
(** * Opening the store

    [IngestConn::open] and [IngestHandle::open] of [crates/persistence/src/sqlite/ingest.rs],
    [ResultsConn::open] and [ResultsHandle::open] of [results.rs], and the ways [SqliteStore] of
    [store.rs] is opened: the thread of a writer opens its connection, brings the file to the schema
    and says that it is ready; then the readers are opened; at last orphaned claims are released. *)
From S2P Require Import Prelude Types Db Tables Schema Ingest Results Store ResultsFacts StoreFacts StoreProps Options Paths Opening.

(** A database file: its definitions, and the rows of its tables, of whichever schema they are *)
Record database := mkDatabase {
  d_schema : db_file;
  d_ingest : ingest_db;
  d_results : results_db
}.

(** What [Connection::open] makes of a file that does not exist *)
Definition new_database : database := mkDatabase fresh_file empty_ingest empty_results.

(** The directories that exist, and the database files *)
Record files := mkFiles {
  fs_dirs : gset text;
  fs_files : gmap text database
}.

(** The handle of a writer: its connection, the queue names its loop starts with, and its readers *)
Record writer_handle := mkHandle {
  hd_connection : connection;
  hd_names : gset string;
  hd_reads : ReadPool
}.

Section startup.
Context `{E : Env}.

(** The operating system's answer to which file a path leads to; two paths may lead to the same one. *)
Context (file_of : text -> text).

Definition file_at (path : text) (f : files) : database := default new_database (fs_files f !! file_of path).
Definition set_file (path : text) (d : database) (f : files) : files :=
  mkFiles (fs_dirs f) (<[file_of path := d]> (fs_files f)).

Definition with_schema (x : db_file) (d : database) : database := mkDatabase x (d_ingest d) (d_results d).
Definition with_ingest (x : ingest_db) (d : database) : database := mkDatabase (d_schema d) x (d_results d).
Definition with_results (x : results_db) (d : database) : database := mkDatabase (d_schema d) (d_ingest d) x.

Definition on_dirs {A} (m : M (gset text) A) : M files A :=
  zoom fs_dirs (fun x f => mkFiles x (fs_files f)) m.
Definition on_schema {A} (path : text) (m : M db_file A) : M files A :=
  zoom (fun f => d_schema (file_at path f)) (fun x f => set_file path (with_schema x (file_at path f)) f) m.
Definition on_ingest {A} (path : text) (m : M ingest_db A) : M files A :=
  zoom (fun f => d_ingest (file_at path f)) (fun x f => set_file path (with_ingest x (file_at path f)) f) m.

(** The two databases as the store sees them, with the names its ingest writer knows *)
Definition store_at (names : gset string) (ingest_path results_path : text) (f : files) : store :=
  mkStore names (d_ingest (file_at ingest_path f)) (d_results (file_at results_path f)).
Definition put_store (ingest_path results_path : text) (s : store) (f : files) : files :=
  let f := set_file ingest_path (with_ingest (s_ingest s) (file_at ingest_path f)) f in
  set_file results_path (with_results (s_results s) (file_at results_path f)) f.
Definition on_store {A} (names : gset string) (ingest_path results_path : text) (m : M store A) : M files A :=
  zoom (store_at names ingest_path results_path) (put_store ingest_path results_path) m.

(** SQLite refuses a statement on a table that its file does not have. *)
Definition table_there (path : text) (table : string) : M files unit := fun c =>
  if decide (table ∈ f_objects (d_schema (file_at path (c_db c)))) then (Ok tt, c)
  else (Err (Internal ("no such table: " +:+ table)), c).

(** A call of the operating system that only fails or not: a thread is spawned, a runtime built *)
Definition os_call : M files unit := stmt (fun _ f => Ok (tt, f)).

Definition IngestConn_open (path : text) (durability : DurabilityMode) : M files connection :=
  rw ← on_dirs (RwConnection_open path durability);
  _ ← on_schema path open_ingest;
  mret rw.

Definition ResultsConn_open (path : text) (durability : DurabilityMode) : M files connection :=
  rw ← on_dirs (RwConnection_open path durability);
  _ ← on_schema path open_results;
  mret rw.

(** [IngestHandle::open]: the caller waits until the thread is ready, or gets its error. When the readers
    cannot be opened the channel of the writer is dropped, and its loop ends without a request. *)
Definition IngestHandle_open (path : text) (options : SqliteWriteOptions) : M files writer_handle :=
  _ ← os_call;
  _ ← os_call;
  conn ← IngestConn_open path (durability options);
  _ ← table_there path "job_queues";
  names ← on_ingest path queue_names;
  reads ← on_dirs (ReadPool_open_ingest path);
  mret (mkHandle conn names reads).

(** [ResultsHandle::open]; its loop starts with no names. *)
Definition ResultsHandle_open (path : text) (options : SqliteWriteOptions) : M files writer_handle :=
  _ ← os_call;
  _ ← os_call;
  conn ← ResultsConn_open path (durability options);
  reads ← on_dirs (ReadPool_open_results path);
  mret (mkHandle conn ∅ reads).

(** [heal_on_open], on two connections of its own. The table of the executions is asked for each claim,
    so that its absence is only seen when there is one. *)
Definition heal_on_open (ingest_path results_path : text) (names : gset string) : M files unit :=
  _ ← on_dirs (RwConnection_open ingest_path DBalanced);
  _ ← on_dirs (RwConnection_open results_path DBalanced);
  _ ← table_there ingest_path "accepted_jobs";
  unclaimed ← (fun c => (Ok (bool_decide (map_Forall (fun _ a => ar_dispatch_id a = None)
                                          (i_accepted (d_ingest (file_at ingest_path (c_db c)))))), c));
  _ ← (if (unclaimed : bool) then mret tt else table_there results_path "executions");
  on_store names ingest_path results_path heal_orphan_claims.

(** [SqliteStore::open_with_options_pair] *)
Definition SqliteStore_open_pair (ingest_path results_path : text) (options : SqliteWriteOptions) : M files (writer_handle * writer_handle) :=
  _ ← lift_result (map_err Internal (validate_all options));
  ingest ← IngestHandle_open ingest_path options;
  results ← ResultsHandle_open results_path options;
  _ ← heal_on_open ingest_path results_path (hd_names ingest);
  mret (ingest, results).

Definition SqliteStore_open_with_options (ingest_path : text) (options : SqliteWriteOptions) : M files (writer_handle * writer_handle) :=
  SqliteStore_open_pair ingest_path (default_results_path ingest_path) options.

Definition SqliteStore_open (ingest_path : text) : M files (writer_handle * writer_handle) :=
  SqliteStore_open_with_options ingest_path SqliteWriteOptions_default.
End startup.

(** ** Properties *)

(** A file the migration to the schema [l] can work with: a new one, or one with a version; and one with
    the version of this release was brought to this very schema. *)
Definition file_known (l : list ddl) (f : db_file) : Prop :=
  f_versions f = [] \/ exists v, f_versions f = [v] /\ v <> -1 /\ "schema_version"%string ∈ f_objects f /\
    (v = SCHEMA_VERSION -> names_of l ⊆ f_objects f).

(** The file has the version of this release and all definitions of the schema [l]. *)
Definition has_schema (l : list ddl) (f : db_file) : Prop := f_versions f = [SCHEMA_VERSION] /\ names_of l ⊆ f_objects f.

(** The settings of a connection that writes *)
Definition writes_to (path : text) (durability : DurabilityMode) (conn : connection) : Prop :=
  conn = mkConnection path false (Some 5000)
    (<["synchronous" := synchronous durability]> (<["foreign_keys" := "ON"]> {["journal_mode" := "WAL"]}))%string.

Definition reads_from (path : text) (p : ReadPool) : Prop :=
  length (rp_connections p) = 4%nat /\ Forall (fun conn => read_only conn /\ cn_path conn = path) (rp_connections p).

(** No claim is left without an execution. *)
Definition no_orphans (s : store) : Prop :=
  forall k a d, i_accepted (s_ingest s) !! k = Some a -> ar_dispatch_id a = Some d -> ~ no_execution s d.

Section props.
Context `{EL : EnvLaws} (file_of : text -> text).
Notation at_ := (file_at file_of).
Implicit Types (f : files) (path : text).

(** *** Files *)

Lemma file_at_set path d f : at_ path (set_file file_of path d f) = d.
Proof. unfold file_at, set_file. simpl. by rewrite lookup_insert_eq. Qed.

Lemma file_at_other path path' d f : file_of path <> file_of path' -> at_ path' (set_file file_of path d f) = at_ path' f.
Proof. intros Hne. unfold file_at, set_file. simpl. by rewrite lookup_insert_ne. Qed.

(** The file a path leads to, and the rest as it was *)
Definition rest_as (path : text) (f f' : files) : Prop :=
  forall path', file_of path' <> file_of path -> at_ path' f' = at_ path' f.

Lemma store_put names ingest_path results_path s f :
  file_of ingest_path <> file_of results_path -> s_names s = names ->
  store_at file_of names ingest_path results_path (put_store file_of ingest_path results_path s f) = s.
Proof.
  intros Hne <-. unfold store_at, put_store. rewrite (file_at_other results_path ingest_path), !file_at_set by done.
  by destruct s.
Qed.

Lemma put_store_schema ingest_path results_path s f path :
  d_schema (at_ path (put_store file_of ingest_path results_path s f)) = d_schema (at_ path f).
Proof.
  unfold put_store.
  assert (Hone : forall p d f, d_schema d = d_schema (at_ p f) -> d_schema (at_ path (set_file file_of p d f)) = d_schema (at_ path f)).
  { intros p d f0 Hd. destruct (decide (file_of p = file_of path)) as [Heq|Hne]; [|by rewrite file_at_other].
    unfold file_at, set_file in *. simpl. rewrite <-Heq, lookup_insert_eq. simpl. by rewrite Hd, Heq. }
  by rewrite !Hone.
Qed.

(** *** The steps of the opening, each seen by what follows it. An error ends the opening. *)

Lemma wp_connection_open path durability f n (Q : Result connection -> conn files -> Prop) :
  (forall e c', Q (Err e) c') ->
  (forall conn f' n', fs_files f' = fs_files f -> writes_to path durability conn -> Q (Ok conn) (Conn n' f')) ->
  wp (on_dirs (RwConnection_open path durability)) Q (Conn n f).
Proof using EL.
  intros Herr Hok. unfold on_dirs. apply wp_zoom. eapply wp_mono; [apply wp_rw_open|].
  intros [conn|e] c' Hr; cbn [c_step c_db]; [|apply Herr]. apply Hok; [done|]. by destruct Hr as [-> _].
Qed.

Lemma wp_readers_open path s1 s2 s3 s4 f n (Q : Result ReadPool -> conn files -> Prop) :
  (forall e c', Q (Err e) c') ->
  (forall p f' n', fs_files f' = fs_files f -> reads_from path p -> Q (Ok p) (Conn n' f')) ->
  wp (on_dirs (open_with_sql path s1 s2 s3 s4)) Q (Conn n f).
Proof using EL.
  intros Herr Hok. unfold on_dirs. apply wp_zoom. eapply wp_mono; [apply wp_open_with_sql|].
  intros [p|e] c' Hr; cbn [c_step c_db]; [|apply Herr]. apply Hok; [done|]. by destruct Hr as (? & ? & _).
Qed.

Lemma wp_os_call f n (Q : Result unit -> conn files -> Prop) :
  (forall e c', Q (Err e) c') -> (forall n', Q (Ok tt) (Conn n' f)) -> wp os_call Q (Conn n f).
Proof using EL. intros Herr HQ. apply wp_stmt; [intros; apply Herr|]. intros [] f' [= <-]. apply HQ. Qed.

Lemma wp_table_there path table f n (Q : Result unit -> conn files -> Prop) :
  (forall e c', Q (Err e) c') ->
  (table ∈ f_objects (d_schema (at_ path f)) -> Q (Ok tt) (Conn n f)) -> wp (table_there file_of path table) Q (Conn n f).
Proof using EL. intros Herr Hok. unfold wp, table_there. cbn [c_db]. case_decide; simpl; auto. Qed.

(** What a migration that succeeds has made of a file *)
Definition migrated (l : list ddl) (x x' : db_file) : Prop :=
  f_versions x' = [SCHEMA_VERSION] /\
  (f_versions x = [] -> f_objects x' = {["schema_version"%string]} ∪ names_of l ∪ f_objects x) /\
  (f_versions x <> [] -> x' = x).

Lemma wp_migrated path l f n (Q : Result unit -> conn files -> Prop) :
  file_known l (d_schema (at_ path f)) \/ has_schema acceptance_schema (d_schema (at_ path f)) /\
    "schema_version"%string ∈ f_objects (d_schema (at_ path f)) ->
  (forall e c', Q (Err e) c') ->
  (forall x n', migrated l (d_schema (at_ path f)) x ->
     Q (Ok tt) (Conn n' (set_file file_of path (with_schema x (at_ path f)) f))) ->
  wp (on_schema file_of path (migrate_schema (execute_batch l))) Q (Conn n f).
Proof using EL.
  intros Hf Herr Hok. unfold on_schema. apply wp_zoom. cbn [c_step c_db].
  eapply wp_mono; [apply wp_migrate|]. cbn [c_db]. intros [[]|e] [n' x] (_ & Hnew & Hold); [|apply Herr]. cbn [c_db c_step] in *.
  apply Hok. assert (f_versions (d_schema (at_ path f)) = [] \/ exists v, f_versions (d_schema (at_ path f)) = [v] /\ v <> -1 /\
    "schema_version"%string ∈ f_objects (d_schema (at_ path f))) as [Hv|(v & Hv & Hne & Hs)].
  { destruct Hf as [[?|(v & ? & ? & ? & _)]|[[? _] ?]]; [by left|right; by exists v|right; by exists SCHEMA_VERSION]. }
  - destruct (Hnew Hv) as (Hv' & Ho & _). split; [done|]. by rewrite Hv.
  - destruct (Hold v Hv Hne Hs) as [-> Hother]. destruct (decide (v = SCHEMA_VERSION)) as [->|Hne']; [|by destruct (Hother Hne')].
    split; [done|]. by rewrite Hv.
Qed.

Lemma migrated_has_schema l x x' : file_known l x -> migrated l x x' -> has_schema l x'.
Proof.
  intros Hk (Hv & Hnew & Hold). split; [done|]. destruct Hk as [Hn|(v & Hv0 & _ & _ & Hl)]; [rewrite (Hnew Hn); set_solver|].
  rewrite Hold in Hv |- * by by rewrite Hv0. apply Hl. congruence.
Qed.

(** *** The handles *)

Lemma wp_ingest_handle path options f n (Q : Result writer_handle -> conn files -> Prop) :
  file_known acceptance_schema (d_schema (at_ path f)) -> (forall e c', Q (Err e) c') ->
  (forall h f' n' x, migrated acceptance_schema (d_schema (at_ path f)) x -> at_ path f' = with_schema x (at_ path f) ->
     rest_as path f f' -> writes_to path (durability options) (hd_connection h) -> reads_from path (hd_reads h) ->
     hd_names h = dom (i_queues (d_ingest (at_ path f))) -> Q (Ok h) (Conn n' f')) ->
  wp (IngestHandle_open file_of path options) Q (Conn n f).
Proof using EL.
  intros Hf Herr Hok. unfold IngestHandle_open, IngestConn_open. wp_rule. apply wp_os_call; [done|]. intros n1.
  wp_rule. apply wp_os_call; [done|]. intros n2. wp_rule. wp_rule. apply wp_connection_open; [done|]. intros conn f1 n3 Hf1 Hconn.
  assert (Hat : forall p, at_ p f1 = at_ p f) by (intros p; unfold file_at; by rewrite Hf1).
  wp_rule. apply wp_migrated; [left; by rewrite Hat|done|]. intros x n4 Hx. rewrite Hat in Hx |- *. wp_rule.
  wp_rule. apply wp_table_there; [done|]. intros _. wp_rule. unfold on_ingest. apply wp_zoom. cbn [c_step c_db].
  apply wp_query; [done|]. intros names [= <-]. cbn [c_step c_db]. rewrite !file_at_set. set (f2 := set_file _ _ _ _).
  wp_rule. apply wp_readers_open; [done|]. intros p f3 n5 Hf3 Hp. wp_rule.
  assert (Hat3 : forall p, at_ p f3 = at_ p f2) by (intros p'; unfold file_at; by rewrite Hf3).
  apply (Hok _ _ _ x); try done; [by rewrite Hat3; unfold f2; rewrite file_at_set|].
  intros path' Hne. rewrite Hat3. unfold f2. rewrite !file_at_other by done. apply Hat.
Qed.

Lemma wp_results_handle path options f n (Q : Result writer_handle -> conn files -> Prop) :
  file_known executions_schema (d_schema (at_ path f)) \/ has_schema acceptance_schema (d_schema (at_ path f)) /\
    "schema_version"%string ∈ f_objects (d_schema (at_ path f)) ->
  (forall e c', Q (Err e) c') ->
  (forall h f' n' x, migrated executions_schema (d_schema (at_ path f)) x -> at_ path f' = with_schema x (at_ path f) ->
     rest_as path f f' -> writes_to path (durability options) (hd_connection h) -> reads_from path (hd_reads h) ->
     Q (Ok h) (Conn n' f')) ->
  wp (ResultsHandle_open file_of path options) Q (Conn n f).
Proof using EL.
  intros Hf Herr Hok. unfold ResultsHandle_open, ResultsConn_open. wp_rule. apply wp_os_call; [done|]. intros n1.
  wp_rule. apply wp_os_call; [done|]. intros n2. wp_rule. wp_rule. apply wp_connection_open; [done|]. intros conn f1 n3 Hf1 Hconn.
  assert (Hat : forall p, at_ p f1 = at_ p f) by (intros p; unfold file_at; by rewrite Hf1).
  wp_rule. apply wp_migrated; [by rewrite Hat|done|]. intros x n4 Hx. rewrite Hat in Hx |- *. wp_rule.
  set (f2 := set_file _ _ _ _). wp_rule. apply wp_readers_open; [done|]. intros p f3 n5 Hf3 Hp. wp_rule.
  assert (Hat3 : forall p, at_ p f3 = at_ p f2) by (intros p'; unfold file_at; by rewrite Hf3).
  apply (Hok _ _ _ x); try done; [by rewrite Hat3; unfold f2; rewrite file_at_set|].
  intros path' Hne. rewrite Hat3. unfold f2. rewrite file_at_other by done. apply Hat.
Qed.

(** *** Healing *)

Lemma wp_heal_names c : wp heal_orphan_claims (fun _ c' => s_names (c_db c') = s_names (c_db c)) c.
Proof using EL.
  unfold heal_orphan_claims. wp_rule. apply wp_query; [done|]. intros orphans _. wp_rule. wp_rule. wp_rule.
  apply (wp_for_each _ _ (fun _ _ c' => s_names (c_db c') = s_names (c_db c))); [done| |by intros; wp_rule].
  intros done [k d] rest ys c1 _ Hn. wp_rule. apply wp_query; [done|]. intros count _. case_decide; [|by wp_rule].
  apply wp_stmt; [done|]. by intros [] s' [= <-].
Qed.

Lemma wp_healed s n :
  store_inv s ->
  wp heal_orphan_claims (fun r c' => (store_inv (c_db c') /\ s_names (c_db c') = s_names s) /\
    match r with Ok _ => no_orphans (c_db c') | Err _ => True end) (Conn n s).
Proof using EL.
  intros Hinv. eapply wp_mono.
  { apply wp_and; [apply wp_and; [by apply heal_inv|apply wp_heal_names]|apply wp_heal_orphan_claims]. }
  intros [[]|e] c' [Hi Hr]; [|done]. split; [done|]. destruct Hr as (Hres & now & Hk). cbn [c_db] in *.
  intros k a' d Ha' Hd Hno. specialize (Hk k). unfold no_execution in Hno. rewrite Hres in Hno.
  destruct (i_accepted (s_ingest s) !! k) as [a|]; [|congruence].
  destruct Hk as [(d' & _ & _ & Hnew)|[Hall Hsame]]; [rewrite Ha' in Hnew; by injection Hnew as ->|].
  rewrite Ha' in Hsame. injection Hsame as ->. by apply (Hall d).
Qed.

(** The writer starts with all queues. *)
Lemma started_inv ing res : store_inv (mkStore ∅ ing res) -> store_inv (mkStore (dom (i_queues ing)) ing res).
Proof. intros [[_ Hi] Hres Hlink Hids]. split; [by split|done..]. Qed.

(** Healing touches no definition; between two files it acts on the store they make up. *)
Lemma wp_heal_on_open ingest_path results_path names f n (Q : Result unit -> conn files -> Prop) :
  (forall e c', Q (Err e) c') ->
  (forall f' n', (forall path, d_schema (at_ path f') = d_schema (at_ path f)) ->
     (file_of ingest_path <> file_of results_path -> store_inv (store_at file_of names ingest_path results_path f) ->
        store_inv (store_at file_of names ingest_path results_path f') /\
        no_orphans (store_at file_of names ingest_path results_path f')) -> Q (Ok tt) (Conn n' f')) ->
  wp (heal_on_open file_of ingest_path results_path names) Q (Conn n f).
Proof using EL.
  intros Herr Hok. unfold heal_on_open. wp_rule. apply wp_connection_open; [done|]. intros _ f1 n1 Hf1 _. wp_rule.
  apply wp_connection_open; [done|]. intros _ f2 n2 Hf2 _. wp_rule.
  assert (Hat : forall p, at_ p f2 = at_ p f) by (intros p; unfold file_at; by rewrite Hf2, Hf1).
  apply wp_table_there; [done|]. intros _. wp_rule. unfold wp at 1. cbn [fst snd]. wp_rule.
  assert (Hheal : wp (on_store file_of names ingest_path results_path heal_orphan_claims) Q (Conn n2 f2)).
  { unfold on_store. apply wp_zoom. cbn [c_step c_db]. set (s := store_at _ _ _ _ f2).
    assert (Hs : s = store_at file_of names ingest_path results_path f) by (unfold s, store_at; by rewrite !Hat).
    unfold wp. destruct (heal_orphan_claims (Conn n2 s)) as [[[]|e] c'] eqn:Erun; cbn [fst snd]; [|apply Herr].
    apply Hok; [intros path; by rewrite put_store_schema, Hat|]. intros Hne Hinv.
    pose proof (wp_run _ _ _ _ _ (wp_healed s n2 ltac:(by rewrite Hs)) Erun) as [[Hi Hn] Ho].
    rewrite store_put; [done|done|]. by rewrite Hn. }
  case_bool_decide; [by wp_rule|]. by apply wp_table_there.
Qed.

Lemma wp_open_pair ingest_path results_path options n f :
  file_of ingest_path <> file_of results_path ->
  file_known acceptance_schema (d_schema (at_ ingest_path f)) -> file_known executions_schema (d_schema (at_ results_path f)) ->
  store_inv (store_at file_of ∅ ingest_path results_path f) ->
  wp (SqliteStore_open_pair file_of ingest_path results_path options) (fun r c' => forall ingest results, r = Ok (ingest, results) ->
    validate_all options = Ok tt /\
    has_schema acceptance_schema (d_schema (at_ ingest_path (c_db c'))) /\
    has_schema executions_schema (d_schema (at_ results_path (c_db c'))) /\
    (writes_to ingest_path (durability options) (hd_connection ingest) /\
     writes_to results_path (durability options) (hd_connection results)) /\
    (reads_from ingest_path (hd_reads ingest) /\ reads_from results_path (hd_reads results)) /\
    hd_names ingest = dom (i_queues (d_ingest (at_ ingest_path f))) /\
    store_inv (store_at file_of (hd_names ingest) ingest_path results_path (c_db c')) /\
    no_orphans (store_at file_of (hd_names ingest) ingest_path results_path (c_db c'))) (Conn n f).
Proof using EL.
  intros Hne Hfi Hfr Hinv. unfold SqliteStore_open_pair. wp_rule.
  destruct (validate_all options) as [[]|e] eqn:Hv; [|by apply wp_lift]. apply wp_lift. cbn [map_err].
  wp_rule. apply wp_ingest_handle; [done|done|]. intros ih f1 n1 xi Hxi Hat1 Hrest1 Hw1 Hread1 Hnames. wp_rule.
  apply wp_results_handle; [left; by rewrite Hrest1|done|]. intros rh f2 n2 xr Hxr Hat2 Hrest2 Hw2 Hread2. wp_rule.
  rewrite Hrest1 in Hxr, Hat2 by done.
  assert (Hat : store_at file_of (hd_names ih) ingest_path results_path f2 = store_at file_of (hd_names ih) ingest_path results_path f).
  { unfold store_at. by rewrite Hat2, Hrest2, Hat1. }
  apply wp_heal_on_open; [done|]. intros f3 n3 Hschema Hheal. wp_rule. intros ingest results [= <- <-]. cbn [c_db].
  destruct Hheal as [Hi Ho]; [done|rewrite Hat, Hnames; by apply started_inv|].
  rewrite !Hschema, Hat2, Hrest2, Hat1 by done. cbn [d_schema with_schema].
  split_and!; try done; by eapply migrated_has_schema.
Qed.

(** With one new file for both databases *)
Lemma wp_open_shared ingest_path results_path options n f :
  file_of ingest_path = file_of results_path -> d_schema (at_ ingest_path f) = fresh_file ->
  wp (SqliteStore_open_pair file_of ingest_path results_path options) (fun r c' => forall ingest results, r = Ok (ingest, results) ->
    "executions"%string ∉ f_objects (d_schema (at_ results_path (c_db c')))) (Conn n f).
Proof using EL.
  intros Heq Hnew. unfold SqliteStore_open_pair. wp_rule.
  destruct (validate_all options) as [[]|e] eqn:Hv; [|by apply wp_lift]. apply wp_lift. cbn [map_err].
  assert (Hsame : forall f, at_ results_path f = at_ ingest_path f) by (intros f0; unfold file_at; by rewrite Heq).
  wp_rule. apply wp_ingest_handle; [left; by rewrite Hnew|done|]. intros ih f1 n1 xi (Hv1 & Ho1 & _) Hat1 _ _ _ _. wp_rule.
  rewrite Hnew in Ho1. specialize (Ho1 eq_refl). apply wp_results_handle.
  { right. rewrite Hsame, Hat1. cbn [d_schema with_schema]. split; [split; [done|]|]; rewrite Ho1.
    - by apply union_subseteq_l', union_subseteq_r.
    - by apply elem_of_union_l, elem_of_union_l, elem_of_singleton. }
  { done. }
  intros rh f2 n2 xr (_ & _ & Hold) Hat2 _ _ _. rewrite Hsame, Hat1 in Hold. cbn [d_schema with_schema] in Hold.
  wp_rule. apply wp_heal_on_open; [done|]. intros f3 n3 Hschema _. wp_rule. intros ingest results _. cbn [c_db].
  rewrite Hschema, Hat2. cbn [d_schema with_schema]. rewrite Hold by by rewrite Hv1. rewrite Ho1.
  apply (bool_decide_unpack _). vm_compute. exact I.
Qed.
End props.

(** ** Theorems *)

(** C35. Opening the store at two paths that lead to different files, on new files or on those of an
    earlier run, however that run ended: when it succeeds, the options are valid, each file has the
    version and all tables and indexes of its schema, the connection of each writer has the settings of
    the durability that was asked for, the readers cannot write, the writer of the ingest database knows
    every queue, the rows of the two databases stay linked, and no claim is left without an execution.
    When both paths lead to one file, a new one, and the opening succeeds, the table of the executions is
    missing from it: a defect. *)
Theorem opened_store_is_ready `{EnvLaws} file_of ingest_path results_path options n f ingest results c' :
  SqliteStore_open_pair file_of ingest_path results_path options (Conn n f) = (Ok (ingest, results), c') ->
  (file_of ingest_path <> file_of results_path ->
   file_known acceptance_schema (d_schema (file_at file_of ingest_path f)) ->
   file_known executions_schema (d_schema (file_at file_of results_path f)) ->
   store_inv (store_at file_of ∅ ingest_path results_path f) ->
   validate_all options = Ok tt /\
   has_schema acceptance_schema (d_schema (file_at file_of ingest_path (c_db c'))) /\
   has_schema executions_schema (d_schema (file_at file_of results_path (c_db c'))) /\
   (writes_to ingest_path (durability options) (hd_connection ingest) /\
    writes_to results_path (durability options) (hd_connection results)) /\
   (reads_from ingest_path (hd_reads ingest) /\ reads_from results_path (hd_reads results)) /\
   hd_names ingest = dom (i_queues (d_ingest (file_at file_of ingest_path f))) /\
   store_inv (store_at file_of (hd_names ingest) ingest_path results_path (c_db c')) /\
   no_orphans (store_at file_of (hd_names ingest) ingest_path results_path (c_db c'))) /\
  (file_of ingest_path = file_of results_path -> d_schema (file_at file_of ingest_path f) = fresh_file ->
   "executions"%string ∉ f_objects (d_schema (file_at file_of results_path (c_db c')))).
Proof.
  intros Hrun. split.
  - intros Hne Hfi Hfr Hinv.
    exact (wp_run _ _ _ _ _ (wp_open_pair file_of ingest_path results_path options n f Hne Hfi Hfr Hinv) Hrun _ _ eq_refl).
  - intros Heq Hnew.
    exact (wp_run _ _ _ _ _ (wp_open_shared file_of ingest_path results_path options n f Heq Hnew) Hrun _ _ eq_refl).
Qed.

(** A crash has left a claim without an execution; the store is opened again. Every path is the name of
    its own file. *)
Definition example_path : text := chars "data/maqistor-ingest.db".
Definition example_files : files :=
  mkFiles ∅ {[ example_path := mkDatabase (migrated_file acceptance_schema) (s_ingest example_crashed) empty_results;
               default_results_path example_path := mkDatabase (migrated_file executions_schema) empty_ingest (s_results example_crashed) ]}.

Lemma opened_store_is_ready_witness :
  exists ingest results c',
    SqliteStore_open_with_options (E := model_env) (fun path => path) example_path SqliteWriteOptions_default (Conn 500 example_files) =
      (Ok (ingest, results), c') /\
    hd_names ingest = {["email"%string]} /\
    has_schema executions_schema (d_schema (file_at (fun path => path) (default_results_path example_path) (c_db c'))) /\
    no_orphans (store_at (fun path => path) (hd_names ingest) example_path (default_results_path example_path) (c_db c')).
Proof.
  destruct (SqliteStore_open_with_options (E := model_env) (fun path => path) example_path SqliteWriteOptions_default
    (Conn 500 example_files)) as [[[ingest results]|e] c'] eqn:Erun; [|exfalso].
  - exists ingest, results, c'. split; [reflexivity|].
    destruct (opened_store_is_ready (E := model_env) (fun path => path) example_path (default_results_path example_path)
      SqliteWriteOptions_default 500 example_files ingest results c' Erun) as [Hready _].
    destruct Hready as (_ & _ & Hsch & _ & _ & Hn & _ & Hno).
    + apply (bool_decide_unpack _). vm_compute. exact I.
    + right. exists 1. split; [vm_compute; reflexivity|]. split; [lia|].
      split; [apply (bool_decide_unpack _); vm_compute; exact I|]. intros _. apply (bool_decide_unpack _). vm_compute. exact I.
    + right. exists 1. split; [vm_compute; reflexivity|]. split; [lia|].
      split; [apply (bool_decide_unpack _); vm_compute; exact I|]. intros _. apply (bool_decide_unpack _). vm_compute. exact I.
    + solve_store_inv.
    + split; [rewrite Hn; vm_compute; reflexivity|]. split; [exact Hsch|exact Hno].
  - apply (f_equal fst) in Erun. vm_compute in Erun. discriminate Erun.
Defined.
