(* ===== verification/Supervisor.v ===== *)
(** * The supervisor of the managed workers

    [crates/dispatcher/src/lib.rs], [DockerWorkerSupervisor]: a pass over the managed queues that
    keeps one container for each replica. The Docker daemon and its client ([bollard]) are not under
    [src/]: they are the class [Docker], a daemon that answers the six requests the code makes.
    [DockerLaws] states what the documentation of the Docker Engine API promises about them; no other
    client acts on these containers while a pass runs. *)
From S2P Require Import Prelude Registry Config.

(** ** The data of [bollard::models] that the code reads or writes *)

Record MountPoint := mkMountPoint {
  mp_source : option string;
  mp_destination : option string;
  mp_rw : option bool
}.

Inductive MountTypeEnum : Type := BIND.
Record Mount := mkMount {
  mt_target : option string;
  mt_source : option string;
  mt_typ : option MountTypeEnum;
  mt_read_only : option bool
}.

Inductive RestartPolicyNameEnum : Type := UNLESS_STOPPED.

(** [bollard::container::Config] with its [HostConfig] *)
Record ContainerConfig := mkContainerConfig {
  co_image : option string;
  co_env : option (list string);
  co_labels : option (gmap string string);
  co_restart_policy : option RestartPolicyNameEnum;
  co_mounts : option (list Mount)
}.

(** The answer to [inspect_container] *)
Record InspectConfig := mkInspectConfig { ci_env : option (list string); ci_labels : option (gmap string string) }.
Record ContainerInspect := mkContainerInspect {
  in_image : option string;
  in_config : option InspectConfig;
  in_mounts : option (list MountPoint)
}.

(** The daemon: each request may fail, and returns the daemon it leaves behind. *)
Class Docker (D : Type) := {
  inspect_container : string -> D -> result string ContainerInspect * D;
  start_container : string -> D -> result string unit * D;
  (** with [force] *)
  remove_container : string -> D -> result string unit * D;
  create_container : string -> ContainerConfig -> D -> result string unit * D;
  (** the [id] of the image, which the answer may lack *)
  inspect_image : string -> D -> result string (option string) * D;
  (** the events of a pull, up to the first error, and the daemon when the stream is dropped *)
  create_image : string -> D -> list (result string unit) * D
}.

(** ** The data of the dispatcher *)

Record ContainerMount := mkContainerMount { cm_source : string; cm_target : string; cm_read_only : bool }.

#[export] Instance ContainerMount_eq_dec : EqDecision ContainerMount.
Proof. solve_decision. Defined.

Definition from_inspect (mount : MountPoint) : ContainerMount :=
  mkContainerMount (default ""%string (mp_source mount)) (default ""%string (mp_destination mount))
    (negb (default true (mp_rw mount))).

Definition to_docker_mount (m : ContainerMount) : Mount :=
  mkMount (Some (cm_target m)) (Some (cm_source m)) (Some BIND) (Some (cm_read_only m)).

(** [ManagedQueue] of the dispatcher *)
Record ManagedQueue := mkManagedQueue {
  mq_name : string;
  mq_image : string;
  mq_replicas : Z;
  mq_env : list string;
  mq_mounts : list ContainerMount
}.

(** The errors of a pass: the contexts the code gives them *)
Inductive SupervisorError : Type :=
| Refusing (name : string)
| Removing (message : string) | Creating (message : string) | Starting (message : string)
| Pulling (message : string) | InspectingImage (message : string) | NoImageId.

Definition managed_label : string := "io.maqistor.managed".
Definition queue_label : string := "io.maqistor.queue".
Definition replica_label : string := "io.maqistor.replica".

(** ** Connecting *)

Record DockerConnectOptions := mkDockerConnectOptions {
  do_endpoint : option string;
  do_ca_cert_path : option string;
  do_cert_path : option string;
  do_key_path : option string
}.

(** [DockerConfig::connect_options] *)
Definition connect_options (c : DockerConfig) : DockerConnectOptions :=
  mkDockerConnectOptions (dc_endpoint c) (dc_ca_cert_path c) (dc_cert_path c) (dc_key_path c).

Definition DOCKER_CONNECT_TIMEOUT_SECS : Z := 120.

(** The operating systems the code tells apart with [cfg] *)
Inductive target : Type := Unix | Windows | OtherOs.

(** The constructor of [bollard::Docker] that is called, with its arguments *)
Inductive Connect : Type :=
| LocalDefaults
| WithUnix (endpoint : string) (timeout : Z)
| WithNamedPipe (endpoint : string) (timeout : Z)
| WithSsl (endpoint key cert ca : string) (timeout : Z)
| WithHttp (endpoint : string) (timeout : Z).

Definition connect_docker (os : target) (o : DockerConnectOptions) : result string Connect :=
  match do_endpoint o with
  | None => Ok LocalDefaults
  | Some endpoint =>
      if starts_with "unix://" endpoint then
        match os with
        | Unix => Ok (WithUnix endpoint DOCKER_CONNECT_TIMEOUT_SECS)
        | _ => Err "unix:// Docker endpoints are only supported on Unix hosts"%string
        end
      else if starts_with "npipe://" endpoint then
        match os with
        | Windows => Ok (WithNamedPipe endpoint DOCKER_CONNECT_TIMEOUT_SECS)
        | _ => Err "npipe:// Docker endpoints are only supported on Windows hosts"%string
        end
      else if starts_with "tcp://" endpoint || starts_with "http://" endpoint || starts_with "https://" endpoint then
        match do_ca_cert_path o, do_cert_path o, do_key_path o with
        | Some ca, Some cert, Some key => Ok (WithSsl endpoint key cert ca DOCKER_CONNECT_TIMEOUT_SECS)
        | None, None, None => Ok (WithHttp endpoint DOCKER_CONNECT_TIMEOUT_SECS)
        | _, _, _ => Err "docker TLS requires ca_cert_path, cert_path, and key_path together"%string
        end
      else Err ("unsupported docker endpoint scheme: " +:+ endpoint)
  end.

(** ** A pass *)

Section supervisor.
Context {D : Type} `{!Docker D}.

(** The daemon and [desired_images], the image ids resolved so far *)
Record supervisor := mkSupervisor { sv_docker : D; sv_images : gmap string string }.

(** A computation that may fail; what it did to the daemon stays done. *)
Definition SM (A : Type) : Type := supervisor -> result SupervisorError A * supervisor.
#[export] Instance SM_ret : MRet SM := fun A a s => (Ok a, s).
#[export] Instance SM_bind : MBind SM := fun A B f m s =>
  match m s with
  | (Ok a, s') => f a s'
  | (Err e, s') => (Err e, s')
  end.
Definition sfail {A} (e : SupervisorError) : SM A := fun s => (Err e, s).
Definition lift {A} (r : result SupervisorError A) : SM A := fun s => (r, s).

(** A request to the daemon, its answer as a value *)
Definition ask_docker {A} (f : D -> A * D) : SM A := fun s =>
  let '(a, d) := f (sv_docker s) in (Ok a, mkSupervisor d (sv_images s)).
Definition cached (image : string) : SM (option string) := fun s => (Ok (sv_images s !! image), s).
Definition cache (image id : string) : SM unit := fun s =>
  (Ok tt, mkSupervisor (sv_docker s) (<[image := id]> (sv_images s))).

(** [while let Some(event) = pull.next().await { event.context(..)?; }] *)
Fixpoint pull_events (events : list (result string unit)) : result SupervisorError unit :=
  match events with
  | [] => Ok tt
  | event :: events => let? _ := map_err Pulling event in pull_events events
  end.

Definition resolve_image_id (image : string) : SM string :=
  known ← cached image;
  match known with
  | Some id => mret id
  | None =>
      local ← ask_docker (inspect_image image);
      inspected ←
        match local with
        | Ok image_id => mret image_id
        | Err _ =>
            events ← ask_docker (create_image image);
            _ ← lift (pull_events events);
            again ← ask_docker (inspect_image image);
            lift (map_err InspectingImage again)
        end;
      match inspected with
      | None => sfail NoImageId
      | Some id => _ ← cache image id; mret id
      end
  end.

Definition all_in {A} `{!EqDecision A} (wanted have : list A) : bool :=
  forallb (fun w => existsb (fun h => bool_decide (h = w)) have) wanted.

(** [need_update] *)
Definition outdated (queue : ManagedQueue) (desired_image : string) (container : ContainerInspect) : bool :=
  let current_env := default [] (in_config container ≫= ci_env) in
  let current_mounts := from_inspect <$> default [] (in_mounts container) in
  negb (bool_decide (in_image container = Some desired_image))
  || negb (all_in (mq_env queue) current_env)
  || negb (all_in (mq_mounts queue) current_mounts).

Definition is_managed (container : ContainerInspect) : bool :=
  bool_decide ((in_config container ≫= ci_labels) ≫= lookup managed_label = Some "true"%string).

Definition labels_of (queue : ManagedQueue) (ordinal : Z) : gmap string string :=
  list_to_map [(managed_label, "true"%string); (queue_label, mq_name queue); (replica_label, pretty ordinal)].

Definition config_of (queue : ManagedQueue) (ordinal : Z) : ContainerConfig :=
  mkContainerConfig (Some (mq_image queue)) (Some (mq_env queue)) (Some (labels_of queue ordinal))
    (Some UNLESS_STOPPED) (Some (to_docker_mount <$> mq_mounts queue)).

(** The end of [ensure]: create the container and start it *)
Definition create_and_start (queue : ManagedQueue) (ordinal : Z) (name : string) : SM unit :=
  created ← ask_docker (create_container name (config_of queue ordinal));
  _ ← lift (map_err Creating created);
  started ← ask_docker (start_container name);
  lift (map_err Starting started).

Definition ensure (queue : ManagedQueue) (ordinal : Z) : SM unit :=
  let name := container_name (mq_name queue) ordinal in
  desired_image ← resolve_image_id (mq_image queue);
  inspected ← ask_docker (inspect_container name);
  match inspected with
  | Ok container =>
      if outdated queue desired_image container then
        _ ← (if is_managed container then mret tt else sfail (Refusing name));
        removed ← ask_docker (remove_container name);
        _ ← lift (map_err Removing removed);
        create_and_start queue ordinal name
      else
        _ ← ask_docker (start_container name);
        mret tt
  | Err _ => create_and_start queue ordinal name
  end.

(** The loops of [reconcile] *)
Fixpoint each {A} (f : A -> SM unit) (l : list A) : SM unit :=
  match l with
  | [] => mret tt
  | a :: l => _ ← f a; each f l
  end.

Definition reconcile (queues : list ManagedQueue) : SM unit :=
  each (fun queue => each (ensure queue) (seqZ 0 (mq_replicas queue))) queues.

(** [n] turns of the loop of [spawn]; between two of them it sleeps for five seconds. *)
Fixpoint supervise (n : nat) (queues : list ManagedQueue) (s : supervisor) : supervisor :=
  match n with
  | O => s
  | S n => supervise n queues (reconcile queues s).2
  end.
End supervisor.
Arguments supervisor : clear implicits.
Arguments mkSupervisor {D}.
Arguments sv_docker {D}.
Arguments sv_images {D}.
