(* ===== verification/SupervisorProps.v ===== *)
(** * Properties of the supervisor

    What a pass does to the containers, for every daemon that obeys the documented laws and whatever
    requests fail: containers the supervisor does not manage survive, a pass that succeeds leaves every
    replica as configured, replicas that are as configured are left alone; and a container that can
    never be as configured is replaced in every pass. *)
From S2P Require Import Prelude Registry Config ConfigProps Supervisor.
From Stdlib Require Import Ascii.

(** ** The laws of the daemon *)

Record Container := mkContainer {
  ct_image : string;
  ct_env : list string;
  ct_labels : gmap string string;
  ct_mounts : list MountPoint;
  ct_running : bool
}.

Definition run_container (c : Container) : Container :=
  mkContainer (ct_image c) (ct_env c) (ct_labels c) (ct_mounts c) true.

(** The same container, started or not *)
Definition like (c c' : Container) : Prop := run_container c = run_container c'.

#[export] Instance like_equiv : Equivalence like.
Proof. unfold like. split; [done|by intros ?? ->|by intros ??? -> ->]. Qed.

Definition describes (i : ContainerInspect) (c : Container) : Prop :=
  in_image i = Some (ct_image c) /\ default [] (in_config i ≫= ci_env) = ct_env c /\
  default ∅ (in_config i ≫= ci_labels) = ct_labels c /\ default [] (in_mounts i) = ct_mounts c.

(** [VAR=value]: "a variable without = is removed from the environment" *)
Definition has_value (e : string) : Prop := "="%char ∈ String.list_ascii_of_string e.
#[export] Instance has_value_dec e : Decision (has_value e).
Proof. unfold has_value. apply _. Defined.

(** What the documentation says about a container created from a configuration *)
Record created_from (config : ContainerConfig) (images : gmap string string) (c : Container) : Prop := {
  cf_image : forall image, co_image config = Some image -> images !! image = Some (ct_image c);
  cf_env : forall e, e ∈ default [] (co_env config) -> has_value e -> e ∈ ct_env c;
  cf_bare : forall e, e ∈ default [] (co_env config) -> ~ has_value e -> e ∉ ct_env c;
  cf_labels : default ∅ (co_labels config) ⊆ ct_labels c;
  cf_mounts : forall m, m ∈ default [] (co_mounts config) -> mt_typ m = Some BIND ->
    mkMountPoint (mt_source m) (mt_target m) (negb <$> mt_read_only m) ∈ ct_mounts c
}.

(** The containers of the daemon, the images its references stand for, and the number of containers
    it has created *)
Class DockerView (D : Type) := {
  containers : D -> gmap string Container;
  images : D -> gmap string string;
  creations : D -> nat
}.

Definition unchanged {D} `{DockerView D} (d d' : D) : Prop :=
  containers d' = containers d /\ images d' = images d /\ creations d' = creations d.

Class DockerLaws (D : Type) `{!Docker D} `{!DockerView D} : Prop := {
  inspect_container_law : forall name d r d', inspect_container name d = (r, d') ->
    unchanged d d' /\ forall i, r = Ok i -> exists c, containers d !! name = Some c /\ describes i c;
  start_container_law : forall name d r d', start_container name d = (r, d') ->
    unchanged d d' /\ (forall u, r <> Ok u) \/
    containers d' = alter run_container name (containers d) /\ is_Some (containers d !! name) /\
      images d' = images d /\ creations d' = creations d;
  remove_container_law : forall name d r d', remove_container name d = (r, d') ->
    unchanged d d' /\ (forall u, r <> Ok u) \/
    containers d' = delete name (containers d) /\ images d' = images d /\ creations d' = creations d;
  (** a name that is in use is a conflict *)
  create_container_law : forall name config d r d', create_container name config d = (r, d') ->
    unchanged d d' /\ (forall u, r <> Ok u) \/
    containers d !! name = None /\ images d' = images d /\ creations d' = S (creations d) /\
      exists c, containers d' = <[name := c]> (containers d) /\ created_from config (images d) c;
  inspect_image_law : forall image d r d', inspect_image image d = (r, d') ->
    unchanged d d' /\ forall id, r = Ok (Some id) -> images d !! image = Some id;
  (** a pull moves the reference that is pulled *)
  create_image_law : forall image d events d', create_image image d = (events, d') ->
    containers d' = containers d /\ creations d' = creations d /\
    forall other, other <> image -> images d' !! other = images d !! other
}.

(** ** Strings of names *)

Section laws.
Context {D : Type} `{HL : DockerLaws D}.
Notation sup := (supervisor D).
Implicit Types (s : sup).

Notation ctrs s := (containers (sv_docker s)).
Notation imgs s := (images (sv_docker s)).

(** *** The program logic of a pass *)

Definition swp {A} (m : SM (D := D) A) (Q : result SupervisorError A -> sup -> Prop) (s : sup) : Prop :=
  Q (m s).1 (m s).2.

Lemma swp_mono {A} (m : SM (D := D) A) (Q Q' : result SupervisorError A -> sup -> Prop) s :
  swp m Q s -> (forall r s', Q r s' -> Q' r s') -> swp m Q' s.
Proof using Type. unfold swp. auto. Qed.

Lemma swp_ret {A} (a : A) (Q : result SupervisorError A -> sup -> Prop) s : Q (Ok a) s -> swp (mret (M := SM) a) Q s.
Proof using Type. done. Qed.

Lemma swp_bind {A B} (m : SM (D := D) A) (f : A -> SM (D := D) B) (Q : result SupervisorError B -> sup -> Prop) s :
  swp m (fun r s' => match r with Ok a => swp (f a) Q s' | Err e => Q (Err e) s' end) s ->
  swp (mbind (M := SM) f m) Q s.
Proof using Type. unfold swp, mbind, SM_bind. by destruct (m s) as [[a|e] s']. Qed.

Lemma swp_lift {A} r (Q : result SupervisorError A -> sup -> Prop) s : Q r s -> swp (lift r) Q s.
Proof using Type. done. Qed.

Lemma swp_fail {A} e (Q : result SupervisorError A -> sup -> Prop) s : Q (Err e) s -> swp (sfail e) Q s.
Proof using Type. done. Qed.

Lemma swp_ask {A} (f : D -> A * D) (Q : result SupervisorError A -> sup -> Prop) s :
  (forall a d', f (sv_docker s) = (a, d') -> Q (Ok a) (mkSupervisor d' (sv_images s))) -> swp (ask_docker f) Q s.
Proof using Type. unfold swp, ask_docker. destruct (f (sv_docker s)) as [a d'] eqn:Ef. simpl. auto. Qed.

(** *** The image of a queue *)

(** The images the daemon and the cache know afterwards: only [image] may have changed, and a cached
    image is not looked at again. *)
Record images_step (image : string) s s' : Prop := {
  im_other : forall i, i <> image -> imgs s' !! i = imgs s !! i;
  im_cached : is_Some (sv_images s !! image) -> imgs s' = imgs s;
  im_cache_other : forall i, i <> image -> sv_images s' !! i = sv_images s !! i;
  im_cache_kept : forall id, sv_images s !! image = Some id -> sv_images s' !! image = Some id;
  im_cache_new : forall id, sv_images s !! image = None -> sv_images s' !! image = Some id ->
    imgs s' !! image = Some id
}.

(** The daemon's containers are as they were. *)
Definition quiet s s' : Prop := ctrs s' = ctrs s /\ creations (sv_docker s') = creations (sv_docker s).

Lemma swp_resolve_image_id image s :
  swp (resolve_image_id image) (fun r s' =>
    quiet s s' /\ images_step image s s' /\ forall id, r = Ok id -> sv_images s' !! image = Some id) s.
Proof.
  unfold resolve_image_id. apply swp_bind. unfold swp at 1, cached. cbn [fst snd].
  destruct (sv_images s !! image) as [id|] eqn:Ec.
  { apply swp_ret. split_and!; [done| |by intros ? [= <-]]. split; naive_solver. }
  apply swp_bind, swp_ask. intros local d1 [(Hc1 & Hi1 & Hn1) Hl]%inspect_image_law.
  apply swp_bind.
  apply (swp_mono _ (fun r s' => quiet s s' /\ sv_images s' = sv_images s /\
    (forall i, i <> image -> imgs s' !! i = imgs s !! i) /\
    forall id, r = Ok (Some id) -> imgs s' !! image = Some id)).
  { destruct local as [oid|e].
    { apply swp_ret. split_and!; [done|done|by intros; simpl; rewrite Hi1|]. simpl. rewrite Hi1.
      intros id [= ->]. by apply Hl. }
    apply swp_bind, swp_ask. intros events d2 (Hc2 & Hn2 & Hi2)%create_image_law. cbn [sv_docker sv_images] in *.
    assert (quiet s (mkSupervisor d2 (sv_images s))) as Hq by (split; simpl; congruence).
    assert (forall i, i <> image -> images d2 !! i = imgs s !! i) as Ho.
    { intros i Hi. by rewrite Hi2, Hi1. }
    apply swp_bind, swp_lift. destruct (pull_events events) as [[]|e']; [|by split_and!].
    apply swp_bind, swp_ask. intros again d3 [(Hc3 & Hi3 & Hn3) Hl3]%inspect_image_law.
    cbn [sv_docker sv_images] in *. apply swp_lift.
    split_and!; simpl; [destruct Hq; split; simpl in *; congruence|done|by intros; rewrite Hi3; apply Ho|].
    intros id Hr. rewrite Hi3. apply Hl3. by destruct again; simplify_eq/=. }
  intros [[id|]|e] s1 (Hq & Hca & Ho & Hid).
  - apply swp_bind. unfold swp at 1, cache. cbn [fst snd]. apply swp_ret.
    split_and!; [done| |].
    + split; simpl; rewrite ?Hca, ?Ec; [done|by intros [? ?]|by intros; rewrite lookup_insert_ne|done|].
      intros id' _. rewrite lookup_insert_eq. intros [= <-]. by apply Hid.
    + simpl. intros ? [= <-]. by rewrite lookup_insert_eq.
  - apply swp_fail. split_and!; [done| |done].
    split; rewrite ?Hca, ?Ec; done.
  - split_and!; [done| |done]. split; rewrite ?Hca, ?Ec; done.
Qed.

(** *** One replica *)

(** The container is as the queue asks for. *)
Definition satisfies (queue : ManagedQueue) (id : string) (c : Container) : Prop :=
  ct_image c = id /\ (forall e, e ∈ mq_env queue -> e ∈ ct_env c) /\
  (forall m, m ∈ mq_mounts queue -> m ∈ from_inspect <$> ct_mounts c).

Definition managed (c : Container) : Prop := ct_labels c !! managed_label = Some "true"%string.

Lemma all_in_spec {A} `{!EqDecision A} (wanted have : list A) :
  all_in wanted have = true <-> forall w, w ∈ wanted -> w ∈ have.
Proof using Type.
  unfold all_in. rewrite forallb_forall. setoid_rewrite existsb_exists.
  split; intros Hall w Hw.
  - apply list_elem_of_In in Hw. destruct (Hall w Hw) as (h & Hh & <-%bool_decide_eq_true).
    by apply list_elem_of_In.
  - exists w. split; [|by apply bool_decide_eq_true]. apply list_elem_of_In, Hall. by apply list_elem_of_In.
Qed.

Lemma outdated_spec queue id i c : describes i c -> outdated queue id i = false <-> satisfies queue id c.
Proof using Type.
  intros (Hi & He & _ & Hm). unfold outdated, satisfies. rewrite Hi, He, Hm, !orb_false_iff, !negb_false_iff, !all_in_spec.
  rewrite bool_decide_eq_true. naive_solver.
Qed.

Lemma is_managed_spec i c : describes i c -> is_managed i = true <-> managed c.
Proof using Type.
  intros (_ & _ & Hl & _). unfold is_managed, managed. rewrite bool_decide_eq_true, <-Hl.
  by destruct (in_config i ≫= ci_labels).
Qed.

Definition name_of (queue : ManagedQueue) (ordinal : Z) : string := container_name (mq_name queue) ordinal.

(** A container that may be replaced: the supervisor's own, and not as its queue asks for *)
Definition replaceable queue id s c : Prop := managed c /\ sv_images s !! mq_image queue = Some id /\ ~ satisfies queue id c.

(** What [ensure] does to the container of a replica *)
Inductive target_step (queue : ManagedQueue) (ordinal : Z) s (r : result SupervisorError unit) s' : Prop :=
| TKept :
    (ctrs s' = ctrs s \/
     ctrs s' = alter run_container (name_of queue ordinal) (ctrs s) /\
     exists c id, ctrs s !! name_of queue ordinal = Some c /\
       sv_images s' !! mq_image queue = Some id /\ satisfies queue id c) ->
    creations (sv_docker s') = creations (sv_docker s) ->
    (forall u, r = Ok u -> exists c id, ctrs s !! name_of queue ordinal = Some c /\
       sv_images s' !! mq_image queue = Some id /\ satisfies queue id c) ->
    target_step queue ordinal s r s'
| TRemoved c id :
    ctrs s !! name_of queue ordinal = Some c -> replaceable queue id s' c ->
    ctrs s' = delete (name_of queue ordinal) (ctrs s) -> creations (sv_docker s') = creations (sv_docker s) ->
    (forall u, r <> Ok u) ->
    target_step queue ordinal s r s'
| TCreated c' id :
    (forall c, ctrs s !! name_of queue ordinal = Some c -> replaceable queue id s' c) ->
    sv_images s' !! mq_image queue = Some id ->
    created_from (config_of queue ordinal) (imgs s') c' ->
    creations (sv_docker s') = S (creations (sv_docker s)) ->
    (ctrs s' = <[name_of queue ordinal := c']> (ctrs s) /\ (forall u, r <> Ok u) \/
     ctrs s' = <[name_of queue ordinal := run_container c']> (ctrs s)) ->
    target_step queue ordinal s r s'.

(** Once the name is free *)
Lemma swp_create_and_start queue ordinal s :
  swp (create_and_start queue ordinal (name_of queue ordinal)) (fun r s' =>
    imgs s' = imgs s /\ sv_images s' = sv_images s /\
    (unchanged (sv_docker s) (sv_docker s') /\ (forall u, r <> Ok u) \/
     ctrs s !! name_of queue ordinal = None /\ creations (sv_docker s') = S (creations (sv_docker s)) /\
     exists c', created_from (config_of queue ordinal) (imgs s') c' /\
       (ctrs s' = <[name_of queue ordinal := c']> (ctrs s) /\ (forall u, r <> Ok u) \/
        ctrs s' = <[name_of queue ordinal := run_container c']> (ctrs s)))) s.
Proof.
  unfold create_and_start. apply swp_bind, swp_ask. intros created d1 Hcr%create_container_law.
  apply swp_bind, swp_lift.
  destruct Hcr as [[(Hc1 & Hi1 & Hn1) Hne]|(Hnone & Hi1 & Hn1 & c' & Hc1 & Hfrom)].
  { destruct created as [[]|e]; simpl; [by destruct (Hne tt)|]. split_and!; [done|done|]. left. by split. }
  destruct created as [[]|e]; cbn [map_err sv_docker sv_images] in *.
  2:{ split_and!; [done|done|]. right. split_and!; [done|done|]. exists c'. rewrite Hi1. split; [done|]. left. by split. }
  apply swp_bind, swp_ask. intros started d2 Hst%start_container_law. cbn [sv_docker sv_images] in *. apply swp_lift.
  destruct Hst as [[(Hc2 & Hi2 & Hn2) Hne]|(Hc2 & _ & Hi2 & Hn2)]; cbn [sv_docker sv_images]; rewrite Hi2, Hn2, Hi1, Hn1, Hc2, Hc1;
    (split_and!; [done|done|]); right; (split_and!; [done|done|]); exists c'; (split; [done|]).
  - left. split; [done|]. intros u. destruct started as [[]|]; [by destruct (Hne tt)|done].
  - right. by rewrite alter_insert_eq.
Qed.

Lemma swp_ensure queue ordinal s :
  swp (ensure queue ordinal) (fun r s' => images_step (mq_image queue) s s' /\ target_step queue ordinal s r s') s.
Proof.
  unfold ensure. fold (name_of queue ordinal). set (name := name_of queue ordinal).
  apply swp_bind. eapply swp_mono; [apply swp_resolve_image_id|].
  intros [id|e] s1 ([Hc Hn] & Him & Hid); [|by split; [done|]; apply TKept; [left| |]].
  specialize (Hid id eq_refl). apply swp_bind, swp_ask. intros inspected d1 [(Hc1 & Hi1 & Hn1) Hin]%inspect_container_law.
  assert (Hkeep : forall s', imgs s' = imgs s1 -> sv_images s' = sv_images s1 -> images_step (mq_image queue) s s').
  { intros s' Ei Ec. destruct Him. split; rewrite ?Ei, ?Ec; done. }
  assert (Hcreate : forall sx, imgs sx = imgs s1 -> sv_images sx = sv_images s1 ->
    creations (sv_docker sx) = creations (sv_docker s) ->
    (ctrs sx = ctrs s \/ ctrs sx = delete name (ctrs s) /\ exists c, ctrs s !! name = Some c /\ replaceable queue id s1 c) ->
    swp (create_and_start queue ordinal name)
      (fun r s' => images_step (mq_image queue) s s' /\ target_step queue ordinal s r s') sx).
  { intros sx Ei Ec En Ect. eapply swp_mono; [apply swp_create_and_start|]. intros r s' (Ei' & Ec' & Hcase).
    split; [apply Hkeep; congruence|].
    destruct Hcase as [[(Hcx & _ & Hnx) Hne]|(Hnone & Hnx & c' & Hfrom & Hcx)].
    - destruct Ect as [Ect|(Ect & c & Hcs & Hrep)].
      + apply TKept; [left; congruence|congruence|]. intros u ->. by destruct (Hne u).
      + eapply TRemoved; [done| |subst name; congruence|congruence|done]. destruct Hrep as (? & ? & ?).
        split_and!; [done| |done]. by rewrite Ec', Ec.
    - apply (TCreated _ _ _ _ _ c' id); [| |done|congruence|].
      + intros c Hcs. destruct Ect as [Ect|(Ect & c0 & Hcs0 & Hrep)]; [rewrite Ect in Hnone; congruence|].
        fold name in Hcs. assert (c = c0) as -> by congruence. destruct Hrep as (? & ? & ?). split_and!; [done| |done]. by rewrite Ec', Ec.
      + by rewrite Ec', Ec.
      + destruct Ect as [Ect|(Ect & _)]; rewrite Ect in Hcx; [done|]. fold name in Hcx |- *.
        by rewrite !insert_delete_eq in Hcx. }
  destruct inspected as [i|e]; [|apply Hcreate; simpl; [done|done|congruence|left; congruence]].
  destruct (Hin i eq_refl) as (c & Hcs & Hdesc). rewrite Hc in Hcs.
  destruct (outdated queue id i) eqn:Eout.
  - assert (~ satisfies queue id c) as Hns by (rewrite <-outdated_spec by done; congruence).
    apply swp_bind. destruct (is_managed i) eqn:Em.
    2:{ apply swp_fail. split; [by apply Hkeep|]. apply TKept; [left; simpl; congruence|simpl; congruence|done]. }
    apply (is_managed_spec _ _ Hdesc) in Em. apply swp_ret.
    apply swp_bind, swp_ask. intros removed d3 Hrm%remove_container_law. cbn [sv_docker sv_images] in *.
    apply swp_bind, swp_lift.
    destruct Hrm as [[(Hc3 & Hi3 & Hn3) Hne]|(Hc3 & Hi3 & Hn3)]; destruct removed as [[]|e]; cbn [map_err]; try (by destruct (Hne tt)).
    + split; [apply Hkeep; simpl; congruence|]. apply TKept; simpl; [left; congruence|congruence|done].
    + apply Hcreate; simpl; [congruence|done|congruence|]. right. split; [congruence|]. by exists c.
    + split; [apply Hkeep; simpl; congruence|]. apply (TRemoved _ _ _ _ _ c id); simpl; [done|by split|subst name; congruence|congruence|done].
  - apply (outdated_spec _ _ _ _ Hdesc) in Eout. apply swp_bind, swp_ask. intros started d3 Hst%start_container_law.
    cbn [sv_docker sv_images] in *. apply swp_ret.
    assert (forall u : unit, Ok (E := SupervisorError) tt = Ok u -> exists c id0, ctrs s !! name_of queue ordinal = Some c /\
      sv_images s1 !! mq_image queue = Some id0 /\ satisfies queue id0 c) as Hok by (intros; by exists c, id).
    pose proof (Hok tt eq_refl) as Hmatch.
    destruct Hst as [[(Hc3 & Hi3 & Hn3) _]|(Hc3 & _ & Hi3 & Hn3)]; (split; [apply Hkeep; simpl; congruence|]);
      apply TKept; simpl; [left; congruence|congruence|done|right; split; [rewrite Hc3, Hc1, Hc|]; done|congruence|done].
Qed.

(** *** A pass *)

Lemma swp_each {A} (f : A -> SM (D := D) unit) (l : list A) (I : list A -> sup -> Prop)
    (Q : result SupervisorError unit -> sup -> Prop) s :
  I [] s ->
  (forall done x rest s', l = done ++ x :: rest -> I done s' ->
    swp (f x) (fun r s'' => match r with Ok _ => I (done ++ [x]) s'' | Err e => Q (Err e) s'' end) s') ->
  (forall s', I l s' -> Q (Ok tt) s') ->
  swp (each f l) Q s.
Proof using Type.
  intros HI Hstep HQ.
  enough (forall rest done s, l = done ++ rest -> I done s -> swp (each f rest) Q s) as Hgen by by apply (Hgen l []).
  intros rest. induction rest as [|x rest IH]; intros done s' El HI'; simpl.
  - apply swp_ret. rewrite app_nil_r in El. subst. auto.
  - apply swp_bind. eapply swp_mono; [by apply (Hstep done x rest)|].
    intros [u|e] s'' Hy; [|done]. apply (IH (done ++ [x])); [by rewrite El, <-app_assoc|done].
Qed.

(** The replicas of a pass, in its order *)
Definition replicas_of (queues : list ManagedQueue) : list (ManagedQueue * Z) :=
  queues ≫= fun q => pair q <$> seqZ 0 (mq_replicas q).
Definition replica_name (p : ManagedQueue * Z) : string := name_of p.1 p.2.
Definition ensure_replica (p : ManagedQueue * Z) : SM (D := D) unit := ensure p.1 p.2.

Lemma each_app {A} (f : A -> SM (D := D) unit) l k s :
  each f (l ++ k) s = (_ ← each f l; each f k) s.
Proof using Type.
  revert s. induction l as [|x l IH]; intros s; [done|]. unfold mbind, SM_bind in *. simpl. unfold mbind, SM_bind.
  destruct (f x s) as [[u|e] s']; [apply IH|done].
Qed.

Lemma each_fmap {A B} (f : A -> SM (D := D) unit) (g : B -> A) l s : each f (g <$> l) s = each (fun b => f (g b)) l s.
Proof using Type.
  revert s. induction l as [|x l IH]; intros s; [done|]. rewrite fmap_cons. simpl. unfold mbind, SM_bind.
  by destruct (f (g x) s) as [[u|e] s'].
Qed.

Lemma reconcile_replicas queues s : reconcile queues s = each ensure_replica (replicas_of queues) s.
Proof using Type.
  unfold reconcile. revert s. induction queues as [|q qs IH]; intros s; [done|].
  change (replicas_of (q :: qs)) with ((pair q <$> seqZ 0 (mq_replicas q)) ++ replicas_of qs).
  rewrite each_app. cbn [each]. unfold mbind, SM_bind. rewrite each_fmap.
  change (fun b => ensure_replica (q, b)) with (ensure (D := D) q).
  by destruct (each (ensure q) (seqZ 0 (mq_replicas q)) s) as [[u|e] s'].
Qed.

Lemma swp_reconcile queues (I : list (ManagedQueue * Z) -> sup -> Prop) (Q : result SupervisorError unit -> sup -> Prop) s :
  I [] s ->
  (forall done p rest s', replicas_of queues = done ++ p :: rest -> I done s' ->
    forall r s'', images_step (mq_image p.1) s' s'' -> target_step p.1 p.2 s' r s'' ->
      match r with Ok _ => I (done ++ [p]) s'' | Err e => Q (Err e) s'' end) ->
  (forall s', I (replicas_of queues) s' -> Q (Ok tt) s') ->
  Q (reconcile queues s).1 (reconcile queues s).2.
Proof.
  intros HI Hstep HQ. rewrite reconcile_replicas. apply (swp_each _ _ I); [done| |done].
  intros done p rest s' El HI'. eapply swp_mono; [apply swp_ensure|].
  intros r s'' [Him Ht]. by eapply Hstep.
Qed.

(** *** What a step leaves alone *)

Lemma target_step_other queue ordinal s r s' n :
  target_step queue ordinal s r s' -> n <> name_of queue ordinal -> ctrs s' !! n = ctrs s !! n.
Proof using Type.
  intros Ht Hn. destruct Ht as [[-> | [-> _]]|c id _ _ -> _ _|c' id _ _ _ _ [[-> _]| ->]];
    rewrite ?lookup_alter_ne, ?lookup_delete_ne, ?lookup_insert_ne by done; done.
Qed.

(** A container that may not be replaced stays, and is at most started, when it is as the queue asks
    for. *)
Lemma target_step_kept queue ordinal s r s' c :
  target_step queue ordinal s r s' -> ctrs s !! name_of queue ordinal = Some c ->
  (forall id, ~ replaceable queue id s' c) ->
  ctrs s' !! name_of queue ordinal = Some c \/
  ctrs s' !! name_of queue ordinal = Some (run_container c) /\
  exists id, sv_images s' !! mq_image queue = Some id /\ satisfies queue id c.
Proof using Type.
  intros Ht Hc Hnot. destruct Ht as [[-> | [-> (c0 & id & Hc0 & Hid & Hsat)]]|c0 id Hc0 Hrep|c' id Hrep].
  - by left.
  - right. split; [by rewrite lookup_alter_eq, Hc|]. simplify_eq. by exists id.
  - destruct (Hnot id). by simplify_eq.
  - destruct (Hnot id). by apply Hrep.
Qed.

Lemma target_step_like queue ordinal s r s' c :
  target_step queue ordinal s r s' -> ctrs s !! name_of queue ordinal = Some c ->
  (forall id, ~ replaceable queue id s' c) ->
  exists c', ctrs s' !! name_of queue ordinal = Some c' /\ like c c'.
Proof using Type.
  intros Ht Hc Hnot. destruct (target_step_kept _ _ _ _ _ _ Ht Hc Hnot) as [Hc'|[Hc' _]].
  - by exists c.
  - by exists (run_container c).
Qed.

(** The ids resolved stay, whatever the image of the step. *)
Lemma image_stays image s s' i id :
  images_step image s s' -> sv_images s !! i = Some id -> sv_images s' !! i = Some id.
Proof using Type.
  intros Him Hid. destruct (decide (i = image)) as [->|Hne].
  - by apply (im_cache_kept _ _ _ Him).
  - by rewrite (im_cache_other _ _ _ Him).
Qed.

Lemma like_managed c c' : like c c' -> managed c <-> managed c'.
Proof using Type. unfold like, managed. intros E. apply (f_equal ct_labels) in E. simpl in E. by rewrite E. Qed.

Lemma like_satisfies queue id c c' : like c c' -> satisfies queue id c -> satisfies queue id c'.
Proof using Type.
  unfold like, satisfies. intros E.
  assert (ct_image c = ct_image c' /\ ct_env c = ct_env c' /\ ct_mounts c = ct_mounts c') as (-> & -> & ->); [|done].
  split_and!; [by apply (f_equal ct_image) in E|by apply (f_equal ct_env) in E|by apply (f_equal ct_mounts) in E].
Qed.

(** ** The properties *)

(** [c], found under the name [n], is what the queue of a replica of that name asks for. *)
Definition wanted queues s n c : Prop :=
  exists p id, p ∈ replicas_of queues /\ n = replica_name p /\
    sv_images s !! mq_image p.1 = Some id /\ satisfies p.1 id c.

Lemma wanted_stays queues image s s' n c : images_step image s s' -> wanted queues s n c -> wanted queues s' n c.
Proof using Type.
  intros Him (p & id & Hp & Hn & Hid & Hsat). exists p, id. split_and!; [done|done| |done]. by eapply image_stays.
Qed.

(** What a pass may do to a container without the label: nothing, or start it *)
Definition spared queues s s' n c : Prop :=
  ctrs s' !! n = Some c \/ ctrs s' !! n = Some (run_container c) /\ wanted queues s' n c.

Lemma spared_step queues s s1 r s2 q n c :
  q ∈ replicas_of queues -> ~ managed c -> spared queues s s1 n c ->
  images_step (mq_image q.1) s1 s2 -> target_step q.1 q.2 s1 r s2 -> spared queues s s2 n c.
Proof using Type.
  intros Hq Hm Hsp Him Ht. destruct (decide (n = replica_name q)) as [->|Hne].
  2:{ unfold spared in *. rewrite (target_step_other _ _ _ _ _ _ Ht) by done.
      destruct Hsp as [Hc|[Hc Hw]]; [by left|right]. split; [done|]. by eapply wanted_stays. }
  destruct Hsp as [Hc|[Hc Hw]].
  - destruct (target_step_kept _ _ _ _ _ _ Ht Hc) as [Hc'|(Hc' & id & Hid & Hsat)]; [by intros id (? & _)|by left|].
    right. split; [done|]. by exists q, id.
  - right. split; [|by eapply wanted_stays].
    by destruct (target_step_kept _ _ _ _ _ _ Ht Hc) as [Hc'|(Hc' & _)]; [intros id (? & _)|..].
Qed.

(** C38. Whatever the queues ask for and whichever requests fail, a pass leaves every container
    without the supervisor's label exactly as it was, with one exception that the code makes: a
    container under the name of a replica that already has the image, the environment and the mounts
    its queue asks for is started, whoever made it (the label is not looked at there). It is never
    removed, replaced or configured anew. Nothing under any other name than those of the replicas is
    touched, labelled or not. *)
Theorem unmanaged_containers_survive queues s :
  let s' := (reconcile queues s).2 in
  (forall n, n ∉ replica_name <$> replicas_of queues -> ctrs s' !! n = ctrs s !! n) /\
  (forall n c, ctrs s !! n = Some c -> ~ managed c ->
    ctrs s' !! n = Some c \/
    ctrs s' !! n = Some (run_container c) /\
    exists p id, p ∈ replicas_of queues /\ n = replica_name p /\
      sv_images s' !! mq_image p.1 = Some id /\ satisfies p.1 id c).
Proof.
  set (ok s' := (forall n, n ∉ replica_name <$> replicas_of queues -> ctrs s' !! n = ctrs s !! n) /\
    (forall n c, ctrs s !! n = Some c -> ~ managed c -> spared queues s s' n c)).
  apply (swp_reconcile queues (fun _ => ok) (fun _ => ok)); [split; [done|by intros n c; left]| |done].
  intros done_ p rest s' El [Ho Hu] r s'' Him Ht.
  assert (p ∈ replicas_of queues) as Hp by (rewrite El; set_solver).
  assert (ok s'') as Hok; [|by destruct r]. split.
  - intros n Hn. rewrite (target_step_other _ _ _ _ _ _ Ht); [by apply Ho|].
    intros ->. by apply Hn, (list_elem_of_fmap_2' _ _ p).
  - intros n c Hc Hm. eapply spared_step; eauto.
Qed.

(** The container of a replica is as its queue asks for. *)
Definition up_to_date s (p : ManagedQueue * Z) : Prop :=
  exists c id, ctrs s !! replica_name p = Some c /\ sv_images s !! mq_image p.1 = Some id /\ satisfies p.1 id c.

(** A step on another name *)
Lemma up_to_date_other s r s' p q :
  up_to_date s p -> images_step (mq_image q.1) s s' -> target_step q.1 q.2 s r s' ->
  replica_name p <> replica_name q -> up_to_date s' p.
Proof using Type.
  intros (c & id & Hc & Hid & Hsat) Him Ht Hne. exists c, id.
  rewrite (target_step_other _ _ _ _ _ _ Ht) by done. split_and!; [done| |done].
  destruct (decide (mq_image p.1 = mq_image q.1)) as [E|E].
  - rewrite E in *. by apply (im_cache_kept _ _ _ Him).
  - by rewrite (im_cache_other _ _ _ Him).
Qed.

Lemma up_to_date_kept s r s' p :
  up_to_date s p -> images_step (mq_image p.1) s s' -> target_step p.1 p.2 s r s' -> up_to_date s' p.
Proof using Type.
  intros (c & id & Hc & Hid & Hsat) Him Ht.
  pose proof (im_cache_kept _ _ _ Him _ Hid) as Hid'.
  destruct (target_step_like _ _ _ _ _ _ Ht Hc) as (c2 & Hc2 & Hl2).
  { intros id2 (_ & Hid2 & Hns). by simplify_eq. }
  exists c2, id. split_and!; [done|done|]. by eapply like_satisfies.
Qed.

(** A replica whose container is as configured is left alone by every pass, whichever requests
    fail: its container is neither removed nor replaced, and stays as configured. *)
Theorem up_to_date_replicas_are_kept queues s p c :
  NoDup (replica_name <$> replicas_of queues) -> p ∈ replicas_of queues ->
  up_to_date s p -> ctrs s !! replica_name p = Some c ->
  let s' := (reconcile queues s).2 in
  up_to_date s' p /\ exists c', ctrs s' !! replica_name p = Some c' /\ like c c'.
Proof.
  intros Hnd Hp Hup Hc.
  set (ok s' := up_to_date s' p /\ exists c', ctrs s' !! replica_name p = Some c' /\ like c c').
  apply (swp_reconcile queues (fun _ => ok) (fun _ => ok)); [split; [done|by exists c]| |done].
  intros done_ q rest s1 El [Hu (c1 & Hc1 & Hl1)] r s2 Him Ht. assert (ok s2) as Hok; [|by destruct r].
  assert (q ∈ replicas_of queues) as Hq by (rewrite El; set_solver).
  destruct (decide (replica_name p = replica_name q)) as [E|E].
  - assert (p = q) as <- by (by eapply NoDup_fmap_eq). split; [by eapply up_to_date_kept|].
    destruct (target_step_like _ _ _ _ _ _ Ht Hc1) as (c2 & Hc2 & Hl2).
    + intros id2 (_ & Hid2 & Hns). destruct Hu as (c1' & id & Hc1' & Hid & Hsat).
      pose proof (im_cache_kept _ _ _ Him _ Hid). by simplify_eq.
    + exists c2. split; [done|]. by transitivity c1.
  - split; [by eapply up_to_date_other|]. exists c1. by rewrite (target_step_other _ _ _ _ _ _ Ht).
Qed.

(** The ids the supervisor remembers are those the daemon's references stand for. *)
Definition cache_fresh s : Prop := forall image id, sv_images s !! image = Some id -> imgs s !! image = Some id.

Lemma cache_fresh_step image s s' : cache_fresh s -> images_step image s s' -> cache_fresh s'.
Proof using Type.
  intros Hf Him i id Hid. destruct (decide (i = image)) as [->|Hne].
  - destruct (sv_images s !! image) as [id0|] eqn:E.
    + pose proof (im_cache_kept _ _ _ Him _ E). simplify_eq. rewrite (im_cached _ _ _ Him) by by exists id. by apply Hf.
    + by eapply im_cache_new.
  - rewrite (im_other _ _ _ Him) by done. rewrite (im_cache_other _ _ _ Him) in Hid by done. by apply Hf.
Qed.

Lemma inspected_mount m images queue ordinal c :
  created_from (config_of queue ordinal) images c -> m ∈ mq_mounts queue -> m ∈ from_inspect <$> ct_mounts c.
Proof using Type.
  intros Hfrom Hm. apply list_elem_of_fmap. eexists. split; [|apply (cf_mounts _ _ _ Hfrom (to_docker_mount m)); [|done]].
  - destruct m as [src tgt ro]. unfold from_inspect. simpl. by rewrite negb_involutive.
  - simpl. apply list_elem_of_fmap. by exists m.
Qed.

Lemma created_satisfies queue ordinal images id c :
  created_from (config_of queue ordinal) images c -> images !! mq_image queue = Some id ->
  Forall has_value (mq_env queue) -> satisfies queue id c.
Proof using Type.
  intros Hfrom Hid Hval. split_and!.
  - pose proof (cf_image _ _ _ Hfrom _ eq_refl) as E. congruence.
  - intros e He. apply (cf_env _ _ _ Hfrom); [done|]. by apply (proj1 (Forall_forall _ _) Hval).
  - intros m Hm. by eapply inspected_mount.
Qed.

Lemma created_managed queue ordinal images c : created_from (config_of queue ordinal) images c -> managed c.
Proof using Type.
  intros Hfrom. unfold managed. eapply lookup_weaken; [|apply (cf_labels _ _ _ Hfrom)]. simpl.
  unfold labels_of. simpl. by rewrite lookup_insert_eq.
Qed.

(** A pass that succeeds leaves every replica with a container as configured; one that was missing
    runs and has the supervisor's label. *)
Theorem successful_pass_reaches_every_replica queues s :
  NoDup (replica_name <$> replicas_of queues) -> Forall (fun q => Forall has_value (mq_env q)) queues ->
  cache_fresh s -> (reconcile queues s).1 = Ok tt ->
  let s' := (reconcile queues s).2 in
  cache_fresh s' /\ forall p, p ∈ replicas_of queues -> up_to_date s' p /\
    (ctrs s !! replica_name p = None -> exists c, ctrs s' !! replica_name p = Some c /\ managed c /\ ct_running c = true).
Proof.
  intros Hnd Hval Hfresh.
  set (good s' p := up_to_date s' p /\
    (ctrs s !! replica_name p = None -> exists c, ctrs s' !! replica_name p = Some c /\ managed c /\ ct_running c = true)).
  apply (swp_reconcile queues
    (fun done_ s' => cache_fresh s' /\ (forall p, p ∈ done_ -> good s' p) /\
       forall n, n ∉ replica_name <$> done_ -> ctrs s' !! n = ctrs s !! n)
    (fun r s' => r = Ok tt -> cache_fresh s' /\ forall p, p ∈ replicas_of queues -> good s' p)).
  - split_and!; [done|by intros p Hp%elem_of_nil|done].
  - intros done_ p rest s1 El (Hf & Hgood & Hrest) r s2 Him Ht. destruct r as [u|e]; [|done].
    rewrite El, fmap_app, fmap_cons in Hnd.
    assert (forall q, q ∈ done_ -> replica_name q <> replica_name p) as Hne.
    { intros q Hq E. apply NoDup_app in Hnd as (_ & Hnd & _). apply (Hnd (replica_name q)); [by apply list_elem_of_fmap_2|].
      rewrite E. left. }
    assert (ctrs s1 !! replica_name p = ctrs s !! replica_name p) as Hs1.
    { apply Hrest. intros (q & E & Hq)%list_elem_of_fmap. by apply (Hne q). }
    pose proof (cache_fresh_step _ _ _ Hf Him) as Hf2. split_and!; [done| |].
    + intros q [Hq|Hq%list_elem_of_singleton]%elem_of_app.
      * destruct (Hgood q Hq) as [Hup Hnew]. pose proof (Hne q Hq) as Hqp. split; [by eapply up_to_date_other|].
        intros Hnone. rewrite (target_step_other _ _ _ _ _ _ Ht) by done. by apply Hnew.
      * subst q. destruct Ht as [Hc _ Hok|? ? ? ? ? ? Hno|c' id _ Hid Hfrom _ Hc]; [|by destruct (Hno u)|].
        -- destruct (Hok u eq_refl) as (c & id & Hcs & Hid & Hsat). fold (replica_name p) in *. split; [|congruence].
           destruct Hc as [Hc|[Hc _]]; [by exists c, id; rewrite Hc|].
           exists (run_container c), id. rewrite Hc, lookup_alter_eq, Hcs. by split_and!.
        -- destruct Hc as [[_ Hno]|Hc]; [by destruct (Hno u)|].
           assert (ctrs s2 !! replica_name p = Some (run_container c')) as Hl by by rewrite Hc, lookup_insert_eq.
           split.
           ++ exists (run_container c'), id. split_and!; [done|done|]. apply (like_satisfies _ _ c'); [done|].
              eapply created_satisfies; [done|by apply Hf2|].
              assert (p ∈ replicas_of queues) as Hp by (rewrite El; set_solver).
              apply list_elem_of_bind in Hp as (q & (o & -> & _)%list_elem_of_fmap & Hq).
              by apply (proj1 (Forall_forall _ _) Hval q).
           ++ intros _. exists (run_container c'). split_and!; [done|exact (created_managed _ _ _ c' Hfrom)|done].
    + intros n Hn. rewrite fmap_app in Hn. rewrite (target_step_other _ _ _ _ _ _ Ht); [apply Hrest; set_solver|].
      intros ->. apply Hn. simpl. set_solver.
  - by intros s' (? & ? & _).
Qed.

(** *** Containers that can never be as configured *)

Lemma container_name_inj q : Inj (=) (=) (container_name q).
Proof using Type.
  intros o1 o2 E. unfold container_name in E.
  apply (inj (String.append "maqistor-")), (inj (String.append (sanitize q))), (inj (String.append "-")) in E.
  by apply (inj pretty).
Qed.

(** A queue with an environment entry that has no value, or whose image is no longer the one the
    supervisor remembers *)
Definition hopeless queue s : Prop :=
  (exists e, e ∈ mq_env queue /\ ~ has_value e) \/
  exists id cur, sv_images s !! mq_image queue = Some id /\ imgs s !! mq_image queue = Some cur /\ cur <> id.

(** No container of that name is as the queue asks for. *)
Definition unmet queue s (ordinal : Z) : Prop := forall c id,
  ctrs s !! name_of queue ordinal = Some c -> (forall known, sv_images s !! mq_image queue = Some known -> known = id) ->
  ~ satisfies queue id c.

Lemma hopeless_step queue s s' : hopeless queue s -> images_step (mq_image queue) s s' -> hopeless queue s'.
Proof using Type.
  intros [?|(id & cur & Hid & Hcur & Hne)] Him; [by left|]. right. exists id, cur.
  rewrite (im_cached _ _ _ Him) by by exists id. split_and!; [by apply (im_cache_kept _ _ _ Him)|done|done].
Qed.

Lemma unmet_other queue s r s' o o' :
  unmet queue s o' -> images_step (mq_image queue) s s' -> target_step queue o s r s' -> o' <> o -> unmet queue s' o'.
Proof using Type.
  intros Hun Him Ht Hne c id Hc Hid. rewrite (target_step_other _ _ _ _ _ _ Ht) in Hc.
  2:{ intros E. by apply Hne, (inj (container_name (mq_name queue))). }
  apply (Hun c id Hc). intros known Hk. by apply Hid, (im_cache_kept _ _ _ Him).
Qed.

(** A container made from the configuration of such a queue *)
Lemma hopeless_created queue ordinal s c id :
  hopeless queue s -> created_from (config_of queue ordinal) (imgs s) c ->
  (forall known, sv_images s !! mq_image queue = Some known -> known = id) -> ~ satisfies queue id c.
Proof using Type.
  intros [(e & He & Hbare)|(id0 & cur & Hid & Hcur & Hne)] Hfrom Hk (Himg & Henv & _).
  - by apply (cf_bare _ _ _ Hfrom e He Hbare), Henv.
  - pose proof (cf_image _ _ _ Hfrom _ eq_refl) as E. apply Hk in Hid. congruence.
Qed.

Lemma hopeless_ensure queue o s u s' :
  hopeless queue s -> unmet queue s o ->
  images_step (mq_image queue) s s' -> target_step queue o s (Ok u) s' ->
  creations (sv_docker s') = S (creations (sv_docker s)) /\ hopeless queue s' /\ unmet queue s' o.
Proof using Type.
  intros Hh Hun Him Ht. pose proof (hopeless_step _ _ _ Hh Him) as Hh'.
  destruct Ht as [_ _ Hok|? ? ? ? ? ? Hno|c' id _ Hid Hfrom Hn Hc]; [|by destruct (Hno u)|].
  - destruct (Hok u eq_refl) as (c & id & Hc & Hid & Hsat). destruct (Hun c id Hc); [|done].
    intros known Hk. pose proof (im_cache_kept _ _ _ Him _ Hk). congruence.
  - split_and!; [done|done|]. destruct Hc as [[_ Hno]|Hc]; [by destruct (Hno u)|].
    intros c id' Hcs Hk. rewrite Hc, lookup_insert_eq in Hcs. simplify_eq.
    exact (hopeless_created queue o s' c' id' Hh' Hfrom Hk).
Qed.

Lemma hopeless_pass queue s :
  hopeless queue s -> (forall o, o ∈ seqZ 0 (mq_replicas queue) -> unmet queue s o) ->
  (reconcile [queue] s).1 = Ok tt ->
  let s' := (reconcile [queue] s).2 in
  creations (sv_docker s') = (creations (sv_docker s) + Z.to_nat (mq_replicas queue))%nat /\
  hopeless queue s' /\ forall o, o ∈ seqZ 0 (mq_replicas queue) -> unmet queue s' o.
Proof.
  intros Hh Hun. set (ords := seqZ 0 (mq_replicas queue)).
  assert (replicas_of [queue] = pair queue <$> ords) as Ereps by apply app_nil_r.
  apply (swp_reconcile [queue] (fun done_ s' =>
    creations (sv_docker s') = (creations (sv_docker s) + length done_)%nat /\ hopeless queue s' /\
    forall o, o ∈ ords -> unmet queue s' o) (fun r s' => r = Ok tt ->
    creations (sv_docker s') = (creations (sv_docker s) + Z.to_nat (mq_replicas queue))%nat /\
    hopeless queue s' /\ forall o, o ∈ ords -> unmet queue s' o)).
  - simpl. split_and!; [lia|done|done].
  - intros done_ p rest s1 El (Hn & Hh1 & Hun1) r s2 Him Ht. destruct r as [u|e]; [|done].
    assert (p ∈ replicas_of [queue]) as Hp by (rewrite El; set_solver).
    rewrite Ereps in Hp. apply list_elem_of_fmap in Hp as (o & -> & Ho). simpl in Him, Ht.
    destruct (hopeless_ensure _ _ _ _ _ Hh1 (Hun1 o Ho) Him Ht) as (Hn2 & Hh2 & Hun2).
    split_and!; [rewrite length_app; simpl; lia|done|]. intros o' Ho'.
    destruct (decide (o' = o)) as [->|Hne]; [done|]. exact (unmet_other _ _ _ _ _ _ (Hun1 o' Ho') Him Ht Hne).
  - intros s' (Hn & Hrest) _. split; [|done]. rewrite Hn, Ereps, length_fmap. unfold ords. by rewrite length_seqZ.
Qed.

(** A queue with an environment entry without a value (a blank or comment line of its environment
    file), or whose image reference has moved since the supervisor resolved it, is never as configured:
    every successful pass removes and creates all its containers again. *)
Theorem hopeless_replicas_are_replaced_in_every_pass queue n s :
  hopeless queue s -> (forall o, ctrs s !! name_of queue o = None) ->
  (forall k, (k < n)%nat -> (reconcile [queue] (supervise k [queue] s)).1 = Ok tt) ->
  creations (sv_docker (supervise n [queue] s)) = (creations (sv_docker s) + n * Z.to_nat (mq_replicas queue))%nat.
Proof.
  intros Hh Hnone.
  assert (forall o, o ∈ seqZ 0 (mq_replicas queue) -> unmet queue s o) as Hun by (intros o _ c id; by rewrite Hnone).
  clear Hnone. revert s Hh Hun. induction n as [|n IH]; intros s Hh Hun Hok; [simpl; lia|].
  destruct (hopeless_pass queue s Hh Hun) as (Hn & Hh' & Hun'); [apply (Hok O); lia|].
  cbn [supervise]. rewrite IH; [|done|done|]; [rewrite Hn; lia|].
  intros k Hk. apply (Hok (S k)). lia.
Qed.
End laws.

(** ** Connecting *)

Lemma starts_with_head a b p q s : starts_with (String a p) s = true -> starts_with (String b q) s = true -> a = b.
Proof. unfold starts_with. destruct s as [|c s]; simpl; [done|]. destruct (ascii_dec a c), (ascii_dec b c); congruence. Qed.

Lemma starts_with_other a b p q s : a <> b -> starts_with (String a p) s = true -> starts_with (String b q) s = false.
Proof.
  intros Hne Ha. destruct (starts_with (String b q) s) eqn:Hb; [|done]. by destruct Hne; eapply starts_with_head.
Qed.

Lemma tls_complete endpoint ca cert key :
  let n := tls_set (mkDockerConfig endpoint ca cert key) in
  n = 0%nat \/ n = 3%nat ->
  (ca = None /\ cert = None /\ key = None /\ n = 0%nat) \/
  (exists a b k, ca = Some a /\ cert = Some b /\ key = Some k /\ n = 3%nat).
Proof. destruct ca, cert, key; vm_compute; intros [H|H]; naive_solver. Qed.

(** The endpoint is one the operating system has. *)
Definition supported (os : target) (endpoint : string) : Prop :=
  (starts_with "unix://" endpoint = true -> os = Unix) /\ (starts_with "npipe://" endpoint = true -> os = Windows).

(** A validated Docker section connects on every operating system that has its transport, and the
    three TLS files are never dropped: when they are given the connection uses them, when the endpoint
    is [https://] they are given. *)
Theorem docker_tls_is_never_dropped os docker :
  validate_docker_config docker = Ok tt ->
  (forall endpoint, dc_endpoint docker = Some endpoint -> supported os endpoint) ->
  exists connection, connect_docker os (connect_options docker) = Ok connection /\
  (forall ca cert key, dc_ca_cert_path docker = Some ca -> dc_cert_path docker = Some cert -> dc_key_path docker = Some key ->
     exists endpoint, dc_endpoint docker = Some endpoint /\ connection = WithSsl endpoint key cert ca DOCKER_CONNECT_TIMEOUT_SECS) /\
  (forall endpoint, dc_endpoint docker = Some endpoint -> starts_with "https://" endpoint = true ->
     exists ca cert key, connection = WithSsl endpoint key cert ca DOCKER_CONNECT_TIMEOUT_SECS).
Proof.
  intros [Htls Hhttps Hend Hscheme _]%validate_docker_spec Hsup.
  destruct docker as [endpoint ca cert key]. simpl in Hhttps, Hend, Hscheme, Hsup |- *.
  unfold connect_docker, connect_options. simpl.
  destruct (tls_complete endpoint ca cert key) as [(-> & -> & -> & H0)|(a & b & k & -> & -> & -> & H3)]; [exact Htls| |].
  - destruct endpoint as [e|]; [|by exists LocalDefaults]. simpl in Hhttps, Hscheme. rename Hscheme into Hs.
    destruct (Hsup e eq_refl) as [Hunix Hpipe].
    assert (starts_with "https://" e = false) as Hno by (destruct (starts_with "https://" e); [specialize (Hhttps eq_refl); lia|done]).
    unfold docker_scheme in Hs. rewrite Hno, orb_false_r in Hs |- *.
    destruct (starts_with "unix://" e); [rewrite Hunix by done; eexists; split_and!; naive_solver|].
    destruct (starts_with "npipe://" e); [rewrite Hpipe by done; eexists; split_and!; naive_solver|].
    simpl in Hs. rewrite Hs. eexists. split_and!; naive_solver.
  - destruct (Hend H3) as (e & -> & He). simpl.
    assert (starts_with "unix://" e = false /\ starts_with "npipe://" e = false) as [-> ->].
    { destruct He as [He|He]; split; (eapply starts_with_other; [|exact He]); done. }
    assert (starts_with "tcp://" e || starts_with "http://" e || starts_with "https://" e = true) as ->.
    { destruct He as [-> | ->]; [done|]. by rewrite !orb_true_r. }
    eexists. split; [done|]. split; [naive_solver|]. intros endpoint [= <-] _. by exists a, b, k.
Qed.

(** ** A daemon that obeys the laws *)

Record daemon := mkDaemon {
  dm_containers : gmap string Container;
  dm_images : gmap string string;
  dm_creations : nat
}.

Definition mount_point (m : Mount) : MountPoint := mkMountPoint (mt_source m) (mt_target m) (negb <$> mt_read_only m).

Definition make_container (config : ContainerConfig) (id : string) : Container :=
  mkContainer id (filter has_value (default [] (co_env config))) (default ∅ (co_labels config))
    (mount_point <$> default [] (co_mounts config)) false.

Definition inspection (c : Container) : ContainerInspect :=
  mkContainerInspect (Some (ct_image c)) (Some (mkInspectConfig (Some (ct_env c)) (Some (ct_labels c)))) (Some (ct_mounts c)).

#[export] Instance daemon_docker : Docker daemon := {|
  inspect_container := fun name d =>
    (match dm_containers d !! name with Some c => Ok (inspection c) | None => Err "no such container"%string end, d);
  start_container := fun name d =>
    match dm_containers d !! name with
    | Some _ => (Ok tt, mkDaemon (alter run_container name (dm_containers d)) (dm_images d) (dm_creations d))
    | None => (Err "no such container"%string, d)
    end;
  remove_container := fun name d => (Ok tt, mkDaemon (delete name (dm_containers d)) (dm_images d) (dm_creations d));
  create_container := fun name config d =>
    match dm_containers d !! name, co_image config ≫= (fun image => dm_images d !! image) with
    | None, Some id =>
        (Ok tt, mkDaemon (<[name := make_container config id]> (dm_containers d)) (dm_images d) (S (dm_creations d)))
    | _, _ => (Err "conflict"%string, d)
    end;
  inspect_image := fun image d =>
    (match dm_images d !! image with Some id => Ok (Some id) | None => Err "no such image"%string end, d);
  create_image := fun image d =>
    ([Ok tt], mkDaemon (dm_containers d) (<[image := "pulled"%string]> (dm_images d)) (dm_creations d))
|}.

#[export] Instance daemon_view : DockerView daemon := {|
  containers := dm_containers; images := dm_images; creations := dm_creations
|}.

Lemma make_container_created config images id :
  (forall image, co_image config = Some image -> images !! image = Some id) ->
  created_from config images (make_container config id).
Proof.
  intros Himg. split; simpl; [done|..].
  - intros e He Hv. by apply list_elem_of_filter.
  - by intros e _ Hb [? _]%list_elem_of_filter.
  - done.
  - intros m Hm _. change (mount_point m ∈ mount_point <$> default [] (co_mounts config)). by apply list_elem_of_fmap_2.
Qed.

#[export] Instance daemon_laws : DockerLaws daemon.
Proof.
  split; simpl.
  - intros name d r d' [= <- <-]. split; [done|]. intros i Hi. destruct (dm_containers d !! name) as [c|]; [|done].
    simplify_eq. by exists c.
  - intros name d r d'. destruct (dm_containers d !! name) eqn:E; intros [= <- <-]; [right|by left].
    by split_and!.
  - intros name d r d' [= <- <-]. by right.
  - intros name config d r d'. destruct (dm_containers d !! name) eqn:E; [by intros [= <- <-]; left|].
    destruct (co_image config) as [image|] eqn:Ei; simpl; [|by intros [= <- <-]; left].
    destruct (dm_images d !! image) as [id|] eqn:Eid; intros [= <- <-]; [|by left].
    right. split_and!; try done. eexists. split; [done|]. apply make_container_created. naive_solver.
  - intros image d r d' [= <- <-]. split; [done|]. intros id Hi. by destruct (dm_images d !! image); simplify_eq.
  - intros image d events d' [= _ <-]. simpl. split_and!; [done|done|]. intros other Ho. by rewrite lookup_insert_ne.
Qed.

(** Two replicas with an environment and a mount, and a user's own container *)
Definition example_queue : ManagedQueue :=
  mkManagedQueue "email" "mailer:1.2" 2 ["MODE=fast"%string] [mkContainerMount "/srv" "/data" true].
(** An environment file with a comment in it *)
Definition commented_queue : ManagedQueue :=
  mkManagedQueue "email" "mailer:1.2" 2 ["MODE=fast"%string; "# slow on weekends"%string] [].
Definition users_container : Container := mkContainer "other" [] ∅ [] true.
Definition example_daemon : supervisor daemon :=
  mkSupervisor (mkDaemon {["mine"%string := users_container]} {["mailer:1.2"%string := "sha256:1"%string]} 0) ∅.

(** A container of the user's under the name of a replica, as its queue asks for, stopped *)
Definition users_replica : Container :=
  mkContainer "sha256:1" ["MODE=fast"%string] ∅ (mount_point <$> (to_docker_mount <$> mq_mounts example_queue)) false.
Definition adopted_daemon : supervisor daemon :=
  mkSupervisor (mkDaemon (<[container_name "email" 0 := users_replica]> {["mine"%string := users_container]})
    {["mailer:1.2"%string := "sha256:1"%string]} 0) ∅.

(** It is started without having the label. *)
Example users_replica_is_started :
  containers (sv_docker (reconcile [example_queue] adopted_daemon).2) !! container_name "email" 0
  = Some (run_container users_replica).
Proof. by vm_compute. Qed.

Lemma unmanaged_containers_survive_witness :
  containers (sv_docker (reconcile [example_queue] adopted_daemon).2) !! "mine"%string = Some users_container.
Proof.
  destruct (proj2 (unmanaged_containers_survive [example_queue] adopted_daemon) "mine"%string users_container)
    as [Hc|(_ & p & id & Hp & Hn & _)]; [reflexivity|vm_compute; discriminate|exact Hc|exfalso].
  revert Hn. repeat (apply elem_of_cons in Hp as [->|Hp]; [by vm_compute|]). by apply elem_of_nil in Hp.
Defined.

Lemma successful_pass_reaches_every_replica_witness :
  up_to_date (reconcile [example_queue] example_daemon).2 (example_queue, 1).
Proof.
  refine (proj1 (proj2 (successful_pass_reaches_every_replica [example_queue] example_daemon _ _ _ _) (example_queue, 1) _)).
  - apply (bool_decide_unpack _). by vm_compute.
  - apply (bool_decide_unpack _). by vm_compute.
  - intros image id Hid. unfold example_daemon in Hid. simpl in Hid. by rewrite lookup_empty in Hid.
  - by vm_compute.
  - simpl. right. left.
Defined.

Lemma up_to_date_replicas_are_kept_witness :
  up_to_date (reconcile [example_queue] (reconcile [example_queue] example_daemon).2).2 (example_queue, 1).
Proof.
  refine (proj1 (up_to_date_replicas_are_kept [example_queue] (reconcile [example_queue] example_daemon).2 (example_queue, 1)
    (run_container (make_container (config_of example_queue 1) "sha256:1")) _ _ _ _)).
  - apply (bool_decide_unpack _). by vm_compute.
  - simpl. right. left.
  - exists (run_container (make_container (config_of example_queue 1) "sha256:1")), "sha256:1"%string.
    split; [by vm_compute|]. split; [by vm_compute|]. split; [done|]. split.
    + intros e He. apply list_elem_of_singleton in He as ->. left.
    + intros m Hm. apply list_elem_of_singleton in Hm as ->. left.
  - by vm_compute.
Defined.

Lemma hopeless_replicas_are_replaced_in_every_pass_witness :
  creations (sv_docker (supervise 3 [commented_queue] example_daemon)) = 6%nat.
Proof.
  refine (eq_trans (hopeless_replicas_are_replaced_in_every_pass commented_queue 3 example_daemon _ _ _) eq_refl).
  - left. exists "# slow on weekends"%string. split; [right; left|]. by apply (bool_decide_unpack _); vm_compute.
  - intros o. apply not_elem_of_dom. set_solver.
  - intros k Hk. destruct k as [|[|[|k]]]; [by vm_compute|by vm_compute|by vm_compute|lia].
Defined.

Lemma docker_tls_is_never_dropped_witness :
  exists connection, connect_docker Unix (connect_options
    (mkDockerConfig (Some "https://host:2376") (Some "ca") (Some "cert") (Some "key"))%string) = Ok connection.
Proof.
  edestruct (docker_tls_is_never_dropped Unix
    (mkDockerConfig (Some "https://host:2376") (Some "ca") (Some "cert") (Some "key"))%string) as (c & Hc & _).
  - by vm_compute.
  - intros endpoint [= <-]. split; by vm_compute.
  - by exists c.
Defined.
