(* ===== verification/Server.v ===== *)
(** * The server

    [crates/maqistor/src/main.rs]: how a configuration becomes a running server. The store is opened and
    healed, its queues are registered, leases are recovered, the managed queues are handed to the
    supervisor; later a task cleans up expired records and vacuums. Sockets, logging and the command
    line are left out. *)
From S2P Require Import Prelude Types Db Tables Ingest Results Store Options Engine Config Supervisor.
From Stdlib Require Import Ascii.

(** ** Managed queues *)

(** [str::lines] of the text [s] whose current line is [line], reversed: a line ends with [\n] or [\r\n]. *)
Fixpoint lines_from (line : list ascii) (s : list ascii) : list (list ascii) :=
  match s with
  | [] => match line with [] => [] | _ => [reverse line] end
  | c :: s =>
      if bool_decide (c = ascii_of_nat 10) then
        reverse (match line with c' :: line' => if bool_decide (c' = ascii_of_nat 13) then line' else line | [] => [] end)
          :: lines_from [] s
      else lines_from (c :: line) s
  end.
Definition lines (s : string) : list string :=
  String.string_of_list_ascii <$> lines_from [] (String.list_ascii_of_string s).

Section managed.
Context `{Hst : Host}.

(** [ManagedConfig::env]; the variables of the map come in some order. *)
Definition env (c : ManagedConfig) : result string (list string) :=
  let res := (fun kv => kv.1 +:+ "=" +:+ kv.2) <$> default [] (mg_env_vars c) in
  match mg_env_file c with
  | None => Ok res
  | Some env_file =>
      match read_to_string env_file with
      | Ok contents => Ok (res ++ (trim <$> lines contents))
      | Err err => Err err
      end
  end.

Definition to_dispatcher_type (m : ContainerMountConfig) : result string ContainerMount :=
  let? source := canonicalize (mc_source m) in
  Ok (mkContainerMount source (mc_target m) (mc_read_only m)).

(** [iter().map(|m| m.to_dispatcher_type().expect(..))]; [None] is a panic. *)
Fixpoint all_mounts (mounts : list ContainerMountConfig) : option (list ContainerMount) :=
  match mounts with
  | [] => Some []
  | m :: mounts =>
      match to_dispatcher_type m with
      | Ok m' => cons m' <$> all_mounts mounts
      | Err _ => None
      end
  end.

(** The [ManagedQueue] of a queue with a [managed_config] *)
Definition managed_queue (q : QueueConfig) (c : ManagedConfig) : option ManagedQueue :=
  match env c with
  | Ok vars => mkManagedQueue (qc_name q) (mg_image c) (replicas q) vars <$> all_mounts (default [] (mg_mounts c))
  | Err _ => None
  end.

Fixpoint managed_queues (queues : list QueueConfig) : option (list ManagedQueue) :=
  match queues with
  | [] => Some []
  | q :: queues =>
      match qc_managed_config q with
      | None => managed_queues queues
      | Some c => m ← managed_queue q c; rest ← managed_queues queues; Some (m :: rest)
      end
  end.
End managed.

(** ** Starting *)

(** What the server runs with: the options of the engine, the queues workers may register for, and the
    queues of the supervisor, if there is one *)
Record server := mkServer {
  srv_options : DispatchOptions;
  srv_allowed : gset string;
  srv_managed : option (list ManagedQueue)
}.

Section start.
Context `{Hst : Host} `{E : Env}.

(** The queue names the ingest writer starts with *)
Definition set_names (names : gset string) : M store unit := fun c =>
  (Ok tt, Conn (c_step c) (mkStore names (s_ingest (c_db c)) (s_results (c_db c)))).

(** [SqliteStore::open_with_options_pair]: the writers load the queue names, and orphaned claims are
    healed. What the openings make of the files is in [Schema]. *)
Definition open_with_options_pair (options : SqliteWriteOptions) : M store unit :=
  _ ← lift_result (map_err Internal (validate_all options));
  names ← zoom s_ingest set_ingest queue_names;
  _ ← set_names names;
  heal_orphan_claims.

(** The loop of [main] over the queues *)
Definition register_queue (q : QueueConfig) : M store unit :=
  now ← unix_now;
  let queue := JobQueue_new now (qc_name q) in
  _ ← store_upsert_queue (mkJobQueue (q_name queue) (qc_max_retries q) (qc_timeout_secs q)
                            (q_created_at queue) (q_updated_at queue));
  mret tt.

Definition recover_on_start (policy : StartupPolicy) : M store unit :=
  match policy with
  | Recover => now ← unix_now; _ ← recover_stale_leases now; mret tt
  | Preserve => mret tt
  end.

(** [main], up to the point where it listens: [None] is a panic, [Err] an error of the configuration;
    errors of the store are those of the monad. *)
Definition start (c : AppConfig) : M store (option (result ConfigError server)) :=
  match validate_config c with
  | Err e => mret (Some (Err e))
  | Ok _ =>
      match write_options (ac_persistence c) with
      | Err e => mret (Some (Err e))
      | Ok options =>
          _ ← open_with_options_pair options;
          _ ← for_each register_queue (ac_queues c);
          _ ← recover_on_start (pc_startup (ac_persistence c));
          match (if has_managed_queues c then Some <$> managed_queues (ac_queues c) else Some None) with
          | None => mret None
          | Some managed =>
              match dispatch_options (ac_dispatch c) with
              | Err e => mret (Some (Err e))
              | Ok o => mret (Some (Ok (mkServer o (list_to_set (qc_name <$> ac_queues c)) managed)))
              end
          end
      end
  end.
End start.

(** ** Cleaning up *)

(** [str::parse::<i64>]: an optional sign and at least one digit *)
Fixpoint parse_digits (s : string) (acc : Z) : option Z :=
  match s with
  | EmptyString => Some acc
  | String c s =>
      let d := Z.of_nat (nat_of_ascii c) - 48 in
      if bool_decide (0 <= d <= 9) then parse_digits s (acc * 10 + d) else None
  end.
Definition parse_nonempty (s : string) : option Z :=
  match s with EmptyString => None | _ => parse_digits s 0 end.
Definition parse_i64 (s : string) : option Z :=
  x ← match s with
      | String "-" s => Z.opp <$> parse_nonempty s
      | String "+" s => parse_nonempty s
      | _ => parse_nonempty s
      end;
  if bool_decide (i64_min <= x <= i64_max) then Some x else None.

Section cleanup.
Context `{Hst : Host} `{E : Env}.

(** [last_vacuum_run]; the inner [None] is the panic of [unwrap] *)
Definition last_vacuum_run : M store (option (option Z)) :=
  meta ← query (fun _ s => Ok (i_meta (s_ingest s) !! "last_vacuum_run"%string));
  mret (match meta with
        | None => Some None
        | Some value => Some <$> parse_i64 value
        end).

(** [cutoff as i64] for a [u128] *)
Definition u128_as_i64 (x : Z) : Z := u64_as_i64 (x mod 2 ^ 64).

(** [cleanup_task] with the retention in nanoseconds *)
Definition cleanup_task (retention : Z) : M store unit :=
  now ← unix_now;
  let cutoff := Z.max 0 (now - retention / 1000000) in
  _ ← attempt (store_cleanup_expired_records (u128_as_i64 cutoff));
  mret tt.

(** [vacuum.is_due(last_run)]: the clock's time of day, in nanoseconds *)
Definition vacuum_is_due (last_run : option Z) (v : VacuumConfig) : M store (result ConfigError bool) :=
  now ← unix_now; mret (is_due now (now mod 86400000 * 1000000) last_run v).

(** One turn of the loop of [start_cleanup_task], after its sleep; [false] when the task panics *)
Definition cleanup_turn (retention : Z) (vacuum : option VacuumConfig) : M store bool :=
  _ ← cleanup_task retention;
  match vacuum with
  | None => mret true
  | Some vacuum =>
      last_run ← attempt last_vacuum_run;
      match last_run with
      | Err _ => mret true
      | Ok None => mret false
      | Ok (Some last_run) =>
          due ← vacuum_is_due last_run vacuum;
          match due with
          | Ok true => _ ← attempt store_vacuum; mret true
          | _ => mret true
          end
      end
  end.
End cleanup.
