(* ===== verification/ServerProps.v ===== *)
(** * Properties of the server

    A validated configuration starts: nothing panics, every queue is known to both databases with its
    limits, and no lease that expired while the server was down is left. A turn of the cleanup task keeps
    to the retention and to the schedule of the vacuum. *)
From S2P Require Import Prelude Types Db Tables Ingest Results ResultsFacts ResultsDispatch ResultsProps Store StoreFacts StoreProps.
From S2P Require Import Options Engine Config ConfigProps Registry Supervisor Server.
From Stdlib Require Import Ascii.

(** ** Starting *)

(** Files that validation has seen can be read when they are used. *)
Class StableHost `{Host} : Prop := {
  stable_file : forall path, is_file path = true -> exists text, read_to_string path = Ok text;
  stable_path : forall path, path_exists path = true -> exists full, canonicalize path = Ok full
}.

(** What the supervisor is given for a managed queue *)
Record manages `{Host} (q : QueueConfig) (m : ManagedQueue) : Prop := {
  mg_of : exists config, qc_managed_config q = Some config /\ mq_image m = mg_image config /\
    mq_replicas m = mg_replicas config /\ env config = Ok (mq_env m) /\
    Forall2 (fun mount m' => cm_target m' = mc_target mount /\ cm_read_only m' = mc_read_only mount /\
               canonicalize (mc_source mount) = Ok (cm_source m')) (default [] (mg_mounts config)) (mq_mounts m);
  mg_queue : mq_name m = qc_name q
}.

Section managed.
Context `{HS : StableHost}.

Lemma env_total c : option_true (fun path => is_file path = true) (mg_env_file c) -> exists vars, env c = Ok vars.
Proof.
  unfold env. destruct (mg_env_file c) as [path|]; simpl; [|by eexists].
  intros Hf. destruct (stable_file path Hf) as [text ->]. by eexists.
Qed.

Lemma all_mounts_total mounts : Forall mount_ok mounts ->
  exists mounts', all_mounts mounts = Some mounts' /\
    Forall2 (fun mount m' => cm_target m' = mc_target mount /\ cm_read_only m' = mc_read_only mount /\
               canonicalize (mc_source mount) = Ok (cm_source m')) mounts mounts'.
Proof.
  induction 1 as [|m mounts (_ & _ & _ & Hp) _ (mounts' & Hm & Hall)]; [by exists []|].
  destruct (stable_path _ Hp) as [full Hfull]. simpl. unfold to_dispatcher_type. rewrite Hfull, Hm. simpl.
  eexists. split; [done|]. by constructor.
Qed.

Lemma managed_queue_total q c : qc_managed_config q = Some c -> managed_ok c ->
  exists m, managed_queue q c = Some m /\ manages q m.
Proof.
  intros Hq [_ _ Henv _ Hmounts]. destruct (env_total c Henv) as [vars Hv].
  destruct (all_mounts_total (default [] (mg_mounts c))) as (ms & Hms & Hall).
  { destruct (mg_mounts c) as [l|]; [apply Hmounts|constructor]. }
  unfold managed_queue. rewrite Hv, Hms. eexists. split; [done|]. split; [|done].
  exists c. simpl. unfold replicas. by rewrite Hq.
Qed.

Lemma managed_queues_total queues : Forall queue_ok queues ->
  exists managed, managed_queues queues = Some managed /\
    Forall2 manages (filter (fun q => is_Some (qc_managed_config q)) queues) managed.
Proof.
  induction 1 as [|q queues (_ & _ & Hq) _ (managed & Hm & Hall)]; [by exists []|]. simpl.
  destruct (qc_managed_config q) as [c|] eqn:Ec.
  - destruct (managed_queue_total q c Ec Hq) as (m & -> & Hmq). simpl. rewrite Hm. simpl.
    rewrite filter_cons_True by by eexists. eexists. split; [done|]. by constructor.
  - rewrite filter_cons_False by by rewrite Ec; intros [? ?]. by eexists.
Qed.
End managed.

(** Validation only looks whether the environment file exists: when it cannot be read, [main] panics. *)
Lemma unreadable_env_file_panics `{Host} queues q config path err :
  q ∈ queues -> qc_managed_config q = Some config -> mg_env_file config = Some path -> read_to_string path = Err err ->
  managed_queues queues = None.
Proof.
  intros Hq Hc Hp He. induction queues as [|q' queues IH]; [by apply elem_of_nil in Hq|]. simpl.
  apply elem_of_cons in Hq as [<-|Hq].
  - rewrite Hc. unfold managed_queue, env. by rewrite Hp, He.
  - rewrite (IH Hq). destruct (qc_managed_config q') as [c'|]; [|done]. by destruct (managed_queue q' c').
Qed.

(** The limits a queue of the configuration asks for *)
Definition limits_of (q : QueueConfig) : JobQueue := mkJobQueue (qc_name q) (qc_max_retries q) (qc_timeout_secs q) 0 0.

Lemma registered_limits q q' s : same_limits q q' -> registered q s -> registered q' s.
Proof. intros (En & Em & Et). unfold registered. by rewrite En, Em, Et. Qed.

Lemma registered_kept queue name s s' : registered queue s -> only_queue name s s' -> q_name queue <> name -> registered queue s'.
Proof.
  intros [Hn (row & row' & Hr & Hr' & Hrest)] Ho Hne. split; [by apply (oq_names _ _ _ Ho)|].
  exists row, row'. by rewrite (oq_ingest _ _ _ Ho), (oq_results _ _ _ Ho).
Qed.

(** The queues are those of [s]. *)
Definition same_queues (s s' : store) : Prop :=
  s_names s' = s_names s /\ i_queues (s_ingest s') = i_queues (s_ingest s) /\ r_queues (s_results s') = r_queues (s_results s).

Lemma registered_same queue s s' : registered queue s -> same_queues s s' -> registered queue s'.
Proof. intros Hr (En & Ei & Er). unfold registered. by rewrite En, Ei, Er. Qed.

Section start.
Context `{Hst : Host} `{EL : EnvLaws}.

Lemma wp_open_with_options_pair o ing res n :
  store_inv (mkStore ∅ ing res) ->
  keeps_inv (open_with_options_pair o) (Conn n (mkStore ∅ ing res)).
Proof using EL.
  intros [[_ Hi] Hres Hlink Hids]. unfold keeps_inv, open_with_options_pair. wp_rule. wp_rule.
  assert (Hnames : forall names, names ⊆ dom (i_queues ing) -> store_inv (mkStore names ing res)) by (intros names Hn; split; [by split|done..]).
  destruct (validate_all o) as [u|e]; simpl; [|by apply Hnames].
  wp_rule. wp_rule. apply wp_query; simpl; [intros; by apply Hnames|]. intros names [= <-].
  wp_rule. unfold wp at 1, set_names. cbn [fst snd c_db]. apply heal_inv. by apply Hnames.
Qed.

Lemma wp_register_queue q c :
  store_inv (c_db c) ->
  wp (register_queue q) (fun r c' => store_inv (c_db c') /\ only_queue (qc_name q) (c_db c) (c_db c') /\
    (is_ok r = true -> registered (limits_of q) (c_db c'))) c.
Proof using EL.
  intros Hinv. unfold register_queue. wp_rule. wp_rule. cbn beta iota zeta. wp_rule.
  eapply wp_mono; [by apply wp_store_upsert_queue|]. intros [x|e] c' (Hi & Ho & Hr); [wp_rule|done].
  split; [done|]. split; [done|]. intros _. by eapply registered_limits; [|by apply Hr].
Qed.

Lemma wp_register_queues queues c (Q : Result (list unit) -> conn store -> Prop) :
  NoDup (qc_name <$> queues) -> store_inv (c_db c) ->
  (forall e c', store_inv (c_db c') -> Q (Err e) c') ->
  (forall l c', store_inv (c_db c') -> dom (i_accepted (s_ingest (c_db c'))) = dom (i_accepted (s_ingest (c_db c))) ->
     (forall q, q ∈ queues -> registered (limits_of q) (c_db c')) -> Q (Ok l) c') ->
  wp (for_each register_queue queues) Q c.
Proof using EL.
  intros Hnd Hinv Herr HQ.
  apply (wp_for_each _ _ (fun done _ c' => store_inv (c_db c') /\
    dom (i_accepted (s_ingest (c_db c'))) = dom (i_accepted (s_ingest (c_db c))) /\
    forall q, q ∈ done -> registered (limits_of q) (c_db c'))).
  - split_and!; [done|done|by intros q ?%elem_of_nil].
  - intros done q rest ys c1 El (Hi & Hd & Hr). eapply wp_mono; [by apply wp_register_queue|].
    intros [u|e] c2 (Hi2 & Ho & Hr2); [|by apply Herr]. split_and!; [done|by rewrite (oq_accepted _ _ _ Ho)|].
    intros q' [Hq'| ->%list_elem_of_singleton]%elem_of_app; [|by apply Hr2].
    eapply registered_kept; [by apply Hr|exact Ho|]. simpl. intros En.
    rewrite El, fmap_app in Hnd. apply NoDup_app in Hnd as (_ & Hnd & _). apply (Hnd (qc_name q')).
    + by apply list_elem_of_fmap_2.
    + rewrite En. left.
  - intros ys c1 (Hi & Hd & Hr). by apply HQ.
Qed.

(** No execution's lease has expired. *)
Definition leases_fresh (now : Z) (s : store) : Prop :=
  forall k r, r_executions (s_results s) !! k = Some r -> ~ lease_expired now r.

Lemma wp_recover_leases now c :
  store_inv (c_db c) ->
  wp (recover_stale_leases now) (fun r c' => same_queues (c_db c) (c_db c') /\
    dom (i_accepted (s_ingest (c_db c'))) = dom (i_accepted (s_ingest (c_db c))) /\
    (is_ok r = true -> leases_fresh now (c_db c'))) c.
Proof using EL.
  intros Hinv. unfold recover_stale_leases. wp_rule.
  apply wp_call_recover_stale; [apply Hinv|done|]. intros out n _ _. set (t' := fail_where _ _ _).
  assert (Hfresh : forall s, r_executions (s_results s) = t' -> leases_fresh now s).
  { intros s Hs k r. rewrite Hs. unfold t'. rewrite lookup_fail_where.
    destruct (_ !! k) as [r0|]; [|done]. cbn [fmap option_fmap option_map]. intros [= <-].
    destruct (decide (lease_expired now r0)) as [Hexp|Hexp]; [|done]. by intros [? _]. }
  set (kept c' := same_queues (c_db c) (c_db c') /\ dom (i_accepted (s_ingest (c_db c'))) = dom (i_accepted (s_ingest (c_db c)))).
  apply (wp_for_each _ _ (fun _ _ c' => kept c' /\ r_executions (s_results (c_db c')) = t')).
  - done.
  - intros done x rest ys c1 _ [Hk Ht]. unfold recover_one. wp_rule.
    assert (Hread : forall c2, kept c2 -> r_executions (s_results (c_db c2)) = t' ->
      wp (accepted ← accepted_row_of (rs_job_id x); execution ← execution_of (rs_job_id x); mret (merge_job accepted execution))
        (fun r c'' => match r with Ok _ => kept c'' /\ r_executions (s_results (c_db c'')) = t'
          | Err e => same_queues (c_db c) (c_db c'') /\ dom (i_accepted (s_ingest (c_db c''))) = dom (i_accepted (s_ingest (c_db c))) /\
                     (is_ok (A := list Job) (Err e) = true -> leases_fresh now (c_db c'')) end) c2).
    { intros c2 H2 Ht2. wp_rule. apply wp_query; [by destruct H2|]. intros a _. wp_rule.
      apply wp_query; [by destruct H2|]. intros o _. by wp_rule. }
    destruct (rs_should_repend x).
    + apply wp_call_repend; [by destruct Hk|]. intros now2 n2 _. apply Hread; [|done]. split; [apply Hk|].
      simpl. unfold repend_update. rewrite dom_alter_L. apply Hk.
    + wp_rule. by apply Hread.
  - intros ys c1 [[Hk Hd] Ht]. split_and!; [done|done|]. intros _. by apply Hfresh.
Qed.
End start.

(** What holds of a server once it has started *)
Record started `{Host} (c : AppConfig) (srv : server) (s : store) : Prop := {
  st_inv : store_inv s;
  st_queues : forall q, q ∈ ac_queues c -> registered (limits_of q) s;
  st_allowed : forall name, name ∈ srv_allowed srv <-> name ∈ qc_name <$> ac_queues c;
  st_options : DispatchOptions_validate (srv_options srv) = Ok tt;
  st_managed : match srv_managed srv with
    | None => Forall (fun q => qc_managed_config q = None) (ac_queues c)
    | Some managed => Forall2 manages (filter (fun q => is_Some (qc_managed_config q)) (ac_queues c)) managed
    end;
  st_leases : pc_startup (ac_persistence c) = Recover -> exists now, leases_fresh now s
}.

Lemma wp_start `{StableHost} `{EnvLaws} c n ing res :
  validate_config c = Ok tt -> store_inv (mkStore ∅ ing res) ->
  wp (start c) (fun r c' => store_inv (c_db c') /\
    match r with Ok out => exists srv, out = Some (Ok srv) /\ started c srv (c_db c') | Err _ => True end)
    (Conn n (mkStore ∅ ing res)).
Proof.
  intros Hv Hinv. unfold start. rewrite Hv. apply validate_config_parts in Hv as (Hw & Hd & _ & _ & _ & Hnd & Hqs).
  destruct (write_options _) as [write|]; [|done]. destruct (dispatch_options _) as [dispatch|] eqn:Hd'; [|done].
  wp_rule. eapply wp_mono; [by apply wp_open_with_options_pair|]. intros [u|e] c1 Hi1; [|done].
  wp_rule. apply wp_register_queues; [done|done|done|]. intros l c2 Hi2 _ Hreg.
  wp_rule. apply (wp_mono _ (fun r c3 => store_inv (c_db c3) /\
    (is_ok r = true -> (forall q, q ∈ ac_queues c -> registered (limits_of q) (c_db c3)) /\
       (pc_startup (ac_persistence c) = Recover -> exists now, leases_fresh now (c_db c3))))).
  - destruct (pc_startup (ac_persistence c)); simpl; [|by wp_rule; split].
    wp_rule. wp_rule. cbn beta iota. cbn [c_step c_db]. wp_rule.
    eapply wp_mono; [apply wp_and; [by apply recover_stale_leases_inv|by apply wp_recover_leases]|].
    cbn [c_db]. intros [js|e] c3 [Hi3 (Hq3 & _ & Hf3)]; [wp_rule|by split].
    split; [done|]. intros _. split; [|intros _; eexists; by apply Hf3].
    intros q Hq. by eapply registered_same; [apply Hreg|].
  - intros [u'|e] c3 [Hi3 Hok]; [|done]. destruct (Hok eq_refl) as [Hreg3 Hlease].
    assert (Hsrv : forall managed,
      match managed with
      | None => Forall (fun q => qc_managed_config q = None) (ac_queues c)
      | Some managed => Forall2 manages (filter (fun q => is_Some (qc_managed_config q)) (ac_queues c)) managed
      end -> started c (mkServer dispatch (list_to_set (qc_name <$> ac_queues c)) managed) (c_db c3)).
    { intros managed Hm. split; simpl; try done; [intros name; apply elem_of_list_to_set|by eapply dispatch_options_ok]. }
    destruct (has_managed_queues c) eqn:Eh.
    + destruct (managed_queues_total (ac_queues c)) as (managed & -> & Hall); [done|]. cbn [fmap option_fmap option_map].
      wp_rule. split; [done|]. eexists. split; [done|]. by apply Hsrv.
    + wp_rule. split; [done|]. eexists. split; [done|]. apply Hsrv. apply Forall_forall. intros q Hq.
      destruct (qc_managed_config q) as [m|] eqn:Em; [|done]. apply not_true_iff_false in Eh. destruct Eh.
      apply existsb_exists. exists q. split; [by apply list_elem_of_In|]. rewrite Em. by apply bool_decide_eq_true_2.
Qed.

(** A validated configuration starts, on the databases of an earlier run, however that run ended.
    Unless a statement of the store fails, nothing panics and no error is left: every configured queue
    is known to both databases with its limits, workers may register for exactly these queues, the
    supervisor gets each managed queue with its image, replicas, environment and mounts, the engine's
    options are valid, the invariant holds, and with the policy [recover] no expired lease is left. *)
Theorem validated_configuration_starts `{StableHost} `{EnvLaws} c n ing res out c' :
  validate_config c = Ok tt -> store_inv (mkStore ∅ ing res) ->
  start c (Conn n (mkStore ∅ ing res)) = (Ok out, c') ->
  exists srv, out = Some (Ok srv) /\ started c srv (c_db c').
Proof.
  intros Hv Hinv Hrun. destruct (wp_run _ _ _ _ _ (wp_start c n ing res Hv Hinv) Hrun) as (_ & srv & -> & Hst).
  by exists srv.
Qed.

(** A managed queue with an environment file, and an external one *)
Definition example_server_config : AppConfig :=
  mkAppConfig None None (mkWorkerTlsConfig "ca.pem" "server.pem" "server.key") (mkDockerConfig None None None None)
    (mkPersistenceConfig None None DNone None Recover no_batch_config no_batch_config)
    (mkDispatchConfig None None None None)
    [mkQueueConfig "email" 5 30 (Some (mkManagedConfig "mailer:1.2" 2 (Some "mail.env"%string) None
        (Some [mkMountConfig "/srv" "/data" true]))); mkQueueConfig "reports" 1 600 None].

#[local] Instance example_host_stable : StableHost (H := example_host).
Proof. split; by eexists. Qed.

Lemma validated_configuration_starts_witness :
  exists srv c', start (Hst := example_host) (E := model_env) example_server_config
      (Conn 1000 (mkStore ∅ (s_ingest example_crashed) (s_results example_crashed))) = (Ok (Some (Ok srv)), c') /\
    started (H := example_host) example_server_config srv (c_db c') /\
    r_queues (s_results (c_db c')) !! "reports"%string = Some (mkQueueRow 1 600 2013 2017).
Proof.
  eexists _, _. split; [vm_compute; reflexivity|]. split; [|vm_compute; reflexivity].
  edestruct (validated_configuration_starts (H := example_host) (E := model_env) example_server_config 1000
    (s_ingest example_crashed) (s_results example_crashed)) as (srv & Hout & Hst).
  - vm_compute. reflexivity.
  - solve_store_inv.
  - vm_compute. reflexivity.
  - injection Hout as <-. exact Hst.
Defined.

(** ** Cleaning up *)

(** *** The time of the last vacuum *)

Lemma parse_digits_pretty (x : N) s : parse_digits (pretty_N_go x s) 0 = parse_digits s (Z.of_N x).
Proof.
  revert s. induction (N.lt_wf_0 x) as [x _ IH]. intros s.
  destruct (decide (x = 0)%N) as [->|Hx]; [done|]. rewrite pretty_N_go_step by lia.
  rewrite IH by (apply N.div_lt; lia). simpl. pose proof (N.mod_lt x 10 ltac:(done)) as Hm.
  pose proof (N.div_mod x 10 ltac:(done)) as Hdiv. set (d := (x mod 10)%N) in *. set (q := (x / 10)%N) in *.
  rewrite (digit_value d Hm). rewrite bool_decide_eq_true_2 by lia. f_equal. lia.
Qed.

(** What a number is written as is read back. *)
Lemma parse_i64_pretty x : i64_min <= x <= i64_max -> parse_i64 (pretty x) = Some x.
Proof.
  intros Hx. assert (Hpos : forall p, parse_nonempty (pretty (N.pos p)) = Some (Z.pos p) /\
    exists d t, (d < 10)%N /\ pretty (N.pos p) = String (pretty_N_char d) t).
  { intros p. unfold pretty, pretty_N. rewrite decide_False by done.
    destruct (pretty_N_head (N.pos p) "") as (d & t & Hd & Et); [done|]. split; [|by exists d, t].
    rewrite Et. change (parse_digits (String (pretty_N_char d) t) 0 = Some (Z.pos p)). by rewrite <-Et, parse_digits_pretty. }
  unfold parse_i64. destruct x as [|p|p]; [done| |].
  - destruct (Hpos p) as (Hp & d & t & Hd & Et). change (pretty (Z.pos p)) with (pretty (N.pos p)).
    assert (match pretty (N.pos p) with
            | String "-" s => Z.opp <$> parse_nonempty s | String "+" s => parse_nonempty s
            | _ => parse_nonempty (pretty (N.pos p)) end = Some (Z.pos p)) as Hparse.
    { rewrite Et in *. digit_cases d; exact Hp. }
    rewrite Hparse. simpl. by rewrite bool_decide_eq_true_2.
  - destruct (Hpos p) as (Hp & _). change (pretty (Z.neg p)) with (String "-" (pretty (N.pos p))).
    change (match Z.opp <$> parse_nonempty (pretty (N.pos p)) with
            | Some x => if bool_decide (i64_min <= x <= i64_max) then Some x else None | None => None end = Some (Z.neg p)).
    rewrite Hp. simpl. by rewrite bool_decide_eq_true_2.
Qed.

Section cleanup.
Context `{Hst : Host} `{EL : EnvLaws}.
Context (Hclock : forall n, 0 <= clock n <= i64_max).

(** The database remembers when it was last vacuumed. *)
Definition recorded (last_run : option Z) (s : store) : Prop :=
  i_meta (s_ingest s) !! "last_vacuum_run"%string = pretty <$> last_run /\
  option_true (fun t => i64_min <= t <= i64_max) last_run.

Lemma wp_last_vacuum_run last_run c :
  recorded last_run (c_db c) ->
  wp last_vacuum_run (fun r c' => c_db c' = c_db c /\ (c_step c <= c_step c')%nat /\ forall x, r = Ok x -> x = Some last_run) c.
Proof using Type.
  intros [Hm Hr]. unfold last_vacuum_run. wp_rule. apply wp_query; [intros; split; [done|split; [simpl; lia|done]]|].
  intros meta [= <-]. wp_rule. split; [done|]. split; [simpl; lia|].
  intros x [= <-]. rewrite Hm. destruct last_run as [t|]; [|done]. simpl. by rewrite parse_i64_pretty.
Qed.

(** What neither the cleanup nor the vacuum touches: the queues, in both databases and in the writer *)
Definition queues_of (s : store) := (s_names s, i_queues (s_ingest s), r_queues (s_results s)).

(** The vacuum at step [m] is recorded, and nothing else of the metadata has changed. *)
Definition vacuumed (m : nat) (s s' : store) : Prop :=
  i_meta (s_ingest s') = <["last_vacuum_run"%string := pretty (clock m)]> (i_meta (s_ingest s)).

Lemma wp_store_vacuum c :
  wp store_vacuum (fun r c' =>
    i_accepted (s_ingest (c_db c')) = i_accepted (s_ingest (c_db c)) /\
    r_executions (s_results (c_db c')) = r_executions (s_results (c_db c)) /\
    queues_of (c_db c') = queues_of (c_db c) /\
    (i_meta (s_ingest (c_db c')) = i_meta (s_ingest (c_db c)) \/
     exists m, (c_step c < m)%nat /\ vacuumed m (c_db c) (c_db c'))) c.
Proof using Type.
  unfold store_vacuum. wp_rule. apply wp_results_call. cbn [r_handle]. wp_rule. wp_rule. unfold r_vacuum.
  apply wp_stmt; [intros e; wp_rules; split_and!; [done..|by left]|]. intros [] db [= <-]. wp_rules.
  apply wp_ingest_call. cbn [handle]. wp_rule. wp_rule. unfold vacuum.
  wp_rule. apply wp_stmt; [intros e; wp_rules; split_and!; [done..|by left]|]. intros [] ing [= <-].
  wp_rule. wp_rule. cbn beta iota. cbn [c_step c_db].
  apply wp_stmt; [intros e; wp_rules; split_and!; [done..|by left]|]. intros [] ing' [= <-]. wp_rules.
  split_and!; [done..|]. right. eexists. split; [|done]. simpl; lia.
Qed.

(** Records are only deleted, and only old ones: accepted jobs by their creation, executions by their
    last change. *)
Record only_expired (cutoff : Z) (s s' : store) : Prop := {
  oe_accepted : i_accepted (s_ingest s') ⊆ i_accepted (s_ingest s);
  oe_executions : r_executions (s_results s') ⊆ r_executions (s_results s);
  oe_jobs : forall k a, i_accepted (s_ingest s) !! k = Some a -> cutoff <= ar_created_at a ->
    i_accepted (s_ingest s') !! k = Some a;
  oe_results : forall k r, r_executions (s_results s) !! k = Some r -> cutoff <= er_updated_at r ->
    r_executions (s_results s') !! k = Some r;
  oe_meta : i_meta (s_ingest s') = i_meta (s_ingest s);
  oe_queues : queues_of s' = queues_of s
}.

Lemma only_expired_refl cutoff s : only_expired cutoff s s.
Proof using Type. by split. Qed.

Lemma wp_store_cleanup cutoff c :
  wp (store_cleanup_expired_records cutoff) (fun r c' =>
    only_expired cutoff (c_db c) (c_db c') /\ (c_step c <= c_step c')%nat) c.
Proof using Type.
  unfold store_cleanup_expired_records. wp_rule. apply wp_ingest_call. cbn [handle]. wp_rule. wp_rule.
  eapply wp_mono; [apply wp_cleanup|]. intros r c1 [Hs Hr]. wp_rules. simpl in Hr, Hs.
  destruct r as [n|e]; [|split; [|done]; rewrite Hr; destruct (c_db c); apply only_expired_refl]. destruct Hr as [_ Hr].
  wp_rules. apply wp_results_call. cbn [r_handle]. wp_rule. wp_rule. unfold r_cleanup_expired_records. cbn [c_step].
  apply wp_stmt.
  - intros e. wp_rules. split; [|simpl; lia]. rewrite Hr. split; simpl; [apply map_filter_subseteq|done| |done..].
    intros k a Ha Hc. apply map_lookup_filter_Some. split; [done|simpl; lia].
  - intros m db [= <- <-]. wp_rules. rewrite Hr. split; [|simpl; lia].
    split; simpl; [apply map_filter_subseteq|apply map_filter_subseteq| | |done..];
      (intros k a Ha Hc; apply map_lookup_filter_Some; split; [done|simpl; lia]).
Qed.

Lemma u128_as_i64_id x : 0 <= x <= i64_max -> u128_as_i64 x = x.
Proof using Type.
  unfold u128_as_i64, u64_as_i64, i64_max. intros Hx. rewrite Z.mod_small by lia.
  destruct (Z.leb_spec x (2 ^ 63 - 1)); [done|lia].
Qed.

(** The records a turn may delete are older than the retention. *)
Definition cutoff_at (retention : Z) (step : nat) : Z := Z.max 0 (clock step - retention / 1000000).

Lemma wp_cleanup_task retention c :
  0 <= retention ->
  wp (cleanup_task retention) (fun r c' => r = Ok tt /\ only_expired (cutoff_at retention (c_step c)) (c_db c) (c_db c') /\
    (c_step c <= c_step c')%nat) c.
Proof using Hclock.
  intros Hret. unfold cleanup_task. wp_rule. wp_rule. cbn beta iota zeta. cbn [c_step c_db]. wp_rule.
  pose proof (Hclock (c_step c)). pose proof (Z.div_pos retention 1000000 Hret ltac:(lia)).
  rewrite u128_as_i64_id by lia. wp_rule. eapply wp_mono; [apply wp_store_cleanup|].
  intros r c' [Ho Hs]. cbn [c_db c_step] in Ho, Hs. wp_rule. split_and!; [done|done|lia].
Qed.

(** The schedule lets a vacuum run at the time [now], when the last one ran at [last_run]: the time of day
    has come, and at least [every] has passed. *)
Record may_vacuum (v : VacuumConfig) (last_run : option Z) (now : Z) : Prop := {
  mv_time_of_day : exists at_, parse_time (stamped (vc_at v)) = Ok at_ /\ at_ <= now mod 86400000 * 1000000;
  mv_spacing : exists every, parse_duration (vc_every v) = Ok every /\
    forall t, last_run = Some t -> every / 1000000 <= i64_max /\ i64_saturating_add t (every / 1000000) <= now
}.

Lemma is_due_spec v last_run now :
  is_due now (now mod 86400000 * 1000000) last_run v = Ok true <-> may_vacuum v last_run now.
Proof using Type.
  unfold is_due, every. split.
  - intros Hdue. apply bind_ok in Hdue as (at_ & Ha & Hdue). apply bind_ok in Hdue as (every & He & Hdue).
    apply map_err_ok in Ha, He. apply bind_ok in Hdue as (ok & Hok & [= [-> Ht]%andb_prop]).
    split; [exists at_; split; [done|lia]|]. exists every. split; [done|]. intros t ->.
    destruct (every / 1000000 <=? i64_max) eqn:El; [|done]. injection Hok as Hok. lia.
  - intros [(at_ & -> & Hat) (every & -> & Hev)]. simpl.
    destruct last_run as [t|]; [|simpl; by rewrite (proj2 (Z.leb_le _ _) Hat)]. destruct (Hev t eq_refl) as [Hm Ht].
    rewrite (proj2 (Z.leb_le _ _) Hm). simpl.
    by rewrite (proj2 (Z.leb_le _ _) Hat), (proj2 (Z.leb_le _ _) Ht).
Qed.

Lemma wp_cleanup_turn retention v last_run c :
  0 <= retention -> recorded last_run (c_db c) ->
  wp (cleanup_turn retention v) (fun r c' => r = Ok true /\ queues_of (c_db c') = queues_of (c_db c) /\
    (exists s1, only_expired (cutoff_at retention (c_step c)) (c_db c) s1 /\
       i_accepted (s_ingest (c_db c')) = i_accepted (s_ingest s1) /\
       r_executions (s_results (c_db c')) = r_executions (s_results s1)) /\
    (i_meta (s_ingest (c_db c')) = i_meta (s_ingest (c_db c)) \/
     exists v' j m, v = Some v' /\ (c_step c <= j < m)%nat /\ may_vacuum v' last_run (clock j) /\
       vacuumed m (c_db c) (c_db c'))) c.
Proof using Hclock.
  intros Hret Hrec. unfold cleanup_turn. wp_rule. eapply wp_mono; [by apply wp_cleanup_task|]. intros r1 c1 (-> & Ho & Hs1).
  assert (Hrec1 : recorded last_run (c_db c1)) by (unfold recorded; by rewrite (oe_meta _ _ _ Ho)).
  assert (Hsame : forall n, wp (mret true) (fun r c' => r = Ok true /\ queues_of (c_db c') = queues_of (c_db c) /\
    (exists s1, only_expired (cutoff_at retention (c_step c)) (c_db c) s1 /\
       i_accepted (s_ingest (c_db c')) = i_accepted (s_ingest s1) /\
       r_executions (s_results (c_db c')) = r_executions (s_results s1)) /\
    (i_meta (s_ingest (c_db c')) = i_meta (s_ingest (c_db c)) \/
     exists v' j m, v = Some v' /\ (c_step c <= j < m)%nat /\ may_vacuum v' last_run (clock j) /\
       vacuumed m (c_db c) (c_db c'))) (Conn n (c_db c1))).
  { intros n. wp_rule. cbn [c_db]. split; [done|]. split; [apply Ho|]. split; [by exists (c_db c1)|left; apply Ho]. }
  destruct v as [v|]; [|destruct c1; apply Hsame].
  wp_rule. wp_rule. eapply wp_mono; [by apply (wp_last_vacuum_run last_run)|].
  intros [[last|]|e] [n2 s2] (E2 & Hs2 & Hlast); cbn [c_db c_step] in E2, Hs2; subst s2; [specialize (Hlast _ eq_refl); simplify_eq| |].
  2:{ by specialize (Hlast _ eq_refl). }
  2:{ apply Hsame. }
  wp_rule. unfold vacuum_is_due. wp_rule. wp_rule. cbn beta iota. wp_rule. cbn [c_step c_db].
  destruct (is_due _ _ last_run v) as [[]|e] eqn:Edue; [|apply Hsame..]. apply is_due_spec in Edue.
  wp_rule. wp_rule. eapply wp_mono; [apply wp_store_vacuum|]. cbn [c_db c_step]. intros r c3 (Ha & Hx & Hq & Hm). wp_rule.
  split; [done|]. split; [rewrite Hq; apply Ho|]. split; [by exists (c_db c1)|].
  destruct Hm as [Hm|(m & Hjm & Hm)]; [left; rewrite Hm; apply Ho|]. right. exists v, n2, m.
  unfold vacuumed in *. rewrite Hm, (oe_meta _ _ _ Ho). split_and!; [done|lia|lia|done|done].
Qed.
End cleanup.

(** C36. A turn of the cleanup task never fails, and keeps to the retention and to the schedule: it deletes no
    job accepted within the retention and no execution changed within it, and changes no other record,
    no queue and no other entry of the metadata; and it records a vacuum only when the schedule says so
    at a time it has asked the clock for: the time of day of the schedule has come, and [every] has
    passed since the vacuum recorded last, if there is one. A vacuum it records is the one the next turn
    reads back. *)
Theorem cleanup_turn_respects_retention_and_schedule `{Host} `{EnvLaws} retention v last_run n s r c' :
  (forall n, 0 <= clock n <= i64_max) -> 0 <= retention -> recorded last_run s ->
  cleanup_turn retention v (Conn n s) = (r, c') ->
  let cutoff := Z.max 0 (clock n - retention / 1000000) in
  r = Ok true /\
  i_accepted (s_ingest (c_db c')) ⊆ i_accepted (s_ingest s) /\
  r_executions (s_results (c_db c')) ⊆ r_executions (s_results s) /\
  (forall k a, i_accepted (s_ingest s) !! k = Some a -> cutoff <= ar_created_at a ->
     i_accepted (s_ingest (c_db c')) !! k = Some a) /\
  (forall k x, r_executions (s_results s) !! k = Some x -> cutoff <= er_updated_at x ->
     r_executions (s_results (c_db c')) !! k = Some x) /\
  s_names (c_db c') = s_names s /\ i_queues (s_ingest (c_db c')) = i_queues (s_ingest s) /\
  r_queues (s_results (c_db c')) = r_queues (s_results s) /\
  (i_meta (s_ingest (c_db c')) = i_meta (s_ingest s) \/
   exists v' j m, v = Some v' /\ (n <= j < m)%nat /\ may_vacuum v' last_run (clock j) /\
     i_meta (s_ingest (c_db c')) = <["last_vacuum_run"%string := pretty (clock m)]> (i_meta (s_ingest s)) /\
     recorded (Some (clock m)) (c_db c')).
Proof.
  intros Hclock Hret Hrec Hrun cutoff.
  destruct (wp_run _ _ _ _ _ (wp_cleanup_turn Hclock retention v last_run (Conn n s) Hret Hrec) Hrun)
    as (-> & [= Hn Hiq Hrq] & (s1 & Ho & Ha & Hx) & Hm). cbn [c_db c_step] in *. rewrite Ha, Hx.
  split_and!; [done|apply Ho|apply Ho|apply Ho|apply Ho|done..|].
  destruct Hm as [Hm|(v' & j & m & -> & Hjm & Hdue & Hm)]; [by left|right].
  exists v', j, m. split_and!; [done|lia|lia|done|done|]. split; [rewrite Hm; by rewrite lookup_insert_eq|].
  simpl. pose proof (Hclock m). unfold i64_min, i64_max in *. lia.
Qed.

(** A clock that stays within the years of an [i64] *)
Definition bounded_env : Env := {|
  clock := fun n => Z.min (10000000000 + Z.of_nat n) i64_max;
  instant := instant (Env := model_env); uuid_v4 := uuid_v4 (Env := model_env);
  fault := fault (Env := model_env); sqlite_error := sqlite_error (Env := model_env);
  row_order := @row_order model_env; pick_match := @pick_match model_env;
  next_rowid := next_rowid (Env := model_env)
|}.

Lemma bounded_env_laws : EnvLaws bounded_env.
Proof. destruct model_env_laws. by split. Qed.

(** A job accepted long ago, one accepted within the hour, a vacuum of a month ago *)
Definition example_aged : store :=
  mkStore {[ "email"%string ]}
    (mkIngestDb ∅
       {[ 1 := mkAcceptedRow "email" [] None 5000 5000; 2 := mkAcceptedRow "email" [] None 9999999999 9999999999 ]}
       {["last_vacuum_run"%string := "7000000000"%string]})
    (mkResultsDb ∅ ∅).

Lemma cleanup_turn_respects_retention_and_schedule_witness :
  let out := cleanup_turn (Hst := example_host) (E := bounded_env) 3600000000000
               (Some (mkVacuumConfig "03:00" "1h")) (Conn 50 example_aged) in
  fst out = Ok true /\
  i_accepted (s_ingest (c_db (snd out))) !! 1 = None /\
  i_accepted (s_ingest (c_db (snd out))) !! 2 = i_accepted (s_ingest example_aged) !! 2 /\
  ~ recorded (Some 7000000000) (c_db (snd out)) /\
  exists m, i_meta (s_ingest (c_db (snd out))) !! "last_vacuum_run"%string = Some (pretty (clock (Env := bounded_env) m)).
Proof.
  intros out. destruct out as [r c'] eqn:Eout. cbn [fst snd].
  assert (E : (fst out, snd out) = (r, c')) by by rewrite Eout. vm_compute in E. injection E as <- <-.
  destruct (cleanup_turn_respects_retention_and_schedule (H := example_host) (E := bounded_env) (H0 := bounded_env_laws)
    3600000000000 (Some (mkVacuumConfig "03:00" "1h")) (Some 7000000000) 50 example_aged _ _
    ltac:(intros; simpl; unfold i64_max; lia) ltac:(lia) ltac:(split; [vm_compute; reflexivity|simpl; unfold i64_min, i64_max; lia]) Eout)
    as (_ & _ & _ & Hkeep & _ & _ & _ & _ & Hvac).
  assert (Hnot : forall s, i_meta (s_ingest s) !! "last_vacuum_run"%string <> Some "7000000000"%string -> ~ recorded (Some 7000000000) s).
  { intros s Hs [Hm _]. apply Hs. rewrite Hm. vm_compute. reflexivity. }
  split_and!; [done|by vm_compute| | |].
  - apply Hkeep; [done|]. vm_compute. discriminate.
  - apply Hnot. vm_compute. discriminate.
  - destruct Hvac as [Hm|(v' & j & m & _ & _ & _ & _ & Hm & _)]; [|by exists m].
    apply (f_equal (lookup "last_vacuum_run"%string)) in Hm. vm_compute in Hm. discriminate Hm.
Defined.
