(* ===== verification/Tls.v ===== *)
(** * TLS, the listener for workers, and the connection of a worker

    The TLS set-up of both sides, the accept loop of [start_worker_listener] and the beginning of
    [handle_worker] ([crates/dispatcher/src/lib.rs]); [Worker] and [run_until] around the session of
    [WorkerSdk] ([crates/worker-sdk/src/lib.rs]); the worker of [benchmark/noop-worker/src/main.rs].
    rustls, its PEM reader, the sockets and the files are the class [Tls]. *)
From stdpp Require Import relations.
From S2P Require Import Prelude Types Interfaces Protocol Registry WorkerSdk Float Options Engine Config Server.
From Stdlib Require Import Ascii.

(** ** The libraries *)

(** What the code puts into the configurations of rustls: whom to trust, and the own certificate *)
Record ServerConfig (C K : Type) := mkServerConfig { sc_client_roots : list C; sc_chain : list C; sc_key : K }.
Record ClientConfig (C K : Type) := mkClientConfig { cc_roots : list C; cc_chain : list C; cc_key : K }.
Arguments mkServerConfig {C K}.
Arguments mkClientConfig {C K}.
Arguments sc_client_roots {C K}.
Arguments cc_roots {C K}.

Class Tls := {
  certificate : Type;
  private_key : Type;
  tcp_stream : Type;
  tls_stream : Type;
  (** [File::open] and what is read from the file *)
  open_file : string -> result string bytes;
  (** [rustls_pemfile::certs], an iterator of results *)
  pem_certs : bytes -> list (result string certificate);
  (** [rustls_pemfile::private_key] *)
  pem_private_key : bytes -> result string (option private_key);
  (** [RootCertStore::add] *)
  add_root : list certificate -> certificate -> result string (list certificate);
  (** [WebPkiClientVerifier::builder(roots).build()] *)
  client_verifier : list certificate -> result string unit;
  (** [with_single_cert], [with_client_auth_cert]: whether the key fits the certificate *)
  single_cert : list certificate -> private_key -> result string unit;
  client_auth_cert : list certificate -> private_key -> result string unit;
  (** [TcpStream::connect] *)
  tcp_connect : string -> result string tcp_stream;
  (** [ServerName::try_from] *)
  server_name_ok : string -> bool;
  tls_accept : ServerConfig certificate private_key -> tcp_stream -> result string tls_stream;
  tls_connect : ClientConfig certificate private_key -> string -> tcp_stream -> result string tls_stream;
  tls_write : tls_stream -> bytes -> result string unit;
  (** The certificates the other side has presented, and what the verifiers of rustls decide *)
  peer_certificates : tls_stream -> list certificate;
  chains_to : list certificate -> list certificate -> Prop;
  valid_for : string -> list certificate -> Prop
}.

(** A store of roots holds what was added to it; a handshake that succeeds has verified the other side. *)
Class TlsLaws `(Tls) : Prop := {
  add_root_ok : forall roots c roots', add_root roots c = Ok roots' -> roots' = roots ++ [c];
  accept_verifies : forall cfg s t, tls_accept cfg s = Ok t -> chains_to (sc_client_roots cfg) (peer_certificates t);
  connect_verifies : forall cfg name s t, tls_connect cfg name s = Ok t ->
    chains_to (cc_roots cfg) (peer_certificates t) /\ valid_for name (peer_certificates t)
}.

(** [collect::<Result<Vec<_>, _>>()] *)
Fixpoint collect {E A} (l : list (result E A)) : result E (list A) :=
  match l with
  | [] => Ok []
  | r :: l => let? a := r in let? rest := collect l in Ok (a :: rest)
  end.

(** ** The configuration of the server *)

Record TlsFiles := mkTlsFiles { tf_ca_cert_path : string; tf_cert_path : string; tf_key_path : string }.

Section server.
Context `{T : Tls}.

Definition certs (path : string) : result string (list certificate) :=
  let? contents := map_err (fun _ => ("open certificate " ++ path)%string) (open_file path) in
  map_err (fun _ => "read PEM certificates"%string) (collect (pem_certs contents)).

Definition key (path : string) : result string private_key :=
  let? contents := map_err (fun _ => ("open key " ++ path)%string) (open_file path) in
  let? found := pem_private_key contents in
  match found with Some k => Ok k | None => Err "no private key in PEM"%string end.

(** [for cert in .. { roots.add(cert)?; }] *)
Fixpoint add_roots (roots : list certificate) (l : list certificate) : result string (list certificate) :=
  match l with
  | [] => Ok roots
  | c :: l => let? roots := add_root roots c in add_roots roots l
  end.

Definition server_config (files : TlsFiles) : result string (ServerConfig certificate private_key) :=
  let? server_certs := certs (tf_cert_path files) in
  let? k := key (tf_key_path files) in
  let? ca := certs (tf_ca_cert_path files) in
  let? roots := add_roots [] ca in
  let? _ := client_verifier roots in
  let? _ := single_cert server_certs k in
  Ok (mkServerConfig roots server_certs k).

(** ** The listener *)

(** The first frame of a session, up to the registration: the worker that is registered now *)
Definition first_frame (allowed : gset string) (now : Z) (message : WorkerMessage) (r : WorkerRegistry) :
    result string (Z * string) * WorkerRegistry :=
  match message with
  | Register instance_id queue_name running_jobs free_slots =>
      if decide (queue_name = ""%string \/ queue_name ∉ allowed) then (Err "unknown queue"%string, r)
      else
        match register_worker instance_id queue_name running_jobs free_slots now (mkOutbound true []) r with
        | (Err e, r) => (Err e, r)
        | (Ok _, r) => (Ok (instance_id, queue_name), r)
        end
  | _ => (Err "first worker frame must register"%string, r)
  end.

(** The streams whose handshake is under way, the sessions that wait for their first frame, and, for the
    specification only, which session has registered which worker *)
Record listener := mkListener {
  ls_system : system;
  ls_handshakes : list tcp_stream;
  ls_greeting : list tls_stream;
  ls_log : list (Z * string * tls_stream)
}.

Definition listener_new : listener := mkListener system_init [] [] [].

(** The tasks of the listener: the loop takes a connection, or fails to and goes on; a handshake succeeds
    or its connection is dropped; a session reads its first frame, which registers its worker or ends it.
    Everything else that happens to the registry is a step of [system]. *)
Inductive listener_step (cfg : ServerConfig certificate private_key) (allowed : gset string) : listener -> listener -> Prop :=
| ls_accept s hs gs log stream :
    listener_step cfg allowed (mkListener s hs gs log) (mkListener s (hs ++ [stream]) gs log)
| ls_accept_failed l : listener_step cfg allowed l l
| ls_handshake s hs1 hs2 gs log stream :
    listener_step cfg allowed (mkListener s (hs1 ++ stream :: hs2) gs log)
      (mkListener s (hs1 ++ hs2) (match tls_accept cfg stream with Ok t => gs ++ [t] | Err _ => gs end) log)
| ls_first_frame r permits waiting hs gs1 gs2 log t now message res r' :
    first_frame allowed now message r = (res, r') ->
    listener_step cfg allowed (mkListener (mkSystem r permits waiting) hs (gs1 ++ t :: gs2) log)
      (mkListener (mkSystem r' permits waiting) hs (gs1 ++ gs2)
         (match res with Ok worker => (worker, t) :: log | Err _ => log end))
| ls_first_frame_unread s hs gs1 gs2 log t :
    listener_step cfg allowed (mkListener s hs (gs1 ++ t :: gs2) log) (mkListener s hs (gs1 ++ gs2) log)
| ls_session s s' hs gs log :
    system_step s s' -> dom (reg_workers (sys_registry s')) ⊆ dom (reg_workers (sys_registry s)) ->
    listener_step cfg allowed (mkListener s hs gs log) (mkListener s' hs gs log).

(** [start_worker_listener], once the address is bound *)
Definition start_worker_listener (files : TlsFiles) : result string (ServerConfig certificate private_key * listener) :=
  let? cfg := server_config files in Ok (cfg, listener_new).

(** The call of [main]: the files, and the queues that workers may register for *)
Definition worker_tls (c : AppConfig) : TlsFiles :=
  mkTlsFiles (wt_ca_cert_path (ac_worker_tls c)) (wt_cert_path (ac_worker_tls c)) (wt_key_path (ac_worker_tls c)).
Definition allowed_queues (c : AppConfig) : gset string := list_to_set (qc_name <$> ac_queues c).
End server.

(** ** The worker *)

Record WorkerConnection := mkConnection {
  wc_maqistor_addr : string;
  wc_server_name : string;
  wc_ca_cert_path : string;
  wc_client_cert_path : string;
  wc_client_key_path : string
}.

(** [Worker], without its handler, whose results are events of the session *)
Record Worker := mkWorkerConf { wk_connection : WorkerConnection; wk_queue_name : string; wk_concurrency : Z }.

Section worker.
Context `{T : Tls} `{Cb : Cbor}.

Definition client_certs (path : string) : result WorkerRunError (list certificate) :=
  let? contents := map_err RunIo (open_file path) in map_err RunIo (collect (pem_certs contents)).

Definition client_key (path : string) : result WorkerRunError private_key :=
  let? contents := map_err RunIo (open_file path) in
  let? found := map_err RunIo (pem_private_key contents) in
  match found with Some k => Ok k | None => Err (Configuration "no client key in PEM") end.

Definition client_config (connection : WorkerConnection) : result WorkerRunError (ClientConfig certificate private_key) :=
  let? ca := client_certs (wc_ca_cert_path connection) in
  let? roots := map_err Configuration (add_roots [] ca) in
  let? own := client_certs (wc_client_cert_path connection) in
  let? k := client_key (wc_client_key_path connection) in
  let? _ := map_err RunTls (client_auth_cert own k) in
  Ok (mkClientConfig roots own k).

(** [run_until], up to the connected stream *)
Definition worker_connect (connection : WorkerConnection) : result WorkerRunError tls_stream :=
  let? tcp := map_err RunIo (tcp_connect (wc_maqistor_addr connection)) in
  if server_name_ok (wc_server_name connection) then
    let? cfg := client_config connection in
    map_err RunIo (tls_connect cfg (wc_server_name connection) tcp)
  else Err (Configuration "invalid TLS server name").

Definition write_message (t : tls_stream) (payload : WorkerMessage) : result WorkerRunError unit :=
  let? frame := map_err EProtocol (encode_frame (v1 payload)) in
  map_err RunIo (tls_write t frame).

(** How [run_until] ends: a session that has failed aborts its writer, one that ended well waits for it,
    and [None] is a writer that panicked. *)
Definition run_ends (session : result WorkerRunError unit) (writer : option (result WorkerRunError unit)) :
    result WorkerRunError unit :=
  match session with
  | Ok _ => match writer with Some r => r | None => Err Stopped end
  | Err e => Err e
  end.

(** [run_until]: the worker connects, registers, and serves; [None] is a session that goes on. *)
Definition run_until (json_error : bytes -> option string) (w : Worker) (instance_id : Z) (events : list sdk_event)
    (writer : option (result WorkerRunError unit)) : option (result WorkerRunError unit) :=
  match worker_connect (wk_connection w) with
  | Err e => Some (Err e)
  | Ok t =>
      match write_message t (Register instance_id (wk_queue_name w) 0 (wk_concurrency w)) with
      | Err e => Some (Err e)
      | Ok _ =>
          let s := session_new (wk_queue_name w) (wk_concurrency w) instance_id in
          match serve json_error (wk_queue_name w) (wk_concurrency w) events s with
          | (_, None) => None
          | (_, Some r) => Some (run_ends r writer)
          end
      end
  end.

(** [run]: [std::future::pending()] is never ready. *)
Definition no_shutdown (events : list sdk_event) : Prop := EvShutdown ∉ events.
End worker.

(** ** The worker of the benchmark *)

(** [str::parse::<u32>]: an optional plus sign and at least one digit *)
Definition parse_u32 (s : string) : option Z :=
  x ← match s with String "+" s => parse_nonempty s | _ => parse_nonempty s end;
  if bool_decide (x <= u32_max) then Some x else None.

Inductive NoopError : Type := ConcurrencyUnreadable | ConcurrencyZero.

Section noop.
(** [std::env::var(name).ok()] *)
Context (var : string -> option string).

Definition noop_env (name fallback : string) : string := default fallback (var name).

(** [main], up to [run]; the handler answers every job with no bytes. *)
Definition noop_worker : result NoopError Worker :=
  match parse_u32 (noop_env "MAQISTOR_WORKER_CONCURRENCY" "16") with
  | None => Err ConcurrencyUnreadable
  | Some concurrency =>
      if decide (concurrency = 0) then Err ConcurrencyZero
      else Ok (mkWorkerConf
        (mkConnection (noop_env "MAQISTOR_ADDR" "host.docker.internal:17829")
           (noop_env "MAQISTOR_SERVER_NAME" "maqistor-benchmark") (noop_env "MAQISTOR_CA_CERT_PATH" "/certs/ca.pem")
           (noop_env "MAQISTOR_CLIENT_CERT_PATH" "/certs/worker-cert.pem")
           (noop_env "MAQISTOR_CLIENT_KEY_PATH" "/certs/worker-key.pem"))
        "bench" concurrency)
  end.

Definition noop_handler (payload : bytes) : result string bytes := Ok [].
End noop.
