(* ===== verification/TlsProps.v ===== *)
(** * TLS, the listener for workers, and the connection of a worker: properties

    Who may register as a worker, whom a worker talks to, and how [run_until] ends. *)
From stdpp Require Import relations.
From S2P Require Import Prelude Types Interfaces Protocol Registry RegistryProps WorkerSdk Float Options Engine Config ConfigProps Server Tls.
From Stdlib Require Import Ascii.

(** ** The roots of the two configurations *)

Section config.
Context `{TL : TlsLaws}.

Lemma add_roots_ok roots l roots' : add_roots roots l = Ok roots' -> roots' = roots ++ l.
Proof.
  revert roots. induction l as [|c l IH]; intros roots; simpl; [intros [= <-]; by rewrite app_nil_r|].
  destruct (add_root roots c) as [roots1|] eqn:E1; [|done]. simpl. intros ->%IH. apply add_root_ok in E1 as ->.
  by rewrite <-(assoc (++)).
Qed.

Lemma server_config_roots files cfg :
  server_config files = Ok cfg -> certs (tf_ca_cert_path files) = Ok (sc_client_roots cfg).
Proof.
  unfold server_config. destruct (certs (tf_cert_path files)) as [own|]; [|done]. simpl.
  destruct (key _) as [k|]; [|done]. simpl. destruct (certs (tf_ca_cert_path files)) as [ca|]; [|done]. simpl.
  destruct (add_roots [] ca) as [roots|] eqn:Er; [|done]. simpl. destruct (client_verifier roots); [|done]. simpl.
  destruct (single_cert own k); [|done]. intros [= <-]. by apply add_roots_ok in Er as ->.
Qed.

Lemma client_config_roots connection cfg :
  client_config connection = Ok cfg -> client_certs (wc_ca_cert_path connection) = Ok (cc_roots cfg).
Proof.
  unfold client_config. destruct (client_certs (wc_ca_cert_path connection)) as [ca|]; [|done]. simpl.
  destruct (add_roots [] ca) as [roots|] eqn:Er; [|done]. simpl.
  destruct (client_certs (wc_client_cert_path connection)) as [own|]; [|done]. simpl.
  destruct (client_key _) as [k|]; [|done]. simpl. destruct (client_auth_cert own k); [|done]. intros [= <-].
  by apply add_roots_ok in Er as ->.
Qed.
End config.

(** ** The queues of the registered workers *)

Definition queues_of (r : WorkerRegistry) : gmap Z string := ws_queue_name <$> reg_workers r.

(** No worker is added, and each keeps its queue. *)
Definition queues_kept (r r' : WorkerRegistry) : Prop := queues_of r' ⊆ queues_of r.

#[export] Instance queues_kept_preorder : PreOrder queues_kept.
Proof. split; [intros r; unfold queues_kept; done|]. intros r1 r2 r3 H1 H2. unfold queues_kept in *. by trans (queues_of r2). Qed.

Lemma queues_kept_set id w w' r :
  reg_workers r !! id = Some w -> ws_queue_name w' = ws_queue_name w -> queues_kept r (set_worker id w' r).
Proof.
  intros Hw Hq. unfold queues_kept, queues_of. simpl. rewrite fmap_insert, insert_id; [done|].
  by rewrite lookup_fmap, Hw, Hq.
Qed.

Lemma queues_kept_alter f id r :
  (forall w, ws_queue_name (f w) = ws_queue_name w) -> queues_kept r (set_workers (alter f id (reg_workers r)) r).
Proof.
  intros Hf. unfold queues_kept, queues_of. simpl. apply map_subseteq_spec. intros i q.
  rewrite !lookup_fmap, lookup_alter. case_decide; [subst i|done]. destruct (reg_workers r !! id); [|done]. simpl. by rewrite Hf.
Qed.

Lemma queues_kept_remove id r : queues_kept r (remove_worker id r).
Proof. unfold queues_kept, queues_of. simpl. rewrite fmap_delete. apply delete_subseteq. Qed.

Lemma find_ideal_in_elem q l x : find_ideal_in l q = Some x -> x ∈ l.
Proof.
  revert x. unfold find_ideal_in. induction l as [|y l IH] using rev_ind; [done|]. intros x. rewrite foldl_snoc.
  unfold ideal_step at 1. intros Hx. apply elem_of_app.
  destruct (eligible q y.2); [|left; by apply IH].
  destruct (foldl _ _ l) as [best|]; [|simplify_eq; right; by left].
  repeat case_match; simplify_eq; first [right; by left | left; by apply IH].
Qed.

Lemma queues_kept_reserve queues r ps r' : reserve queues r = (Ok ps, r') -> queues_kept r r'.
Proof.
  intros [= _ <-]. apply (reserve_all_ind (fun _ r' => queues_kept r r')) with (ps := []); [|done].
  intros q _ r1 id w Hkept Hw%find_ideal_in_elem%elem_of_map_to_list.
  etrans; [exact Hkept|]. by eapply queues_kept_set.
Qed.

Lemma queues_kept_dispatch_queue id d job r : queues_kept r (dispatch_queue id d job r).2.
Proof.
  unfold dispatch_queue. destruct (reg_workers r !! id) as [w|] eqn:Hw; [|done].
  destruct (ws_draining w); [by eapply queues_kept_set|]. case_decide; [by eapply queues_kept_set|].
  unfold send. destruct (ob_open _); by eapply queues_kept_set.
Qed.

Lemma queues_kept_handle_frame id now message r : queues_kept r (handle_frame id now message r).2.
Proof.
  unfold handle_frame. destruct (reg_workers r !! id) as [w|] eqn:Hw; [|done].
  destruct message; try (by eapply queues_kept_set).
Qed.

Lemma system_step_queues s s' :
  system_step s s' ->
  dom (reg_workers (sys_registry s')) ⊆ dom (reg_workers (sys_registry s)) ->
  queues_kept (sys_registry s) (sys_registry s').
Proof.
  intros Hstep Hdom.
  destruct Hstep as [queues r permits waiting ps r' Hr|r p permits permits' waiting _
    |r p permits permits' waiting d job res r' _ Hr|r permits waiting waiting' p d queued wrote _ _
    |r permits waiting id now message res r' _ Hr|r permits waiting id queue running free now r' _ _ _ _ Hr
    |r permits waiting id|r permits waiting id]; cbn [sys_registry] in *.
  - by eapply queues_kept_reserve.
  - unfold release_permit. destruct (_ !! p) eqn:Hp; [|done]. by eapply queues_kept_set.
  - pose proof (queues_kept_dispatch_queue p d job r) as H. by rewrite Hr in H.
  - unfold dispatch_finish, release_dispatched. destruct wrote; [done|]. simpl.
    destruct (_ !! p) eqn:Hp; [|done]. by eapply queues_kept_set.
  - pose proof (queues_kept_handle_frame id now message r) as H. rewrite Hr in H. by destruct res as [[]|].
  - unfold register_worker in Hr. destruct (reg_workers r !! id) eqn:Hid; [done|]. injection Hr as <-. exfalso.
    apply not_elem_of_dom in Hid. apply Hid, Hdom. simpl. rewrite dom_insert_L. set_solver.
  - apply queues_kept_remove.
  - by apply queues_kept_alter.
Qed.

(** ** The listener *)

Section listener.
Context `{TL : TlsLaws} (cfg : ServerConfig certificate private_key) (allowed : gset string).

Definition verified (t : tls_stream) : Prop := chains_to (sc_client_roots cfg) (peer_certificates t).

(** Every session has been verified, and every worker was registered by one, for a queue of the server. *)
Record listener_ok (l : listener) : Prop := {
  lo_greeting : Forall verified (ls_greeting l);
  lo_log : forall id q t, (id, q, t) ∈ ls_log l -> verified t /\ q ∈ allowed /\ q <> ""%string;
  lo_workers : forall id q, queues_of (sys_registry (ls_system l)) !! id = Some q -> exists t, (id, q, t) ∈ ls_log l
}.

Lemma first_frame_queues now message r :
  match first_frame allowed now message r with
  | (Ok (id, q), r') => queues_of r' = <[id := q]> (queues_of r) /\ q ∈ allowed /\ q <> ""%string
  | (Err _, r') => r' = r
  end.
Proof.
  unfold first_frame. destruct message; try done. case_decide as Hq; [done|].
  unfold register_worker. destruct (reg_workers r !! instance_id); [done|]. unfold queues_of. simpl.
  rewrite fmap_insert. split; [done|]. split.
  - destruct (decide (queue_name ∈ allowed)); [done|]. destruct Hq. by right.
  - intros ->. apply Hq. by left.
Qed.

Lemma listener_step_ok l l' : listener_step cfg allowed l l' -> listener_ok l -> listener_ok l'.
Proof.
  destruct 1 as [s hs gs log stream|l|s hs1 hs2 gs log stream|r permits waiting hs gs1 gs2 log t now message res r' Hf
    |s hs gs1 gs2 log t|s s' hs gs log Hstep Hdom]; intros [Hg Hlog Hw]; cbn [ls_greeting ls_log ls_system sys_registry] in *.
  - done.
  - done.
  - split; [|done|done]. cbn [ls_greeting]. destruct (tls_accept cfg stream) as [t|] eqn:Et; [|done].
    apply Forall_app. split; [done|]. constructor; [|done]. by eapply accept_verifies.
  - apply Forall_app in Hg as [Hg1 [Ht Hg2]%Forall_cons].
    pose proof (first_frame_queues now message r) as Hq. rewrite Hf in Hq.
    split; cbn [ls_greeting ls_log ls_system sys_registry]; [by apply Forall_app|..].
    + destruct res as [[id q]|]; [|done]. intros id' q' t' [[= -> -> ->]|?]%elem_of_cons; [|by apply (Hlog id')].
      by destruct Hq as (_ & ? & ?).
    + intros id' q'. destruct res as [[id q]|]; [|subst r'; apply Hw]. destruct Hq as (-> & _).
      intros [[<- <-]|[_ Hin]]%lookup_insert_Some; [exists t; by left|]. destruct (Hw _ _ Hin) as [t' ?]. exists t'. by right.
  - apply Forall_app in Hg as [Hg1 [_ Hg2]%Forall_cons]. split; [by apply Forall_app|done|done].
  - split; [done|done|]. cbn [ls_log ls_system]. intros id q Hin. apply Hw.
    eapply lookup_weaken; [exact Hin|]. by apply system_step_queues.
Qed.

Lemma listener_new_ok : listener_ok listener_new.
Proof.
  split; [constructor|by intros id q t Hin%elem_of_nil|]. intros id q. unfold queues_of. simpl. by rewrite lookup_fmap, lookup_empty.
Qed.

Lemma listener_run_ok l : rtc (listener_step cfg allowed) listener_new l -> listener_ok l.
Proof.
  intros Hrun. enough (forall l0, rtc (listener_step cfg allowed) l0 l -> listener_ok l0 -> listener_ok l) as Hgen
    by (apply (Hgen listener_new); [done|apply listener_new_ok]).
  induction 1 as [|? ? ? Hs _ IH]; [done|]. intros Hok. by eapply IH, listener_step_ok.
Qed.
End listener.

(** ** Theorems *)

(** C16. Whatever connections arrive and whatever their peers send, a worker is in the registry of the
    server only if a session has registered it whose peer presented a certificate that chains to the CA
    file of [worker_tls], and it is registered for one of the configured queues; connections that cannot
    be accepted, handshakes that fail and sessions that end let nobody else in. *)
Theorem only_verified_workers_register `{TlsLaws} config cfg l id w :
  start_worker_listener (worker_tls config) = Ok (cfg, listener_new) ->
  rtc (listener_step cfg (allowed_queues config)) listener_new l ->
  reg_workers (sys_registry (ls_system l)) !! id = Some w ->
  exists ca t, certs (wt_ca_cert_path (ac_worker_tls config)) = Ok ca /\ chains_to ca (peer_certificates t) /\
    (id, ws_queue_name w, t) ∈ ls_log l /\ exists q, q ∈ ac_queues config /\ qc_name q = ws_queue_name w.
Proof.
  unfold start_worker_listener. destruct (server_config _) as [cfg'|] eqn:Ecfg; [|done]. intros [= <-] Hrun Hw.
  apply listener_run_ok in Hrun as [_ Hlog Hworkers].
  destruct (Hworkers id (ws_queue_name w)) as [t Ht]; [unfold queues_of; by rewrite lookup_fmap, Hw|].
  destruct (Hlog _ _ _ Ht) as (Hv & Hq & _). exists (sc_client_roots cfg'), t.
  split; [by apply (server_config_roots (worker_tls config))|]. split; [done|]. split; [done|].
  unfold allowed_queues in Hq. rewrite elem_of_list_to_set in Hq. apply list_elem_of_fmap in Hq as (q & Hq & Hin). by exists q.
Qed.

(** An instance of the class: a certificate is its subject and its issuer, a stream what the peer has. *)
#[local] Instance toy_tls : Tls := {|
  certificate := string * string; private_key := string;
  tcp_stream := list (string * string); tls_stream := list (string * string);
  open_file path := if bool_decide (path ∈ ["ca.pem"; "server.pem"; "server.key"]%string) then Ok (String.list_byte_of_string path)
                    else Err "no such file"%string;
  pem_certs b := [Ok (if bool_decide (b = String.list_byte_of_string "ca.pem") then ("ca", "ca") else ("server", "ca"))]%string;
  pem_private_key _ := Ok (Some "server"%string);
  add_root roots c := Ok (roots ++ [c]);
  client_verifier roots := if bool_decide (roots = []) then Err "no root anchors"%string else Ok tt;
  single_cert chain k := Ok tt;
  client_auth_cert chain k := Ok tt;
  tcp_connect _ := Ok [("server", "ca")]%string;
  server_name_ok name := bool_decide (name <> ""%string);
  tls_accept cfg s := if bool_decide (Exists (fun c => c.2 ∈ (sc_client_roots cfg).*1) s) then Ok s else Err "unknown issuer"%string;
  tls_connect cfg name s :=
    if bool_decide (Exists (fun c => c.2 ∈ (cc_roots cfg).*1) s /\ name ∈ s.*1) then Ok s else Err "invalid certificate"%string;
  tls_write _ _ := Ok tt;
  peer_certificates s := s;
  chains_to roots s := Exists (fun c => c.2 ∈ roots.*1) s;
  valid_for name s := name ∈ s.*1
|}.

#[local] Instance toy_tls_laws : TlsLaws toy_tls.
Proof.
  split; simpl.
  - by intros roots c roots' [= <-].
  - intros cfg s t Ht. case_bool_decide; simplify_eq. done.
  - intros cfg name s t Ht. case_bool_decide as Hb; simplify_eq. done.
Qed.

Definition toy_config : ServerConfig (string * string) string := mkServerConfig [("ca", "ca")]%string [("server", "ca")]%string "server"%string.
Definition toy_worker : list (string * string) := [("worker", "ca")]%string.
Definition toy_intruder : list (string * string) := [("worker", "elsewhere")]%string.
Definition toy_registered : system :=
  mkSystem (first_frame (allowed_queues example_config) 5 (Register 7 "email" 0 2) (mkRegistry ∅ [] [])).2 [] [].

(** An intruder and a worker connect; the worker registers. *)
Lemma toy_run :
  rtc (listener_step (T := toy_tls) toy_config (allowed_queues example_config)) listener_new
    (mkListener (T := toy_tls) toy_registered [] [] [(7, "email"%string, toy_worker)]).
Proof.
  eapply rtc_l; [exact (ls_accept (T := toy_tls) _ _ system_init [] [] [] toy_intruder)|].
  eapply rtc_l; [exact (ls_accept (T := toy_tls) _ _ system_init [toy_intruder] [] [] toy_worker)|].
  eapply rtc_l; [exact (ls_handshake (T := toy_tls) _ _ system_init [] [toy_worker] [] [] toy_intruder)|].
  eapply rtc_l; [exact (ls_handshake (T := toy_tls) _ _ system_init [] [] [] [] toy_worker)|].
  eapply rtc_l; [|apply rtc_refl].
  exact (ls_first_frame (T := toy_tls) toy_config (allowed_queues example_config) (mkRegistry ∅ [] []) [] [] [] [] [] [] toy_worker 5 (Register 7 "email" 0 2)
    (Ok (7, "email"%string)) (sys_registry toy_registered) eq_refl).
Qed.

Lemma only_verified_workers_register_witness :
  exists w t, reg_workers (sys_registry toy_registered) !! 7 = Some w /\ ws_queue_name w = "email"%string /\
    @chains_to toy_tls [("ca"%string, "ca"%string)] t.
Proof.
  destruct (reg_workers (sys_registry toy_registered) !! 7) as [w|] eqn:Hw; [|vm_compute in Hw; discriminate Hw].
  destruct (only_verified_workers_register (H := toy_tls) example_config toy_config
    (mkListener (T := toy_tls) toy_registered [] [] [(7, "email"%string, toy_worker)]) 7 w)
    as (ca & t & Hca & Hchain & _); [vm_compute; reflexivity|exact toy_run|exact Hw|].
  exists w, t. split; [reflexivity|]. split; [vm_compute in Hw; injection Hw as <-; reflexivity|].
  vm_compute in Hca. injection Hca as <-. exact Hchain.
Defined.

(** A worker that ends well has talked to the server of its configuration: a certificate that chains to the
    CA file of its connection and is valid for the configured name was presented, the registration was
    written, the session ended well, and so did its writer. *)
Theorem worker_ends_well `{TlsLaws} `{Cbor} json_error wk instance_id events writer :
  run_until json_error wk instance_id events writer = Some (Ok tt) ->
  exists ca t s, client_certs (wc_ca_cert_path (wk_connection wk)) = Ok ca /\
    chains_to ca (peer_certificates t) /\ valid_for (wc_server_name (wk_connection wk)) (peer_certificates t) /\
    write_message t (Register instance_id (wk_queue_name wk) 0 (wk_concurrency wk)) = Ok tt /\
    serve json_error (wk_queue_name wk) (wk_concurrency wk) events
      (session_new (wk_queue_name wk) (wk_concurrency wk) instance_id) = (s, Some (Ok tt)) /\
    writer = Some (Ok tt).
Proof.
  unfold run_until. destruct (worker_connect (wk_connection wk)) as [t|] eqn:Ec; [|done].
  destruct (write_message t _) as [[]|] eqn:Ew; [|done]. destruct (serve _ _ _ _ _) as [s [r|]] eqn:Es; [|done].
  intros [= Hr]. unfold worker_connect in Ec. destruct (tcp_connect _) as [tcp|]; [|done]. simpl in Ec.
  destruct (server_name_ok _); [|done]. destruct (client_config _) as [cfg|] eqn:Ecfg; [|done]. simpl in Ec.
  destruct (tls_connect cfg _ tcp) as [t'|] eqn:Et; [|done]. simpl in Ec. simplify_eq.
  apply connect_verifies in Et as [Hc Hn]. apply client_config_roots in Ecfg. exists (cc_roots cfg), t, s.
  destruct r as [[]|e]; [|done]. destruct writer as [w|]; simplify_eq/=. by split_and!.
Qed.

Lemma parse_digits_nonneg s acc x : 0 <= acc -> parse_digits s acc = Some x -> 0 <= x.
Proof.
  revert acc. induction s as [|c s IH]; intros acc Hacc; cbn [parse_digits]; [intros [= <-]; done|].
  case_bool_decide as Hd; [|done]. apply IH. lia.
Qed.

Lemma parse_u32_bounds s x : parse_u32 s = Some x -> 0 <= x <= u32_max.
Proof.
  unfold parse_u32. intros (y & Hy & Hx)%bind_Some. case_bool_decide as Hb; [|done]. injection Hx as <-. split; [|done].
  assert (Hne : forall s', parse_nonempty s' = Some y -> 0 <= y).
  { intros [|c s']; [done|]. unfold parse_nonempty. intros Hp. eapply parse_digits_nonneg; [|exact Hp]. done. }
  destruct s as [|c s']; [by apply (Hne ""%string)|]. destruct (ascii_dec c "+") as [->|Hc]; [by apply (Hne s')|].
  apply (Hne (String c s')). rewrite <-Hy. destruct c as [[] [] [] [] [] [] [] []]; done.
Qed.

(** The worker of the benchmark has at least one slot and no more than a [u32] counts, or it does not
    start, because the variable is no number or zero. *)
Theorem noop_worker_concurrency var :
  let value := parse_u32 (noop_env var "MAQISTOR_WORKER_CONCURRENCY" "16") in
  match noop_worker var with
  | Ok w => 0 < wk_concurrency w <= u32_max /\ value = Some (wk_concurrency w)
  | Err ConcurrencyZero => value = Some 0
  | Err ConcurrencyUnreadable => value = None
  end.
Proof.
  intros value. unfold noop_worker. fold value. destruct value as [n|] eqn:En; [|done].
  apply parse_u32_bounds in En. case_decide as Hz; [by subst|]. simpl. split; [lia|done].
Qed.
