(* ===== verification/Bulk.v ===== *)
(** * The text of the bulk statements

    [crates/persistence/src/sqlite/bulk.rs] and its callers: what the statements of [Ingest] and
    [Results] say to SQLite. The placeholders of a statement number its parameters; the values of the
    rows are bound one row after the other. *)
From S2P Require Import Prelude Db Ingest.
From Stdlib Require Import Ascii.

(** ** The builders *)

Definition values_placeholders (rows cols : nat) : string :=
  String.concat ", "
    ((fun row =>
        let start := (row * cols)%nat in
        let inner := String.concat ", " ((fun col => "?" +:+ pretty (N.of_nat (start + col))) <$> seq 1 cols) in
        "(" +:+ inner +:+ ")") <$> seq 0 rows).

Definition insert_sql (table : string) (columns : list string) (rows : nat) : string :=
  let cols := String.concat ", " columns in
  let values := values_placeholders rows (length columns) in
  "INSERT INTO " +:+ table +:+ " (" +:+ cols +:+ ") VALUES " +:+ values.

Definition push_clause (keyword : string) (clause : option string) : string :=
  match clause with Some clause => keyword +:+ clause | None => "" end.

Definition upsert_sql (table : string) (columns : list string) (rows : nat) (conflict_target update_set_sql : string)
    (update_where_sql returning : option string) : string :=
  let cols := String.concat ", " columns in
  let values := values_placeholders rows (length columns) in
  let sql := "INSERT INTO " +:+ table +:+ " (" +:+ cols +:+ ") VALUES " +:+ values +:+
    " ON CONFLICT(" +:+ conflict_target +:+ ") DO UPDATE SET " +:+ update_set_sql in
  sql +:+ push_clause " WHERE " update_where_sql +:+ push_clause " RETURNING " returning.

Definition update_from_values_sql (table alias set_sql : string) (value_columns : list string) (rows : nat)
    (where_sql : string) (returning : option string) : string :=
  let values := values_placeholders rows (length value_columns) in
  let cols := String.concat ", " value_columns in
  let sql := "WITH " +:+ alias +:+ "(" +:+ cols +:+ ") AS (VALUES " +:+ values +:+
    ") UPDATE " +:+ table +:+ " SET " +:+ set_sql +:+ " FROM " +:+ alias +:+ " WHERE " +:+ where_sql in
  sql +:+ push_clause " RETURNING " returning.

(** ** The statements

    Each for a chunk of so many rows, with the number of values bound for a row *)

Definition JOBS_INSERT_COLUMNS : list string := ["queue_name"; "payload"; "created_at"; "updated_at"]%string.

Definition enqueue_sql (rows : nat) : string := insert_sql "accepted_jobs" JOBS_INSERT_COLUMNS rows.

Definition claim_sql (rows : nat) : string :=
  update_from_values_sql "accepted_jobs" "v" "dispatch_id = v.dispatch_id, updated_at = v.updated_at"
    ["id"; "dispatch_id"; "updated_at"]%string rows "accepted_jobs.id = v.id AND accepted_jobs.dispatch_id IS NULL"
    (Some "accepted_jobs.id, accepted_jobs.dispatch_id"%string).

Definition repend_sql (rows : nat) : string :=
  update_from_values_sql "accepted_jobs" "v" "dispatch_id = NULL, updated_at = v.updated_at"
    ["id"; "dispatch_id"; "updated_at"]%string rows
    "accepted_jobs.id = v.id AND accepted_jobs.dispatch_id = v.dispatch_id" None.

Definition EXECUTIONS_UPSERT_COLUMNS : list string :=
  ["job_id"; "queue_name"; "status"; "execution_count"; "lease_expires_at"; "dispatch_id"; "created_at"; "updated_at"]%string.

Definition dispatch_sql (rows : nat) : string :=
  upsert_sql "executions" EXECUTIONS_UPSERT_COLUMNS rows "job_id"
    ("status = 'running', execution_count = execution_count + 1, dispatch_id = excluded.dispatch_id, " +:+
     "lease_expires_at = excluded.lease_expires_at, result_payload = NULL, result_error = NULL, " +:+
     "updated_at = excluded.updated_at")
    (Some "executions.status IN ('failed', 'pending')"%string)
    (Some "job_id, execution_count, dispatch_id, updated_at"%string).

(** The condition both completions share *)
Definition running_claim_sql : string :=
  "executions.job_id = v.job_id AND executions.dispatch_id = v.dispatch_id AND executions.status = 'running'".

Definition complete_success_sql (rows : nat) : string :=
  update_from_values_sql "executions" "v"
    ("status = 'completed', lease_expires_at = NULL, " +:+
     "result_payload = v.payload, result_error = NULL, updated_at = v.updated_at")
    ["job_id"; "dispatch_id"; "payload"; "updated_at"]%string rows running_claim_sql
    (Some "executions.job_id, executions.dispatch_id"%string).

Definition complete_fail_sql (rows : nat) : string :=
  update_from_values_sql "executions" "v"
    "status = 'failed', lease_expires_at = NULL, result_error = v.message, updated_at = v.updated_at"
    ["job_id"; "dispatch_id"; "message"; "updated_at"]%string rows running_claim_sql
    (Some "executions.job_id, executions.dispatch_id, executions.execution_count, executions.queue_name"%string).

Definition recover_sql (rows : nat) : string :=
  update_from_values_sql "executions" "v"
    "status = 'failed', lease_expires_at = NULL, result_error = 'lease expired', updated_at = v.updated_at"
    ["id"; "updated_at"]%string rows "executions.id = v.id AND executions.status = 'running'"
    (Some "executions.id, executions.job_id, executions.dispatch_id, executions.execution_count"%string).

(** A bulk statement, with the values [values.push]ed for each row *)
Inductive bulk_statement : (nat -> string) -> nat -> Prop :=
| BulkEnqueue : bulk_statement enqueue_sql 4
| BulkClaim : bulk_statement claim_sql 3
| BulkRepend : bulk_statement repend_sql 3
| BulkDispatch : bulk_statement dispatch_sql 8
| BulkSuccess : bulk_statement complete_success_sql 4
| BulkFail : bulk_statement complete_fail_sql 4
| BulkRecover : bulk_statement recover_sql 2.

(** ** The parameters of a statement *)

(** SQLite's [SQLITE_MAX_VARIABLE_NUMBER] *)
Definition MAX_VARIABLES : Z := 32766.

(** The numbers of the parameters [?n] of a text, as they occur; [cur] is the one being read. *)
Fixpoint parameters (cur : option N) (s : string) : list N :=
  match s with
  | EmptyString => match cur with Some n => [n] | None => [] end
  | String c s =>
      let d := Z.of_nat (nat_of_ascii c) - 48 in
      match cur with
      | Some n => if bool_decide (0 <= d <= 9) then parameters (Some (n * 10 + Z.to_N d)%N) s
                  else n :: parameters (if bool_decide (c = "?"%char) then Some 0%N else None) s
      | None => parameters (if bool_decide (c = "?"%char) then Some 0%N else None) s
      end
  end.

(** A text without parameters *)
Definition plain (s : string) : bool :=
  forallb (fun c => negb (bool_decide (c = "?"%char))) (String.list_ascii_of_string s).

Lemma plain_parameters s t : plain s = true -> parameters None (s +:+ t) = parameters None t.
Proof.
  induction s as [|c s IH]; [done|]. unfold plain. simpl. intros [Hc Hs]%andb_prop.
  apply negb_true_iff, bool_decide_eq_false in Hc. rewrite bool_decide_eq_false_2 by done. by apply IH.
Qed.

(** A number ends before a text that starts with no digit. *)
Definition ends_number (t : string) : Prop := forall n, parameters (Some n) t = n :: parameters None t.

Lemma parameters_number (n : N) t :
  ends_number t -> parameters None ("?" +:+ pretty n +:+ t) = n :: parameters None t.
Proof.
  intros Ht. change (parameters (Some 0%N) (pretty n +:+ t) = n :: parameters None t).
  assert (Hgo : forall (m : N) s, parameters (Some 0%N) (pretty_N_go m s +:+ t) = parameters (Some m) (s +:+ t)).
  { intros m. induction (N.lt_wf_0 m) as [m _ IH]. intros s. destruct (decide (m = 0)%N) as [->|Hm]; [done|].
    rewrite pretty_N_go_step by lia. rewrite IH by (apply N.div_lt; lia). simpl.
    pose proof (N.mod_lt m 10 ltac:(done)) as Hd. pose proof (N.div_mod m 10 ltac:(done)) as Hdiv.
    set (d := (m mod 10)%N) in *. set (q := (m / 10)%N) in *.
    rewrite (digit_value d Hd).
    rewrite bool_decide_eq_true_2 by lia. f_equal. f_equal. lia. }
  unfold pretty, pretty_N. case_decide as Hn; [subst n; apply Ht|]. rewrite Hgo. apply Ht.
Qed.

Lemma ends_comma t : ends_number (", " +:+ t).
Proof. done. Qed.
Lemma ends_paren t : ends_number (")" +:+ t).
Proof. done. Qed.

Lemma append_assoc (a b c : string) : (a +:+ b) +:+ c = a +:+ (b +:+ c).
Proof. induction a as [|x a IH]; [done|]. exact (f_equal (String x) IH). Qed.

Lemma concat_cons (sep x y : string) l : String.concat sep (x :: y :: l) = x +:+ sep +:+ String.concat sep (y :: l).
Proof. done. Qed.

Definition row_text (l : list N) : string :=
  "(" +:+ String.concat ", " ((fun n => "?" +:+ pretty n) <$> l) +:+ ")".

Lemma parameters_row l t : parameters None (row_text l +:+ t) = l ++ parameters None t.
Proof.
  unfold row_text. rewrite append_assoc, (plain_parameters "(") by done.
  induction l as [|n l IH]; [done|]. destruct l as [|m l].
  - cbn [fmap list_fmap String.concat]. rewrite !append_assoc. by apply parameters_number, ends_paren.
  - rewrite !fmap_cons, concat_cons in *. rewrite !append_assoc in *.
    rewrite parameters_number by apply ends_comma. cbn [app]. f_equal. exact IH.
Qed.

(** The placeholders of some rows, one after the other *)
Lemma parameters_rows (rows : list (list N)) t :
  parameters None (String.concat ", " (row_text <$> rows) +:+ t) = concat rows ++ parameters None t.
Proof.
  induction rows as [|l rows IH]; [done|]. destruct rows as [|m rows].
  - cbn [fmap list_fmap String.concat concat]. rewrite app_nil_r. apply parameters_row.
  - rewrite !fmap_cons, concat_cons in *. rewrite !append_assoc in *. rewrite parameters_row, (plain_parameters ", ") by done.
    cbn [concat] in *. rewrite <-app_assoc. by f_equal.
Qed.

Lemma concat_rows rows cols :
  concat ((fun row => (fun col => N.of_nat (row * cols + col)) <$> seq 1 cols) <$> seq 0 rows)
  = N.of_nat <$> seq 1 (rows * cols).
Proof.
  induction rows as [|rows IH]; [done|]. rewrite seq_S, fmap_app, concat_app, IH. cbn [fmap list_fmap concat].
  rewrite app_nil_r. replace (S rows * cols)%nat with (rows * cols + cols)%nat by lia. rewrite seq_app, fmap_app. f_equal.
  rewrite (Nat.add_comm 1 (rows * cols)), <-fmap_add_seq, <-list_fmap_compose. apply list_fmap_ext. done.
Qed.

(** ** Binding *)

Lemma values_placeholders_parameters rows cols t :
  parameters None (values_placeholders rows cols +:+ t) = (N.of_nat <$> seq 1 (rows * cols)) ++ parameters None t.
Proof.
  rewrite <-concat_rows, <-parameters_rows. do 2 f_equal. unfold values_placeholders. f_equal.
  rewrite <-list_fmap_compose. apply list_fmap_ext. intros i row _. unfold compose, row_text.
  by rewrite <-list_fmap_compose.
Qed.

Lemma append_empty (s : string) : s +:+ "" = s.
Proof. induction s as [|x s IH]; [done|]. exact (f_equal (String x) IH). Qed.

(** A statement is plain text, the rows, and plain text. *)
Lemma framed_parameters (sql pre post : string) rows cols :
  sql = pre +:+ values_placeholders rows cols +:+ post -> plain pre = true -> plain post = true ->
  parameters None sql = N.of_nat <$> seq 1 (rows * cols).
Proof.
  intros -> Hpre Hpost. rewrite plain_parameters, values_placeholders_parameters by done.
  rewrite <-(append_empty post), plain_parameters by done. apply app_nil_r.
Qed.

Ltac open_text := rewrite ?append_assoc; rewrite ?append_empty; reflexivity.

Lemma insert_text table columns rows :
  insert_sql table columns rows =
    ("INSERT INTO " +:+ table +:+ " (" +:+ String.concat ", " columns +:+ ") VALUES ") +:+
    values_placeholders rows (length columns) +:+ "".
Proof. unfold insert_sql. open_text. Qed.

Lemma upsert_text table columns rows target set_sql where_sql returning :
  upsert_sql table columns rows target set_sql where_sql returning =
    ("INSERT INTO " +:+ table +:+ " (" +:+ String.concat ", " columns +:+ ") VALUES ") +:+
    values_placeholders rows (length columns) +:+
    (" ON CONFLICT(" +:+ target +:+ ") DO UPDATE SET " +:+ set_sql +:+
     push_clause " WHERE " where_sql +:+ push_clause " RETURNING " returning).
Proof. unfold upsert_sql. open_text. Qed.

Lemma update_text table alias set_sql columns rows where_sql returning :
  update_from_values_sql table alias set_sql columns rows where_sql returning =
    ("WITH " +:+ alias +:+ "(" +:+ String.concat ", " columns +:+ ") AS (VALUES ") +:+
    values_placeholders rows (length columns) +:+
    (") UPDATE " +:+ table +:+ " SET " +:+ set_sql +:+ " FROM " +:+ alias +:+ " WHERE " +:+ where_sql +:+
     push_clause " RETURNING " returning).
Proof. unfold update_from_values_sql. open_text. Qed.

Lemma bulk_parameters sql width rows :
  bulk_statement sql width -> parameters None (sql rows) = N.of_nat <$> seq 1 (rows * width).
Proof.
  intros []; unfold enqueue_sql, claim_sql, repend_sql, dispatch_sql, complete_success_sql, complete_fail_sql, recover_sql;
    rewrite ?update_text, ?upsert_text, ?insert_text; (eapply framed_parameters; [reflexivity| |]); vm_compute; reflexivity.
Qed.

(** The text of a bulk statement has a parameter for each value that is bound, numbered in the order
    in which the values are pushed, row by row: value [j] of row [i] is parameter [i * width + j + 1].
    A chunk of rows is never empty, and never needs more parameters than SQLite allows. *)
Theorem bulk_statements_bind_their_values {A B} sql width (l : list A) (values : A -> list B) chunk :
  bulk_statement sql width -> (forall row, length (values row) = width) -> chunk ∈ chunks ROWS_PER_STATEMENT l ->
  let bound := concat (values <$> chunk) in
  parameters None (sql (length chunk)) = N.of_nat <$> seq 1 (length bound) /\
  0 < Z.of_nat (length bound) <= MAX_VARIABLES /\
  forall i row j v, chunk !! i = Some row -> values row !! j = Some v ->
    bound !! (i * width + j)%nat = Some v /\
    parameters None (sql (length chunk)) !! (i * width + j)%nat = Some (N.of_nat (i * width + j + 1)).
Proof.
  intros Hsql Hvalues Hchunk bound.
  pose proof (chunks_bound ROWS_PER_STATEMENT ltac:(done) l) as Hbound. rewrite Forall_forall in Hbound.
  specialize (Hbound _ Hchunk).
  assert (Hlen : length bound = (length chunk * width)%nat).
  { unfold bound. clear -Hvalues. induction chunk as [|row chunk IH]; [done|]. rewrite fmap_cons. cbn [concat length].
    rewrite length_app, Hvalues, IH. lia. }
  assert (Hwidth : (0 < width <= 8)%nat) by (by destruct Hsql; lia).
  assert (Hat : forall i row j v, chunk !! i = Some row -> values row !! j = Some v -> bound !! (i * width + j)%nat = Some v).
  { unfold bound. clear -Hvalues. induction chunk as [|row0 chunk IH]; [done|]. intros [|i] row j v Hi Hj;
      rewrite fmap_cons; cbn [concat]; simpl in Hi.
    - simplify_eq. by apply lookup_app_l_Some.
    - rewrite lookup_app_r by (rewrite Hvalues; lia). rewrite Hvalues.
      replace (S i * width + j - width)%nat with (i * width + j)%nat by lia. by eapply IH. }
  rewrite (bulk_parameters _ _ _ Hsql), Hlen. unfold ROWS_PER_STATEMENT, MAX_VARIABLES in *.
  cbn beta in Hbound. split_and!; [done|nia|nia|]. intros i row j v Hi Hj. split; [by eapply Hat|].
  pose proof (Hat _ _ _ _ Hi Hj) as Hv%lookup_lt_Some. rewrite Hlen in Hv.
  rewrite list_lookup_fmap, lookup_seq_lt by done. simpl. do 2 f_equal. lia.
Qed.

Lemma bulk_statements_bind_their_values_witness :
  let rows := [(7, "d1"); (8, "d2")]%string in
  let values := fun row : Z * string => [row.1; row.1; 99] in
  repend_sql 2 = "WITH v(id, dispatch_id, updated_at) AS (VALUES (?1, ?2, ?3), (?4, ?5, ?6)) UPDATE accepted_jobs SET dispatch_id = NULL, updated_at = v.updated_at FROM v WHERE accepted_jobs.id = v.id AND accepted_jobs.dispatch_id = v.dispatch_id"%string /\
  parameters None (repend_sql 2) !! 3%nat = Some 4%N.
Proof.
  intros rows values. split; [vm_compute; reflexivity|].
  refine (proj2 (proj2 (proj2 (bulk_statements_bind_their_values repend_sql 3 rows values rows BulkRepend _ _)) 1%nat (8, "d2"%string) 0%nat 8 _ _));
    [by intros|vm_compute; by left|done|done].
Defined.
