(* ===== verification/Api.v ===== *)
(** * The HTTP API and its client

    [crates/types/src/http.rs], [crates/api/src/lib.rs] and [crates/client-sdk]: the routes over the
    engine, the answers they give and the client that speaks to them. axum, serde_json and reqwest are
    not part of the repository: the matching of routes, the extractors, the coding of the bodies and the
    connection are classes whose laws are what their documentation says. *)
From S2P Require Import Prelude Types Db Interfaces Tasks Engine Config.
From Stdlib Require Import Ascii.

(** ** The messages *)

Record JobRequest (V : Type) := mkJobRequest { rq_name : string; rq_payload : V }.
Arguments mkJobRequest {V}.
Arguments rq_name {V}.
Arguments rq_payload {V}.

Record JobResponse := mkJobResponse { rs_id : Z; rs_name : string; rs_status : string }.

Record ErrorBody := mkErrorBody { eb_error : string }.

(** The JSON of the messages, as serde_json writes and reads it *)
Class Json (V : Type) := {
  request_to_json : JobRequest V -> bytes;
  request_from_json : bytes -> result string (JobRequest V);
  response_to_json : JobResponse -> bytes;
  response_from_json : bytes -> result string JobResponse;
  error_to_json : ErrorBody -> bytes;
  error_from_json : bytes -> result string ErrorBody
}.

(** Integers and strings are read as they were written. Nothing is assumed of a request: its payload is
    any JSON value, and a number with a fraction may be read as a neighbour of the one written. *)
Class JsonLaws V (J : Json V) : Prop := {
  response_json : forall r, response_from_json (response_to_json r) = Ok r;
  error_json : forall e, error_from_json (error_to_json e) = Ok e
}.

(** ** HTTP *)

Inductive Method := GET | POST | Head | OtherMethod (name : string).
#[export] Instance Method_eq_dec : EqDecision Method.
Proof. solve_decision. Defined.

(** To the server [h_target] is the path of a request, to the client the whole URL. *)
Record HttpRequest := mkHttpRequest {
  h_method : Method;
  h_target : string;
  h_content_type : option string;
  h_body : bytes
}.

Record HttpResponse := mkHttpResponse { h_status : Z; h_content : bytes }.

(** [StatusCode] *)
Definition status_OK : Z := 200.
Definition CREATED : Z := 201.
Definition NO_CONTENT : Z := 204.
Definition BAD_REQUEST : Z := 400.
Definition NOT_FOUND : Z := 404.
Definition INTERNAL_SERVER_ERROR : Z := 500.

(** axum: a route serves a request, with the parameters of its pattern, or does not; the extractors give
    a value or the answer that refuses the request; a request no route serves has an answer, too. *)
Class Axum (V : Type) := {
  serves : Method -> string -> HttpRequest -> option (list string);
  unrouted : HttpRequest -> HttpResponse;
  extract_json : HttpRequest -> result HttpResponse (JobRequest V);
  extract_i64 : list string -> result HttpResponse Z
}.

(** The text of a path segment *)
Definition is_segment (s : string) : bool :=
  negb (bool_decide (s = ""%string)) && forallb (fun c => negb (bool_decide (c = "/"%char))) (String.list_ascii_of_string s).

(** [DefaultBodyLimit]: the bytes that an extractor reads of a body *)
Definition BODY_LIMIT : Z := 2097152.

Class AxumLaws V (J : Json V) (A : Axum V) : Prop := {
  (** a path without parameters serves the requests to it *)
  serves_literal : forall m p req, p = "/health"%string \/ p = "/jobs"%string ->
    h_method req = m -> serves m p req = (if decide (h_target req = p) then Some [] else None);
  (** a method serves only its requests; [GET] those of [HEAD] *)
  serves_method : forall m p req, h_method req <> m -> h_method req <> Head -> serves m p req = None;
  (** [{id}] stands for one segment *)
  serves_segment : forall seg req, h_method req = GET -> h_target req = ("/jobs/" +:+ seg)%string ->
    is_segment seg = true -> serves GET "/jobs/{id}" req = Some [seg];
  (** a body of that content type within the limit is what serde_json reads *)
  extract_json_reads : forall req r, h_content_type req = Some "application/json"%string ->
    Z.of_nat (length (h_body req)) <= BODY_LIMIT -> request_from_json (h_body req) = Ok r ->
    extract_json req = Ok r;
  (** a decimal number that fits is read *)
  extract_i64_reads : forall id, i64_min <= id <= i64_max -> extract_i64 [pretty id] = Ok id
}.

(** ** The API *)

(** [EngineError], as [thiserror] writes it *)
Definition EngineError_to_string (error : EngineError) : string :=
  match error with
  | UnknownQueue name => "unknown job queue: " +:+ name
  | JobNotFound id => "job not found: " +:+ pretty id
  | Storage _ => "engine storage is unavailable"
  | Payload message => "failed to serialize payload: " +:+ message
  end.

Record ApiError := mkApiError { ae_status : Z; ae_message : string }.

(** [impl From<EngineError> for ApiError] *)
Definition ApiError_from (error : EngineError) : ApiError :=
  let status :=
    match error with
    | UnknownQueue _ | Payload _ => BAD_REQUEST
    | JobNotFound _ => NOT_FOUND
    | Storage _ => INTERNAL_SERVER_ERROR
    end in
  mkApiError status (EngineError_to_string error).

Definition to_response (job : JobView) : JobResponse :=
  mkJobResponse (jv_id job) (jv_name job) (status_to_string (jv_status job)).

Section api.
Context `{E : Env} {S D P : Type} `{!DurableStore S} `{!WorkerDispatcher D P}.
Context {V : Type} `{!Json V} `{!Axum V} (to_vec : V -> result string bytes).
#[local] Notation eng := (engine S D P).

(** [impl IntoResponse for ApiError] *)
Definition into_response (error : ApiError) : HttpResponse :=
  mkHttpResponse (ae_status error) (error_to_json (mkErrorBody (ae_message error))).

Definition submit_job (request : JobRequest V) : M eng HttpResponse :=
  response ← run (submit to_vec (mkSubmitJob (rq_name request) (rq_payload request)));
  mret (match response with
        | Ok job => mkHttpResponse CREATED (response_to_json (to_response job))
        | Err error => into_response (ApiError_from error)
        end).

Definition api_get_job (id : Z) : M eng HttpResponse :=
  response ← run (engine_get_job id);
  mret (match response with
        | Ok job => mkHttpResponse status_OK (response_to_json (to_response job))
        | Err error => into_response (ApiError_from error)
        end).

(** [router]: the extractors run before the handler. *)
Definition router (req : HttpRequest) : M eng HttpResponse :=
  match serves GET "/health" req with
  | Some _ => mret (mkHttpResponse NO_CONTENT [])
  | None =>
      match serves POST "/jobs" req with
      | Some _ =>
          match extract_json req with
          | Ok request => submit_job request
          | Err rejection => mret rejection
          end
      | None =>
          match serves GET "/jobs/{id}" req with
          | Some params =>
              match extract_i64 params with
              | Ok id => api_get_job id
              | Err rejection => mret rejection
              end
          | None => mret (unrouted req)
          end
      end
  end.
End api.

(** ** The client *)

Record MaqistorHttpClient := mkHttpClient { base_url : string }.

Definition with_client (base_url : string) : MaqistorHttpClient := mkHttpClient (trim_end_slashes base_url).

Definition url (c : MaqistorHttpClient) (path : string) : string := base_url c +:+ path.

Inductive HttpError : Type :=
| Transport (source : string)
| ApiStatus (status : Z) (message : string).

Section client.
Context {V : Type} `{!Json V} {W : Type}.
(** [RequestBuilder::send]: what a request does to the world, and the response if there is one *)
Context (send : HttpRequest -> M W (result string HttpResponse)).

(** [HttpError::from_response] *)
Definition from_response (response : HttpResponse) : HttpError :=
  match error_from_json (h_content response) with
  | Ok body => ApiStatus (h_status response) (eb_error body)
  | Err error => ApiStatus (h_status response) error
  end.

Definition client_health (c : MaqistorHttpClient) : M W (result HttpError unit) :=
  response ← send (mkHttpRequest GET (url c "/health") None []);
  mret (let? response := map_err Transport response in
        if decide (h_status response = NO_CONTENT) then Ok tt else Err (from_response response)).

(** [Ok(response.json().await?)] *)
Definition response_json_or_error (response : HttpResponse) : result HttpError JobResponse :=
  map_err Transport (response_from_json (h_content response)).

Definition client_enqueue (c : MaqistorHttpClient) (request : JobRequest V) : M W (result HttpError JobResponse) :=
  response ← send (mkHttpRequest POST (url c "/jobs") (Some "application/json"%string) (request_to_json request));
  mret (let? response := map_err Transport response in
        if decide (h_status response = CREATED) then response_json_or_error response
        else Err (from_response response)).

Definition client_get_job (c : MaqistorHttpClient) (id : Z) : M W (result HttpError JobResponse) :=
  response ← send (mkHttpRequest GET (url c ("/jobs/" +:+ pretty id)) None []);
  mret (let? response := map_err Transport response in
        if decide (h_status response = status_OK) then response_json_or_error response
        else Err (from_response response)).
End client.
