(* ===== verification/ApiProps.v ===== *)
(** * Properties of the HTTP API and its client

    What the client gets is what the engine answers, and a request that is not accepted leaves no trace. *)
From S2P Require Import Prelude Types Db Tables Ingest Store StoreFacts StoreProps Scheduler Interfaces Tasks Engine EngineProps EngineSteps.
From S2P Require Import Registry RegistryProps System Config Server ServerProps Api.
From Stdlib Require Import Ascii.

(** ** A request and its answer *)

(** What the client is to get for an answer of the engine: the job, with its status in words, or the
    error as an HTTP status and a text *)
Definition seen (r : result EngineError JobView) : result HttpError JobResponse :=
  match r with
  | Ok job => Ok (mkJobResponse (jv_id job) (jv_name job) (as_str (jv_status job)))
  | Err (UnknownQueue name) => Err (ApiStatus 400 ("unknown job queue: " +:+ name))
  | Err (Payload message) => Err (ApiStatus 400 ("failed to serialize payload: " +:+ message))
  | Err (JobNotFound id) => Err (ApiStatus 404 ("job not found: " +:+ pretty id))
  | Err (Storage _) => Err (ApiStatus 500 "engine storage is unavailable")
  end.

(** The decimal text of a number is a segment. *)
Definition no_slash (s : string) : bool :=
  forallb (fun c => negb (bool_decide (c = "/"%char))) (String.list_ascii_of_string s).

Lemma pretty_N_no_slash (n : N) s : no_slash s = true -> no_slash (pretty_N_go n s) = true.
Proof.
  revert s. induction (N.lt_wf_0 n) as [n _ IH]. intros s Hs. destruct (decide (n = 0)%N) as [->|Hn]; [done|].
  rewrite pretty_N_go_step by lia. apply IH; [apply N.div_lt; lia|].
  pose proof (N.mod_lt n 10 ltac:(done)) as Hd. set (d := (n mod 10)%N) in *. unfold no_slash in *. simpl. rewrite Hs.
  by digit_cases d.
Qed.

Lemma pretty_is_segment (x : Z) : is_segment (pretty x) = true.
Proof.
  assert (Hpos : forall p, is_segment (pretty (N.pos p)) = true).
  { intros p. change (pretty (N.pos p)) with (pretty_N_go (N.pos p) "").
    pose proof (pretty_N_no_slash (N.pos p) "" eq_refl) as Hs. destruct (pretty_N_head (N.pos p) "" ltac:(done)) as (d & t & _ & E).
    unfold is_segment. fold (no_slash (pretty_N_go (N.pos p) "")). by rewrite Hs, E. }
  destruct x as [|p|p]; [done|exact (Hpos p)|].
  specialize (Hpos p). change (pretty (Z.neg p)) with (String "-" (pretty (N.pos p))).
  unfold is_segment in *. apply andb_prop in Hpos as [_ Hs]. simpl. by rewrite Hs.
Qed.

(** ** Client and server *)

Section client_server.
Context `{Env} {S D P : Type} `{!DurableStore S} `{!WorkerDispatcher D P}.
Context {V : Type} `{J : Json V} {JL : JsonLaws V J} `{A : Axum V} {AL : AxumLaws V J A}.
Context (to_vec : V -> result string bytes).
#[local] Notation eng := (engine S D P).
#[local] Notation served := (router (S := S) (D := D) (P := P) to_vec).

(** What arrives at the address [base] is what the router is asked. *)
Definition delivers (base : string) (send : HttpRequest -> M eng (result string HttpResponse)) : Prop :=
  forall m path content_type body c,
    send (mkHttpRequest m (base +:+ path) content_type body) c =
      (resp ← served (mkHttpRequest m path content_type body); mret (Ok resp)) c.

Lemma router_health ct body : served (mkHttpRequest GET "/health" ct body) = mret (mkHttpResponse NO_CONTENT []).
Proof using AL. unfold router. rewrite serves_literal by auto. by rewrite decide_True. Qed.

Lemma router_jobs ct body :
  served (mkHttpRequest POST "/jobs" ct body) =
    match extract_json (mkHttpRequest POST "/jobs" ct body) with
    | Ok request => submit_job to_vec request
    | Err rejection => mret rejection
    end.
Proof using AL.
  unfold router. rewrite serves_method by done. rewrite serves_literal by auto. by rewrite decide_True.
Qed.

Lemma router_jobs_id id ct body :
  i64_min <= id <= i64_max ->
  served (mkHttpRequest GET ("/jobs/" +:+ pretty id) ct body) = api_get_job id.
Proof using AL.
  intros Hid. unfold router. rewrite serves_literal by auto. rewrite decide_False by done.
  rewrite serves_method by done. rewrite (serves_segment (pretty id)) by (done || apply pretty_is_segment).
  by rewrite extract_i64_reads.
Qed.

Lemma from_response_into_response error :
  from_response (into_response (ApiError_from error)) =
    ApiStatus (ae_status (ApiError_from error)) (EngineError_to_string error).
Proof using JL. unfold from_response. cbn [into_response h_content]. by rewrite error_json. Qed.

Lemma status_is_an_error error : ae_status (ApiError_from error) = BAD_REQUEST \/
  ae_status (ApiError_from error) = NOT_FOUND \/ ae_status (ApiError_from error) = INTERNAL_SERVER_ERROR.
Proof. destruct error; auto. Qed.

(** The two calls answer alike. *)
Lemma answer_is_seen ok (r : result EngineError JobView) :
  ok = CREATED \/ ok = status_OK ->
  let response := match r with
                  | Ok job => mkHttpResponse ok (response_to_json (to_response job))
                  | Err error => into_response (ApiError_from error)
                  end in
  (if decide (h_status response = ok) then response_json_or_error response else Err (from_response response)) = seen r.
Proof using JL.
  intros Hok. destruct r as [job|error]; cbn zeta.
  - cbn [h_status]. rewrite decide_True by done. unfold response_json_or_error. cbn [h_content]. by rewrite response_json.
  - cbn [into_response h_status]. rewrite from_response_into_response. rewrite decide_False; [by destruct error|].
    destruct Hok as [-> | ->], (status_is_an_error error) as [->|[-> | ->]]; done.
Qed.
End client_server.

(** C25. The client sees the engine: over a connection that delivers its requests, a call of the client
    does what the call of the engine does and returns its answer, the job as the engine sees it or the
    error with its message under the status of its kind; the status of a job is read back; the health
    check changes nothing. Slashes at the end of the address make no difference. *)
Theorem client_sees_the_engine `{Env} {S D P V} `{!DurableStore S} `{!WorkerDispatcher D P} `{J : Json V} `{!JsonLaws V J}
    `{A : Axum V} `{!AxumLaws V J A} (to_vec : V -> result string bytes) address
    (send : HttpRequest -> M (engine S D P) (result string HttpResponse)) :
  delivers to_vec (trim_end_slashes address) send ->
  let client := with_client address in
  (forall c, client_health send client c = (Ok (Ok tt), c)) /\
  (forall request received c,
     Z.of_nat (length (request_to_json request)) <= BODY_LIMIT ->
     request_from_json (request_to_json request) = Ok received ->
     client_enqueue send client request c =
       (r ← run (submit to_vec (mkSubmitJob (rq_name received) (rq_payload received))); mret (seen r)) c) /\
  (forall id c, i64_min <= id <= i64_max ->
     client_get_job send client id c = (r ← run (engine_get_job id); mret (seen r)) c) /\
  (forall job, parse (rs_status (to_response job)) = Some (jv_status job)).
Proof.
  intros Hsend client. split_and!.
  - intros c. unfold client_health, url, client, with_client. cbn [base_url]. unfold mbind, M_bind at 1.
    by rewrite Hsend, router_health.
  - intros request received c Hlen Hjson. unfold client_enqueue, url, client, with_client. cbn [base_url]. unfold mbind at 1, M_bind at 1.
    rewrite Hsend, router_jobs, (extract_json_reads _ received) by done.
    unfold submit_job, mbind, M_bind. destruct (run (submit _ _) c) as [[r|e] c']; [|done].
    cbn. f_equal. f_equal. apply (answer_is_seen CREATED). by left.
  - intros id c Hid. unfold client_get_job, url, client, with_client. cbn [base_url]. unfold mbind at 1, M_bind at 1.
    rewrite Hsend, router_jobs_id by done.
    unfold api_get_job, mbind, M_bind. destruct (run (engine_get_job id) c) as [[r|e] c']; [|done].
    cbn. f_equal. f_equal. apply (answer_is_seen status_OK). by right.
  - intros job. apply parse_as_str.
Qed.

(** ** What a request may change *)

Section requests.
Context `{EL : EnvLaws} {D P : Type} `{!EqDecision P} `{!WorkerDispatcher D P} {W : WorkerDispatcherLaws D P}.
Context (options : DispatchOptions) {V : Type} `{!Json V} `{!Axum V} (to_vec : V -> result string bytes).

(** The request is an accepted submission, and [response] tells the client the id of the job that is stored. *)
Definition accepted_submission (idle : Prop) (req : HttpRequest) (e : engine store D P) (response : HttpResponse)
    (e' : engine store D P) : Prop :=
  exists request id payload now,
    extract_json req = Ok request /\ to_vec (rq_payload request) = Ok payload /\
    rq_name request ∈ s_names (e_store e) /\
    response = mkHttpResponse CREATED (response_to_json (mkJobResponse id (rq_name request) "pending")) /\
    i_accepted (s_ingest (e_store e)) !! id = None /\
    i_accepted (s_ingest (e_store e')) =
      <[id := new_accepted_row (AcceptedJob_new now (rq_name request) payload)]> (i_accepted (s_ingest (e_store e))) /\
    has_turn idle (rq_name request) (e_sched e').

Lemma accepted_submission_idle (idle idle' : Prop) req e response e' :
  (idle' -> idle) -> accepted_submission idle req e response e' -> accepted_submission idle' req e response e'.
Proof using Type.
  intros Hi (request & id & payload & now & H1 & H2 & H3 & H4 & H5 & H6 & (Hs & Hw & Ht)).
  exists request, id, payload, now. split_and!; try done. split_and!; auto.
Qed.

Lemma wp_engine_get_job id (c : conn (engine store D P)) :
  wp (run (engine_get_job id)) (fun r c' => is_ok r = true /\ c_db c' = c_db c) c.
Proof using Type.
  destruct c as [n e]. unfold engine_get_job, call_store. run_rule. run_rule. run_rule. unfold with_store. apply wp_zoom.
  eapply wp_mono; [apply wp_composed_same|]. intros [job|e'] c' Hc; simpl in Hc; rewrite Hc.
  all: run_rule; split; [done|by destruct e].
Qed.

Lemma wp_router (idle : Prop) req h c :
  engine_ok options h (c_db c) -> (idle -> h_turns h = []) -> id_room (i_accepted (s_ingest (e_store (c_db c)))) 1 ->
  wp (router to_vec req) (fun r c' => exists response, r = Ok response /\
    (c_db c' = c_db c \/
     serves POST "/jobs" req <> None /\ accepted_submission idle req (c_db c) response (c_db c'))) c.
Proof using EL W.
  intros Hok Hidle Hroom. unfold router.
  destruct (serves GET "/health" req); [wp_rule; eauto|].
  destruct (serves POST "/jobs" req).
  - destruct (extract_json req) as [request|rejection] eqn:Hreq; [|wp_rule; eauto].
    unfold submit_job. wp_rule. eapply wp_mono; [by apply (wp_submit options to_vec idle _ h)|]. intros r c' (res & -> & Hpost).
    wp_rule. eexists. split; [done|]. destruct res as [job|error]; [right|by left]. split; [done|].
    destruct Hpost as (payload & now & Hp & Hname & -> & Hfresh & Hins & Htx). cbn in *.
    exists request, (next_job_id (e_store (c_db c))), payload, now. by split_and!.
  - destruct (serves GET "/jobs/{id}" req) as [params|]; [|wp_rule; eauto].
    destruct (extract_i64 params) as [id|rejection]; [|wp_rule; eauto].
    unfold api_get_job. wp_rule. eapply wp_mono; [apply wp_engine_get_job|]. intros r c' [Hr Hc].
    destruct r as [res|]; [|done]. wp_rule. eauto.
Qed.
End requests.

(** C24. Every request is answered, and only a submission the engine accepts changes the executor: then
    the answer is 201 with the fresh id under which the job of the request is stored, waiting, its queue
    has a turn, and no other job changed. *)
Theorem only_accepted_submissions_change_the_executor `{EnvLaws} {D P V} `{!EqDecision P, !WorkerDispatcher D P}
    `{W : !WorkerDispatcherLaws D P} `{!Json V} `{!Axum V} options (to_vec : V -> result string bytes) n s d req st r c' :
  wd_ok d -> (forall p, wd_outstanding d p = 0%nat) -> 0 <= max_delivery_in_flight options ->
  rtc (engine_step options to_vec) (engine_start options n s d) st ->
  let c := es_conn st in
  id_room (i_accepted (s_ingest (e_store (c_db c)))) 1 ->
  router to_vec req c = (r, c') ->
  exists response, r = Ok response /\
    (c_db c' = c_db c \/
     serves POST "/jobs" req <> None /\ accepted_submission to_vec (es_loop st = None) req (c_db c) response (c_db c')).
Proof.
  intros Hd Ho Hm Hs c Hroom Hrun. pose proof (engine_reachable_ok options to_vec n s d st Hd Ho Hm Hs) as Hok.
  destruct (tasks_ok_idle options st Hok) as (h & Hh & Hidle).
  exact (wp_run _ _ _ _ _ (wp_router options to_vec _ req h c Hh Hidle Hroom) Hrun).
Qed.

(** ** A server and its client

    Messages are coded as the bits of their countings; the routes and the extractors are those of the
    laws and no more. *)

Fixpoint bits (p : positive) : bytes :=
  match p with xH => [] | xO p => Byte.x30 :: bits p | xI p => Byte.x31 :: bits p end.
Fixpoint unbits (b : bytes) : positive :=
  match b with [] => xH | Byte.x30 :: b => xO (unbits b) | _ :: b => xI (unbits b) end.

Lemma unbits_bits p : unbits (bits p) = p.
Proof. induction p; simpl; by f_equal. Qed.

Definition coded {A} `{Countable A} (x : A) : bytes := bits (encode x).
Definition decoded {A} `{Countable A} (b : bytes) : result string A :=
  match decode (unbits b) with Some x => Ok x | None => Err "invalid"%string end.

Lemma decoded_coded {A} `{Countable A} (x : A) : decoded (coded x) = Ok x.
Proof. unfold decoded, coded. by rewrite unbits_bits, decode_encode. Qed.

#[local] Instance model_json : Json string := {|
  request_to_json r := coded (rq_name r, rq_payload r);
  request_from_json b := result_map (fun x => mkJobRequest x.1 x.2) (decoded b);
  response_to_json r := coded (rs_id r, rs_name r, rs_status r);
  response_from_json b := result_map (fun x => mkJobResponse x.1.1 x.1.2 x.2) (decoded b);
  error_to_json e := coded (eb_error e);
  error_from_json b := result_map mkErrorBody (decoded b)
|}.

#[local] Instance model_json_laws : JsonLaws string model_json.
Proof. split; intros []; cbn -[decoded coded]; by rewrite decoded_coded. Qed.

Fixpoint strip_prefix (p s : string) : option string :=
  match p, s with
  | EmptyString, _ => Some s
  | String a p, String b s => if decide (a = b) then strip_prefix p s else None
  | _, _ => None
  end.

Lemma strip_prefix_app p s : strip_prefix p (p +:+ s) = Some s.
Proof. induction p as [|a p IH]; simpl; [done|]. by rewrite decide_True. Qed.

Definition same_method (m : Method) (req : HttpRequest) : bool :=
  bool_decide (h_method req = m) || bool_decide (m = GET) && bool_decide (h_method req = Head).

#[local] Instance model_axum : Axum string := {|
  serves m p req :=
    if same_method m req then
      if decide (p = "/jobs/{id}"%string) then
        match strip_prefix "/jobs/" (h_target req) with
        | Some seg => if is_segment seg then Some [seg] else None
        | None => None
        end
      else if decide (h_target req = p) then Some [] else None
    else None;
  unrouted _ := mkHttpResponse NOT_FOUND [];
  extract_json req :=
    match request_from_json (h_body req) with
    | Ok r => Ok r
    | Err _ => Err (mkHttpResponse BAD_REQUEST [])
    end;
  extract_i64 params :=
    match params with
    | [s] => match parse_i64 s with Some id => Ok id | None => Err (mkHttpResponse BAD_REQUEST []) end
    | _ => Err (mkHttpResponse INTERNAL_SERVER_ERROR [])
    end
|}.

#[local] Instance model_axum_laws : AxumLaws string model_json model_axum.
Proof.
  split; cbn -[decode encode strip_prefix is_segment parse_i64].
  - intros m p req Hp Hm. unfold same_method. rewrite bool_decide_eq_true_2 by done. simpl.
    rewrite decide_False; [done|]. by destruct Hp as [-> | ->].
  - intros m p req Hm Hh. unfold same_method. rewrite (bool_decide_eq_false_2 _ Hm), (bool_decide_eq_false_2 _ Hh). by destruct (bool_decide (m = GET)).
  - intros seg req Hm Ht Hs. unfold same_method. rewrite Hm, Ht. cbn -[strip_prefix is_segment].
    by rewrite strip_prefix_app, Hs.
  - intros req r _ _ Hr. by rewrite Hr.
  - intros id Hid. by rewrite parse_i64_pretty.
Qed.

#[local] Existing Instance model_env.

(** The server of [System]'s example at an address *)
Definition text_to_vec (text : string) : result string bytes := Ok (String.list_byte_of_string text).
Definition example_served := router (S := store) (D := WorkerRegistry) (P := Z) text_to_vec.
Definition example_send (req : HttpRequest) : M (engine store WorkerRegistry Z) (result string HttpResponse) :=
  match strip_prefix "http://maqistor:8080" (h_target req) with
  | Some path => resp ← example_served (mkHttpRequest (h_method req) path (h_content_type req) (h_body req)); mret (Ok resp)
  | None => mret (Err "connection refused"%string)
  end.

Lemma example_send_delivers :
  delivers (H := model_env) text_to_vec (trim_end_slashes "http://maqistor:8080//") example_send.
Proof.
  intros m path ct body c. unfold example_send. cbn [h_target]. change (trim_end_slashes _) with "http://maqistor:8080"%string.
  by rewrite strip_prefix_app.
Qed.

Definition example_request : JobRequest string := mkJobRequest "email" "a".

Lemma client_sees_the_engine_witness :
  let client := with_client "http://maqistor:8080//" in
  let enqueued := client_enqueue example_send client example_request example_seeded in
  fst enqueued = Ok (Ok (mkJobResponse 3 "email" "pending")) /\
  fst (client_get_job (V := string) example_send client 3 (snd enqueued)) = Ok (Ok (mkJobResponse 3 "email" "pending")) /\
  fst (client_get_job (V := string) example_send client 9 (snd enqueued)) = Ok (Err (ApiStatus 404 "job not found: 9")).
Proof.
  intros client enqueued.
  destruct (client_sees_the_engine (H := model_env) text_to_vec "http://maqistor:8080//" example_send example_send_delivers)
    as (_ & Henqueue & Hget & _).
  assert (Hjson : request_from_json (request_to_json example_request) = Ok example_request) by (vm_compute; reflexivity).
  assert (Hlen : Z.of_nat (length (request_to_json example_request)) <= BODY_LIMIT) by (vm_compute; discriminate).
  split; [exact (eq_trans (f_equal fst (Henqueue _ _ example_seeded Hlen Hjson)) ltac:(vm_compute; reflexivity))|].
  split.
  - refine (eq_trans (f_equal fst (Hget 3 (snd enqueued) _)) _); [split; vm_compute; discriminate|vm_compute; reflexivity].
  - refine (eq_trans (f_equal fst (Hget 9 (snd enqueued) _)) _); [split; vm_compute; discriminate|vm_compute; reflexivity].
Defined.

(** The request of the client, as the server receives it *)
Definition example_http_request : HttpRequest :=
  mkHttpRequest POST "/jobs" (Some "application/json"%string) (request_to_json example_request).

Lemma only_accepted_submissions_change_the_executor_witness :
  exists response c', example_served example_http_request example_seeded = (Ok response, c') /\ h_status response = CREATED /\
    accepted_submission text_to_vec True example_http_request (c_db example_seeded) response (c_db c').
Proof.
  eexists _, _. split; [vm_compute; reflexivity|]. split; [reflexivity|].
  edestruct (only_accepted_submissions_change_the_executor (E := model_env) (W := RegistryDispatcher_laws) example_options text_to_vec 20
    (c_db example_store) example_workers example_http_request (mkEngineState example_seeded None [] [])) as (response & Hr & Hc).
  - exact example_workers_wf.
  - exact example_workers_free.
  - simpl. lia.
  - exact (example_seeded_reachable _).
  - apply (store_room_decide (e_store (c_db example_seeded))). vm_compute. reflexivity.
  - vm_compute. reflexivity.
  - injection Hr as <-. destruct Hc as [Hc|[_ Hc]]; [|exact (accepted_submission_idle _ _ True _ _ _ _ (fun _ => eq_refl) Hc)].
    apply (f_equal (fun e => size (i_accepted (s_ingest (e_store e))))) in Hc. vm_compute in Hc. discriminate.
Defined.
